(* ===== verification/_CoqProject ===== *)
-Q . S2P
Prelude.v
Heap.v
Message.v
Pools.v
RateLimit.v
PathMatch.v
Group.v
GroupInv.v
GroupDrain.v
GroupSettle.v
KeyIndex.v
ConfigIdx.v
Queue.v
QueueInv.v
QueueHist.v
QueueSnap.v
Codec.v
WalRecord.v
Wal.v
WalSync.v
Names.v
Snapshot.v
Recovery.v
RecoveryInv.v
RecoverySnap.v
TimingWheel.v
SchedStats.v
Registry.v
Scheduler.v
Broker.v
BrokerInv.v
BrokerCrash.v
Lifecycle.v
BrokerSub.v
Auth.v
Server.v
Base64.v
Jwt.v
Table.v
Database.v
DatabaseInv.v
Startup.v
Checkpoint.v
SnapRace.v
Api.v
ApiInv.v
Config.v
Credentials.v
AuditLog.v
Url.v
Providers.v
Connection.v
Keys.v
App.v
Http.v
Cli.v
CliPrint.v
