(* ===== verification/Prelude.v ===== *)
(** * Verification of the octar message broker

    octar is a message broker written in Go.  Producers publish messages to
    queues over TCP; a message belongs to a consumer group of its queue;
    consumers subscribe to groups, by name or by pattern, are sent messages and
    acknowledge or reject them.  Every queue keeps a write-ahead log and
    snapshots, from which the broker rebuilds its state when it starts.  A
    management API over HTTP, with a command-line client, declares namespaces,
    queues, group configurations and users, which a SQLite store keeps.

    ** The parts of the program and the files that model them

    - Messages, groups and queues (src/internal/queue).  [Message.v]: messages
      and identifiers (message.go).  [Pools.v]: the pool of message batches.
      [RateLimit.v]: the sliding-window limiter
      (ratelimit.go).  [Heap.v]: container/heap as delayed.go uses it.
      [PathMatch.v]: path.Match as group.go uses it.  [Group.v]: the state of a
      group (ready, urgent, delayed and in-flight messages) and its operations
      (group.go), with [GroupInv.v] (well-formedness), [GroupDrain.v] (one
      dispatch round) and [GroupSettle.v] (failure, histories, snapshots).
      [KeyIndex.v], [ConfigIdx.v], [Queue.v]: the sorted key index, the index of
      declared configurations and the sharded queue (queue.go, hash.go,
      store.go), with [QueueInv.v] (the shards refine one map), [QueueHist.v]
      (histories of operations) and [QueueSnap.v] (snapshots, replay, paging).
    - The wire protocol (src/internal/protocol).  [Codec.v]: frames, encoder and
      decoder on the bytes of a connection.
    - Storage (src/internal/storage).  [WalRecord.v]: log records, their CRC and
      their reader.  [Wal.v]: the writer of a log with its batches, fsyncs,
      rotations and failures.  [WalSync.v]: the publishers that wait for it, with
      time-outs, shutdown and loss of power.  [Names.v]: file names.
      [Snapshot.v]: the snapshot format.  [Checkpoint.v]: saving a snapshot of a
      running queue and removing old files; [SnapRace.v]: the same while messages
      are published.  [Recovery.v]: discovery and replay
      (recovery/bootstrap.go, replay.go) and the broker's handler
      (src/internal/broker/recovery.go), with [RecoveryInv.v] (replaying events)
      and [RecoverySnap.v] (snapshots, visit of a directory).
    - The scheduler (src/internal/scheduler).  [TimingWheel.v] and [Scheduler.v]:
      timers, activations, the flag protocol between publishers and workers.
      [SchedStats.v]: its statistics and the coarse clock (src/internal/xtime).
    - The broker (src/internal/broker, src/internal/server).  [Registry.v]:
      subscriptions.  [Broker.v]: frame handlers, dispatch, quotas, credits, the
      lease sweep; one state record for what the goroutines share.
      [BrokerInv.v] (admission control), [BrokerCrash.v] (memory and log),
      [BrokerSub.v] (pattern subscriptions), [Lifecycle.v] (the goroutines of the
      running broker and its shutdown), [Server.v] (accept loop), [Connection.v]
      (the writer of a connection).
    - Authentication (src/internal/auth, src/internal/server/connection.go).
      [Auth.v]: identities, password and key providers, policies, the handshake.
      [Providers.v]: OAuth, mutual TLS and the service built from the
      configuration, with [Url.v] (query strings).  [Jwt.v] and [Keys.v]: tokens
      and the signing key, with [Base64.v].  [AuditLog.v]: audit events.
    - The metadata store (src/internal/db).  [Table.v]: what is used of SQL.
      [Database.v] and [DatabaseInv.v]: namespaces, queues, group configurations,
      users and grants.  [Credentials.v]: stored keys and sessions.
    - The management API (src/internal/api/v1).  [Api.v]: the handler of every
      request and the middleware, with [ApiInv.v] (authorisation, agreement of
      store and running queues).  [Http.v]: routes, decoding of requests, JSON of
      answers.
    - The process (src/internal/app, src/internal/config).  [Config.v]: settings.
      [Startup.v]: restoring queues from the store and the logs.  [App.v]: the
      construction of the process, the first administrator, the health check.
    - The command line (src/internal/cli).  [Cli.v]: client, configuration and
      the request of every command.  [CliPrint.v]: what a command prints.

    This file has what they share: panics as values, machine integers with their
    wrap-around, times, bytes and strings, Go maps, string order.

    ** How the code is modelled

    A struct is a record, a method a function from the state before to the state
    after and the result; a method that may panic returns an [outcome].  Integers
    are [Z], with [u32], [i64] and the like where Go wraps.  A time is its number
    of nanoseconds.  A Go map is a [gmap]; the order a range loop visits it in is
    an argument ([range_order], any permutation).  The clock, generated
    identifiers, random bytes, and whether a write, an fsync or a send on a
    channel succeeds are arguments, so the theorems hold for every choice.  A
    queue is an object with an identity where it is shared ([Scheduler.v]); a
    critical section is one step, and what goroutines do between their steps is a
    step relation ([Scheduler.sched_step], [Wal.wstep], [WalSync.sync_step],
    [BrokerInv.bstep], [BrokerCrash.delivery], [Lifecycle.turn],
    [SnapRace.race], [Connection.cstep], [Server.sstep], [Pools.pstep],
    [SchedStats.counts]).  Logging and Prometheus metrics are left out.

    Parameters for code outside the repository, with the laws the theorems use as
    hypotheses or as fields of a class: encoding/json of tokens, stored texts and
    request bodies; SHA-256, bcrypt, the keyed hash of API keys, the signature
    functions and the encodings of keys; time.ParseDuration and the RFC 3339
    texts of times; the check of e-mail addresses; viper's decoding of settings;
    PEM and X.509; the remote OAuth services; whether SQLite enforces foreign
    keys; the router of go-chi; YAML.  The witnesses instantiate them.

    Fuel: [Registry.matchGlobRec] has the length of the pattern, [Heap] the
    length of the heap, [Codec.read_all] one unit per frame, the readers of
    [WalRecord] and [Recovery] the length of the file, [Broker.activate_pages]
    one unit per page, and the theorems show that this is enough.

    ** What the theorems show

    - No message is lost or duplicated in memory: over any history of a group or
      queue, what was accepted is held, completed or given up, exactly once
      ([queue_conservation]); one activation hands over or returns each message
      ([activation_safe]); nothing panics in a reachable state
      ([queue_no_panic]); a group is activated at most once at a time
      ([activation_unique]) and never stranded ([drainRound_no_stranding]).
    - What is confirmed to a producer is durable: [confirmed_durable],
      [waiters_answered], [close_answers_all], [segment_roundtrip],
      [corruption_detected], [removeOldSegments_keeps].
    - A restart gives back the state: [replay_exact], [snapshot_recovery],
      [replay_visits_log], [checkpoint_recovery], [restore_exact],
      [restart_after_session] and, for the broker and its recovery together,
      [crash_equivalence]; also when the process is stopped or dies in the course
      of a stop ([shutdown_keeps_messages]), and, within the bounds the theorem
      states, when snapshots are taken while messages are published
      ([snapshot_race]).  A stop comes to an end ([stop_terminates]).
    - Limits hold: parallelism and retries ([history_bounds]), rates
      ([admitted_rate]), quota and credits ([inflight_accounting],
      [dispatch_spec]), connections ([configured_limit]), timers
      ([wheel_on_time]).
    - Frames survive the wire and bad ones are refused: [client_reads_sent],
      [writer_delivers], [truncated_frame], [accepted_idents].
    - Subscriptions, patterns, configurations, keys and the store implement their
      specifications: [registry_refines], [matchGlob_correct], [round_robin],
      [subscribe_wakes_all], [config_index_map], [api_keys_map],
      [store_refines_catalogue], [credentials_refine], [audit_stored].
    - Who gets in and what they may do: [service_login], [token_session],
      [key_survives_restart], [credentials_file_valid], [changes_authorised].
    - The command line does what it says, through routing, decoding and the
      handlers: [command_served], [administrator_session], [answer_printed],
      [table_aligned].
    - Where the code departs from what it means to do, a theorem exhibits it on a
      concrete run: [replay_depth_loses_accepted], [recovered_group_panics],
      [expired_message_lost], [nacked_message_resurrected],
      [torn_tail_hides_confirmed], [snapshot_loses_confirmed],
      [manual_snapshot_loses_queue], [late_ack_redelivered],
      [spurious_ack_over_admits],
      [plain_user_locked_out], [retry_flags_refused] and others beside the
      components they concern.

    ** What is not modelled

    The insides of the HTTP framework, cobra, SQLite and the terminal; Prometheus
    metrics; logging; loading of TLS certificates, sockets, deadlines and
    signals; the examples.  The token bucket of the accept loop computes with
    floating-point numbers and is an input.  URLs are followed as far as
    arguments need no escaping.  Recovery theorems speak of logs without
    rejections and expiries, whose replay is wrong (above), and the snapshot that
    is interleaved with publications is one of a queue without deliveries, since
    replaying a lease after a snapshot can panic ([recovered_group_panics]). *)

From stdpp Require Import base gmap sets list strings sorting option.
From Stdlib Require Import ZArith Lia Strings.Byte.

Declare Scope go_scope.
Delimit Scope go_scope with go.
Create HintDb octar.

(** ** Panics

    A Go routine either returns a value or panics.  A routine that mutates a
    structure and may panic is a function [S -> S * outcome A]: the first
    component is the structure as the mutation left it, which is what the next
    caller sees when a deferred [recover] swallows the panic. *)
Inductive outcome (A : Type) : Type :=
| Ret (a : A)
| Panic.
Arguments Ret {A} a.
Arguments Panic {A}.

Definition outcome_map {A B} (f : A → B) (o : outcome A) : outcome B :=
  match o with Ret a => Ret (f a) | Panic => Panic end.

Definition is_ret {A} (o : outcome A) : bool :=
  match o with Ret _ => true | Panic => false end.

(** State-and-panic sequencing: [let? x := run in k] continues with the state
    the first routine left, or stops there when it panicked. *)
Notation "'let?' ( s , x ) := e 'in' k" :=
  (match e with
   | (s, Ret x) => k
   | (s, Panic) => (s, Panic)
   end) (at level 10, s name, x pattern, e at level 100, k at level 200) : go_scope.

(** ** Machine integers

    Go integers are [Z]; the width is written out where the code converts,
    shifts or multiplies. *)
Definition wrap_u (w : Z) (z : Z) : Z := z `mod` 2 ^ w.
Definition wrap_s (w : Z) (z : Z) : Z := (z + 2 ^ (w - 1)) `mod` 2 ^ w - 2 ^ (w - 1).

Abbreviation u16 := (wrap_u 16).
Abbreviation u32 := (wrap_u 32).
Abbreviation u64 := (wrap_u 64).
Abbreviation i32 := (wrap_s 32).
Abbreviation i64 := (wrap_s 64).

Lemma wrap_u_small w z : (0 ≤ z < 2 ^ w)%Z → wrap_u w z = z.
Proof. apply Z.mod_small. Qed.

Lemma wrap_s_small w z :
  (0 < w)%Z → (- 2 ^ (w - 1) ≤ z < 2 ^ (w - 1))%Z → wrap_s w z = z.
Proof.
  intros Hw Hz. unfold wrap_s.
  assert (2 ^ w = 2 * 2 ^ (w - 1))%Z as Hp.
  { rewrite <-Z.pow_succ_r by lia. f_equal. lia. }
  rewrite Z.mod_small; lia.
Qed.

Lemma wrap_s_wrap_u w z : (0 ≤ w)%Z → wrap_s w (wrap_u w z) = wrap_s w z.
Proof.
  intros Hw. unfold wrap_s, wrap_u. by rewrite Zplus_mod_idemp_l.
Qed.

(** ** Time

    A [time.Time] is its number of nanoseconds since the Unix epoch.  The zero
    [time.Time] is 1 January of year 1, which [IsZero] recognises. *)
Definition nano : Z := 1.
Definition microsecond : Z := 1000.
Definition millisecond : Z := 1000000.
Definition second : Z := 1000000000.
Definition minute : Z := 60 * second.
Definition hour : Z := 60 * minute.

Definition zero_time : Z := -62135596800 * second.
Definition IsZero (t : Z) : bool := (t =? zero_time)%Z.
Definition Before (t u : Z) : bool := (t <? u)%Z.
Definition After (t u : Z) : bool := (u <? t)%Z.
Definition UnixNano (t : Z) : Z := i64 t.

Lemma IsZero_true t : IsZero t = true ↔ t = zero_time.
Proof. apply Z.eqb_eq. Qed.
Lemma IsZero_false t : IsZero t = false ↔ t ≠ zero_time.
Proof. apply Z.eqb_neq. Qed.

(** The earlier of two wake-up times, zero meaning "none": the update
    [if w.IsZero() || t.Before(w) { w = t }] of the source. *)
Definition min_wake (w t : Z) : Z := if IsZero w || Before t w then t else w.

(** ** Bytes and big-endian integers *)
#[export] Instance byte_eq_dec : EqDecision byte := Byte.byte_eq_dec.

Definition byte_to_Z (b : byte) : Z := Z.of_N (Byte.to_N b).
Definition byte_of_Z (z : Z) : byte := default x00 (Byte.of_N (Z.to_N (z `mod` 256))).

Lemma byte_to_Z_range b : (0 ≤ byte_to_Z b < 256)%Z.
Proof. unfold byte_to_Z. pose proof (Byte.to_N_bounded b). lia. Qed.

Lemma byte_of_to_Z b : byte_of_Z (byte_to_Z b) = b.
Proof.
  unfold byte_of_Z. rewrite Z.mod_small by apply byte_to_Z_range.
  unfold byte_to_Z. by rewrite N2Z.id, Byte.of_to_N.
Qed.

Lemma byte_to_of_Z z : byte_to_Z (byte_of_Z z) = (z `mod` 256)%Z.
Proof.
  unfold byte_of_Z, byte_to_Z.
  pose proof (Z.mod_pos_bound z 256 ltac:(lia)) as Hz.
  destruct (Byte.of_N (Z.to_N (z `mod` 256))) as [b|] eqn:E; simpl.
  - apply Byte.to_of_N in E. rewrite E. lia.
  - apply Byte.of_N_None_iff in E. lia.
Qed.

(** [binary.BigEndian.PutUintN]: the low [n] bytes of [v], most significant first. *)
Fixpoint be_put (n : nat) (v : Z) : list byte :=
  match n with
  | O => []
  | S k => byte_of_Z (v / 256 ^ Z.of_nat k) :: be_put k v
  end.

(** [binary.BigEndian.UintN] of a slice of the right length. *)
Definition be_get (bs : list byte) : Z :=
  foldl (λ acc b, acc * 256 + byte_to_Z b)%Z 0%Z bs.

Lemma length_be_put n v : length (be_put n v) = n.
Proof. induction n; simpl; congruence. Qed.

Lemma be_get_acc bs acc :
  foldl (λ acc b, acc * 256 + byte_to_Z b)%Z acc bs
  = (acc * 256 ^ Z.of_nat (length bs) + be_get bs)%Z.
Proof.
  unfold be_get. revert acc. induction bs as [|b bs IH]; intros acc.
  { simpl. rewrite Z.pow_0_r. lia. }
  cbn [foldl length].
  rewrite IH, (IH (0 * 256 + byte_to_Z b)%Z), Nat2Z.inj_succ, Z.pow_succ_r by lia. ring.
Qed.

Lemma be_get_cons b bs :
  be_get (b :: bs) = (byte_to_Z b * 256 ^ Z.of_nat (length bs) + be_get bs)%Z.
Proof. unfold be_get at 1. cbn [foldl]. rewrite be_get_acc. ring. Qed.

Lemma be_get_put n v : be_get (be_put n v) = (v `mod` 256 ^ Z.of_nat n)%Z.
Proof.
  induction n as [|n IH]; [simpl; by rewrite Z.mod_1_r|].
  cbn [be_put]. rewrite be_get_cons, IH, length_be_put, byte_to_of_Z.
  rewrite Nat2Z.inj_succ, Z.pow_succ_r by lia.
  set (p := (256 ^ Z.of_nat n)%Z).
  assert (0 < p)%Z by (apply Z.pow_pos_nonneg; lia).
  rewrite (Z.mul_comm 256 p), Z.rem_mul_r by lia. ring.
Qed.

Lemma be_get_put_small n v :
  (0 ≤ v < 256 ^ Z.of_nat n)%Z → be_get (be_put n v) = v.
Proof. intros. rewrite be_get_put. by apply Z.mod_small. Qed.

Lemma be_get_range bs : (0 ≤ be_get bs < 256 ^ Z.of_nat (length bs))%Z.
Proof.
  induction bs as [|b bs IH]; [simpl; rewrite Z.pow_0_r; unfold be_get; simpl; lia|].
  rewrite be_get_cons. cbn [length]. rewrite Nat2Z.inj_succ, Z.pow_succ_r by lia.
  pose proof (byte_to_Z_range b). nia.
Qed.

(** ** Reading from a stream

    [io.ReadFull] of [n] bytes from the bytes [s] that are still to come: it
    fails with [EOF] only when there is nothing at all to read. *)
Inductive io_error := EOF | UnexpectedEOF.

#[export] Instance io_error_eq_dec : EqDecision io_error.
Proof. solve_decision. Defined.

Definition ReadFull (n : nat) (s : list byte) : list byte * (list byte + io_error) :=
  if (n <=? length s)%nat then (drop n s, inl (take n s))
  else ([], inr (match s with [] => EOF | _ => UnexpectedEOF end)).

Lemma ReadFull_app n xs rest : n = length xs → ReadFull n (xs ++ rest) = (rest, inl xs).
Proof.
  intros ->. unfold ReadFull. rewrite (proj2 (Nat.leb_le _ _)) by (rewrite length_app; lia).
  by rewrite drop_app_length, take_app_length.
Qed.

Lemma ReadFull_short n s : (length s < n)%nat → ∃ e, ReadFull n s = ([], inr e).
Proof. intros H. unfold ReadFull. rewrite (proj2 (Nat.leb_gt _ _)) by lia. eauto. Qed.

(** ** Strings

    A Go string is a sequence of bytes: a [string], whose bytes are
    [str_bytes].  [<] on strings is byte-wise lexicographic. *)
Definition str_bytes (s : string) : list byte := String.list_byte_of_string s.
Definition bytes_str (bs : list byte) : string := String.string_of_list_byte bs.
Definition str_len (s : string) : nat := String.length s.

Lemma bytes_str_bytes s : bytes_str (str_bytes s) = s.
Proof. apply String.string_of_list_byte_of_string. Qed.
Lemma str_bytes_str bs : str_bytes (bytes_str bs) = bs.
Proof. apply String.list_byte_of_string_of_list_byte. Qed.
Lemma length_str_bytes s : length (str_bytes s) = str_len s.
Proof.
  unfold str_bytes, String.list_byte_of_string, str_len. rewrite List.length_map.
  induction s; simpl; congruence.
Qed.

Definition str_ltb (s t : string) : bool := String.ltb s t.
Definition str_lt (s t : string) : Prop := str_ltb s t = true.
Definition str_le (s t : string) : Prop := str_ltb t s = false.

#[export] Instance str_lt_dec s t : Decision (str_lt s t).
Proof. unfold str_lt. apply _. Defined.
#[export] Instance str_le_dec s t : Decision (str_le s t).
Proof. unfold str_le. apply _. Defined.

Lemma str_lt_compare s t : str_lt s t ↔ String.compare s t = Lt.
Proof. unfold str_lt, str_ltb, String.ltb. by destruct (String.compare s t). Qed.
Lemma str_le_compare s t : str_le s t ↔ String.compare t s ≠ Lt.
Proof. unfold str_le, str_ltb, String.ltb. by destruct (String.compare t s). Qed.

Lemma ascii_compare_refl a : Ascii.compare a a = Eq.
Proof. unfold Ascii.compare. apply N.compare_refl. Qed.
Lemma ascii_compare_eq a b : Ascii.compare a b = Eq → a = b.
Proof. apply Ascii.compare_eq_iff. Qed.

Lemma str_compare_refl s : String.compare s s = Eq.
Proof. induction s; simpl; [done|]. by rewrite ascii_compare_refl. Qed.

Lemma str_lt_irrefl s : ¬ str_lt s s.
Proof. rewrite str_lt_compare, str_compare_refl. done. Qed.

Lemma str_lt_trans s t u : str_lt s t → str_lt t u → str_lt s u.
Proof.
  rewrite !str_lt_compare. revert t u.
  induction s as [|a s IH]; intros [|b t] [|c u]; simpl; try done.
  destruct (Ascii.compare a b) eqn:Eab; try done.
  - apply ascii_compare_eq in Eab as ->.
    destruct (Ascii.compare b c); naive_solver.
  - destruct (Ascii.compare b c) eqn:Ebc; try done.
    + apply ascii_compare_eq in Ebc as ->. by rewrite Eab.
    + unfold Ascii.compare in *. intros _ _.
      assert (N.compare (Ascii.N_of_ascii a) (Ascii.N_of_ascii c) = Lt) as ->; [|done].
      rewrite N.compare_lt_iff in *. eapply N.lt_trans; eassumption.
Qed.

Lemma str_lt_total s t : str_lt s t ∨ s = t ∨ str_lt t s.
Proof.
  rewrite !str_lt_compare, (String.compare_antisym t s).
  destruct (String.compare s t) eqn:E; simpl; [|by left|by right; right].
  right; left. by apply String.compare_eq_iff.
Qed.

#[export] Instance str_lt_strict : StrictOrder str_lt.
Proof. split; [intros s; apply str_lt_irrefl|intros ???; apply str_lt_trans]. Qed.

Lemma str_ltb_false s t : str_ltb s t = false ↔ str_le t s.
Proof. done. Qed.

Lemma str_le_lt_eq s t : str_le s t ↔ str_lt s t ∨ s = t.
Proof.
  unfold str_le. destruct (str_lt_total s t) as [H|[->|H]].
  - split; [auto|]. intros _. apply not_true_is_false. intros H'.
    by apply (str_lt_irrefl s), (str_lt_trans s t).
  - split; [auto|]. intros _. apply not_true_is_false. apply str_lt_irrefl.
  - rewrite H. split; [done|]. intros [H'| ->]; exfalso.
    + by apply (str_lt_irrefl s), (str_lt_trans s t).
    + by apply (str_lt_irrefl t).
Qed.

#[export] Instance str_le_total : Total str_le.
Proof.
  intros s t. rewrite !str_le_lt_eq.
  destruct (str_lt_total s t) as [|[]]; naive_solver.
Qed.
#[export] Instance str_le_trans : Transitive str_le.
Proof.
  intros s t u. rewrite !str_le_lt_eq.
  intros [?|?] [?|?]; subst; eauto using str_lt_trans.
Qed.
#[export] Instance str_le_antisymm : AntiSymm (=) str_le.
Proof.
  intros s t. rewrite !str_le_lt_eq. intros [|] [|]; try done.
  exfalso. by eapply str_lt_irrefl, str_lt_trans.
Qed.

(** [sort.Strings]: the ascending rearrangement (unique, since equal strings
    are indistinguishable). *)
Definition sort_strings (l : list string) : list string := merge_sort str_le l.

Lemma sort_strings_perm l : sort_strings l ≡ₚ l.
Proof. apply merge_sort_Permutation. Qed.
Lemma sort_strings_sorted l : StronglySorted str_le (sort_strings l).
Proof. apply StronglySorted_merge_sort; apply _. Qed.

(** ** Go maps

    A map value is a finite map or [nil].  Reading, ranging over, deleting
    from and taking the length of a nil map behave as on the empty map;
    assigning to one panics.  [range] visits the entries in an unspecified
    order: the code's [for ... range] loops take that order as an argument, any
    enumeration of the entries. *)
Abbreviation gomap V := (option (gmap string V)).

Definition map_entries {V} (m : gomap V) : gmap string V := default ∅ m.
Definition map_get {V} (m : gomap V) (k : string) : option V := map_entries m !! k.
Definition map_len {V} (m : gomap V) : nat := size (map_entries m).
Definition map_del {V} (k : string) (m : gomap V) : gomap V := delete k <$> m.
Definition map_put {V} (k : string) (v : V) (m : gomap V) : option (gomap V) :=
  match m with Some t => Some (Some (<[k := v]> t)) | None => None end.

Record range_order (V : Type) := RangeOrder {
  range_of : gmap string V → list (string * V);
  range_perm : ∀ m, range_of m ≡ₚ map_to_list m;
}.
Arguments RangeOrder {V}.
Arguments range_of {V}.
Arguments range_perm {V}.

(** One enumeration, to run the model on examples. *)
Definition list_order V : range_order V := RangeOrder map_to_list (λ m, reflexivity _).
Arguments list_order {V}.

Lemma elem_of_concat {A} (x : A) (ls : list (list A)) :
  x ∈ concat ls ↔ ∃ l, x ∈ l ∧ l ∈ ls.
Proof.
  rewrite list_elem_of_In, in_concat. setoid_rewrite list_elem_of_In. naive_solver.
Qed.

(** Decide a closed proposition by evaluation. *)
Ltac by_eval := refine (bool_decide_unpack _ _); vm_compute; exact I.

(** Filters that keep all or nothing. *)
Lemma filter_all {A} (P : A → Prop) `{∀ x, Decision (P x)} (l : list A) :
  Forall P l → filter P l = l.
Proof. induction 1; [done|]. rewrite filter_cons_True by done. congruence. Qed.

Lemma filter_none {A} (P : A → Prop) `{∀ x, Decision (P x)} (l : list A) :
  Forall (λ x, ¬ P x) l → filter P l = [].
Proof. induction 1; [done|]. by rewrite filter_cons_False. Qed.

(** Strings *)
Lemma str_app_assoc (a b c : string) : (a +:+ (b +:+ c) = (a +:+ b) +:+ c)%string.
Proof. induction a as [|x a IH]; [done|]. change (String x (a +:+ (b +:+ c)) = String x ((a +:+ b) +:+ c)). by rewrite IH. Qed.

Lemma str_app_nil (a : string) : (a +:+ "" = a)%string.
Proof. induction a as [|x a IH]; [done|]. change (String x (a +:+ "") = String x a). by rewrite IH. Qed.
