(* ===== verification/Heap.v ===== *)
(** * Binary heaps: Go's [container/heap] over a slice

    The retry queue of a group is a [container/heap] over a slice of messages
    (src/internal/queue/delayed.go).  This file transcribes the four routines
    of [container/heap] the broker calls ([Init], [Push], [Pop] and their
    helpers [up] and [down]) for an arbitrary slice and comparison, and proves
    that they keep the slice a heap and never gain or lose an element.

    Fuel: [up] strictly decreases its index and [down] strictly increases it
    below [n], so [j] and [n - i] iterations are enough; [up_heap] and
    [down_ok], which conclude that the order has been restored, would fail were
    the fuel too small. *)

From stdpp Require Import base list numbers.
From Stdlib Require Import Arith Lia.

Section Heap.
Context {A : Type} (less : A → A → bool).

Definition swap (i j : nat) (h : list A) : list A :=
  match h !! i, h !! j with
  | Some x, Some y => <[i := y]> (<[j := x]> h)
  | _, _ => h
  end.

Definition less_at (h : list A) (i j : nat) : bool :=
  match h !! i, h !! j with
  | Some x, Some y => less x y
  | _, _ => false
  end.

Definition parent (j : nat) : nat := (j - 1) / 2.

Fixpoint up_loop (fuel : nat) (h : list A) (j : nat) : list A :=
  match fuel with
  | O => h
  | S fuel =>
      let i := parent j in
      if (i =? j)%nat || negb (less_at h j i) then h
      else up_loop fuel (swap i j h) i
  end.
Definition up (h : list A) (j : nat) : list A := up_loop (S j) h j.

Fixpoint down_loop (fuel : nat) (h : list A) (i n : nat) : list A :=
  match fuel with
  | O => h
  | S fuel =>
      let j1 := (2 * i + 1)%nat in
      if (n <=? j1)%nat then h
      else
        let j2 := (j1 + 1)%nat in
        let j := if (j2 <? n)%nat && less_at h j2 j1 then j2 else j1 in
        if negb (less_at h j i) then h
        else down_loop fuel (swap i j h) j n
  end.
Definition down (h : list A) (i n : nat) : list A := down_loop (S n) h i n.

(** [heap.Init]: [down] from the last parent to the root. *)
Fixpoint init_loop (k : nat) (h : list A) : list A :=
  match k with
  | O => h
  | S i => init_loop i (down h i (length h))
  end.
Definition Init (h : list A) : list A := init_loop (length h / 2) h.

Definition Push (h : list A) (x : A) : list A :=
  up (h ++ [x]) (length (h ++ [x]) - 1).

(** [heap.Pop]: the last slot after the swap and the [down] is cut off. *)
Definition Pop (h : list A) : list A * option A :=
  let n := (length h - 1)%nat in
  let h' := down (swap 0 n h) 0 n in
  (take n h', h' !! n).

(** ** No element is gained or lost *)

Lemma swap_perm i j h : swap i j h ≡ₚ h.
Proof.
  unfold swap. destruct (h !! i) as [x|] eqn:Hi; [|done].
  destruct (h !! j) as [y|] eqn:Hj; [|done].
  by apply Permutation_insert_swap.
Qed.

Lemma up_loop_perm fuel h j : up_loop fuel h j ≡ₚ h.
Proof.
  revert h j. induction fuel as [|fuel IH]; intros h j; simpl; [done|].
  case_match; [done|]. by rewrite IH, swap_perm.
Qed.

Lemma down_loop_perm fuel h i n : down_loop fuel h i n ≡ₚ h.
Proof.
  revert h i. induction fuel as [|fuel IH]; intros h i; cbn -[Nat.mul]; [done|].
  repeat case_match; try done; by rewrite IH, swap_perm.
Qed.

Lemma up_perm h j : up h j ≡ₚ h.
Proof. apply up_loop_perm. Qed.
Lemma down_perm h i n : down h i n ≡ₚ h.
Proof. apply down_loop_perm. Qed.
Lemma length_swap i j h : length (swap i j h) = length h.
Proof. by rewrite swap_perm. Qed.
Lemma length_down h i n : length (down h i n) = length h.
Proof. by rewrite down_perm. Qed.

Lemma Push_perm h x : Push h x ≡ₚ x :: h.
Proof. unfold Push. rewrite up_perm. by rewrite Permutation_app_comm. Qed.

Lemma Init_perm h : Init h ≡ₚ h.
Proof.
  unfold Init. generalize (length h / 2)%nat as k. intros k. revert h.
  induction k as [|k IH]; intros h; simpl; [done|]. by rewrite IH, down_perm.
Qed.

(** ** Swapped slots *)

Lemma lookup_swap i j h k x y :
  h !! i = Some x → h !! j = Some y →
  swap i j h !! k
  = if decide (k = i) then Some y else if decide (k = j) then Some x else h !! k.
Proof.
  intros Hi Hj. unfold swap. rewrite Hi, Hj.
  pose proof (lookup_lt_Some _ _ _ Hi). pose proof (lookup_lt_Some _ _ _ Hj).
  destruct (decide (k = i)) as [->|Hki].
  { apply list_lookup_insert_eq. by rewrite length_insert. }
  rewrite list_lookup_insert_ne by done.
  destruct (decide (k = j)) as [->|Hkj].
  { by apply list_lookup_insert_eq. }
  by rewrite list_lookup_insert_ne.
Qed.

(** ** Heap order

    [le x y] is "[y] is not before [x]"; the comparison is a strict weak
    order whenever [le] is a total preorder. *)
Definition le (x y : A) : Prop := less y x = false.

Definition le_at (h : list A) (i j : nat) : Prop :=
  ∀ x y, h !! i = Some x → h !! j = Some y → le x y.

(** Every child below [n] whose parent is at [lo] or after is in order. *)
Definition ok (lo n : nat) (h : list A) : Prop :=
  ∀ k, 0 < k < n → lo ≤ parent k → le_at h (parent k) k.

Definition heap (h : list A) : Prop := ok 0 (length h) h.

Lemma less_at_true h i j x y :
  h !! i = Some x → h !! j = Some y → less_at h i j = less x y.
Proof. intros Hi Hj. unfold less_at. by rewrite Hi, Hj. Qed.

Lemma parent_lt k : 0 < k → parent k < k.
Proof. unfold parent. intros. pose proof (Nat.div_mod_eq (k - 1) 2). lia. Qed.

Lemma parent_child k i : 0 < k → parent k = i ↔ k = 2 * i + 1 ∨ k = 2 * i + 2.
Proof.
  unfold parent. intros Hk. pose proof (Nat.div_mod_eq (k - 1) 2).
  pose proof (Nat.mod_upper_bound (k - 1) 2 ltac:(lia)). lia.
Qed.

Context (le_total : ∀ x y, le x y ∨ le y x)
        (le_trans : ∀ x y z, le x y → le y z → le x z).

Lemma less_le x y : less x y = true → le x y.
Proof.
  intros H. destruct (le_total x y) as [?|Hyx]; [done|].
  unfold le in Hyx. congruence.
Qed.

Lemma le_refl x : le x x.
Proof. by destruct (le_total x x). Qed.

(** *** [up] *)

(** In order everywhere but between [j] and its parent. *)
Definition up_inv (n : nat) (h : list A) (j : nat) : Prop :=
  (∀ k, 0 < k < n → k ≠ j → le_at h (parent k) k) ∧
  (∀ k, 0 < k < n → parent k = j → 0 < j → le_at h (parent j) k).

Lemma up_inv_step n h j x y :
  0 < j < n → h !! j = Some x → h !! parent j = Some y → less x y = true →
  up_inv n h j → up_inv n (swap (parent j) j h) (parent j).
Proof.
  intros Hj Hx Hy Hlt [H1 H2]. pose proof (parent_lt j ltac:(lia)) as Hpj.
  pose proof (less_le _ _ Hlt) as Hle.
  split.
  - intros k Hk Hne a b. rewrite !(lookup_swap _ _ _ _ y x) by done.
    pose proof (parent_lt k ltac:(lia)) as Hpk.
    rewrite (decide_False (P := k = parent j)) by done.
    destruct (decide (k = j)) as [->|Hkj].
    { rewrite decide_True by done. intros [= <-] [= <-]. done. }
    destruct (decide (parent k = parent j)) as [Heq|Hpne].
    { intros [= <-] Hb. apply (le_trans _ y); [done|].
      apply (H1 k ltac:(lia) Hkj); congruence. }
    destruct (decide (parent k = j)) as [Heq|Hpne2].
    { intros [= <-] Hb. apply (H2 k ltac:(lia) Heq ltac:(lia)); congruence. }
    intros Ha Hb. by apply (H1 k ltac:(lia) Hkj).
  - intros k Hk Hpk Hpos a b. rewrite !(lookup_swap _ _ _ _ y x) by done.
    pose proof (parent_lt (parent j) ltac:(lia)) as Hpp.
    rewrite (decide_False (P := parent (parent j) = parent j)) by lia.
    rewrite (decide_False (P := parent (parent j) = j)) by lia.
    pose proof (parent_lt k ltac:(lia)) as Hkp.
    rewrite (decide_False (P := k = parent j)) by lia.
    intros Ha Hb.
    assert (le a y) as Hay by (by apply (H1 (parent j) ltac:(lia) ltac:(lia))).
    destruct (decide (k = j)) as [->|Hkj]; [by simplify_eq|].
    apply (le_trans _ y); [done|]. apply (H1 k ltac:(lia) Hkj); [by rewrite Hpk|done].
Qed.

Lemma up_loop_heap fuel h j :
  j < fuel → j < length h → up_inv (length h) h j →
  ok 0 (length h) (up_loop fuel h j).
Proof.
  revert h j. induction fuel as [|fuel IH]; intros h j Hf Hj Hinv; [lia|].
  cbn -[parent]. destruct (Nat.eqb_spec (parent j) j) as [Heq|Hne]; simpl.
  { assert (j = 0) as -> by (destruct j; [done|pose proof (parent_lt (S j)); lia]).
    intros k Hk _. apply (proj1 Hinv); lia. }
  assert (0 < j) as Hpos by (destruct j; [done|lia]).
  pose proof (parent_lt j Hpos) as Hp.
  destruct (lookup_lt_is_Some_2 h j Hj) as [x Hx].
  destruct (lookup_lt_is_Some_2 h (parent j) ltac:(lia)) as [y Hy].
  rewrite (less_at_true _ _ _ x y) by done.
  destruct (less x y) eqn:Hlt; simpl.
  - rewrite <-(length_swap (parent j) j h). apply IH; [lia|rewrite length_swap; lia|].
    rewrite length_swap. by eapply up_inv_step.
  - intros k Hk _. destruct (decide (k = j)) as [->|Hkj]; [|by apply (proj1 Hinv)].
    intros a b Ha Hb. simplify_eq. done.
Qed.

Lemma up_heap h j :
  j < length h → up_inv (length h) h j → heap (up h j).
Proof.
  intros Hj Hinv. unfold heap. rewrite (Permutation_length (up_perm h j)).
  apply up_loop_heap; [lia|done|done].
Qed.

Lemma Push_heap h x : heap h → heap (Push h x).
Proof.
  intros Hh. unfold Push. rewrite length_app; simpl.
  replace (length h + 1 - 1) with (length h) by lia.
  apply up_heap; rewrite length_app; simpl; [lia|]. split.
  - intros k Hk Hne a b. pose proof (parent_lt k ltac:(lia)).
    rewrite !lookup_app_l by lia. apply Hh; lia.
  - intros k Hk Hpk. pose proof (parent_lt k ltac:(lia)). lia.
Qed.

(** *** [down] *)

(** In order everywhere but between [i] and its children. *)
Definition down_inv (lo n : nat) (h : list A) (i : nat) : Prop :=
  (∀ k, 0 < k < n → lo ≤ parent k → parent k ≠ i → le_at h (parent k) k) ∧
  (∀ k, 0 < k < n → parent k = i → 0 < i → lo ≤ parent i → le_at h (parent i) k).

(** The child [down] chooses: a smallest one. *)
Definition small_child (n : nat) (h : list A) (i j : nat) : Prop :=
  0 < j < n ∧ parent j = i ∧ ∀ k, 0 < k < n → parent k = i → le_at h j k.

Lemma down_inv_step lo n h i j x y :
  i < n → n ≤ length h → lo ≤ i → small_child n h i j →
  h !! i = Some x → h !! j = Some y → less y x = true →
  down_inv lo n h i → down_inv lo n (swap i j h) j.
Proof.
  intros Hi Hn Hlo (Hj & Hpj & Hmin) Hx Hy Hlt [H1 H2].
  pose proof (less_le _ _ Hlt) as Hle. pose proof (parent_lt j ltac:(lia)) as Hij.
  split.
  - intros k Hk Hlok Hne a b. rewrite !(lookup_swap _ _ _ _ x y) by done.
    pose proof (parent_lt k ltac:(lia)) as Hpk.
    rewrite (decide_False (P := parent k = j)) by done.
    destruct (decide (parent k = i)) as [Heq|Hpne].
    + rewrite (decide_False (P := k = i)) by lia.
      destruct (decide (k = j)) as [->|Hkj]; [by intros [= <-] [= <-]|].
      intros [= <-] Hb. by apply (Hmin k Hk Heq).
    + destruct (decide (k = i)) as [->|Hki].
      { intros Ha [= <-]. apply (H2 j ltac:(lia) Hpj ltac:(lia)); done. }
      destruct (decide (k = j)) as [->|Hkj]; [congruence|].
      intros Ha Hb. by apply (H1 k).
  - intros k Hk Hpk Hpos Hlop a b. rewrite !(lookup_swap _ _ _ _ x y) by done.
    pose proof (parent_lt k ltac:(lia)) as Hpk'.
    rewrite Hpj, decide_True by done.
    rewrite (decide_False (P := k = i)), (decide_False (P := k = j)) by lia.
    intros [= <-] Hb. apply (H1 k ltac:(lia) ltac:(lia) ltac:(lia)); [by rewrite Hpk|done].
Qed.

Lemma small_child_pick h i n :
  n ≤ length h → 2 * i + 1 < n →
  let j1 := 2 * i + 1 in let j2 := j1 + 1 in
  small_child n h i (if (j2 <? n) && less_at h j2 j1 then j2 else j1).
Proof.
  intros Hn H1. cbn zeta.
  destruct (lookup_lt_is_Some_2 h (2 * i + 1) ltac:(lia)) as [x Hx].
  assert (∀ k, 0 < k < n → parent k = i → k = 2 * i + 1 ∨ k = 2 * i + 1 + 1) as Hc.
  { intros k Hk Hp%parent_child; lia. }
  destruct (Nat.ltb_spec (2 * i + 1 + 1) n) as [H2|H2]; cbn [andb].
  - destruct (lookup_lt_is_Some_2 h (2 * i + 1 + 1) ltac:(lia)) as [y Hy].
    rewrite (less_at_true _ _ _ y x) by done.
    destruct (less y x) eqn:Hlt; (split; [lia|split; [apply parent_child; lia|]]);
      intros k Hk Hp a b Ha Hb; destruct (Hc k Hk Hp) as [-> | ->]; simplify_eq;
      eauto using le_refl, less_le.
  - split; [lia|split; [apply parent_child; lia|]].
    intros k Hk Hp a b Ha Hb. destruct (Hc k Hk Hp) as [-> | ->]; [|lia].
    simplify_eq. apply le_refl.
Qed.

Lemma down_loop_ok fuel lo n h i :
  n - i < fuel → i < n → n ≤ length h → lo ≤ i → down_inv lo n h i →
  ok lo n (down_loop fuel h i n).
Proof.
  revert h i. induction fuel as [|fuel IH]; intros h i Hf Hi Hn Hlo Hinv; [lia|].
  cbn [down_loop]. destruct (Nat.leb_spec n (2 * i + 1)) as [Hle|Hlt].
  { intros k Hk Hlok. apply (proj1 Hinv); [done..|].
    intros Hp%parent_child; lia. }
  pose proof (small_child_pick h i n Hn Hlt) as Hsc. cbn zeta in Hsc.
  set (j := if (_ <? n) && _ then _ else _) in *.
  destruct Hsc as (Hj & Hpj & Hmin). pose proof (parent_lt j ltac:(lia)).
  destruct (lookup_lt_is_Some_2 h i ltac:(lia)) as [x Hx].
  destruct (lookup_lt_is_Some_2 h j ltac:(lia)) as [y Hy].
  rewrite (less_at_true _ _ _ y x) by done.
  destruct (less y x) eqn:Hyx; simpl.
  - apply IH; [lia|lia|by rewrite length_swap|lia|].
    eapply down_inv_step; eauto. by split.
  - intros k Hk Hlok a b Ha Hb. destruct (decide (parent k = i)) as [Hpk|Hpk].
    + rewrite Hpk in Ha. simplify_eq. apply (le_trans _ y); [done|].
      by apply (Hmin k Hk Hpk).
    + by apply (proj1 Hinv k).
Qed.

Lemma down_ok lo n h i :
  n ≤ length h → lo ≤ i → down_inv lo n h i → ok lo n (down h i n).
Proof.
  intros Hn Hlo Hinv. destruct (decide (i < n)) as [Hi|Hi].
  { apply down_loop_ok; auto; lia. }
  unfold down. cbn [down_loop]. rewrite (proj2 (Nat.leb_le _ _)) by lia.
  intros k Hk Hlok. apply (proj1 Hinv); [done..|]. pose proof (parent_lt k ltac:(lia)). lia.
Qed.

Lemma Init_heap h : heap (Init h).
Proof.
  unfold heap. rewrite (Permutation_length (Init_perm h)).
  assert (ok (length h / 2) (length h) h) as H0.
  { intros k Hk Hp. exfalso. revert Hp. unfold parent.
    pose proof (Nat.div_mod_eq (k - 1) 2). pose proof (Nat.div_mod_eq (length h) 2).
    pose proof (Nat.mod_upper_bound (length h) 2 ltac:(lia)). lia. }
  unfold Init. revert H0. generalize (length h / 2) as k.
  intros k. revert h. induction k as [|k IH]; intros h Hok; [done|]. simpl.
  rewrite <-(length_down h k (length h)) at 1. apply IH.
  rewrite length_down. apply down_ok; [done..|]. split.
  - intros i Hi Hlo Hne. apply Hok; [done|lia].
  - intros i Hi Hp Hpos Hlo. pose proof (parent_lt k Hpos). lia.
Qed.

(** ** The root is a minimum, and [Pop] takes it *)

Lemma heap_root_min h x i y :
  heap h → h !! 0 = Some x → h !! i = Some y → le x y.
Proof.
  intros Hh Hx. revert y. induction i as [i IH] using lt_wf_ind. intros y Hy.
  destruct (decide (i = 0)) as [->|Hi]; [simplify_eq; apply le_refl|].
  pose proof (lookup_lt_Some _ _ _ Hy) as Hlen. pose proof (parent_lt i ltac:(lia)) as Hp.
  destruct (lookup_lt_is_Some_2 h (parent i) ltac:(lia)) as [z Hz].
  apply (le_trans _ z); [by apply (IH (parent i))|].
  apply (Hh i); [lia|lia|done|done].
Qed.

Lemma Pop_root h x :
  h !! 0 = Some x → snd (Pop h) = Some x.
Proof.
  intros Hx. unfold Pop. cbn [snd].
  pose proof (lookup_lt_Some _ _ _ Hx) as Hlen.
  destruct (lookup_lt_is_Some_2 h (length h - 1) ltac:(lia)) as [y Hy].
  assert (∀ fuel g i n, n ≤ length g → i < n ∨ n = 0 →
            down_loop fuel g i n !! n = g !! n) as Hfix.
  { induction fuel as [|fuel IH]; intros g i n Hn Hi; [done|]. cbn [down_loop].
    destruct (Nat.leb_spec n (2 * i + 1)); [done|].
    match goal with |- context [if ?b then 2 * i + 1 + 1 else _] =>
      set (j := if b then 2 * i + 1 + 1 else 2 * i + 1) end.
    assert (j < n).
    { unfold j. destruct (Nat.ltb_spec (2 * i + 1 + 1) n); simpl; [case_match|]; lia. }
    case_match; [done|]. rewrite IH by (rewrite ?length_swap; lia).
    destruct (lookup_lt_is_Some_2 g i ltac:(lia)) as [u Hu].
    destruct (lookup_lt_is_Some_2 g j ltac:(lia)) as [v Hv].
    rewrite (lookup_swap _ _ _ _ u v) by done. by rewrite !decide_False by lia. }
  unfold down. rewrite Hfix by (rewrite ?length_swap; lia).
  rewrite (lookup_swap _ _ _ _ x y) by done.
  destruct (decide _) as [Hz|Hz]; [|by rewrite decide_True by done].
  rewrite Hz in Hy. congruence.
Qed.

Lemma Pop_perm h x :
  h !! 0 = Some x → h ≡ₚ x :: fst (Pop h).
Proof.
  intros Hx. pose proof (Pop_root h x Hx) as Hp. unfold Pop in *. cbn [fst snd] in *.
  set (n := length h - 1) in *. set (h' := down _ _ _) in *.
  assert (h' ≡ₚ h) as Hh' by (unfold h'; by rewrite down_perm, swap_perm).
  rewrite <-Hh' at 1. pose proof (lookup_lt_Some _ _ _ Hx).
  rewrite <-(take_drop_middle h' n x Hp) at 1.
  rewrite (drop_ge h' (S n)) by (rewrite (Permutation_length Hh'); lia).
  by rewrite Permutation_app_comm.
Qed.

Lemma Pop_heap h : heap h → heap (fst (Pop h)).
Proof.
  intros Hh. unfold Pop. cbn [fst]. set (n := length h - 1).
  assert (length (down (swap 0 n h) 0 n) = length h) as Hlen
    by (by rewrite length_down, length_swap).
  unfold heap. rewrite length_take, Hlen, Nat.min_l by lia.
  assert (ok 0 n (down (swap 0 n h) 0 n)) as Hok.
  { apply down_ok; [rewrite length_swap; lia|done|]. split; [|lia].
    intros k Hk _ Hp a b.
    destruct (lookup_lt_is_Some_2 h 0 ltac:(lia)) as [u Hu].
    destruct (lookup_lt_is_Some_2 h n ltac:(lia)) as [v Hv].
    rewrite !(lookup_swap _ _ _ _ u v) by done.
    pose proof (parent_lt k ltac:(lia)).
    rewrite (decide_False (P := parent k = 0)), (decide_False (P := parent k = n)),
      (decide_False (P := k = 0)), (decide_False (P := k = n)) by lia.
    apply Hh; lia. }
  intros k Hk _ a b. pose proof (parent_lt k ltac:(lia)).
  rewrite !lookup_take_lt by lia. apply Hok; lia.
Qed.
End Heap.

Arguments Pop : simpl never.
