(* ===== verification/Message.v ===== *)
(** * Messages (src/internal/queue/message.go)

    The message record, its states, the two constructors and the generator of
    message identifiers.  The process-wide counter [msgIDCounter] is passed
    explicitly. *)

From stdpp Require Import base gmap list strings.
From Stdlib Require Import ZArith Lia Strings.Byte.
From S2P Require Import Prelude.

(** An [int8] with five named values; [StateOther] is any other [int8], which a
    snapshot read from disk may carry. *)
Inductive MessageState :=
| StatePending | StateProcessing | StateDone | StateFailed | StateDLQ
| StateOther (code : Z).

#[export] Instance MessageState_eq_dec : EqDecision MessageState.
Proof. solve_decision. Defined.

(** The [iota] values, as stored in snapshots. *)
Definition MessageState_code (s : MessageState) : Z :=
  match s with
  | StatePending => 0 | StateProcessing => 1 | StateDone => 2
  | StateFailed => 3 | StateDLQ => 4 | StateOther code => code
  end.

Definition MessageState_of_code (z : Z) : MessageState :=
  match z with
  | 0 => StatePending | 1 => StateProcessing | 2 => StateDone
  | 3 => StateFailed | 4 => StateDLQ | _ => StateOther z
  end%Z.

Definition MessageState_String (s : MessageState) : string :=
  match s with
  | StatePending => "pending"
  | StateProcessing => "processing"
  | StateDone => "done"
  | StateFailed => "failed"
  | StateDLQ => "dlq"
  | StateOther _ => "unknown"
  end.

Record Message := mkMessage {
  ID : string;
  QueueName : string;
  Namespace : string;
  GroupKey : string;
  Payload : list byte;
  State : MessageState;
  Attempts : Z;
  ScheduledAt : Z;
  CreatedAt : Z;
  LastError : string;
}.

#[export] Instance Message_eq_dec : EqDecision Message.
Proof. solve_decision. Defined.

(** Field assignments. *)
Definition set_ID (i : string) (m : Message) : Message :=
  mkMessage i (QueueName m) (Namespace m) (GroupKey m) (Payload m) (State m)
    (Attempts m) (ScheduledAt m) (CreatedAt m) (LastError m).
Definition set_State (s : MessageState) (m : Message) : Message :=
  mkMessage (ID m) (QueueName m) (Namespace m) (GroupKey m) (Payload m) s
    (Attempts m) (ScheduledAt m) (CreatedAt m) (LastError m).
Definition set_Attempts (a : Z) (m : Message) : Message :=
  mkMessage (ID m) (QueueName m) (Namespace m) (GroupKey m) (Payload m) (State m)
    a (ScheduledAt m) (CreatedAt m) (LastError m).
Definition set_ScheduledAt (t : Z) (m : Message) : Message :=
  mkMessage (ID m) (QueueName m) (Namespace m) (GroupKey m) (Payload m) (State m)
    (Attempts m) t (CreatedAt m) (LastError m).
Definition set_LastError (e : string) (m : Message) : Message :=
  mkMessage (ID m) (QueueName m) (Namespace m) (GroupKey m) (Payload m) (State m)
    (Attempts m) (ScheduledAt m) (CreatedAt m) e.

(** ** Identifiers *)

Definition hex_digit (n : Z) : Ascii.ascii :=
  Ascii.ascii_of_N (Z.to_N (if (n <? 10)%Z then n + 48 else n + 87)).

Fixpoint hex_EncodeToString (bs : list byte) : string :=
  match bs with
  | [] => ""
  | b :: bs =>
      String (hex_digit (byte_to_Z b / 16))
        (String (hex_digit (byte_to_Z b `mod` 16)) (hex_EncodeToString bs))
  end.

(** [newID]: bump the counter and print [prefix ^ counter] as 8 hex bytes. *)
Definition newID (initMsgIDPrefix counter : Z) : Z * string :=
  let counter := u64 (counter + 1) in
  let id := Z.lxor initMsgIDPrefix counter in
  (counter, hex_EncodeToString (be_put 8 id)).

Definition GenerateID := newID.

(** The identifier a constructor is given is the one [newID] produced. *)
Definition newMessageAt (id queue namespace group : string) (payload : list byte)
    (now : Z) : Message :=
  mkMessage id queue namespace group payload StatePending 0 now now "".

Definition NewMessageForRecovery (queue namespace group : string)
    (payload : list byte) (now : Z) (id : string) : Message :=
  mkMessage id queue namespace group payload StatePending 0 now now "".

(** ** Identifiers are distinct *)

Lemma hex_digit_inj a b :
  (0 ≤ a < 16)%Z → (0 ≤ b < 16)%Z → hex_digit a = hex_digit b → a = b.
Proof.
  unfold hex_digit. intros Ha Hb H. apply (f_equal Ascii.N_of_ascii) in H.
  destruct (Z.ltb_spec a 10), (Z.ltb_spec b 10);
    rewrite !Ascii.N_ascii_embedding in H by lia; lia.
Qed.

Lemma byte_to_Z_inj a b : byte_to_Z a = byte_to_Z b → a = b.
Proof. intros H. by rewrite <-(byte_of_to_Z a), H, byte_of_to_Z. Qed.

Lemma hex_EncodeToString_inj xs ys :
  hex_EncodeToString xs = hex_EncodeToString ys → xs = ys.
Proof.
  revert ys. induction xs as [|x xs IH]; intros [|y ys]; simpl; try done.
  intros [= H1 H2 H3]. f_equal; [|by apply IH].
  pose proof (byte_to_Z_range x). pose proof (byte_to_Z_range y).
  pose proof (Z.mod_pos_bound (byte_to_Z x) 16 ltac:(lia)).
  pose proof (Z.mod_pos_bound (byte_to_Z y) 16 ltac:(lia)).
  assert (byte_to_Z x / 16 = byte_to_Z y / 16)%Z by (apply hex_digit_inj; [..|done];
    split; try (apply Z.div_pos; lia); apply Z.div_lt_upper_bound; lia).
  assert (byte_to_Z x `mod` 16 = byte_to_Z y `mod` 16)%Z by (by apply hex_digit_inj).
  apply byte_to_Z_inj. rewrite (Z.div_mod (byte_to_Z x) 16), (Z.div_mod (byte_to_Z y) 16); lia.
Qed.

Lemma lxor_range w a b :
  (0 ≤ w → 0 ≤ a < 2 ^ w → 0 ≤ b < 2 ^ w → 0 ≤ Z.lxor a b < 2 ^ w)%Z.
Proof.
  intros Hw Ha Hb. split; [apply Z.lxor_nonneg; lia|].
  destruct (Z.eq_dec (Z.lxor a b) 0) as [->|Hne]; [apply Z.pow_pos_nonneg; lia|].
  assert (0 ≤ Z.lxor a b)%Z by (apply Z.lxor_nonneg; lia).
  apply Z.log2_lt_pow2; [lia|]. pose proof (Z.log2_lxor a b ltac:(lia) ltac:(lia)).
  assert (∀ x, 0 ≤ x < 2 ^ w → Z.log2 x < w ∨ x = 0)%Z as Hl.
  { intros x Hx. destruct (Z.eq_dec x 0); [auto|]. left. apply Z.log2_lt_pow2; lia. }
  destruct (Hl a Ha) as [|Ea], (Hl b Hb) as [|Eb]; [lia|..]; subst.
  - rewrite Z.lxor_0_r in *. lia.
  - rewrite Z.lxor_0_l in *. lia.
  - by rewrite Z.lxor_0_l in Hne.
Qed.

(** The counter value after [n] identifiers have been generated. *)
Definition id_after (prefix : Z) (n : nat) : string :=
  (newID prefix (Z.of_nat n)).2.

Lemma newID_inj prefix c d :
  (0 ≤ prefix < 2 ^ 64)%Z → (0 ≤ c < 2 ^ 64)%Z → (0 ≤ d < 2 ^ 64)%Z →
  (newID prefix c).2 = (newID prefix d).2 → c = d.
Proof.
  intros Hp Hc Hd H. unfold newID in H. cbn [snd] in H.
  apply hex_EncodeToString_inj, (f_equal be_get) in H.
  pose proof (Z.mod_pos_bound (c + 1) (2 ^ 64) ltac:(lia)).
  pose proof (Z.mod_pos_bound (d + 1) (2 ^ 64) ltac:(lia)).
  rewrite !be_get_put_small in H by (apply (lxor_range 64); unfold wrap_u; lia).
  apply (f_equal (Z.lxor prefix)) in H.
  rewrite <-!Z.lxor_assoc, Z.lxor_nilpotent, !Z.lxor_0_l in H.
  unfold wrap_u in H.
  destruct (Z.eq_dec c (2 ^ 64 - 1)), (Z.eq_dec d (2 ^ 64 - 1)); subst; try lia.
  - rewrite (Z.mod_small (d + 1)) in H by lia. rewrite Z.sub_add, Z_mod_same_full in H. lia.
  - rewrite (Z.mod_small (c + 1)) in H by lia. rewrite Z.sub_add, Z_mod_same_full in H. lia.
  - rewrite !Z.mod_small in H by lia. lia.
Qed.

(**  Identifiers generated by one process are pairwise distinct: the
    first [2^64] calls of [newID] return different strings. *)
Theorem newID_unique (prefix : Z) (m n : nat) :
  (0 ≤ prefix < 2 ^ 64)%Z → (Z.of_nat m < 2 ^ 64)%Z → (Z.of_nat n < 2 ^ 64)%Z →
  id_after prefix m = id_after prefix n → m = n.
Proof. intros Hp Hm Hn H. apply newID_inj in H; lia. Qed.

Lemma newID_unique_witness :
  id_after 1700000000000000042 0 = "17979cfe362a002b"%string ∧
  (id_after 1700000000000000042 0 = id_after 1700000000000000042 0 → 0 = 0).
Proof.
  split; [vm_compute; reflexivity|].
  apply (newID_unique 1700000000000000042 0 0); vm_compute; intuition congruence.
Defined.
