(* ===== verification/Pools.v ===== *)
(** * The pool of message batches (src/internal/queue/pools.go)

    [drainRound] takes a slice from a sync.Pool, appends the messages of the
    round to it and returns it by reference; the scheduler worker reads it,
    clears it and puts it back, where any other worker may take it.  The slices
    are objects in a store: an array with a capacity, a length, and a pointer
    that workers and the pool share.  The theorem justifies the lists of
    messages [Group.v] and [Scheduler.v] work with: a worker reads exactly what
    it has appended, whatever the others do. *)

From stdpp Require Import base gmap list relations strings.
From Stdlib Require Import ZArith Lia Strings.Byte.
From S2P Require Import Prelude Message.
Local Open Scope list_scope.

(** A slice header with its array; the slots after the length are part of the
    capacity. *)
Record batch := mkBatch { bt_array : list (option Message); bt_len : nat }.

Definition new_batch : batch := mkBatch (replicate 64 None) 0.

(** [append]: in place while the capacity lasts, else into an array of about twice
    the size. *)
Definition append (m : Message) (b : batch) : batch :=
  let arr := if (bt_len b <? length (bt_array b))%nat then bt_array b
             else take (bt_len b) (bt_array b) ++ replicate (S (bt_len b)) None in
  mkBatch (<[bt_len b := Some m]> arr) (S (bt_len b)).

(** [putMessageBatch] before the slice goes back: every slot in use is set to
    nil and the length to zero. *)
Definition clear_slots (n : nat) (arr : list (option Message)) : list (option Message) :=
  foldl (λ a i, <[i := None]> a) arr (seq 0 n).
Definition cleared (b : batch) : batch := mkBatch (clear_slots (bt_len b) (bt_array b)) 0.

Definition contents (b : batch) : list (option Message) := take (bt_len b) (bt_array b).

(** The slices by address, the addresses in the pool, and for each worker the
    address it holds with the messages it has appended since it took it. *)
Record pool := mkPool {
  po_store : gmap nat batch;
  po_free : list nat;
  po_held : gmap nat (nat * list Message);
}.

Definition get_free (w p : nat) (rest : list nat) (s : pool) : pool := mkPool (po_store s) rest (<[w := (p, [])]> (po_held s)).
Definition get_new (w p : nat) (s : pool) : pool :=
  mkPool (<[p := new_batch]> (po_store s)) (po_free s) (<[w := (p, [])]> (po_held s)).
Definition append_to (w p : nat) (ms : list Message) (m : Message) (s : pool) : pool :=
  mkPool (alter (append m) p (po_store s)) (po_free s) (<[w := (p, ms ++ [m])]> (po_held s)).
Definition putMessageBatch (w p : nat) (s : pool) : pool :=
  mkPool (alter cleared p (po_store s)) (p :: po_free s) (delete w (po_held s)).

(** Workers in any order; a worker that panics never puts its slice back, and
    the runtime may take slices out of the pool. *)
Inductive pstep (s : pool) : pool → Prop :=
| ps_get w p l1 l2 : po_held s !! w = None → po_free s = l1 ++ p :: l2 → pstep s (get_free w p (l1 ++ l2) s)
| ps_new w p : po_held s !! w = None → po_store s !! p = None → pstep s (get_new w p s)
| ps_append w p ms m : po_held s !! w = Some (p, ms) → pstep s (append_to w p ms m s)
| ps_put w p ms : po_held s !! w = Some (p, ms) → pstep s (putMessageBatch w p s)
| ps_panic w : pstep s (mkPool (po_store s) (po_free s) (delete w (po_held s)))
| ps_collect l1 p l2 : po_free s = l1 ++ p :: l2 → pstep s (mkPool (po_store s) (l1 ++ l2) (po_held s)).

Definition empty_pool : pool := mkPool ∅ [] ∅.

(** ** Slices *)

(** A slice with the messages [ms] and nil in every other slot. *)
Definition holds (ms : list Message) (b : batch) : Prop :=
  bt_len b = length ms ∧ ∃ n, bt_array b = (Some <$> ms) ++ replicate n None.

Lemma holds_contents ms b : holds ms b → contents b = Some <$> ms.
Proof. intros [Hl [n Hn]]. unfold contents. rewrite Hn, Hl. by rewrite take_app_length' by (by rewrite length_fmap). Qed.

Lemma new_batch_holds : holds [] new_batch.
Proof. split; [done|]. by exists 64%nat. Qed.

Lemma append_holds ms m b : holds ms b → holds (ms ++ [m]) (append m b).
Proof.
  intros [Hl [n Hn]]. split; [cbn; rewrite length_app; cbn; lia|]. cbn [append bt_array].
  assert (∃ k, (if (bt_len b <? length (bt_array b))%nat then bt_array b
      else take (bt_len b) (bt_array b) ++ replicate (S (bt_len b)) None) = (Some <$> ms) ++ replicate (S k) None) as [k ->].
  { destruct (Nat.ltb_spec (bt_len b) (length (bt_array b))) as [Hlt|Hge].
    - rewrite Hn, length_app, length_fmap, length_replicate in Hlt. destruct n as [|k]; [lia|]. by exists k.
    - exists (bt_len b). f_equal. exact (holds_contents ms b (conj Hl (ex_intro _ n Hn))). }
  exists k. rewrite fmap_app, <-app_assoc. cbn. rewrite insert_app_r_alt by (rewrite length_fmap; lia).
  rewrite length_fmap, Hl, Nat.sub_diag. done.
Qed.

Lemma clear_slots_app (l : list (option Message)) r : clear_slots (length l) (l ++ r) = replicate (length l) None ++ r.
Proof.
  unfold clear_slots. revert r. induction l as [|x l IH] using rev_ind; intros r; [done|].
  rewrite length_app. cbn [length]. rewrite Nat.add_1_r, seq_S, foldl_app, <-app_assoc, IH. cbn.
  rewrite insert_app_r_alt by (rewrite length_replicate; lia). rewrite length_replicate, Nat.sub_diag. cbn.
  rewrite (cons_middle None _ r), app_assoc, <-replicate_cons_app. done.
Qed.

Lemma cleared_holds ms b : holds ms b → holds [] (cleared b).
Proof.
  intros [Hl [n Hn]]. split; [done|]. cbn. exists (length ms + n)%nat. rewrite Hn, Hl.
  rewrite <-(length_fmap Some ms), clear_slots_app, length_fmap. by rewrite replicate_add.
Qed.

(** ** Slices are private *)

Record pool_ok (s : pool) : Prop := {
  pk_free : NoDup (po_free s) ∧ ∀ p, p ∈ po_free s → ∃ b, po_store s !! p = Some b ∧ holds [] b;
  pk_held : ∀ w p ms, po_held s !! w = Some (p, ms) → p ∉ po_free s ∧ ∃ b, po_store s !! p = Some b ∧ holds ms b;
  pk_one : ∀ w w' p ms ms', po_held s !! w = Some (p, ms) → po_held s !! w' = Some (p, ms') → w = w';
}.

(** Taking a slice nobody else has. *)
Lemma held_insert w p (st : gmap nat batch) (free : list nat) (held : gmap nat (nat * list Message)) ms b :
  st !! p = Some b → holds ms b → p ∉ free →
  (∀ w' p' ms', w' ≠ w → held !! w' = Some (p', ms') → p' ≠ p ∧ p' ∉ free ∧ ∃ b, st !! p' = Some b ∧ holds ms' b) →
  (∀ w1 w2 p' ms1 ms2, held !! w1 = Some (p', ms1) → held !! w2 = Some (p', ms2) → w1 = w2) →
  (∀ w' p' ms', <[w := (p, ms)]> held !! w' = Some (p', ms') → p' ∉ free ∧ ∃ b, st !! p' = Some b ∧ holds ms' b) ∧
  (∀ w1 w2 p' ms1 ms2, <[w := (p, ms)]> held !! w1 = Some (p', ms1) → <[w := (p, ms)]> held !! w2 = Some (p', ms2) → w1 = w2).
Proof.
  intros Hst Hb Hfree Hothers Hone. split.
  - intros w' p' ms' [[<- [= <- <-]]|[Hne Hw]]%lookup_insert_Some; [eauto|]. apply (Hothers w' p' ms'); auto.
  - intros w1 w2 p' ms1 ms2 [[<- [= <- <-]]|[Hn1 H1]]%lookup_insert_Some [[<- E]|[Hn2 H2]]%lookup_insert_Some; try done.
    + by destruct (Hothers w2 p ms2 ltac:(done) H2).
    + injection E as <- <-. by destruct (Hothers w1 p ms1 ltac:(done) H1).
    + by eapply Hone.
Qed.

Lemma pstep_ok s s' : pstep s s' → pool_ok s → pool_ok s'.
Proof.
  intros Hst [[Hnd Hf] Hh Hone]. destruct Hst as [w p l1 l2 Hw Hfree|w p Hw Hp|w p ms m Hw|w p ms Hw|w|l1 p l2 Hfree].
  - assert (p ∈ po_free s) as Hin by (rewrite Hfree; set_solver). destruct (Hf p Hin) as (b & Hb & Hbh).
    assert (NoDup (l1 ++ l2) ∧ p ∉ l1 ++ l2) as [Hnd' Hp].
    { rewrite Hfree, <-Permutation_middle in Hnd. apply NoDup_cons in Hnd. tauto. }
    destruct (held_insert w p (po_store s) (l1 ++ l2) (po_held s) [] b Hb Hbh Hp) as [H1 H2]; [|done|].
    { intros w' p' ms' _ Hw'. destruct (Hh w' p' ms' Hw') as (Hnf & Hb'). rewrite Hfree in Hnf. split_and!; [set_solver|set_solver|done]. }
    split; [split; [done|]|done|done]. intros p' Hp'. apply Hf. rewrite Hfree. set_solver.
  - assert (p ∉ po_free s) as Hp' by (intros (b & Hb & _)%Hf; congruence).
    destruct (held_insert w p (<[p := new_batch]> (po_store s)) (po_free s) (po_held s) [] new_batch) as [H1 H2];
      [apply lookup_insert_eq|apply new_batch_holds|done| |done|].
    { intros w' p' ms' _ Hw'. destruct (Hh w' p' ms' Hw') as (Hnf & b & Hb & Hbh). assert (p' ≠ p) by congruence.
      split_and!; [done|done|]. exists b. by rewrite lookup_insert_ne. }
    split; [split; [done|]|done|done]. intros p' Hin. destruct (Hf p' Hin) as (b & Hb & Hbh). exists b. cbn.
    rewrite lookup_insert_ne by congruence. done.
  - destruct (Hh w p ms Hw) as (Hnf & b & Hb & Hbh).
    destruct (held_insert w p (alter (append m) p (po_store s)) (po_free s) (po_held s) (ms ++ [m]) (append m b)) as [H1 H2];
      [by rewrite lookup_alter_eq, Hb|by apply append_holds|done| |done|].
    { intros w' p' ms' Hne Hw'. destruct (Hh w' p' ms' Hw') as (Hnf' & b' & Hb' & Hbh').
      assert (p' ≠ p) by (intros ->; apply Hne; by eapply Hone). split_and!; [done|done|]. exists b'. by rewrite lookup_alter_ne. }
    split; [split; [done|]|done|done]. intros p' Hin. destruct (Hf p' Hin) as (b' & Hb' & Hbh'). exists b'. cbn.
    rewrite lookup_alter_ne by (intros ->; done). done.
  - destruct (Hh w p ms Hw) as (Hnf & b & Hb & Hbh).
    assert (∀ w' p' ms', delete w (po_held s) !! w' = Some (p', ms') → p' ≠ p ∧ po_held s !! w' = Some (p', ms')) as Hd.
    { intros w' p' ms' [Hne Hw']%lookup_delete_Some. split; [|done]. intros ->. apply Hne. by eapply Hone. }
    split; cbn.
    + split; [by apply NoDup_cons|]. intros p' [->|Hin]%elem_of_cons.
      * exists (cleared b). rewrite lookup_alter_eq, Hb. split; [done|]. by eapply cleared_holds.
      * destruct (Hf p' Hin) as (b' & Hb' & Hbh'). exists b'. rewrite lookup_alter_ne by (intros ->; done). done.
    + intros w' p' ms' [Hne Hw']%Hd. destruct (Hh w' p' ms' Hw') as (Hnf' & b' & Hb' & Hbh'). split; [set_solver|].
      exists b'. by rewrite lookup_alter_ne.
    + intros w1 w2 p' ms1 ms2 [_ H1]%Hd [_ H2]%Hd. by eapply Hone.
  - split; [done| |]; cbn.
    + intros w' p' ms' [_ Hw']%lookup_delete_Some. by eapply Hh.
    + intros w1 w2 p' ms1 ms2 [_ H1]%lookup_delete_Some [_ H2]%lookup_delete_Some. by eapply Hone.
  - assert (∀ p', p' ∈ l1 ++ l2 → p' ∈ po_free s) as Hsub by (intros p'; rewrite Hfree; set_solver).
    split; [split| |done]; cbn.
    + rewrite Hfree, <-Permutation_middle in Hnd. apply NoDup_cons in Hnd. tauto.
    + auto.
    + intros w' p' ms' Hw'. destruct (Hh w' p' ms' Hw') as (Hnf & Hb). split; [auto|done].
Qed.

Lemma pool_reach s : rtc pstep empty_pool s → pool_ok s.
Proof.
  intros H. assert (pool_ok empty_pool) as Hok.
  { split; [split; [by apply NoDup_nil|by intros p ?%elem_of_nil]| |]; intros *; cbn; by rewrite lookup_empty. }
  induction H as [|s1 s2 s3 Hst _ IH]; [done|]. apply IH. by eapply pstep_ok.
Qed.

(** Whatever the other workers take, append, put back or lose, a worker finds
    in its slice exactly the messages it has appended since it took it, and the
    slices in the pool refer to no message. *)
Theorem batches_private s :
  rtc pstep empty_pool s →
  (∀ w p ms, po_held s !! w = Some (p, ms) → ∃ b, po_store s !! p = Some b ∧ contents b = Some <$> ms) ∧
  (∀ p b, p ∈ po_free s → po_store s !! p = Some b → bt_len b = 0%nat ∧ Forall (λ o, o = None) (bt_array b)).
Proof.
  intros [[Hnd Hf] Hh _]%pool_reach. split.
  - intros w p ms Hw. destruct (Hh w p ms Hw) as (_ & b & Hb & Hbh). exists b. split; [done|]. by apply holds_contents.
  - intros p b Hin Hb. destruct (Hf p Hin) as (b' & Hb' & [Hl [n Hn]]). assert (b' = b) as -> by congruence.
    split; [done|]. rewrite Hn. cbn. by apply Forall_replicate.
Qed.

Lemma batches_private_witness :
  let m id := newMessageAt id "jobs" "ns" "g" [] 0 in
  let s1 := get_new 1 5 empty_pool in
  let s2 := append_to 1 5 [m "a"] (m "b") (append_to 1 5 [] (m "a") s1) in
  let s3 := get_free 2 5 [] (putMessageBatch 1 5 s2) in
  let s := append_to 2 5 [] (m "c") s3 in
  ((∀ w p ms, po_held s !! w = Some (p, ms) → ∃ b, po_store s !! p = Some b ∧ contents b = Some <$> ms) ∧
   (∀ p b, p ∈ po_free s → po_store s !! p = Some b → bt_len b = 0%nat ∧ Forall (λ o, o = None) (bt_array b))) ∧
  (contents <$> po_store s2 !! 5%nat) = Some [Some (m "a"); Some (m "b")] ∧ (contents <$> po_store s !! 5%nat) = Some [Some (m "c")].
Proof.
  intros m s1 s2 s3 s. split; [|by vm_compute]. apply (batches_private s).
  eapply rtc_l; [by apply (ps_new _ 1 5)|]. eapply rtc_l; [by apply (ps_append _ 1 5 [] (m "a"))|].
  eapply rtc_l; [by apply (ps_append _ 1 5 [m "a"] (m "b"))|]. eapply rtc_l; [by apply (ps_put _ 1 5 [m "a"; m "b"])|].
  eapply rtc_l; [by apply (ps_get _ 2 5 [] [])|]. eapply rtc_l; [by apply (ps_append _ 2 5 [] (m "c"))|]. apply rtc_refl.
Defined.
