(* ===== verification/RateLimit.v ===== *)
(** * The sliding-window rate limiter (src/internal/queue/ratelimit.go)

    The limiter keeps the instants of the events it admitted, oldest first.
    [allow] indexes [events[0]] when the window is full, which panics when
    [max <= 0]; the theorems are about limiters with [max >= 1]. *)

From stdpp Require Import base list sorting.
From Stdlib Require Import ZArith Lia.
From S2P Require Import Prelude.
Local Open Scope Z_scope.

Record slidingWindowLimiter := mkLimiter {
  lim_max : Z;
  lim_window : Z;
  lim_events : list Z;
}.

Definition newSlidingWindowLimiter (max window : Z) : slidingWindowLimiter :=
  mkLimiter max window [].

(** The eviction loop: the number of leading events before [cutoff]. *)
Fixpoint expired_prefix (cutoff : Z) (events : list Z) : nat :=
  match events with
  | [] => 0%nat
  | e :: es => if e <? cutoff then S (expired_prefix cutoff es) else 0%nat
  end.

(** The events after eviction: both branches keep [events[i:]], one by copying
    it to the front of the backing array, the other by reslicing. *)
Definition compact (i : nat) (events : list Z) : list Z :=
  if (0 <? i)%nat
  then if (length events / 2 + 1 <=? i)%nat
       then take 0 events ++ drop i events
       else drop i events
  else events.

Definition allow (now : Z) (l : slidingWindowLimiter)
    : slidingWindowLimiter * outcome (bool * Z) :=
  let nowNs := UnixNano now in
  let cutoff := i64 (nowNs - lim_window l) in
  let i := expired_prefix cutoff (lim_events l) in
  let events := compact i (lim_events l) in
  let l := mkLimiter (lim_max l) (lim_window l) events in
  if lim_max l <=? Z.of_nat (length events)
  then match events with
       | [] => (l, Panic)
       | e :: _ =>
           let wakeAt := i64 (e + lim_window l) in
           let wakeAt := if wakeAt <? nowNs then nowNs else wakeAt in
           (l, Ret (false, wakeAt))
       end
  else (mkLimiter (lim_max l) (lim_window l) (events ++ [nowNs]), Ret (true, zero_time)).

(** ** Specification

    Times that the 64-bit nanosecond arithmetic represents exactly. *)
Definition in_range (t : Z) : Prop := - 2 ^ 61 ≤ t < 2 ^ 61.

Definition lim_config_ok (max window : Z) : Prop := 1 ≤ max ∧ 0 ≤ window < 2 ^ 61.

(** The limiter's events are the last admissions, oldest first, at most [max]. *)
Record lim_wf (l : slidingWindowLimiter) : Prop := {
  lim_wf_cfg : lim_config_ok (lim_max l) (lim_window l);
  lim_wf_len : Z.of_nat (length (lim_events l)) ≤ lim_max l;
  lim_wf_sorted : StronglySorted Z.le (lim_events l);
  lim_wf_range : Forall in_range (lim_events l);
}.

Lemma compact_drop i events : compact i events = drop i events.
Proof. unfold compact. destruct i; simpl; [done|]. by case_match. Qed.

Lemma expired_prefix_le cutoff events : (expired_prefix cutoff events ≤ length events)%nat.
Proof. induction events as [|e es IH]; simpl; [lia|]. case_match; lia. Qed.

(** What eviction keeps starts at the cutoff or later; what it drops is before. *)
Lemma expired_prefix_dropped cutoff events :
  Forall (λ e, e < cutoff) (take (expired_prefix cutoff events) events).
Proof.
  induction events as [|e es IH]; simpl; [done|].
  destruct (Z.ltb_spec e cutoff); simpl; [by constructor|done].
Qed.

Lemma expired_prefix_kept cutoff events :
  StronglySorted Z.le events →
  Forall (λ e, cutoff ≤ e) (drop (expired_prefix cutoff events) events).
Proof.
  induction 1 as [|e es Hs IH Hall]; simpl; [done|].
  destruct (Z.ltb_spec e cutoff); simpl; [done|].
  constructor; [done|]. eapply Forall_impl; [exact Hall|]. simpl. lia.
Qed.

Lemma StronglySorted_drop {A} (R : relation A) n l :
  StronglySorted R l → StronglySorted R (drop n l).
Proof.
  intros H. revert n. induction H as [|x l Hs IH Hall]; intros [|n]; simpl;
    [constructor..| |apply IH]. by constructor.
Qed.

Lemma StronglySorted_snoc {A} (R : relation A) l x :
  StronglySorted R l → Forall (λ y, R y x) l → StronglySorted R (l ++ [x]).
Proof.
  induction 1 as [|y l Hs IH Hall]; intros Hx; simpl; [repeat constructor|].
  apply Forall_cons in Hx as [Hyx Hx]. constructor; [by apply IH|].
  apply Forall_app; split; [done|by repeat constructor].
Qed.

Section allow.
Context (l : slidingWindowLimiter) (now : Z)
        (Hwf : lim_wf l) (Hnow : in_range now)
        (Hmono : Forall (λ e, e ≤ now) (lim_events l)).

Let kept := drop (expired_prefix (now - lim_window l) (lim_events l)) (lim_events l).

Lemma now_exact : UnixNano now = now.
Proof. apply wrap_s_small; unfold in_range in *; lia. Qed.

Lemma cutoff_exact : i64 (UnixNano now - lim_window l) = now - lim_window l.
Proof.
  destruct Hwf as [[? ?] _ _ _]. rewrite now_exact.
  apply wrap_s_small; unfold in_range in *; lia.
Qed.

(** The whole behaviour of one call on a well-formed limiter. *)
Lemma allow_spec :
  allow now l
  = if Z.of_nat (length kept) <? lim_max l
    then (mkLimiter (lim_max l) (lim_window l) (kept ++ [now]), Ret (true, zero_time))
    else (mkLimiter (lim_max l) (lim_window l) kept,
          Ret (false, hd now kept + lim_window l)).
Proof.
  pose proof Hwf as [[Hmax Hw] Hlen Hs Hr].
  unfold allow. rewrite cutoff_exact, now_exact, compact_drop. fold kept.
  cbn [lim_max lim_window].
  destruct (Z.leb_spec (lim_max l) (Z.of_nat (length kept))),
    (Z.ltb_spec (Z.of_nat (length kept)) (lim_max l)); try lia; [|done].
  pose proof (expired_prefix_kept (now - lim_window l) _ Hs) as Hk. fold kept in Hk.
  pose proof (Forall_drop _ (expired_prefix (now - lim_window l) (lim_events l)) _ Hr)
    as Hkr. fold kept in Hkr.
  destruct kept as [|e es] eqn:Ek; [simpl in *; lia|].
  apply Forall_cons in Hk as [He _]. apply Forall_cons in Hkr as [Her _]. simpl.
  assert (i64 (e + lim_window l) = e + lim_window l) as ->.
  { apply wrap_s_small; unfold in_range in *; lia. }
  destruct (Z.ltb_spec (e + lim_window l) now); [lia|done].
Qed.

(** On a limiter with [max >= 1] no call panics, and every call keeps
    the invariant: at most [max] events, in order. *)
Lemma allow_wf : lim_wf (allow now l).1 ∧ is_ret (allow now l).2 = true.
Proof.
  pose proof Hwf as [Hcfg Hlen Hs Hr]. rewrite allow_spec.
  assert (length kept ≤ length (lim_events l))%nat as Hkl
    by (unfold kept; rewrite length_drop; lia).
  destruct (Z.ltb_spec (Z.of_nat (length kept)) (lim_max l)); split; try done;
    constructor; cbn [fst lim_max lim_window lim_events]; try done.
  - rewrite length_app. simpl. lia.
  - apply StronglySorted_snoc; [by apply StronglySorted_drop|]. by apply Forall_drop.
  - apply Forall_app; split; [by apply Forall_drop|by apply Forall_singleton].
  - lia.
  - by apply StronglySorted_drop.
  - by apply Forall_drop.
Qed.
End allow.

(** ** The rate guarantee

    A run of calls, and the instants at which it admitted an event. *)
Fixpoint admitted (ts : list Z) (l : slidingWindowLimiter) : list Z :=
  match ts with
  | [] => []
  | t :: ts =>
      match allow t l with
      | (l', Ret (true, _)) => t :: admitted ts l'
      | (l', _) => admitted ts l'
      end
  end.

(** [spaced n w h]: an element and the one [n] places later are more than [w] apart. *)
Definition spaced (n : nat) (w : Z) (h : list Z) : Prop :=
  ∀ i a b, h !! i = Some a → h !! (i + n)%nat = Some b → w < b - a.

(** What a limiter remembers of the history [h] of admissions: the events are
    its tail, and every forgotten admission is more than a window old. *)
Record remembers (h : list Z) (last : Z) (l : slidingWindowLimiter) : Prop := {
  rem_wf : lim_wf l;
  rem_split : ∃ old, h = old ++ lim_events l ∧ Forall (λ e, lim_window l < last - e) old;
  rem_last : Forall (λ e, e ≤ last) h;
  rem_spaced : spaced (Z.to_nat (lim_max l)) (lim_window l) h;
}.

Lemma spaced_snoc n w h x :
  (0 < n)%nat → spaced n w h →
  (∀ i a, h !! i = Some a → (i + n)%nat = length h → w < x - a) →
  spaced n w (h ++ [x]).
Proof.
  intros Hn Hh Hx i a b Ha Hb. apply lookup_snoc_Some in Hb as [[Hlt Hb]|[Heq <-]].
  - rewrite lookup_app_l in Ha by lia. by eapply Hh.
  - apply lookup_snoc_Some in Ha as [[Hlt Ha]|[Heq' <-]]; [by eapply Hx|lia].
Qed.

(** After eviction at [t] the forgotten part has grown by the expired prefix. *)
Lemma remembers_evict h last l t :
  remembers h last l → last ≤ t →
  let i := expired_prefix (t - lim_window l) (lim_events l) in
  ∃ old, h = old ++ drop i (lim_events l) ∧ Forall (λ e, lim_window l < t - e) old.
Proof.
  intros [Hwf (old & -> & Hold) Hlast Hsp] Ht. cbn zeta.
  set (i := expired_prefix _ _).
  exists (old ++ take i (lim_events l)). split; [by rewrite <-app_assoc, take_drop|].
  apply Forall_app; split; eapply Forall_impl;
    [exact Hold|simpl; lia|apply expired_prefix_dropped|simpl; lia].
Qed.

Lemma remembers_step h last l t :
  remembers h last l → last ≤ t → in_range t →
  match allow t l with
  | (l', Ret (true, _)) => remembers (h ++ [t]) t l'
  | (l', Ret (false, _)) => remembers h t l'
  | (_, Panic) => False
  end.
Proof.
  intros Hrem Ht Hr. pose proof Hrem as [Hwf (old0 & Hh0 & _) Hlast Hsp].
  destruct (remembers_evict _ _ _ _ Hrem Ht) as (old & Hh & Hold). cbn zeta in Hh.
  assert (Forall (λ e, e ≤ t) h) as Hht
    by (eapply Forall_impl; [exact Hlast|simpl; lia]).
  assert (Forall (λ e, e ≤ t) (lim_events l)) as Hmono
    by (rewrite Hh0 in Hht; by apply Forall_app in Hht as [_ ?]).
  pose proof (allow_wf l t Hwf Hr Hmono) as [Hwf' _]. revert Hwf'.
  rewrite (allow_spec l t Hwf Hr). set (kept := drop _ _) in *.
  pose proof Hwf as [[Hmax Hw] _ _ _].
  destruct (Z.ltb_spec (Z.of_nat (length kept)) (lim_max l)) as [Hlt|Hge];
    cbn [fst]; intros Hwf'.
  - constructor; [done|..]; cbn [lim_max lim_window lim_events].
    + exists old. split; [by rewrite Hh, <-app_assoc|done].
    + apply Forall_app; split; [done|apply Forall_singleton; lia].
    + apply spaced_snoc; [lia|done|]. intros i a Ha Hi.
      rewrite Hh, length_app in Hi. rewrite Hh, lookup_app_l in Ha by lia.
      by eapply (Forall_lookup_1 _ _ _ _ Hold).
  - constructor; [done|..|done]; cbn [lim_max lim_window lim_events]; [|done].
    by exists old.
Qed.

Lemma admitted_spaced ts h last l :
  remembers h last l → StronglySorted Z.le (last :: ts) → Forall in_range ts →
  spaced (Z.to_nat (lim_max l)) (lim_window l) (h ++ admitted ts l).
Proof.
  revert h last l. induction ts as [|t ts IH]; intros h last l Hrem Hs Hr; simpl.
  { rewrite app_nil_r. apply Hrem. }
  apply StronglySorted_inv in Hs as [Hs Hlast].
  apply Forall_cons in Hr as [Hrt Hr]. apply Forall_cons in Hlast as [Hlt _].
  pose proof (remembers_step h last l t Hrem Hlt Hrt) as Hstep.
  assert (∀ l' o, allow t l = (l', o) →
            lim_max l' = lim_max l ∧ lim_window l' = lim_window l) as Hcfg.
  { intros l' o. unfold allow. repeat case_match; intros [= <- <-]; done. }
  destruct (allow t l) as [l' [[[] w]|]] eqn:E; [..|done];
    destruct (Hcfg _ _ eq_refl) as [<- <-].
  - rewrite cons_middle, app_assoc. by apply (IH _ t).
  - by apply (IH _ t).
Qed.

(** C30.  The rate guarantee.  Over any run of calls at non-decreasing times on
    a fresh limiter, an admission and the [max]-th one after it are more than a
    window apart: no closed window of the configured length ever contains more
    than [max] admitted events. *)
Theorem admitted_rate (max window : Z) (ts : list Z) :
  lim_config_ok max window → StronglySorted Z.le ts → Forall in_range ts →
  spaced (Z.to_nat max) window (admitted ts (newSlidingWindowLimiter max window)).
Proof.
  intros Hcfg Hs Hr. destruct ts as [|t ts]; [by intros i a b|].
  apply (admitted_spaced (t :: ts) [] t (newSlidingWindowLimiter max window)); [|..|done].
  - constructor; simpl; [|by exists []|done|by intros i a b].
    constructor; simpl; [done|destruct Hcfg; lia|constructor|done].
  - constructor; [done|]. constructor; [lia|]. by apply StronglySorted_inv in Hs as [_ ?].
Qed.

Lemma admitted_rate_witness :
  admitted [0; 1; 2; 10; 11; 12] (newSlidingWindowLimiter 2 9) = [0; 1; 10; 11] ∧
  spaced 2 9 (admitted [0; 1; 2; 10; 11; 12] (newSlidingWindowLimiter 2 9)).
Proof.
  split; [vm_compute; reflexivity|].
  apply (admitted_rate 2 9); [unfold lim_config_ok; lia|..].
  - repeat (constructor; [|repeat (constructor; [lia|]); constructor]). constructor.
  - repeat (constructor; [unfold in_range; lia|]). constructor.
Defined.

(**  The retry instant.  When a call is refused with retry instant [w],
    then [w] is not in the past and a later call at [t] is admitted exactly
    when [t] is strictly after [w] (no call in between): waiting until [w]
    itself is one nanosecond short. *)
Theorem refused_retry (l l' : slidingWindowLimiter) (now w t : Z) :
  lim_wf l → in_range now → Forall (λ e, e ≤ now) (lim_events l) →
  in_range t → now ≤ t → w < 2 ^ 61 →
  allow now l = (l', Ret (false, w)) →
  now ≤ w ∧ (∃ l'' b, allow t l' = (l'', Ret b) ∧ (b.1 = true ↔ w < t)).
Proof.
  intros Hwf Hr Hm Hrt Hnt Hw2 Ha.
  pose proof (allow_wf l now Hwf Hr Hm) as [Hwf' _]. rewrite Ha in Hwf'. cbn [fst] in Hwf'.
  pose proof Hwf as [[Hmax Hw] _ Hs Hrg]. rewrite (allow_spec l now Hwf Hr) in Ha.
  pose proof (expired_prefix_kept (now - lim_window l) _ Hs) as Hk.
  assert (Forall (λ e, e ≤ t) (drop (expired_prefix (now - lim_window l) (lim_events l))
    (lim_events l))) as Hkt.
  { apply Forall_drop. eapply Forall_impl; [exact Hm|simpl; lia]. }
  set (kept := drop _ _) in *.
  destruct (Z.ltb_spec (Z.of_nat (length kept)) (lim_max l)); [done|].
  injection Ha as <- <-. rewrite (allow_spec _ t Hwf' Hrt).
  cbn [lim_max lim_window lim_events] in *.
  destruct kept as [|e es]; [simpl in *; lia|].
  apply Forall_cons in Hk as [He Hes]. simpl. split; [lia|].
  destruct Hwf' as [_ Hlen _ _]. simpl in Hlen.
  destruct (Z.ltb_spec e (t - lim_window l)) as [Hlt|Hge]; simpl.
  - pose proof (expired_prefix_le (t - lim_window l) es).
    rewrite (proj2 (Z.ltb_lt _ _)) by (rewrite length_drop; lia).
    eexists _, (true, _). split; [done|]. simpl. split; [lia|done].
  - destruct (Z.ltb_spec (Z.of_nat (S (length es))) (lim_max l)); [simpl in H; lia|].
    eexists _, (false, _). split; [done|]. simpl. split; [done|lia].
Qed.

Lemma refused_retry_witness :
  5 ≤ 10 ∧ (∃ l'' b, allow 11 (mkLimiter 1 10 [0]) = (l'', Ret b) ∧ (b.1 = true ↔ 10 < 11)).
Proof.
  apply (refused_retry (mkLimiter 1 10 [0]) (mkLimiter 1 10 [0]) 5 10 11);
    unfold in_range; simpl; try lia; try done.
  - constructor; cbn [lim_max lim_window lim_events length].
    + unfold lim_config_ok. lia.
    + lia.
    + repeat constructor.
    + apply Forall_singleton. unfold in_range. lia.
  - by apply Forall_singleton.
Defined.
