(* ===== verification/PathMatch.v ===== *)
(** * Glob matching: Go's [path.Match]

    Group configurations may be keyed by a glob pattern, which
    [GroupConfig.Matches] (src/internal/queue/group.go) hands to [path.Match].
    This file transcribes [path.Match] with its helpers on byte sequences:
    ['*'] and ['?'] do not match ['/'], ['[...]'] is a character class, ['\\']
    escapes, a character is a UTF-8 encoded rune, and a malformed pattern is an
    error ([None] here).

    Fuel: every iteration of a loop below consumes at least one byte of the
    pattern (or of the class), so the length of the pattern is enough. *)

From stdpp Require Import base list strings.
From Stdlib Require Import ZArith Lia.
From S2P Require Import Prelude.
Local Open Scope Z_scope.

(** Bytes of a string as numbers. *)
Definition codes (s : string) : list Z := byte_to_Z <$> str_bytes s.

Definition c_star : Z := 42.
Definition c_quest : Z := 63.
Definition c_lbrack : Z := 91.
Definition c_rbrack : Z := 93.
Definition c_bslash : Z := 92.
Definition c_slash : Z := 47.
Definition c_caret : Z := 94.
Definition c_dash : Z := 45.
Definition RuneError : Z := 65533.

Definition in_rng (lo hi b : Z) : bool := (lo <=? b) && (b <=? hi).

(** [utf8.DecodeRuneInString]: the first rune and its width. *)
Definition DecodeRune (s : list Z) : Z * nat :=
  match s with
  | [] => (RuneError, 0%nat)
  | b0 :: rest =>
      if b0 <? 128 then (b0, 1%nat)
      else if in_rng 194 223 b0 then
        match rest with
        | b1 :: _ => if in_rng 128 191 b1 then ((b0 - 192) * 64 + (b1 - 128), 2%nat)
                     else (RuneError, 1%nat)
        | _ => (RuneError, 1%nat)
        end
      else if in_rng 224 239 b0 then
        let lo := if b0 =? 224 then 160 else 128 in
        let hi := if b0 =? 237 then 159 else 191 in
        match rest with
        | b1 :: b2 :: _ =>
            if in_rng lo hi b1 && in_rng 128 191 b2
            then ((b0 - 224) * 4096 + (b1 - 128) * 64 + (b2 - 128), 3%nat)
            else (RuneError, 1%nat)
        | _ => (RuneError, 1%nat)
        end
      else if in_rng 240 244 b0 then
        let lo := if b0 =? 240 then 144 else 128 in
        let hi := if b0 =? 244 then 143 else 191 in
        match rest with
        | b1 :: b2 :: b3 :: _ =>
            if in_rng lo hi b1 && in_rng 128 191 b2 && in_rng 128 191 b3
            then ((b0 - 240) * 262144 + (b1 - 128) * 4096 + (b2 - 128) * 64 + (b3 - 128), 4%nat)
            else (RuneError, 1%nat)
        | _ => (RuneError, 1%nat)
        end
      else (RuneError, 1%nat)
  end.

(** [scanChunk]: leading stars, then the text up to the next star outside a class. *)
Fixpoint strip_stars (p : list Z) : bool * list Z :=
  match p with
  | c :: p' => if c =? c_star then (true, (strip_stars p').2) else (false, p)
  | [] => (false, [])
  end.

Fixpoint chunk_len (inrange : bool) (p : list Z) : nat :=
  match p with
  | [] => 0%nat
  | c :: p' =>
      if c =? c_bslash then
        match p' with
        | [] => 1%nat
        | _ :: p'' => S (S (chunk_len inrange p''))
        end
      else if c =? c_lbrack then S (chunk_len true p')
      else if c =? c_rbrack then S (chunk_len false p')
      else if (c =? c_star) && negb inrange then 0%nat
      else S (chunk_len inrange p')
  end.

Definition scanChunk (p : list Z) : bool * list Z * list Z :=
  let '(star, p) := strip_stars p in
  let i := chunk_len false p in
  (star, take i p, drop i p).

(** [getEsc]: one possibly escaped rune of a character class. *)
Definition getEsc (chunk : list Z) : option (Z * list Z) :=
  match chunk with
  | [] => None
  | c :: rest =>
      if (c =? c_dash) || (c =? c_rbrack) then None
      else
        let chunk := if c =? c_bslash then rest else chunk in
        match chunk with
        | [] => None
        | _ =>
            let '(r, n) := DecodeRune chunk in
            if (r =? RuneError) && (n =? 1)%nat then None
            else match drop n chunk with
                 | [] => None
                 | nchunk => Some (r, nchunk)
                 end
        end
  end.

(** The ranges of a class, up to its closing bracket. *)
Fixpoint class_loop (fuel : nat) (r : Z) (chunk : list Z) (matched : bool) (nrange : nat)
    : option (bool * list Z) :=
  match fuel with
  | O => None
  | S fuel =>
      match chunk, nrange with
      | c :: rest, S _ =>
          if c =? c_rbrack then Some (matched, rest)
          else class_range fuel r chunk matched nrange
      | _, _ => class_range fuel r chunk matched nrange
      end
  end
with class_range (fuel : nat) (r : Z) (chunk : list Z) (matched : bool) (nrange : nat)
    : option (bool * list Z) :=
  match fuel with
  | O => None
  | S fuel =>
      match getEsc chunk with
      | None => None
      | Some (lo, chunk) =>
          match chunk with
          | d :: rest =>
              if d =? c_dash then
                match getEsc rest with
                | None => None
                | Some (hi, chunk) =>
                    class_loop fuel r chunk (matched || in_rng lo hi r) (S nrange)
                end
              else class_loop fuel r chunk (matched || in_rng lo lo r) (S nrange)
          | [] => None
          end
      end
  end.

(** [matchChunk]: [None] on a malformed pattern, otherwise the unmatched rest
    of [s] when the chunk matches a prefix of it.  The chunk is scanned to the
    end even after the match has failed. *)
Fixpoint matchChunk (fuel : nat) (chunk s : list Z) (failed : bool)
    : option (option (list Z)) :=
  match fuel with
  | O => None
  | S fuel =>
      match chunk with
      | [] => Some (if failed then None else Some s)
      | c :: rest =>
          let failed := failed || match s with [] => true | _ => false end in
          if c =? c_lbrack then
            let '(r, n) := if failed then (0, 0%nat) else DecodeRune s in
            let s := drop n s in
            let '(negated, chunk) :=
              match rest with
              | d :: rest' => if d =? c_caret then (true, rest') else (false, rest)
              | [] => (false, rest)
              end in
            match class_loop (2 * length chunk + 2) r chunk false 0 with
            | None => None
            | Some (matched, chunk) =>
                matchChunk fuel chunk s (failed || Bool.eqb matched negated)
            end
          else if c =? c_quest then
            if failed then matchChunk fuel rest s true
            else
              let slash := match s with b :: _ => b =? c_slash | [] => false end in
              matchChunk fuel rest (drop (DecodeRune s).2 s) slash
          else
            let lit := if c =? c_bslash then rest else chunk in
            match lit with
            | [] => None
            | d :: rest =>
                if failed then matchChunk fuel rest s true
                else match s with
                     | b :: s' => matchChunk fuel rest s' (negb (d =? b))
                     | [] => matchChunk fuel rest s true
                     end
            end
      end
  end.

Definition match_chunk (chunk s : list Z) : option (option (list Z)) :=
  matchChunk (S (length chunk)) chunk s false.

(** The rest of the pattern is well formed. *)
Fixpoint check_rest (fuel : nat) (p : list Z) : option bool :=
  match fuel with
  | O => None
  | S fuel =>
      match p with
      | [] => Some false
      | _ =>
          let '(_, chunk, p) := scanChunk p in
          match match_chunk chunk [] with
          | None => None
          | Some _ => check_rest fuel p
          end
      end
  end.

(** The star loop: try the chunk after skipping [1, 2, ...] bytes, none a ['/']. *)
Fixpoint star_loop (chunk : list Z) (last : bool) (name : list Z)
    : option (option (list Z)) :=
  match name with
  | [] => Some None
  | b :: name' =>
      if b =? c_slash then Some None
      else match match_chunk chunk name' with
           | None => None
           | Some (Some t) =>
               if last && negb (length t =? 0)%nat then star_loop chunk last name'
               else Some (Some t)
           | Some None => star_loop chunk last name'
           end
  end.

Fixpoint match_loop (fuel : nat) (pattern name : list Z) : option bool :=
  match fuel with
  | O => None
  | S fuel =>
      match pattern with
      | [] => Some (length name =? 0)%nat
      | _ =>
          let '(star, chunk, pattern) := scanChunk pattern in
          if star && (length chunk =? 0)%nat
          then Some (negb (existsb (Z.eqb c_slash) name))
          else
            let last := (length pattern =? 0)%nat in
            match match_chunk chunk name with
            | None => None
            | Some (Some t) =>
                if (length t =? 0)%nat || negb last then match_loop fuel pattern t
                else skip fuel star chunk last pattern name
            | Some None => skip fuel star chunk last pattern name
            end
      end
  end
with skip (fuel : nat) (star : bool) (chunk : list Z) (last : bool) (pattern name : list Z)
    : option bool :=
  match fuel with
  | O => None
  | S fuel =>
      if star then
        match star_loop chunk last name with
        | None => None
        | Some (Some t) => match_loop fuel pattern t
        | Some None => check_rest (S (length pattern)) pattern
        end
      else check_rest (S (length pattern)) pattern
  end.

(** [path.Match(pattern, name)]: [None] is [ErrBadPattern]. *)
Definition path_Match (pattern name : string) : option bool :=
  match_loop (2 * (length (codes pattern) + 1)) (codes pattern) (codes name).

Example path_Match_star : path_Match "tenant-*" "tenant-123" = Some true.
Proof. vm_compute. reflexivity. Qed.
Example path_Match_slash : path_Match "region/*" "region/us/east" = Some false.
Proof. vm_compute. reflexivity. Qed.
Example path_Match_mid : path_Match "*-prod-*x" "app-prod-eux" = Some true.
Proof. vm_compute. reflexivity. Qed.
Example path_Match_class : path_Match "[^a-c]?z" "dyz" = Some true.
Proof. vm_compute. reflexivity. Qed.
Example path_Match_bad : path_Match "[a" "a" = None.
Proof. vm_compute. reflexivity. Qed.
Example path_Match_esc : path_Match "\*a" "*a" = Some true.
Proof. vm_compute. reflexivity. Qed.
