(* ===== verification/Group.v ===== *)
(** * Consumer groups (src/internal/queue/group.go, delayed.go)

    A group is the unit of dispatch: messages wait in [ready] (FIFO), [urgent]
    (returned to pending, served first) or [delayed] (retry heap), and are in
    [processing] while a consumer holds their lease.

    Slots of [ready] and [urgent] are [option Message] because the code clears
    consumed or removed slots to [nil]; the two head indices are kept as the
    code keeps them.  Messages are shared by pointer in the source; a message
    lives in exactly one of the four places at a time ([group_wf] in
    GroupInv.v), so a value per place is the same.  [processing] is a Go map
    that can be nil: [ImportState] stores the one it is given. *)

From stdpp Require Import base gmap list strings.
From Stdlib Require Import ZArith Lia.
From S2P Require Import Prelude Heap Message RateLimit PathMatch.
Local Open Scope Z_scope.

(** ** Configuration *)

Definition BackoffFixed : string := "fixed".
Definition BackoffLinear : string := "linear".
Definition BackoffExponential : string := "exponential".

Record RateLimitConfig := mkRateLimitConfig { rl_Max : Z; rl_Window : Z }.

Record RetryConfig := mkRetryConfig {
  MaxAttempts : Z;
  Backoff : string;
  InitialDelay : Z;
  MaxDelay : Z;
}.

Record DLQConfig := mkDLQConfig { dlq_Enabled : bool; dlq_Queue : string }.

Record GroupConfig := mkGroupConfig {
  Key : string;
  Parallelism : Z;
  Quantum : Z;
  LeaseTimeout : Z;
  RateLimit : option RateLimitConfig;
  Retry : RetryConfig;
  DLQ : option DLQConfig;
  MaxPending : Z;
}.

Definition cfg_set_Key (k : string) (c : GroupConfig) : GroupConfig :=
  mkGroupConfig k (Parallelism c) (Quantum c) (LeaseTimeout c) (RateLimit c)
    (Retry c) (DLQ c) (MaxPending c).
Definition cfg_set_Quantum (q : Z) (c : GroupConfig) : GroupConfig :=
  mkGroupConfig (Key c) (Parallelism c) q (LeaseTimeout c) (RateLimit c)
    (Retry c) (DLQ c) (MaxPending c).
Definition cfg_set_Parallelism (p : Z) (c : GroupConfig) : GroupConfig :=
  mkGroupConfig (Key c) p (Quantum c) (LeaseTimeout c) (RateLimit c)
    (Retry c) (DLQ c) (MaxPending c).

Definition defaultGroupConfig (key : string) : GroupConfig :=
  mkGroupConfig key 1 1 (5 * minute) None
    (mkRetryConfig 3 BackoffExponential second (5 * minute)) None 10000000.

Definition Matches (c : GroupConfig) (key : string) : bool :=
  if decide (Key c = key) then true
  else match path_Match (Key c) key with Some matched => matched | None => false end.

Definition IsSequential (c : GroupConfig) : bool := Parallelism c <=? 1.

(** ** The retry heap's order *)

(** [delayedHeap.Less] *)
Definition delayed_less (a b : Message) : bool :=
  if ScheduledAt a =? ScheduledAt b then str_ltb (ID a) (ID b)
  else Before (ScheduledAt a) (ScheduledAt b).

(** ** Runtime state *)

Record group := mkGroup {
  cfg : GroupConfig;
  ready : list (option Message);
  readyHead : nat;
  urgent : list (option Message);
  urgentHead : nat;
  delayed : list Message;
  processing : gomap Message;
  limiter : option slidingWindowLimiter;
  deficit : Z;
  quantum : Z;
  isScheduled : Z;
  wakeScheduledAt : Z;
}.

(** Field assignments. *)
Definition set_cfg x g := mkGroup x (ready g) (readyHead g) (urgent g) (urgentHead g)
  (delayed g) (processing g) (limiter g) (deficit g) (quantum g) (isScheduled g) (wakeScheduledAt g).
Definition set_ready x h g := mkGroup (cfg g) x h (urgent g) (urgentHead g)
  (delayed g) (processing g) (limiter g) (deficit g) (quantum g) (isScheduled g) (wakeScheduledAt g).
Definition set_urgent x h g := mkGroup (cfg g) (ready g) (readyHead g) x h
  (delayed g) (processing g) (limiter g) (deficit g) (quantum g) (isScheduled g) (wakeScheduledAt g).
Definition set_delayed x g := mkGroup (cfg g) (ready g) (readyHead g) (urgent g) (urgentHead g)
  x (processing g) (limiter g) (deficit g) (quantum g) (isScheduled g) (wakeScheduledAt g).
Definition set_processing x g := mkGroup (cfg g) (ready g) (readyHead g) (urgent g) (urgentHead g)
  (delayed g) x (limiter g) (deficit g) (quantum g) (isScheduled g) (wakeScheduledAt g).
Definition set_limiter x g := mkGroup (cfg g) (ready g) (readyHead g) (urgent g) (urgentHead g)
  (delayed g) (processing g) x (deficit g) (quantum g) (isScheduled g) (wakeScheduledAt g).
Definition set_deficit x g := mkGroup (cfg g) (ready g) (readyHead g) (urgent g) (urgentHead g)
  (delayed g) (processing g) (limiter g) x (quantum g) (isScheduled g) (wakeScheduledAt g).
Definition set_quantum x g := mkGroup (cfg g) (ready g) (readyHead g) (urgent g) (urgentHead g)
  (delayed g) (processing g) (limiter g) (deficit g) x (isScheduled g) (wakeScheduledAt g).
Definition set_isScheduled x g := mkGroup (cfg g) (ready g) (readyHead g) (urgent g) (urgentHead g)
  (delayed g) (processing g) (limiter g) (deficit g) (quantum g) x (wakeScheduledAt g).
Definition set_wakeScheduledAt x g := mkGroup (cfg g) (ready g) (readyHead g) (urgent g) (urgentHead g)
  (delayed g) (processing g) (limiter g) (deficit g) (quantum g) (isScheduled g) x.

Definition pendingCount (g : group) : Z :=
  (Z.of_nat (length (urgent g)) - Z.of_nat (urgentHead g))
  + (Z.of_nat (length (ready g)) - Z.of_nat (readyHead g))
  + Z.of_nat (length (delayed g)).
Definition processingCount (g : group) : Z := Z.of_nat (map_len (processing g)).

(** The defaults [newGroup] fills in. *)
Definition with_defaults (c : GroupConfig) : GroupConfig :=
  let def := defaultGroupConfig (Key c) in
  let r := Retry c in
  mkGroupConfig (Key c)
    (if Parallelism c <=? 0 then Parallelism def else Parallelism c)
    (if Quantum c <=? 0 then Quantum def else Quantum c)
    (LeaseTimeout c) (RateLimit c)
    (mkRetryConfig
       (if MaxAttempts r =? 0 then MaxAttempts (Retry def) else MaxAttempts r)
       (if decide (Backoff r = "") then Backoff (Retry def) else Backoff r)
       (if InitialDelay r =? 0 then InitialDelay (Retry def) else InitialDelay r)
       (if MaxDelay r =? 0 then MaxDelay (Retry def) else MaxDelay r))
    (DLQ c) (MaxPending c).

Definition newGroup (c : GroupConfig) : group :=
  let c := with_defaults c in
  let limiter :=
    match RateLimit c with
    | Some rl => Some (newSlidingWindowLimiter (rl_Max rl) (rl_Window rl))
    | None => None
    end in
  mkGroup c [] 0 [] 0 (Init delayed_less []) (Some ∅) limiter 0 (Quantum c) 0 0.

Definition enqueue (msg : Message) (g : group) : group :=
  set_ready (ready g ++ [Some msg]) (readyHead g) g.

(** ** Promotion of due messages *)

(** Step 1 of [promoteDelayed]: one iteration of the lease loop. *)
Definition expire_lease (now : Z) (acc : group * Z) (kv : string * Message) : group * Z :=
  let '(g, wake) := acc in
  let '(id, msg) := kv in
  if After now (ScheduledAt msg)
  then (set_urgent (urgent g ++ [Some (set_State StatePending msg)]) (urgentHead g)
          (set_processing (map_del id (processing g)) g), wake)
  else (g, min_wake wake (ScheduledAt msg)).

(** Step 2: pop the heap while its root is due. *)
Fixpoint promote_loop (fuel : nat) (now : Z) (g : group) (wake : Z) : group * Z :=
  match fuel with
  | O => (g, wake)
  | S fuel =>
      match delayed g with
      | [] => (g, wake)
      | msg :: _ =>
          if After (ScheduledAt msg) now
          then (g, min_wake wake (ScheduledAt msg))
          else
            let g := set_delayed (Pop delayed_less (delayed g)).1 g in
            promote_loop fuel now (set_ready (ready g ++ [Some msg]) (readyHead g) g) wake
      end
  end.

Definition promoteDelayed (ord : range_order Message) (now : Z) (g : group) : group * Z :=
  let '(g, wake) :=
    foldl (expire_lease now) (g, zero_time) (range_of ord (map_entries (processing g))) in
  promote_loop (S (length (delayed g))) now g wake.

Definition nextDelayedAt (g : group) : Z * bool :=
  match delayed g with
  | [] => (zero_time, false)
  | m :: _ => (ScheduledAt m, true)
  end.
Definition nextDelayedAtOrZero (g : group) : Z :=
  let '(t, ok) := nextDelayedAt g in if ok then t else zero_time.

(** ** Dispatch *)

Inductive dispatchStopReason :=
| dispatchStopEmpty | dispatchStopCapacity | dispatchStopRateLimited.

#[export] Instance dispatchStopReason_eq_dec : EqDecision dispatchStopReason.
Proof. solve_decision. Defined.

(** Hand [slot] to a consumer: dereferencing a nil slot or writing to a nil
    [processing] map panics. *)
Definition lease (now : Z) (slot : option Message) (g : group)
    : group * outcome (option Message * dispatchStopReason * Z) :=
  match slot with
  | None => (g, Panic)
  | Some msg =>
      let msg := set_ScheduledAt (now + LeaseTimeout (cfg g)) (set_State StateProcessing msg) in
      match map_put (ID msg) msg (processing g) with
      | None => (g, Panic)
      | Some p => (set_processing p g, Ret (Some msg, dispatchStopEmpty, zero_time))
      end
  end.

(** The loop over [ready]: clear the slot, advance the head, skip nil slots. *)
Fixpoint ready_loop (fuel : nat) (now : Z) (g : group)
    : group * outcome (option Message * dispatchStopReason * Z) :=
  match fuel with
  | O => (g, Ret (None, dispatchStopEmpty, zero_time))
  | S fuel =>
      match ready g !! readyHead g with
      | Some slot =>
          let g := set_ready (<[readyHead g := None]> (ready g)) (S (readyHead g)) g in
          match slot with
          | Some msg => lease now (Some msg) g
          | None => ready_loop fuel now g
          end
      | None =>
          let g := set_ready [] 0 g in
          if (0 <? length (delayed g))%nat
          then (g, Ret (None, dispatchStopEmpty, nextDelayedAtOrZero g))
          else (g, Ret (None, dispatchStopEmpty, zero_time))
      end
  end.

(** Past the capacity and rate checks: urgent slots first, then ready ones. *)
Definition take_next (now : Z) (g : group)
    : group * outcome (option Message * dispatchStopReason * Z) :=
  match urgent g !! urgentHead g with
  | Some slot =>
      lease now slot (set_urgent (<[urgentHead g := None]> (urgent g)) (S (urgentHead g)) g)
  | None =>
      let g := set_urgent [] 0 g in
      ready_loop (S (length (ready g))) now g
  end.

Definition nextDispatchable (now : Z) (g : group)
    : group * outcome (option Message * dispatchStopReason * Z) :=
  if Parallelism (cfg g) <=? Z.of_nat (map_len (processing g))
  then (g, Ret (None, dispatchStopCapacity, zero_time))
  else
    match limiter g with
    | None => take_next now g
    | Some l =>
        match allow now l with
        | (l, Panic) => (set_limiter (Some l) g, Panic)
        | (l, Ret (false, wakeAt)) =>
            (set_limiter (Some l) g, Ret (None, dispatchStopRateLimited, wakeAt))
        | (l, Ret (true, _)) => take_next now (set_limiter (Some l) g)
        end
    end.

Definition next (now : Z) (g : group) : group * outcome (option Message) :=
  let '(g, o) := nextDispatchable now g in
  (g, outcome_map (λ r, r.1.1) o).

(** How the dispatch loop of [drainRound] ends: an early return on an empty
    group, or a break (deficit used up, capacity, rate limit). *)
Inductive drain_exit := DrainEmpty | DrainBreak (blockedByCapacity : bool).

(** [for g.deficit > 0 { ... }]: an iteration dispatches a message and takes
    one from the deficit, or ends the loop; the deficit is the fuel. *)
Fixpoint drain_loop (fuel : nat) (now : Z) (g : group) (batch : list Message) (wakeAt : Z)
    : group * outcome (list Message * Z * drain_exit) :=
  match fuel with
  | O => (g, Ret (batch, wakeAt, DrainBreak false))
  | S fuel =>
      match nextDispatchable now g with
      | (g, Panic) => (g, Panic)
      | (g, Ret (Some msg, _, _)) =>
          drain_loop fuel now (set_deficit (deficit g - 1) g) (batch ++ [msg]) wakeAt
      | (g, Ret (None, dispatchStopEmpty, stopWake)) =>
          let wakeAt := if IsZero stopWake then wakeAt else min_wake wakeAt stopWake in
          (g, Ret (batch, wakeAt, DrainEmpty))
      | (g, Ret (None, dispatchStopCapacity, _)) =>
          (g, Ret (batch, wakeAt, DrainBreak true))
      | (g, Ret (None, dispatchStopRateLimited, stopWake)) =>
          (g, Ret (batch, min_wake wakeAt stopWake, DrainBreak false))
      end
  end.

(** The four results of [drainRound]; the batch is [None] when it is nil. *)
Record drained := mkDrained {
  d_ready : option (list Message);
  d_wakeAt : Z;
  d_hasWake : bool;
  d_stillPending : bool;
}.

Definition drainRound (ord : range_order Message) (now : Z) (g : group)
    : group * outcome drained :=
  let '(g, wakeAt) := promoteDelayed ord now g in
  if pendingCount g =? 0
  then (g, Ret (mkDrained None wakeAt (negb (IsZero wakeAt)) false))
  else
    let g := if quantum g <=? 0 then set_quantum 1 g else g in
    let g := set_deficit (deficit g + quantum g) g in
    match drain_loop (Z.to_nat (deficit g)) now g [] wakeAt with
    | (g, Panic) => (g, Panic)
    | (g, Ret (batch, wakeAt, DrainEmpty)) =>
        (g, Ret (mkDrained (Some batch) wakeAt (negb (IsZero wakeAt)) false))
    | (g, Ret (batch, wakeAt, DrainBreak blockedByCapacity)) =>
        (g, Ret
          (if blockedByCapacity
           then mkDrained (Some batch) wakeAt (negb (IsZero wakeAt)) false
           else if negb (IsZero wakeAt)
           then mkDrained (Some batch) wakeAt true false
           else if 0 <? pendingCount g
           then mkDrained (Some batch) zero_time false true
           else mkDrained (Some batch) zero_time false false))
    end.

(** ** Completion and failure *)

Definition complete (msgID : string) (g : group) : group * option Message :=
  match map_get (processing g) msgID with
  | None => (g, None)
  | Some msg => (set_processing (map_del msgID (processing g)) g, Some (set_State StateDone msg))
  end.

(** [base * (1 << attempt)] in 64-bit arithmetic: the shift alone is 0 from 64 on. *)
Definition retryDelay (g : group) (attempt : Z) : Z :=
  let r := Retry (cfg g) in
  let base := InitialDelay r in
  let maxD := MaxDelay r in
  let d :=
    if decide (Backoff r = BackoffExponential) then i64 (base * i64 (Z.shiftl 1 attempt))
    else if decide (Backoff r = BackoffLinear) then i64 (base * i64 (attempt + 1))
    else base in
  if maxD <? d then maxD else d.

Definition fail (msgID errMsg : string) (now : Z) (g : group) : group * option Message :=
  match map_get (processing g) msgID with
  | None => (g, None)
  | Some msg =>
      let g := set_processing (map_del msgID (processing g)) g in
      let msg := set_LastError errMsg msg in
      let msg := set_Attempts (Attempts msg + 1) msg in
      if Attempts msg <? MaxAttempts (Retry (cfg g))
      then
        let msg := set_ScheduledAt (now + retryDelay g (Attempts msg)) msg in
        let msg := set_State StatePending msg in
        (set_delayed (Push delayed_less (delayed g) msg) g, None)
      else
        match DLQ (cfg g) with
        | Some d => if dlq_Enabled d then (g, Some (set_State StateDLQ msg)) else (g, None)
        | None => (g, None)
        end
  end.

Definition returnToPending (msgID : string) (g : group) : group * bool :=
  match map_get (processing g) msgID with
  | None => (g, false)
  | Some msg =>
      (set_urgent (urgent g ++ [Some (set_State StatePending msg)]) (urgentHead g)
         (set_processing (map_del msgID (processing g)) g), true)
  end.

(** ** Snapshots of a group *)

Record GroupState := mkGroupState {
  gs_Key : string;
  gs_Parallelism : Z;
  gs_Quantum : Z;
  gs_ReadyMsgs : list Message;
  gs_UrgentMsgs : list Message;
  gs_DelayedMsgs : list Message;
  gs_ProcessingMsgs : gomap Message;
}.

(** The live slots from a head index on. *)
Definition live (slots : list (option Message)) (head : nat) : list Message :=
  omap id (drop head slots).

Definition group_ExportState (g : group) : GroupState :=
  mkGroupState (Key (cfg g)) (Parallelism (cfg g)) (quantum g)
    (live (ready g) (readyHead g)) (live (urgent g) (urgentHead g))
    (delayed g) (Some (map_entries (processing g))).

Definition group_ImportState (st : GroupState) (g : group) : group :=
  let g := set_ready (Some <$> gs_ReadyMsgs st) 0 g in
  let g := set_urgent (Some <$> gs_UrgentMsgs st) 0 g in
  let g := set_delayed (Init delayed_less (gs_DelayedMsgs st)) g in
  set_processing (gs_ProcessingMsgs st) g.
