(* ===== verification/GroupInv.v ===== *)
(** * Invariant and conservation laws of a group

    [group_wf] is the well-formedness invariant of src/internal/queue/group.go:
    every message of the group has its own identifier and is in exactly one
    place, the processing map is not nil and is keyed by identifier, no nil
    slot is pending in [urgent], the retry slice is a heap, a configured limit
    admits at least one message.  This file proves that every operation keeps
    it, that no operation panics on a well-formed group, and that the
    identifiers in the group change only as the operation says. *)

From stdpp Require Import base gmap list strings sorting.
From Stdlib Require Import ZArith Lia.
From S2P Require Import Prelude Heap Message RateLimit Group.
Local Open Scope Z_scope.

(** ** The messages of a group *)

Definition inflight (g : group) : list Message :=
  (map_to_list (map_entries (processing g))).*2.

(** Urgent slots first, then ready ones: the order of dispatch. *)
Definition dispatch_order (g : group) : list Message :=
  live (urgent g) (urgentHead g) ++ live (ready g) (readyHead g).

Definition pending (g : group) : list Message := dispatch_order g ++ delayed g.
Definition group_msgs (g : group) : list Message := pending g ++ inflight g.
Definition group_ids (g : group) : list string := ID <$> group_msgs g.

Definition limiter_ok (o : option slidingWindowLimiter) : Prop :=
  match o with Some l => 1 ≤ lim_max l | None => True end.

Record group_wf (g : group) : Prop := {
  wf_proc : is_Some (processing g);
  wf_keys : ∀ k m, map_get (processing g) k = Some m → ID m = k;
  wf_nodup : NoDup (group_ids g);
  wf_urgent : Forall is_Some (drop (urgentHead g) (urgent g));
  wf_heads : (urgentHead g ≤ length (urgent g) ∧ readyHead g ≤ length (ready g))%nat;
  wf_heap : heap delayed_less (delayed g);
  wf_limiter : limiter_ok (limiter g);
  wf_pending : Forall (λ m, State m = StatePending) (pending g);
  wf_inflight : Forall (λ m, State m = StateProcessing) (inflight g);
}.

(** ** The order of the retry heap *)

Lemma delayed_le_alt x y :
  le delayed_less x y ↔
  ScheduledAt x < ScheduledAt y ∨ (ScheduledAt x = ScheduledAt y ∧ str_le (ID x) (ID y)).
Proof.
  unfold le, delayed_less, Before, str_le.
  destruct (Z.eqb_spec (ScheduledAt y) (ScheduledAt x)).
  - split; [auto|]. intros [?|[??]]; [lia|done].
  - rewrite Z.ltb_ge. split; [intros; left; lia|intros [?|[??]]; lia].
Qed.

Lemma delayed_le_total x y : le delayed_less x y ∨ le delayed_less y x.
Proof.
  rewrite !delayed_le_alt. destruct (total str_le (ID x) (ID y)),
    (Ztrichotomy_inf (ScheduledAt x) (ScheduledAt y)) as [[]|]; auto with lia.
Qed.

Lemma delayed_le_trans x y z :
  le delayed_less x y → le delayed_less y z → le delayed_less x z.
Proof.
  rewrite !delayed_le_alt. intros [?|[? Hxy]] [?|[? Hyz]]; try (left; lia).
  right. split; [lia|]. by transitivity (ID y).
Qed.

Lemma delayed_root_min h x y :
  heap delayed_less (x :: h) → y ∈ x :: h → ScheduledAt x ≤ ScheduledAt y.
Proof.
  intros Hh [i Hi]%list_elem_of_lookup.
  pose proof (heap_root_min delayed_less delayed_le_total delayed_le_trans
    (x :: h) x i y Hh eq_refl Hi) as Hle.
  rewrite delayed_le_alt in Hle. lia.
Qed.

(** ** Lists of slots *)

Lemma live_nil h : live [] h = [].
Proof. unfold live. by rewrite drop_nil. Qed.

Lemma live_app slots h m :
  (h ≤ length slots)%nat → live (slots ++ [Some m]) h = live slots h ++ [m].
Proof. intros. unfold live. rewrite drop_app_le, omap_app by done. done. Qed.

(** Consuming the head slot. *)
Lemma live_pop slots h (slot : option Message) :
  slots !! h = Some slot →
  live slots h = option_list slot ++ live (<[h := None]> slots) (S h).
Proof.
  intros Hh. unfold live. rewrite drop_insert_lt by lia.
  rewrite (drop_S _ _ _ Hh). by destruct slot.
Qed.

Lemma live_done slots h : slots !! h = None → live slots h = [].
Proof. intros Hh%lookup_ge_None. unfold live. by rewrite drop_ge. Qed.

Lemma fmap_Some_live (l : list Message) : live (Some <$> l) 0 = l.
Proof. unfold live. rewrite drop_0. induction l; csimpl; congruence. Qed.

Lemma inflight_insert g p k m :
  processing g = Some p → p !! k = None →
  inflight (set_processing (Some (<[k := m]> p)) g) ≡ₚ m :: inflight g.
Proof.
  intros Hp Hk. unfold inflight, map_entries. simpl. rewrite Hp. simpl.
  by rewrite map_to_list_insert.
Qed.

Lemma inflight_delete g k m :
  map_get (processing g) k = Some m →
  inflight g ≡ₚ m :: inflight (set_processing (map_del k (processing g)) g).
Proof.
  unfold map_get, inflight, map_entries, map_del. simpl.
  destruct (processing g) as [p|]; simpl; [|done]. intros Hk.
  by rewrite <-(map_to_list_delete _ _ _ Hk).
Qed.

Lemma elem_of_inflight g m :
  m ∈ inflight g ↔ ∃ k, map_get (processing g) k = Some m.
Proof.
  unfold inflight, map_get. rewrite list_elem_of_fmap. split.
  - intros ([k m'] & -> & H%elem_of_map_to_list). by exists k.
  - intros [k Hk]. exists (k, m). by rewrite elem_of_map_to_list.
Qed.

Lemma processing_fresh g p (m : Message) :
  group_wf g → processing g = Some p → ID m ∉ group_ids g → p !! ID m = None.
Proof.
  intros Hwf Hp Hni. apply eq_None_not_Some. intros [m' Hm']. apply Hni.
  assert (map_get (processing g) (ID m) = Some m') as Hget by (rewrite Hp; done).
  rewrite <-(wf_keys g Hwf _ _ Hget). unfold group_ids, group_msgs.
  apply list_elem_of_fmap_2, elem_of_app. right. apply elem_of_inflight. by exists (ID m).
Qed.

(** ** Building blocks

    The identifiers and pending messages after each elementary move. *)

Lemma group_ids_app g :
  group_ids g ≡ₚ (ID <$> dispatch_order g) ++ (ID <$> delayed g) ++ (ID <$> inflight g).
Proof. unfold group_ids, group_msgs, pending. by rewrite !fmap_app, app_assoc. Qed.

Lemma enqueue_order g m :
  (readyHead g ≤ length (ready g))%nat →
  dispatch_order (enqueue m g) = dispatch_order g ++ [m].
Proof. intros. unfold dispatch_order, enqueue. simpl. by rewrite live_app, app_assoc. Qed.

Lemma enqueue_ids g m :
  (readyHead g ≤ length (ready g))%nat →
  group_ids (enqueue m g) ≡ₚ ID m :: group_ids g.
Proof.
  intros. rewrite !group_ids_app, enqueue_order, fmap_app by done. simpl.
  rewrite <-!app_assoc. simpl. by rewrite <-Permutation_middle.
Qed.

Lemma enqueue_wf g m :
  group_wf g → ID m ∉ group_ids g → State m = StatePending → group_wf (enqueue m g).
Proof.
  intros [Hp Hk Hnd Hu [Hh1 Hh2] Hheap Hlim Hpend Hinf] Hni Hst.
  constructor; try done; simpl.
  - rewrite enqueue_ids by done. by constructor.
  - rewrite length_app. simpl. lia.
  - unfold pending. rewrite enqueue_order by done. unfold pending in Hpend.
    apply Forall_app in Hpend as [? ?].
    apply Forall_app; split; [|done]. apply Forall_app; split; [done|by apply Forall_singleton].
Qed.

(** Putting a message at the back of [urgent] or [delayed] after taking it out
    of [processing]: how leases end without completion. *)
Section Unlease.
Context (g : group) (k : string) (m : Message).
Context (Hwf : group_wf g) (Hk : map_get (processing g) k = Some m).

Let g0 := set_processing (map_del k (processing g)) g.

Lemma unlease_ids : group_ids g ≡ₚ k :: group_ids g0.
Proof.
  rewrite !group_ids_app. rewrite (inflight_delete g k m Hk). simpl.
  rewrite (wf_keys g Hwf _ _ Hk). by rewrite !Permutation_middle.
Qed.

Lemma unlease_fresh : k ∉ group_ids g0.
Proof.
  pose proof (wf_nodup g Hwf) as Hnd. rewrite unlease_ids in Hnd.
  by apply NoDup_cons in Hnd as [? _].
Qed.

Lemma unlease_wf : group_wf g0.
Proof.
  pose proof Hwf as [Hp Hkeys Hnd Hu Hh Hheap Hlim Hpend Hinf].
  constructor; try done.
  - unfold g0, map_del. simpl. by apply fmap_is_Some.
  - intros k' m'. unfold g0, map_get, map_del. simpl.
    destruct (processing g) as [p|] eqn:E; simpl; [|done].
    intros [_ Hm]%lookup_delete_Some. by apply Hkeys.
  - pose proof Hnd as Hnd'. rewrite unlease_ids in Hnd'. by apply NoDup_cons in Hnd' as [_ ?].
  - rewrite (inflight_delete g k m Hk) in Hinf. by apply Forall_cons in Hinf as [_ ?].
Qed.

Lemma unlease_state : State m = StateProcessing.
Proof.
  apply (proj1 (Forall_forall _ _) (wf_inflight g Hwf)), elem_of_inflight. by exists k.
Qed.
End Unlease.

Lemma push_urgent_ids g m :
  (urgentHead g ≤ length (urgent g))%nat →
  group_ids (set_urgent (urgent g ++ [Some m]) (urgentHead g) g) ≡ₚ ID m :: group_ids g.
Proof.
  intros. rewrite !group_ids_app. unfold dispatch_order. simpl.
  rewrite live_app, !fmap_app by done. simpl. rewrite <-!app_assoc. simpl.
  by rewrite <-Permutation_middle.
Qed.

Lemma push_urgent_wf g m :
  group_wf g → ID m ∉ group_ids g → State m = StatePending →
  group_wf (set_urgent (urgent g ++ [Some m]) (urgentHead g) g).
Proof.
  intros [Hp Hk Hnd Hu [Hh1 Hh2] Hheap Hlim Hpend Hinf] Hni Hst.
  constructor; try done; simpl.
  - rewrite push_urgent_ids by done. by constructor.
  - rewrite drop_app_le by done. apply Forall_app; split; [done|].
    apply Forall_singleton. by eexists.
  - rewrite length_app. simpl. lia.
  - revert Hpend. unfold pending, dispatch_order. simpl. rewrite live_app by done.
    rewrite !Forall_app, Forall_singleton. tauto.
Qed.

Lemma push_delayed_ids g m :
  group_ids (set_delayed (Push delayed_less (delayed g) m) g) ≡ₚ ID m :: group_ids g.
Proof.
  rewrite !group_ids_app. change (inflight (set_delayed _ g)) with (inflight g).
  unfold dispatch_order. simpl. rewrite Push_perm. simpl. by rewrite <-Permutation_middle.
Qed.

Lemma push_delayed_wf g m :
  group_wf g → ID m ∉ group_ids g → State m = StatePending →
  group_wf (set_delayed (Push delayed_less (delayed g) m) g).
Proof.
  intros [Hp Hk Hnd Hu Hh Hheap Hlim Hpend Hinf] Hni Hst.
  constructor; try done; simpl.
  - rewrite push_delayed_ids. by constructor.
  - by apply (Push_heap _ delayed_le_total delayed_le_trans).
  - revert Hpend. unfold pending, dispatch_order. simpl.
    rewrite Push_perm, !Forall_app, Forall_cons. tauto.
Qed.

(** Leasing a message that was just taken out of a slot. *)
Definition leased (now : Z) (g : group) (m : Message) : Message :=
  set_ScheduledAt (now + LeaseTimeout (cfg g)) (set_State StateProcessing m).

Lemma lease_ok now g m :
  group_wf g → ID m ∉ group_ids g →
  ∃ g', lease now (Some m) g = (g', Ret (Some (leased now g m), dispatchStopEmpty, zero_time)) ∧
    group_wf g' ∧ group_ids g' ≡ₚ ID m :: group_ids g ∧
    inflight g' ≡ₚ leased now g m :: inflight g ∧
    g' = set_processing (processing g') g.
Proof.
  intros Hwf Hni. destruct (wf_proc g Hwf) as [p Hp].
  pose proof (processing_fresh g p m Hwf Hp Hni) as Hfresh.
  unfold lease. simpl. rewrite Hp. simpl. fold (leased now g m).
  pose proof (inflight_insert g p (ID m) (leased now g m) Hp Hfresh) as Hins.
  set (g' := set_processing _ g) in *. exists g'. split; [done|].
  assert (group_ids g' ≡ₚ ID m :: group_ids g) as Hids.
  { rewrite !group_ids_app, Hins. simpl. by rewrite <-!Permutation_middle. }
  pose proof Hwf as [_ Hk Hnd Hu Hh Hheap Hlim Hpend Hinf].
  split; [|done]. constructor; try done; simpl.
  - intros k' m'. unfold map_get. simpl. intros [[<- <-]|[_ H]]%lookup_insert_Some; [done|].
    apply Hk. by rewrite Hp.
  - rewrite Hids. by constructor.
  - rewrite Hins. by constructor.
Qed.

(** Clearing the head slot of [urgent] or [ready]. *)
Definition pop_urgent (g : group) : group :=
  set_urgent (<[urgentHead g := None]> (urgent g)) (S (urgentHead g)) g.
Definition pop_ready (g : group) : group :=
  set_ready (<[readyHead g := None]> (ready g)) (S (readyHead g)) g.

Lemma pop_urgent_wf g slot :
  group_wf g → urgent g !! urgentHead g = Some slot →
  ∃ m, slot = Some m ∧ group_wf (pop_urgent g) ∧
    dispatch_order g = m :: dispatch_order (pop_urgent g).
Proof.
  intros Hwf Hs. pose proof Hwf as [Hp Hk Hnd Hu [Hh1 Hh2] Hheap Hlim Hpend Hinf].
  pose proof (lookup_lt_Some _ _ _ Hs) as Hlen.
  rewrite (drop_S _ _ _ Hs) in Hu. apply Forall_cons in Hu as [[m ->] Hu].
  exists m. split; [done|].
  assert (dispatch_order g = m :: dispatch_order (pop_urgent g)) as Hord.
  { unfold dispatch_order, pop_urgent. simpl. by rewrite (live_pop _ _ _ Hs). }
  split; [|done].
  assert (group_ids g ≡ₚ ID m :: group_ids (pop_urgent g)) as Hids
    by (rewrite !group_ids_app, Hord; done).
  constructor; try done.
  - rewrite Hids in Hnd. by apply NoDup_cons in Hnd as [_ ?].
  - unfold pop_urgent. simpl. by rewrite drop_insert_lt by lia.
  - unfold pop_urgent. simpl. rewrite length_insert. lia.
  - revert Hpend. unfold pending. rewrite Hord. simpl. rewrite Forall_cons. tauto.
Qed.

Lemma pop_ready_wf g slot :
  group_wf g → ready g !! readyHead g = Some slot → urgent g = [] →
  group_wf (pop_ready g) ∧
  dispatch_order g = option_list slot ++ dispatch_order (pop_ready g).
Proof.
  intros Hwf Hs Hnil. pose proof Hwf as [Hp Hk Hnd Hu [Hh1 Hh2] Hheap Hlim Hpend Hinf].
  pose proof (lookup_lt_Some _ _ _ Hs) as Hlen.
  assert (dispatch_order g = option_list slot ++ dispatch_order (pop_ready g)) as Hord.
  { unfold dispatch_order, pop_ready. simpl. rewrite Hnil, live_nil. simpl.
    by rewrite (live_pop _ _ _ Hs). }
  split; [|done].
  assert (group_ids g ≡ₚ (ID <$> option_list slot) ++ group_ids (pop_ready g)) as Hids.
  { rewrite !group_ids_app, Hord, fmap_app. by rewrite <-app_assoc. }
  constructor; try done.
  - rewrite Hids in Hnd. by apply NoDup_app in Hnd as (_ & _ & ?).
  - unfold pop_ready. simpl. rewrite length_insert. lia.
  - revert Hpend. unfold pending. rewrite Hord, !Forall_app. tauto.
Qed.

(** ** Dispatching one message *)

(** What an operation of the dispatch path leaves alone. *)
Record same_frame (g g' : group) : Prop := {
  fr_cfg : cfg g' = cfg g;
  fr_delayed : delayed g' = delayed g;
  fr_deficit : deficit g' = deficit g;
  fr_quantum : quantum g' = quantum g;
}.

#[export] Instance same_frame_preorder : PreOrder same_frame.
Proof.
  split; [by intros g|]. intros a b c [????] [????]. split; congruence.
Qed.

(** The outcomes of [nextDispatchable]: the first message in dispatch order is
    leased, or nothing is left to dispatch, or parallelism or the rate limit
    stops it. *)
Inductive took (now : Z) (g g' : group) : option Message * dispatchStopReason * Z → Prop :=
| took_msg m rest :
    dispatch_order g = m :: rest → dispatch_order g' = rest →
    inflight g' ≡ₚ leased now g m :: inflight g →
    took now g g' (Some (leased now g m), dispatchStopEmpty, zero_time)
| took_empty :
    dispatch_order g = [] → dispatch_order g' = [] → inflight g' = inflight g →
    took now g g' (None, dispatchStopEmpty, nextDelayedAtOrZero g)
| took_capacity :
    Parallelism (cfg g) ≤ Z.of_nat (length (inflight g)) → g' = g →
    took now g g' (None, dispatchStopCapacity, zero_time)
| took_limited w :
    dispatch_order g' = dispatch_order g → inflight g' = inflight g → is_Some (limiter g) →
    took now g g' (None, dispatchStopRateLimited, w).

(** A step from a state that differs in cleared slots only. *)
Lemma took_from now g g1 g' o :
  took now g1 g' o → dispatch_order g = dispatch_order g1 → processing g1 = processing g →
  cfg g1 = cfg g → delayed g1 = delayed g → (is_Some (limiter g1) → is_Some (limiter g)) →
  o.1.2 ≠ dispatchStopCapacity → took now g g' o.
Proof.
  intros Ht Ho Hp Hc Hd Hl Hr.
  assert (inflight g1 = inflight g) as Hi by (unfold inflight; by rewrite Hp).
  destruct Ht as [m rest H1 H2 H3|H1 H2 H3|? H2|w H1 H2 H3]; [..|done|].
  - assert (leased now g1 m = leased now g m) as E by (unfold leased; by rewrite Hc).
    rewrite E in *. apply (took_msg now g g' m rest); [by rewrite Ho|done|by rewrite <-Hi].
  - assert (nextDelayedAtOrZero g1 = nextDelayedAtOrZero g) as ->
      by (unfold nextDelayedAtOrZero, nextDelayedAt; by rewrite Hd).
    apply took_empty; congruence.
  - apply took_limited; [congruence..|auto].
Qed.

Lemma length_inflight g : length (inflight g) = map_len (processing g).
Proof. unfold inflight, map_len. by rewrite length_fmap, length_map_to_list. Qed.

Lemma popped_fresh g g1 m :
  group_wf g → dispatch_order g = m :: dispatch_order g1 → delayed g1 = delayed g →
  inflight g1 = inflight g → ID m ∉ group_ids g1.
Proof.
  intros Hwf Ho Hd Hi. pose proof (wf_nodup g Hwf) as Hnd.
  rewrite group_ids_app, Ho, <-Hd, <-Hi in Hnd. simpl in Hnd.
  apply NoDup_cons in Hnd as [Hni _]. by rewrite group_ids_app.
Qed.

Lemma lease_took now g g1 m :
  group_wf g → group_wf g1 → dispatch_order g = m :: dispatch_order g1 →
  inflight g1 = inflight g → same_frame g g1 → limiter g1 = limiter g →
  ∃ g' o, lease now (Some m) g1 = (g', Ret o) ∧ group_wf g' ∧ took now g g' o ∧
    o.1.2 = dispatchStopEmpty ∧ same_frame g g' ∧ limiter g' = limiter g.
Proof.
  intros Hwf Hwf1 Ho Hi Hfr Hl.
  pose proof (popped_fresh g g1 m Hwf Ho (fr_delayed _ _ Hfr) Hi) as Hni.
  destruct (lease_ok now g1 m Hwf1 Hni) as (g' & Heq & Hwf' & _ & Hinf & Hset).
  assert (leased now g1 m = leased now g m) as Hlm
    by (unfold leased; by rewrite (fr_cfg _ _ Hfr)).
  rewrite Hlm in *. eexists g', _. split; [exact Heq|].
  split; [done|]. split; [|split; [done|]].
  - apply (took_msg now g g' m (dispatch_order g1)); [done|by rewrite Hset|by rewrite <-Hi].
  - rewrite Hset. split; [|done]. destruct Hfr. by split.
Qed.

Lemma clear_ready_wf g :
  group_wf g → ready g !! readyHead g = None → urgent g = [] →
  group_wf (set_ready [] 0 g) ∧ dispatch_order g = [] ∧
  dispatch_order (set_ready [] 0 g) = [].
Proof.
  intros [Hp Hk Hnd Hu Hh Hheap Hlim Hpend Hinf] Hr Hnil.
  assert (dispatch_order g = []) as Ho
    by (unfold dispatch_order; by rewrite Hnil, live_nil, live_done).
  assert (dispatch_order (set_ready [] 0 g) = []) as Ho'
    by (unfold dispatch_order; simpl; by rewrite Hnil, !live_nil).
  split; [|done]. constructor; try done.
  - rewrite group_ids_app, Ho'. rewrite group_ids_app, Ho in Hnd. done.
  - simpl. lia.
  - revert Hpend. unfold pending. by rewrite Ho, Ho'.
Qed.

Lemma ready_loop_spec fuel now g :
  group_wf g → urgent g = [] → (length (ready g) - readyHead g < fuel)%nat →
  ∃ g' o, ready_loop fuel now g = (g', Ret o) ∧ group_wf g' ∧ took now g g' o ∧
    o.1.2 = dispatchStopEmpty ∧ same_frame g g' ∧ limiter g' = limiter g.
Proof.
  revert g. induction fuel as [|fuel IH]; intros g Hwf Hnil Hf; [lia|]. cbn [ready_loop].
  destruct (ready g !! readyHead g) as [slot|] eqn:Hs.
  - fold (pop_ready g). destruct (pop_ready_wf g slot Hwf Hs Hnil) as [Hwf1 Ho].
    destruct slot as [m|]; [by apply lease_took|].
    pose proof (lookup_lt_Some _ _ _ Hs).
    destruct (IH (pop_ready g) Hwf1 Hnil) as (g' & o & -> & Hwf' & Htook & Hr & Hfr & Hl).
    { unfold pop_ready. simpl. rewrite length_insert. lia. }
    exists g', o. split_and!; try done; [|by destruct Hfr].
    apply (took_from now g (pop_ready g)); rewrite ?Hr; done.
  - destruct (clear_ready_wf g Hwf Hs Hnil) as (Hwf1 & Ho & Ho').
    exists (set_ready [] 0 g), (None, dispatchStopEmpty, nextDelayedAtOrZero g).
    split_and!; try done; [|by constructor].
    unfold nextDelayedAtOrZero, nextDelayedAt. simpl. by destruct (delayed g).
Qed.

Lemma take_next_spec now g :
  group_wf g →
  ∃ g' o, take_next now g = (g', Ret o) ∧ group_wf g' ∧ took now g g' o ∧
    o.1.2 = dispatchStopEmpty ∧ same_frame g g' ∧ limiter g' = limiter g.
Proof.
  intros Hwf. unfold take_next. destruct (urgent g !! urgentHead g) as [slot|] eqn:Hs.
  - destruct (pop_urgent_wf g slot Hwf Hs) as (m & -> & Hwf1 & Ho).
    fold (pop_urgent g). by apply lease_took.
  - set (g1 := set_urgent [] 0 g).
    assert (dispatch_order g = dispatch_order g1) as Ho.
    { unfold dispatch_order, g1. simpl. by rewrite (live_done _ _ Hs). }
    assert (group_wf g1) as Hwf1.
    { destruct Hwf as [Hp Hk Hnd Hu [Hh1 Hh2] Hheap Hlim Hpend Hinf]. constructor; try done.
      - rewrite group_ids_app, <-Ho. by rewrite group_ids_app in Hnd.
      - unfold pending. by rewrite <-Ho. }
    destruct (ready_loop_spec (S (length (ready g1))) now g1 Hwf1 eq_refl)
      as (g' & o & -> & Hwf' & Htook & Hr & Hfr & Hl); [lia|].
    exists g', o. split_and!; try done; [|by destruct Hfr].
    apply (took_from now g g1); rewrite ?Hr; done.
Qed.

Lemma allow_no_panic now l :
  1 ≤ lim_max l →
  lim_max (allow now l).1 = lim_max l ∧ ∃ b w, (allow now l).2 = Ret (b, w).
Proof.
  intros Hmax. unfold allow. simpl.
  destruct (Z.leb_spec (lim_max l) (Z.of_nat (length (compact
    (expired_prefix (i64 (UnixNano now - lim_window l)) (lim_events l)) (lim_events l))))) as [Hle|Hle].
  - destruct (compact _ _); simpl in *; [lia|]. eauto.
  - simpl. eauto.
Qed.

Lemma set_limiter_wf g l : group_wf g → 1 ≤ lim_max l → group_wf (set_limiter (Some l) g).
Proof. intros [] ?. by constructor. Qed.

Lemma nextDispatchable_spec now g :
  group_wf g →
  ∃ g' o, nextDispatchable now g = (g', Ret o) ∧ group_wf g' ∧ took now g g' o ∧
    same_frame g g' ∧
    (o.1.2 ≠ dispatchStopCapacity → Z.of_nat (length (inflight g)) < Parallelism (cfg g)) ∧
    (is_Some (limiter g) ↔ is_Some (limiter g')).
Proof.
  intros Hwf. unfold nextDispatchable. rewrite <-length_inflight.
  destruct (Z.leb_spec (Parallelism (cfg g)) (Z.of_nat (length (inflight g)))) as [Hle|Hlt].
  { eexists _, _. split; [done|]. split_and!; try done. by constructor. }
  destruct (limiter g) as [l|] eqn:El.
  - pose proof (wf_limiter g Hwf) as Hlim. rewrite El in Hlim. simpl in Hlim.
    destruct (allow_no_panic now l Hlim) as [Hmax (b & w & Hret)].
    destruct (allow now l) as [l' o] eqn:Ea. simpl in *. subst o.
    assert (group_wf (set_limiter (Some l') g)) as Hwf' by (apply set_limiter_wf; [done|lia]).
    destruct b.
    + destruct (take_next_spec now _ Hwf') as (g' & o & Heq & Hwf2 & Htook & Hr & Hfr & Hl).
      exists g', o. split_and!; try done.
      * apply (took_from now g (set_limiter (Some l') g)); rewrite ?Hr, ?El; done.
      * by destruct Hfr.
      * rewrite Hl. done.
    + eexists _, _. split; [done|]. split_and!; try done.
      apply took_limited; [done|done|by rewrite El].
  - destruct (take_next_spec now g Hwf) as (g' & o & Heq & Hwf2 & Htook & Hr & Hfr & Hl).
    exists g', o. split_and!; try done. by rewrite Hl, El.
Qed.

Lemma took_ids now g g' o :
  took now g g' o → delayed g' = delayed g → group_ids g' ≡ₚ group_ids g.
Proof.
  intros Ht Hd. rewrite !group_ids_app.
  destruct Ht as [m rest Ho Ho' Hi|Ho Ho' Hi|_ ->|w Ho Hi _]; [..|done|].
  - rewrite Ho, Ho', Hi, Hd. simpl. by rewrite <-!Permutation_middle.
  - by rewrite Ho, Ho', Hi, Hd.
  - by rewrite Ho, Hi, Hd.
Qed.

(** ** Promotion of expired leases and due retries *)

(** [w] is the earliest of the instants [ts], the zero time when there is none. *)
Definition is_earliest (w : Z) (ts : list Z) : Prop :=
  (w = zero_time ∧ ts = []) ∨ (w ∈ ts ∧ Forall (λ t, w ≤ t) ts).

Lemma min_wake_earliest w t ts :
  Forall (λ t, zero_time < t) ts → zero_time < t →
  is_earliest w ts → is_earliest (min_wake w t) (t :: ts).
Proof.
  intros Hts Ht [[-> ->]|[Hin Hall]]; right; unfold min_wake.
  - simpl. split; [set_solver|]. by repeat constructor.
  - destruct (IsZero w) eqn:E.
    + apply IsZero_true in E as ->. rewrite Forall_forall in Hts. specialize (Hts _ Hin). lia.
    + simpl. unfold Before. destruct (Z.ltb_spec t w).
      * split; [set_solver|]. constructor; [lia|].
        eapply Forall_impl; [exact Hall|]. simpl. lia.
      * split; [set_solver|]. by constructor.
Qed.

#[export] Instance is_earliest_perm : Proper ((=) ==> (≡ₚ) ==> iff) is_earliest.
Proof.
  intros w ? <- ts ts' Hp.
  assert (ts = [] ↔ ts' = []) as Hnil
    by (split; intros ->; [symmetry; by apply Permutation_nil_l|by apply Permutation_nil_r]).
  assert (w ∈ ts ↔ w ∈ ts') as Hin by (by rewrite Hp).
  assert (Forall (λ t, w ≤ t) ts ↔ Forall (λ t, w ≤ t) ts') as Hall by (by rewrite Hp).
  unfold is_earliest. tauto.
Qed.

Definition expired (now : Z) (m : Message) : Prop := ScheduledAt m < now.
Definition due (now : Z) (m : Message) : Prop := ScheduledAt m ≤ now.
#[export] Instance expired_dec now m : Decision (expired now m).
Proof. unfold expired. apply _. Defined.
#[export] Instance due_dec now m : Decision (due now m).
Proof. unfold due. apply _. Defined.

(** What the lease loop has done after the entries [kvs]. *)
Record expire_post (now : Z) (kvs : list (string * Message)) (g g' : group) (w w' : Z) : Prop := {
  ex_wf : group_wf g';
  ex_ids : group_ids g' ≡ₚ group_ids g;
  ex_frame : same_frame g g' ∧ limiter g' = limiter g;
  ex_ready : live (ready g') (readyHead g') = live (ready g) (readyHead g);
  ex_urgent : live (urgent g') (urgentHead g') =
    live (urgent g) (urgentHead g) ++ (set_State StatePending <$> filter (expired now) kvs.*2);
  ex_inflight : inflight g ≡ₚ filter (expired now) kvs.*2 ++ inflight g';
  ex_wake : ∀ ts, zero_time < now → Forall (λ t, zero_time < t) ts → is_earliest w ts →
    is_earliest w' (ts ++ (ScheduledAt <$> filter (λ m, ¬ expired now m) kvs.*2));
}.

(** One expired lease goes back to the end of [urgent]. *)
Definition release (k : string) (m : Message) (g : group) : group :=
  set_urgent (urgent g ++ [Some (set_State StatePending m)]) (urgentHead g)
    (set_processing (map_del k (processing g)) g).

Lemma release_spec g k m :
  group_wf g → map_get (processing g) k = Some m →
  group_wf (release k m g) ∧ group_ids (release k m g) ≡ₚ group_ids g ∧
  inflight g ≡ₚ m :: inflight (release k m g) ∧
  live (urgent (release k m g)) (urgentHead g) =
    live (urgent g) (urgentHead g) ++ [set_State StatePending m].
Proof.
  intros Hwf Hk. pose proof (unlease_wf g k m Hwf Hk) as Hwf0.
  pose proof (wf_keys g Hwf _ _ Hk) as Hid. destruct (wf_heads g Hwf) as [Hu _].
  set (g0 := set_processing (map_del k (processing g)) g).
  split_and!.
  - apply (push_urgent_wf g0); [done| |done]. simpl. rewrite Hid. by eapply unlease_fresh.
  - rewrite (unlease_ids g k m Hwf Hk). rewrite <-Hid at 2.
    by apply (push_urgent_ids g0 (set_State StatePending m)).
  - by apply (inflight_delete g).
  - simpl. by rewrite live_app.
Qed.

Lemma expire_loop_post now kvs g w :
  group_wf g → NoDup kvs.*1 →
  (∀ k m, (k, m) ∈ kvs → map_get (processing g) k = Some m) →
  ∃ g' w', foldl (expire_lease now) (g, w) kvs = (g', w') ∧ expire_post now kvs g g' w w'.
Proof.
  revert g w. induction kvs as [|[k m] kvs IH]; intros g w Hwf Hnd Hin.
  { exists g, w. split; [done|]. constructor; simpl; rewrite ?app_nil_r; try done.
    intros ts _ _ ?. by rewrite app_nil_r. }
  csimpl in *. apply NoDup_cons in Hnd as [Hk Hnd].
  pose proof (Hin k m ltac:(left)) as Hm.
  unfold After. destruct (Z.ltb_spec (ScheduledAt m) now) as [Hlt|Hge].
  - fold (release k m g). destruct (release_spec g k m Hwf Hm) as (Hwf1 & Hids & Hinf & Hurg).
    destruct (IH (release k m g) w Hwf1 Hnd) as (g' & w' & Heq & [H1 H2 [H3 H3'] H4 H5 H6 H7]).
    { intros k' m' Hin'. unfold release, map_get, map_del. simpl.
      specialize (Hin k' m' ltac:(by right)). unfold map_get in Hin.
      destruct (processing g); simpl; [|done]. rewrite lookup_delete_ne; [done|].
      intros <-. apply Hk. by apply (list_elem_of_fmap_2 fst _ (k, m')). }
    exists g', w'. split; [done|].
    assert (expired now m) as Hex by done. assert (¬ ¬ expired now m) as Hex' by auto.
    constructor; csimpl; rewrite ?(filter_cons_True _ m) by done;
      rewrite ?(filter_cons_False _ m) by done; try done.
    + by rewrite H2.
    + split; [|done]. by destruct H3.
    + rewrite H5. change (urgentHead (release k m g)) with (urgentHead g).
      by rewrite Hurg, <-app_assoc.
    + rewrite Hinf, H6. done.
  - destruct (IH g (min_wake w (ScheduledAt m)) Hwf Hnd) as (g' & w' & Heq & [H1 H2 H3 H4 H5 H6 H7]).
    { intros k' m' Hin'. apply Hin. by right. }
    exists g', w'. split; [done|].
    assert (¬ expired now m) as Hex by (unfold expired; lia).
    constructor; csimpl; rewrite ?(filter_cons_True _ m) by done;
      rewrite ?(filter_cons_False _ m) by done; try done.
    intros ts Hnow Hts Hw. csimpl. rewrite <-Permutation_middle.
    apply (H7 (ScheduledAt m :: ts)); [done| |].
    + constructor; [lia|done].
    + apply min_wake_earliest; [done|lia|done].
Qed.

(** What the retry loop does: due messages leave the heap in order and join
    the end of [ready]. *)
Record promote_post (now : Z) (g g' : group) (w w' : Z) (ds : list Message) : Prop := {
  pr_wf : group_wf g';
  pr_ids : group_ids g' ≡ₚ group_ids g;
  pr_rest : processing g' = processing g ∧ urgent g' = urgent g ∧ urgentHead g' = urgentHead g
    ∧ cfg g' = cfg g ∧ limiter g' = limiter g ∧ deficit g' = deficit g ∧ quantum g' = quantum g;
  pr_ready : live (ready g') (readyHead g') = live (ready g) (readyHead g) ++ ds;
  pr_sorted : StronglySorted (le delayed_less) ds;
  pr_delayed : delayed g ≡ₚ ds ++ delayed g';
  pr_due : Forall (due now) ds ∧ Forall (λ m, ¬ due now m) (delayed g');
  pr_wake : ∀ ts, zero_time < now → Forall (λ t, zero_time < t) ts → is_earliest w ts →
    is_earliest w' (ts ++ (ScheduledAt <$> delayed g'));
}.

Lemma heap_root_le h x y : heap delayed_less (x :: h) → y ∈ x :: h → le delayed_less x y.
Proof.
  intros Hh [i Hi]%list_elem_of_lookup.
  exact (heap_root_min delayed_less delayed_le_total delayed_le_trans _ x i y Hh eq_refl Hi).
Qed.

(** The earliest instant is not changed by later ones. *)
Lemma is_earliest_app_ge w ts us :
  is_earliest w ts → ts ≠ [] → Forall (λ u, w ≤ u) us → is_earliest w (ts ++ us).
Proof.
  intros [[_ ?]|[Hin Hall]] Hne Hus; [done|]. right.
  split; [set_solver|]. by apply Forall_app.
Qed.

Lemma min_wake_le w t : min_wake w t ≤ t.
Proof.
  unfold min_wake, Before. destruct (IsZero w); simpl; [lia|]. destruct (Z.ltb_spec t w); lia.
Qed.

Lemma promote_step_wf g m h :
  group_wf g → delayed g = m :: h →
  let g1 := set_delayed (Pop delayed_less (delayed g)).1 g in
  let g2 := set_ready (ready g1 ++ [Some m]) (readyHead g1) g1 in
  group_wf g2 ∧ group_ids g2 ≡ₚ group_ids g.
Proof.
  intros [Hp Hk Hnd Hu [Hh1 Hh2] Hheap Hlim Hpend Hinf] Hd g1 g2.
  assert (delayed g ≡ₚ m :: delayed g1) as Hperm
    by (apply (Pop_perm delayed_less); by rewrite Hd).
  assert (dispatch_order g2 = dispatch_order g ++ [m]) as Ho.
  { unfold dispatch_order, g2, g1. simpl. by rewrite live_app, app_assoc. }
  assert (group_ids g2 ≡ₚ group_ids g) as Hids.
  { rewrite !group_ids_app, Ho, Hperm, fmap_app. simpl. by rewrite <-app_assoc. }
  split; [|done]. constructor; try done.
  - by rewrite Hids.
  - simpl. rewrite length_app. simpl. lia.
  - by apply (Pop_heap delayed_less delayed_le_total delayed_le_trans).
  - revert Hpend. unfold pending. rewrite Ho, Hperm, !Forall_app, Forall_cons, Forall_singleton. simpl. tauto.
Qed.

Lemma promote_loop_post fuel now g w :
  group_wf g → (length (delayed g) < fuel)%nat →
  ∃ g' w' ds, promote_loop fuel now g w = (g', w') ∧ promote_post now g g' w w' ds.
Proof.
  revert g. induction fuel as [|fuel IH]; intros g Hwf Hf; [lia|]. cbn [promote_loop].
  destruct (delayed g) as [|m h] eqn:Hd.
  { exists g, w, []. split; [done|]. constructor; rewrite ?Hd, ?app_nil_r; try done.
    - constructor.
    - intros ts _ _ ?. by rewrite app_nil_r. }
  pose proof (wf_heap g Hwf) as Hheap. rewrite Hd in Hheap.
  unfold After. destruct (Z.ltb_spec now (ScheduledAt m)) as [Hlt|Hge].
  - exists g, (min_wake w (ScheduledAt m)), []. split; [done|].
    assert (Forall (λ x, ScheduledAt m ≤ ScheduledAt x) (m :: h)) as Hmin.
    { apply Forall_forall. intros x Hx. by apply (delayed_root_min h). }
    constructor; rewrite ?Hd, ?app_nil_r; try done.
    + constructor.
    + split; [done|]. eapply Forall_impl; [exact Hmin|]. unfold due. simpl. lia.
    + intros ts Hnow Hts Hw. csimpl. rewrite <-Permutation_middle.
      change (ScheduledAt m :: ts ++ (ScheduledAt <$> h))
        with ((ScheduledAt m :: ts) ++ (ScheduledAt <$> h)).
      apply is_earliest_app_ge; [apply min_wake_earliest; [done|lia|done]|done|].
      apply Forall_fmap. apply Forall_cons in Hmin as [_ Hmin].
      eapply Forall_impl; [exact Hmin|]. simpl. pose proof (min_wake_le w (ScheduledAt m)). lia.
  - destruct (promote_step_wf g m h Hwf Hd) as [Hwf1 Hids1]. cbv zeta.
    rewrite <-Hd.
    pose proof (Pop_perm delayed_less (delayed g) m ltac:(by rewrite Hd)) as Hperm.
    set (g1 := set_ready (ready (set_delayed _ g) ++ _) _ _) in *.
    destruct (IH g1 Hwf1) as (g' & w' & ds & Heq & [H1 H2 H3 H4 H5 H6 [H7 H7'] H8]).
    { apply Permutation_length in Hperm. rewrite Hd, !length_cons in Hperm at 1.
      rewrite length_cons in Hf. unfold g1. cbn [delayed set_ready set_delayed]. lia. }
    exists g', w', (m :: ds). split; [exact Heq|].
    destruct (wf_heads g Hwf) as [_ Hrh].
    constructor; try done.
    + by rewrite H2.
    + rewrite H4. unfold g1. simpl. rewrite live_app, <-app_assoc by done. done.
    + constructor; [done|]. apply Forall_forall. intros x Hx.
      apply (heap_root_le h); [by rewrite <-Hd in *|]. rewrite <-Hd, Hperm. right.
      simpl in H6. rewrite H6. apply elem_of_app; by left.
    + rewrite Hperm. simpl in H6. by rewrite H6.
    + split; [|done]. by constructor.
Qed.

(** The effect of [promoteDelayed]: expired leases [es] join [urgent], due
    retries [ds] join [ready] in the order of the heap, nothing else moves, and
    the result is the next instant at which either can happen again. *)
Record promoted (now : Z) (g g' : group) (w : Z) (es ds : list Message) : Prop := {
  pm_wf : group_wf g';
  pm_ids : group_ids g' ≡ₚ group_ids g;
  pm_frame : cfg g' = cfg g ∧ limiter g' = limiter g ∧ deficit g' = deficit g ∧ quantum g' = quantum g;
  pm_expired : es ≡ₚ filter (expired now) (inflight g);
  pm_due : ds ≡ₚ filter (due now) (delayed g) ∧ StronglySorted (le delayed_less) ds;
  pm_order : dispatch_order g' =
    live (urgent g) (urgentHead g) ++ (set_State StatePending <$> es)
    ++ live (ready g) (readyHead g) ++ ds;
  pm_inflight : inflight g' ≡ₚ filter (λ m, ¬ expired now m) (inflight g);
  pm_delayed : delayed g' ≡ₚ filter (λ m, ¬ due now m) (delayed g);
  pm_wake : zero_time < now → is_earliest w (ScheduledAt <$> inflight g' ++ delayed g');
}.

Lemma range_values (ord : range_order Message) g :
  (range_of ord (map_entries (processing g))).*2 ≡ₚ inflight g.
Proof. unfold inflight. by rewrite range_perm. Qed.

Lemma filter_split {A} (P : A → Prop) `{∀ x, Decision (P x)} (l xs ys : list A) :
  l ≡ₚ xs ++ ys → Forall P xs → Forall (λ x, ¬ P x) ys →
  xs ≡ₚ filter P l ∧ ys ≡ₚ filter (λ x, ¬ P x) l.
Proof.
  intros Hl Hxs Hys.
  rewrite !Hl, !filter_app, (filter_all P xs), (filter_none P ys), app_nil_r by done.
  split; [done|]. rewrite (filter_all (λ x, ¬ P x) ys), (filter_none (λ x, ¬ P x) xs); [done| |done].
  eapply Forall_impl; [exact Hxs|]. simpl. auto.
Qed.

Lemma promoteDelayed_post ord now g :
  group_wf g →
  ∃ g' w es ds, promoteDelayed ord now g = (g', w) ∧ promoted now g g' w es ds.
Proof.
  intros Hwf. unfold promoteDelayed.
  set (kvs := range_of ord (map_entries (processing g))).
  destruct (expire_loop_post now kvs g zero_time Hwf) as (g1 & w1 & -> & Hex).
  { unfold kvs. rewrite range_perm. apply NoDup_fst_map_to_list. }
  { intros k m. unfold kvs, map_get. rewrite range_perm. by rewrite elem_of_map_to_list. }
  destruct Hex as [Hwf1 Hids1 [[Hc Hd Hdef Hq] Hl] Hr1 Hu1 Hi1 Hw1].
  destruct (promote_loop_post (S (length (delayed g1))) now g1 w1 Hwf1)
    as (g' & w' & ds & -> & [H1 H2 (H3 & H4 & H5 & H6 & H7 & H8 & H9) H10 H11 H12 [H13 H14] H15]); [lia|].
  assert (inflight g' = inflight g1) as Hi' by (unfold inflight; by rewrite H3).
  set (es := filter (expired now) kvs.*2).
  assert (kvs.*2 ≡ₚ inflight g) as Hkvs by apply range_values.
  assert (es ≡ₚ filter (expired now) (inflight g)) as Hes by (unfold es; by rewrite Hkvs).
  assert (filter (λ m, ¬ expired now m) kvs.*2 ≡ₚ inflight g1) as Hrest.
  { apply (Permutation_app_inv_l (filter (expired now) kvs.*2)). rewrite <-Hi1, <-Hkvs.
    apply (filter_app_complement (expired now)). }
  rewrite Hd in H12. destruct (filter_split (due now) _ _ _ H12 H13 H14) as [Hds Hdel].
  exists g', w', es, ds. split; [done|]. constructor; try done.
  - by rewrite H2.
  - split_and!; congruence.
  - unfold dispatch_order. rewrite H4, H5, Hu1, H10, Hr1. by rewrite <-app_assoc.
  - by rewrite Hi', <-Hrest, Hkvs.
  - intros Hnow. rewrite Hi', fmap_app, <-Hrest. apply (H15 _ Hnow).
    + apply Forall_fmap, Forall_forall. intros m Hm%list_elem_of_filter.
      unfold expired in Hm. simpl. lia.
    + apply (Hw1 [] Hnow); [constructor|by left].
Qed.
