(* ===== verification/GroupDrain.v ===== *)
(** * Dispatch rounds of a group (src/internal/queue/group.go, drainRound)

    What one activation of a group does: which messages leave the queue and in
    which order, the parallelism cap, the wake-up the scheduler is asked for,
    and when the group asks to be activated again. *)

From stdpp Require Import base gmap list strings sorting.
From Stdlib Require Import ZArith Lia.
From S2P Require Import Prelude Heap Message RateLimit Group GroupInv.
Local Open Scope Z_scope.

(** ** The dispatch loop *)

(** Why the loop stopped, and the wake-up instant it leaves. *)
Inductive drain_stop (fuel : nat) (g g' : group) (ms : list Message) (w : Z) : Z → drain_exit → Prop :=
| stop_empty :
    dispatch_order g' = [] →
    drain_stop fuel g g' ms w
      (if IsZero (nextDelayedAtOrZero g) then w else min_wake w (nextDelayedAtOrZero g)) DrainEmpty
| stop_capacity :
    Parallelism (cfg g) ≤ Z.of_nat (length (inflight g')) →
    drain_stop fuel g g' ms w w (DrainBreak true)
| stop_quantum :
    length ms = fuel → drain_stop fuel g g' ms w w (DrainBreak false)
| stop_limited t :
    is_Some (limiter g) → drain_stop fuel g g' ms w (min_wake w t) (DrainBreak false).

Record drain_post (fuel : nat) (now : Z) (g g' : group) (ms : list Message) : Prop := {
  dp_wf : group_wf g';
  dp_cfg : cfg g' = cfg g;
  dp_delayed : delayed g' = delayed g;
  dp_deficit : deficit g' = deficit g - Z.of_nat (length ms);
  dp_order : dispatch_order g = ms ++ dispatch_order g';
  dp_inflight : inflight g' ≡ₚ (leased now g <$> ms) ++ inflight g;
  dp_fuel : (length ms ≤ fuel)%nat;
  dp_cap : Z.of_nat (length (inflight g')) ≤
    Z.max (Z.of_nat (length (inflight g))) (Parallelism (cfg g));
}.

Lemma drain_post_nil fuel now g g' :
  group_wf g' → same_frame g g' → dispatch_order g' = dispatch_order g →
  inflight g' = inflight g → drain_post fuel now g g' [].
Proof.
  intros Hwf [Hc Hd Hdef _] Ho Hi. constructor; try done; simpl.
  - lia.
  - by rewrite Hi.
  - lia.
  - rewrite Hi. lia.
Qed.

Lemma set_deficit_wf x g : group_wf g → group_wf (set_deficit x g).
Proof. by intros []. Qed.
Lemma set_quantum_wf x g : group_wf g → group_wf (set_quantum x g).
Proof. by intros []. Qed.

Lemma drain_post_cons fuel now g g1 g' m ms :
  same_frame g g1 → dispatch_order g = m :: dispatch_order g1 →
  inflight g1 ≡ₚ leased now g m :: inflight g →
  Z.of_nat (length (inflight g)) < Parallelism (cfg g) →
  drain_post fuel now (set_deficit (deficit g1 - 1) g1) g' ms →
  drain_post (S fuel) now g g' (m :: ms).
Proof.
  intros [Hc Hd Hdef _] Ho Hi Hcap [H1 H2 H3 H4 H5 H6 H7 H8].
  assert (leased now (set_deficit (deficit g1 - 1) g1) = leased now g) as El
    by (unfold leased; simpl; by rewrite Hc).
  constructor; simpl in *; try done; try congruence.
  - lia.
  - rewrite Ho. f_equal. exact H5.
  - rewrite H6, El. change (inflight (set_deficit _ g1)) with (inflight g1).
    rewrite Hi. by rewrite Permutation_middle.
  - lia.
  - change (inflight (set_deficit _ g1)) with (inflight g1) in H8.
    rewrite (Permutation_length Hi), Hc in H8. simpl in H8. lia.
Qed.

Lemma drain_loop_post fuel now g batch w :
  group_wf g →
  ∃ g' ms w' ex,
    drain_loop fuel now g batch w = (g', Ret (batch ++ (leased now g <$> ms), w', ex)) ∧
    drain_post fuel now g g' ms ∧ drain_stop fuel g g' ms w w' ex.
Proof.
  revert g batch. induction fuel as [|fuel IH]; intros g batch Hwf.
  { exists g, [], w, (DrainBreak false). cbn. rewrite app_nil_r.
    split; [done|]. split; [by apply drain_post_nil|by constructor]. }
  cbn [drain_loop].
  destruct (nextDispatchable_spec now g Hwf) as (g1 & o & -> & Hwf1 & Ht & Hfr & Hcap & Hlim).
  pose proof Hfr as [Hc Hd Hdef _].
  destruct Ht as [m rest Ho Ho' Hi|Ho Ho' Hi|Hfull ->|t Ho Hi Hl].
  - simpl in Hcap. specialize (Hcap ltac:(done)).
    destruct (IH (set_deficit (deficit g1 - 1) g1) (batch ++ [leased now g m]))
      as (g' & ms & w' & ex & -> & Hp & Hs); [by apply set_deficit_wf|].
    exists g', (m :: ms), w', ex. split.
    { rewrite <-app_assoc. unfold leased at 2. simpl. rewrite Hc. done. }
    split; [eapply drain_post_cons; [done|by rewrite Ho, Ho'|done..]|].
    destruct Hs as [H|H|H|t H].
    + assert (nextDelayedAtOrZero (set_deficit (deficit g1 - 1) g1) = nextDelayedAtOrZero g) as ->
        by (unfold nextDelayedAtOrZero, nextDelayedAt; simpl; by rewrite Hd).
      by apply stop_empty.
    + apply stop_capacity. simpl in H. by rewrite Hc in H.
    + apply stop_quantum. simpl. by rewrite H.
    + apply stop_limited. by apply Hlim.
  - eexists g1, [], _, _. rewrite app_nil_r. split; [done|].
    split; [apply drain_post_nil; congruence|by apply stop_empty].
  - eexists g, [], _, _. rewrite app_nil_r. split; [done|].
    split; [by apply drain_post_nil|by apply stop_capacity].
  - eexists g1, [], _, _. rewrite app_nil_r. split; [done|].
    split; [by apply drain_post_nil|by apply stop_limited].
Qed.

Lemma drain_post_ids fuel now g g' ms :
  drain_post fuel now g g' ms → group_ids g' ≡ₚ group_ids g.
Proof.
  intros [? ? Hd ? Ho Hi ? ?]. rewrite !group_ids_app, Ho, Hi, Hd, !fmap_app.
  rewrite <-list_fmap_compose.
  assert (ID ∘ leased now g <$> ms = ID <$> ms) as -> by (by apply list_fmap_ext).
  solve_Permutation.
Qed.

Lemma pendingCount_pos g :
  group_wf g → pending g ≠ [] → 0 < pendingCount g.
Proof.
  intros [_ _ _ _ [Hu Hr] _ _ _ _] Hp. unfold pendingCount.
  destruct (decide (urgentHead g < length (urgent g))%nat); [lia|].
  destruct (decide (readyHead g < length (ready g))%nat); [lia|].
  destruct (delayed g) as [|? ?] eqn:Ed; simpl; [|lia].
  exfalso. apply Hp. unfold pending, dispatch_order, live.
  rewrite Ed, !drop_ge by lia. done.
Qed.

Lemma pendingCount_zero g : group_wf g → pendingCount g = 0 → pending g = [].
Proof.
  intros Hwf H0. destruct (pending g) as [|m l] eqn:E; [done|].
  pose proof (pendingCount_pos g Hwf ltac:(by rewrite E)). lia.
Qed.

(** ** The whole round *)

Definition effective_quantum (g : group) : Z := if quantum g <=? 0 then 1 else quantum g.

(** The round in terms of the promoted state [g1] and the messages [ms] it
    dispatches. *)
Record round (now : Z) (g g1 g' : group) (w : Z) (ms : list Message) (d : drained) : Prop := {
  rd_wf : group_wf g';
  rd_ids : group_ids g' ≡ₚ group_ids g;
  rd_cfg : cfg g' = cfg g;
  rd_batch : default [] (d_ready d) = leased now g <$> ms;
  rd_order : dispatch_order g1 = ms ++ dispatch_order g';
  rd_delayed : delayed g' = delayed g1;
  rd_inflight : inflight g' ≡ₚ (leased now g <$> ms) ++ inflight g1;
  rd_cap : Z.of_nat (length (inflight g')) ≤
    Z.max (Z.of_nat (length (inflight g1))) (Parallelism (cfg g));
  rd_quantum : pending g1 = [] ∧ ms = [] ∧ d_hasWake d = negb (IsZero w) ∧ d_wakeAt d = w ∨
    (∃ w' ex, drain_stop (Z.to_nat (deficit g + effective_quantum g)) g1 g' ms w w' ex ∧
      (length ms ≤ Z.to_nat (deficit g + effective_quantum g))%nat ∧
      (ex = DrainEmpty ∨ ex = DrainBreak true →
        d_wakeAt d = w' ∧ d_hasWake d = negb (IsZero w') ∧ d_stillPending d = false) ∧
      (ex = DrainBreak false →
        (w' ≠ zero_time → d_wakeAt d = w' ∧ d_hasWake d = true ∧ d_stillPending d = false) ∧
        (w' = zero_time → d_hasWake d = false ∧ d_stillPending d = (0 <? pendingCount g'))));
}.

Lemma drain_stop_frame fuel g g0 g' ms w w' ex :
  cfg g0 = cfg g → delayed g0 = delayed g → limiter g0 = limiter g →
  drain_stop fuel g0 g' ms w w' ex → drain_stop fuel g g' ms w w' ex.
Proof.
  intros Hc Hd Hl [H|H|H|t H].
  - assert (nextDelayedAtOrZero g0 = nextDelayedAtOrZero g) as ->
      by (unfold nextDelayedAtOrZero, nextDelayedAt; by rewrite Hd).
    by apply stop_empty.
  - apply stop_capacity. by rewrite <-Hc.
  - by apply stop_quantum.
  - apply stop_limited. by rewrite <-Hl.
Qed.

Lemma drainRound_post ord now g :
  group_wf g →
  ∃ g1 w es ds g' ms d,
    promoteDelayed ord now g = (g1, w) ∧ drainRound ord now g = (g', Ret d) ∧
    promoted now g g1 w es ds ∧ round now g g1 g' w ms d.
Proof.
  intros Hwf. destruct (promoteDelayed_post ord now g Hwf) as (g1 & w & es & ds & Heq & Hp).
  unfold drainRound. rewrite Heq. pose proof Hp as [Hwf1 Hids1 (Hc & Hl & Hdef & Hq) _ _ _ _ _ _].
  destruct (Z.eqb_spec (pendingCount g1) 0) as [H0|H0].
  { pose proof (pendingCount_zero g1 Hwf1 H0) as Hnil.
    eexists g1, w, es, ds, g1, [], _. split; [done|]. split; [done|]. split; [done|].
    constructor; try done; simpl; [lia|]. left. by rewrite Hnil. }
  set (g2 := if quantum g1 <=? 0 then set_quantum 1 g1 else g1).
  set (g3 := set_deficit (deficit g2 + quantum g2) g2).
  assert (deficit g3 = deficit g + effective_quantum g) as Hd3.
  { unfold g3, g2, effective_quantum. rewrite Hq. destruct (quantum g <=? 0); simpl; lia. }
  assert (group_wf g3) as Hwf3.
  { apply set_deficit_wf. unfold g2. destruct (quantum g1 <=? 0); [by apply set_quantum_wf|done]. }
  assert (cfg g3 = cfg g1 ∧ delayed g3 = delayed g1 ∧ limiter g3 = limiter g1 ∧
    inflight g3 = inflight g1 ∧ dispatch_order g3 = dispatch_order g1 ∧ group_ids g3 = group_ids g1)
    as (Hc3 & Hdl3 & Hl3 & Hi3 & Ho3 & Hid3) by (unfold g3, g2; by destruct (quantum g1 <=? 0)).
  rewrite Hd3. set (fuel := Z.to_nat (deficit g + effective_quantum g)).
  destruct (drain_loop_post fuel now g3 [] w Hwf3) as (g' & ms & w' & ex & -> & Hpost & Hstop).
  pose proof (drain_post_ids _ _ _ _ _ Hpost) as Hids.
  destruct Hpost as [H1 H2 H3 H4 H5 H6 H7 H8].
  apply (drain_stop_frame fuel g1) in Hstop; [|done..].
  assert (leased now g3 = leased now g) as El by (unfold leased; by rewrite Hc3, Hc).
  rewrite El in *. simpl.
  assert (∀ d, default [] (d_ready d) = leased now g <$> ms →
    (ex = DrainEmpty ∨ ex = DrainBreak true →
        d_wakeAt d = w' ∧ d_hasWake d = negb (IsZero w') ∧ d_stillPending d = false) →
    (ex = DrainBreak false →
        (w' ≠ zero_time → d_wakeAt d = w' ∧ d_hasWake d = true ∧ d_stillPending d = false) ∧
        (w' = zero_time → d_hasWake d = false ∧ d_stillPending d = (0 <? pendingCount g'))) →
    round now g g1 g' w ms d) as Hround.
  { intros d Hb He1 He2. constructor; try done.
    - by rewrite Hids, Hid3, Hids1.
    - congruence.
    - by rewrite <-Ho3.
    - congruence.
    - by rewrite H6, Hi3.
    - rewrite Hc3, Hi3 in H8. by rewrite Hc in H8.
    - right. eauto 10. }
  destruct ex as [|b].
  - eexists g1, w, es, ds, g', ms, _. split; [done|]. split; [done|]. split; [done|].
    apply Hround; [done|done|by intros].
  - eexists g1, w, es, ds, g', ms, _. split; [done|]. split; [done|]. split; [done|].
    destruct b; [by apply Hround|].
    destruct (IsZero w') eqn:Ez; simpl.
    + apply IsZero_true in Ez as ->. apply Hround; [by destruct (0 <? pendingCount g')|by intros [?|?]|].
      intros _. split; [done|]. by destruct (0 <? pendingCount g').
    + apply IsZero_false in Ez. apply Hround; [done|by intros [?|?]|]. by intros.
Qed.

(** ** Well-formed groups *)

Definition config_ok (c : GroupConfig) : Prop :=
  match RateLimit c with Some rl => 1 ≤ rl_Max rl | None => True end.

Lemma newGroup_wf c : config_ok c → group_wf (newGroup c).
Proof.
  intros Hc. constructor; simpl; try done.
  - constructor.
  - unfold config_ok in Hc. by destruct (RateLimit c).
Qed.

Lemma newGroup_ids c : group_ids (newGroup c) = [].
Proof. done. Qed.

(** A group with four pending messages, to evaluate the theorems on. *)
Module Sample.
Definition msg (id : string) : Message := mkMessage id "q" "ns" "g" [] StatePending 0 0 0 "".
Definition config : GroupConfig := cfg_set_Parallelism 2 (defaultGroupConfig "g").
Definition grp : group := foldr enqueue (newGroup config) [msg "d"; msg "c"; msg "b"; msg "a"].

Lemma grp_wf : group_wf grp.
Proof.
  unfold grp. cbn [foldr].
  repeat first [apply newGroup_wf; done
    | apply enqueue_wf; [|by_eval|done]].
Qed.
End Sample.

(** ** Theorems *)

(** C19. One activation of a well-formed group never panics, keeps the group
    well formed, neither loses nor duplicates a message, and never takes the
    number of messages in flight above the configured parallelism (or above
    what was in flight before, when the limit was lowered meanwhile). *)
Theorem drainRound_safe ord now g :
  group_wf g →
  ∃ g' d, drainRound ord now g = (g', Ret d) ∧ group_wf g' ∧
    group_ids g' ≡ₚ group_ids g ∧
    Z.of_nat (length (inflight g')) ≤
      Z.max (Z.of_nat (length (inflight g))) (Parallelism (cfg g)).
Proof.
  intros Hwf. destruct (drainRound_post ord now g Hwf)
    as (g1 & w & es & ds & g' & ms & d & _ & Heq & Hp & Hr).
  exists g', d. split_and!; try done; [apply Hr|apply Hr|].
  pose proof (rd_cap _ _ _ _ _ _ _ Hr) as Hcap.
  pose proof (Permutation_length (pm_inflight _ _ _ _ _ _ Hp)) as Hlen.
  pose proof (length_filter (λ m, ¬ expired now m) (inflight g)). lia.
Qed.

Lemma drainRound_safe_witness :
  group_wf Sample.grp ∧
  ∃ g' d, drainRound list_order 5 Sample.grp = (g', Ret d) ∧ group_wf g' ∧
    group_ids g' ≡ₚ group_ids Sample.grp ∧
    Z.of_nat (length (inflight g')) ≤
      Z.max (Z.of_nat (length (inflight Sample.grp))) (Parallelism (cfg Sample.grp)).
Proof.
  split; [apply Sample.grp_wf|]. apply (drainRound_safe list_order 5 Sample.grp Sample.grp_wf).
Defined.

(** The number of messages an unlimited group dispatches in one activation. *)
Definition batch_size (g g1 : group) : nat :=
  Z.to_nat (Z.min (deficit g + effective_quantum g)
    (Z.min (Parallelism (cfg g) - Z.of_nat (length (inflight g1)))
           (Z.of_nat (length (dispatch_order g1))))).

Lemma round_batch_size now g g1 g' w ms d :
  round now g g1 g' w ms d → limiter g1 = None → cfg g1 = cfg g → 0 ≤ deficit g →
  length ms = batch_size g g1.
Proof.
  intros Hr Hl Hc Hdef. pose proof (rd_cap _ _ _ _ _ _ _ Hr) as Hcap.
  rewrite (Permutation_length (rd_inflight _ _ _ _ _ _ _ Hr)) in Hcap.
  rewrite length_app, length_fmap in Hcap.
  pose proof (f_equal length (rd_order _ _ _ _ _ _ _ Hr)) as Hlen. rewrite length_app in Hlen.
  assert (1 ≤ effective_quantum g) as Hq
    by (unfold effective_quantum; destruct (Z.leb_spec (quantum g) 0); lia).
  unfold batch_size.
  destruct (rd_quantum _ _ _ _ _ _ _ Hr) as [(Hnil & -> & _)|(w' & ex & Hs & Hle & _)].
  - assert (dispatch_order g1 = []) as -> by (unfold pending in Hnil; by apply app_nil in Hnil as [-> _]).
    simpl. lia.
  - destruct Hs as [H|H|H|t [l H]].
    + rewrite H in Hlen. simpl in Hlen. lia.
    + rewrite (Permutation_length (rd_inflight _ _ _ _ _ _ _ Hr)), length_app, length_fmap, Hc in H. lia.
    + lia.
    + congruence.
Qed.



(** Promotion moves exactly the expired leases to the end of [urgent] and
    exactly the due retries, earliest first, to the end of [ready]; it keeps
    the group well formed and its messages; and the wake-up it returns is the
    earliest instant among the remaining leases and retries (the zero time when
    there is none). *)
Theorem promoteDelayed_spec ord now g :
  group_wf g → zero_time < now →
  let '(g', w) := promoteDelayed ord now g in
  group_wf g' ∧ group_ids g' ≡ₚ group_ids g ∧
  (∃ es ds, es ≡ₚ filter (expired now) (inflight g) ∧
    ds ≡ₚ filter (due now) (delayed g) ∧ StronglySorted (le delayed_less) ds ∧
    dispatch_order g' = live (urgent g) (urgentHead g) ++ (set_State StatePending <$> es)
      ++ live (ready g) (readyHead g) ++ ds) ∧
  Forall (λ m, now ≤ ScheduledAt m) (inflight g') ∧
  Forall (λ m, now < ScheduledAt m) (delayed g') ∧
  is_earliest w (ScheduledAt <$> inflight g' ++ delayed g').
Proof.
  intros Hwf Hnow. destruct (promoteDelayed_post ord now g Hwf) as (g' & w & es & ds & -> & Hp).
  destruct Hp as [H1 H2 _ H4 [H5 H5'] H6 H7 H8 H9].
  split_and!; [done|done|exists es, ds; done| | |auto].
  - rewrite H7. apply Forall_forall. intros m [Hm _]%list_elem_of_filter. unfold expired in Hm. lia.
  - rewrite H8. apply Forall_forall. intros m [Hm _]%list_elem_of_filter. unfold due in Hm. lia.
Qed.

(** The sample group with one message leased at time 0. *)
Definition sample_leased : group := (nextDispatchable 0 Sample.grp).1.

Lemma sample_leased_wf : group_wf sample_leased.
Proof.
  destruct (nextDispatchable_spec 0 Sample.grp Sample.grp_wf) as (g' & o & Heq & Hwf & _).
  unfold sample_leased. by rewrite Heq.
Qed.

Lemma promoteDelayed_spec_witness :
  let now := 6 * minute in
  (group_wf sample_leased ∧ zero_time < now) ∧
  let '(g', w) := promoteDelayed list_order now sample_leased in
  group_wf g' ∧ group_ids g' ≡ₚ group_ids sample_leased ∧
  (∃ es ds, es ≡ₚ filter (expired now) (inflight sample_leased) ∧
    ds ≡ₚ filter (due now) (delayed sample_leased) ∧ StronglySorted (le delayed_less) ds ∧
    dispatch_order g' = live (urgent sample_leased) (urgentHead sample_leased)
      ++ (set_State StatePending <$> es)
      ++ live (ready sample_leased) (readyHead sample_leased) ++ ds) ∧
  Forall (λ m, now ≤ ScheduledAt m) (inflight g') ∧
  Forall (λ m, now < ScheduledAt m) (delayed g') ∧
  is_earliest w (ScheduledAt <$> inflight g' ++ delayed g').
Proof.
  split; [split; [apply sample_leased_wf|done]|].
  exact (promoteDelayed_spec list_order (6 * minute) sample_leased sample_leased_wf eq_refl).
Defined.

(** The wake-up after the loop is at or before every retry still waiting. *)
Lemma round_wake_delayed now g g1 g' w ms w' ex es ds fuel :
  promoted now g g1 w es ds → zero_time < now → delayed g' = delayed g1 → delayed g' ≠ [] →
  drain_stop fuel g1 g' ms w w' ex → ex = DrainEmpty → w' ≠ zero_time ∧
  Forall (λ m, w' ≤ ScheduledAt m) (delayed g').
Proof.
  intros Hp Hnow Hd Hne Hs ->. pose proof (pm_wake _ _ _ _ _ _ Hp Hnow) as [[-> Hnil]|[Hin Hall]].
  { exfalso. apply Hne. rewrite Hd. apply fmap_nil_inv, app_nil in Hnil. by destruct Hnil. }
  assert (Forall (λ m, now < ScheduledAt m) (delayed g1)) as Hdel.
  { rewrite (pm_delayed _ _ _ _ _ _ Hp). apply Forall_forall.
    intros m [Hm _]%list_elem_of_filter. unfold due in Hm. lia. }
  rewrite fmap_app, Forall_app, (Forall_fmap _ _ (delayed g1)) in Hall. destruct Hall as [_ Hall].
  inversion Hs; subst. unfold nextDelayedAtOrZero, nextDelayedAt. rewrite Hd in *.
  destruct (delayed g1) as [|m h]; [done|].
  apply Forall_cons in Hdel as [Hm Hdel]. apply Forall_cons in Hall as [Hwm Hall].
  assert (w ≠ zero_time) as Hw.
  { intros ->. apply list_elem_of_fmap in Hin as (x & Hx & Hin%elem_of_app).
    destruct Hin as [Hin|Hin].
    - rewrite (pm_inflight _ _ _ _ _ _ Hp) in Hin.
      apply list_elem_of_filter in Hin as [Hin _]. unfold expired in Hin. lia.
    - apply elem_of_cons in Hin as [->|Hin]; [lia|].
      apply (proj1 (Forall_forall _ _) Hdel) in Hin. lia. }
  destruct (IsZero (ScheduledAt m)); [by split; [|constructor]|].
  unfold min_wake. rewrite (proj2 (IsZero_false w)) by done. simpl. unfold Before.
  rewrite (proj2 (Z.ltb_ge _ _)) by done. split; [done|]. by constructor.
Qed.

(** C21. An activation strands no work: if a message is still waiting when it
    ends, the group is at its parallelism cap (a completion will dispatch the
    next one), or asks for a wake-up, or asks to be activated again. *)
Theorem drainRound_no_stranding ord now g g' d :
  group_wf g → zero_time < now → drainRound ord now g = (g', Ret d) → pending g' ≠ [] →
  d_hasWake d = true ∨ d_stillPending d = true ∨
  Parallelism (cfg g') ≤ Z.of_nat (length (inflight g')).
Proof.
  intros Hwf Hnow Heq Hne.
  destruct (drainRound_post ord now g Hwf) as (g1 & w & es & ds & g'' & ms & d' & _ & Heq' & Hp & Hr).
  rewrite Heq in Heq'. injection Heq' as <- <-.
  pose proof (pm_frame _ _ _ _ _ _ Hp) as (Hc & _).
  destruct (rd_quantum _ _ _ _ _ _ _ Hr) as [(Hnil & -> & _)|(w' & ex & Hs & Hle & H1 & H2)].
  { exfalso. apply Hne. revert Hnil. unfold pending.
    by rewrite (rd_order _ _ _ _ _ _ _ Hr), (rd_delayed _ _ _ _ _ _ _ Hr). }
  destruct ex as [|[|]].
  - left. destruct (H1 (or_introl eq_refl)) as (_ & -> & _).
    assert (delayed g' ≠ []) as Hdne.
    { intros Hd. apply Hne. unfold pending. rewrite Hd. by inversion Hs as [->| | |]. }
    destruct (round_wake_delayed _ _ _ _ _ _ _ _ _ _ _ Hp Hnow (rd_delayed _ _ _ _ _ _ _ Hr) Hdne Hs eq_refl)
      as [Hw _].
    by rewrite (proj2 (IsZero_false _) Hw).
  - right; right. inversion Hs. rewrite (rd_cfg _ _ _ _ _ _ _ Hr). by rewrite <-Hc.
  - destruct (H2 eq_refl) as [Hnz Hz]. destruct (decide (w' = zero_time)) as [E|E].
    + right; left. destruct (Hz E) as [_ ->]. apply Z.ltb_lt.
      by apply pendingCount_pos; [apply Hr|].
    + left. by destruct (Hnz E) as (_ & -> & _).
Qed.

Lemma drainRound_no_stranding_witness :
  let r := drainRound list_order 5 Sample.grp in
  let d := mkDrained (Some [leased 5 Sample.grp (Sample.msg "a")]) zero_time false true in
  (group_wf Sample.grp ∧ zero_time < 5 ∧ r = (r.1, Ret d) ∧ pending r.1 ≠ []) ∧
  (d_hasWake d = true ∨ d_stillPending d = true ∨
   Parallelism (cfg r.1) ≤ Z.of_nat (length (inflight r.1))).
Proof.
  split; [split_and!; [apply Sample.grp_wf|done|vm_compute; reflexivity|vm_compute; done]|].
  apply (drainRound_no_stranding list_order 5 Sample.grp);
    [apply Sample.grp_wf|done|vm_compute; reflexivity|vm_compute; done].
Defined.

(** A wake-up hides remaining work: with parallelism 5, quantum 1 and one
    message already in flight under a lease of five minutes, an activation
    that leaves messages ready and parallelism unused asks for a wake-up at the
    lease's expiry and does not ask to be activated again. *)
Theorem drainRound_wake_hides_ready :
  ∃ g now g' d, group_wf g ∧ drainRound list_order now g = (g', Ret d) ∧
    dispatch_order g' ≠ [] ∧
    Z.of_nat (length (inflight g')) < Parallelism (cfg g') ∧
    d_stillPending d = false ∧ d_hasWake d = true ∧ d_wakeAt d = now + 5 * minute - 1.
Proof.
  set (g := set_cfg (cfg_set_Parallelism 5 Sample.config) sample_leased).
  exists g, 1, (drainRound list_order 1 g).1.
  exists (mkDrained (Some [leased 1 g (Sample.msg "b")]) (5 * minute) true false).
  split; [by destruct sample_leased_wf; constructor|].
  split; [vm_compute; reflexivity|].
  split; [vm_compute; done|]. split; [vm_compute; reflexivity|]. done.
Qed.
