(* ===== verification/GroupSettle.v ===== *)
(** * The life of a message in a group (src/internal/queue/group.go)

    How a lease ends ([complete], [fail], [returnToPending]), the retry
    back-off, snapshots of a group, and the invariants of every history of
    group operations: no message is lost or duplicated, parallelism and the
    retry budget are respected. *)

From stdpp Require Import base gmap list strings sorting.
From Stdlib Require Import ZArith Lia.
From S2P Require Import Prelude Heap Message RateLimit Group GroupInv GroupDrain.
Local Open Scope Z_scope.

(** ** Ends of a lease *)

Lemma complete_found g k m :
  group_wf g → map_get (processing g) k = Some m →
  ∃ g', complete k g = (g', Some (set_State StateDone m)) ∧ group_wf g' ∧
    group_ids g ≡ₚ k :: group_ids g' ∧ pending g' = pending g ∧
    inflight g ≡ₚ m :: inflight g' ∧ cfg g' = cfg g.
Proof.
  intros Hwf Hk. unfold complete. rewrite Hk. eexists. split; [done|].
  split_and!; try done; [by eapply unlease_wf|by eapply unlease_ids|by apply inflight_delete].
Qed.

Lemma returnToPending_found g k m :
  group_wf g → map_get (processing g) k = Some m →
  ∃ g', returnToPending k g = (g', true) ∧ group_wf g' ∧ group_ids g' ≡ₚ group_ids g ∧
    live (urgent g') (urgentHead g') = live (urgent g) (urgentHead g) ++ [set_State StatePending m] ∧
    inflight g ≡ₚ m :: inflight g' ∧ cfg g' = cfg g ∧ ready g' = ready g ∧
    readyHead g' = readyHead g ∧ delayed g' = delayed g.
Proof.
  intros Hwf Hk. unfold returnToPending. rewrite Hk. exists (release k m g). split; [done|].
  destruct (release_spec g k m Hwf Hk) as (? & ? & ? & ?). done.
Qed.

(** A failed message with its retry scheduled. *)
Definition retried (errMsg : string) (now : Z) (g : group) (m : Message) : Message :=
  set_State StatePending
    (set_ScheduledAt (now + retryDelay g (Attempts m + 1))
       (set_Attempts (Attempts m + 1) (set_LastError errMsg m))).

(** The dead letter of a message whose attempts are used up. *)
Definition dead_letter (errMsg : string) (g : group) (m : Message) : option Message :=
  match DLQ (cfg g) with
  | Some d =>
      if dlq_Enabled d
      then Some (set_State StateDLQ (set_Attempts (Attempts m + 1) (set_LastError errMsg m)))
      else None
  | None => None
  end.

Lemma fail_retry g k m e now :
  group_wf g → map_get (processing g) k = Some m →
  Attempts m + 1 < MaxAttempts (Retry (cfg g)) →
  ∃ g', fail k e now g = (g', None) ∧ group_wf g' ∧ group_ids g' ≡ₚ group_ids g ∧
    delayed g' ≡ₚ retried e now g m :: delayed g ∧ dispatch_order g' = dispatch_order g ∧
    inflight g ≡ₚ m :: inflight g' ∧ cfg g' = cfg g.
Proof.
  intros Hwf Hk Hat. unfold fail. rewrite Hk. simpl.
  rewrite (proj2 (Z.ltb_lt _ _)) by done.
  set (g0 := set_processing (map_del k (processing g)) g).
  assert (retryDelay g0 = retryDelay g) as Er by done.
  fold (retried e now g m). pose proof (wf_keys g Hwf _ _ Hk) as Hid.
  eexists. split; [done|]. split_and!.
  - apply (push_delayed_wf g0); [by eapply unlease_wf| |done].
    simpl. rewrite Hid. by eapply unlease_fresh.
  - rewrite (unlease_ids g k m Hwf Hk). fold g0.
    pose proof (push_delayed_ids g0 (retried e now g m)) as Hpush.
    change (ID (retried e now g m)) with (ID m) in Hpush. by rewrite Hid in Hpush.
  - apply Push_perm.
  - done.
  - by apply (inflight_delete g).
  - done.
Qed.

Lemma fail_dead g k m e now :
  group_wf g → map_get (processing g) k = Some m →
  MaxAttempts (Retry (cfg g)) ≤ Attempts m + 1 →
  ∃ g', fail k e now g = (g', dead_letter e g m) ∧ group_wf g' ∧
    group_ids g ≡ₚ k :: group_ids g' ∧ pending g' = pending g ∧
    inflight g ≡ₚ m :: inflight g' ∧ cfg g' = cfg g.
Proof.
  intros Hwf Hk Hat. unfold fail. rewrite Hk. simpl.
  rewrite (proj2 (Z.ltb_ge _ _)) by done.
  exists (set_processing (map_del k (processing g)) g). split.
  { unfold dead_letter. simpl. destruct (DLQ (cfg g)) as [[[] ?]|]; done. }
  split_and!; try done; [by eapply unlease_wf|by eapply unlease_ids|by apply inflight_delete].
Qed.

(** ** Retry back-off *)

(** Below the 64-bit range the delay is the documented one. *)
Definition backoff (r : RetryConfig) (attempt : Z) : Z :=
  if decide (Backoff r = BackoffExponential) then InitialDelay r * 2 ^ attempt
  else if decide (Backoff r = BackoffLinear) then InitialDelay r * (attempt + 1)
  else InitialDelay r.

Lemma i64_id z : -2 ^ 63 ≤ z < 2 ^ 63 → i64 z = z.
Proof. intros. by apply wrap_s_small. Qed.

(** As long as the back-off fits 64 bits, the delay before attempt [n] is
    the documented one (initial delay doubled per attempt, grown linearly, or
    fixed) cut off at the configured maximum; so it lies between 0 and that
    maximum. *)
Theorem retryDelay_spec g attempt :
  0 ≤ InitialDelay (Retry (cfg g)) → 0 ≤ MaxDelay (Retry (cfg g)) → 0 ≤ attempt < 63 →
  InitialDelay (Retry (cfg g)) * 2 ^ attempt < 2 ^ 63 →
  retryDelay g attempt = Z.min (backoff (Retry (cfg g)) attempt) (MaxDelay (Retry (cfg g))) ∧
  0 ≤ retryDelay g attempt ≤ MaxDelay (Retry (cfg g)).
Proof.
  intros Hi Hm Ha Hfit. set (r := Retry (cfg g)) in *.
  assert (retryDelay g attempt = Z.min (backoff r attempt) (MaxDelay r)) as ->.
  { unfold retryDelay, backoff. fold r. rewrite Z.shiftl_1_l.
    assert (1 ≤ 2 ^ attempt) as H2 by (pose proof (Z.pow_pos_nonneg 2 attempt); lia).
    assert (2 ^ attempt < 2 ^ 63) as H3 by (apply Z.pow_lt_mono_r; lia).
    assert (attempt + 1 ≤ 2 ^ attempt) as H4.
    { pose proof (Z.pow_gt_lin_r 2 attempt ltac:(lia)). lia. }
    rewrite !(i64_id (2 ^ attempt)), (i64_id (attempt + 1)) by lia.
    rewrite !i64_id by nia.
    repeat case_decide; unfold Z.ltb, Z.min;
      match goal with |- context [MaxDelay r ?= ?d] => rewrite (Z.compare_antisym d (MaxDelay r)) end;
      destruct (_ ?= MaxDelay r) eqn:E; simpl; try done; by apply Z.compare_eq in E. }
  split; [done|]. unfold backoff. pose proof (Z.pow_nonneg 2 attempt ltac:(lia)).
  repeat case_decide; nia.
Qed.

Lemma retryDelay_spec_witness :
  (0 ≤ InitialDelay (Retry (cfg Sample.grp)) ∧ 0 ≤ MaxDelay (Retry (cfg Sample.grp)) ∧ 0 ≤ 2 < 63 ∧
   InitialDelay (Retry (cfg Sample.grp)) * 2 ^ 2 < 2 ^ 63) ∧
  retryDelay Sample.grp 2 = Z.min (backoff (Retry (cfg Sample.grp)) 2) (MaxDelay (Retry (cfg Sample.grp))) ∧
  0 ≤ retryDelay Sample.grp 2 ≤ MaxDelay (Retry (cfg Sample.grp)).
Proof.
  split; [by_eval|]. apply (retryDelay_spec Sample.grp 2); by_eval.
Defined.

(** Past the 64-bit range the back-off is lost: with the default initial
    delay of one second the delay before attempt 34 is negative and from
    attempt 55 on it is zero, so the message is retried at once instead of
    after the five-minute maximum. *)
Theorem retryDelay_overflow key :
  retryDelay (newGroup (defaultGroupConfig key)) 34 < 0 ∧
  retryDelay (newGroup (defaultGroupConfig key)) 33 = 5 * minute ∧
  ∀ attempt, 55 ≤ attempt → retryDelay (newGroup (defaultGroupConfig key)) attempt = 0.
Proof.
  split; [done|]. split; [done|]. intros attempt Ha.
  unfold retryDelay. simpl. rewrite Z.shiftl_1_l.
  assert (i64 (second * i64 (2 ^ attempt)) = 0) as ->; [|done].
  destruct (decide (64 ≤ attempt)) as [H|H].
  - assert (i64 (2 ^ attempt) = 0) as ->; [|done].
    unfold wrap_s. replace attempt with (64 + (attempt - 64)) by lia.
    rewrite Z.pow_add_r by lia. by rewrite Z.mul_comm, Z.add_comm, Z_mod_plus_full.
  - replace attempt with (55 + (attempt - 55)) by lia.
    assert (attempt - 55 = 0 ∨ attempt - 55 = 1 ∨ attempt - 55 = 2 ∨ attempt - 55 = 3 ∨
      attempt - 55 = 4 ∨ attempt - 55 = 5 ∨ attempt - 55 = 6 ∨ attempt - 55 = 7 ∨
      attempt - 55 = 8) as Hin by lia.
    by repeat destruct Hin as [->|Hin]; [..|rewrite Hin].
Qed.

(** ** What every operation keeps of a message

    Predicates that do not look at the state or the schedule of a message are
    kept by promotion and dispatch. *)
Section Stable.
Context (P : Message → Prop).
Context (P_state : ∀ s m, P m → P (set_State s m)).
Context (P_sched : ∀ t m, P m → P (set_ScheduledAt t m)).

Definition all_msgs (g : group) : Prop :=
  Forall P (live (urgent g) (urgentHead g)) ∧ Forall P (live (ready g) (readyHead g)) ∧
  Forall P (delayed g) ∧ Forall P (inflight g).

Lemma all_msgs_alt g :
  all_msgs g ↔ Forall P (dispatch_order g) ∧ Forall P (delayed g) ∧ Forall P (inflight g).
Proof. unfold all_msgs, dispatch_order. rewrite Forall_app. tauto. Qed.

Lemma group_msgs_all g : Forall P (group_msgs g) ↔ all_msgs g.
Proof. rewrite all_msgs_alt. unfold group_msgs, pending. rewrite !Forall_app. tauto. Qed.

Lemma Forall_filter (Q : Message → Prop) `{∀ m, Decision (Q m)} l :
  Forall P l → Forall P (filter Q l).
Proof. rewrite !Forall_forall. intros Hl m [_ Hm]%list_elem_of_filter. auto. Qed.

Lemma promoted_all now g g' w es ds : promoted now g g' w es ds → all_msgs g → all_msgs g'.
Proof.
  intros [_ _ _ Hes [Hds _] Ho Hi Hd _] (Hu & Hr & Hdel & Hinf).
  apply all_msgs_alt. rewrite Ho, Hi, Hd, !Forall_app, Hds. split_and!; auto using Forall_filter.
  apply Forall_fmap. rewrite Hes. eapply Forall_impl; [by apply Forall_filter|]. simpl. auto.
Qed.

Lemma leased_all now g ms : Forall P ms → Forall P (leased now g <$> ms).
Proof. intros H. apply Forall_fmap. eapply Forall_impl; [exact H|]. unfold leased. simpl. auto. Qed.

Lemma round_all now g g1 g' w ms d :
  round now g g1 g' w ms d → all_msgs g1 → all_msgs g'.
Proof.
  intros [_ _ _ _ Ho Hd Hi _ _] (H1 & H2 & H3)%all_msgs_alt. apply all_msgs_alt.
  rewrite Ho, Forall_app in H1. rewrite Hd, Hi, Forall_app.
  split_and!; [tauto|tauto| |tauto]. apply leased_all. tauto.
Qed.

Lemma took_all now g g' o : took now g g' o → delayed g' = delayed g → all_msgs g → all_msgs g'.
Proof.
  intros Ht Hd (H1 & H2 & H3)%all_msgs_alt. apply all_msgs_alt. rewrite Hd.
  destruct Ht as [m rest Ho Ho' Hi|Ho Ho' Hi|_ ->|t Ho Hi _].
  - rewrite Ho, Forall_cons in H1. rewrite Ho', Hi, Forall_cons.
    split_and!; [tauto|tauto| |tauto]. apply P_sched, P_state. tauto.
  - by rewrite Ho', Hi.
  - done.
  - by rewrite Ho, Hi.
Qed.

Lemma unlease_all g m g' :
  inflight g ≡ₚ m :: inflight g' → pending g' = pending g → all_msgs g → P m ∧ all_msgs g'.
Proof.
  intros Hi Hp Hg. apply group_msgs_all in Hg. unfold group_msgs in Hg.
  rewrite Forall_app, Hi, Forall_cons, <-Hp in Hg.
  split; [tauto|]. apply group_msgs_all. unfold group_msgs. rewrite Forall_app. tauto.
Qed.

Lemma release_all g k m :
  group_wf g → map_get (processing g) k = Some m → all_msgs g → all_msgs (release k m g).
Proof.
  intros Hwf Hk (H1 & H2 & H3 & H4). destruct (release_spec g k m Hwf Hk) as (_ & _ & Hi & Hu).
  rewrite Hi, Forall_cons in H4. unfold all_msgs.
  change (urgentHead (release k m g)) with (urgentHead g). rewrite Hu, Forall_app, Forall_singleton.
  split_and!; try tauto. apply P_state. tauto.
Qed.
End Stable.

(** ** Histories of group operations *)

Inductive event := Enqueued (m : Message) | Completed (id : string) | Dead (id : string).

Definition enqueued (h : list event) : list string :=
  omap (λ e, match e with Enqueued m => Some (ID m) | _ => None end) h.
Definition completed (h : list event) : list string :=
  omap (λ e, match e with Completed k => Some k | _ => None end) h.
Definition dead (h : list event) : list string :=
  omap (λ e, match e with Dead k => Some k | _ => None end) h.

(** Whether [fail] removes the message for good. *)
Definition fail_events (k : string) (g : group) : list event :=
  match map_get (processing g) k with
  | None => []
  | Some m => if decide (Attempts m + 1 < MaxAttempts (Retry (cfg g))) then [] else [Dead k]
  end.

(** One operation of the group, with what it records.  Only operations that
    return take a step; [drainRound_safe] shows that they all do. *)
Inductive gstep (g : group) : list event → group → Prop :=
| st_enqueue m :
    State m = StatePending → Attempts m = 0 → ID m ∉ group_ids g →
    gstep g [Enqueued m] (enqueue m g)
| st_promote ord now g' w : promoteDelayed ord now g = (g', w) → gstep g [] g'
| st_drain ord now g' d : drainRound ord now g = (g', Ret d) → gstep g [] g'
| st_next now g' r : next now g = (g', Ret r) → gstep g [] g'
| st_complete k g' m : complete k g = (g', Some m) → gstep g [Completed k] g'
| st_fail k e now g' r : fail k e now g = (g', r) → gstep g (fail_events k g) g'
| st_return k g' b : returnToPending k g = (g', b) → gstep g [] g'
| st_scheduled s w : gstep g [] (set_isScheduled s (set_wakeScheduledAt w g)).

Inductive history (c : GroupConfig) : list event → group → Prop :=
| hist_new : history c [] (newGroup c)
| hist_step h ev g g' : history c h g → gstep g ev g' → history c (h ++ ev) g'.

(** The accounting of one step. *)
Record step_post (g : group) (ev : list event) (g' : group) : Prop := {
  sp_wf : group_wf g';
  sp_cfg : cfg g' = cfg g;
  sp_ids : group_ids g ++ enqueued ev ≡ₚ group_ids g' ++ completed ev ++ dead ev;
  sp_cap : Z.of_nat (length (inflight g')) ≤
    Z.max (Z.of_nat (length (inflight g))) (Parallelism (cfg g));
}.

Lemma step_post_quiet g g' :
  group_wf g' → cfg g' = cfg g → group_ids g' ≡ₚ group_ids g →
  Z.of_nat (length (inflight g')) ≤ Z.max (Z.of_nat (length (inflight g))) (Parallelism (cfg g)) →
  step_post g [] g'.
Proof. intros. constructor; try done. by rewrite !app_nil_r. Qed.

(** A message leaves [processing]. *)
Lemma inflight_shrinks g g' m :
  inflight g ≡ₚ m :: inflight g' →
  Z.of_nat (length (inflight g')) ≤ Z.max (Z.of_nat (length (inflight g))) (Parallelism (cfg g)).
Proof. intros H%Permutation_length. simpl in H. lia. Qed.

Lemma step_post_gone g g' k m ev :
  group_wf g' → cfg g' = cfg g → group_ids g ≡ₚ k :: group_ids g' →
  inflight g ≡ₚ m :: inflight g' → ev = Completed k ∨ ev = Dead k → step_post g [ev] g'.
Proof.
  intros ? ? Hids Hi Hev. constructor; try done; [|by eapply inflight_shrinks].
  rewrite Hids. destruct Hev as [-> | ->]; simpl; rewrite app_nil_r; solve_Permutation.
Qed.

Lemma promoted_cap now g g' w es ds :
  promoted now g g' w es ds → (length (inflight g') ≤ length (inflight g))%nat.
Proof.
  intros Hp. rewrite (Permutation_length (pm_inflight _ _ _ _ _ _ Hp)). apply length_filter.
Qed.

Lemma took_cap now g g' o :
  took now g g' o →
  (o.1.2 ≠ dispatchStopCapacity → Z.of_nat (length (inflight g)) < Parallelism (cfg g)) →
  Z.of_nat (length (inflight g')) ≤ Z.max (Z.of_nat (length (inflight g))) (Parallelism (cfg g)).
Proof.
  intros Ht Hcap. destruct Ht as [m rest _ _ Hi|_ _ Hi|_ ->|t _ Hi _].
  - rewrite (Permutation_length Hi). simpl in *. specialize (Hcap ltac:(done)). lia.
  - rewrite Hi. lia.
  - lia.
  - rewrite Hi. lia.
Qed.

Lemma next_post now g g' r :
  group_wf g → next now g = (g', Ret r) →
  ∃ o, took now g g' o ∧ group_wf g' ∧ same_frame g g' ∧
    Z.of_nat (length (inflight g')) ≤ Z.max (Z.of_nat (length (inflight g))) (Parallelism (cfg g)).
Proof.
  intros Hwf. unfold next.
  destruct (nextDispatchable_spec now g Hwf) as (g1 & o & -> & Hwf1 & Ht & Hfr & Hcap & _).
  intros [= -> _]. exists o. split_and!; try done. by eapply took_cap.
Qed.

Lemma gstep_post g ev g' : group_wf g → gstep g ev g' → step_post g ev g'.
Proof.
  intros Hwf. destruct 1 as [m Hs Ha Hni|ord now g' w Heq|ord now g' d Heq|now g' r Heq
    |k g' m Heq|k e now g' r Heq|k g' b Heq|s w].
  - destruct (wf_heads g Hwf) as [_ Hr]. constructor; simpl; try done.
    + by apply enqueue_wf.
    + rewrite app_nil_r, enqueue_ids by done. by rewrite Permutation_app_comm.
    + change (inflight (enqueue m g)) with (inflight g). lia.
  - destruct (promoteDelayed_post ord now g Hwf) as (g1 & w1 & es & ds & Heq1 & Hp).
    rewrite Heq in Heq1. injection Heq1 as <- <-. pose proof (promoted_cap _ _ _ _ _ _ Hp).
    apply step_post_quiet; [apply Hp|apply Hp|apply Hp|lia].
  - destruct (drainRound_post ord now g Hwf) as (g1 & w1 & es & ds & g2 & ms & d2 & _ & Heq2 & Hp & Hr).
    rewrite Heq in Heq2. injection Heq2 as <- <-. pose proof (promoted_cap _ _ _ _ _ _ Hp).
    pose proof (rd_cap _ _ _ _ _ _ _ Hr). apply step_post_quiet; [apply Hr|apply Hr|apply Hr|lia].
  - destruct (next_post now g g' r Hwf Heq) as (o & Ht & Hwf' & [Hc Hd _ _] & Hcap).
    apply step_post_quiet; [done|done|by eapply took_ids|done].
  - unfold complete in Heq. destruct (map_get (processing g) k) as [m'|] eqn:Hk; [|done].
    injection Heq as <- _. destruct (complete_found g k m' Hwf Hk) as (g1 & Heq1 & H1 & H2 & _ & H4 & H5).
    unfold complete in Heq1. rewrite Hk in Heq1. injection Heq1 as <-.
    eapply step_post_gone; eauto.
  - unfold fail_events. destruct (map_get (processing g) k) as [m|] eqn:Hk.
    + case_decide as Hat.
      * destruct (fail_retry g k m e now Hwf Hk Hat) as (g1 & Heq1 & H1 & H2 & H3 & H4 & H5 & H6).
        rewrite Heq in Heq1. injection Heq1 as <- _.
        apply step_post_quiet; [done|done|done|by eapply inflight_shrinks].
      * destruct (fail_dead g k m e now Hwf Hk ltac:(lia)) as (g1 & Heq1 & H1 & H2 & H3 & H4 & H5).
        rewrite Heq in Heq1. injection Heq1 as <- _. eapply step_post_gone; eauto.
    + unfold fail in Heq. rewrite Hk in Heq. injection Heq as <- _. apply step_post_quiet; [done..|lia].
  - unfold returnToPending in Heq. destruct (map_get (processing g) k) as [m|] eqn:Hk; injection Heq as <- _.
    + destruct (release_spec g k m Hwf Hk) as (H1 & H2 & H3 & _).
      apply step_post_quiet; [done|done|done|by eapply inflight_shrinks].
    + apply step_post_quiet; [done..|lia].
  - apply step_post_quiet; [by destruct Hwf; constructor|done|done|].
    change (inflight (set_isScheduled _ _)) with (inflight g). lia.
Qed.

(** A predicate that also survives a retry survives every step. *)
Lemma gstep_all (P : Message → Prop) g ev g' :
  (∀ s m, P m → P (set_State s m)) → (∀ t m, P m → P (set_ScheduledAt t m)) →
  (∀ e m, P m → Attempts m + 1 < MaxAttempts (Retry (cfg g)) →
    P (set_Attempts (Attempts m + 1) (set_LastError e m))) →
  (∀ m, Enqueued m ∈ ev → Attempts m = 0 → P m) →
  group_wf g → gstep g ev g' → all_msgs P g → all_msgs P g'.
Proof.
  intros Pst Psc Prt Pen Hwf Hst Hall. destruct Hst as [m Hs Ha Hni|ord now g' w Heq|ord now g' d Heq
    |now g' r Heq|k g' m Heq|k e now g' r Heq|k g' b Heq|s w].
  - destruct (wf_heads g Hwf) as [_ Hr]. apply all_msgs_alt in Hall as (H1 & H2 & H3).
    apply all_msgs_alt. rewrite enqueue_order, Forall_app, Forall_singleton by done.
    split_and!; try done. apply Pen; [by left|done].
  - destruct (promoteDelayed_post ord now g Hwf) as (g1 & w1 & es & ds & Heq1 & Hp).
    rewrite Heq in Heq1. injection Heq1 as <- <-. by eapply promoted_all.
  - destruct (drainRound_post ord now g Hwf) as (g1 & w1 & es & ds & g2 & ms & d2 & _ & Heq2 & Hp & Hr).
    rewrite Heq in Heq2. injection Heq2 as <- <-. by eapply round_all, promoted_all.
  - destruct (next_post now g g' r Hwf Heq) as (o & Ht & _ & [_ Hd _ _] & _). by eapply took_all.
  - unfold complete in Heq. destruct (map_get (processing g) k) as [m'|] eqn:Hk; [|done].
    injection Heq as <- _. by eapply (unlease_all P g m'); [apply inflight_delete| |].
  - destruct (map_get (processing g) k) as [m|] eqn:Hk.
    + destruct (decide (Attempts m + 1 < MaxAttempts (Retry (cfg g)))) as [Hat|Hat].
      * destruct (fail_retry g k m e now Hwf Hk Hat) as (g1 & Heq1 & H1 & H2 & H3 & H4 & H5 & H6).
        rewrite Heq in Heq1. injection Heq1 as <- _.
        apply all_msgs_alt in Hall as (A1 & A2 & A3). rewrite H5, Forall_cons in A3.
        apply all_msgs_alt. rewrite H3, H4, Forall_cons. split_and!; try tauto.
        apply Pst, Psc, Prt; tauto.
      * destruct (fail_dead g k m e now Hwf Hk ltac:(lia)) as (g1 & Heq1 & H1 & H2 & H3 & H4 & H5).
        rewrite Heq in Heq1. injection Heq1 as <- _. by eapply (unlease_all P g m).
    + unfold fail in Heq. rewrite Hk in Heq. by injection Heq as <- _.
  - unfold returnToPending in Heq. destruct (map_get (processing g) k) as [m|] eqn:Hk; injection Heq as <- _.
    + by apply release_all.
    + done.
  - done.
Qed.

(** ** Theorems on histories *)

Lemma enqueued_app h h' : enqueued (h ++ h') = enqueued h ++ enqueued h'.
Proof. apply omap_app. Qed.
Lemma completed_app h h' : completed (h ++ h') = completed h ++ completed h'.
Proof. apply omap_app. Qed.
Lemma dead_app h h' : dead (h ++ h') = dead h ++ dead h'.
Proof. apply omap_app. Qed.

Lemma history_post c h g :
  config_ok c → history c h g →
  group_wf g ∧ cfg g = with_defaults c ∧
  enqueued h ≡ₚ group_ids g ++ completed h ++ dead h ∧
  Z.of_nat (length (inflight g)) ≤ Parallelism (with_defaults c).
Proof.
  intros Hc. induction 1 as [|h ev g g' Hh (Hwf & Hcfg & Hcons & Hcap) Hst].
  { split_and!; [by apply newGroup_wf|done|done|].
    change (inflight (newGroup c)) with (@nil Message). simpl.
    destruct (Z.leb_spec (Parallelism c) 0); lia. }
  destruct (gstep_post g ev g' Hwf Hst) as [H1 H2 H3 H4].
  split_and!; [done|congruence| |rewrite Hcfg in H4; lia].
  rewrite enqueued_app, completed_app, dead_app, Hcons.
  transitivity ((group_ids g ++ enqueued ev) ++ completed h ++ dead h); [solve_Permutation|].
  rewrite H3. solve_Permutation.
Qed.

(** No message is lost or duplicated.  After any history of group
    operations from a fresh group, the identifiers enqueued so far are, one for
    one, those still in the group (pending or in flight, each in exactly one
    place), those completed and those given up after their last attempt. *)
Theorem history_conservation c h g :
  config_ok c → history c h g →
  enqueued h ≡ₚ group_ids g ++ completed h ++ dead h ∧ NoDup (group_ids g).
Proof.
  intros Hc Hh. destruct (history_post c h g Hc Hh) as (Hwf & _ & Hcons & _).
  split; [done|apply Hwf].
Qed.

(** Three messages go through a group: one completes, one fails for good, one
    stays in flight. *)
Module Story.
Definition config : GroupConfig :=
  mkGroupConfig "g" 2 2 minute None (mkRetryConfig 1 BackoffFixed second second) None 100.
Definition g1 := enqueue (Sample.msg "c") (enqueue (Sample.msg "b") (enqueue (Sample.msg "a") (newGroup config))).
Definition g2 := (drainRound list_order 0 g1).1.
Definition g3 := (complete "a" g2).1.
Definition g4 := (fail "b" "boom" 1 g3).1.
Definition g5 := (next 2 g4).1.
Definition events : list event :=
  [Enqueued (Sample.msg "a"); Enqueued (Sample.msg "b"); Enqueued (Sample.msg "c");
   Completed "a"; Dead "b"].

Lemma told_g2 : history config (take 3 events) g2.
Proof.
  apply (hist_step config (take 3 events) [] g1); [|by eapply (st_drain g1 list_order 0); vm_compute].
  eapply (hist_step config (take 2 events) [Enqueued (Sample.msg "c")]); [|by apply st_enqueue; [done|done|by_eval]].
  eapply (hist_step config (take 1 events) [Enqueued (Sample.msg "b")]); [|by apply st_enqueue; [done|done|by_eval]].
  eapply (hist_step config [] [Enqueued (Sample.msg "a")]); [constructor|by apply st_enqueue; [done|done|by_eval]].
Qed.

Lemma told : history config events g5.
Proof.
  apply (hist_step config events [] g4); [|by eapply (st_next g4 2); vm_compute].
  apply (hist_step config (take 4 events) [Dead "b"] g3);
    [|change [Dead "b"] with (fail_events "b" g3); by eapply (st_fail g3 "b" "boom" 1); vm_compute].
  apply (hist_step config (take 3 events) [Completed "a"] g2); [|by eapply (st_complete g2 "a"); vm_compute].
  apply told_g2.
Qed.
End Story.

Lemma history_conservation_witness :
  (config_ok Story.config ∧ history Story.config Story.events Story.g5) ∧
  enqueued Story.events ≡ₚ group_ids Story.g5 ++ completed Story.events ++ dead Story.events ∧
  NoDup (group_ids Story.g5).
Proof.
  split; [split; [done|apply Story.told]|].
  apply (history_conservation Story.config Story.events Story.g5); [done|apply Story.told].
Defined.



(** What identifies a message to its consumer. *)
Definition same_content (m m' : Message) : Prop :=
  ID m' = ID m ∧ QueueName m' = QueueName m ∧ Namespace m' = Namespace m ∧
  GroupKey m' = GroupKey m ∧ Payload m' = Payload m ∧ CreatedAt m' = CreatedAt m.

(** A group delivers what was published: every message it holds, through
    any number of dispatches, lease expiries and retries, has the identifier,
    addressing, payload and creation time of a message enqueued earlier. *)
Theorem history_integrity c h g m :
  config_ok c → history c h g → m ∈ group_msgs g →
  ∃ m0, Enqueued m0 ∈ h ∧ same_content m0 m.
Proof.
  intros Hc Hh. revert m. apply (Forall_forall (λ m, ∃ m0, Enqueued m0 ∈ h ∧ same_content m0 m)).
  apply group_msgs_all. induction Hh as [|h ev g g' Hh IH Hst]; [by repeat split; constructor|].
  destruct (history_post c h g Hc Hh) as (Hwf & _).
  apply (gstep_all _ g ev); try done.
  - intros m Hm _. exists m. split; [set_solver|done].
  - destruct IH as (H1 & H2 & H3 & H4).
    repeat split; (eapply Forall_impl; [eassumption|]); simpl; intros m (m0 & ? & ?); exists m0; set_solver.
Qed.

Lemma history_integrity_witness :
  let m := leased 2 Story.g5 (Sample.msg "c") in
  (config_ok Story.config ∧ history Story.config Story.events Story.g5 ∧ m ∈ group_msgs Story.g5) ∧
  ∃ m0, Enqueued m0 ∈ Story.events ∧ same_content m0 m.
Proof.
  assert (leased 2 Story.g5 (Sample.msg "c") ∈ group_msgs Story.g5) as Hm by (vm_compute; left).
  split; [split_and!; [done|apply Story.told|done]|].
  apply (history_integrity Story.config Story.events Story.g5); [done|apply Story.told|done].
Defined.

(** C23. Failing a message in flight.  While attempts remain it goes to the
    retry heap with its error, one more attempt, and the back-off added to the
    current time, and stays in the group; on its last attempt it leaves the
    group, as a dead letter when the group has a dead-letter queue enabled and
    silently otherwise.  Failing an unknown message changes nothing. *)
Theorem fail_spec g k e now :
  group_wf g →
  match map_get (processing g) k with
  | None => fail k e now g = (g, None)
  | Some m =>
      ∃ g', fail k e now g =
          (g', if decide (Attempts m + 1 < MaxAttempts (Retry (cfg g))) then None
               else dead_letter e g m) ∧
        group_wf g' ∧ dispatch_order g' = dispatch_order g ∧ inflight g ≡ₚ m :: inflight g' ∧
        if decide (Attempts m + 1 < MaxAttempts (Retry (cfg g)))
        then delayed g' ≡ₚ retried e now g m :: delayed g
        else delayed g' = delayed g ∧ group_ids g ≡ₚ k :: group_ids g'
  end.
Proof.
  intros Hwf. destruct (map_get (processing g) k) as [m|] eqn:Hk; [|unfold fail; by rewrite Hk].
  case_decide as Hat.
  - destruct (fail_retry g k m e now Hwf Hk Hat) as (g' & ? & ? & ? & ? & ? & ? & ?).
    by exists g'.
  - assert (fail k e now g = (set_processing (map_del k (processing g)) g, dead_letter e g m)) as Heq.
    { unfold fail. rewrite Hk. simpl. rewrite (proj2 (Z.ltb_ge _ _)) by lia.
      unfold dead_letter. simpl. destruct (DLQ (cfg g)) as [[[] ?]|]; done. }
    eexists. split; [exact Heq|]. split_and!; try done;
      [by eapply unlease_wf|by apply inflight_delete|by eapply unlease_ids].
Qed.

Lemma fail_spec_witness :
  let g := Story.g3 in
  group_wf g ∧
  match map_get (processing g) "b" with
  | None => fail "b" "boom" 1 g = (g, None)
  | Some m =>
      ∃ g', fail "b" "boom" 1 g =
          (g', if decide (Attempts m + 1 < MaxAttempts (Retry (cfg g))) then None
               else dead_letter "boom" g m) ∧
        group_wf g' ∧ dispatch_order g' = dispatch_order g ∧ inflight g ≡ₚ m :: inflight g' ∧
        if decide (Attempts m + 1 < MaxAttempts (Retry (cfg g)))
        then delayed g' ≡ₚ retried "boom" 1 g m :: delayed g
        else delayed g' = delayed g ∧ group_ids g ≡ₚ "b" :: group_ids g'
  end.
Proof.
  assert (group_wf Story.g3) as Hwf.
  { apply (history_post Story.config (take 4 Story.events)); [done|].
    apply (hist_step Story.config (take 3 Story.events) [Completed "a"] Story.g2);
      [|by eapply (st_complete Story.g2 "a"); vm_compute].
    apply Story.told_g2. }
  split; [exact Hwf|]. exact (fail_spec Story.g3 "b" "boom" 1 Hwf).
Defined.

(** ** Snapshots *)

Lemma group_snapshot_restores g g0 :
  group_wf g → limiter_ok (limiter g0) →
  let g' := group_ImportState (group_ExportState g) g0 in
  group_wf g' ∧ live (urgent g') (urgentHead g') = live (urgent g) (urgentHead g) ∧
  live (ready g') (readyHead g') = live (ready g) (readyHead g) ∧
  delayed g' ≡ₚ delayed g ∧ processing g' = processing g ∧ group_ids g' ≡ₚ group_ids g.
Proof.
  intros [[p Hp] Hk Hnd Hu Hh Hheap Hlim Hpend Hinf] Hl0 g'.
  assert (delayed g' ≡ₚ delayed g) as Hd by apply Init_perm.
  assert (processing g' = processing g) as Hpr
    by (unfold g', group_ImportState, group_ExportState; simpl; rewrite Hp; done).
  assert (dispatch_order g' = dispatch_order g) as Ho
    by (unfold dispatch_order, g'; simpl; by rewrite !fmap_Some_live).
  assert (inflight g' = inflight g) as Hi by (unfold inflight; by rewrite Hpr).
  assert (group_ids g' ≡ₚ group_ids g) as Hids by (by rewrite !group_ids_app, Ho, Hi, Hd).
  split_and!; [|by apply fmap_Some_live..|done|done|done].
  constructor; try done.
  - by rewrite Hids.
  - simpl. rewrite drop_0, Forall_fmap. apply Forall_true. intros m. by exists m.
  - simpl. lia.
  - by apply (Init_heap delayed_less delayed_le_total delayed_le_trans).
  - unfold pending in *. by rewrite Ho, Hd.
Qed.

(** A snapshot of a group restores it: importing the exported state into a
    group of the same configuration gives back the pending messages in their
    dispatch order, the retry heap and the messages in flight, and the result
    is well formed. *)
Theorem group_snapshot_roundtrip g g0 :
  group_wf g → limiter_ok (limiter g0) →
  let g' := group_ImportState (group_ExportState g) g0 in
  group_wf g' ∧ live (urgent g') (urgentHead g') = live (urgent g) (urgentHead g) ∧
  live (ready g') (readyHead g') = live (ready g) (readyHead g) ∧
  delayed g' ≡ₚ delayed g ∧ processing g' = processing g ∧ group_ids g' ≡ₚ group_ids g.
Proof. apply group_snapshot_restores. Qed.

Lemma group_snapshot_roundtrip_witness :
  let g := sample_leased in let g0 := newGroup Sample.config in
  let g' := group_ImportState (group_ExportState g) g0 in
  (group_wf g ∧ limiter_ok (limiter g0)) ∧
  group_wf g' ∧ live (urgent g') (urgentHead g') = live (urgent g) (urgentHead g) ∧
  live (ready g') (readyHead g') = live (ready g) (readyHead g) ∧
  delayed g' ≡ₚ delayed g ∧ processing g' = processing g ∧ group_ids g' ≡ₚ group_ids g.
Proof.
  split; [split; [apply sample_leased_wf|done]|].
  apply (group_snapshot_roundtrip sample_leased (newGroup Sample.config)); [apply sample_leased_wf|done].
Defined.
