(* ===== verification/KeyIndex.v ===== *)
(** * The sorted index of group keys (src/internal/queue/queue.go, groupKeyIndex)

    [sort.Search] is the standard library's binary search; [add] inserts a key
    into the sorted slice and [page] reads one page after a cursor.  The index
    refines a finite set of keys, and following the cursors from the first page
    on reads the whole set, in order and without repetition. *)

From stdpp Require Import base list strings sorting sets gmap.
From Stdlib Require Import ZArith Lia.
From S2P Require Import Prelude.

(** ** Binary search *)

(** [sort.Search]: [for i < j { h := (i+j)/2; if !f(h) { i = h+1 } else { j = h } }]. *)
Fixpoint search_loop (fuel : nat) (f : nat → bool) (i j : nat) : nat :=
  match fuel with
  | O => i
  | S fuel =>
      if (i <? j)%nat then
        let h := ((i + j) / 2)%nat in
        if f h then search_loop fuel f i h else search_loop fuel f (S h) j
      else i
  end.

(** The interval shrinks at every step, so its length is fuel enough. *)
Definition Search (n : nat) (f : nat → bool) : nat := search_loop n f 0 n.

(** [sort.SearchStrings]: the first index whose key is at least [x]. *)
Definition SearchStrings (a : list string) (x : string) : nat :=
  Search (length a) (λ i, negb (str_ltb (default "" (a !! i)) x)).

Lemma search_loop_spec fuel f n i j :
  (j - i ≤ fuel)%nat → (i ≤ j ≤ n)%nat →
  (∀ a b, a ≤ b < n → f a = true → f b = true)%nat →
  (∀ k, k < i → f k = false)%nat → (∀ k, j ≤ k < n → f k = true)%nat →
  let r := search_loop fuel f i j in
  (i ≤ r ≤ j)%nat ∧ (∀ k, k < r → f k = false)%nat ∧ (∀ k, r ≤ k < n → f k = true)%nat.
Proof.
  intros Hfuel Hij Hmono. revert i j Hfuel Hij.
  induction fuel as [|fuel IH]; intros i j Hfuel Hij Hlo Hhi; cbn [search_loop].
  { assert (i = j) as -> by lia. split_and!; [lia|lia|auto|auto]. }
  destruct (Nat.ltb_spec i j) as [Hlt|Hge].
  2:{ assert (i = j) as -> by lia. split_and!; [lia|lia|auto|auto]. }
  pose proof (Nat.div_mod_eq (i + j) 2). pose proof (Nat.mod_upper_bound (i + j) 2 ltac:(lia)).
  set (h := ((i + j) / 2)%nat) in *. assert (i ≤ h < j)%nat as Hh by lia.
  destruct (f h) eqn:Ef.
  - destruct (IH i h) as (H1 & H2 & H3); [lia|lia|done| |split_and!; [lia|lia|done|done]].
    intros k Hk. destruct (decide (k < j)%nat); [|apply Hhi; lia]. by apply (Hmono h); [lia|].
  - destruct (IH (S h) j) as (H1 & H2 & H3); [lia|lia| |done|split_and!; [lia|lia|done|done]].
    intros k Hk. destruct (f k) eqn:E; [|done]. rewrite (Hmono k h) in Ef; [done|lia|done].
Qed.

(** ** The index *)

Record groupKeyIndex := mkKeyIndex { keys : list string }.

Definition add (key : string) (idx : groupKeyIndex) : groupKeyIndex :=
  let i := SearchStrings (keys idx) key in
  if decide (keys idx !! i = Some key) then idx
  else mkKeyIndex (take i (keys idx) ++ key :: drop i (keys idx)).

(** The index at which the page after a cursor starts. *)
Definition page_start (after : string) (idx : groupKeyIndex) : nat :=
  if decide (after = "") then 0%nat
  else
    let i := SearchStrings (keys idx) after in
    if decide (keys idx !! i = Some after) then S i else i.

(** The page and the next cursor, the empty string when there is no more. *)
Definition page (after : string) (limit : Z) (idx : groupKeyIndex) : list string * string :=
  let n := length (keys idx) in
  let start := page_start after idx in
  let end_ := Z.min (Z.of_nat start + limit) (Z.of_nat n) in
  if (end_ <=? Z.of_nat start)%Z then ([], "")
  else
    let e := Z.to_nat end_ in
    (take (e - start) (drop start (keys idx)),
     if (e <? n)%nat then default "" (keys idx !! (e - 1)%nat) else "").

Definition count (idx : groupKeyIndex) : Z := Z.of_nat (length (keys idx)).

(** Reading the pages one after the other until there is no next cursor. *)
Fixpoint all_pages (fuel : nat) (after : string) (limit : Z) (idx : groupKeyIndex) : list string :=
  match fuel with
  | O => []
  | S fuel =>
      let '(p, next) := page after limit idx in
      if decide (next = "") then p else p ++ all_pages fuel next limit idx
  end.

(** ** Invariant and abstraction *)

Definition idx_wf (idx : groupKeyIndex) : Prop := StronglySorted str_lt (keys idx).
Definition key_set (idx : groupKeyIndex) : gset string := list_to_set (keys idx).

Lemma sorted_lookup_lt (l : list string) i j x y :
  StronglySorted str_lt l → l !! i = Some x → l !! j = Some y → (i < j)%nat → str_lt x y.
Proof.
  intros Hs. revert i j. induction Hs as [|a l Hs IH Hall]; intros [|i] [|j] Hi Hj Hlt; simpl in *;
    try done; try lia; simplify_eq.
  - apply (proj1 (Forall_forall _ _) Hall). by eapply list_elem_of_lookup_2.
  - eapply IH; [done..|lia].
Qed.

(** The search result splits the slice into smaller keys and keys not smaller. *)
Lemma SearchStrings_spec l x :
  StronglySorted str_lt l →
  let i := SearchStrings l x in
  (i ≤ length l)%nat ∧ Forall (λ y, str_lt y x) (take i l) ∧ Forall (λ y, str_le x y) (drop i l).
Proof.
  intros Hs i. unfold i, SearchStrings, Search.
  set (f := λ i, negb (str_ltb (default "" (l !! i)) x)).
  destruct (search_loop_spec (length l) f (length l) 0 (length l)) as (H1 & H2 & H3); [lia|lia| |lia|lia|].
  - intros a b Hab Ha. unfold f in *.
    destruct (lookup_lt_is_Some_2 l a ltac:(lia)) as [y Hy].
    destruct (lookup_lt_is_Some_2 l b ltac:(lia)) as [z Hz].
    rewrite Hy in Ha. rewrite Hz. simpl in *. apply negb_true_iff in Ha. apply negb_true_iff.
    fold (str_le x y) in Ha. fold (str_le x z). destruct (decide (a = b)) as [->|Hne]; [congruence|].
    transitivity y; [done|]. apply str_le_lt_eq. left. eapply (sorted_lookup_lt l a b); [done..|lia].
  - set (r := search_loop _ _ _ _) in *. split; [lia|].
    split; apply Forall_lookup; intros k y Hk.
    + apply lookup_take_Some in Hk as [Hk Hlt]. specialize (H2 k Hlt). unfold f in H2.
      rewrite Hk in H2. by apply negb_false_iff in H2.
    + rewrite lookup_drop in Hk. pose proof (lookup_lt_Some _ _ _ Hk).
      specialize (H3 (r + k)%nat ltac:(lia)). unfold f in H3. rewrite Hk in H3.
      by apply negb_true_iff in H3.
Qed.

(** The key is in the slice exactly when the search finds it. *)
Lemma SearchStrings_found l x :
  StronglySorted str_lt l → x ∈ l ↔ l !! SearchStrings l x = Some x.
Proof.
  intros Hs. split; [|by intros; eapply list_elem_of_lookup_2].
  destruct (SearchStrings_spec l x Hs) as (Hle & Hlo & Hhi). set (i := SearchStrings l x) in *.
  rewrite <-(take_drop i l) at 1. rewrite elem_of_app. intros [Hin|Hin].
  { apply (proj1 (Forall_forall _ _) Hlo) in Hin. by apply str_lt_irrefl in Hin. }
  destruct (drop i l) as [|y rest] eqn:Ed; [by apply elem_of_nil in Hin|].
  assert (l !! i = Some y) as Hy by (rewrite <-(Nat.add_0_r i), <-lookup_drop; by rewrite Ed).
  apply Forall_cons in Hhi as [Hxy _]. apply elem_of_cons in Hin as [->|Hin]; [done|].
  assert (str_lt y x) as Hyx.
  { assert (StronglySorted str_lt (y :: rest)) as Hsr
      by (rewrite <-Ed; by apply (StronglySorted_app_1_r _ (take i l)); rewrite take_drop).
    apply StronglySorted_inv in Hsr as [_ Hall]. by apply (proj1 (Forall_forall _ _) Hall). }
  rewrite str_le_lt_eq in Hxy. destruct Hxy as [Hxy| ->]; [|done].
  exfalso. by apply (str_lt_irrefl x), (str_lt_trans x y).
Qed.

Lemma sorted_NoDup (l : list string) : StronglySorted str_lt l → NoDup l.
Proof.
  induction 1 as [|a l Hs IH Hall]; constructor; [|done].
  intros Hin. apply (proj1 (Forall_forall _ _) Hall) in Hin. by apply str_lt_irrefl in Hin.
Qed.

Lemma SearchStrings_at l i x :
  StronglySorted str_lt l → l !! i = Some x → SearchStrings l x = i.
Proof.
  intros Hs Hi. eapply NoDup_lookup; [by apply sorted_NoDup| |done].
  apply SearchStrings_found; [done|]. by eapply list_elem_of_lookup_2.
Qed.

Lemma add_wf key idx : idx_wf idx → idx_wf (add key idx).
Proof.
  intros Hwf. unfold add. case_decide as Hf; [done|].
  destruct (SearchStrings_spec (keys idx) key Hwf) as (_ & Hlo & Hhi).
  assert (key ∉ keys idx) as Hni by (by rewrite SearchStrings_found).
  set (i := SearchStrings (keys idx) key) in *.
  unfold idx_wf in *. simpl. rewrite <-(take_drop i (keys idx)) in Hwf.
  apply StronglySorted_app in Hwf as (Hc & Hl & Hr).
  assert (Forall (str_lt key) (drop i (keys idx))) as Hhi'.
  { rewrite Forall_forall in Hhi |- *. intros y Hy. specialize (Hhi y Hy).
    rewrite str_le_lt_eq in Hhi. destruct Hhi as [?| ->]; [done|].
    exfalso. apply Hni. rewrite <-(take_drop i (keys idx)). apply elem_of_app. by right. }
  apply StronglySorted_app_2; [|done|by constructor].
  intros x y Hx [->|Hy]%elem_of_cons; [by apply (proj1 (Forall_forall _ _) Hlo)|auto].
Qed.

Lemma elem_of_add key idx k : k ∈ keys (add key idx) ↔ k = key ∨ k ∈ keys idx.
Proof.
  unfold add. case_decide as Hf; simpl.
  - apply list_elem_of_lookup_2 in Hf. naive_solver.
  - assert (k ∈ keys idx ↔ k ∈ take (SearchStrings (keys idx) key) (keys idx)
      ∨ k ∈ drop (SearchStrings (keys idx) key) (keys idx)) as -> by (by rewrite <-elem_of_app, take_drop).
    rewrite elem_of_app, elem_of_cons. tauto.
Qed.

(** The key index refines a set: adding a key keeps the slice strictly
    sorted (so each key is there once) and adds exactly that key, whether or
    not it was present; and the count is the size of the set. *)
Theorem key_index_add key idx :
  idx_wf idx →
  idx_wf (add key idx) ∧ key_set (add key idx) = {[ key ]} ∪ key_set idx ∧
  count (add key idx) = Z.of_nat (size (key_set (add key idx))).
Proof.
  intros Hwf. split_and!; [by apply add_wf| |].
  - apply set_eq. intros k. unfold key_set.
    rewrite elem_of_union, elem_of_singleton, !elem_of_list_to_set. apply elem_of_add.
  - unfold count, key_set. by rewrite size_list_to_set by (by apply sorted_NoDup, add_wf).
Qed.

Lemma key_index_add_witness :
  let idx := mkKeyIndex ["a"; "c"] in
  idx_wf idx ∧
  idx_wf (add "b" idx) ∧ key_set (add "b" idx) = {[ "b" ]} ∪ key_set idx ∧
  count (add "b" idx) = Z.of_nat (size (key_set (add "b" idx))).
Proof.
  assert (idx_wf (mkKeyIndex ["a"; "c"])) as H by (repeat constructor).
  split; [exact H|]. exact (key_index_add "b" (mkKeyIndex ["a"; "c"]) H).
Defined.

(** ** Pagination *)

Lemma page_start_at idx i x :
  idx_wf idx → keys idx !! i = Some x → x ≠ "" → page_start x idx = S i.
Proof.
  intros Hwf Hi Hne. unfold page_start. rewrite decide_False by done. simpl.
  rewrite (SearchStrings_at _ i) by done. by rewrite decide_True.
Qed.

(** A page is never empty while keys remain, and hands over to the next one. *)
Lemma page_spec after limit idx :
  idx_wf idx → "" ∉ keys idx → (1 ≤ limit)%Z →
  let s := page_start after idx in
  let '(p, next) := page after limit idx in
  p = take (Z.to_nat limit) (drop s (keys idx)) ∧
  (next = "" → drop s (keys idx) = p) ∧
  (next ≠ "" → page_start next idx = (s + Z.to_nat limit)%nat ∧ (s + Z.to_nat limit < length (keys idx))%nat).
Proof.
  intros Hwf Hne Hl s. unfold page. fold s.
  set (n := length (keys idx)). destruct (Z.leb_spec (Z.min (Z.of_nat s + limit) (Z.of_nat n)) (Z.of_nat s)) as [Hle|Hgt].
  { assert (n ≤ s)%nat by lia. rewrite drop_ge by lia. rewrite take_nil. done. }
  assert (Z.to_nat (Z.min (Z.of_nat s + limit) (Z.of_nat n)) = min (s + Z.to_nat limit) n) as -> by lia.
  destruct (Nat.ltb_spec (min (s + Z.to_nat limit) n) n) as [Hlt|Hge].
  - assert (min (s + Z.to_nat limit) n = s + Z.to_nat limit)%nat as -> by lia.
    destruct (lookup_lt_is_Some_2 (keys idx) (s + Z.to_nat limit - 1) ltac:(lia)) as [x Hx].
    rewrite Hx. simpl.
    assert (x ≠ "") as Hxn by (intros ->; apply Hne; by eapply list_elem_of_lookup_2).
    replace (s + Z.to_nat limit - s)%nat with (Z.to_nat limit) by lia.
    split; [done|]. split; [done|]. intros _. split; [|lia].
    rewrite (page_start_at idx _ x Hwf Hx Hxn). lia.
  - assert (min (s + Z.to_nat limit) n = n)%nat as -> by lia.
    rewrite !take_ge by (rewrite length_drop; lia). done.
Qed.

(** Pagination is complete: with any page size, following the cursors from
    the first page on reads exactly the keys of the index, each once, in
    order.  (The empty string stands for "no cursor", so it must not be a key.) *)
Theorem pages_complete limit idx fuel :
  idx_wf idx → "" ∉ keys idx → (1 ≤ limit)%Z → (length (keys idx) < fuel)%nat →
  all_pages fuel "" limit idx = keys idx.
Proof.
  intros Hwf Hne Hl Hf.
  enough (∀ fuel after, (length (keys idx) - page_start after idx < fuel)%nat →
    all_pages fuel after limit idx = drop (page_start after idx) (keys idx)) as H.
  { rewrite H; [done|]. simpl. lia. }
  clear fuel Hf. induction fuel as [|fuel IH]; intros after Hf; [lia|]. cbn [all_pages].
  pose proof (page_spec after limit idx Hwf Hne Hl) as Hp. simpl in Hp.
  destruct (page after limit idx) as [p next]. destruct Hp as (Hp & H1 & H2).
  case_decide as Hn; [by rewrite H1|]. destruct (H2 Hn) as [H3 H4].
  rewrite IH, H3 by (rewrite H3; lia). rewrite Hp, <-drop_drop. apply take_drop.
Qed.

Lemma pages_complete_witness :
  let idx := mkKeyIndex ["a"; "b"; "c"; "d"; "e"] in
  (idx_wf idx ∧ ("" ∉ keys idx) ∧ (1 ≤ 2)%Z ∧ (length (keys idx) < 6)%nat) ∧
  all_pages 6 "" 2 idx = keys idx.
Proof.
  assert (idx_wf (mkKeyIndex ["a"; "b"; "c"; "d"; "e"])) as H by (repeat constructor).
  split; [split_and!; [exact H|by_eval|lia|simpl; lia]|].
  apply (pages_complete 2 (mkKeyIndex ["a"; "b"; "c"; "d"; "e"]) 6); [exact H|by_eval|lia|simpl; lia].
Defined.
