(* ===== verification/ConfigIdx.v ===== *)
(** * Declared group configurations (src/internal/queue/queue.go, configIdx)

    Exact keys live in a map and glob patterns in an insertion-ordered list;
    together they refine one finite map from declared key to configuration.
    [resolve] picks the configuration of a group: the exact one, else that of
    the first pattern that matches. *)

From stdpp Require Import base gmap list strings sorting.
From Stdlib Require Import ZArith Lia Strings.Ascii.
From S2P Require Import Prelude Heap Message RateLimit PathMatch Group.
Local Open Scope Z_scope.

Record configIdx := mkConfigIdx {
  exact : gmap string GroupConfig;
  wildcards : list GroupConfig;
}.

Definition newConfigIdx : configIdx := mkConfigIdx ∅ [].

(** [strings.ContainsAny(key, "*?[")] *)
Definition isGlobPattern (key : string) : bool :=
  existsb (λ c, (c =? c_star) || (c =? c_quest) || (c =? c_lbrack)) (codes key).

(** [for i, w := range ci.wildcards { if w.Key == c.Key { ci.wildcards[i] = &c; return } }],
    then append. *)
Fixpoint set_wildcard (c : GroupConfig) (ws : list GroupConfig) : list GroupConfig :=
  match ws with
  | [] => [c]
  | w :: ws => if decide (Key w = Key c) then c :: ws else w :: set_wildcard c ws
  end.

Definition set (c : GroupConfig) (ci : configIdx) : configIdx :=
  if isGlobPattern (Key c)
  then mkConfigIdx (exact ci) (set_wildcard c (wildcards ci))
  else mkConfigIdx (<[Key c := c]> (exact ci)) (wildcards ci).

Definition find_key (key : string) (ws : list GroupConfig) : option GroupConfig :=
  List.find (λ c, bool_decide (Key c = key)) ws.
Arguments find_key : simpl never.

Definition get (key : string) (ci : configIdx) : option GroupConfig :=
  match exact ci !! key with
  | Some c => Some c
  | None => find_key key (wildcards ci)
  end.

(** Remove the first configuration with that key. *)
Fixpoint del_wildcard (key : string) (ws : list GroupConfig) : list GroupConfig * bool :=
  match ws with
  | [] => ([], false)
  | w :: ws =>
      if decide (Key w = key) then (ws, true)
      else let '(ws', b) := del_wildcard key ws in (w :: ws', b)
  end.

Definition del (key : string) (ci : configIdx) : configIdx * bool :=
  match exact ci !! key with
  | Some _ => (mkConfigIdx (delete key (exact ci)) (wildcards ci), true)
  | None =>
      let '(ws, b) := del_wildcard key (wildcards ci) in
      (mkConfigIdx (exact ci) ws, b)
  end.

Definition resolve (key : string) (ci : configIdx) : option GroupConfig :=
  match exact ci !! key with
  | Some c => Some c
  | None =>
      match List.find (λ c, Matches c key) (wildcards ci) with
      | Some c => Some (cfg_set_Key key c)
      | None => None
      end
  end.

(** Exact configurations by key, then the patterns. *)
Definition list_configs (ci : configIdx) : list GroupConfig :=
  omap (λ k, exact ci !! k) (sort_strings (map_to_list (exact ci)).*1) ++ wildcards ci.

Definition count_configs (ci : configIdx) : Z :=
  Z.of_nat (size (exact ci)) + Z.of_nat (length (wildcards ci)).

(** ** Invariant *)

Record cfg_wf (ci : configIdx) : Prop := {
  cw_exact : ∀ k c, exact ci !! k = Some c → Key c = k ∧ isGlobPattern k = false;
  cw_glob : Forall (λ c, isGlobPattern (Key c) = true) (wildcards ci);
  cw_nodup : NoDup (Key <$> wildcards ci);
}.

Lemma newConfigIdx_wf : cfg_wf newConfigIdx.
Proof. split; simpl; [intros k c; by rewrite lookup_empty|constructor|constructor]. Qed.

Lemma find_key_cons key w ws :
  find_key key (w :: ws) = if decide (Key w = key) then Some w else find_key key ws.
Proof. unfold find_key. simpl. case_decide; case_bool_decide; congruence. Qed.

Lemma find_key_None key ws : find_key key ws = None ↔ key ∉ Key <$> ws.
Proof.
  induction ws as [|w ws IH]; csimpl; [set_solver|].
  rewrite find_key_cons, not_elem_of_cons, <-IH. case_decide; naive_solver.
Qed.

Lemma find_key_Some key ws c : find_key key ws = Some c → c ∈ ws ∧ Key c = key.
Proof.
  intros [Hin Hb]%List.find_some. apply bool_decide_eq_true in Hb.
  split; [by apply list_elem_of_In|done].
Qed.

Lemma set_wildcard_find c ws k :
  find_key k (set_wildcard c ws) = if decide (k = Key c) then Some c else find_key k ws.
Proof.
  induction ws as [|w ws IH]; cbn [set_wildcard].
  - unfold find_key. cbn. repeat case_decide; repeat case_bool_decide; congruence.
  - destruct (decide (Key w = Key c)) as [Hw|Hw]; rewrite !find_key_cons, ?IH;
      repeat case_decide; congruence.
Qed.

Lemma set_wildcard_keys c ws k :
  k ∈ Key <$> set_wildcard c ws ↔ k = Key c ∨ k ∈ Key <$> ws.
Proof.
  destruct (decide (k = Key c)) as [->|Hne].
  - split; [auto|]. intros _. apply dec_stable. rewrite <-find_key_None, set_wildcard_find.
    rewrite decide_True by done. done.
  - assert (k ∉ Key <$> set_wildcard c ws ↔ k ∉ Key <$> ws) as H
      by (by rewrite <-!find_key_None, set_wildcard_find, decide_False).
    destruct (decide (k ∈ Key <$> ws)), (decide (k ∈ Key <$> set_wildcard c ws)); naive_solver.
Qed.

Lemma set_wildcard_nodup c ws : NoDup (Key <$> ws) → NoDup (Key <$> set_wildcard c ws).
Proof.
  induction ws as [|w ws IH]; csimpl; intros Hnd; [by repeat constructor; set_solver|].
  apply NoDup_cons in Hnd as [Hni Hnd]. case_decide as Hw; csimpl.
  - rewrite <-Hw. by constructor.
  - constructor; [|auto]. rewrite set_wildcard_keys. naive_solver.
Qed.

Lemma set_wildcard_Forall (P : GroupConfig → Prop) c ws :
  P c → Forall P ws → Forall P (set_wildcard c ws).
Proof. intros Hc. induction 1; simpl; [by repeat constructor|]. case_decide; by constructor. Qed.

Lemma set_wf c ci : cfg_wf ci → cfg_wf (set c ci).
Proof.
  intros [He Hg Hn]. unfold set. destruct (isGlobPattern (Key c)) eqn:E; split; simpl; try done.
  - by apply set_wildcard_Forall.
  - by apply set_wildcard_nodup.
  - intros k c' [[<- <-]|[_ H]]%lookup_insert_Some; auto.
Qed.

Lemma wf_find_glob ci k c :
  cfg_wf ci → find_key k (wildcards ci) = Some c → isGlobPattern k = true.
Proof.
  intros Hwf [Hin <-]%find_key_Some. by apply (proj1 (Forall_forall _ _) (cw_glob ci Hwf)).
Qed.

Lemma get_set c ci k :
  cfg_wf ci → get k (set c ci) = if decide (k = Key c) then Some c else get k ci.
Proof.
  intros Hwf. unfold get, set. destruct (isGlobPattern (Key c)) eqn:E; simpl.
  - rewrite set_wildcard_find. case_decide as Hk; [|done].
    subst. destruct (exact ci !! Key c) as [c'|] eqn:El; [|done].
    apply (cw_exact ci Hwf) in El as [_ El]. congruence.
  - case_decide as Hk; [subst; by rewrite lookup_insert_eq|]. by rewrite lookup_insert_ne.
Qed.

Lemma del_wildcard_spec key ws ws' b :
  NoDup (Key <$> ws) → del_wildcard key ws = (ws', b) →
  (b = true ↔ key ∈ Key <$> ws) ∧ sublist ws' ws ∧ NoDup (Key <$> ws') ∧
  ∀ k, find_key k ws' = if decide (k = key) then None else find_key k ws.
Proof.
  revert ws' b. induction ws as [|w ws IH]; intros ws' b; csimpl; intros Hnd Hd.
  { injection Hd as <- <-. split_and!; [set_solver|done|done|]. intros k. by case_decide. }
  apply NoDup_cons in Hnd as [Hni Hnd]. case_decide as Hw.
  - injection Hd as <- <-. split_and!; [set_solver|by constructor|done|].
    intros k. rewrite find_key_cons. case_decide as Hk.
    + subst. by apply find_key_None.
    + by rewrite decide_False by congruence.
  - destruct (del_wildcard key ws) as [ws1 b1]. injection Hd as <- <-.
    destruct (IH ws1 b1 Hnd eq_refl) as (H1 & H2 & H3 & H4). split_and!.
    + rewrite H1. set_solver.
    + by constructor.
    + csimpl. constructor; [|done]. intros (c & Hc & Hin)%list_elem_of_fmap.
      apply Hni. rewrite Hc. by apply list_elem_of_fmap_2, (elem_of_sublist ws1).
    + intros k. rewrite !find_key_cons, H4. repeat case_decide; congruence.
Qed.

Lemma del_wf key ci : cfg_wf ci → cfg_wf (del key ci).1.
Proof.
  intros [He Hg Hn]. unfold del. destruct (exact ci !! key) eqn:E.
  - split; simpl; try done. intros k c [_ H]%lookup_delete_Some. auto.
  - destruct (del_wildcard key (wildcards ci)) as [ws b] eqn:Ed.
    destruct (del_wildcard_spec key _ ws b Hn Ed) as (_ & Hs & Hn' & _).
    split; simpl; try done. rewrite Forall_forall in *. intros c Hc. apply Hg. by eapply elem_of_sublist.
Qed.

Lemma get_del key ci k :
  cfg_wf ci → get k (del key ci).1 = if decide (k = key) then None else get k ci.
Proof.
  intros Hwf. unfold get, del. destruct (exact ci !! key) as [c|] eqn:E; simpl.
  - case_decide as Hk; [subst|by rewrite lookup_delete_ne].
    rewrite lookup_delete_eq. apply find_key_None. intros (c' & Heq & Hin)%list_elem_of_fmap.
    apply (cw_exact ci Hwf) in E as [_ E]. apply (proj1 (Forall_forall _ _) (cw_glob ci Hwf)) in Hin.
    congruence.
  - destruct (del_wildcard key (wildcards ci)) as [ws b] eqn:Ed. simpl.
    destruct (del_wildcard_spec key _ ws b (cw_nodup ci Hwf) Ed) as (_ & _ & _ & Hf). rewrite Hf.
    case_decide as Hk; [subst; by rewrite E|done].
Qed.

Lemma del_found key ci : cfg_wf ci → (del key ci).2 = true ↔ is_Some (get key ci).
Proof.
  intros Hwf. unfold get, del. destruct (exact ci !! key) as [c|] eqn:E; simpl; [done|].
  destruct (del_wildcard key (wildcards ci)) as [ws b] eqn:Ed. simpl.
  destruct (del_wildcard_spec key _ ws b (cw_nodup ci Hwf) Ed) as (Hb & _). rewrite Hb.
  rewrite <-not_eq_None_Some, find_key_None. split; [auto|apply dec_stable].
Qed.

(** The configuration index behaves as one map from declared key to
    configuration, exact keys and glob patterns alike: a declared configuration
    is read back until it is replaced or deleted, other keys are not affected,
    and deletion reports whether the key was declared. *)
Theorem config_index_map ci c key k :
  cfg_wf ci →
  cfg_wf (set c ci) ∧ get k (set c ci) = (if decide (k = Key c) then Some c else get k ci) ∧
  cfg_wf (del key ci).1 ∧ get k (del key ci).1 = (if decide (k = key) then None else get k ci) ∧
  ((del key ci).2 = true ↔ is_Some (get key ci)).
Proof. intros. split_and!; auto using set_wf, get_set, del_wf, get_del, del_found; by apply del_found. Qed.

Lemma config_index_map_witness :
  let ci := set (defaultGroupConfig "a*") (set (defaultGroupConfig "b") newConfigIdx) in
  let c := defaultGroupConfig "a?" in
  cfg_wf ci ∧
  cfg_wf (set c ci) ∧ get "a*" (set c ci) = (if decide ("a*" = Key c) then Some c else get "a*" ci) ∧
  cfg_wf (del "b" ci).1 ∧ get "a*" (del "b" ci).1 = (if decide ("a*" = "b") then None else get "a*" ci) ∧
  ((del "b" ci).2 = true ↔ is_Some (get "b" ci)).
Proof.
  assert (cfg_wf (set (defaultGroupConfig "a*") (set (defaultGroupConfig "b") newConfigIdx))) as H
    by (apply set_wf, set_wf, newConfigIdx_wf).
  split; [exact H|]. exact (config_index_map _ (defaultGroupConfig "a?") "b" "a*" H).
Defined.

(** Resolution: an exact declaration wins, otherwise the earliest declared
    pattern that matches the key is used, and the result carries the group's
    own key. *)
Theorem resolve_precedence ci key :
  cfg_wf ci →
  match resolve key ci with
  | Some c =>
      Key c = key ∧
      (exact ci !! key = Some c ∨
       exact ci !! key = None ∧
       ∃ i w, wildcards ci !! i = Some w ∧ Matches w key = true ∧ c = cfg_set_Key key w ∧
         ∀ j w', (j < i)%nat → wildcards ci !! j = Some w' → Matches w' key = false)
  | None => exact ci !! key = None ∧ Forall (λ w, Matches w key = false) (wildcards ci)
  end.
Proof.
  intros Hwf. unfold resolve. destruct (exact ci !! key) as [c|] eqn:E.
  { split; [by apply (cw_exact ci Hwf) in E as [? _]|by left]. }
  generalize (wildcards ci). intros ws. induction ws as [|w ws IH]; simpl; [done|].
  destruct (Matches w key) eqn:Em.
  - split; [done|]. right. split; [done|]. exists 0%nat, w. split_and!; try done. intros; lia.
  - destruct (List.find _ ws) as [w'|].
    + destruct IH as [HK [?|[_ (i & w1 & H1 & H2 & H3 & H4)]]]; [done|].
      split; [done|]. right. split; [done|]. exists (S i), w1. split_and!; try done.
      intros [|j] w2 Hj Hl; simpl in *; [congruence|]. apply (H4 j); [lia|done].
    + destruct IH as [? ?]. split; [done|]. by constructor.
Qed.

Lemma resolve_precedence_witness :
  let ci := set (defaultGroupConfig "a*") (set (defaultGroupConfig "b") newConfigIdx) in
  cfg_wf ci ∧
  match resolve "abc" ci with
  | Some c =>
      Key c = "abc" ∧
      (exact ci !! "abc" = Some c ∨
       exact ci !! "abc" = None ∧
       ∃ i w, wildcards ci !! i = Some w ∧ Matches w "abc" = true ∧ c = cfg_set_Key "abc" w ∧
         ∀ j w', (j < i)%nat → wildcards ci !! j = Some w' → Matches w' "abc" = false)
  | None => exact ci !! "abc" = None ∧ Forall (λ w, Matches w "abc" = false) (wildcards ci)
  end.
Proof.
  assert (cfg_wf (set (defaultGroupConfig "a*") (set (defaultGroupConfig "b") newConfigIdx))) as H
    by (apply set_wf, set_wf, newConfigIdx_wf).
  split; [exact H|]. exact (resolve_precedence _ "abc" H).
Defined.

(** ** Listing *)

Lemma omap_lookup_perm (m : gmap string GroupConfig) l :
  l ≡ₚ (map_to_list m).*1 → omap (λ k, m !! k) l ≡ₚ (map_to_list m).*2.
Proof.
  intros ->. assert (∀ kv, kv ∈ map_to_list m → m !! kv.1 = Some kv.2) as H
    by (intros [k c]; apply elem_of_map_to_list).
  revert H. generalize (map_to_list m). intros kvs. induction kvs as [|[k c] kvs IH]; intros H; csimpl; [done|].
  assert (m !! k = Some c) as -> by (apply (H (k, c)); by left). rewrite IH; [done|]. intros kv Hkv. apply H. by right.
Qed.

Lemma list_configs_perm ci : list_configs ci ≡ₚ (map_to_list (exact ci)).*2 ++ wildcards ci.
Proof. unfold list_configs. rewrite omap_lookup_perm; [done|apply sort_strings_perm]. Qed.

Lemma list_configs_length ci : Z.of_nat (length (list_configs ci)) = count_configs ci.
Proof.
  rewrite (Permutation_length (list_configs_perm ci)), length_app, length_fmap, length_map_to_list.
  unfold count_configs. lia.
Qed.

Lemma elem_of_list_configs ci c :
  cfg_wf ci → c ∈ list_configs ci ↔ get (Key c) ci = Some c.
Proof.
  intros Hwf. rewrite list_configs_perm, elem_of_app. unfold get. split.
  - intros [((k & c') & -> & H%elem_of_map_to_list)%list_elem_of_fmap|Hin].
    + simpl in *. destruct (cw_exact ci Hwf _ _ H) as [<- _]. by rewrite H.
    + pose proof (proj1 (Forall_forall _ _) (cw_glob ci Hwf) _ Hin) as Hg. simpl in Hg.
      destruct (exact ci !! Key c) eqn:E; [apply (cw_exact ci Hwf) in E as [_ E]; congruence|].
      pose proof (cw_nodup ci Hwf) as Hnd. revert Hnd Hin. generalize (wildcards ci). intros ws.
      induction ws as [|w ws IH]; csimpl; intros Hnd Hin; [by apply elem_of_nil in Hin|].
      apply NoDup_cons in Hnd as [Hni Hnd]. rewrite find_key_cons.
      apply elem_of_cons in Hin as [->|Hin]; [by rewrite decide_True|].
      rewrite decide_False; [auto|]. intros Heq. apply Hni. rewrite Heq. by apply list_elem_of_fmap_2.
  - destruct (exact ci !! Key c) eqn:E.
    + intros [= ->]. left. apply list_elem_of_fmap. exists (Key c, c). by rewrite elem_of_map_to_list.
    + intros [Hin _]%find_key_Some. by right.
Qed.

Lemma list_configs_nodup ci : cfg_wf ci → NoDup (Key <$> list_configs ci).
Proof.
  intros Hwf. rewrite list_configs_perm, fmap_app. apply NoDup_app. split_and!.
  - assert (Key <$> (map_to_list (exact ci)).*2 = (map_to_list (exact ci)).*1) as ->;
      [|apply NoDup_fst_map_to_list].
    rewrite <-list_fmap_compose. apply list_fmap_ext. intros i [k c] Hi. simpl.
    apply list_elem_of_lookup_2, elem_of_map_to_list in Hi. by apply (cw_exact ci Hwf) in Hi as [? _].
  - intros k (c & -> & ((k' & c') & -> & H%elem_of_map_to_list)%list_elem_of_fmap)%list_elem_of_fmap Hin.
    simpl in *. apply list_elem_of_fmap in Hin as (w & Heq & Hw).
    apply (cw_exact ci Hwf) in H as [<- Hg]. rewrite Heq in Hg.
    pose proof (proj1 (Forall_forall _ _) (cw_glob ci Hwf) _ Hw) as Hg'. simpl in Hg'. congruence.
  - apply Hwf.
Qed.
