(* ===== verification/Queue.v ===== *)
(** * Queues (src/internal/queue/queue.go, hash.go, store.go)

    A queue spreads its groups over 32 shards by a hash of the group key; each
    operation locks the one shard that owns its group (or each shard in turn)
    and runs the group operation there.  An operation here is the critical
    section: the state before the lock is taken to the state after it is
    released.  [QueueInv.v] proves that the shards refine one flat map. *)

From stdpp Require Import base gmap list strings.
From Stdlib Require Import ZArith Lia Strings.Byte.
From S2P Require Import Prelude Heap Message RateLimit PathMatch Group KeyIndex ConfigIdx.
Local Open Scope Z_scope.

(** ** Sharding *)

(** 32-bit FNV-1a. *)
Definition HashKey (s : string) : Z :=
  foldl (λ h b, u32 (Z.lxor h (byte_to_Z b) * 16777619)) 2166136261 (str_bytes s).

Definition queueShardCount : nat := 32.
Definition shard_idx (key : string) : nat :=
  Z.to_nat (Z.land (HashKey key) (Z.of_nat queueShardCount - 1)).

Record Queue := mkQueue {
  Name : string;
  q_Namespace : string;
  cfgIdx : configIdx;
  shards : list (gmap string group);
  keyIdx : groupKeyIndex;
}.

Definition set_cfgIdx x q := mkQueue (Name q) (q_Namespace q) x (shards q) (keyIdx q).
Definition set_shards x q := mkQueue (Name q) (q_Namespace q) (cfgIdx q) x (keyIdx q).
Definition set_keyIdx x q := mkQueue (Name q) (q_Namespace q) (cfgIdx q) (shards q) x.

Definition NewQueue (name namespace : string) : Queue :=
  mkQueue name namespace newConfigIdx (replicate queueShardCount ∅) (mkKeyIndex []).

(** [shard.groups[key]] and [shard.groups[key] = g] in the shard of the key. *)
Definition GetGroup (key : string) (q : Queue) : option group :=
  match shards q !! shard_idx key with Some sh => sh !! key | None => None end.
Definition put_group (key : string) (g : group) (q : Queue) : Queue :=
  set_shards (alter (λ sh : gmap string group, <[key := g]> sh) (shard_idx key) (shards q)) q.

(** Run a group operation under the lock of the group's shard. *)
Definition with_group {A} (key : string) (f : group → group * A) (absent : A) (q : Queue) : Queue * A :=
  match GetGroup key q with
  | None => (q, absent)
  | Some g => let '(g', a) := f g in (put_group key g' q, a)
  end.

(** ** Configuration *)

Definition resolveConfig (key : string) (q : Queue) : GroupConfig :=
  match resolve key (cfgIdx q) with Some c => c | None => defaultGroupConfig key end.

(** An active group takes over a configuration: [g.cfg = cfg; g.quantum = cfg.Quantum]. *)
Definition reconfigure (c : GroupConfig) (g : group) : group := set_quantum (Quantum c) (set_cfg c g).

Definition SetGroupConfig (c : GroupConfig) (q : Queue) : Queue :=
  let c := if Quantum c <=? 0 then cfg_set_Quantum 1 c else c in
  let q := set_cfgIdx (set c (cfgIdx q)) q in
  if isGlobPattern (Key c) then
    set_shards
      ((λ sh : gmap string group,
          map_imap (λ key g, Some (if Matches c key then reconfigure (cfg_set_Key key c) g else g)) sh)
       <$> shards q) q
  else (with_group (Key c) (λ g, (reconfigure c g, ())) () q).1.

Definition DeleteGroupConfig (key : string) (q : Queue) : Queue * bool :=
  let '(ci, b) := del key (cfgIdx q) in (set_cfgIdx ci q, b).
Definition GetGroupConfig (key : string) (q : Queue) : option GroupConfig := get key (cfgIdx q).
Definition ListGroupConfigs (q : Queue) : list GroupConfig := list_configs (cfgIdx q).
Definition ConfigCount (q : Queue) : Z := count_configs (cfgIdx q).
Definition GroupCount (q : Queue) : Z := count (keyIdx q).

Definition page_limit (limit : Z) : Z := if (limit <=? 0) || (1000 <? limit) then 100 else limit.

(** The index after the configuration with the cursor's key, 0 if there is none. *)
Fixpoint cursor_start (after : string) (i : nat) (all : list GroupConfig) : nat :=
  match all with
  | [] => 0
  | c :: all => if decide (Key c = after) then S i else cursor_start after (S i) all
  end.

Definition PageGroupConfigs (after : string) (limit : Z) (q : Queue) : list GroupConfig * string :=
  let limit := Z.to_nat (page_limit limit) in
  let all := list_configs (cfgIdx q) in
  let start := if decide (after = "") then 0%nat else cursor_start after 0 all in
  let end_ := Nat.min (start + limit) (length all) in
  (take (end_ - start) (drop start all),
   if (end_ <? length all)%nat
   then match all !! (end_ - 1)%nat with Some c => Key c | None => "" end
   else "").

(** ** Statistics *)

Record GroupStats := mkGroupStats { st_Key : string; st_Pending : Z; st_Processing : Z }.

Definition group_stats (key : string) (g : group) : GroupStats :=
  mkGroupStats key (pendingCount g) (processingCount g).

Definition GetGroupStats (key : string) (q : Queue) : option GroupStats :=
  group_stats key <$> GetGroup key q.

Definition PageGroupStats (after : string) (limit : Z) (q : Queue) : list GroupStats * string :=
  let '(ks, next) := page after (page_limit limit) (keyIdx q) in
  if decide (ks = []) then ([], "") else (omap (λ k, GetGroupStats k q) ks, next).

Definition Snapshot (ord : range_order group) (q : Queue) : list GroupStats * list GroupConfig :=
  (concat ((λ sh, (λ kv, group_stats kv.1 kv.2) <$> range_of ord sh) <$> shards q),
   ListGroupConfigs q).

(** ** Publishing *)

Inductive queue_error :=
| ErrDepth (key : string) (max : Z)
| ErrGroupNotFound (key : string)
| ErrNotProcessing (id : string).

#[export] Instance queue_error_eq_dec : EqDecision queue_error.
Proof. solve_decision. Defined.

(** The group of a key, created from its resolved configuration if need be. *)
Definition group_or_new (key : string) (q : Queue) : group :=
  match GetGroup key q with Some g => g | None => newGroup (resolveConfig key q) end.

Definition depth_exceeded (g : group) : bool :=
  (0 <? MaxPending (cfg g)) && (MaxPending (cfg g) <=? pendingCount g).

(** [generated] is the identifier [newID] returns to [newMessageAt]; the depth
    check comes after the new group is stored in its shard, and the key is
    indexed after the shard is unlocked. *)
Definition publish (generated : string) (override : option string) (now : Z)
    (groupKey : string) (payload : list byte) (q : Queue) : Queue * (Message + queue_error) :=
  let isNew := match GetGroup groupKey q with Some _ => false | None => true end in
  let g := group_or_new groupKey q in
  if depth_exceeded g
  then (put_group groupKey g q, inr (ErrDepth groupKey (MaxPending (cfg g))))
  else
    let msg := newMessageAt generated (Name q) (q_Namespace q) groupKey payload now in
    let msg := match override with Some id => set_ID id msg | None => msg end in
    let q := put_group groupKey (enqueue msg g) q in
    (if isNew then set_keyIdx (add groupKey (keyIdx q)) q else q, inl msg).

Definition PublishWithID (generated : string) (now : Z) (groupKey msgID : string) (payload : list byte)
    (q : Queue) : Queue * (Message + queue_error) :=
  publish generated (Some msgID) now groupKey payload q.
Definition Publish (generated : string) (now : Z) (groupKey : string) (payload : list byte)
    (q : Queue) : Queue * (Message + queue_error) :=
  publish generated None now groupKey payload q.

(** ** Leases *)

Definition ReturnToPending (groupKey msgID : string) (q : Queue) : Queue :=
  (with_group groupKey (returnToPending msgID) false q).1.

Definition Complete (groupKey msgID : string) (q : Queue) : Queue * option queue_error :=
  with_group groupKey
    (λ g, let '(g, r) := complete msgID g in
          (g, match r with Some _ => None | None => Some (ErrNotProcessing msgID) end))
    (Some (ErrGroupNotFound groupKey)) q.

(** [g.promoteDelayed(now); return g.next(now)] *)
Definition promote_and_next (ord : range_order Message) (now : Z) (g : group)
    : group * outcome (option Message) :=
  next now (promoteDelayed ord now g).1.

Definition CompleteAndNext (ord : range_order Message) (groupKey msgID : string) (now : Z) (q : Queue)
    : Queue * outcome (option Message) :=
  with_group groupKey (λ g, promote_and_next ord now (complete msgID g).1) (Ret None) q.

Definition TryDispatchOne (ord : range_order Message) (groupKey : string) (now : Z) (q : Queue)
    : Queue * outcome (option Message) :=
  with_group groupKey (promote_and_next ord now) (Ret None) q.

(** [if dlq != nil && g.cfg.DLQ != nil { return g.cfg.DLQ.Queue, dlq }] *)
Definition dlq_target (g : group) (dlq : option Message) : string * option Message :=
  match dlq, DLQ (cfg g) with
  | Some m, Some d => (dlq_Queue d, Some m)
  | _, _ => ("", None)
  end.

Definition Fail (groupKey msgID errMsg : string) (now : Z) (q : Queue)
    : Queue * ((string * option Message) + queue_error) :=
  with_group groupKey
    (λ g, let '(g, dlq) := fail msgID errMsg now g in (g, inl (dlq_target g dlq)))
    (inr (ErrGroupNotFound groupKey)) q.

Definition FailAndNext (ord : range_order Message) (groupKey msgID errMsg : string) (now : Z) (q : Queue)
    : Queue * outcome (string * option Message * option Message) :=
  with_group groupKey
    (λ g, let '(g, dlq) := fail msgID errMsg now g in
          let t := dlq_target g dlq in
          let '(g, o) := promote_and_next ord now g in
          (g, outcome_map (λ m, (t, m)) o))
    (Ret ("", None, None)) q.

Definition drainGroup (ord : range_order Message) (groupKey : string) (now : Z) (q : Queue)
    : Queue * outcome drained :=
  with_group groupKey (drainRound ord now) (Ret (mkDrained None zero_time false false)) q.
Definition DrainGroup := drainGroup.

(** One group of the lease sweep: collect the expired identifiers, then return
    each to pending. *)
Definition sweep_group (ord : range_order Message) (now : Z) (g : group) : group * list string :=
  let ids := omap (λ kv, if After now (ScheduledAt kv.2) then Some kv.1 else None)
               (range_of ord (map_entries (processing g))) in
  (foldl (λ g id, (returnToPending id g).1) g ids, ids).

Record ExpiredLease := mkExpiredLease {
  el_Namespace : string; el_QueueName : string; el_GroupKey : string; el_MsgID : string;
}.

(** Groups are updated in place, one after the other; the result lists them in
    the order the shards and maps are visited. *)
Definition SweepExpiredLeases (ordg : range_order group) (ord : range_order Message) (now : Z) (q : Queue)
    : Queue * list ExpiredLease :=
  (set_shards ((λ sh : gmap string group, (λ g, (sweep_group ord now g).1) <$> sh) <$> shards q) q,
   concat ((λ sh, concat ((λ kv : string * group,
     (λ id, mkExpiredLease (q_Namespace q) (Name q) (Key (cfg kv.2)) id)
       <$> (sweep_group ord now kv.2).2) <$> range_of ordg sh)) <$> shards q)).

(** ** Replay of the log *)

(** The first slot from [head] on that holds the message. *)
Fixpoint find_slot (id : string) (head i : nat) (slots : list (option Message)) : option (nat * Message) :=
  match slots with
  | [] => None
  | slot :: slots =>
      match slot with
      | Some m =>
          if (head <=? i)%nat && bool_decide (ID m = id) then Some (i, m)
          else find_slot id head (S i) slots
      | None => find_slot id head (S i) slots
      end
  end.

(** The lease of a message found in a slot that has just been cleared. *)
Definition lease_found (now : Z) (m : Message) (g : group) : group * outcome bool :=
  let m := set_ScheduledAt (now + LeaseTimeout (cfg g)) (set_State StateProcessing m) in
  match map_put (ID m) m (processing g) with
  | Some p => (set_processing p g, Ret true)
  | None => (g, Panic)
  end.

Definition replay_lease (msgID : string) (now : Z) (g : group) : group * outcome bool :=
  match find_slot msgID (urgentHead g) 0 (urgent g) with
  | Some (i, m) => lease_found now m (set_urgent (<[i := None]> (urgent g)) (urgentHead g) g)
  | None =>
      match find_slot msgID (readyHead g) 0 (ready g) with
      | Some (i, m) => lease_found now m (set_ready (<[i := None]> (ready g)) (readyHead g) g)
      | None => (g, Ret false)
      end
  end.

Definition ReplayLease (groupKey msgID : string) (now : Z) (q : Queue) : Queue * outcome bool :=
  with_group groupKey (replay_lease msgID now) (Ret false) q.

Definition remove_message (msgID : string) (g : group) : group * bool :=
  match find_slot msgID (urgentHead g) 0 (urgent g) with
  | Some (i, _) => (set_urgent (<[i := None]> (urgent g)) (urgentHead g) g, true)
  | None =>
      match find_slot msgID (readyHead g) 0 (ready g) with
      | Some (i, _) => (set_ready (<[i := None]> (ready g)) (readyHead g) g, true)
      | None =>
          match map_get (processing g) msgID with
          | Some _ => (set_processing (map_del msgID (processing g)) g, true)
          | None => (g, false)
          end
      end
  end.

Definition RemoveMessage (groupKey msgID : string) (q : Queue) : Queue * bool :=
  with_group groupKey (remove_message msgID) false q.

(** ** Scheduling tokens *)

(** The atomics of a group that the scheduler may touch. *)
Definition TrySchedule (g : group) : group * bool :=
  if isScheduled g =? 0 then (set_isScheduled 1 g, true) else (g, false).
Definition Unschedule (g : group) : group := set_isScheduled 0 g.
Definition LoadWake (g : group) : Z := wakeScheduledAt g.
Definition TrySetWake (curr next : Z) (g : group) : group * bool :=
  if wakeScheduledAt g =? curr then (set_wakeScheduledAt next g, true) else (g, false).
Definition ClearWake (expected : Z) (g : group) : group :=
  if wakeScheduledAt g =? expected then set_wakeScheduledAt 0 g else g.

(** ** Snapshots *)

Record QueueState := mkQueueState {
  qs_Name : string; qs_Namespace : string; qs_Groups : gmap string GroupState;
}.

Definition ExportState (q : Queue) : QueueState :=
  mkQueueState (Name q) (q_Namespace q)
    (foldl (λ acc sh, (group_ExportState <$> sh) ∪ acc) ∅ (shards q)).

(** One group of [ImportState]; the quantum is restored, the rest of the
    configuration is resolved anew. *)
Definition import_group (gs : GroupState) (q : Queue) : Queue :=
  let c := cfg_set_Key (gs_Key gs) (cfg_set_Parallelism (gs_Parallelism gs) (resolveConfig (gs_Key gs) q)) in
  let g := group_ImportState gs (newGroup c) in
  put_group (gs_Key gs) (set_quantum (gs_Quantum gs) g) q.

Definition ImportState (ord : range_order GroupState) (st : QueueState) (q : Queue) : Queue :=
  let entries := (range_of ord (qs_Groups st)).*2 in
  let q := foldl (λ q gs, import_group gs q) q entries in
  set_keyIdx (mkKeyIndex (sort_strings (gs_Key <$> entries))) q.

(** ** The declaration store *)

Definition queueKey (namespace name : string) : string := namespace +:+ "/" +:+ name.

Record QueueSpec := mkQueueSpec { sp_Name : string; sp_Namespace : string; sp_Groups : list GroupConfig }.

Definition InMemoryStore : Type := gmap string QueueSpec.
Definition NewInMemoryStore : InMemoryStore := ∅.
Definition SaveQueue (sp : QueueSpec) (s : InMemoryStore) : InMemoryStore :=
  <[queueKey (sp_Namespace sp) (sp_Name sp) := sp]> s.
Definition LoadQueues (ord : range_order QueueSpec) (s : InMemoryStore) : list QueueSpec :=
  (range_of ord s).*2.
Definition DeleteQueue (namespace name : string) (s : InMemoryStore) : InMemoryStore :=
  delete (queueKey namespace name) s.

(** ** A first run *)

Example hash_key : HashKey "a" = 3826002220 ∧ shard_idx "a" = 12%nat.
Proof. by vm_compute. Qed.

Example publish_dispatch_complete :
  let q := NewQueue "jobs" "default" in
  let q := (Publish "id1" 0 "t1" [] q).1 in
  let '(q, o) := TryDispatchOne list_order "t1" 0 q in
  let '(q, e) := Complete "t1" "id1" q in
  (ID <$> (match o with Ret m => m | Panic => None end), e, GetGroupStats "t1" q, (PageGroupStats "" 10 q).2)
  = (Some "id1", None, Some (mkGroupStats "t1" 0 0), "").
Proof. vm_compute. reflexivity. Qed.
