(* ===== verification/QueueInv.v ===== *)
(** * Queue: refinement to a flat map, invariant, and the properties of the
      queue operations

    The 32 hash shards of src/internal/queue/queue.go refine one finite map
    from group key to group ([flat]); every operation keeps [queue_wf] and acts
    on that map as its name says. *)

From stdpp Require Import base gmap list strings sorting fin_maps.
From Stdlib Require Import ZArith Lia Strings.Byte.
From S2P Require Import Prelude Heap Message RateLimit PathMatch Group GroupInv GroupDrain GroupSettle KeyIndex ConfigIdx Queue.
Local Open Scope Z_scope.

(** ** Shards *)

Definition flat (q : Queue) : gmap string group := foldr (∪) ∅ (shards q).

Record shards_wf (q : Queue) : Prop := {
  sw_count : length (shards q) = queueShardCount;
  sw_home : ∀ i sh k g, shards q !! i = Some sh → sh !! k = Some g → shard_idx k = i;
}.

Lemma shard_idx_lt key : (shard_idx key < queueShardCount)%nat.
Proof.
  unfold shard_idx, queueShardCount.
  change (Z.of_nat 32 - 1) with (Z.ones 5). rewrite Z.land_ones by lia.
  pose proof (Z.mod_pos_bound (HashKey key) (2 ^ 5) ltac:(lia)). lia.
Qed.

Lemma union_lookup_home (l : list (gmap string group)) i k :
  (∀ j sh, l !! j = Some sh → j ≠ i → sh !! k = None) →
  (foldr (∪) ∅ l : gmap string group) !! k = match l !! i with Some sh => sh !! k | None => None end.
Proof.
  revert i. induction l as [|sh l IH]; intros i H; simpl; [by rewrite lookup_empty|].
  rewrite lookup_union. destruct i as [|i]; simpl.
  - assert ((foldr (∪) ∅ l : gmap string group) !! k = None) as ->; [|by destruct (sh !! k)].
    rewrite (IH (length l)).
    + by rewrite lookup_ge_None_2.
    + intros j sh' Hj _. by apply (H (S j)).
  - rewrite (H 0%nat sh eq_refl ltac:(lia)), (IH i); [by destruct (l !! i) as [m|]; [destruct (m !! k)|]|].
    intros j sh' Hj Hne. apply (H (S j)); [done|lia].
Qed.

Lemma flat_lookup q k : shards_wf q → flat q !! k = GetGroup k q.
Proof.
  intros Hw. unfold flat, GetGroup. rewrite (union_lookup_home _ (shard_idx k)); [done|].
  intros j sh Hj Hne. apply eq_None_not_Some. intros [g Hg].
  apply Hne. symmetry. by eapply (sw_home q Hw).
Qed.

Lemma put_group_wf k g q : shards_wf q → shards_wf (put_group k g q).
Proof.
  intros [Hc Hh]. split; simpl.
  - by rewrite length_alter.
  - intros i sh k' g'. rewrite list_lookup_alter. case_decide as Hi; [|by apply Hh].
    subst i. destruct (shards q !! shard_idx k) as [sh0|] eqn:E; simpl; [|done].
    intros [= <-] [[-> _]|[_ Hk']]%lookup_insert_Some; [done|]. by eapply Hh.
Qed.

Lemma GetGroup_put k g q k' :
  shards_wf q → GetGroup k' (put_group k g q) = if decide (k' = k) then Some g else GetGroup k' q.
Proof.
  intros [Hc _]. unfold GetGroup, put_group. simpl. rewrite list_lookup_alter.
  destruct (lookup_lt_is_Some_2 (shards q) (shard_idx k)) as [sh Hsh].
  { rewrite Hc. apply shard_idx_lt. }
  case_decide as Hi.
  - rewrite <-Hi, Hsh. simpl. case_decide as Hk; [subst; apply lookup_insert_eq|].
    by rewrite lookup_insert_ne.
  - rewrite decide_False; [done|]. congruence.
Qed.

Lemma flat_put k g q : shards_wf q → flat (put_group k g q) = <[k := g]> (flat q).
Proof.
  intros Hw. apply map_eq. intros k'. rewrite flat_lookup by (by apply put_group_wf).
  rewrite GetGroup_put by done. destruct (decide (k' = k)) as [->|Hne].
  - by rewrite lookup_insert_eq.
  - by rewrite lookup_insert_ne, flat_lookup.
Qed.

(** A map over every group of every shard. *)
Definition map_groups (f : string → group → group) (q : Queue) : Queue :=
  set_shards ((λ sh : gmap string group, map_imap (λ k g, Some (f k g)) sh) <$> shards q) q.

Lemma GetGroup_map f q k : GetGroup k (map_groups f q) = f k <$> GetGroup k q.
Proof.
  unfold GetGroup, map_groups. simpl. rewrite list_lookup_fmap.
  destruct (shards q !! shard_idx k) as [sh|]; simpl; [|done].
  rewrite map_lookup_imap. by destruct (sh !! k).
Qed.

Lemma map_groups_wf f q : shards_wf q → shards_wf (map_groups f q).
Proof.
  intros [Hc Hh]. split; simpl.
  - by rewrite length_fmap.
  - intros i sh k g. rewrite list_lookup_fmap. destruct (shards q !! i) as [sh0|] eqn:E; simpl; [|done].
    intros [= <-]. rewrite map_lookup_imap. destruct (sh0 !! k) as [g0|] eqn:Eg; simpl; [|done].
    intros _. by eapply Hh.
Qed.

Lemma GetGroup_new name ns k : GetGroup k (NewQueue name ns) = None.
Proof.
  unfold GetGroup, NewQueue. cbn [shards].
  rewrite (lookup_replicate_2 _ _ (shard_idx k)) by apply shard_idx_lt. apply lookup_empty.
Qed.

(** ** Invariant *)

Record queue_wf (q : Queue) : Prop := {
  qw_shards : shards_wf q;
  qw_group : ∀ k g, GetGroup k q = Some g → group_wf g ∧ Key (cfg g) = k;
  qw_cfg : cfg_wf (cfgIdx q);
  qw_cfg_ok : ∀ k c, get k (cfgIdx q) = Some c → config_ok c;
  qw_idx : idx_wf (keyIdx q);
  qw_keys : ∀ k, k ∈ keys (keyIdx q) ↔ is_Some (GetGroup k q);
}.

Lemma NewQueue_wf name ns : queue_wf (NewQueue name ns).
Proof.
  constructor.
  - split; [apply length_replicate|]. intros i sh k g [-> _]%lookup_replicate. by rewrite lookup_empty.
  - intros k g. by rewrite GetGroup_new.
  - apply newConfigIdx_wf.
  - intros k c. unfold get. simpl. by rewrite lookup_empty.
  - constructor.
  - intros k. rewrite GetGroup_new. simpl. rewrite elem_of_nil. split; [done|by intros [? ?]].
Qed.

(** An operation on one existing group. *)
Lemma with_group_wf {A} k (f : group → group * A) d q :
  queue_wf q →
  (∀ g, GetGroup k q = Some g → group_wf g → group_wf (f g).1 ∧ Key (cfg (f g).1) = Key (cfg g)) →
  queue_wf (with_group k f d q).1.
Proof.
  intros [Hs Hg Hc Hco Hi Hk] Hf. unfold with_group.
  destruct (GetGroup k q) as [g|] eqn:E; [|by constructor].
  destruct (Hg k g E) as [Hwf Hkey]. destruct (Hf g eq_refl Hwf) as [Hwf' Hkey'].
  destruct (f g) as [g' a] eqn:Ef. simpl in *.
  constructor; simpl; try done.
  - by apply put_group_wf.
  - intros k' g0. rewrite GetGroup_put by done. case_decide as Hkk; [|auto].
    intros [= <-]. split; [done|]. congruence.
  - intros k'. rewrite Hk, GetGroup_put by done. case_decide as Hkk; [|done].
    subst. rewrite E. split; by eexists.
Qed.

Lemma with_group_flat {A} k (f : group → group * A) d q :
  shards_wf q →
  flat (with_group k f d q).1 =
    match flat q !! k with Some g => <[k := (f g).1]> (flat q) | None => flat q end ∧
  (with_group k f d q).2 = match flat q !! k with Some g => (f g).2 | None => d end.
Proof.
  intros Hw. rewrite flat_lookup by done. unfold with_group.
  destruct (GetGroup k q) as [g|]; [|done]. destruct (f g) as [g' a]. simpl.
  by rewrite flat_put.
Qed.

(** ** Configuration *)

Lemma resolveConfig_ok k q : queue_wf q → config_ok (resolveConfig k q) ∧ Key (resolveConfig k q) = k.
Proof.
  intros Hwf. unfold resolveConfig, resolve.
  destruct (exact (cfgIdx q) !! k) as [c|] eqn:E.
  - split; [|by apply (cw_exact _ (qw_cfg q Hwf)) in E as [? _]].
    apply (qw_cfg_ok q Hwf k). unfold get. by rewrite E.
  - destruct (List.find _ _) as [w|] eqn:Ef; [|done].
    apply List.find_some in Ef as [Hin _]. apply list_elem_of_In in Hin.
    split; [|done]. change (config_ok w). apply (qw_cfg_ok q Hwf (Key w)), elem_of_list_configs; [apply Hwf|].
    rewrite list_configs_perm. apply elem_of_app. by right.
Qed.

Lemma reconfigure_wf c g : group_wf g → group_wf (reconfigure c g).
Proof. by intros []. Qed.

Lemma set_cfgIdx_wf ci q :
  queue_wf q → cfg_wf ci → (∀ k c, get k ci = Some c → config_ok c) → queue_wf (set_cfgIdx ci q).
Proof.
  intros [Hs Hg Hc Hco Hi Hk] Hw Hok. constructor; try done.
  by destruct Hs; constructor.
Qed.

Lemma map_groups_queue_wf f q :
  queue_wf q → (∀ k g, group_wf g → Key (cfg g) = k → group_wf (f k g) ∧ Key (cfg (f k g)) = k) →
  queue_wf (map_groups f q).
Proof.
  intros [Hs Hg Hc Hco Hi Hk] Hf. constructor; try done.
  - by apply map_groups_wf.
  - intros k g. rewrite GetGroup_map. destruct (GetGroup k q) as [g0|] eqn:E; simpl; [|done].
    intros [= <-]. destruct (Hg k g0 E). auto.
  - intros k. rewrite GetGroup_map, fmap_is_Some. apply Hk.
Qed.

Definition normal_quantum (c : GroupConfig) : GroupConfig :=
  if Quantum c <=? 0 then cfg_set_Quantum 1 c else c.

Lemma normal_quantum_Key c : Key (normal_quantum c) = Key c.
Proof. unfold normal_quantum. by destruct (Quantum c <=? 0). Qed.
Lemma normal_quantum_ok c : config_ok c → config_ok (normal_quantum c).
Proof. unfold normal_quantum. by destruct (Quantum c <=? 0). Qed.

(** The two branches of [SetGroupConfig] as one map over the groups. *)
Definition takes_config (c : GroupConfig) (k : string) : bool :=
  if isGlobPattern (Key c) then Matches c k else bool_decide (k = Key c).

Lemma SetGroupConfig_spec c q :
  queue_wf q → config_ok c →
  queue_wf (SetGroupConfig c q) ∧
  (∀ k, GetGroupConfig k (SetGroupConfig c q) =
    if decide (k = Key c) then Some (normal_quantum c) else GetGroupConfig k q) ∧
  ∀ k, GetGroup k (SetGroupConfig c q) =
    (λ g, if takes_config c k then reconfigure (cfg_set_Key k (normal_quantum c)) g else g)
    <$> GetGroup k q.
Proof.
  intros Hwf Hok. unfold SetGroupConfig. fold (normal_quantum c). set (c' := normal_quantum c).
  pose proof (normal_quantum_Key c) as HK. fold c' in HK.
  set (q1 := set_cfgIdx (set c' (cfgIdx q)) q).
  assert (queue_wf q1) as Hwf1.
  { apply set_cfgIdx_wf; [done|apply set_wf, Hwf|]. intros k0 c0. rewrite get_set by apply Hwf.
    case_decide; [intros [= <-]; by apply normal_quantum_ok|apply (qw_cfg_ok q Hwf)]. }
  assert (∀ k, get k (cfgIdx q1) = if decide (k = Key c) then Some c' else get k (cfgIdx q)) as Hget
    by (intros k; unfold q1; simpl; rewrite get_set by apply Hwf; by rewrite HK).
  unfold takes_config. rewrite HK.
  destruct (isGlobPattern (Key c)) eqn:Eg.
  - change (set_shards _ q1) with
      (map_groups (λ k g, if Matches c' k then reconfigure (cfg_set_Key k c') g else g) q1).
    assert (∀ k, Matches c' k = Matches c k) as HM by (intros k; unfold Matches; by rewrite HK).
    split; [|split; [done|]].
    + apply map_groups_queue_wf; [done|]. intros k g Hg Hk.
      destruct (Matches c' k); [|done]. split; [by apply reconfigure_wf|done].
    + intros k. rewrite GetGroup_map. change (GetGroup k q1) with (GetGroup k q). by rewrite HM.
  - split; [|split].
    + apply with_group_wf; [done|]. intros g Hg Hgw. simpl. split; [by apply reconfigure_wf|].
      destruct (qw_group q1 Hwf1 (Key c) g Hg) as [_ ->]. done.
    + intros k. rewrite <-Hget. unfold with_group. by destruct (GetGroup (Key c) q1).
    + intros k. unfold with_group. change (GetGroup (Key c) q1) with (GetGroup (Key c) q).
      destruct (GetGroup (Key c) q) as [g|] eqn:E; simpl.
      * rewrite GetGroup_put by apply Hwf1. case_decide as Hk.
        { subst k. rewrite E, bool_decide_true by done. simpl. do 2 f_equal.
          rewrite <-HK. by destruct c'. }
        rewrite bool_decide_false by done. change (GetGroup k q1) with (GetGroup k q).
        by destruct (GetGroup k q).
      * change (GetGroup k q1) with (GetGroup k q).
        case_bool_decide as Hk; [subst; by rewrite E|]. by destruct (GetGroup k q).
Qed.

(** ** Publishing *)

Lemma depth_new c : depth_exceeded (newGroup c) = false.
Proof. unfold depth_exceeded. simpl. change (pendingCount (newGroup c)) with 0.
  destruct (Z.ltb_spec 0 (MaxPending c)); simpl; [|done]. apply Z.leb_gt. lia. Qed.

Lemma put_same k g q : GetGroup k q = Some g → put_group k g q = q.
Proof.
  unfold GetGroup, put_group. destruct (shards q !! shard_idx k) as [sh|] eqn:E; [|done].
  intros Hk. destruct q as [n ns ci shs ki]. unfold set_shards. simpl in *. f_equal.
  apply list_eq. intros i. rewrite list_lookup_alter. case_decide as Hi; [|done]. subst i.
  rewrite E. simpl. by rewrite insert_id.
Qed.

Definition published (generated : string) (override : option string) (now : Z) (k : string)
    (payload : list byte) (q : Queue) : Message :=
  newMessageAt (default generated override) (Name q) (q_Namespace q) k payload now.

Lemma group_or_new_wf k q :
  queue_wf q → group_wf (group_or_new k q) ∧ Key (cfg (group_or_new k q)) = k.
Proof.
  intros Hwf. unfold group_or_new. destruct (GetGroup k q) as [g|] eqn:E.
  - by apply (qw_group q Hwf).
  - destruct (resolveConfig_ok k q Hwf). split; [by apply newGroup_wf|done].
Qed.

Lemma publish_full gen ov now k p q :
  queue_wf q → depth_exceeded (group_or_new k q) = true →
  publish gen ov now k p q = (q, inr (ErrDepth k (MaxPending (cfg (group_or_new k q))))).
Proof.
  intros Hwf Hd. unfold publish. rewrite Hd. unfold group_or_new in *.
  destruct (GetGroup k q) as [g|] eqn:E; [by rewrite put_same|].
  by rewrite depth_new in Hd.
Qed.

Lemma publish_accepted gen ov now k p q :
  queue_wf q → depth_exceeded (group_or_new k q) = false →
  default gen ov ∉ group_ids (group_or_new k q) →
  ∃ q', publish gen ov now k p q = (q', inl (published gen ov now k p q)) ∧ queue_wf q' ∧
    flat q' = <[k := enqueue (published gen ov now k p q) (group_or_new k q)]> (flat q) ∧
    cfgIdx q' = cfgIdx q.
Proof.
  intros Hwf Hd Hni. unfold publish. rewrite Hd.
  set (msg := match ov with Some id => _ | None => _ end).
  assert (msg = published gen ov now k p q) as -> by (unfold msg, published; by destruct ov).
  destruct (group_or_new_wf k q Hwf) as [Hg HK].
  set (m := published gen ov now k p q). set (g' := enqueue m (group_or_new k q)).
  assert (group_wf g') as Hg' by (by apply enqueue_wf).
  assert (Key (cfg g') = k) as HK' by done.
  pose proof (flat_put k g' q (qw_shards q Hwf)) as Hflat.
  pose proof (put_group_wf k g' q (qw_shards q Hwf)) as Hsw.
  assert (∀ k0 g0, GetGroup k0 (put_group k g' q) = Some g0 → group_wf g0 ∧ Key (cfg g0) = k0) as Hgr.
  { intros k0 g0. rewrite GetGroup_put by apply Hwf. case_decide as Hk; [|apply Hwf].
    intros [= Heq]. rewrite <-Heq, Hk. done. }
  destruct (GetGroup k q) as [g|] eqn:E.
  - eexists. split; [done|]. split; [|done]. destruct Hwf as [Hs Hg0 Hc Hco Hi Hk].
    constructor; try done. intros k0. simpl. rewrite Hk, GetGroup_put by done.
    case_decide as Hkk; [rewrite Hkk, E; split; by eexists|done].
  - eexists. split; [done|]. split; [|done]. destruct Hwf as [Hs Hg0 Hc Hco Hi Hk].
    constructor; try done.
    + by destruct Hsw; constructor.
    + by apply add_wf.
    + intros k0. simpl. rewrite elem_of_add, Hk.
      change (GetGroup k0 (set_keyIdx _ _)) with (GetGroup k0 (put_group k g' q)).
      rewrite GetGroup_put by done. case_decide as Hk0; [split; [by eexists|by left]|].
      split; [by intros [?|?]|by right].
Qed.

(** Publishing.  A message is refused exactly when its group has a depth
    limit and already holds that many pending messages, and then nothing
    changes; otherwise it is put at the end of its group's queue, the group
    being created from its resolved configuration and indexed if it is new;
    every other group is left alone, and the queue stays well formed. *)
Theorem publish_spec gen ov now k p q :
  queue_wf q → default gen ov ∉ group_ids (group_or_new k q) →
  let g := group_or_new k q in
  let m := published gen ov now k p q in
  if (0 <? MaxPending (cfg g)) && (MaxPending (cfg g) <=? pendingCount g)
  then publish gen ov now k p q = (q, inr (ErrDepth k (MaxPending (cfg g))))
  else ∃ q', publish gen ov now k p q = (q', inl m) ∧ queue_wf q' ∧
    dispatch_order (enqueue m g) = dispatch_order g ++ [m] ∧
    flat q' = <[k := enqueue m g]> (flat q) ∧ k ∈ keys (keyIdx q').
Proof.
  intros Hwf Hni g m. fold (depth_exceeded g). destruct (depth_exceeded g) eqn:Hd.
  - by apply publish_full.
  - destruct (publish_accepted gen ov now k p q Hwf Hd Hni) as (q' & Heq & Hwf' & Hfl & _).
    exists q'. split_and!; try done.
    + apply enqueue_order. by apply (wf_heads g), group_or_new_wf.
    + apply (qw_keys q' Hwf'). rewrite <-flat_lookup by apply Hwf'. rewrite Hfl, lookup_insert_eq.
      by eexists.
Qed.

(** A queue with one group of four messages. *)
Definition sample_queue : Queue :=
  foldl (λ q id, (Publish id 0 "g" [] q).1) (NewQueue "jobs" "ns") ["a"; "b"; "c"; "d"].

Lemma publish_wf gen ov now k p q :
  queue_wf q → default gen ov ∉ group_ids (group_or_new k q) → queue_wf (publish gen ov now k p q).1.
Proof.
  intros Hwf Hni. destruct (depth_exceeded (group_or_new k q)) eqn:Hd.
  - by rewrite publish_full.
  - destruct (publish_accepted gen ov now k p q Hwf Hd Hni) as (q' & -> & Hwf' & _). done.
Qed.

Lemma sample_queue_wf : queue_wf sample_queue.
Proof.
  unfold sample_queue. cbn [foldl].
  do 4 (apply publish_wf; [|by_eval]). apply NewQueue_wf.
Qed.

Lemma publish_spec_witness :
  let q := sample_queue in
  let g := group_or_new "g" q in
  let m := published "e" None 7 "g" [] q in
  (queue_wf q ∧ default "e" None ∉ group_ids g) ∧
  if (0 <? MaxPending (cfg g)) && (MaxPending (cfg g) <=? pendingCount g)
  then publish "e" None 7 "g" [] q = (q, inr (ErrDepth "g" (MaxPending (cfg g))))
  else ∃ q', publish "e" None 7 "g" [] q = (q', inl m) ∧ queue_wf q' ∧
    dispatch_order (enqueue m g) = dispatch_order g ++ [m] ∧
    flat q' = <["g" := enqueue m g]> (flat q) ∧ "g" ∈ keys (keyIdx q').
Proof.
  assert (default "e" None ∉ group_ids (group_or_new "g" sample_queue)) as Hni by by_eval.
  split; [split; [apply sample_queue_wf|exact Hni]|].
  exact (publish_spec "e" None 7 "g" [] sample_queue sample_queue_wf Hni).
Defined.
