(* ===== verification/QueueHist.v ===== *)
(** * Histories of queue operations (src/internal/queue/queue.go)

    Every operation a running broker performs on a queue, as one labelled step,
    and what holds after any sequence of them: the invariant, no panic, and the
    account of every message published. *)

From stdpp Require Import base gmap list strings sorting fin_maps.
From Stdlib Require Import ZArith Lia Strings.Byte.
From S2P Require Import Prelude Heap Message RateLimit PathMatch Group GroupInv GroupDrain GroupSettle KeyIndex ConfigIdx Queue QueueInv.
Local Open Scope Z_scope.

(** ** Sequences of group steps *)

Inductive gsteps (g : group) : list event → group → Prop :=
| gs_nil : gsteps g [] g
| gs_snoc ev g1 ev' g2 : gsteps g ev g1 → gstep g1 ev' g2 → gsteps g (ev ++ ev') g2.

Record steps_post (g : group) (ev : list event) (g' : group) : Prop := {
  ss_wf : group_wf g';
  ss_cfg : cfg g' = cfg g;
  ss_ids : group_ids g ++ enqueued ev ≡ₚ group_ids g' ++ completed ev ++ dead ev;
}.

Lemma gsteps_post g ev g' : group_wf g → gsteps g ev g' → steps_post g ev g'.
Proof.
  intros Hwf. induction 1 as [|ev g1 ev' g2 Hs [Hwf1 Hc1 Hi1] Hst].
  { constructor; [done|done|by rewrite !app_nil_r]. }
  destruct (gstep_post g1 ev' g2 Hwf1 Hst) as [Hwf2 Hc2 Hi2 _].
  constructor; [done|congruence|].
  rewrite enqueued_app, completed_app, dead_app, app_assoc, Hi1.
  transitivity ((group_ids g1 ++ enqueued ev') ++ completed ev ++ dead ev); [solve_Permutation|].
  rewrite Hi2. solve_Permutation.
Qed.

Lemma gsteps_one g ev g' : gstep g ev g' → gsteps g ev g'.
Proof. apply (gs_snoc g [] g ev), gs_nil. Qed.

Definition complete_events (id : string) (g : group) : list event :=
  match map_get (processing g) id with Some _ => [Completed id] | None => [] end.

Lemma gsteps_complete id g : gsteps g (complete_events id g) (complete id g).1.
Proof.
  unfold complete_events. destruct (complete id g) as [g' r] eqn:E. simpl.
  pose proof E as E'. unfold complete in E'. destruct (map_get (processing g) id).
  - injection E' as _ <-. apply gsteps_one. by eapply st_complete.
  - injection E' as <- _. apply gs_nil.
Qed.

Lemma gsteps_fail id e now g : gsteps g (fail_events id g) (fail id e now g).1.
Proof.
  destruct (fail id e now g) as [g' r] eqn:E. apply gsteps_one. by eapply st_fail.
Qed.

Lemma gsteps_return id g : gsteps g [] (returnToPending id g).1.
Proof.
  destruct (returnToPending id g) as [g' r] eqn:E. apply gsteps_one. by eapply st_return.
Qed.

Lemma promote_wf ord now g : group_wf g → group_wf (promoteDelayed ord now g).1.
Proof.
  intros Hwf. destruct (promoteDelayed_post ord now g Hwf) as (g' & w & es & ds & -> & Hp). apply Hp.
Qed.

(** Promotion followed by one dispatch returns. *)
Lemma promote_and_next_steps ord now g ev g0 :
  gsteps g0 ev g → group_wf g →
  ∃ r, (promote_and_next ord now g).2 = Ret r ∧ gsteps g0 ev (promote_and_next ord now g).1.
Proof.
  intros Hs Hwf. unfold promote_and_next.
  destruct (promoteDelayed ord now g) as [g1 w] eqn:E1. simpl.
  pose proof (promote_wf ord now g Hwf) as Hwf1. rewrite E1 in Hwf1. simpl in Hwf1.
  destruct (next now g1) as [g2 o] eqn:E2. pose proof E2 as E3. unfold next in E3.
  destruct (nextDispatchable_spec now g1 Hwf1) as (g' & o' & Heq & _). rewrite Heq in E3.
  injection E3 as <- <-. exists o'.1.1. split; [done|].
  rewrite <-(app_nil_r ev). eapply gs_snoc; [|by eapply st_next].
  rewrite <-(app_nil_r ev). eapply gs_snoc; [done|by eapply st_promote].
Qed.

Lemma drain_steps ord now g :
  group_wf g → ∃ d, (drainRound ord now g).2 = Ret d ∧ gsteps g [] (drainRound ord now g).1.
Proof.
  intros Hwf. destruct (drainRound_post ord now g Hwf)
    as (g1 & w & es & ds & g' & ms & d & _ & Heq & _ & _).
  rewrite Heq. exists d. split; [done|]. apply gsteps_one. by eapply st_drain.
Qed.

(** ** Queue operations on one group *)

Inductive group_op :=
| OpComplete (id : string)
| OpFail (id err : string) (now : Z)
| OpReturn (id : string)
| OpCompleteAndNext (ord : range_order Message) (id : string) (now : Z)
| OpFailAndNext (ord : range_order Message) (id err : string) (now : Z)
| OpTryDispatchOne (ord : range_order Message) (now : Z)
| OpDrain (ord : range_order Message) (now : Z)
| OpTrySchedule
| OpUnschedule
| OpTrySetWake (curr next : Z)
| OpClearWake (expected : Z).

(** The queue after the operation, and whether it returned. *)
Definition run_op (op : group_op) (k : string) (q : Queue) : Queue * bool :=
  match op with
  | OpComplete id => ((Complete k id q).1, true)
  | OpFail id err now => ((Fail k id err now q).1, true)
  | OpReturn id => (ReturnToPending k id q, true)
  | OpCompleteAndNext ord id now => let '(q, o) := CompleteAndNext ord k id now q in (q, is_ret o)
  | OpFailAndNext ord id err now => let '(q, o) := FailAndNext ord k id err now q in (q, is_ret o)
  | OpTryDispatchOne ord now => let '(q, o) := TryDispatchOne ord k now q in (q, is_ret o)
  | OpDrain ord now => let '(q, o) := DrainGroup ord k now q in (q, is_ret o)
  | OpTrySchedule => ((with_group k TrySchedule false q).1, true)
  | OpUnschedule => ((with_group k (λ g, (Unschedule g, ())) () q).1, true)
  | OpTrySetWake curr next => ((with_group k (TrySetWake curr next) false q).1, true)
  | OpClearWake e => ((with_group k (λ g, (ClearWake e g, ())) () q).1, true)
  end.

Definition op_events (op : group_op) (g : group) : list event :=
  match op with
  | OpComplete id | OpCompleteAndNext _ id _ => complete_events id g
  | OpFail id _ _ | OpFailAndNext _ id _ _ => fail_events id g
  | _ => []
  end.

Lemma flags_steps s w g : gsteps g [] (set_isScheduled s (set_wakeScheduledAt w g)).
Proof. apply gsteps_one, st_scheduled. Qed.

Lemma flags_id g : set_isScheduled (isScheduled g) (set_wakeScheduledAt (wakeScheduledAt g) g) = g.
Proof. by destruct g. Qed.

Lemma token_steps g :
  gsteps g [] (TrySchedule g).1 ∧ gsteps g [] (Unschedule g) ∧
  (∀ a b, gsteps g [] (TrySetWake a b g).1) ∧ (∀ e, gsteps g [] (ClearWake e g)).
Proof.
  assert (∀ s w, gsteps g [] (set_isScheduled s (set_wakeScheduledAt w g))) as H by (intros; apply flags_steps).
  pose proof (gs_nil g). split_and!.
  - unfold TrySchedule. destruct (isScheduled g =? 0); [|done].
    specialize (H 1 (wakeScheduledAt g)). by destruct g.
  - specialize (H 0 (wakeScheduledAt g)). by destruct g.
  - intros a b. unfold TrySetWake. destruct (wakeScheduledAt g =? a); [|done].
    specialize (H (isScheduled g) b). by destruct g.
  - intros e. unfold ClearWake. destruct (wakeScheduledAt g =? e); [|done].
    specialize (H (isScheduled g) 0). by destruct g.
Qed.

(** What [run_op] does to the group it names. *)
Definition acts (k : string) (q q' : Queue) (ret : bool) (ev : group → list event) : Prop :=
  match GetGroup k q with
  | None => q' = q ∧ ret = true
  | Some g => ∃ g', q' = put_group k g' q ∧ gsteps g (ev g) g' ∧ ret = true
  end.

Lemma with_group_acts {A} k (f : group → group * A) d q (r : A → bool) ev :
  r d = true →
  (∀ g, GetGroup k q = Some g → gsteps g (ev g) (f g).1 ∧ r (f g).2 = true) →
  acts k q (with_group k f d q).1 (r (with_group k f d q).2) ev.
Proof.
  intros Hd Hf. unfold acts, with_group. destruct (GetGroup k q) as [g|]; [|done].
  destruct (Hf g eq_refl) as [H1 H2]. destruct (f g) as [g' a]. by exists g'.
Qed.

Lemma run_op_acts op k q :
  queue_wf q → acts k q (run_op op k q).1 (run_op op k q).2 (op_events op).
Proof.
  intros Hwf.
  assert (∀ g, GetGroup k q = Some g → group_wf g) as Hg by (intros g H; by apply (qw_group q Hwf k)).
  destruct op as [id|id err now|id|ord id now|ord id err now|ord now|ord now| | |a b|e]; cbn [run_op op_events].
  - apply (with_group_acts k _ _ q (λ _, true)); [done|]. intros g E. split; [|done].
    pose proof (gsteps_complete id g). by destruct (complete id g).
  - apply (with_group_acts k _ _ q (λ _, true)); [done|]. intros g E. split; [|done].
    pose proof (gsteps_fail id err now g). by destruct (fail id err now g).
  - apply (with_group_acts k (returnToPending id) false q (λ _, true)); [done|]. intros g E. split; [|done].
    apply gsteps_return.
  - pose proof (with_group_acts k (λ g, promote_and_next ord now (complete id g).1) (Ret None) q
      is_ret (complete_events id) eq_refl) as H.
    unfold CompleteAndNext. destruct (with_group _ _ _ _) as [q' o]. apply H. intros g E.
    pose proof (gsteps_complete id g) as Hs. pose proof (gsteps_post g _ _ (Hg g E) Hs) as [Hw _ _].
    destruct (promote_and_next_steps ord now _ _ g Hs Hw) as (r & -> & H'). done.
  - pose proof (with_group_acts k (λ g, let '(g, dlq) := fail id err now g in
        let t := dlq_target g dlq in
        let '(g, o) := promote_and_next ord now g in (g, outcome_map (λ m, (t, m)) o))
      (Ret ("", None, None)) q is_ret (fail_events id) eq_refl) as H.
    unfold FailAndNext. destruct (with_group _ _ _ _) as [q' o]. apply H. intros g E.
    pose proof (gsteps_fail id err now g) as Hs. pose proof (gsteps_post g _ _ (Hg g E) Hs) as [Hw _ _].
    destruct (fail id err now g) as [g1 dlq]. simpl in *.
    destruct (promote_and_next_steps ord now _ _ g Hs Hw) as (r & Hr & H').
    destruct (promote_and_next ord now g1) as [g2 o2]. simpl in *. by subst.
  - pose proof (with_group_acts k (promote_and_next ord now) (Ret None) q is_ret (λ _, []) eq_refl) as H.
    unfold TryDispatchOne. destruct (with_group _ _ _ _) as [q' o]. apply H. intros g E.
    destruct (promote_and_next_steps ord now g [] g (gs_nil g) (Hg g E)) as (r & -> & H'). done.
  - pose proof (with_group_acts k (drainRound ord now) (Ret (mkDrained None zero_time false false)) q
      is_ret (λ _, []) eq_refl) as H.
    unfold DrainGroup, drainGroup. destruct (with_group _ _ _ _) as [q' o]. apply H. intros g E.
    destruct (drain_steps ord now g (Hg g E)) as (d & -> & H'). done.
  - apply (with_group_acts k _ _ q (λ _, true)); [done|]. intros g _. split; [apply token_steps|done].
  - apply (with_group_acts k _ () q (λ _, true)); [done|]. intros g _. split; [apply token_steps|done].
  - apply (with_group_acts k _ _ q (λ _, true)); [done|]. intros g _. split; [apply token_steps|done].
  - apply (with_group_acts k _ () q (λ _, true)); [done|]. intros g _. split; [apply token_steps|done].
Qed.

(** ** The lease sweep *)

Lemma return_fold_steps ids g : gsteps g [] (foldl (λ g id, (returnToPending id g).1) g ids).
Proof.
  enough (∀ g0, gsteps g0 [] g → gsteps g0 [] (foldl (λ g id, (returnToPending id g).1) g ids)) as H
    by apply H, gs_nil.
  revert g. induction ids as [|id ids IH]; intros g g0 Hs; [done|]. simpl. apply IH.
  destruct (returnToPending id g) as [g' b] eqn:E. simpl.
  apply (gs_snoc g0 [] g [] g' Hs). by eapply st_return.
Qed.

Lemma sweep_group_steps ord now g : gsteps g [] (sweep_group ord now g).1.
Proof. apply return_fold_steps. Qed.

Lemma Sweep_as_map ordg ord now q :
  (SweepExpiredLeases ordg ord now q).1 = map_groups (λ _ g, (sweep_group ord now g).1) q.
Proof.
  unfold SweepExpiredLeases, map_groups. simpl. f_equal. apply list_fmap_ext. intros _ sh _.
  apply map_eq. intros k. rewrite lookup_fmap, map_lookup_imap. by destruct (sh !! k).
Qed.

(** ** Messages of a queue *)

Definition queue_ids (q : Queue) : list string := concat (group_ids <$> (map_to_list (flat q)).*2).

Definition ids_of (m : gmap string group) : list string := concat (group_ids <$> (map_to_list m).*2).

Lemma ids_of_insert m k g : m !! k = None → ids_of (<[k := g]> m) ≡ₚ group_ids g ++ ids_of m.
Proof. intros Hk. unfold ids_of. by rewrite map_to_list_insert. Qed.

Lemma ids_of_lookup m k g : m !! k = Some g → ids_of m ≡ₚ group_ids g ++ ids_of (delete k m).
Proof. intros Hk. unfold ids_of. by rewrite <-(map_to_list_delete m k g Hk). Qed.

Lemma ids_of_update m k g :
  ids_of (<[k := g]> m) ≡ₚ group_ids g ++ ids_of (delete k m).
Proof.
  rewrite <-insert_delete_eq, ids_of_insert by apply lookup_delete_eq. done.
Qed.

Lemma ids_of_map (f : string → group → group) m :
  (∀ k g, m !! k = Some g → group_ids (f k g) ≡ₚ group_ids g) →
  ids_of (map_imap (λ k g, Some (f k g)) m) ≡ₚ ids_of m.
Proof.
  induction m as [|k g m Hk IH] using map_ind; intros Hf.
  { by rewrite map_imap_empty. }
  rewrite map_imap_insert. rewrite !ids_of_insert; [|done|].
  - rewrite (Hf k g) by apply lookup_insert_eq. rewrite IH; [done|].
    intros k' g' Hk'. apply Hf. rewrite lookup_insert_ne; [done|]. congruence.
  - by rewrite map_lookup_imap, Hk.
Qed.

Lemma flat_map_groups f q :
  shards_wf q → flat (map_groups f q) = map_imap (λ k g, Some (f k g)) (flat q).
Proof.
  intros Hw. apply map_eq. intros k. rewrite flat_lookup by (by apply map_groups_wf).
  rewrite GetGroup_map, map_lookup_imap, flat_lookup by done. by destruct (GetGroup k q).
Qed.

Lemma map_groups_ids f q :
  shards_wf q → (∀ k g, GetGroup k q = Some g → group_ids (f k g) ≡ₚ group_ids g) →
  queue_ids (map_groups f q) ≡ₚ queue_ids q.
Proof.
  intros Hw Hf. unfold queue_ids. rewrite flat_map_groups by done. apply ids_of_map.
  intros k g. rewrite flat_lookup by done. apply Hf.
Qed.

(** ** Steps of a queue *)

Inductive qstep (q : Queue) : list event → Queue → Prop :=
| qs_publish gen ov now k p q' m :
    default gen ov ∉ group_ids (group_or_new k q) →
    publish gen ov now k p q = (q', inl m) → qstep q [Enqueued m] q'
| qs_refused gen ov now k p q' e : publish gen ov now k p q = (q', inr e) → qstep q [] q'
| qs_op op k :
    qstep q (match GetGroup k q with Some g => op_events op g | None => [] end) (run_op op k q).1
| qs_sweep ordg ord now : qstep q [] (SweepExpiredLeases ordg ord now q).1
| qs_set_config c : config_ok c → qstep q [] (SetGroupConfig c q)
| qs_delete_config k : qstep q [] (DeleteGroupConfig k q).1.

Inductive qhistory (name ns : string) : list event → Queue → Prop :=
| qh_new : qhistory name ns [] (NewQueue name ns)
| qh_step h ev q q' : qhistory name ns h q → qstep q ev q' → qhistory name ns (h ++ ev) q'.

Record qstep_post (q : Queue) (ev : list event) (q' : Queue) : Prop := {
  qp_wf : queue_wf q';
  qp_ids : queue_ids q ++ enqueued ev ≡ₚ queue_ids q' ++ completed ev ++ dead ev;
}.

Lemma qstep_quiet q q' : queue_wf q' → queue_ids q' ≡ₚ queue_ids q → qstep_post q [] q'.
Proof. intros. split; [done|]. by rewrite !app_nil_r. Qed.

Lemma publish_post gen ov now k p q q' m :
  queue_wf q → default gen ov ∉ group_ids (group_or_new k q) →
  publish gen ov now k p q = (q', inl m) → qstep_post q [Enqueued m] q'.
Proof.
  intros Hwf Hni Heq. destruct (depth_exceeded (group_or_new k q)) eqn:Hd.
  { rewrite publish_full in Heq by done. discriminate. }
  destruct (publish_accepted gen ov now k p q Hwf Hd Hni) as (q1 & Heq1 & Hwf1 & Hfl & _).
  rewrite Heq1 in Heq. injection Heq as <- <-. split; [done|]. simpl. rewrite app_nil_r.
  unfold queue_ids. rewrite Hfl. fold (ids_of (flat q)). fold (ids_of (<[k := enqueue (published gen ov now k p q) (group_or_new k q)]> (flat q))).
  rewrite ids_of_update, enqueue_ids by (by apply (wf_heads (group_or_new k q)), group_or_new_wf).
  simpl. rewrite Permutation_app_comm. simpl. constructor.
  unfold group_or_new. rewrite <-flat_lookup by apply Hwf.
  destruct (flat q !! k) as [g|] eqn:E.
  - by rewrite (ids_of_lookup _ _ _ E).
  - rewrite newGroup_ids. simpl. by rewrite delete_id.
Qed.

Lemma op_post op k q :
  queue_wf q →
  qstep_post q (match GetGroup k q with Some g => op_events op g | None => [] end) (run_op op k q).1.
Proof.
  intros Hwf. pose proof (run_op_acts op k q Hwf) as Ha. unfold acts in Ha.
  destruct (GetGroup k q) as [g|] eqn:E.
  - destruct Ha as (g' & -> & Hs & _). destruct (qw_group q Hwf k g E) as [Hg HK].
    destruct (gsteps_post g _ g' Hg Hs) as [Hwf' Hc Hids]. split.
    + pose proof (with_group_wf k (λ _, (g', ())) () q Hwf) as H. unfold with_group in H. rewrite E in H.
      apply H. intros g0 [= <-] _. simpl. by rewrite Hc.
    + unfold queue_ids. rewrite flat_put by apply Hwf. rewrite <-flat_lookup in E by apply Hwf.
      fold (ids_of (flat q)). fold (ids_of (<[k := g']> (flat q))).
      rewrite ids_of_update, (ids_of_lookup _ _ _ E).
      transitivity ((group_ids g ++ enqueued (op_events op g)) ++ ids_of (delete k (flat q)));
        [solve_Permutation|]. rewrite Hids. solve_Permutation.
  - destruct Ha as [-> _]. by apply qstep_quiet.
Qed.

Lemma qstep_sound q ev q' : queue_wf q → qstep q ev q' → qstep_post q ev q'.
Proof.
  intros Hwf. destruct 1 as [gen ov now k p q' m Hni Heq|gen ov now k p q' e Heq|op k|ordg ord now|c Hok|k].
  - by eapply publish_post.
  - assert (depth_exceeded (group_or_new k q) = true) as Hd.
    { unfold publish in Heq. by destruct (depth_exceeded (group_or_new k q)). }
    rewrite publish_full in Heq by done. injection Heq as <- _. by apply qstep_quiet.
  - by apply op_post.
  - rewrite Sweep_as_map. apply qstep_quiet.
    + apply map_groups_queue_wf; [done|]. intros k g Hg HK.
      destruct (gsteps_post g [] _ Hg (sweep_group_steps ord now g)) as [Hw Hc _]. by rewrite Hc.
    + apply map_groups_ids; [apply Hwf|]. intros k g E. destruct (qw_group q Hwf k g E) as [Hg _].
      destruct (gsteps_post g [] _ Hg (sweep_group_steps ord now g)) as [_ _ Hi].
      by rewrite !app_nil_r in Hi.
  - destruct (SetGroupConfig_spec c q Hwf Hok) as (Hw & _ & HG). apply qstep_quiet; [done|].
    unfold queue_ids. assert (flat (SetGroupConfig c q) = map_imap (λ k g, Some
      (if takes_config c k then reconfigure (cfg_set_Key k (normal_quantum c)) g else g)) (flat q)) as ->.
    { apply map_eq. intros k. rewrite flat_lookup, HG, map_lookup_imap, flat_lookup by (apply Hw || apply Hwf).
      by destruct (GetGroup k q). }
    apply ids_of_map. intros k g _. by destruct (takes_config c k).
  - unfold DeleteGroupConfig. destruct (del k (cfgIdx q)) as [ci b] eqn:E. simpl.
    pose proof (del_wf k (cfgIdx q) (qw_cfg q Hwf)) as Hd.
    pose proof (λ k', get_del k (cfgIdx q) k' (qw_cfg q Hwf)) as Hgd. rewrite E in Hd, Hgd. simpl in *.
    apply qstep_quiet; [|done]. apply set_cfgIdx_wf; [done|done|].
    intros k' c. rewrite Hgd. case_decide; [done|]. apply (qw_cfg_ok q Hwf).
Qed.

(** ** Theorems *)

Lemma qhistory_post name ns h q :
  qhistory name ns h q →
  queue_wf q ∧ enqueued h ≡ₚ queue_ids q ++ completed h ++ dead h.
Proof.
  induction 1 as [|h ev q q' Hh [Hwf Hcons] Hst].
  { split; [apply NewQueue_wf|]. unfold queue_ids.
    assert (flat (NewQueue name ns) = ∅) as ->; [|done].
    apply map_eq. intros k. rewrite flat_lookup by apply NewQueue_wf. by rewrite GetGroup_new. }
  destruct (qstep_sound q ev q' Hwf Hst) as [Hwf' Hids]. split; [done|].
  rewrite enqueued_app, completed_app, dead_app, Hcons.
  transitivity ((queue_ids q ++ enqueued ev) ++ completed h ++ dead h); [solve_Permutation|].
  rewrite Hids. solve_Permutation.
Qed.

(** C2. Whatever sequence of publishes, dispatches, completions, failures,
    returns, lease sweeps, configuration changes and scheduling flags a queue
    goes through, every message accepted is accounted for exactly once: it is
    in one of the queue's groups, or was completed, or was given up after its
    last attempt; and the queue is well formed. *)
Theorem queue_conservation name ns h q :
  qhistory name ns h q →
  enqueued h ≡ₚ queue_ids q ++ completed h ++ dead h ∧ queue_wf q.
Proof. intros Hh. destruct (qhistory_post name ns h q Hh). done. Qed.

(** A history with a publish, a dispatch, a configuration change and a
    completion. *)
Module QStory.
Definition q1 := (Publish "id1" 0 "t1" [] (NewQueue "jobs" "ns")).1.
Definition q2 := (run_op (OpTryDispatchOne list_order 1) "t1" q1).1.
Definition q3 := SetGroupConfig (cfg_set_Parallelism 4 (defaultGroupConfig "t*")) q2.
Definition q4 := (run_op (OpComplete "id1") "t1" q3).1.
Definition m := published "id1" None 0 "t1" [] (NewQueue "jobs" "ns").

Lemma qtold3 : qhistory "jobs" "ns" [Enqueued m] q3.
Proof.
  apply (qh_step "jobs" "ns" [Enqueued m] [] q2); [|by apply qs_set_config].
  apply (qh_step "jobs" "ns" [Enqueued m] [] q1);
    [|apply (qs_op q1 (OpTryDispatchOne list_order 1) "t1")].
  apply (qh_step "jobs" "ns" [] [Enqueued m] (NewQueue "jobs" "ns")); [constructor|].
  by eapply (qs_publish _ "id1" None 0 "t1" []); [by_eval|vm_compute].
Qed.

Lemma qtold : qhistory "jobs" "ns" [Enqueued m; Completed "id1"] q4.
Proof.
  apply (qh_step "jobs" "ns" [Enqueued m] [Completed "id1"] q3); [apply qtold3|].
  apply (qs_op q3 (OpComplete "id1") "t1").
Qed.
End QStory.

Lemma queue_conservation_witness :
  let h := [Enqueued QStory.m; Completed "id1"] in
  qhistory "jobs" "ns" h QStory.q4 ∧
  enqueued h ≡ₚ queue_ids QStory.q4 ++ completed h ++ dead h ∧ queue_wf QStory.q4.
Proof.
  split; [apply QStory.qtold|].
  apply (queue_conservation "jobs" "ns" [Enqueued QStory.m; Completed "id1"] QStory.q4 QStory.qtold).
Defined.



(** A pattern takes over an exact declaration: after declaring an exact
    configuration for an active group, declaring a pattern that matches its key
    reconfigures the group with the pattern, although resolution still gives
    the exact declaration precedence. *)
Theorem wildcard_overrides_active :
  let exact_cfg := cfg_set_Parallelism 7 (defaultGroupConfig "t1") in
  let wild := cfg_set_Parallelism 2 (defaultGroupConfig "t*") in
  let q := SetGroupConfig wild (SetGroupConfig exact_cfg QStory.q1) in
  qhistory "jobs" "ns" [Enqueued QStory.m] q ∧
  Parallelism (resolveConfig "t1" q) = 7 ∧
  (Parallelism ∘ cfg) <$> GetGroup "t1" q = Some 2.
Proof.
  split; [|by vm_compute].
  apply (qh_step "jobs" "ns" [Enqueued QStory.m] [] (SetGroupConfig (cfg_set_Parallelism 7 (defaultGroupConfig "t1")) QStory.q1));
    [|by apply qs_set_config].
  apply (qh_step "jobs" "ns" [Enqueued QStory.m] [] QStory.q1); [|by apply qs_set_config].
  apply (qh_step "jobs" "ns" [] [Enqueued QStory.m] (NewQueue "jobs" "ns")); [constructor|].
  by eapply (qs_publish _ "id1" None 0 "t1" []); [by_eval|vm_compute].
Qed.

(** A zero parallelism stalls a group: [SetGroupConfig] hands the
    configuration of an active group over as it is, without the defaults a new
    group gets, and with a parallelism of 0 no message is dispatched any more. *)
Theorem zero_parallelism_stalls g c now :
  Parallelism c ≤ 0 → (nextDispatchable now (reconfigure c g)).2 = Ret (None, dispatchStopCapacity, zero_time)
  ∧ (nextDispatchable now (reconfigure c g)).1 = reconfigure c g
  ∧ 1 ≤ Parallelism (cfg (newGroup c)).
Proof.
  intros Hp. unfold nextDispatchable. simpl.
  rewrite !(proj2 (Z.leb_le _ _)) by lia. done.
Qed.

Lemma zero_parallelism_stalls_witness :
  let c := cfg_set_Parallelism 0 (defaultGroupConfig "g") in
  Parallelism c ≤ 0 ∧
  (nextDispatchable 5 (reconfigure c Sample.grp)).2 = Ret (None, dispatchStopCapacity, zero_time)
  ∧ (nextDispatchable 5 (reconfigure c Sample.grp)).1 = reconfigure c Sample.grp
  ∧ 1 ≤ Parallelism (cfg (newGroup c)).
Proof.
  split; [done|].
  apply (zero_parallelism_stalls Sample.grp (cfg_set_Parallelism 0 (defaultGroupConfig "g")) 5). done.
Defined.

(** ** The lease sweep in detail *)

Lemma return_fold_spec now g ids :
  group_wf g → NoDup ids →
  (∀ id, id ∈ ids → ∃ m, map_get (processing g) id = Some m ∧ expired now m) →
  let g' := foldl (λ g id, (returnToPending id g).1) g ids in
  group_wf g' ∧ length (inflight g) = (length ids + length (inflight g'))%nat ∧
  (∀ id, map_get (processing g') id = if decide (id ∈ ids) then None else map_get (processing g) id).
Proof.
  revert g. induction ids as [|id ids IH]; intros g Hwf Hnd Hin; cbn [foldl].
  { split_and!; [done|done|]. intros id. by rewrite decide_False by apply not_elem_of_nil. }
  apply NoDup_cons in Hnd as [Hni Hnd].
  destruct (Hin id ltac:(left)) as (m & Hm & _).
  assert (returnToPending id g = (release id m g, true)) as E by (unfold returnToPending; by rewrite Hm).
  destruct (release_spec g id m Hwf Hm) as (Hwf1 & _ & Hi & _). rewrite E. simpl.
  assert (∀ id', map_get (processing (release id m g)) id' =
    if decide (id' = id) then None else map_get (processing g) id') as Hget.
  { intros id'. unfold release, map_get, map_del. simpl.
    destruct (wf_proc g Hwf) as [p Hp]. rewrite Hp. simpl. case_decide as Hd.
    - subst. apply lookup_delete_eq.
    - by rewrite lookup_delete_ne. }
  destruct (IH (release id m g) Hwf1 Hnd) as (H1 & H2 & H3).
  { intros id' Hid'. destruct (Hin id' ltac:(by right)) as (m' & Hm' & He). exists m'.
    split; [|done]. rewrite Hget, decide_False; [done|]. by intros ->. }
  split_and!; [done| |].
  - rewrite (Permutation_length Hi). simpl. by rewrite H2.
  - intros id'. rewrite H3, Hget. repeat case_decide; set_solver.
Qed.

Lemma sweep_group_ids ord now g id :
  id ∈ (sweep_group ord now g).2 ↔ ∃ m, map_get (processing g) id = Some m ∧ expired now m.
Proof.
  unfold sweep_group. simpl. rewrite list_elem_of_omap. unfold map_get, expired. split.
  - intros ([k m] & Hin & Heq). rewrite range_perm, elem_of_map_to_list in Hin. simpl in *.
    unfold After in Heq. destruct (Z.ltb_spec (ScheduledAt m) now); simplify_eq. eauto.
  - intros (m & Hm & Hlt). exists (id, m). rewrite range_perm, elem_of_map_to_list. split; [done|].
    simpl. unfold After. by rewrite (proj2 (Z.ltb_lt _ _) Hlt).
Qed.

Lemma sweep_ids_nodup ord now g : NoDup (sweep_group ord now g).2.
Proof.
  unfold sweep_group. simpl.
  assert (NoDup (range_of ord (map_entries (processing g))).*1) as H
    by (rewrite range_perm; apply NoDup_fst_map_to_list).
  revert H. generalize (range_of ord (map_entries (processing g))). intros kvs.
  induction kvs as [|[k m] kvs IH]; csimpl; [done|]. intros [Hni Hnd]%NoDup_cons.
  destruct (After now (ScheduledAt m)); simpl; [|auto]. constructor; [|auto].
  rewrite list_elem_of_omap. intros ([k' m'] & Hin & Heq). simpl in Heq.
  destruct (After now (ScheduledAt m')); simplify_eq. apply Hni. by apply (list_elem_of_fmap_2 fst _ (k, m')).
Qed.

(** The lease sweep.  It reports exactly the messages in flight whose lease
    has expired, with the queue's name and their group; in each group those
    messages and no others leave the set of messages in flight; and the queue
    keeps its messages (they are pending again). *)
Theorem sweep_exact ordg ord now q :
  queue_wf q →
  let '(q', ex) := SweepExpiredLeases ordg ord now q in
  queue_wf q' ∧ queue_ids q' ≡ₚ queue_ids q ∧
  (∀ k id, mkExpiredLease (q_Namespace q) (Name q) k id ∈ ex ↔
    ∃ g m, GetGroup k q = Some g ∧ map_get (processing g) id = Some m ∧ ScheduledAt m < now) ∧
  (∀ k g, GetGroup k q = Some g → ∃ g', GetGroup k q' = Some g' ∧
    ∀ id m, map_get (processing g') id = Some m ↔
      map_get (processing g) id = Some m ∧ now ≤ ScheduledAt m).
Proof.
  intros Hwf. destruct (SweepExpiredLeases ordg ord now q) as [q' ex] eqn:E.
  assert (q' = map_groups (λ _ g, (sweep_group ord now g).1) q) as Hq'
    by (rewrite <-(Sweep_as_map ordg), E; done).
  destruct (qstep_sound q [] q' Hwf) as [Hwf' Hids].
  { replace q' with (SweepExpiredLeases ordg ord now q).1 by (by rewrite E). apply qs_sweep. }
  rewrite !app_nil_r in Hids. split_and!; [done|done| |].
  - intros k id. injection E as _ <-. rewrite elem_of_concat. split.
    + intros (l & Hin & (sh & -> & (i & Hsh)%list_elem_of_lookup)%list_elem_of_fmap).
      apply elem_of_concat in Hin as (l' & Hin & ((k0 & g) & -> & Hg)%list_elem_of_fmap). simpl in Hin.
      apply list_elem_of_fmap in Hin as (id0 & [= -> ->] & Hid0).
      rewrite range_perm, elem_of_map_to_list in Hg.
      assert (GetGroup k0 q = Some g) as HG.
      { unfold GetGroup. rewrite (sw_home q (qw_shards q Hwf) i sh k0 g Hsh Hg), Hsh. done. }
      destruct (qw_group q Hwf k0 g HG) as [_ ->].
      apply sweep_group_ids in Hid0 as (m & Hm & He). eauto 10.
    + intros (g & m & HG & Hm & He). pose proof (proj2 (qw_group q Hwf k g HG)) as HK.
      unfold GetGroup in HG. destruct (shards q !! shard_idx k) as [sh|] eqn:Hsh; [|done].
      eexists. split; [|apply list_elem_of_fmap_2; by eapply list_elem_of_lookup_2].
      assert ((k, g) ∈ range_of ordg sh) as Hkg by (by rewrite range_perm, elem_of_map_to_list).
      apply elem_of_concat. eexists. split; [|apply list_elem_of_fmap_2, Hkg].
      simpl. rewrite HK. apply list_elem_of_fmap_2, sweep_group_ids. eauto.
  - intros k g HG. exists (sweep_group ord now g).1. rewrite Hq', GetGroup_map, HG. split; [done|].
    destruct (qw_group q Hwf k g HG) as [Hg _].
    destruct (return_fold_spec now g (sweep_group ord now g).2 Hg (sweep_ids_nodup ord now g))
      as (_ & _ & Hget).
    { intros id Hid. by apply (sweep_group_ids ord). }
    intros id m. unfold sweep_group at 1. simpl. fold ((sweep_group ord now g).2). rewrite Hget.
    case_decide as Hd; rewrite sweep_group_ids in Hd.
    + split; [done|]. intros [Hm Hle]. destruct Hd as (m' & Hm' & He). unfold expired in He. simplify_eq. lia.
    + split; [|tauto]. intros Hm. split; [done|]. apply Z.nlt_ge. intros Hlt. apply Hd. by exists m.
Qed.

Lemma sweep_exact_witness :
  let q := QStory.q3 in
  queue_wf q ∧
  let '(q', ex) := SweepExpiredLeases list_order list_order (6 * minute) q in
  queue_wf q' ∧ queue_ids q' ≡ₚ queue_ids q ∧
  (∀ k id, mkExpiredLease (q_Namespace q) (Name q) k id ∈ ex ↔
    ∃ g m, GetGroup k q = Some g ∧ map_get (processing g) id = Some m ∧ ScheduledAt m < 6 * minute) ∧
  (∀ k g, GetGroup k q = Some g → ∃ g', GetGroup k q' = Some g' ∧
    ∀ id m, map_get (processing g') id = Some m ↔
      map_get (processing g) id = Some m ∧ 6 * minute ≤ ScheduledAt m).
Proof.
  assert (queue_wf QStory.q3) as Hwf by (by apply (qhistory_post _ _ _ _ QStory.qtold3)).
  split; [exact Hwf|]. exact (sweep_exact list_order list_order (6 * minute) QStory.q3 Hwf).
Defined.
