(* ===== verification/QueueSnap.v ===== *)
(** * Snapshots, log replay and paging of a queue (src/internal/queue/queue.go)

    [ExportState]/[ImportState] restore the groups of a queue; [ReplayLease] and
    [RemoveMessage] rebuild the state of single messages from the log;
    [PageGroupConfigs] and [PageGroupStats] read large queues page by page. *)

From stdpp Require Import base gmap list strings sorting fin_maps.
From Stdlib Require Import ZArith Lia Strings.Byte.
From S2P Require Import Prelude Heap Message RateLimit PathMatch Group GroupInv GroupDrain GroupSettle KeyIndex ConfigIdx Queue QueueInv QueueHist.
Local Open Scope Z_scope.

(** ** Export *)

Lemma export_fold_lookup {B} (f : group → B) (l : list (gmap string group)) (acc : gmap string B) i k :
  (∀ j sh, l !! j = Some sh → j ≠ i → sh !! k = None) →
  (foldl (λ acc sh, (f <$> sh) ∪ acc) acc l : gmap string B) !! k =
  match (match l !! i with Some sh => sh !! k | None => None end) with
  | Some g => Some (f g)
  | None => acc !! k
  end.
Proof.
  revert acc i. induction l as [|sh l IH]; intros acc i H; simpl; [done|].
  destruct i as [|i]; simpl.
  - rewrite (IH _ (length l)) by (intros j sh' Hj _; by apply (H (S j))).
    rewrite lookup_ge_None_2 by done. rewrite lookup_union, lookup_fmap.
    destruct (sh !! k) as [g|]; simpl; by destruct (acc !! k).
  - rewrite (IH _ i) by (intros j sh' Hj Hne; apply (H (S j)); [done|lia]).
    destruct (l !! i) as [m|]; simpl; [destruct (m !! k); [done|]|];
      rewrite lookup_union, lookup_fmap, (H 0%nat sh) by done; simpl; by destruct (acc !! k).
Qed.

Lemma ExportState_lookup q k :
  shards_wf q → qs_Groups (ExportState q) !! k = group_ExportState <$> GetGroup k q.
Proof.
  intros Hw. simpl. rewrite (export_fold_lookup _ _ _ (shard_idx k)).
  - unfold GetGroup. by destruct (shards q !! shard_idx k) as [sh|]; [destruct (sh !! k)|].
  - intros j sh Hj Hne. apply eq_None_not_Some. intros [g Hg]. apply Hne.
    symmetry. by eapply (sw_home q Hw).
Qed.

(** ** Import *)

Definition imported (gs : GroupState) (q : Queue) : group :=
  set_quantum (gs_Quantum gs) (group_ImportState gs (newGroup
    (cfg_set_Key (gs_Key gs) (cfg_set_Parallelism (gs_Parallelism gs) (resolveConfig (gs_Key gs) q))))).

Lemma import_fold_spec entries q :
  shards_wf q → NoDup (gs_Key <$> entries) →
  let q' := foldl (λ q gs, import_group gs q) q entries in
  shards_wf q' ∧ cfgIdx q' = cfgIdx q ∧ Name q' = Name q ∧ q_Namespace q' = q_Namespace q ∧
  (∀ gs, gs ∈ entries → GetGroup (gs_Key gs) q' = Some (imported gs q)) ∧
  (∀ k, k ∉ gs_Key <$> entries → GetGroup k q' = GetGroup k q).
Proof.
  revert q. induction entries as [|gs entries IH]; intros q Hw Hnd; cbn [foldl].
  { split_and!; try done. intros gs H. by apply elem_of_nil in H. }
  csimpl in *. apply NoDup_cons in Hnd as [Hni Hnd].
  destruct (IH (import_group gs q)) as (H1 & H2 & H3 & H4 & H5 & H6); [by apply put_group_wf|done|].
  split_and!; try done.
  - intros gs' [->|Hin]%elem_of_cons; [|by apply H5].
    rewrite H6 by done. unfold import_group. rewrite GetGroup_put by done. by rewrite decide_True.
  - intros k [Hk Hnk]%not_elem_of_cons. rewrite H6 by done.
    unfold import_group. rewrite GetGroup_put by done. by rewrite decide_False.
Qed.

Lemma imported_wf gs q g :
  queue_wf q → group_wf g → gs = group_ExportState g →
  group_wf (imported gs q) ∧ Key (cfg (imported gs q)) = Key (cfg g) ∧
  live (urgent (imported gs q)) (urgentHead (imported gs q)) = live (urgent g) (urgentHead g) ∧
  live (ready (imported gs q)) (readyHead (imported gs q)) = live (ready g) (readyHead g) ∧
  delayed (imported gs q) ≡ₚ delayed g ∧ processing (imported gs q) = processing g ∧
  quantum (imported gs q) = quantum g.
Proof.
  intros Hq Hg ->. destruct (resolveConfig_ok (gs_Key (group_ExportState g)) q Hq) as [Hok _].
  unfold imported. set (c := cfg_set_Key (gs_Key (group_ExportState g)) _).
  destruct (group_snapshot_restores g (newGroup c) Hg) as (H1 & H2 & H3 & H4 & H5 & _).
  { change (limiter_ok (limiter (newGroup c))). apply (newGroup_wf c). exact Hok. }
  split; [by apply set_quantum_wf|]. done.
Qed.

Lemma sorted_strict (l : list string) : NoDup l → StronglySorted str_le l → StronglySorted str_lt l.
Proof.
  intros Hnd Hs. induction Hs as [|x l Hs IH Hall]; [constructor|].
  apply NoDup_cons in Hnd as [Hni Hnd]. constructor; [auto|].
  rewrite Forall_forall in Hall |- *. intros y Hy. specialize (Hall y Hy).
  rewrite str_le_lt_eq in Hall. destruct Hall as [?| ->]; [done|contradiction].
Qed.

(** The restored groups and the sorted key list make a well-formed queue. *)
Lemma import_queue_wf q q0 q1 ks :
  queue_wf q → queue_wf q0 → shards_wf q1 → cfgIdx q1 = cfgIdx q0 →
  (∀ k, GetGroup k q = None → GetGroup k q1 = None) →
  (∀ k g, GetGroup k q = Some g → GetGroup k q1 = Some (imported (group_ExportState g) q0)) →
  NoDup ks → StronglySorted str_le ks → (∀ k, k ∈ ks ↔ is_Some (GetGroup k q)) →
  queue_wf (set_keyIdx (mkKeyIndex ks) q1).
Proof.
  intros Hq Hq0 Hw Hc Hno Hyes Hnd Hs Hk. constructor; simpl.
  - by destruct Hw; constructor.
  - intros k g'. change (GetGroup k (set_keyIdx _ q1)) with (GetGroup k q1).
    destruct (GetGroup k q) as [g|] eqn:E; [|by rewrite Hno].
    rewrite (Hyes k g E). intros [= <-]. destruct (qw_group q Hq k g E) as [Hg <-].
    destruct (imported_wf _ q0 g Hq0 Hg eq_refl) as (? & ? & _). done.
  - rewrite Hc. apply Hq0.
  - rewrite Hc. apply (qw_cfg_ok q0 Hq0).
  - by apply sorted_strict.
  - intros k. rewrite Hk. change (GetGroup k (set_keyIdx _ q1)) with (GetGroup k q1).
    destruct (GetGroup k q) as [g|] eqn:E.
    + rewrite (Hyes k g E). split; by eexists.
    + rewrite Hno by done. done.
Qed.

(** A queue snapshot restores the queue: importing the exported state into
    a queue with no groups yields the same groups, each with the same pending
    messages in the same dispatch order, the same retries, the same messages
    in flight and the same quantum; the key index lists exactly the restored
    groups, and the queue is well formed. *)
Theorem queue_snapshot_roundtrip ord q q0 :
  queue_wf q → queue_wf q0 → (∀ k, GetGroup k q0 = None) →
  let q' := ImportState ord (ExportState q) q0 in
  queue_wf q' ∧
  (∀ k, GetGroup k q = None → GetGroup k q' = None) ∧
  (∀ k g, GetGroup k q = Some g → ∃ g', GetGroup k q' = Some g' ∧
    live (urgent g') (urgentHead g') = live (urgent g) (urgentHead g) ∧
    live (ready g') (readyHead g') = live (ready g) (readyHead g) ∧
    delayed g' ≡ₚ delayed g ∧ processing g' = processing g ∧ quantum g' = quantum g).
Proof.
  intros Hq Hq0 Hnone. unfold ImportState.
  set (entries := (range_of ord (qs_Groups (ExportState q))).*2).
  assert (∀ gs, gs ∈ entries ↔ ∃ g, GetGroup (gs_Key gs) q = Some g ∧ gs = group_ExportState g) as Hin.
  { intros gs. unfold entries. rewrite range_perm, list_elem_of_fmap. split.
    - intros ([k gs'] & -> & Hk%elem_of_map_to_list). rewrite ExportState_lookup in Hk by apply Hq.
      destruct (GetGroup k q) as [g|] eqn:E; simpl in Hk; [|done]. injection Hk as <-.
      destruct (qw_group q Hq k g E) as [_ HK]. exists g. simpl. by rewrite HK.
    - intros (g & HG & ->). exists (gs_Key (group_ExportState g), group_ExportState g). split; [done|].
      rewrite elem_of_map_to_list, ExportState_lookup by apply Hq. by rewrite HG. }
  assert (∀ gs g, gs ∈ entries → GetGroup (gs_Key gs) q = Some g → gs = group_ExportState g) as Hexp.
  { intros gs g H1 H2. apply Hin in H1 as (g' & H3 & ->). congruence. }
  assert (gs_Key <$> entries ≡ₚ (map_to_list (qs_Groups (ExportState q))).*1) as Hkeys.
  { unfold entries. rewrite range_perm, <-list_fmap_compose.
    assert (gs_Key ∘ snd <$> map_to_list (qs_Groups (ExportState q)) =
      (map_to_list (qs_Groups (ExportState q))).*1) as ->; [|done].
    apply list_fmap_ext. intros i [k gs] Hi%list_elem_of_lookup_2%elem_of_map_to_list.
    rewrite ExportState_lookup in Hi by apply Hq. destruct (GetGroup k q) as [g|] eqn:E; simplify_eq/=.
    by apply (qw_group q Hq). }
  assert (NoDup (gs_Key <$> entries)) as Hnd by (rewrite Hkeys; apply NoDup_fst_map_to_list).
  assert (∀ k, k ∈ gs_Key <$> entries ↔ is_Some (GetGroup k q)) as Hmem.
  { intros k. rewrite list_elem_of_fmap. split.
    - intros (gs & -> & Hgs). apply Hin in Hgs as (g & -> & _). by eexists.
    - intros [g HG]. exists (group_ExportState g). destruct (qw_group q Hq k g HG) as [_ HK].
      split; [done|]. apply Hin. exists g. simpl. by rewrite HK. }
  destruct (import_fold_spec entries q0 (qw_shards q0 Hq0) Hnd) as (H1 & H2 & _ & _ & H5 & H6).
  set (q1 := foldl _ q0 entries) in *.
  assert (∀ k, GetGroup k q = None → GetGroup k q1 = None) as Hno.
  { intros k HN. rewrite H6; [done|]. rewrite Hmem, HN. by intros [? ?]. }
  assert (∀ k g, GetGroup k q = Some g → GetGroup k q1 = Some (imported (group_ExportState g) q0)) as Hyes.
  { intros k g HG. destruct (qw_group q Hq k g HG) as [_ HK].
    specialize (H5 (group_ExportState g)). simpl in H5. rewrite HK in H5. apply H5, Hin.
    exists g. simpl. by rewrite HK. }
  split_and!; [|done|].
  - apply (import_queue_wf q q0 q1 (sort_strings (gs_Key <$> entries))); try done.
    + rewrite sort_strings_perm. done.
    + apply sort_strings_sorted.
    + intros k. rewrite sort_strings_perm. apply Hmem.
  - intros k g HG. eexists. split; [by apply Hyes|].
    destruct (qw_group q Hq k g HG) as [Hg _]. by destruct (imported_wf _ q0 g Hq0 Hg eq_refl) as (_ & _ & ?).
Qed.

Lemma queue_snapshot_roundtrip_witness :
  let q := QStory.q3 in let q0 := NewQueue "jobs" "ns" in
  (queue_wf q ∧ queue_wf q0 ∧ (∀ k, GetGroup k q0 = None)) ∧
  let q' := ImportState list_order (ExportState q) q0 in
  queue_wf q' ∧
  (∀ k, GetGroup k q = None → GetGroup k q' = None) ∧
  (∀ k g, GetGroup k q = Some g → ∃ g', GetGroup k q' = Some g' ∧
    live (urgent g') (urgentHead g') = live (urgent g) (urgentHead g) ∧
    live (ready g') (readyHead g') = live (ready g) (readyHead g) ∧
    delayed g' ≡ₚ delayed g ∧ processing g' = processing g ∧ quantum g' = quantum g).
Proof.
  assert (queue_wf QStory.q3) as Hwf by (by apply (qhistory_post _ _ _ _ QStory.qtold3)).
  split; [split_and!; [exact Hwf|apply NewQueue_wf|intros k; apply GetGroup_new]|].
  apply (queue_snapshot_roundtrip list_order QStory.q3 (NewQueue "jobs" "ns") Hwf (NewQueue_wf "jobs" "ns")).
  intros k; apply GetGroup_new.
Defined.

(** ** Replay of single messages *)

Lemma find_slot_Some id head slots off i m :
  find_slot id head off slots = Some (i, m) →
  ∃ j, i = (off + j)%nat ∧ (head ≤ i)%nat ∧ slots !! j = Some (Some m) ∧ ID m = id.
Proof.
  revert off. induction slots as [|slot slots IH]; intros off; simpl; [done|].
  assert (find_slot id head (S off) slots = Some (i, m) →
    ∃ j, i = (off + j)%nat ∧ (head ≤ i)%nat ∧ (slot :: slots) !! j = Some (Some m) ∧ ID m = id) as Hnext.
  { intros (j & -> & ? & ? & ?)%IH. exists (S j). split_and!; try done; lia. }
  destruct slot as [m'|]; [|done].
  destruct (Nat.leb_spec head off); simpl; [|done]. case_bool_decide; [|done].
  intros [= -> ->]. exists 0%nat. split_and!; try done; lia.
Qed.

Lemma find_slot_None id head slots off :
  find_slot id head off slots = None →
  ∀ j m, slots !! j = Some (Some m) → (head ≤ off + j)%nat → ID m ≠ id.
Proof.
  revert off. induction slots as [|slot slots IH]; intros off Hf j m Hj Hh; [done|].
  simpl in Hf. destruct j as [|j]; simpl in Hj.
  - injection Hj as ->. destruct (Nat.leb_spec head off); [|lia]. simpl in Hf. by case_bool_decide.
  - apply (IH (S off)) with j; [|done|lia].
    destruct slot as [m'|]; [|done]. destruct ((head <=? off)%nat && bool_decide (ID m' = id)); done.
Qed.

(** Clearing a slot takes its message out of the live ones. *)
Lemma live_clear slots head i m :
  (head ≤ i)%nat → slots !! i = Some (Some m) →
  live slots head ≡ₚ m :: live (<[i := None]> slots) head.
Proof.
  intros Hh Hi. unfold live. rewrite drop_insert_ge by lia.
  assert (drop head slots !! (i - head)%nat = Some (Some m)) as Hd
    by (rewrite lookup_drop; by replace (head + (i - head))%nat with i by lia).
  revert Hd. generalize (drop head slots) as l. generalize (i - head)%nat as n. clear.
  intros n l. revert n. induction l as [|o l IH]; intros [|n] Hn; try done.
  - injection Hn as ->. done.
  - specialize (IH n Hn). change (<[S n := None]> (o :: l)) with (o :: <[n := None]> l).
    destruct o as [m'|]; csimpl; [|done]. rewrite IH. apply Permutation_swap.
Qed.

(** The pending slots that hold the identifier [id]. *)
Lemma live_elem slots head m : m ∈ live slots head ↔ ∃ i, (head ≤ i)%nat ∧ slots !! i = Some (Some m).
Proof.
  unfold live. rewrite list_elem_of_omap. split.
  - intros (o & [j Hj]%list_elem_of_lookup & Ho). unfold id in Ho. subst o.
    rewrite lookup_drop in Hj. exists (head + j)%nat. split; [lia|done].
  - intros (i & Hh & Hi). exists (Some m). split; [|done].
    apply list_elem_of_lookup. exists (i - head)%nat. rewrite lookup_drop.
    by replace (head + (i - head))%nat with i by lia.
Qed.

(** Removing a message during replay: it succeeds exactly when the message
    is queued or in flight, and then takes out that message and no other; a
    message waiting for its retry is not found. *)
Theorem remove_message_spec id g :
  group_wf g →
  let '(g', found) := remove_message id g in
  (found = true ↔ id ∈ ID <$> dispatch_order g ++ inflight g) ∧
  (if found then group_ids g ≡ₚ id :: group_ids g' else g' = g) ∧
  delayed g' = delayed g ∧ cfg g' = cfg g.
Proof.
  intros Hwf.
  assert (id ∈ ID <$> dispatch_order g ++ inflight g ↔
    ((∃ y, id = ID y ∧ y ∈ live (urgent g) (urgentHead g)) ∨
     (∃ y, id = ID y ∧ y ∈ live (ready g) (readyHead g))) ∨
    (∃ y, id = ID y ∧ y ∈ inflight g)) as Hmem
    by (unfold dispatch_order; by rewrite !fmap_app, !elem_of_app, !list_elem_of_fmap).
  unfold remove_message.
  destruct (find_slot id (urgentHead g) 0 (urgent g)) as [[i m]|] eqn:Eu.
  { apply find_slot_Some in Eu as (j & -> & Hh & Hj & <-). simpl in *.
    split_and!; try done.
    - rewrite Hmem. split; [|done]. intros _. left; left. exists m. split; [done|]. apply live_elem. eauto.
    - rewrite !group_ids_app. unfold dispatch_order. simpl. rewrite !fmap_app.
      change (inflight (set_urgent _ _ g)) with (inflight g).
      rewrite (live_clear _ _ _ _ Hh Hj). done. }
  destruct (find_slot id (readyHead g) 0 (ready g)) as [[i m]|] eqn:Er.
  { apply find_slot_Some in Er as (j & -> & Hh & Hj & <-). simpl in *.
    split_and!; try done.
    - rewrite Hmem. split; [|done]. intros _. left; right. exists m. split; [done|]. apply live_elem. eauto.
    - rewrite !group_ids_app. unfold dispatch_order. simpl. rewrite !fmap_app.
      change (inflight (set_ready _ _ g)) with (inflight g).
      rewrite (live_clear _ _ _ _ Hh Hj). simpl. by rewrite <-!Permutation_middle. }
  assert (¬ ((∃ y, id = ID y ∧ y ∈ live (urgent g) (urgentHead g)) ∨
             (∃ y, id = ID y ∧ y ∈ live (ready g) (readyHead g)))) as Hno.
  { intros [(m & Hid & (i & Hh & Hi)%live_elem)|(m & Hid & (i & Hh & Hi)%live_elem)].
    - by eapply (find_slot_None _ _ _ _ Eu i m).
    - by eapply (find_slot_None _ _ _ _ Er i m). }
  destruct (map_get (processing g) id) as [m|] eqn:Em.
  - split_and!; try done.
    + rewrite Hmem. split; [|done]. intros _. right. exists m. split; [by rewrite (wf_keys g Hwf _ _ Em)|].
      apply elem_of_inflight. by exists id.
    + by eapply unlease_ids.
  - split_and!; try done. rewrite Hmem. split; [done|]. intros [?|(m & -> & Hm)]; [tauto|].
    apply elem_of_inflight in Hm as [k Hk]. rewrite (wf_keys g Hwf _ _ Hk) in Em. congruence.
Qed.

Lemma remove_message_spec_witness :
  group_wf sample_leased ∧
  let '(g', found) := remove_message "b" sample_leased in
  (found = true ↔ "b" ∈ ID <$> dispatch_order sample_leased ++ inflight sample_leased) ∧
  (if found then group_ids sample_leased ≡ₚ "b" :: group_ids g' else g' = sample_leased) ∧
  delayed g' = delayed sample_leased ∧ cfg g' = cfg sample_leased.
Proof.
  split; [apply sample_leased_wf|]. exact (remove_message_spec "b" sample_leased sample_leased_wf).
Defined.

(** Replaying a removal can break a queue: when the removed message had
    been returned to pending, its cleared slot is still ahead in [urgent], and
    the next dispatch of the group dereferences it and panics. *)
Theorem remove_urgent_then_panic :
  ∃ q, queue_wf q ∧
    let q' := (RemoveMessage "t1" "id1" q).1 in
    (RemoveMessage "t1" "id1" q).2 = true ∧ (run_op (OpDrain list_order 9) "t1" q').2 = false.
Proof.
  exists (run_op (OpReturn "id1") "t1" QStory.q3).1. split.
  - apply op_post, (qhistory_post _ _ _ _ QStory.qtold3).
  - by vm_compute.
Qed.

Lemma lease_found_ids now m g0 g :
  group_wf g → processing g0 = processing g → delayed g0 = delayed g → cfg g0 = cfg g →
  dispatch_order g ≡ₚ m :: dispatch_order g0 →
  ∃ g', lease_found now m g0 = (g', Ret true) ∧ group_ids g' ≡ₚ group_ids g ∧
    processing g' = Some (<[ID m := leased now g m]> (map_entries (processing g))) ∧
    dispatch_order g' = dispatch_order g0.
Proof.
  intros Hwf Hp Hd Hc Ho. destruct (wf_proc g Hwf) as [p Ep].
  unfold lease_found, map_put. rewrite Hp, Ep, Hc. simpl. eexists. split; [done|].
  split; [|done].
  assert (p !! ID m = None) as Hni.
  { apply eq_None_not_Some. intros [m' Hm']. pose proof (wf_nodup g Hwf) as Hnd.
    rewrite group_ids_app, Ho in Hnd. simpl in Hnd. apply NoDup_cons in Hnd as [Hn _].
    apply Hn. rewrite !elem_of_app. right; right.
    assert (map_get (processing g) (ID m) = Some m') as Hget by (by rewrite Ep).
    rewrite <-(wf_keys g Hwf _ _ Hget). apply list_elem_of_fmap_2, elem_of_inflight. by exists (ID m). }
  pose proof (inflight_insert g0 p (ID m) (leased now g m)) as Hi. rewrite Hp in Hi.
  specialize (Hi Ep Hni). unfold leased in Hi. rewrite !group_ids_app. rewrite Hi.
  change (dispatch_order (set_processing _ g0)) with (dispatch_order g0). simpl. rewrite Hd, Ho.
  assert (inflight g0 = inflight g) as -> by (unfold inflight; by rewrite Hp).
  simpl. by rewrite <-!Permutation_middle.
Qed.

(** Replaying a lease: a queued message is moved to the messages in flight,
    under a fresh lease, and nothing else changes; a message that is not
    queued is reported as not found. *)
Theorem replay_lease_spec id now g :
  group_wf g →
  (∃ m g', m ∈ dispatch_order g ∧ ID m = id ∧ replay_lease id now g = (g', Ret true) ∧
     group_ids g' ≡ₚ group_ids g ∧ dispatch_order g ≡ₚ m :: dispatch_order g' ∧
     processing g' = Some (<[id := leased now g m]> (map_entries (processing g)))) ∨
  ((id ∉ ID <$> dispatch_order g) ∧ replay_lease id now g = (g, Ret false)).
Proof.
  intros Hwf. unfold replay_lease.
  destruct (find_slot id (urgentHead g) 0 (urgent g)) as [[i m]|] eqn:Eu.
  { apply find_slot_Some in Eu as (j & -> & Hh & Hj & Hid). simpl in *. left.
    set (g0 := set_urgent _ _ g).
    assert (dispatch_order g ≡ₚ m :: dispatch_order g0) as Ho
      by (unfold dispatch_order; simpl; by rewrite (live_clear _ _ _ _ Hh Hj)).
    destruct (lease_found_ids now m g0 g Hwf) as (g' & Heq & H1 & H2 & H3); try done.
    exists m, g'. rewrite H3, H2, Hid. split_and!; try done. rewrite Ho. by left. }
  destruct (find_slot id (readyHead g) 0 (ready g)) as [[i m]|] eqn:Er.
  { apply find_slot_Some in Er as (j & -> & Hh & Hj & Hid). simpl in *. left.
    set (g0 := set_ready _ _ g).
    assert (dispatch_order g ≡ₚ m :: dispatch_order g0) as Ho
      by (unfold dispatch_order; simpl; by rewrite (live_clear _ _ _ _ Hh Hj), <-Permutation_middle).
    destruct (lease_found_ids now m g0 g Hwf) as (g' & Heq & H1 & H2 & H3); try done.
    exists m, g'. rewrite H3, H2, Hid. split_and!; try done. rewrite Ho. by left. }
  right. split; [|done]. intros (m & Hid & Hm)%list_elem_of_fmap. unfold dispatch_order in Hm.
  apply elem_of_app in Hm as [(i & Hh & Hi)%live_elem|(i & Hh & Hi)%live_elem].
  - by eapply (find_slot_None _ _ _ _ Eu i m).
  - by eapply (find_slot_None _ _ _ _ Er i m).
Qed.

Lemma replay_lease_spec_witness :
  let g := Sample.grp in
  group_wf g ∧
  ((∃ m g', m ∈ dispatch_order g ∧ ID m = "c" ∧ replay_lease "c" 4 g = (g', Ret true) ∧
     group_ids g' ≡ₚ group_ids g ∧ dispatch_order g ≡ₚ m :: dispatch_order g' ∧
     processing g' = Some (<["c" := leased 4 g m]> (map_entries (processing g)))) ∨
  (("c" ∉ ID <$> dispatch_order g) ∧ replay_lease "c" 4 g = (g, Ret false))).
Proof. split; [apply Sample.grp_wf|]. exact (replay_lease_spec "c" 4 Sample.grp Sample.grp_wf). Defined.

(** ** Paging of configurations *)

Fixpoint config_pages (fuel : nat) (after : string) (limit : Z) (q : Queue) : list GroupConfig :=
  match fuel with
  | O => []
  | S fuel =>
      let '(p, next) := PageGroupConfigs after limit q in
      if decide (next = "") then p else p ++ config_pages fuel next limit q
  end.

Lemma cursor_start_at all off i c :
  NoDup (Key <$> all) → all !! i = Some c → cursor_start (Key c) off all = S (off + i).
Proof.
  revert off i. induction all as [|c0 all IH]; intros off i; csimpl; [done|].
  intros [Hni Hnd]%NoDup_cons Hi. destruct i as [|i]; simpl in Hi.
  - injection Hi as ->. rewrite decide_True by done. by rewrite Nat.add_0_r.
  - rewrite decide_False.
    + rewrite (IH (S off) i) by done. lia.
    + intros Heq. apply Hni. rewrite Heq. by apply list_elem_of_fmap_2, (list_elem_of_lookup_2 _ i).
Qed.

Lemma page_limit_pos limit : (1 ≤ Z.to_nat (page_limit limit))%nat.
Proof.
  unfold page_limit. destruct (Z.leb_spec limit 0); simpl; [lia|].
  destruct (Z.ltb_spec 1000 limit); lia.
Qed.

(** Paging through the declared configurations is complete: with any
    requested page size (out-of-range sizes are replaced by 100), following the
    cursors reads every declared configuration exactly once, exact keys in
    order and patterns last. *)
Theorem config_pages_complete limit q fuel :
  queue_wf q → GetGroupConfig "" q = None →
  (length (ListGroupConfigs q) < fuel)%nat →
  config_pages fuel "" limit q = ListGroupConfigs q ∧ NoDup (Key <$> ListGroupConfigs q) ∧
  (∀ c, c ∈ ListGroupConfigs q ↔ GetGroupConfig (Key c) q = Some c).
Proof.
  intros Hwf Hne Hf. pose proof (qw_cfg q Hwf) as Hc.
  split; [|split; [by apply list_configs_nodup|intros c; by apply elem_of_list_configs]].
  unfold ListGroupConfigs in *. set (all := list_configs (cfgIdx q)) in *.
  set (L := Z.to_nat (page_limit limit)). pose proof (page_limit_pos limit : (1 ≤ L)%nat) as HL.
  set (start := λ after, if decide (after = "") then 0%nat else cursor_start after 0 all).
  enough (∀ fuel after, (length all - start after < fuel)%nat →
    config_pages fuel after limit q = drop (start after) all) as H by (by apply (H fuel ""); lia).
  clear fuel Hf. induction fuel as [|fuel IH]; intros after Hf; [lia|]. cbn [config_pages].
  unfold PageGroupConfigs. fold all. fold (start after). fold L.
  set (s := start after) in *. set (e := Nat.min (s + L) (length all)).
  destruct (Nat.ltb_spec e (length all)) as [Hlt|Hge].
  - assert (e = s + L)%nat as He by lia.
    destruct (lookup_lt_is_Some_2 all (e - 1) ltac:(lia)) as [c Ec]. rewrite Ec.
    assert (Key c ≠ "") as HK.
    { intros HK. assert (get (Key c) (cfgIdx q) = Some c) as Hg
        by (apply elem_of_list_configs; [done|by eapply list_elem_of_lookup_2]).
      rewrite HK in Hg. unfold GetGroupConfig in Hne. congruence. }
    rewrite decide_False by done.
    assert (start (Key c) = e) as Hs.
    { unfold start. rewrite decide_False by done.
      rewrite (cursor_start_at all 0 (e - 1) c) by (done || by apply list_configs_nodup). lia. }
    rewrite IH, Hs by (rewrite Hs; lia). rewrite He, <-drop_drop.
    replace (s + L - s)%nat with L by lia. apply take_drop.
  - rewrite decide_True by done. apply take_ge. rewrite length_drop. lia.
Qed.

Lemma config_pages_complete_witness :
  let q := SetGroupConfig (defaultGroupConfig "b*") (SetGroupConfig (defaultGroupConfig "a") QStory.q3) in
  (queue_wf q ∧ GetGroupConfig "" q = None ∧ (length (ListGroupConfigs q) < 9)%nat) ∧
  config_pages 9 "" 1 q = ListGroupConfigs q ∧ NoDup (Key <$> ListGroupConfigs q) ∧
  (∀ c, c ∈ ListGroupConfigs q ↔ GetGroupConfig (Key c) q = Some c).
Proof.
  set (q := SetGroupConfig (defaultGroupConfig "b*") (SetGroupConfig (defaultGroupConfig "a") QStory.q3)).
  assert (queue_wf q) as Hwf.
  { apply SetGroupConfig_spec; [|done]. apply SetGroupConfig_spec; [|done].
    by apply (qhistory_post _ _ _ _ QStory.qtold3). }
  split; [split_and!; [exact Hwf|by vm_compute|vm_compute; lia]|].
  apply (config_pages_complete 1 q 9 Hwf); [by vm_compute|vm_compute; lia].
Defined.

(** A deleted cursor restarts the listing: when the configuration the
    cursor names has been removed between two calls, the next page is the first
    one again. *)
Theorem deleted_cursor_restarts :
  let q := SetGroupConfig (defaultGroupConfig "c") (SetGroupConfig (defaultGroupConfig "b")
             (SetGroupConfig (defaultGroupConfig "a") (NewQueue "jobs" "ns"))) in
  let '(p1, cur) := PageGroupConfigs "" 2 q in
  let q' := (DeleteGroupConfig cur q).1 in
  Key <$> p1 = ["a"; "b"] ∧ cur = "b" ∧ Key <$> (PageGroupConfigs cur 2 q').1 = ["a"; "c"].
Proof. by vm_compute. Qed.
