(* ===== verification/Codec.v ===== *)
(** * Wire protocol (src/internal/protocol/frame.go, codec.go)

    Frames of the TCP data plane: a type byte, a big-endian 32-bit length and a
    payload of length-prefixed fields.  [encode] is what the [Write*] methods of
    the encoder put on the wire, [ReadFrame] is the decoder on the bytes of a
    connection.  The decoder's reader keeps a position in the payload buffer
    and, as in the source, a failed field read yields the field's zero value. *)

From stdpp Require Import base list strings.
From Stdlib Require Import ZArith Lia Strings.Byte Strings.Ascii.
From S2P Require Import Prelude.
Local Open Scope Z_scope.

(** ** Frames *)

Definition FrameConnect : Z := 0x01.
Definition FrameConnectOK : Z := 0x02.
Definition FrameConnectErr : Z := 0x03.
Definition FramePublish : Z := 0x10.
Definition FramePublishOK : Z := 0x11.
Definition FrameSubscribe : Z := 0x20.
Definition FrameMessage : Z := 0x21.
Definition FrameACK : Z := 0x30.
Definition FrameNACK : Z := 0x31.
Definition FrameError : Z := 0xF0.
Definition FrameBackpressure : Z := 0xF1.
Definition FrameHeartbeat : Z := 0xFF.

(** One constructor per frame struct, with its fields. *)
Inductive frame :=
| ConnectFrame (Username Password APIKey Token Namespace : string)
| ConnectOKFrame (SessionID : string)
| ConnectErrFrame (Reason : string)
| PublishFrame (Queue Group : string) (Payload : list byte)
| PublishOKFrame (MsgID : string) (Offset : Z)
| SubscribeFrame (Queue Group : string)
| MessageFrame (MsgID Queue Group : string) (Payload : list byte) (Attempts : Z)
| ACKFrame (MsgID Queue Group : string)
| NACKFrame (MsgID Queue Group Reason : string)
| ErrorFrame (Code : Z) (Message : string)
| BackpressureFrame (Reason : string) (RetryAfter : Z)
| HeartbeatFrame.

#[export] Instance frame_eq_dec : EqDecision frame.
Proof. solve_decision. Defined.

Definition frame_type (f : frame) : Z :=
  match f with
  | ConnectFrame _ _ _ _ _ => FrameConnect
  | ConnectOKFrame _ => FrameConnectOK
  | ConnectErrFrame _ => FrameConnectErr
  | PublishFrame _ _ _ => FramePublish
  | PublishOKFrame _ _ => FramePublishOK
  | SubscribeFrame _ _ => FrameSubscribe
  | MessageFrame _ _ _ _ _ => FrameMessage
  | ACKFrame _ _ _ => FrameACK
  | NACKFrame _ _ _ _ => FrameNACK
  | ErrorFrame _ _ => FrameError
  | BackpressureFrame _ _ => FrameBackpressure
  | HeartbeatFrame => FrameHeartbeat
  end.

(** ** Encoder *)

(** [byteWriter]: the lengths are converted to 16 and 32 bits. *)
Definition w_str (s : string) : list byte := be_put 2 (u16 (Z.of_nat (str_len s))) ++ str_bytes s.
Definition w_blob (data : list byte) : list byte := be_put 4 (u32 (Z.of_nat (length data))) ++ data.
Definition w_u32 (v : Z) : list byte := be_put 4 v.
Definition w_u64 (v : Z) : list byte := be_put 8 v.
Definition w_i32 (v : Z) : list byte := w_u32 (u32 v).

Definition frame_payload (f : frame) : list byte :=
  match f with
  | ConnectFrame u p k t ns => w_str u ++ w_str p ++ w_str ns ++ w_str k ++ w_str t
  | ConnectOKFrame s => w_str s
  | ConnectErrFrame r => w_str r
  | PublishFrame q g p => w_str q ++ w_str g ++ w_blob p
  | PublishOKFrame m o => w_str m ++ w_u64 o
  | SubscribeFrame q g => w_str q ++ w_str g
  | MessageFrame m q g p a => w_str m ++ w_str q ++ w_str g ++ w_blob p ++ w_i32 a
  | ACKFrame m q g => w_str m ++ w_str q ++ w_str g
  | NACKFrame m q g r => w_str m ++ w_str q ++ w_str g ++ w_str r
  | ErrorFrame c m => w_u32 c ++ w_str m
  | BackpressureFrame r a => w_str r ++ w_u32 a
  | HeartbeatFrame => []
  end.

Definition headerSize : nat := 5.
Definition maxPayloadSize : Z := Z.shiftl 16 20.

(** [Encoder.write]: header, then payload. *)
Definition write (t : Z) (payload : list byte) : list byte :=
  byte_of_Z t :: be_put 4 (u32 (Z.of_nat (length payload))) ++ payload.

Definition encode (f : frame) : list byte := write (frame_type f) (frame_payload f).

(** ** Decoder *)

Record byteReader := mkReader { buf : list byte; pos : nat }.

(** [r.buf[r.pos : r.pos+n]] *)
Definition slice (r : byteReader) (n : nat) : list byte := take n (drop (pos r) (buf r)).
Definition skip (n : nat) (r : byteReader) : byteReader := mkReader (buf r) (pos r + n).

(** A length that does not fit leaves the position after the length field. *)
Definition r_str (r : byteReader) : byteReader * option string :=
  if (length (buf r) <? pos r + 2)%nat then (r, None)
  else
    let n := Z.to_nat (be_get (slice r 2)) in
    let r := skip 2 r in
    if (length (buf r) <? pos r + n)%nat then (r, None)
    else (skip n r, Some (bytes_str (slice r n))).

Definition r_blob (r : byteReader) : byteReader * option (list byte) :=
  if (length (buf r) <? pos r + 4)%nat then (r, None)
  else
    let n := Z.to_nat (be_get (slice r 4)) in
    let r := skip 4 r in
    if (length (buf r) <? pos r + n)%nat then (r, None)
    else (skip n r, Some (slice r n)).

Definition r_u32 (r : byteReader) : byteReader * Z :=
  if (length (buf r) <? pos r + 4)%nat then (r, 0) else (skip 4 r, be_get (slice r 4)).
Definition r_u64 (r : byteReader) : byteReader * Z :=
  if (length (buf r) <? pos r + 8)%nat then (r, 0) else (skip 8 r, be_get (slice r 8)).
Definition r_i32 (r : byteReader) : byteReader * Z :=
  let '(r, v) := r_u32 r in (r, i32 v).

(** [s, _ = r.str()] *)
Definition get_str (r : byteReader) : byteReader * string :=
  let '(r, o) := r_str r in (r, default "" o).
Definition get_blob (r : byteReader) : byteReader * list byte :=
  let '(r, o) := r_blob r in (r, default [] o).

Definition ident_char (b : Z) : bool :=
  ((97 <=? b) && (b <=? 122)) || ((65 <=? b) && (b <=? 90)) || ((48 <=? b) && (b <=? 57))
  || (b =? 95) || (b =? 45) || (b =? 46) || (b =? 47) || (b =? 42) || (b =? 58).

Definition isValidIdent (s : string) : bool :=
  negb ((str_len s =? 0)%nat || (1024 <? str_len s)%nat)
  && forallb (λ b, ident_char (byte_to_Z b)) (str_bytes s).

Inductive read_error :=
| IOErr (e : io_error) | TooLarge (n : Z) | InvalidUsername | InvalidQueue | InvalidGroup
| UnknownType (t : Z).

(** The checks shared by the client frames that name a queue and a group. *)
Definition check_queue_group (q g : string) (f : frame) : frame + read_error :=
  if negb (isValidIdent q) then inr InvalidQueue
  else if negb (isValidIdent g) then inr InvalidGroup
  else inl f.

(** The [switch] of [ReadFrame] on a complete payload. *)
Definition decode_payload (ft : Z) (payload : list byte) : frame + read_error :=
  let r := mkReader payload 0 in
  if ft =? FrameConnect then
    let '(r, u) := get_str r in
    let '(r, p) := get_str r in
    let '(r, ns) := get_str r in
    let '(r, k) := get_str r in
    let '(r, t) := get_str r in
    if negb (isValidIdent u) then inr InvalidUsername else inl (ConnectFrame u p k t ns)
  else if ft =? FramePublish then
    let '(r, q) := get_str r in
    let '(r, g) := get_str r in
    let '(r, p) := get_blob r in
    check_queue_group q g (PublishFrame q g p)
  else if ft =? FrameSubscribe then
    let '(r, q) := get_str r in
    let '(r, g) := get_str r in
    check_queue_group q g (SubscribeFrame q g)
  else if ft =? FrameACK then
    let '(r, m) := get_str r in
    let '(r, q) := get_str r in
    let '(r, g) := get_str r in
    check_queue_group q g (ACKFrame m q g)
  else if ft =? FrameNACK then
    let '(r, m) := get_str r in
    let '(r, q) := get_str r in
    let '(r, g) := get_str r in
    let '(r, e) := get_str r in
    check_queue_group q g (NACKFrame m q g e)
  else if ft =? FrameConnectOK then
    let '(r, s) := get_str r in inl (ConnectOKFrame s)
  else if ft =? FrameConnectErr then
    let '(r, s) := get_str r in inl (ConnectErrFrame s)
  else if ft =? FramePublishOK then
    let '(r, m) := get_str r in
    let '(r, o) := r_u64 r in inl (PublishOKFrame m o)
  else if ft =? FrameMessage then
    let '(r, m) := get_str r in
    let '(r, q) := get_str r in
    let '(r, g) := get_str r in
    let '(r, p) := get_blob r in
    let '(r, a) := r_i32 r in inl (MessageFrame m q g p a)
  else if ft =? FrameError then
    let '(r, c) := r_u32 r in
    let '(r, m) := get_str r in inl (ErrorFrame c m)
  else if ft =? FrameBackpressure then
    let '(r, s) := get_str r in
    let '(r, a) := r_u32 r in inl (BackpressureFrame s a)
  else if ft =? FrameHeartbeat then inl HeartbeatFrame
  else inr (UnknownType ft).

(** The bytes left on the connection, and the frame or the error. *)
Definition ReadFrame (s : list byte) : list byte * (frame + read_error) :=
  match ReadFull headerSize s with
  | (s, inr e) => (s, inr (IOErr e))
  | (s, inl header) =>
      let ft := be_get (take 1 header) in
      let n := be_get (drop 1 header) in
      if maxPayloadSize <? n then (s, inr (TooLarge n))
      else if n =? 0 then (s, decode_payload ft [])
      else
        match ReadFull (Z.to_nat n) s with
        | (s, inr e) => (s, inr (IOErr e))
        | (s, inl payload) => (s, decode_payload ft payload)
        end
  end.

(** Read until the connection ends or fails; every frame consumes its header, so
    the number of bytes is fuel enough. *)
Fixpoint read_all (fuel : nat) (s : list byte) : list frame * read_error :=
  match fuel with
  | O => ([], IOErr EOF)
  | S fuel =>
      match ReadFrame s with
      | (_, inr e) => ([], e)
      | (s, inl f) => let '(fs, e) := read_all fuel s in (f :: fs, e)
      end
  end.

Example ack_bytes :
  encode (ACKFrame "m1" "q" "g") =
  byte_of_Z 0x30 :: [x00; x00; x00; x0a; x00; x02; "m"%byte; "1"%byte; x00; x01; "q"%byte; x00; x01; "g"%byte].
Proof. vm_compute. reflexivity. Qed.

(** ** Round trip *)

Definition str_ok (s : string) : Prop := Z.of_nat (str_len s) < 2 ^ 16.
Definition u32_ok (v : Z) : Prop := 0 ≤ v < 2 ^ 32.
Definition idents_ok (q g : string) : Prop := isValidIdent q = true ∧ isValidIdent g = true.

(** The frames the protocol can carry: fields within their width, identifiers
    that the decoder accepts, at most 16 MB. *)
Definition frame_ok (f : frame) : Prop :=
  Z.of_nat (length (frame_payload f)) ≤ maxPayloadSize ∧
  match f with
  | ConnectFrame u p k t ns =>
      str_ok u ∧ str_ok p ∧ str_ok k ∧ str_ok t ∧ str_ok ns ∧ isValidIdent u = true
  | ConnectOKFrame s => str_ok s
  | ConnectErrFrame r => str_ok r
  | PublishFrame q g p => idents_ok q g
  | PublishOKFrame m o => str_ok m ∧ 0 ≤ o < 2 ^ 64
  | SubscribeFrame q g => idents_ok q g
  | MessageFrame m q g p a => str_ok m ∧ str_ok q ∧ str_ok g ∧ - 2 ^ 31 ≤ a < 2 ^ 31
  | ACKFrame m q g => str_ok m ∧ idents_ok q g
  | NACKFrame m q g r => str_ok m ∧ idents_ok q g ∧ str_ok r
  | ErrorFrame c m => u32_ok c ∧ str_ok m
  | BackpressureFrame r a => str_ok r ∧ u32_ok a
  | HeartbeatFrame => True
  end.

(** The reader has [rest] left to read. *)
Definition at_rest (r : byteReader) (rest : list byte) : Prop :=
  drop (pos r) (buf r) = rest ∧ (pos r ≤ length (buf r))%nat.

Lemma at_rest_length r rest : at_rest r rest → length (buf r) = (pos r + length rest)%nat.
Proof. intros [<- Hle]. rewrite length_drop. lia. Qed.

Lemma at_rest_skip r xs rest n : at_rest r (xs ++ rest) → n = length xs → at_rest (skip n r) rest.
Proof.
  intros [Hd Hle] ->. split; simpl.
  - by rewrite <-drop_drop, Hd, drop_app_length.
  - pose proof (f_equal length Hd) as Hl. rewrite length_drop, length_app in Hl. lia.
Qed.

Lemma at_rest_slice r xs rest n : at_rest r (xs ++ rest) → n = length xs → slice r n = xs.
Proof. intros [Hd _] ->. unfold slice. by rewrite Hd, take_app_length. Qed.

Lemma at_rest_fits r xs rest n :
  at_rest r (xs ++ rest) → n = length xs → (length (buf r) <? pos r + n)%nat = false.
Proof. intros H%at_rest_length ->. rewrite length_app in H. apply Nat.ltb_ge. lia. Qed.

Lemma read_str r s rest :
  str_ok s → at_rest r (w_str s ++ rest) → ∃ r', get_str r = (r', s) ∧ at_rest r' rest.
Proof.
  unfold str_ok, w_str, get_str, r_str. intros Hs Hr. rewrite <-app_assoc in Hr.
  assert (u16 (Z.of_nat (str_len s)) = Z.of_nat (str_len s)) as Hu by (apply wrap_u_small; lia).
  rewrite Hu in Hr.
  rewrite (at_rest_fits _ _ _ 2 Hr), (at_rest_slice _ _ _ 2 Hr) by (by rewrite length_be_put).
  rewrite be_get_put_small by (simpl; lia). rewrite Nat2Z.id.
  pose proof (at_rest_skip _ _ _ 2 Hr ltac:(by rewrite length_be_put)) as Hr2.
  rewrite (at_rest_fits _ _ _ _ Hr2), (at_rest_slice _ _ _ _ Hr2) by (by rewrite length_str_bytes).
  simpl. rewrite bytes_str_bytes. eexists. split; [done|].
  eapply at_rest_skip; [exact Hr2|]. by rewrite length_str_bytes.
Qed.

Lemma read_blob r data rest :
  Z.of_nat (length data) < 2 ^ 32 → at_rest r (w_blob data ++ rest) →
  ∃ r', get_blob r = (r', data) ∧ at_rest r' rest.
Proof.
  unfold w_blob, get_blob, r_blob. intros Hs Hr. rewrite <-app_assoc in Hr.
  assert (u32 (Z.of_nat (length data)) = Z.of_nat (length data)) as Hu by (apply wrap_u_small; lia).
  rewrite Hu in Hr.
  rewrite (at_rest_fits _ _ _ 4 Hr), (at_rest_slice _ _ _ 4 Hr) by (by rewrite length_be_put).
  rewrite be_get_put_small by (simpl; lia). rewrite Nat2Z.id.
  pose proof (at_rest_skip _ _ _ 4 Hr ltac:(by rewrite length_be_put)) as Hr2.
  rewrite (at_rest_fits _ _ _ _ Hr2), (at_rest_slice _ _ _ _ Hr2) by done.
  eexists. split; [done|]. by eapply at_rest_skip.
Qed.

Lemma read_u32 r v rest :
  u32_ok v → at_rest r (w_u32 v ++ rest) → ∃ r', r_u32 r = (r', v) ∧ at_rest r' rest.
Proof.
  unfold u32_ok, r_u32, w_u32. intros Hv Hr.
  rewrite (at_rest_fits _ _ _ 4 Hr), (at_rest_slice _ _ _ 4 Hr) by (by rewrite length_be_put).
  rewrite be_get_put_small by (simpl; lia).
  eexists. split; [done|]. eapply at_rest_skip; [exact Hr|]. by rewrite length_be_put.
Qed.

Lemma read_u64 r v rest :
  0 ≤ v < 2 ^ 64 → at_rest r (w_u64 v ++ rest) → ∃ r', r_u64 r = (r', v) ∧ at_rest r' rest.
Proof.
  unfold r_u64, w_u64. intros Hv Hr.
  rewrite (at_rest_fits _ _ _ 8 Hr), (at_rest_slice _ _ _ 8 Hr) by (by rewrite length_be_put).
  rewrite be_get_put_small by (simpl; lia).
  eexists. split; [done|]. eapply at_rest_skip; [exact Hr|]. by rewrite length_be_put.
Qed.

Lemma read_i32 r v rest :
  - 2 ^ 31 ≤ v < 2 ^ 31 → at_rest r (w_i32 v ++ rest) → ∃ r', r_i32 r = (r', v) ∧ at_rest r' rest.
Proof.
  unfold r_i32, w_i32. intros Hv Hr.
  destruct (read_u32 r (u32 v) rest) as (r' & -> & Hr');
    [unfold u32_ok, wrap_u; apply Z.mod_pos_bound; lia|done|].
  exists r'. split; [|done]. by rewrite wrap_s_wrap_u, wrap_s_small by lia.
Qed.

Lemma ident_str_ok s : isValidIdent s = true → str_ok s.
Proof.
  unfold isValidIdent, str_ok. intros [H _]%andb_true_iff.
  apply negb_true_iff, orb_false_iff in H as [_ H]. apply Nat.ltb_ge in H. lia.
Qed.

Lemma start_rest payload : at_rest (mkReader payload 0) payload.
Proof. split; [done|simpl; lia]. Qed.

(** The last field of a frame. *)
Lemma last_field r xs : at_rest r xs → at_rest r (xs ++ []).
Proof. by rewrite app_nil_r. Qed.

Lemma blob_fits (n : nat) (data : list byte) :
  (length data ≤ n)%nat → Z.of_nat n ≤ maxPayloadSize → Z.of_nat (length data) < 2 ^ 32.
Proof. unfold maxPayloadSize. rewrite Z.shiftl_mul_pow2 by lia. lia. Qed.

Lemma length_w_blob data : length (w_blob data) = (4 + length data)%nat.
Proof. unfold w_blob. by rewrite length_app, length_be_put. Qed.

(** Read the next field with the lemma for its kind. *)
Ltac solve_field :=
  first [eassumption | split; eassumption | apply ident_str_ok; eassumption
    | eapply blob_fits; [|eassumption]; rewrite ?length_app, ?length_w_blob; lia].
Ltac read_field L r H :=
  first [ edestruct (L r) as (? & -> & ?); [| exact H |]; [solve_field|]
        | apply last_field in H; edestruct (L r) as (? & -> & ?); [| exact H |]; [solve_field|] ];
  clear H.
Ltac read_next :=
  match goal with
  | H : at_rest ?r _ |- context [get_str ?r] => read_field read_str r H
  | H : at_rest ?r _ |- context [get_blob ?r] => read_field read_blob r H
  | H : at_rest ?r _ |- context [r_u32 ?r] => read_field read_u32 r H
  | H : at_rest ?r _ |- context [r_u64 ?r] => read_field read_u64 r H
  | H : at_rest ?r _ |- context [r_i32 ?r] => read_field read_i32 r H
  end.

Lemma check_queue_group_ok q g f : idents_ok q g → check_queue_group q g f = inl f.
Proof. unfold check_queue_group. by intros [-> ->]. Qed.

Lemma decode_encode_payload f : frame_ok f → decode_payload (frame_type f) (frame_payload f) = inl f.
Proof.
  intros [Hmax Hok]. pose proof (start_rest (frame_payload f)) as Hr.
  destruct f; unfold decode_payload; cbn [frame_type frame_payload] in *; simpl (_ =? _); cbv iota;
    try (destruct_and! Hok); try match goal with H : idents_ok _ _ |- _ => pose proof H as [? ?] end;
    repeat read_next; rewrite ?check_queue_group_ok by done; try done.
  by match goal with H : isValidIdent _ = true |- _ => rewrite H end.
Qed.

Lemma frame_type_byte f : be_get [byte_of_Z (frame_type f)] = frame_type f.
Proof. by destruct f. Qed.

(** The decoder on a written frame: it takes exactly the bytes of the frame. *)
Lemma ReadFrame_write t payload rest :
  Z.of_nat (length payload) ≤ maxPayloadSize →
  ReadFrame (write t payload ++ rest) = (rest, decode_payload (be_get [byte_of_Z t]) payload).
Proof.
  intros Hmax. unfold ReadFrame, write.
  assert (maxPayloadSize < 2 ^ 32) as Hm32 by done.
  assert (u32 (Z.of_nat (length payload)) = Z.of_nat (length payload)) as -> by (apply wrap_u_small; lia).
  set (hdr := byte_of_Z t :: be_put 4 (Z.of_nat (length payload))).
  replace ((byte_of_Z t :: be_put 4 (Z.of_nat (length payload)) ++ payload) ++ rest)
    with (hdr ++ payload ++ rest) by (unfold hdr; by rewrite app_assoc).
  rewrite ReadFull_app by (unfold hdr; by rewrite length_cons, length_be_put).
  change (take 1 hdr) with [byte_of_Z t].
  change (drop 1 hdr) with (be_put 4 (Z.of_nat (length payload))).
  rewrite be_get_put_small by (simpl; lia). cbv zeta.
  rewrite (proj2 (Z.ltb_ge _ _)) by lia.
  destruct (Z.eqb_spec (Z.of_nat (length payload)) 0) as [H0|H0].
  { assert (payload = []) as -> by (apply length_zero_iff_nil; lia). done. }
  by rewrite ReadFull_app by lia.
Qed.

Lemma ReadFrame_encode f rest : frame_ok f → ReadFrame (encode f ++ rest) = (rest, inl f).
Proof.
  intros Hok. unfold encode. rewrite ReadFrame_write by apply Hok.
  by rewrite frame_type_byte, decode_encode_payload.
Qed.

(** Frames survive the wire: any sequence of frames written one after the
    other on a connection is read back as the same sequence, whatever bytes
    the payloads contain, and the reader ends at the end of the stream without
    losing synchronisation. *)
Theorem stream_roundtrip fs fuel :
  Forall frame_ok fs → (length fs < fuel)%nat →
  read_all fuel (concat (encode <$> fs)) = (fs, IOErr EOF).
Proof.
  intros Hok. revert fuel. induction Hok as [|f fs Hf Hfs IH]; intros [|fuel] Hn; simpl in Hn; try lia.
  - done.
  - cbn [read_all]. change (concat (encode <$> f :: fs)) with (encode f ++ concat (encode <$> fs)). rewrite ReadFrame_encode by done. by rewrite IH by lia.
Qed.

Lemma stream_roundtrip_witness :
  let fs := [PublishFrame "jobs" "t1" [x00; xff]; MessageFrame "id" "jobs" "t1" [x07] (-1);
             ErrorFrame 7 "bad"; HeartbeatFrame] in
  (Forall frame_ok fs ∧ (length fs < 5)%nat) ∧ read_all 5 (concat (encode <$> fs)) = (fs, IOErr EOF).
Proof.
  assert (Forall frame_ok [PublishFrame "jobs" "t1" [x00; xff]; MessageFrame "id" "jobs" "t1" [x07] (-1);
             ErrorFrame 7 "bad"; HeartbeatFrame]) as H.
  { repeat constructor; vm_compute; try done; intuition congruence. }
  split; [split; [exact H|simpl; lia]|].
  apply (stream_roundtrip [PublishFrame "jobs" "t1" [x00; xff]; MessageFrame "id" "jobs" "t1" [x07] (-1);
             ErrorFrame 7 "bad"; HeartbeatFrame] 5 H). simpl. lia.
Defined.

(** A cut frame is never taken for a frame: reading any proper prefix of a
    written frame fails, with [EOF] when the cut is at the start of the frame or
    of its payload and [UnexpectedEOF] otherwise. *)
Theorem truncated_frame f n :
  Z.of_nat (length (frame_payload f)) ≤ maxPayloadSize → (n < length (encode f))%nat →
  (ReadFrame (take n (encode f))).2 = inr (IOErr (if decide (n = 0 ∨ n = 5)%nat then EOF else UnexpectedEOF)).
Proof.
  intros Hmax Hn. unfold encode, write in *. set (p := frame_payload f) in *.
  assert (maxPayloadSize < 2 ^ 32) as Hm32 by done.
  assert (u32 (Z.of_nat (length p)) = Z.of_nat (length p)) as Hu by (apply wrap_u_small; lia).
  rewrite Hu in *. set (hdr := byte_of_Z (frame_type f) :: be_put 4 (Z.of_nat (length p))).
  change (byte_of_Z (frame_type f) :: be_put 4 (Z.of_nat (length p)) ++ p) with (hdr ++ p) in *.
  assert (length hdr = 5%nat) as Hh by (unfold hdr; by rewrite length_cons, length_be_put).
  rewrite length_app, Hh in Hn. unfold ReadFrame.
  destruct (decide (n < 5)%nat) as [Hlt|Hge].
  { unfold ReadFull at 1. rewrite length_take, length_app.
    rewrite (proj2 (Nat.leb_gt _ _)) by (unfold headerSize; lia). cbn [snd].
    destruct (take n (hdr ++ p)) eqn:Et; apply (f_equal length) in Et;
      rewrite length_take, length_app, Hh in Et; cbn [length] in Et; case_decide; try done; exfalso; lia. }
  rewrite take_app, take_ge by lia.
  rewrite ReadFull_app by (by rewrite Hh).
  assert (be_get (drop 1 hdr) = Z.of_nat (length p)) as ->.
  { change (drop 1 hdr) with (be_put 4 (Z.of_nat (length p))). apply be_get_put_small. simpl. lia. }
  rewrite (proj2 (Z.ltb_ge _ _)) by lia.
  destruct (Z.eqb_spec (Z.of_nat (length p)) 0) as [H0|H0]; [lia|].
  rewrite Nat2Z.id. unfold ReadFull. rewrite length_take.
  rewrite (proj2 (Nat.leb_gt _ _)) by lia. cbn [snd].
  destruct (take (n - length hdr) p) eqn:Et; apply (f_equal length) in Et;
    rewrite length_take in Et; cbn [length] in Et; case_decide; try done; exfalso; lia.
Qed.

Lemma truncated_frame_witness :
  let f := ACKFrame "m1" "q" "g" in
  (Z.of_nat (length (frame_payload f)) ≤ maxPayloadSize ∧ (9 < length (encode f))%nat) ∧
  (ReadFrame (take 9 (encode f))).2 = inr (IOErr (if decide (9 = 0 ∨ 9 = 5)%nat then EOF else UnexpectedEOF)).
Proof.
  split; [split; [by vm_compute|vm_compute; lia]|].
  apply (truncated_frame (ACKFrame "m1" "q" "g") 9); [by vm_compute|vm_compute; lia].
Defined.

Lemma check_queue_group_inv q g f f' :
  check_queue_group q g f = inl f' → f' = f ∧ isValidIdent q = true ∧ isValidIdent g = true.
Proof.
  unfold check_queue_group. destruct (isValidIdent q), (isValidIdent g); simpl; try done. by intros [= <-].
Qed.

Lemma decode_idents ft p f :
  decode_payload ft p = inl f →
  match f with
  | PublishFrame q g _ | SubscribeFrame q g | ACKFrame _ q g | NACKFrame _ q g _ =>
      isValidIdent q = true ∧ isValidIdent g = true
  | ConnectFrame u _ _ _ _ => isValidIdent u = true
  | _ => True
  end.
Proof.
  unfold decode_payload.
  repeat (match goal with |- context [if ft =? ?t then _ else _] => destruct (ft =? t) end;
    [repeat match goal with
            | |- context [let '(_, _) := ?e in _] => destruct e
            end|]).
  all: try (intros [= <-]; done).
  all: try (intros (-> & ? & ?)%check_queue_group_inv; done).
  destruct (isValidIdent _) eqn:E; simpl; [by intros [= <-]|done].
Qed.

(** C18. The decoder guards the broker: a client frame it accepts names a queue
    and a group (or a user) that are non-empty identifiers of at most 1024
    allowed characters, and no frame larger than 16 MB is read. *)
Theorem accepted_idents s rest f :
  ReadFrame s = (rest, inl f) →
  match f with
  | PublishFrame q g _ | SubscribeFrame q g | ACKFrame _ q g | NACKFrame _ q g _ =>
      isValidIdent q = true ∧ isValidIdent g = true
  | ConnectFrame u _ _ _ _ => isValidIdent u = true
  | _ => True
  end ∧ Z.of_nat (length s) ≤ Z.of_nat (length rest) + 5 + maxPayloadSize.
Proof.
  unfold ReadFrame. destruct (ReadFull headerSize s) as [s1 [hdr|e]] eqn:Eh; [|by intros [= _ ?]].
  assert (length s = 5 + length s1)%nat as Hlen.
  { revert Eh. unfold ReadFull. destruct (Nat.leb_spec headerSize (length s)); [|done].
    intros [= <- _]. rewrite length_drop. unfold headerSize in *. lia. }
  destruct (Z.ltb_spec maxPayloadSize (be_get (drop 1 hdr))) as [|Hmax]; [by intros [= _ ?]|].
  assert (∀ p s2, (s2, decode_payload (be_get (take 1 hdr)) p) = (rest, inl f) →
    Z.of_nat (length s1) ≤ Z.of_nat (length s2) + maxPayloadSize →
    match f with
    | PublishFrame q g _ | SubscribeFrame q g | ACKFrame _ q g | NACKFrame _ q g _ =>
        isValidIdent q = true ∧ isValidIdent g = true
    | ConnectFrame u _ _ _ _ => isValidIdent u = true
    | _ => True
    end ∧ Z.of_nat (length s) ≤ Z.of_nat (length rest) + 5 + maxPayloadSize) as Hgo.
  { intros p s2 [= -> Hd] Hl. split; [by eapply decode_idents|lia]. }
  assert (0 ≤ maxPayloadSize) as Hm0 by done.
  destruct (Z.eqb_spec (be_get (drop 1 hdr)) 0).
  { intros H. apply (Hgo [] s1 H). lia. }
  destruct (ReadFull _ s1) as [s2 [p|e]] eqn:Ep; [|by intros [= _ ?]].
  intros H. apply (Hgo p s2 H). revert Ep. unfold ReadFull.
  pose proof (be_get_range (drop 1 hdr)).
  destruct (Nat.leb_spec (Z.to_nat (be_get (drop 1 hdr))) (length s1)); [|done].
  intros [= <- _]. rewrite length_drop. lia.
Qed.

Lemma accepted_idents_witness :
  let f := ACKFrame "m1" "q" "g" in
  ReadFrame (encode f) = ([], inl f) ∧
  (isValidIdent "q" = true ∧ isValidIdent "g" = true) ∧
  Z.of_nat (length (encode f)) ≤ 0 + 5 + maxPayloadSize.
Proof.
  assert (ReadFrame (encode (ACKFrame "m1" "q" "g")) = ([], inl (ACKFrame "m1" "q" "g"))) as H by (by vm_compute).
  split; [exact H|]. exact (accepted_idents _ _ _ H).
Defined.

(** A long text is lost on the wire: the length of a string is written in
    16 bits, so an error message of exactly 65536 bytes is read back as the
    empty message. *)
Theorem long_string_lost c m :
  u32_ok c → Z.of_nat (str_len m) = 65536 → (ReadFrame (encode (ErrorFrame c m))).2 = inl (ErrorFrame c "").
Proof.
  intros Hc Hm. unfold encode. rewrite <-(app_nil_r (write _ _)).
  assert (u16 (Z.of_nat (str_len m)) = 0) as Hu by (by rewrite Hm).
  rewrite ReadFrame_write.
  - rewrite frame_type_byte. unfold decode_payload. cbn [frame_type frame_payload snd].
    simpl (_ =? _). cbv iota. pose proof (start_rest (w_u32 c ++ w_str m)) as Hr.
    destruct (read_u32 _ _ _ Hc Hr) as (r & -> & Hr'). unfold w_str in Hr'. rewrite Hu in Hr'.
    destruct (read_str r "" (str_bytes m)) as (r' & -> & _); [done|exact Hr'|done].
  - cbn [frame_payload]. unfold w_u32, w_str. rewrite !length_app, !length_be_put, length_str_bytes.
    change maxPayloadSize with 16777216. lia.
Qed.

Lemma long_string_lost_witness :
  let m := bytes_str (replicate (Z.to_nat 65536) x41) in
  (u32_ok 1 ∧ Z.of_nat (str_len m) = 65536) ∧ (ReadFrame (encode (ErrorFrame 1 m))).2 = inl (ErrorFrame 1 "").
Proof.
  assert (Z.of_nat (str_len (bytes_str (replicate (Z.to_nat 65536) x41))) = 65536) as Hm
    by (rewrite <-length_str_bytes, str_bytes_str, length_replicate; done).
  split; [split; [by_eval|exact Hm]|].
  apply (long_string_lost 1 (bytes_str (replicate (Z.to_nat 65536) x41))); [by_eval|exact Hm].
Defined.

(** A client that authenticates with an API key or a token alone is turned
    away: whatever credentials a CONNECT frame carries, an empty user name
    makes the decoder refuse it. *)
Theorem connect_needs_username p k t ns rest :
  let f := ConnectFrame "" p k t ns in
  Z.of_nat (length (frame_payload f)) ≤ maxPayloadSize →
  ReadFrame (encode f ++ rest) = (rest, inr InvalidUsername).
Proof.
  intros f Hmax. unfold encode. rewrite ReadFrame_write by done. rewrite frame_type_byte.
  unfold decode_payload. cbn [f frame_type frame_payload]. simpl (_ =? _). cbv iota.
  pose proof (start_rest (frame_payload f)) as Hr. cbn [f frame_payload] in Hr.
  destruct (read_str _ "" _ ltac:(done) Hr) as (r & -> & _).
  by repeat destruct (get_str _).
Qed.

Lemma connect_needs_username_witness :
  let f := ConnectFrame "" "" "key-123" "" "default" in
  Z.of_nat (length (frame_payload f)) ≤ maxPayloadSize ∧
  ReadFrame (encode f ++ []) = ([], inr InvalidUsername).
Proof.
  split; [by vm_compute|].
  apply (connect_needs_username "" "key-123" "" "default" []). by vm_compute.
Defined.
