(* ===== verification/WalRecord.v ===== *)
(** * Records of the write-ahead log (src/internal/storage/event.go, writer.go,
      reader.go)

    [writeRecord] and [ReadEvent] with their CRC-32C check.  The checksum is the
    table-driven algorithm of [hash/crc32]; [ReadEvent] updates it field by
    field as it reads. *)

From stdpp Require Import base list strings.
From Stdlib Require Import ZArith Lia Strings.Byte.
From S2P Require Import Prelude.
Local Open Scope Z_scope.

(** ** Events *)

Definition EventPublish : Z := 0x01.
Definition EventLease : Z := 0x02.
Definition EventACK : Z := 0x03.
Definition EventNACK : Z := 0x04.
Definition EventExpire : Z := 0x05.

(** The [done] channel of an event is kept by the writer (Wal.v). *)
Record Event := mkEvent {
  ev_Type : Z;
  ev_Namespace : string;
  ev_Queue : string;
  ev_Group : string;
  ev_MsgID : string;
  ev_Payload : list byte;
  ev_Seq : Z;
  ev_Timestamp : Z;
}.

#[export] Instance Event_eq_dec : EqDecision Event.
Proof. solve_decision. Defined.

(** ** CRC-32C *)

Definition castagnoli : Z := 0x82f63b78.

(** One bit of the table construction. *)
Definition crc_bit (c : Z) : Z :=
  if Z.testbit c 0 then Z.lxor (Z.shiftr c 1) castagnoli else Z.shiftr c 1.

Definition crc_entry (i : Z) : Z := Nat.iter 8 crc_bit i.

(** [crc32.MakeTable(crc32.Castagnoli)]: the 256 entries. *)
Definition crcTable : list Z := Eval vm_compute in crc_entry <$> (Z.of_nat <$> seq 0 256).

Definition crc_lookup (i : Z) : Z := default 0 (crcTable !! Z.to_nat i).

(** [crc = tab[byte(crc)^v] ^ (crc >> 8)] *)
Definition crc_step (c : Z) (b : byte) : Z :=
  Z.lxor (crc_lookup (Z.lxor (Z.land c 255) (byte_to_Z b))) (Z.shiftr c 8).

Definition not32 (c : Z) : Z := Z.lxor c (Z.ones 32).

(** [crc32.Update] *)
Definition crc_Update (crc : Z) (p : list byte) : Z := not32 (foldl crc_step (not32 crc) p).

Example crc_check : crc_Update 0 (str_bytes "123456789") = 0xe3069283.
Proof. vm_compute. reflexivity. Qed.

(** ** Records *)

(** Sequence number, type and timestamp; four bytes of the header stay zero. *)
Definition record_header (e : Event) : list byte :=
  be_put 8 (ev_Seq e) ++ [byte_of_Z (ev_Type e)] ++ be_put 8 (u64 (ev_Timestamp e)) ++ [x00; x00; x00; x00].

Definition record_field (s : string) : list byte := be_put 2 (u16 (Z.of_nat (str_len s))) ++ str_bytes s.

Definition event_fields (e : Event) : list string := [ev_Namespace e; ev_Queue e; ev_Group e; ev_MsgID e].

Definition record_body (e : Event) : list byte :=
  record_header e ++ concat (record_field <$> event_fields e)
  ++ be_put 4 (u32 (Z.of_nat (length (ev_Payload e)))) ++ ev_Payload e.

(** The bytes [writeRecord] appends to the log, and the size it reports. *)
Definition writeRecord (e : Event) : list byte :=
  record_body e ++ be_put 4 (crc_Update 0 (record_body e)).

Definition record_size (e : Event) : Z :=
  21 + 2 + Z.of_nat (str_len (ev_Namespace e)) + 2 + Z.of_nat (str_len (ev_Queue e))
  + 2 + Z.of_nat (str_len (ev_Group e)) + 2 + Z.of_nat (str_len (ev_MsgID e))
  + 4 + Z.of_nat (length (ev_Payload e)) + 4.

(** The sparse index entry: sequence number and file position. *)
Definition index_entry (e : Event) (posBefore : Z) : list byte :=
  be_put 8 (ev_Seq e) ++ be_put 8 (u64 posBefore).

(** ** Reading *)

Inductive wal_error := WIO (e : io_error) | ErrCorruptedRecord (seq : Z).

#[export] Instance wal_error_eq_dec : EqDecision wal_error.
Proof. solve_decision. Defined.

(** One length-prefixed field: its bytes, the checksum and the rest of the stream. *)
Definition read_field (lenBytes : nat) (crc : Z) (s : list byte)
    : list byte * (list byte * Z + io_error) :=
  match ReadFull lenBytes s with
  | (s, inr e) => (s, inr e)
  | (s, inl lenBuf) =>
      let crc := crc_Update crc lenBuf in
      match ReadFull (Z.to_nat (be_get lenBuf)) s with
      | (s, inr e) => (s, inr e)
      | (s, inl data) => (s, inl (data, crc_Update crc data))
      end
  end.

Fixpoint read_fields (n : nat) (crc : Z) (s : list byte)
    : list byte * (list string * Z + io_error) :=
  match n with
  | O => (s, inl ([], crc))
  | S n =>
      match read_field 2 crc s with
      | (s, inr e) => (s, inr e)
      | (s, inl (data, crc)) =>
          match read_fields n crc s with
          | (s, inr e) => (s, inr e)
          | (s, inl (fs, crc)) => (s, inl (bytes_str data :: fs, crc))
          end
      end
  end.

Definition ReadEvent (s : list byte) : list byte * (Event + wal_error) :=
  match ReadFull 21 s with
  | (s, inr e) => (s, inr (WIO e))
  | (s, inl header) =>
      let seq := be_get (take 8 header) in
      let eventType := be_get (take 1 (drop 8 header)) in
      let timestamp := i64 (be_get (take 8 (drop 9 header))) in
      let crc := crc_Update 0 header in
      match read_fields 4 crc s with
      | (s, inr e) => (s, inr (WIO e))
      | (s, inl (fields, crc)) =>
          match read_field 4 crc s with
          | (s, inr e) => (s, inr (WIO e))
          | (s, inl (payload, crc)) =>
              match ReadFull 4 s with
              | (s, inr e) => (s, inr (WIO e))
              | (s, inl footer) =>
                  if be_get footer =? crc
                  then (s, inl (mkEvent eventType (fields !!! 0%nat) (fields !!! 1%nat)
                                 (fields !!! 2%nat) (fields !!! 3%nat) payload seq timestamp))
                  else (s, inr (ErrCorruptedRecord seq))
              end
          end
      end
  end.

(** Read a segment to its end; every record takes at least its header. *)
Fixpoint read_segment (fuel : nat) (s : list byte) : list Event * wal_error :=
  match fuel with
  | O => ([], WIO EOF)
  | S fuel =>
      match ReadEvent s with
      | (_, inr e) => ([], e)
      | (s, inl ev) => let '(evs, e) := read_segment fuel s in (ev :: evs, e)
      end
  end.

(** ** The checksum *)

Lemma not32_invol c : not32 (not32 c) = c.
Proof. unfold not32. by rewrite Z.lxor_assoc, Z.lxor_nilpotent, Z.lxor_0_r. Qed.

Lemma crc_Update_app c xs ys : crc_Update c (xs ++ ys) = crc_Update (crc_Update c xs) ys.
Proof. unfold crc_Update. by rewrite foldl_app, not32_invol. Qed.

Lemma crc_Update_nil c : crc_Update c [] = c.
Proof. unfold crc_Update. simpl. apply not32_invol. Qed.

Definition in32 (c : Z) : Prop := 0 ≤ c < 2 ^ 32.

Lemma table_length : length crcTable = 256%nat.
Proof. done. Qed.

(** The top bytes of the table entries are pairwise different. *)
Lemma table_tops : NoDup ((λ c, Z.shiftr c 24) <$> crcTable).
Proof. by_eval. Qed.

Lemma table_in32 : Forall in32 crcTable.
Proof. unfold in32. by_eval. Qed.

Lemma crc_lookup_some i : 0 ≤ i < 256 → crcTable !! Z.to_nat i = Some (crc_lookup i).
Proof.
  intros Hi. unfold crc_lookup.
  destruct (lookup_lt_is_Some_2 crcTable (Z.to_nat i)) as [x ->]; [rewrite table_length; lia|done].
Qed.

Lemma crc_lookup_in32 i : 0 ≤ i < 256 → in32 (crc_lookup i).
Proof.
  intros Hi%crc_lookup_some. by apply (proj1 (Forall_lookup _ _) table_in32 (Z.to_nat i)).
Qed.

Lemma crc_lookup_top_inj i j :
  0 ≤ i < 256 → 0 ≤ j < 256 →
  Z.shiftr (crc_lookup i) 24 = Z.shiftr (crc_lookup j) 24 → i = j.
Proof.
  intros Hi Hj H. pose proof (crc_lookup_some i Hi) as Li. pose proof (crc_lookup_some j Hj) as Lj.
  assert (Z.to_nat i = Z.to_nat j); [|lia].
  eapply NoDup_lookup; [apply table_tops|..]; rewrite list_lookup_fmap.
  - by rewrite Li.
  - rewrite Lj. simpl. by rewrite H.
Qed.

Lemma lxor_lt w a b : 0 ≤ w → 0 ≤ a < 2 ^ w → 0 ≤ b < 2 ^ w → 0 ≤ Z.lxor a b < 2 ^ w.
Proof.
  intros Hw Ha Hb. rewrite <-(Z.mod_small a (2 ^ w)), <-(Z.mod_small b (2 ^ w)) by done.
  rewrite <-!Z.land_ones by done.
  replace (Z.lxor (Z.land a (Z.ones w)) (Z.land b (Z.ones w))) with (Z.land (Z.lxor a b) (Z.ones w)).
  - rewrite Z.land_ones by done. apply Z.mod_pos_bound. lia.
  - apply Z.bits_inj'. intros n Hn. rewrite !Z.lxor_spec, !Z.land_spec, Z.lxor_spec.
    destruct (Z.testbit a n), (Z.testbit b n), (Z.testbit (Z.ones w) n); done.
Qed.

Lemma shiftr8_range c : in32 c → 0 ≤ Z.shiftr c 8 < 2 ^ 24.
Proof.
  unfold in32. intros Hc. rewrite Z.shiftr_div_pow2 by lia.
  split; [apply Z.div_pos; lia|apply Z.div_lt_upper_bound; lia].
Qed.

Lemma crc_index_range c b : in32 c → 0 ≤ Z.lxor (Z.land c 255) (byte_to_Z b) < 256.
Proof.
  intros Hc. change 256 with (2 ^ 8). pose proof (byte_to_Z_range b). apply lxor_lt; [lia| |lia].
  change 255 with (Z.ones 8). rewrite Z.land_ones by lia. apply Z.mod_pos_bound. lia.
Qed.

Lemma crc_step_in32 c b : in32 c → in32 (crc_step c b).
Proof.
  intros Hc. unfold crc_step, in32. apply lxor_lt; [lia|apply crc_lookup_in32, (crc_index_range c b Hc)|].
  pose proof (shiftr8_range c Hc). lia.
Qed.

(** A step is injective in the state and in the byte. *)
Lemma crc_step_inj c c' b b' :
  in32 c → in32 c' → crc_step c b = crc_step c' b' →
  Z.shiftr c 8 = Z.shiftr c' 8 ∧
  Z.lxor (Z.land c 255) (byte_to_Z b) = Z.lxor (Z.land c' 255) (byte_to_Z b').
Proof.
  intros Hc Hc' H. unfold crc_step in H.
  set (i := Z.lxor (Z.land c 255) (byte_to_Z b)) in *. set (j := Z.lxor (Z.land c' 255) (byte_to_Z b')) in *.
  assert (i = j) as Hij.
  { apply crc_lookup_top_inj; [by apply crc_index_range..|].
    pose proof (f_equal (λ z, Z.shiftr z 24) H) as Ht. simpl in Ht. rewrite !Z.shiftr_lxor in Ht.
    assert (∀ x, 0 ≤ x < 2 ^ 24 → Z.shiftr x 24 = 0) as H0
      by (intros x Hx; rewrite Z.shiftr_div_pow2 by lia; apply Z.div_small; lia).
    rewrite (H0 (Z.shiftr c 8)), (H0 (Z.shiftr c' 8)), !Z.lxor_0_r in Ht by (by apply shiftr8_range).
    done. }
  split; [|done]. rewrite Hij in H.
  apply (f_equal (Z.lxor (crc_lookup j))) in H.
  by rewrite <-!Z.lxor_assoc, Z.lxor_nilpotent, !Z.lxor_0_l in H.
Qed.

Lemma crc_step_state_inj c c' b : in32 c → in32 c' → crc_step c b = crc_step c' b → c = c'.
Proof.
  intros Hc Hc' [Hs Hl]%crc_step_inj; [|done..].
  apply (f_equal (λ z, Z.lxor z (byte_to_Z b))) in Hl.
  rewrite !Z.lxor_assoc, Z.lxor_nilpotent, !Z.lxor_0_r in Hl.
  unfold in32 in *. change 255 with (Z.ones 8) in Hl. rewrite !Z.land_ones in Hl by lia.
  rewrite !Z.shiftr_div_pow2 in Hs by lia.
  rewrite (Z.div_mod c (2 ^ 8)), (Z.div_mod c' (2 ^ 8)) by lia. lia.
Qed.

Lemma crc_step_byte_inj c b b' : in32 c → crc_step c b = crc_step c b' → b = b'.
Proof.
  intros Hc [_ Hl]%crc_step_inj; [|done..].
  apply (f_equal (Z.lxor (Z.land c 255))) in Hl.
  rewrite <-!Z.lxor_assoc, Z.lxor_nilpotent, !Z.lxor_0_l in Hl.
  by rewrite <-(byte_of_to_Z b), Hl, byte_of_to_Z.
Qed.

Lemma crc_fold_in32 c p : in32 c → in32 (foldl crc_step c p).
Proof. revert c. induction p as [|b p IH]; intros c Hc; simpl; auto using crc_step_in32. Qed.

Lemma crc_fold_inj c c' p :
  in32 c → in32 c' → foldl crc_step c p = foldl crc_step c' p → c = c'.
Proof.
  revert c c'. induction p as [|b p IH]; intros c c' Hc Hc' H; [done|]. simpl in H.
  apply (crc_step_state_inj c c' b Hc Hc'), IH; auto using crc_step_in32.
Qed.

Lemma not32_in32 c : in32 c → in32 (not32 c).
Proof. intros Hc. apply lxor_lt; [lia|done|done]. Qed.

Lemma crc_Update_in32 c p : in32 c → in32 (crc_Update c p).
Proof. intros. by apply not32_in32, crc_fold_in32, not32_in32. Qed.

(** Two byte strings that differ in exactly one byte. *)
Definition one_byte (xs ys : list byte) : Prop :=
  ∃ pre b b' post, xs = pre ++ b :: post ∧ ys = pre ++ b' :: post ∧ b ≠ b'.

Lemma crc_one_byte xs ys : one_byte xs ys → crc_Update 0 xs ≠ crc_Update 0 ys.
Proof.
  intros (pre & b & b' & post & -> & -> & Hne) H. unfold crc_Update in H.
  apply (f_equal not32) in H. rewrite !not32_invol, !foldl_app in H. simpl in H.
  assert (in32 (foldl crc_step (not32 0) pre)) as Hs by (by apply crc_fold_in32).
  apply crc_fold_inj in H; [|by apply crc_step_in32..]. by apply crc_step_byte_inj in H.
Qed.

(** ** Round trip *)

Record event_ok (e : Event) : Prop := {
  eo_type : 0 ≤ ev_Type e < 256;
  eo_seq : 0 ≤ ev_Seq e < 2 ^ 64;
  eo_time : - 2 ^ 63 ≤ ev_Timestamp e < 2 ^ 63;
  eo_fields : Forall (λ s, Z.of_nat (str_len s) < 2 ^ 16) (event_fields e);
  eo_payload : Z.of_nat (length (ev_Payload e)) < 2 ^ 32;
}.

Lemma read_field_ok n crc lenBuf data rest :
  length lenBuf = n → be_get lenBuf = Z.of_nat (length data) →
  read_field n crc (lenBuf ++ data ++ rest) = (rest, inl (data, crc_Update crc (lenBuf ++ data))).
Proof.
  intros Hn Hl. unfold read_field. rewrite ReadFull_app by done.
  rewrite Hl, Nat2Z.id, ReadFull_app by done. by rewrite crc_Update_app.
Qed.

Lemma length_record_field s : length (record_field s) = (2 + str_len s)%nat.
Proof. unfold record_field. by rewrite length_app, length_be_put, length_str_bytes. Qed.

Lemma read_fields_ok ss crc rest :
  Forall (λ s, Z.of_nat (str_len s) < 2 ^ 16) ss →
  read_fields (length ss) crc (concat (record_field <$> ss) ++ rest)
  = (rest, inl (ss, crc_Update crc (concat (record_field <$> ss)))).
Proof.
  intros Hss. revert crc. induction Hss as [|s ss Hs Hss IH]; intros crc.
  { simpl. by rewrite crc_Update_nil. }
  cbn [length read_fields].
  change (concat (record_field <$> s :: ss)) with (record_field s ++ concat (record_field <$> ss)).
  assert (u16 (Z.of_nat (str_len s)) = Z.of_nat (str_len s)) as Hu by (apply wrap_u_small; lia).
  assert (record_field s = be_put 2 (Z.of_nat (str_len s)) ++ str_bytes s) as Hrf
    by (unfold record_field; by rewrite Hu).
  rewrite Hrf, <-(app_assoc _ _ rest), <-(app_assoc _ (str_bytes s)).
  rewrite read_field_ok; [|by rewrite length_be_put|
    rewrite be_get_put_small by (simpl; lia); by rewrite length_str_bytes].
  by rewrite IH, bytes_str_bytes, !crc_Update_app.
Qed.

(** A record in its parts, whatever their content. *)
Record raw := mkRaw {
  raw_header : list byte; raw_fields : list string; raw_payload : list byte; raw_footer : Z;
}.

Definition raw_body (r : raw) : list byte :=
  raw_header r ++ concat (record_field <$> raw_fields r)
  ++ be_put 4 (u32 (Z.of_nat (length (raw_payload r)))) ++ raw_payload r.
Definition raw_bytes (r : raw) : list byte := raw_body r ++ be_put 4 (raw_footer r).

Record raw_ok (r : raw) : Prop := {
  ro_header : length (raw_header r) = 21%nat;
  ro_fields : length (raw_fields r) = 4%nat ∧ Forall (λ s, Z.of_nat (str_len s) < 2 ^ 16) (raw_fields r);
  ro_payload : Z.of_nat (length (raw_payload r)) < 2 ^ 32;
  ro_footer : in32 (raw_footer r);
}.

(** The event the parts stand for. *)
Definition raw_event (r : raw) : Event :=
  mkEvent (be_get (take 1 (drop 8 (raw_header r)))) (raw_fields r !!! 0%nat) (raw_fields r !!! 1%nat)
    (raw_fields r !!! 2%nat) (raw_fields r !!! 3%nat) (raw_payload r) (be_get (take 8 (raw_header r)))
    (i64 (be_get (take 8 (drop 9 (raw_header r))))).

(** The reader accepts a record exactly when its footer is the checksum of its body. *)
Lemma ReadEvent_raw r rest :
  raw_ok r →
  ReadEvent (raw_bytes r ++ rest) =
    (rest, if raw_footer r =? crc_Update 0 (raw_body r) then inl (raw_event r)
           else inr (ErrCorruptedRecord (ev_Seq (raw_event r)))).
Proof.
  intros [Hh [Hn Hf] Hp Hfo]. unfold ReadEvent, raw_bytes. unfold raw_body at 1.
  rewrite <-!app_assoc. rewrite ReadFull_app by done.
  pose proof (read_fields_ok (raw_fields r)) as Hrf. rewrite Hn in Hrf. rewrite Hrf by done.
  assert (u32 (Z.of_nat (length (raw_payload r))) = Z.of_nat (length (raw_payload r))) as Hu
    by (apply wrap_u_small; lia).
  rewrite read_field_ok; [|by rewrite length_be_put|rewrite Hu; apply be_get_put_small; change (256 ^ Z.of_nat 4) with (2 ^ 32); lia].
  rewrite ReadFull_app by (by rewrite length_be_put). rewrite be_get_put_small by (simpl; exact Hfo).
  rewrite <-!crc_Update_app. fold (raw_body r).
  replace (raw_header r ++ concat (record_field <$> raw_fields r) ++
    be_put 4 (u32 (Z.of_nat (length (raw_payload r)))) ++ raw_payload r) with (raw_body r) by done.
  by destruct (raw_footer r =? crc_Update 0 (raw_body r)).
Qed.

Definition raw_of (e : Event) : raw :=
  mkRaw (record_header e) (event_fields e) (ev_Payload e) (crc_Update 0 (record_body e)).

Lemma length_record_header e : length (record_header e) = 21%nat.
Proof. unfold record_header. by rewrite !length_app, !length_be_put. Qed.

Lemma raw_of_ok e : event_ok e → raw_ok (raw_of e).
Proof.
  intros [H1 H2 H3 H4 H5]. constructor; [apply length_record_header|done|done|].
  by apply crc_Update_in32.
Qed.

Lemma raw_of_bytes e : raw_bytes (raw_of e) = writeRecord e.
Proof. done. Qed.

Lemma raw_of_event e : event_ok e → raw_event (raw_of e) = e.
Proof.
  intros [Ht Hs Hti _ _]. unfold raw_event. cbn [raw_of raw_header raw_fields raw_payload].
  unfold record_header.
  rewrite (take_app_length' (be_put 8 (ev_Seq e))) by (by rewrite length_be_put).
  rewrite (drop_app_length' (be_put 8 (ev_Seq e))) by (by rewrite length_be_put).
  rewrite (app_assoc (be_put 8 (ev_Seq e))).
  rewrite (drop_app_length' (be_put 8 (ev_Seq e) ++ _)) by (by rewrite length_app, length_be_put).
  rewrite (take_app_length' (be_put 8 (u64 _))) by (by rewrite length_be_put).
  rewrite take_app_length' by done.
  rewrite !be_get_put_small by (simpl; unfold wrap_u; first [lia|apply Z.mod_pos_bound; lia]).
  rewrite wrap_s_wrap_u, wrap_s_small by lia.
  assert (be_get [byte_of_Z (ev_Type e)] = ev_Type e) as ->.
  { unfold be_get. simpl. rewrite byte_to_of_Z, Z.mod_small by done. done. }
  by destruct e.
Qed.

Lemma ReadEvent_write e rest : event_ok e → ReadEvent (writeRecord e ++ rest) = (rest, inl e).
Proof.
  intros Hok. rewrite <-raw_of_bytes, ReadEvent_raw by (by apply raw_of_ok).
  cbn [raw_footer raw_of]. change (raw_body (raw_of e)) with (record_body e).
  by rewrite Z.eqb_refl, raw_of_event.
Qed.

Lemma read_segment_write es rest fuel :
  Forall event_ok es → (length es ≤ fuel)%nat →
  read_segment fuel (concat (writeRecord <$> es) ++ rest) =
    let '(evs, e) := read_segment (fuel - length es) rest in (es ++ evs, e).
Proof.
  intros Hok. revert fuel. induction Hok as [|e es He Hes IH]; intros fuel Hf; simpl in Hf.
  { simpl. rewrite Nat.sub_0_r. by destruct (read_segment fuel rest). }
  destruct fuel as [|fuel]; [lia|]. cbn [read_segment].
  change (concat (writeRecord <$> e :: es)) with (writeRecord e ++ concat (writeRecord <$> es)).
  rewrite <-app_assoc, ReadEvent_write by done. rewrite IH by lia. simpl.
  by destruct (read_segment (fuel - length es) rest).
Qed.

Lemma length_writeRecord e : (0 < length (writeRecord e))%nat.
Proof. unfold writeRecord. rewrite length_app, length_be_put. lia. Qed.

Lemma length_records es : (length es ≤ length (concat (writeRecord <$> es)))%nat.
Proof.
  induction es as [|e es IH]; [done|].
  change (concat (writeRecord <$> e :: es)) with (writeRecord e ++ concat (writeRecord <$> es)).
  rewrite length_app. pose proof (length_writeRecord e). simpl. lia.
Qed.

(** The log is read back as it was written: a segment holding any sequence
    of records decodes to exactly those events, in order, with their sequence
    numbers and timestamps, and then reports the end of the file. *)
Theorem segment_roundtrip es fuel :
  Forall event_ok es → (length es < fuel)%nat →
  read_segment fuel (concat (writeRecord <$> es)) = (es, WIO EOF).
Proof.
  intros Hok Hf. rewrite <-(app_nil_r (concat _)), read_segment_write by (done || lia).
  destruct (fuel - length es)%nat eqn:E; [lia|]. simpl. by rewrite app_nil_r.
Qed.

Definition sample_event : Event :=
  mkEvent EventPublish "ns" "jobs" "t1" "id1" (str_bytes "hello") 1 1700000000000000000.

Lemma sample_event_ok : event_ok sample_event.
Proof. constructor; by_eval. Qed.

Lemma segment_roundtrip_witness :
  let es := [sample_event; mkEvent EventACK "ns" "jobs" "t1" "id1" [] 2 (-1)] in
  (Forall event_ok es ∧ (length es < 3)%nat) ∧
  read_segment 3 (concat (writeRecord <$> es)) = (es, WIO EOF).
Proof.
  assert (Forall event_ok [sample_event; mkEvent EventACK "ns" "jobs" "t1" "id1" [] 2 (-1)]) as H.
  { constructor; [apply sample_event_ok|]. constructor; [|constructor]. constructor; by_eval. }
  split; [split; [exact H|simpl; lia]|].
  apply (segment_roundtrip [sample_event; mkEvent EventACK "ns" "jobs" "t1" "id1" [] 2 (-1)] 3 H). simpl. lia.
Defined.

Lemma length_fields ss :
  length (concat (record_field <$> ss)) = sum_list_with (λ n, 2 + n)%nat (str_len <$> ss).
Proof.
  induction ss as [|s ss IH]; [done|].
  change (concat (record_field <$> s :: ss)) with (record_field s ++ concat (record_field <$> ss)).
  by rewrite length_app, length_record_field, IH.
Qed.

(** The part of a string before a cut that lies behind the byte [x]. *)
Lemma cut_at (x : byte) (body ft pre post : list byte) :
  (length pre < length body)%nat → body ++ ft = pre ++ x :: post →
  body = pre ++ x :: take (length body - S (length pre)) post.
Proof.
  intros Hl Heq. apply (f_equal (take (length body))) in Heq.
  rewrite take_app_length, take_app, take_ge in Heq by lia.
  rewrite Heq at 1. f_equal. destruct (length body - length pre)%nat eqn:Ed; [lia|].
  simpl. do 2 f_equal. lia.
Qed.

(** C15. A corrupted byte is detected: whichever single byte of a written record
    changes, in the header, in a field, in the payload or in the checksum
    (the field lengths staying as they are), the reader reports a corrupted
    record instead of returning an event. *)
Theorem corruption_detected e r rest :
  event_ok e → raw_ok r → one_byte (writeRecord e) (raw_bytes r) →
  str_len <$> raw_fields r = str_len <$> event_fields e →
  length (raw_payload r) = length (ev_Payload e) →
  ReadEvent (raw_bytes r ++ rest) = (rest, inr (ErrCorruptedRecord (ev_Seq (raw_event r)))).
Proof.
  intros He Hr Hone Hfl Hpl. rewrite ReadEvent_raw by done.
  assert (length (raw_body r) = length (record_body e)) as Hlen.
  { unfold raw_body, record_body. rewrite !length_app, !length_be_put, length_record_header, (ro_header r Hr), Hpl.
    by rewrite !length_fields, Hfl. }
  assert (raw_footer r ≠ crc_Update 0 (raw_body r)) as Hne.
  { intros Hf. destruct Hone as (pre & b & b' & post & Hw & Hb & Hbb).
    unfold writeRecord in Hw. unfold raw_bytes in Hb.
    destruct (decide (length pre < length (record_body e))%nat) as [Hlt|Hge].
    - apply (crc_one_byte (record_body e) (raw_body r)).
      + exists pre, b, b', (take (length (record_body e) - S (length pre)) post).
        split_and!; [by eapply cut_at|rewrite <-Hlen; eapply cut_at; [lia|done]|done].
      + assert (be_put 4 (raw_footer r) = be_put 4 (crc_Update 0 (record_body e))) as Hfoot.
        { apply (f_equal (drop (length (record_body e)))) in Hw, Hb.
          rewrite drop_app_length in Hw. rewrite <-Hlen, drop_app_length, Hlen in Hb. rewrite Hw, Hb.
          rewrite !drop_app, !(drop_ge pre) by lia.
          destruct (length (record_body e) - length pre)%nat eqn:Ed; [lia|done]. }
        apply (f_equal be_get) in Hfoot.
        rewrite !be_get_put_small in Hfoot by first [exact (ro_footer r Hr) | apply (crc_Update_in32 0); done].
        congruence.
    - assert (raw_body r = record_body e) as Hbody.
      { apply (f_equal (take (length (record_body e)))) in Hw, Hb.
        rewrite take_app_length in Hw. rewrite <-Hlen, take_app_length, Hlen in Hb. rewrite Hw, Hb.
        by rewrite !take_app_le by lia. }
      rewrite Hbody in *. rewrite Hf, Hw in Hb. apply app_inv_head in Hb. congruence. }
  by rewrite (proj2 (Z.eqb_neq _ _)).
Qed.

Lemma corruption_detected_witness :
  let r := mkRaw (record_header sample_event) (event_fields sample_event) (str_bytes "hellp")
             (crc_Update 0 (record_body sample_event)) in
  (event_ok sample_event ∧ raw_ok r ∧ one_byte (writeRecord sample_event) (raw_bytes r) ∧
   str_len <$> raw_fields r = str_len <$> event_fields sample_event ∧
   length (raw_payload r) = length (ev_Payload sample_event)) ∧
  ReadEvent (raw_bytes r ++ []) = ([], inr (ErrCorruptedRecord (ev_Seq (raw_event r)))).
Proof.
  set (r := mkRaw (record_header sample_event) (event_fields sample_event) (str_bytes "hellp")
             (crc_Update 0 (record_body sample_event))).
  assert (raw_ok r) as Hr.
  { constructor; [by_eval|split; by_eval|by_eval|]. split; vm_compute; congruence. }
  assert (one_byte (writeRecord sample_event) (raw_bytes r)) as Ho.
  { exists (take 48 (writeRecord sample_event)), "o"%byte, "p"%byte, (drop 49 (writeRecord sample_event)).
    by vm_compute. }
  split; [split_and!; [apply sample_event_ok|exact Hr|exact Ho|by_eval|by_eval]|].
  apply (corruption_detected sample_event r [] sample_event_ok Hr Ho); by_eval.
Defined.

Arguments writeRecord : simpl never.
