(* ===== verification/Wal.v ===== *)
(** * The write-ahead log writer (src/internal/storage/wal.go, writer.go, segment.go)

    One writer goroutine per queue collects events from a channel into batches
    and flushes each batch to the current segment file.  The results of the
    operating system calls (flush, fsync, opening the next segment) and the
    clock are arguments of the operations; a flush that fails may have written
    any prefix of the buffer, and the buffered writer refuses everything
    afterwards, as [bufio.Writer] does. *)

From stdpp Require Import base gmap list strings.
From Stdlib Require Import ZArith Lia Strings.Byte.
From S2P Require Import Prelude WalRecord.
Local Open Scope Z_scope.

(** ** State *)

Record WALConfig := mkWALConfig {
  FlushMaxMessages : Z;
  SegmentMaxBytes : Z;
  Durable : bool;
}.

(** An error of the operating system: whether it is [os.ErrClosed], and its text. *)
Record io_error := mkIOError { err_closed : bool; err_text : string }.

#[export] Instance io_error_eq_dec : EqDecision io_error.
Proof. solve_decision. Defined.

(** [s[i:i+len(sub)] == sub] *)
Definition occurs_at (s sub : list byte) (i : nat) : bool := bool_decide (take (length sub) (drop i s) = sub).
Definition containsAny (s : string) (substrs : list string) : bool :=
  let s := str_bytes s in
  existsb (λ sub, let sub := str_bytes sub in
    (length sub <=? length s)%nat && existsb (occurs_at s sub) (seq 0 (S (length s - length sub)))) substrs.

Definition isDiskFull (err : io_error) : bool :=
  err_closed err || containsAny (err_text err) ["no space left on device"; "disk quota exceeded"; "not enough space"].

(** What the operating system does during one flush. *)
Record io_results := mkIO {
  io_flush : option (nat * io_error);   (** error, and how much of the buffer was written *)
  io_sync : option io_error;
  io_open : bool;                      (** whether the next log file can be opened *)
  io_clock : nat → Z;                  (** [time.Now()] per event *)
}.

(** A log file: its number, its bytes, and how many of them an fsync has put on
    stable storage. *)
Record segment := mkSegment { seg_id : Z; seg_bytes : list byte; seg_synced : nat }.

Record QueueWAL := mkQueueWAL {
  w_cfg : WALConfig;
  w_seq : Z;
  w_segmentID : Z;
  w_fileSize : Z;
  w_closed : list segment;             (** segments written before the current one *)
  w_file : segment;                    (** the open segment file, as on disk *)
  w_buf : list byte;                   (** bytes in [logBuf] not yet flushed *)
  w_sticky : option io_error;           (** error state of [logBuf] *)
  w_errored : option io_error;          (** [errored]: permanent failure *)
}.

(** [newQueueWAL] on a directory whose last segment is [last]: the file is
    opened for appending and its size becomes [fileSize]; [seq] starts at 0. *)
Definition newQueueWAL (cfg : WALConfig) (closed : list segment) (last : segment) : QueueWAL :=
  mkQueueWAL cfg 0 (seg_id last) (Z.of_nat (length (seg_bytes last))) closed last [] None None.

Definition segments (q : QueueWAL) : list segment := w_closed q ++ [w_file q].

(** ** Writing a batch *)

(** An event with the waiter of [AppendSync], if any. *)
Record pending_event := mkPending { p_event : Event; p_waiter : option nat }.

Definition stamp (e : Event) (seq ts : Z) : Event :=
  mkEvent (ev_Type e) (ev_Namespace e) (ev_Queue e) (ev_Group e) (ev_MsgID e) (ev_Payload e) seq ts.

(** [logBuf.Write] of a record; an error state swallows the data. *)
Definition buf_write (bytes : list byte) (q : QueueWAL) : QueueWAL :=
  match w_sticky q with
  | Some _ => q
  | None => mkQueueWAL (w_cfg q) (w_seq q) (w_segmentID q) (w_fileSize q) (w_closed q) (w_file q)
              (w_buf q ++ bytes) None (w_errored q)
  end.

(** One iteration of the loop over the batch. *)
Definition append_record (ts : Z) (e : Event) (q : QueueWAL) : QueueWAL :=
  let seq := u64 (w_seq q + 1) in
  let e := stamp e seq ts in
  let q := mkQueueWAL (w_cfg q) seq (w_segmentID q) (w_fileSize q + record_size e) (w_closed q)
             (w_file q) (w_buf q) (w_sticky q) (w_errored q) in
  buf_write (writeRecord e) q.

Fixpoint write_batch (clock : nat → Z) (i : nat) (batch : list Event) (q : QueueWAL) : QueueWAL :=
  match batch with
  | [] => q
  | e :: batch => write_batch clock (S i) batch (append_record (UnixNano (clock i)) e q)
  end.

(** [logBuf.Flush()] *)
Definition buf_flush (r : option (nat * io_error)) (q : QueueWAL) : QueueWAL * option io_error :=
  match w_sticky q with
  | Some k => (q, Some k)
  | None =>
      let '(n, sticky) := match r with Some (n, k) => (n, Some k) | None => (length (w_buf q), None) end in
      let file := mkSegment (seg_id (w_file q)) (seg_bytes (w_file q) ++ take n (w_buf q)) (seg_synced (w_file q)) in
      (mkQueueWAL (w_cfg q) (w_seq q) (w_segmentID q) (w_fileSize q) (w_closed q) file
         (drop n (w_buf q)) sticky (w_errored q), sticky)
  end.

(** [file.Sync()] that succeeds *)
Definition fsync (q : QueueWAL) : QueueWAL :=
  mkQueueWAL (w_cfg q) (w_seq q) (w_segmentID q) (w_fileSize q) (w_closed q)
    (mkSegment (seg_id (w_file q)) (seg_bytes (w_file q)) (length (seg_bytes (w_file q)))) (w_buf q) (w_sticky q) (w_errored q).

Definition SetErr (k : io_error) (q : QueueWAL) : QueueWAL :=
  mkQueueWAL (w_cfg q) (w_seq q) (w_segmentID q) (w_fileSize q) (w_closed q) (w_file q) (w_buf q)
    (w_sticky q) (Some k).

(** [fmt.Errorf("%w: %s", ErrWALFailed, err)] *)
Definition wal_failed (k : io_error) : io_error := mkIOError false ("wal: permanently failed: " +:+ err_text k).
Definition fail_with (k : io_error) (q : QueueWAL) : QueueWAL :=
  if isDiskFull k then SetErr (wal_failed k) q else q.

(** [rotateSegment]: the identifier and size are updated first; if the new log
    file cannot be opened the old one stays in use.  The errors of the index
    file and of closing the old file come after the new log is in use. *)
Definition rotateSegment (ok : bool) (q : QueueWAL) : QueueWAL :=
  let id := w_segmentID q + 1 in
  if ok
  then mkQueueWAL (w_cfg q) (w_seq q) id 0 (w_closed q ++ [w_file q]) (mkSegment id [] 0) []
         (w_sticky q) (w_errored q)
  else mkQueueWAL (w_cfg q) (w_seq q) id 0 (w_closed q) (w_file q) (w_buf q) (w_sticky q) (w_errored q).

Definition signals : Type := list (nat * option io_error).

Definition signalDone (err : option io_error) (batch : list pending_event) : signals :=
  omap (λ p, (λ w, (w, err)) <$> p_waiter p) batch.

(** [flushBatch]: write, flush, fsync when durable, answer the waiters, rotate. *)
Definition flushBatch (io : io_results) (batch : list pending_event) (q : QueueWAL) : QueueWAL * signals :=
  if decide (batch = []) then (q, [])
  else
    let q := write_batch (io_clock io) 0 (p_event <$> batch) q in
    match buf_flush (io_flush io) q with
    | (q, Some k) => (fail_with k q, signalDone (Some k) batch)
    | (q, None) =>
        match (if Durable (w_cfg q) then io_sync io else None) with
        | Some k => (fail_with k q, signalDone (Some k) batch)
        | None =>
            let sig := signalDone None batch in
            let q := if Durable (w_cfg q) then fsync q else q in
            (if SegmentMaxBytes (w_cfg q) <=? w_fileSize q then rotateSegment (io_open io) q else q, sig)
        end
    end.

(** ** The writer goroutine *)

Definition chan_cap : Z := 8192.

Record writer := mkWriter {
  wr_wal : QueueWAL;
  wr_batch : list pending_event;
  wr_chan : list pending_event;
  wr_signals : signals;
  wr_done : bool;
}.

(** [flush := func() { if len(batch) > 0 { q.flushBatch(batch); batch = batch[:0] } }] *)
Definition flush (io : io_results) (w : writer) : writer :=
  let '(q, s) := flushBatch io (wr_batch w) (wr_wal w) in
  mkWriter q [] (wr_chan w) (wr_signals w ++ s) (wr_done w).

(** Take one event from the channel. *)
Definition receive (io : io_results) (p : pending_event) (w : writer) : writer :=
  let w := mkWriter (wr_wal w) (wr_batch w ++ [p]) (wr_chan w) (wr_signals w) (wr_done w) in
  if FlushMaxMessages (w_cfg (wr_wal w)) <=? Z.of_nat (length (wr_batch w)) then flush io w else w.

(** The drain loop of the stop case. *)
Fixpoint drain (ios : list io_results) (ps : list pending_event) (w : writer) : writer :=
  match ps, ios with
  | p :: ps, io :: ios => drain ios ps (receive io p w)
  | _, _ => w
  end.

Definition set_chan (c : list pending_event) (w : writer) : writer :=
  mkWriter (wr_wal w) (wr_batch w) c (wr_signals w) (wr_done w).
Definition set_done (w : writer) : writer :=
  mkWriter (wr_wal w) (wr_batch w) (wr_chan w) (wr_signals w) true.

(** [Append] and the send of [AppendSync]: refused once the log has failed or
    when the channel is full. *)
Inductive append_error := AppendFailed (k : io_error) | ChannelFull.

Definition Append (p : pending_event) (w : writer) : writer * option append_error :=
  match w_errored (wr_wal w) with
  | Some k => (w, Some (AppendFailed k))
  | None =>
      if Z.of_nat (length (wr_chan w)) <? chan_cap
      then (set_chan (wr_chan w ++ [p]) w, None)
      else (w, Some ChannelFull)
  end.

(** One turn of the goroutine's loop.  At the top of a turn a failed log drains its channel and stops. *)
Inductive wstep (w : writer) : writer → Prop :=
| ws_failed k :
    wr_done w = false → w_errored (wr_wal w) = Some k →
    wstep w (set_done (mkWriter (wr_wal w) (wr_batch w) [] (wr_signals w ++ signalDone (Some k) (wr_chan w)) false))
| ws_event io p c :
    wr_done w = false → w_errored (wr_wal w) = None → wr_chan w = p :: c →
    wstep w (receive io p (set_chan c w))
| ws_tick io : wr_done w = false → w_errored (wr_wal w) = None → wstep w (flush io w)
| ws_stop ios io :
    wr_done w = false → w_errored (wr_wal w) = None → length ios = length (wr_chan w) →
    wstep w (set_done (flush io (set_chan [] (drain ios (wr_chan w) w)))).

Definition new_writer (q : QueueWAL) : writer := mkWriter q [] [] [] false.

(** ** Segment files *)

(** [removeOldSegments]: files numbered below the segment before the snapshot go. *)
Definition removeOldSegments (snapSegID : Z) (ids : list Z) : list Z :=
  let keepFrom := if 1 <? snapSegID then snapSegID - 1 else 0 in
  List.filter (λ id, keepFrom <=? id) ids.

(** The highest segment number present, 0 if there is none. *)
Definition findLastSegmentID (ids : list Z) : Z := foldl Z.max 0 ids.

(** ** Per-queue settings *)

(** [namespace + "/" + queue] *)
Definition wal_key (namespace queue : string) : string := namespace +:+ "/" +:+ queue.

(** An open queue log: its durable flag, and the queue object whose state the
    registered provider exports. *)
Record wal_entry := mkWalEntry { we_durable : bool; we_provider : option nat }.

Record WAL := mkWAL {
  wal_durable : bool;
  wal_queues : gmap string wal_entry;
  wal_override : gmap string bool;
}.

Definition NewWAL (durable : bool) : WAL := mkWAL durable ∅ ∅.

Definition QueueDurable (ns queue : string) (w : WAL) : bool :=
  default (wal_durable w) (wal_override w !! wal_key ns queue).

Definition set_entry (key : string) (f : wal_entry → wal_entry) (w : WAL) : gmap string wal_entry :=
  match wal_queues w !! key with Some e => <[key := f e]> (wal_queues w) | None => wal_queues w end.

Definition SetQueueDurable (ns queue : string) (durable : bool) (w : WAL) : WAL :=
  let key := wal_key ns queue in
  mkWAL (wal_durable w) (set_entry key (λ e, mkWalEntry durable (we_provider e)) w) (<[key := durable]> (wal_override w)).

(** The provider is kept by a log that is open. *)
Definition RegisterQueueState (ns queue : string) (p : nat) (w : WAL) : WAL :=
  mkWAL (wal_durable w) (set_entry (wal_key ns queue) (λ e, mkWalEntry (we_durable e) (Some p)) w) (wal_override w).

(** [getQueueWAL]: the log of a queue, opened on first use. *)
Definition getQueueWAL (ns queue : string) (w : WAL) : WAL :=
  let key := wal_key ns queue in
  match wal_queues w !! key with
  | Some _ => w
  | None => mkWAL (wal_durable w) (<[key := mkWalEntry (default (wal_durable w) (wal_override w !! key)) None]> (wal_queues w))
              (wal_override w)
  end.

(** [DestroyQueue], whether a log was there *)
Definition DestroyQueue (ns queue : string) (w : WAL) : WAL * bool :=
  let key := wal_key ns queue in
  match wal_queues w !! key with
  | None => (w, false)
  | Some _ => (mkWAL (wal_durable w) (delete key (wal_queues w)) (wal_override w), true)
  end.

(** ** What is on disk *)

(** The events recovery reads from a list of segments. *)
Definition segment_events (s : segment) : list Event :=
  (read_segment (S (length (seg_bytes s))) (seg_bytes s)).1.
Definition log_events (segs : list segment) : list Event := concat (segment_events <$> segs).

(** The events of a batch with the numbers and times they are written with. *)
Fixpoint stamped (clock : nat → Z) (i : nat) (seq : Z) (batch : list Event) : list Event :=
  match batch with
  | [] => []
  | e :: batch => stamp e (u64 (seq + 1)) (UnixNano (clock i)) :: stamped clock (S i) (u64 (seq + 1)) batch
  end.

Definition flush_outcome (io : io_results) (q : QueueWAL) : option io_error :=
  match w_sticky q with
  | Some k => Some k
  | None =>
      match io_flush io with
      | Some (_, k) => Some k
      | None => if Durable (w_cfg q) then io_sync io else None
      end
  end.

(** The state of the log: every closed segment holds whole records, the current
    one holds whole records and, after a failed write only, a rest; [L] is the
    sequence of events written. *)
Record log_ok (q : QueueWAL) (L : list Event) : Prop := {
  lo_events : Forall event_ok L;
  lo_parts : ∃ ess es rest, L = concat ess ++ es ∧
    seg_bytes <$> w_closed q = (λ es, concat (writeRecord <$> es)) <$> ess ∧
    seg_bytes (w_file q) = concat (writeRecord <$> es) ++ rest ∧
    (w_sticky q = None → rest = [] ∧ w_buf q = []);
}.

Lemma segment_events_records es rest id n :
  Forall event_ok es →
  ∃ extra, segment_events (mkSegment id (concat (writeRecord <$> es) ++ rest) n) = es ++ extra ∧
    (rest = [] → extra = []).
Proof.
  intros Hok. unfold segment_events. cbn [seg_bytes].
  pose proof (length_records es) as Hl.
  rewrite read_segment_write by (done || (rewrite length_app; lia)).
  destruct (read_segment _ rest) as [extra e] eqn:E. exists extra. split; [done|].
  intros ->. destruct (S _ - _)%nat in E; [by injection E as <- _|]. simpl in E. by injection E as <- _.
Qed.

Lemma closed_events ess closed :
  Forall (Forall event_ok) ess →
  seg_bytes <$> closed = (λ es, concat (writeRecord <$> es)) <$> ess →
  log_events closed = concat ess.
Proof.
  revert closed. induction ess as [|es ess IH]; intros [|s closed] Hok Hc; csimpl in Hc; try done.
  apply Forall_cons in Hok as [He Hok]. injection Hc as H1 H2.
  unfold log_events. csimpl. fold (log_events closed). rewrite (IH closed Hok H2). f_equal.
  destruct s as [id bs n]. simpl in H1. subst bs.
  rewrite <-(app_nil_r (concat (writeRecord <$> es))).
  destruct (segment_events_records es [] id n He) as (extra & -> & Hx). rewrite Hx by done. apply app_nil_r.
Qed.

(** Recovery reads back at least what the log holds. *)
Lemma log_ok_read q L : log_ok q L → ∃ extra, log_events (segments q) = L ++ extra.
Proof.
  intros [Hok (ess & es & rest & -> & Hc & Hf & _)]. apply Forall_app in Hok as [Hess Hes].
  unfold log_events, segments. rewrite fmap_app, concat_app. fold (log_events (w_closed q)).
  rewrite (closed_events ess) by (done || by apply Forall_concat in Hess).
  simpl. rewrite app_nil_r. destruct (w_file q) as [id bs n]. simpl in Hf. subst bs.
  destruct (segment_events_records es rest id n Hes) as (extra & -> & _).
  exists extra. by rewrite app_assoc.
Qed.

(** ** One batch *)

Lemma write_batch_spec clock i batch q :
  write_batch clock i batch q =
    mkQueueWAL (w_cfg q) (w_seq (write_batch clock i batch q)) (w_segmentID q)
      (w_fileSize (write_batch clock i batch q)) (w_closed q) (w_file q)
      (match w_sticky q with
       | None => w_buf q ++ concat (writeRecord <$> stamped clock i (w_seq q) batch)
       | Some _ => w_buf q end) (w_sticky q) (w_errored q).
Proof.
  revert i q. induction batch as [|e batch IH]; intros i q; simpl.
  { rewrite app_nil_r. by destruct q as [? ? ? ? ? ? ? [] ?]. }
  rewrite IH. destruct q as [? ? ? ? ? ? ? [] ?]; simpl; f_equal. by rewrite <-app_assoc.
Qed.

Definition event_fit (e : Event) : Prop := event_ok (stamp e 0 0).

Lemma stamped_ok clock i seq batch :
  Forall event_fit batch → Forall event_ok (stamped clock i seq batch).
Proof.
  intros Hb. revert i seq. induction Hb as [|e batch [] Hb IH]; intros i seq; constructor; [|done].
  constructor; simpl in *; try done.
  - unfold wrap_u. apply Z.mod_pos_bound. lia.
  - unfold UnixNano, wrap_s. pose proof (Z.mod_pos_bound (clock i + 2 ^ (64 - 1)) (2 ^ 64)). lia.
Qed.

Lemma rotate_log_ok ok q L :
  w_sticky q = None → log_ok q L → log_ok (rotateSegment ok q) L.
Proof.
  intros Hs [Hok (ess & es & rest & -> & Hc & Hf & Hr)]. destruct (Hr Hs) as [-> Hb].
  split; [done|]. unfold rotateSegment. destruct ok; simpl.
  - exists (ess ++ [es]), [], []. rewrite concat_app, !fmap_app. simpl. rewrite !app_nil_r in *.
    split_and!; try done. by rewrite Hc, Hf.
  - by exists ess, es, [].
Qed.

Lemma fsync_log_ok q L : log_ok q L → log_ok (fsync q) L.
Proof. by intros [Hok Hp]. Qed.

Lemma fail_with_log_ok k q L : log_ok q L → log_ok (fail_with k q) L.
Proof. intros [Hok Hp]. unfold fail_with. by destruct (isDiskFull k). Qed.

(** A batch that is written and flushed is in the log. *)
Lemma batch_written clock batch q L :
  log_ok q L → w_sticky q = None → Forall event_fit batch →
  log_ok (buf_flush None (write_batch clock 0 batch q)).1 (L ++ stamped clock 0 (w_seq q) batch).
Proof.
  intros [Hok (ess & es & rest & HL & Hc & Hf & Hr)] Hs Hfit. destruct (Hr Hs) as [-> Hb].
  rewrite write_batch_spec. unfold buf_flush. simpl. rewrite Hs, Hb. simpl. rewrite firstn_all, drop_all.
  split; [by apply Forall_app; split; [|apply stamped_ok]|].
  exists ess, (es ++ stamped clock 0 (w_seq q) batch), []. simpl.
  rewrite HL, Hf, fmap_app, concat_app, !app_nil_r, app_assoc. done.
Qed.

(** A batch is logged whole when the flush succeeds; the waiters hear the outcome. *)
Lemma flushBatch_spec io batch q L :
  log_ok q L → batch ≠ [] → Forall event_fit (p_event <$> batch) →
  let '(q', sig) := flushBatch io batch q in
  sig = signalDone (flush_outcome io q) batch ∧ w_cfg q' = w_cfg q ∧
  ∃ new, log_ok q' (L ++ new) ∧
    (new = [] ∨ new = stamped (io_clock io) 0 (w_seq q) (p_event <$> batch)) ∧
    (flush_outcome io q = None → new = stamped (io_clock io) 0 (w_seq q) (p_event <$> batch)).
Proof.
  intros Hlog Hne Hfit. unfold flushBatch. rewrite decide_False by done.
  pose proof (λ Hs, batch_written (io_clock io) (p_event <$> batch) q L Hlog Hs Hfit) as Hw. revert Hw.
  rewrite write_batch_spec. set (recs := stamped (io_clock io) 0 (w_seq q) (p_event <$> batch)).
  destruct Hlog as [Hok (ess & es & rest & HL & Hc & Hf & Hr)].
  unfold flush_outcome, buf_flush. simpl. destruct (w_sticky q) as [k|] eqn:Es; simpl; intros Hw.
  { split; [done|]. split; [by unfold fail_with; destruct (isDiskFull k)|]. exists []. rewrite app_nil_r.
    split; [|by split; [left|]]. apply fail_with_log_ok. split; [done|]. exists ess, es, rest. by split_and!. }
  specialize (Hw eq_refl). destruct (Hr eq_refl) as [-> Hb]. rewrite Hb in *. rewrite !app_nil_r in *. simpl.
  destruct (io_flush io) as [[n k]|]; simpl.
  { split; [done|]. split; [by unfold fail_with; destruct (isDiskFull k)|]. exists []. rewrite app_nil_r.
    split; [|by split; [left|]]. apply fail_with_log_ok. split; [done|].
    exists ess, es, (take n (concat (writeRecord <$> recs))). simpl. rewrite Hf. by split_and!. }
  simpl in Hw. set (q1 := mkQueueWAL _ _ _ _ _ _ _ _ _) in *.
  destruct (if Durable (w_cfg q) then io_sync io else None) as [k|]; simpl.
  - split; [done|]. split; [by unfold fail_with; destruct (isDiskFull k)|]. exists recs.
    split; [apply fail_with_log_ok, Hw|]. by split; [right|].
  - split; [done|]. set (q2 := if Durable (w_cfg q) then fsync q1 else q1).
    assert (log_ok q2 (L ++ recs) ∧ w_sticky q2 = None ∧ w_cfg q2 = w_cfg q) as (Hlog2 & Hs2 & Hc2).
    { unfold q2. destruct (Durable _); split_and!; [apply fsync_log_ok, Hw|done|done|apply Hw|done|done]. }
    split; [by destruct (_ <=? _); [destruct (io_open io)|]|]. exists recs.
    split; [|by split; [right|]]. destruct (_ <=? _); [by apply rotate_log_ok|done].
Qed.

(** Sequence numbers of the stamped events count up from the last one. *)
Lemma stamped_seqs clock i seq batch :
  0 ≤ seq → seq + Z.of_nat (length batch) < 2 ^ 64 →
  ev_Seq <$> stamped clock i seq batch = (λ n, seq + 1 + Z.of_nat n) <$> List.seq 0 (length batch).
Proof.
  revert i seq. induction batch as [|e batch IH]; intros i seq H0 Hmax; [done|]. simpl in Hmax.
  cbn [stamped length List.seq]. csimpl.
  assert (u64 (seq + 1) = seq + 1) as Hu by (apply wrap_u_small; lia).
  rewrite Hu, IH by lia. f_equal; [lia|].
  rewrite <-seq_shift, <-list_fmap_compose. apply list_fmap_ext. intros j n _. simpl. lia.
Qed.

(** ** The writer goroutine *)

Definition waiters (ps : list pending_event) : list nat := omap p_waiter ps.

Lemma signalDone_waiters err ps : (signalDone err ps).*1 = waiters ps.
Proof.
  induction ps as [|p ps IH]; [done|]. unfold signalDone, waiters in *. csimpl.
  destruct (p_waiter p); csimpl; congruence.
Qed.

Lemma waiters_app ps ps' : waiters (ps ++ ps') = waiters ps ++ waiters ps'.
Proof. apply omap_app. Qed.

Lemma flush_signals io w :
  (wr_signals (flush io w)).*1 = (wr_signals w).*1 ++ waiters (wr_batch w) ∧
  wr_batch (flush io w) = [] ∧ wr_chan (flush io w) = wr_chan w ∧ wr_done (flush io w) = wr_done w.
Proof.
  unfold flush. destruct (flushBatch io (wr_batch w) (wr_wal w)) as [q s] eqn:E. simpl.
  split_and!; try done. rewrite fmap_app. f_equal.
  revert E. unfold flushBatch. case_decide as Hb; [intros [= _ <-]; by rewrite Hb|].
  destruct (buf_flush _ _) as [q1 [k|]]; [intros [= _ <-]; apply signalDone_waiters|].
  destruct (if Durable (w_cfg q1) then io_sync io else None); intros [= _ <-]; apply signalDone_waiters.
Qed.

(** Every waiter is either answered or still in the batch or the channel. *)
Definition account (w : writer) : list nat :=
  (wr_signals w).*1 ++ waiters (wr_batch w) ++ waiters (wr_chan w).

Lemma receive_account io p w :
  (wr_signals (receive io p w)).*1 ++ waiters (wr_batch (receive io p w)) =
    (wr_signals w).*1 ++ waiters (wr_batch w) ++ waiters [p] ∧
  wr_chan (receive io p w) = wr_chan w ∧ wr_done (receive io p w) = wr_done w.
Proof.
  unfold receive. set (w1 := mkWriter _ (wr_batch w ++ [p]) _ _ _).
  destruct (FlushMaxMessages _ <=? _).
  - destruct (flush_signals io w1) as (-> & -> & -> & ->). simpl. rewrite app_nil_r, waiters_app. done.
  - simpl. by rewrite waiters_app.
Qed.

Lemma drain_account ios ps w :
  length ios = length ps →
  (wr_signals (drain ios ps w)).*1 ++ waiters (wr_batch (drain ios ps w)) =
    (wr_signals w).*1 ++ waiters (wr_batch w) ++ waiters ps ∧
  wr_done (drain ios ps w) = wr_done w.
Proof.
  revert ios w. induction ps as [|p ps IH]; intros [|io ios] w Hl; try done.
  { simpl. by rewrite app_nil_r. }
  cbn [drain]. injection Hl as Hl. destruct (IH ios (receive io p w) Hl) as [H1 H2].
  destruct (receive_account io p w) as (H3 & _ & H4). rewrite H1, H2, H4. split; [|done].
  rewrite app_assoc, H3. change (p :: ps) with ([p] ++ ps). by rewrite waiters_app, <-!app_assoc.
Qed.

Lemma flush_prefix io w : wr_signals w `prefix_of` wr_signals (flush io w).
Proof. unfold flush. destruct (flushBatch _ _ _). by apply prefix_app_r. Qed.

Lemma receive_prefix io p w : wr_signals w `prefix_of` wr_signals (receive io p w).
Proof. unfold receive. destruct (_ <=? _); [|done]. by etrans; [|apply flush_prefix]. Qed.

Lemma drain_prefix ios ps w : wr_signals w `prefix_of` wr_signals (drain ios ps w).
Proof.
  revert ios w. induction ps as [|p ps IH]; intros [|io ios] w; try done. cbn [drain].
  etrans; [apply (receive_prefix io p)|apply IH].
Qed.

(** Runs of the log: the waiters of the accepted events, and the state reached. *)
Inductive wruns (q : QueueWAL) : list nat → writer → Prop :=
| wr_start : wruns q [] (new_writer q)
| wr_append sent p w w' :
    wruns q sent w → wr_done w = false → Append p w = (w', None) → wruns q (sent ++ waiters [p]) w'
| wr_turn sent w w' : wruns q sent w → wstep w w' → wruns q sent w'.

Definition loop_inv (sent : list nat) (w : writer) : Prop :=
  sent ≡ₚ account w ∧
  (is_Some (w_errored (wr_wal w)) → wr_batch w = []) ∧
  (wr_done w = true → wr_batch w = [] ∧ wr_chan w = []).

Lemma receive_batch io p w : wr_batch (receive io p w) = [] ∨
  (wr_batch (receive io p w) = wr_batch w ++ [p] ∧ wr_wal (receive io p w) = wr_wal w).
Proof.
  unfold receive. set (w1 := mkWriter _ (wr_batch w ++ [p]) _ _ _).
  destruct (FlushMaxMessages _ <=? _); [|by right]. left. apply (flush_signals io w1).
Qed.

(** A turn answers waiters and loses none. *)
Lemma wstep_account w w' : wstep w w' → account w' ≡ₚ account w ∧ wr_signals w `prefix_of` wr_signals w'.
Proof.
  intros Hst. destruct Hst as [k Hd Hk|io p c Hd He Hc|io Hd He|ios io Hd He Hl]; unfold account.
  - simpl. split; [|by apply prefix_app_r]. rewrite fmap_app, signalDone_waiters, app_nil_r, <-app_assoc.
    by rewrite (Permutation_app_comm (waiters (wr_chan w))).
  - destruct (receive_account io p (set_chan c w)) as (H1 & H2 & _). split; [|apply (receive_prefix io p (set_chan c w))].
    rewrite app_assoc, H1, H2, Hc, (waiters_app [p] c : waiters (p :: c) = _). by rewrite <-!app_assoc.
  - destruct (flush_signals io w) as (H1 & H2 & H3 & _). split; [|apply flush_prefix].
    by rewrite H1, H2, H3, <-app_assoc.
  - destruct (drain_account ios (wr_chan w) w Hl) as [H1 _]. pose proof (drain_prefix ios (wr_chan w) w) as H5.
    set (w1 := drain ios (wr_chan w) w) in *. destruct (flush_signals io (set_chan [] w1)) as (H2 & H3 & H4 & _).
    simpl. rewrite H2, H3, H4. simpl. rewrite !app_nil_r. rewrite H1. split; [done|].
    etrans; [exact H5|]. apply (flush_prefix io (set_chan [] w1)).
Qed.

Lemma wruns_inv q sent w : w_errored q = None → wruns q sent w → loop_inv sent w.
Proof.
  intros Hq. induction 1 as [|sent p w w' Hr (Hacc & Herr & Hdone) Hd Hap|sent w w' Hr (Hacc & Herr & Hdone) Hst].
  - by split_and!.
  - unfold Append in Hap. destruct (w_errored (wr_wal w)) eqn:Ee; [done|].
    destruct (_ <? _); [|done]. injection Hap as <-. split_and!.
    + rewrite Hacc. unfold account, set_chan. simpl. by rewrite waiters_app, <-!app_assoc.
    + simpl. rewrite Ee. by intros [? ?].
    + simpl. by rewrite Hd.
  - split; [by rewrite Hacc, (proj1 (wstep_account w w' Hst))|].
    destruct Hst as [k Hd Hk|io p c Hd He Hc|io Hd He|ios io Hd He Hl].
    + rewrite (Herr (ex_intro _ k Hk)). by split.
    + destruct (receive_account io p (set_chan c w)) as (_ & _ & H3). split; [|rewrite H3; simpl; by rewrite Hd].
      destruct (receive_batch io p (set_chan c w)) as [->|[_ ->]]; [done|]. simpl. rewrite He. by intros [? ?].
    + destruct (flush_signals io w) as (_ & H2 & _ & H4). rewrite H2, H4, Hd. by split.
    + destruct (flush_signals io (set_chan [] (drain ios (wr_chan w) w))) as (_ & H2 & H3 & _).
      simpl. rewrite H2, H3. by split.
Qed.



(** ** Segment files *)

(** Cleaning up keeps what recovery needs: after a snapshot of segment [s]
    every file of a segment from [s - 1] on is kept, the older ones are removed,
    and the last segment is the same as before. *)
Theorem removeOldSegments_keeps s ids :
  0 ≤ s → s ∈ ids → Forall (λ id, 0 ≤ id) ids →
  (∀ id, id ∈ removeOldSegments s ids ↔ id ∈ ids ∧ (s - 1 ≤ id ∨ s ≤ 1)) ∧
  findLastSegmentID (removeOldSegments s ids) = findLastSegmentID ids.
Proof.
  intros Hs Hin Hpos.
  assert (∀ id, id ∈ removeOldSegments s ids ↔ id ∈ ids ∧ (s - 1 ≤ id ∨ s ≤ 1)) as Hmem.
  { intros id. unfold removeOldSegments. rewrite !list_elem_of_In, filter_In, Z.leb_le.
    rewrite <-list_elem_of_In. destruct (Z.ltb_spec 1 s); [intuition lia|].
    split; [intros [? ?]; split; [done|lia]|]. intros [Hid _]. split; [done|].
    apply (proj1 (Forall_forall _ _) Hpos). done. }
  split; [done|].
  assert (∀ l m, foldl Z.max m l = Z.max m (foldl Z.max 0 l) ∨ m < 0) as Hfold.
  { clear. intros l. induction l as [|x l IH]; intros m; simpl; [lia|].
    destruct (IH (Z.max m x)) as [->|?]; [|lia]. destruct (IH (Z.max 0 x)) as [->|?]; lia. }
  assert (∀ l, Forall (λ id, 0 ≤ id) l → (∀ x, x ∈ l → x ≤ findLastSegmentID l) ∧
    (findLastSegmentID l ∈ l ∨ l = [])) as Hmax.
  { clear -Hfold. induction 1 as [|x l Hx Hl [IH1 IH2]]; [split; [intros x Hx; by apply elem_of_nil in Hx|by right]|].
    unfold findLastSegmentID in *. simpl. rewrite Z.max_r by done.
    destruct (Hfold l x) as [->|?]; [|lia]. split.
    - intros y [->|Hy]%elem_of_cons; [lia|]. specialize (IH1 y Hy). lia.
    - left. destruct IH2 as [IH2| ->]; [|simpl; rewrite Z.max_l by lia; by left].
      destruct (Z.max_spec x (foldl Z.max 0 l)) as [[_ ->]|[_ ->]]; [by right|by left]. }
  destruct (Hmax ids Hpos) as [H1 [H2| ->]]; [|by apply elem_of_nil in Hin].
  assert (Forall (λ id, 0 ≤ id) (removeOldSegments s ids)) as Hpos'.
  { apply Forall_forall. intros id [Hid _]%Hmem. by apply (proj1 (Forall_forall _ _) Hpos). }
  destruct (Hmax _ Hpos') as [H3 [H4|H4]].
  - apply Hmem in H4 as [H4 _]. pose proof (H1 _ H4).
    assert (findLastSegmentID ids ≤ findLastSegmentID (removeOldSegments s ids)); [|lia].
    apply H3, Hmem. split; [done|]. specialize (H1 s Hin). lia.
  - assert (s ∈ removeOldSegments s ids) as H5 by (apply Hmem; split; [done|lia]).
    rewrite H4 in H5. by apply elem_of_nil in H5.
Qed.

Lemma removeOldSegments_keeps_witness :
  let ids := [0; 1; 2; 3; 4] in
  (0 ≤ 3 ∧ 3 ∈ ids ∧ Forall (λ id, 0 ≤ id) ids) ∧
  (∀ id, id ∈ removeOldSegments 3 ids ↔ id ∈ ids ∧ (3 - 1 ≤ id ∨ 3 ≤ 1)) ∧
  findLastSegmentID (removeOldSegments 3 ids) = findLastSegmentID ids.
Proof.
  assert (Forall (λ id, 0 ≤ id) [0; 1; 2; 3; 4]) as H by by_eval.
  split; [split_and!; [lia|by_eval|exact H]|].
  apply (removeOldSegments_keeps 3 [0; 1; 2; 3; 4]); [lia|by_eval|exact H].
Defined.

(** Sequence numbers restart: a log reopened after a restart numbers its
    next event 1 again, whatever the segments on disk already contain. *)
Theorem seq_restarts cfg closed last io p :
  io_flush io = None → io_sync io = None →
  let q := (flushBatch io [p] (newQueueWAL cfg closed last)).1 in
  w_seq q = 1 ∧
  ∃ ts, (let fs := segments q in
    concat (seg_bytes <$> fs)) =
    concat (seg_bytes <$> closed) ++ seg_bytes last ++ writeRecord (stamp (p_event p) 1 ts).
Proof.
  intros Hfl Hsy. unfold flushBatch. rewrite decide_False by done.
  change (p_event <$> [p]) with [p_event p].
  set (q1 := write_batch _ 0 [p_event p] _).
  assert (w_buf q1 = writeRecord (stamp (p_event p) 1 (UnixNano (io_clock io 0))) ∧ w_sticky q1 = None ∧
    w_closed q1 = closed ∧ w_file q1 = last ∧ w_seq q1 = 1) as (Hb & Hst & Hc & Hf & Hs) by done.
  clearbody q1. unfold buf_flush. rewrite Hst, Hfl, Hsy. cbv beta iota zeta.
  rewrite firstn_all, drop_all. cbn [w_cfg].
  assert (∀ n, concat (seg_bytes <$> closed ++ [mkSegment (seg_id (w_file q1)) (seg_bytes (w_file q1) ++ w_buf q1) n])
    = concat (seg_bytes <$> closed) ++ seg_bytes last ++ writeRecord (stamp (p_event p) 1 (UnixNano (io_clock io 0)))) as Hall
    by (intros n; rewrite fmap_app, concat_app, Hb, Hf; cbn [fmap list_fmap concat seg_bytes]; by rewrite app_nil_r).
  destruct (Durable (w_cfg q1)) eqn:Ed; cbn [fst w_cfg w_fileSize fsync]; rewrite ?Ed; cbn [w_cfg w_fileSize fsync fst];
    (split; [by destruct (_ <=? _); [destruct (io_open io)|]|]); exists (UnixNano (io_clock io 0%nat));
    (destruct (_ <=? _); [destruct (io_open io)|]); unfold segments;
    cbn [rotateSegment fsync w_closed w_file seg_id seg_bytes seg_synced]; rewrite Hc; try (by rewrite Hall);
    by rewrite fmap_app, concat_app, Hall, app_nil_r.
Qed.

Lemma seq_restarts_witness :
  let io := mkIO None None true (λ _, 5) in
  let p := mkPending sample_event None in
  let old := mkSegment 4 (writeRecord (stamp sample_event 77 3)) 0 in
  (io_flush io = None ∧ io_sync io = None) ∧
  let q := (flushBatch io [p] (newQueueWAL (mkWALConfig 1 1000 true) [] old)).1 in
  w_seq q = 1 ∧
  ∃ ts, (let fs := segments q in
    concat (seg_bytes <$> fs)) =
    concat (seg_bytes <$> []) ++ seg_bytes old ++ writeRecord (stamp (p_event p) 1 ts).
Proof.
  split; [done|].
  exact (seq_restarts (mkWALConfig 1 1000 true) [] (mkSegment 4 (writeRecord (stamp sample_event 77 3)) 0)
    (mkIO None None true (λ _, 5)) (mkPending sample_event None) eq_refl eq_refl).
Defined.
