(* ===== verification/WalSync.v ===== *)
(** * Publishers waiting for the log (src/internal/storage/wal.go, writer.go)

    [AppendSync] with its callers, time-outs and errors, running beside the
    writer goroutine of [Wal.v], asynchronous appends, shutdown and a panic of
    the writer; and what is left of the log files after a crash of the process
    or of the machine.  [confirmed_durable] is the contract of the log: an event
    whose publisher was told of success is read back after the crash. *)

From stdpp Require Import base gmap list strings.
From Stdlib Require Import ZArith Lia Strings.Byte.
From S2P Require Import Prelude WalRecord Wal.
Local Open Scope Z_scope.

(** ** Clients *)

Inductive sync_error := SyncFailed (k : io_error) | TimedOutFull | TimedOutFlush.

(** A caller of [AppendSync]: before the first select, after it, and when it
    has returned ([None] is success). *)
Inductive client :=
| Sending (e : Event)
| Waiting (e : Event)
| Returned (e : Event) (r : option sync_error).

Definition client_event (c : client) : Event := match c with Sending e | Waiting e | Returned e _ => e end.

(** [if err := qw.Err(); err != nil { return err }] *)
Definition sync_call (e : Event) (w : writer) : client :=
  match w_errored (wr_wal w) with Some k => Returned e (Some (SyncFailed k)) | None => Sending e end.

(** [case qw.ch <- e] *)
Definition sync_send (id : nat) (e : Event) (w : writer) : option writer :=
  if Z.of_nat (length (wr_chan w)) <? chan_cap then Some (set_chan (wr_chan w ++ [mkPending e (Some id)]) w) else None.

(** [case err := <-e.done] *)
Definition sync_answer (e : Event) (r : option io_error) : client := Returned e (SyncFailed <$> r).

(** The deferred function of [writerLoop] after a panic: the events the
    goroutine had collected are gone. *)
Definition writer_panic (k : io_error) (w : writer) : writer :=
  set_done (mkWriter (SetErr k (wr_wal w)) [] (wr_chan w) (wr_signals w) (wr_done w)).

(** ** The log and its clients *)

Record system := mkSystem { sy_writer : writer; sy_clients : gmap nat client }.

Inductive sync_step (s : system) : system → Prop :=
| ss_call id e :
    sy_clients s !! id = None → event_fit e →
    sync_step s (mkSystem (sy_writer s) (<[id := sync_call e (sy_writer s)]> (sy_clients s)))
| ss_send id e w :
    sy_clients s !! id = Some (Sending e) → sync_send id e (sy_writer s) = Some w →
    sync_step s (mkSystem w (<[id := Waiting e]> (sy_clients s)))
| ss_full id e :
    sy_clients s !! id = Some (Sending e) →
    sync_step s (mkSystem (sy_writer s) (<[id := Returned e (Some TimedOutFull)]> (sy_clients s)))
| ss_answer id e r :
    sy_clients s !! id = Some (Waiting e) → (id, r) ∈ wr_signals (sy_writer s) →
    sync_step s (mkSystem (sy_writer s) (<[id := sync_answer e r]> (sy_clients s)))
| ss_timeout id e :
    sy_clients s !! id = Some (Waiting e) →
    sync_step s (mkSystem (sy_writer s) (<[id := Returned e (Some TimedOutFlush)]> (sy_clients s)))
| ss_append e w r :
    event_fit e → Append (mkPending e None) (sy_writer s) = (w, r) → sync_step s (mkSystem w (sy_clients s))
| ss_turn w : wstep (sy_writer s) w → sync_step s (mkSystem w (sy_clients s))
| ss_panic k : wr_done (sy_writer s) = false → sync_step s (mkSystem (writer_panic k (sy_writer s)) (sy_clients s)).

Definition new_system (cfg : WALConfig) : system := mkSystem (new_writer (newQueueWAL cfg [] (mkSegment 0 [] 0))) ∅.

Definition reachable (cfg : WALConfig) (s : system) : Prop := rtc sync_step (new_system cfg) s.

(** ** Crashes *)

(** A loss of power keeps of a file what was synced; what follows is arbitrary. *)
Definition survives (s s' : segment) : Prop := ∃ rest, seg_bytes s' = take (seg_synced s) (seg_bytes s) ++ rest.

(** What recovery finds: with [durable], the files after a loss of power;
    without it, the files after the end of the process. *)
Definition crash_image (durable : bool) (segs segs' : list segment) : Prop :=
  if durable then Forall2 survives segs segs' else segs' = segs.

(** The events [S] are on stable storage. *)
Definition records (es : list Event) : list byte := concat (writeRecord <$> es).

Record stable (q : QueueWAL) (S : list Event) : Prop := {
  st_ok : Forall event_ok S;
  st_closed : Forall (λ s, seg_synced s = length (seg_bytes s)) (w_closed q);
  st_file : (seg_synced (w_file q) ≤ length (seg_bytes (w_file q)))%nat;
  st_parts : ∃ ess es, S = concat ess ++ es ∧ seg_bytes <$> w_closed q = records <$> ess ∧
    take (seg_synced (w_file q)) (seg_bytes (w_file q)) = records es;
}.

Lemma survives_events s s' es :
  Forall event_ok es → take (seg_synced s) (seg_bytes s) = records es → survives s s' →
  es `sublist_of` segment_events s'.
Proof.
  intros Hok He [rest Hr]. destruct s' as [id bs n]. simpl in Hr. subst bs. rewrite He. unfold records.
  destruct (segment_events_records es rest id n Hok) as (extra & -> & _). by apply sublist_inserts_r.
Qed.

Lemma survives_closed ess closed image :
  Forall (Forall event_ok) ess → Forall (λ s, seg_synced s = length (seg_bytes s)) closed →
  seg_bytes <$> closed = records <$> ess → Forall2 survives closed image →
  concat ess `sublist_of` log_events image.
Proof.
  intros Hok Hsync Hb Hs. revert ess Hok Hb.
  induction Hs as [|s s' closed image H Hs IH]; intros [|es ess] Hok Hb; try done.
  apply Forall_cons in Hsync as [H1 Hsync]. apply Forall_cons in Hok as [H2 Hok]. injection Hb as H3 Hb.
  unfold log_events. csimpl. apply sublist_app; [|by apply IH].
  apply (survives_events s); [done| |done]. by rewrite H1, firstn_all.
Qed.

(** What is stable is read back after a loss of power. *)
Lemma stable_read q S image :
  stable q S → Forall2 survives (segments q) image → S `sublist_of` log_events image.
Proof.
  intros [Hok Hc _ (ess & es & -> & Hb & Hf)] Hs. apply Forall_app in Hok as [Hess Hes].
  unfold segments in Hs. apply Forall2_app_inv_l in Hs as (image1 & image2 & Hs1 & Hs2 & ->).
  inversion_clear Hs2 as [|? s' ? image3 H Hnil]. inversion_clear Hnil.
  unfold log_events. rewrite fmap_app, concat_app. csimpl. rewrite app_nil_r. apply sublist_app.
  - apply (survives_closed ess (w_closed q)); [by apply Forall_concat in Hess|done..].
  - by apply (survives_events (w_file q)).
Qed.

(** *** Preservation *)

Lemma stable_ext q q' S :
  w_closed q' = w_closed q → w_file q' = w_file q → stable q S → stable q' S.
Proof. intros H1 H2 [Hok Hc Hf Hp]. split; [done|..]; by rewrite ?H1, ?H2. Qed.

Lemma stable_flush r q S : stable q S → stable (buf_flush r q).1 S.
Proof.
  intros [Hok Hc Hf (ess & es & HS & Hb & Ht)]. unfold buf_flush.
  destruct (w_sticky q); [split; eauto 10|]. destruct (match r with Some (n, k) => (n, Some k) | None => _ end) as [n sticky].
  split; simpl; [done|done|rewrite length_app; lia|].
  exists ess, es. split_and!; [done|done|]. by rewrite take_app_le.
Qed.

Lemma stable_fsync q L : log_ok q L → w_sticky q = None → Forall (λ s, seg_synced s = length (seg_bytes s)) (w_closed q) →
  stable (fsync q) L.
Proof.
  intros [Hok (ess & es & rest & HL & Hc & Hf & Hr)] Hs Hcl. destruct (Hr Hs) as [-> _]. rewrite app_nil_r in Hf.
  split; simpl; [done|done|done|]. exists ess, es. split_and!; [done|done|]. by rewrite firstn_all.
Qed.

Lemma stable_rotate ok q S :
  seg_synced (w_file q) = length (seg_bytes (w_file q)) → stable q S → stable (rotateSegment ok q) S.
Proof.
  intros Hsync [Hok Hc Hf (ess & es & HS & Hb & Ht)]. unfold rotateSegment. destruct ok; [|split; eauto 10].
  split; simpl; [done|by apply Forall_app_2, Forall_singleton|lia|].
  exists (ess ++ [es]), []. rewrite concat_app, !fmap_app. simpl. rewrite !app_nil_r. split_and!; [done| |done].
  by rewrite Hb, <-Ht, Hsync, firstn_all.
Qed.

Lemma stable_fail_with k q S : stable q S → stable (fail_with k q) S.
Proof. unfold fail_with. destruct (isDiskFull k); [by apply stable_ext|done]. Qed.

(** A batch whose waiters are told of success is on stable storage, with all
    that was written before. *)
Lemma flushBatch_stable io batch q L S :
  log_ok q L → stable q S → batch ≠ [] → Forall event_fit (p_event <$> batch) → Durable (w_cfg q) = true →
  stable (flushBatch io batch q).1
    (match flush_outcome io q with
     | None => L ++ stamped (io_clock io) 0 (w_seq q) (p_event <$> batch)
     | Some _ => S
     end).
Proof.
  intros Hlog Hst Hne Hfit Hd. unfold flushBatch. rewrite decide_False by done.
  set (q1 := write_batch _ _ _ q).
  assert (w_cfg q1 = w_cfg q ∧ w_sticky q1 = w_sticky q ∧ w_closed q1 = w_closed q ∧ w_file q1 = w_file q) as (Hc1 & Hs1 & Hl1 & Hf1)
    by (unfold q1; by rewrite write_batch_spec).
  pose proof (stable_flush (io_flush io) q1 S (stable_ext q q1 S Hl1 Hf1 Hst)) as Hst2.
  assert (flush_outcome io q = match (buf_flush (io_flush io) q1).2 with Some k => Some k | None => io_sync io end ∧
    w_cfg (buf_flush (io_flush io) q1).1 = w_cfg q ∧
    ((buf_flush (io_flush io) q1).2 = None → w_sticky q = None ∧ io_flush io = None)) as (Ho & Hc2 & Hnone).
  { unfold flush_outcome, buf_flush. rewrite Hs1, Hd. destruct (w_sticky q); [done|]. by destruct (io_flush io) as [[]|]. }
  rewrite Ho. pose proof (batch_written (io_clock io) (p_event <$> batch) q L Hlog) as Hw. fold q1 in Hw.
  destruct (buf_flush (io_flush io) q1) as [q2 [k|]] eqn:E; simpl in Hst2, Hc2, Hnone |- *; [by apply stable_fail_with|].
  destruct (Hnone eq_refl) as [Hs Hfl]. rewrite Hfl in E. rewrite E in Hw. specialize (Hw Hs Hfit).
  rewrite Hc2, Hd. destruct (io_sync io) as [k|]; simpl; [by apply stable_fail_with|].
  assert (stable (fsync q2) (L ++ stamped (io_clock io) 0 (w_seq q) (p_event <$> batch))) as Hst3.
  { apply stable_fsync; [done| |apply (st_closed _ _ Hst2)]. revert E. unfold buf_flush. rewrite Hs1, Hs. by intros [= <-]. }
  destruct (_ <=? _); [by apply stable_rotate|done].
Qed.

(** ** What has been confirmed *)

Definition oks (s : signals) : list nat := omap (λ x, match x.2 with None => Some x.1 | Some _ => None end) s.

(** The waiters of a batch with the events as they were written. *)
Fixpoint confirmed (ps : list pending_event) (es : list Event) : list (nat * Event) :=
  match ps, es with
  | p :: ps, e :: es => match p_waiter p with Some id => [(id, e)] | None => [] end ++ confirmed ps es
  | _, _ => []
  end.

(** [T] has the event each waiter appended. *)
Definition ticket_ok (T : gmap nat Event) (p : pending_event) : Prop :=
  event_fit (p_event p) ∧ ∀ id, p_waiter p = Some id → T !! id = Some (p_event p).
Definition written (T : gmap nat Event) (x : nat * Event) : Prop :=
  ∃ e seq ts, T !! x.1 = Some e ∧ x.2 = stamp e seq ts.

Lemma oks_signalDone r ps : oks (signalDone r ps) = match r with None => waiters ps | Some _ => [] end.
Proof.
  unfold oks, signalDone, waiters. induction ps as [|p ps IH]; csimpl; [by destruct r|].
  destruct (p_waiter p); csimpl; [|done]. destruct r; csimpl; [done|by rewrite IH].
Qed.

Lemma confirmed_stamped T clock i seq ps :
  Forall (ticket_ok T) ps →
  let c := confirmed ps (stamped clock i seq (p_event <$> ps)) in
  c.*1 = waiters ps ∧ c.*2 `sublist_of` stamped clock i seq (p_event <$> ps) ∧ Forall (written T) c.
Proof.
  intros Hps. revert i seq. induction Hps as [|p ps [_ Hp] Hps IH]; intros i seq; [done|].
  cbn [fmap list_fmap stamped confirmed]. destruct (IH (S i) (u64 (seq + 1))) as (H1 & H2 & H3).
  unfold waiters in *. cbn [omap list_omap]. destruct (p_waiter p) as [id|] eqn:E; csimpl; split_and!; try done.
  - by f_equal.
  - by apply sublist_skip.
  - apply Forall_cons. split; [|done]. exists (p_event p), (u64 (seq + 1)), (UnixNano (clock i)). by split; [apply Hp|].
  - by apply sublist_cons.
Qed.

(** ** The writer *)

Record winv (cfg : WALConfig) (T : gmap nat Event) (w : writer) (L : list Event) (acked : list (nat * Event)) : Prop := {
  wi_log : log_ok (wr_wal w) L;
  wi_cfg : w_cfg (wr_wal w) = cfg;
  wi_sub : acked.*2 `sublist_of` L;
  wi_stable : Durable cfg = true → ∃ S, stable (wr_wal w) S ∧ acked.*2 `sublist_of` S;
  wi_pending : Forall (ticket_ok T) (wr_batch w ++ wr_chan w);
  wi_nodup : NoDup (account w);
  wi_oks : acked.*1 = oks (wr_signals w);
  wi_acked : Forall (written T) acked;
}.

Lemma flush_set_chan io c w : flush io (set_chan c w) = set_chan c (flush io w).
Proof. unfold flush. simpl. by destruct (flushBatch io (wr_batch w) (wr_wal w)). Qed.

Lemma receive_set_chan io p c w : receive io p (set_chan c w) = set_chan c (receive io p w).
Proof. unfold receive. simpl. destruct (_ <=? _); [|done]. by rewrite <-flush_set_chan. Qed.

Lemma flush_winv cfg T io w L acked :
  winv cfg T w L acked → ∃ L' acked', winv cfg T (flush io w) L' acked'.
Proof.
  intros [Hlog Hcfg Hsub Hst Hp Hnd Hok Hack].
  destruct (flush_signals io w) as (Hsig & Hb & Hc & _).
  assert (account (flush io w) = account w) as Hacc by (unfold account; rewrite Hsig, Hb, Hc; simpl; by rewrite <-app_assoc).
  destruct (decide (wr_batch w = [])) as [Hnil|Hne].
  { exists L, acked. assert (flush io w = w) as ->; [|done].
    destruct w as [q bt ch sg d]. simpl in Hnil. subst bt. unfold flush. simpl. by rewrite app_nil_r. }
  apply Forall_app in Hp as [Hpb Hpc].
  assert (Forall event_fit (p_event <$> wr_batch w)) as Hfit by (apply Forall_fmap; eapply Forall_impl; [exact Hpb|]; by intros p []).
  pose proof (flushBatch_spec io (wr_batch w) (wr_wal w) L Hlog Hne Hfit) as Hspec.
  pose proof (λ S Hs, flushBatch_stable io (wr_batch w) (wr_wal w) L S Hlog Hs Hne Hfit) as Hstab.
  revert Hsig Hb Hc Hacc. unfold flush. destruct (flushBatch io (wr_batch w) (wr_wal w)) as [q sig].
  destruct Hspec as (-> & Hcfg' & new & Hlog' & _ & Hnew). intros Hsig Hb Hc Hacc.
  destruct (flush_outcome io (wr_wal w)) as [k|].
  - exists (L ++ new), acked. split; try done; [simpl; congruence|by apply sublist_inserts_r| |simpl; by rewrite Hacc|].
    + intros Hd. destruct (Hst Hd) as (S & HS & Hs). exists S. split; [|done]. apply Hstab; [done|by rewrite Hcfg].
    + simpl. unfold oks. rewrite omap_app. fold (oks (wr_signals w)) (oks (signalDone (Some k) (wr_batch w))).
      rewrite oks_signalDone. by rewrite app_nil_r.
  - rewrite (Hnew eq_refl) in *.
    destruct (confirmed_stamped T (io_clock io) 0 (w_seq (wr_wal w)) (wr_batch w) Hpb) as (H1 & H2 & H3).
    eexists (L ++ _), (acked ++ confirmed (wr_batch w) _). split; try done; [simpl; congruence| | |simpl; by rewrite Hacc| |].
    + rewrite fmap_app. by apply sublist_app.
    + intros Hd. destruct (Hst Hd) as (S & HS & Hs). eexists. split; [apply (Hstab S HS); by rewrite Hcfg|].
      rewrite fmap_app. by apply sublist_app.
    + simpl. unfold oks. rewrite omap_app. fold (oks (wr_signals w)) (oks (signalDone None (wr_batch w))).
      by rewrite oks_signalDone, fmap_app, Hok, H1.
    + by apply Forall_app.
Qed.

Lemma receive_winv cfg T io p c w L acked :
  winv cfg T (set_chan (p :: c) w) L acked → ∃ L' acked', winv cfg T (receive io p (set_chan c w)) L' acked'.
Proof.
  intros [Hlog Hcfg Hsub Hst Hp Hnd Hok Hack].
  assert (winv cfg T (mkWriter (wr_wal w) (wr_batch w ++ [p]) c (wr_signals w) (wr_done w)) L acked) as H.
  { split; try done; simpl in *; [by rewrite <-app_assoc|]. revert Hnd. unfold account. cbn [wr_signals wr_batch wr_chan set_chan].
    rewrite waiters_app. change (p :: c) with ([p] ++ c). rewrite (waiters_app [p] c). by rewrite <-app_assoc. }
  unfold receive. simpl. destruct (_ <=? _); [by apply (flush_winv cfg T io _ L acked)|by eauto].
Qed.

Lemma drain_winv cfg T ios ps w L acked :
  length ios = length ps → winv cfg T (set_chan ps w) L acked →
  ∃ L' acked', winv cfg T (set_chan [] (drain ios ps w)) L' acked'.
Proof.
  revert ios w L acked. induction ps as [|p ps IH]; intros [|io ios] w L acked Hl H; try done; [by eauto|].
  injection Hl as Hl. cbn [drain]. destruct (receive_winv cfg T io p ps w L acked H) as (L' & acked' & H').
  rewrite receive_set_chan in H'. by apply (IH ios _ L' acked').
Qed.

Lemma wstep_winv cfg T w w' L acked :
  winv cfg T w L acked → wstep w w' → ∃ L' acked', winv cfg T w' L' acked'.
Proof.
  intros H Hst. destruct Hst as [k Hd Hk|io p c Hd He Hc|io Hd He|ios io Hd He Hl].
  - destruct H as [Hlog Hcfg Hsub Hst Hp Hnd Hok Hack]. exists L, acked. split; try done.
    + simpl in *. rewrite app_nil_r. by apply Forall_app in Hp as [Hp _].
    + revert Hnd. unfold account. simpl. rewrite fmap_app, signalDone_waiters, app_nil_r. rewrite <-app_assoc.
      by rewrite (Permutation_app_comm (waiters (wr_chan w))).
    + simpl. unfold oks. rewrite omap_app. fold (oks (wr_signals w)) (oks (signalDone (Some k) (wr_chan w))).
      by rewrite oks_signalDone, app_nil_r.
  - apply (receive_winv cfg T io p c w L acked). by rewrite <-Hc; destruct w.
  - by apply (flush_winv cfg T io w L acked).
  - destruct (drain_winv cfg T ios (wr_chan w) w L acked Hl) as (L1 & acked1 & H1); [by destruct w|].
    destruct (flush_winv cfg T io _ L1 acked1 H1) as (L2 & acked2 & [? ? ? ? ? ? ? ?]). by exists L2, acked2.
Qed.

(** ** The system *)

Record sys_inv (cfg : WALConfig) (s : system) (L : list Event) (acked : list (nat * Event)) : Prop := {
  si_writer : winv cfg (client_event <$> sy_clients s) (sy_writer s) L acked;
  si_account : ∀ id, id ∈ account (sy_writer s) → ∃ c, sy_clients s !! id = Some c ∧ ∀ e, c ≠ Sending e;
  si_fit : ∀ id e, sy_clients s !! id = Some (Sending e) → event_fit e;
  si_returned : ∀ id e, sy_clients s !! id = Some (Returned e None) → id ∈ oks (wr_signals (sy_writer s));
}.

Lemma oks_elem id s : id ∈ oks s ↔ (id, None) ∈ s.
Proof.
  unfold oks. rewrite list_elem_of_omap. split.
  - intros ([i [k|]] & Hi & [= ->]). done.
  - intros H. by exists (id, None).
Qed.

Lemma oks_sublist s : oks s `sublist_of` s.*1.
Proof. induction s as [|[i [k|]] s IH]; csimpl; [done|by apply sublist_cons|by apply sublist_skip]. Qed.

Lemma winv_mono cfg T T' w L acked : T ⊆ T' → winv cfg T w L acked → winv cfg T' w L acked.
Proof.
  intros HT [Hlog Hcfg Hsub Hst Hp Hnd Hok Hack]. split; try done.
  - eapply Forall_impl; [exact Hp|]. intros p [H1 H2]. split; [done|]. intros id Hid. eapply lookup_weaken; [by apply H2|done].
  - eapply Forall_impl; [exact Hack|]. intros x (e & seq & ts & H1 & H2). exists e, seq, ts. split; [|done]. by eapply lookup_weaken.
Qed.

(** A client that only moves on. *)
Lemma client_moves (m : gmap nat client) id c c' :
  m !! id = Some c → client_event c' = client_event c → client_event <$> <[id := c']> m = client_event <$> m.
Proof. intros H1 H2. rewrite fmap_insert, H2. apply insert_id. by rewrite lookup_fmap, H1. Qed.

Lemma move_inv cfg s L acked id c c' :
  sys_inv cfg s L acked → sy_clients s !! id = Some c → client_event c' = client_event c → (∀ e, c' ≠ Sending e) →
  (∀ e, c' = Returned e None → id ∈ oks (wr_signals (sy_writer s))) →
  sys_inv cfg (mkSystem (sy_writer s) (<[id := c']> (sy_clients s))) L acked.
Proof.
  intros [Hw Ha Hf Hr] Hc He Hs Ho. split; simpl.
  - by rewrite (client_moves _ id c c').
  - intros i Hi. destruct (decide (i = id)) as [-> |Hne]; [exists c'; by rewrite lookup_insert_eq|].
    rewrite lookup_insert_ne by done. by apply Ha.
  - intros i e Hi. destruct (decide (i = id)) as [-> |Hne].
    + rewrite lookup_insert_eq in Hi. injection Hi as Hi. by destruct (Hs e).
    + rewrite lookup_insert_ne in Hi by done. by apply (Hf i).
  - intros i e Hi. destruct (decide (i = id)) as [-> |Hne].
    + rewrite lookup_insert_eq in Hi. injection Hi as Hi. by apply (Ho e).
    + rewrite lookup_insert_ne in Hi by done. by apply (Hr i e).
Qed.

(** A writer that only answers. *)
Lemma writer_inv cfg s L acked L' acked' w :
  sys_inv cfg s L acked → winv cfg (client_event <$> sy_clients s) w L' acked' →
  (∀ id, id ∈ account w → id ∈ account (sy_writer s)) → wr_signals (sy_writer s) `prefix_of` wr_signals w →
  sys_inv cfg (mkSystem w (sy_clients s)) L' acked'.
Proof.
  intros [_ Ha Hf Hr] Hw Hacc [k Hk]. split; simpl; [done|auto|done|].
  intros id e Hid. apply oks_elem. rewrite Hk. apply elem_of_app. left. by apply oks_elem, (Hr id e).
Qed.

Lemma winv_append cfg T w L acked p :
  ticket_ok T p → NoDup (account w ++ waiters [p]) → winv cfg T w L acked →
  winv cfg T (set_chan (wr_chan w ++ [p]) w) L acked.
Proof.
  intros Hp Hn [Hlog Hcfg Hsub Hst Hpd Hnd Hok Hack]. split; try done; simpl.
  - rewrite app_assoc. apply Forall_app. split; [done|by apply Forall_singleton].
  - revert Hn. unfold account. simpl. by rewrite waiters_app, <-!app_assoc.
Qed.

Lemma call_inv cfg s L acked id e :
  sys_inv cfg s L acked → sy_clients s !! id = None → event_fit e →
  sys_inv cfg (mkSystem (sy_writer s) (<[id := sync_call e (sy_writer s)]> (sy_clients s))) L acked.
Proof.
  intros [Hw Ha Hf Hr] Hc Hfit. split; simpl.
  - eapply winv_mono; [|exact Hw]. apply map_fmap_mono, insert_subseteq; done.
  - intros i Hi. destruct (Ha i Hi) as (c & Hci & Hcs). exists c. rewrite lookup_insert_ne; [done|congruence].
  - intros i x Hi. destruct (decide (i = id)) as [-> |Hne].
    + rewrite lookup_insert_eq in Hi. unfold sync_call in Hi. destruct (w_errored _); [done|]. by injection Hi as <-.
    + rewrite lookup_insert_ne in Hi by done. by apply (Hf i).
  - intros i x Hi. destruct (decide (i = id)) as [-> |Hne].
    + rewrite lookup_insert_eq in Hi. unfold sync_call in Hi. by destruct (w_errored _).
    + rewrite lookup_insert_ne in Hi by done. by apply (Hr i x).
Qed.

Lemma send_inv cfg s L acked id e w :
  sys_inv cfg s L acked → sy_clients s !! id = Some (Sending e) → sync_send id e (sy_writer s) = Some w →
  sys_inv cfg (mkSystem w (<[id := Waiting e]> (sy_clients s))) L acked.
Proof.
  intros [Hw Ha Hf Hr] Hc Hs. unfold sync_send in Hs. destruct (_ <? _); [|done]. injection Hs as <-.
  assert (id ∉ account (sy_writer s)) as Hnew.
  { intros Hi. destruct (Ha id Hi) as (c & Hci & Hcs). rewrite Hc in Hci. injection Hci as <-. by apply (Hcs e). }
  split; simpl.
  - rewrite (client_moves _ id (Sending e)) by done. apply winv_append; [|simpl|done].
    + split; [by apply (Hf id)|]. intros i [= <-]. by rewrite lookup_fmap, Hc.
    + apply NoDup_app. split_and!; [apply (wi_nodup _ _ _ _ _ Hw)| |apply NoDup_singleton].
      intros x Hx ->%list_elem_of_singleton. done.
  - intros i. unfold account. simpl. rewrite waiters_app, !app_assoc, elem_of_app. intros Hi.
    destruct (decide (i = id)) as [-> |Hne]; [exists (Waiting e); by rewrite lookup_insert_eq|].
    rewrite lookup_insert_ne by done. apply Ha. unfold account. rewrite app_assoc.
    destruct Hi as [Hi|Hi%list_elem_of_singleton]; [exact Hi|done].
  - intros i x Hi. destruct (decide (i = id)) as [-> |Hne]; [by rewrite lookup_insert_eq in Hi|].
    rewrite lookup_insert_ne in Hi by done. by apply (Hf i).
  - intros i x Hi. destruct (decide (i = id)) as [-> |Hne]; [by rewrite lookup_insert_eq in Hi|].
    rewrite lookup_insert_ne in Hi by done. by apply (Hr i x).
Qed.

Lemma panic_inv cfg s L acked k :
  sys_inv cfg s L acked → sys_inv cfg (mkSystem (writer_panic k (sy_writer s)) (sy_clients s)) L acked.
Proof.
  intros Hs. destruct (si_writer _ _ _ _ Hs) as [Hlog Hcfg Hsub Hst Hpd Hnd Hok Hack].
  apply (writer_inv cfg s L acked); [done| | |done].
  - split; try done; simpl.
    + destruct Hlog. by split.
    + intros Hd. destruct (Hst Hd) as (S & HS & H). exists S. split; [by apply (stable_ext (wr_wal (sy_writer s)))|done].
    + by apply Forall_app in Hpd as [_ Hpd].
    + revert Hnd. unfold account. simpl. rewrite !NoDup_app. set_solver.
  - intros id. unfold account. simpl. set_solver.
Qed.

Lemma append_inv cfg s L acked e w r :
  sys_inv cfg s L acked → event_fit e → Append (mkPending e None) (sy_writer s) = (w, r) →
  sys_inv cfg (mkSystem w (sy_clients s)) L acked.
Proof.
  intros Hs Hfit. unfold Append. destruct (w_errored _); [by intros [= <- _]; destruct s|].
  destruct (_ <? _); intros [= <- _]; [|by destruct s]. apply (writer_inv cfg s L acked); [done| | |done].
  - apply winv_append; [by split| |apply (si_writer _ _ _ _ Hs)]. simpl. rewrite app_nil_r. apply (wi_nodup _ _ _ _ _ (si_writer _ _ _ _ Hs)).
  - intros id. unfold account. simpl. rewrite waiters_app. simpl. by rewrite app_nil_r.
Qed.

Lemma sync_step_inv cfg s s' L acked :
  sys_inv cfg s L acked → sync_step s s' → ∃ L' acked', sys_inv cfg s' L' acked'.
Proof.
  intros Hs Hst. destruct Hst as [id e Hc Hf|id e w Hc Hw|id e Hc|id e r Hc Hr|id e Hc|e w r Hf Hw|w Hw|k Hd].
  - exists L, acked. by apply call_inv.
  - exists L, acked. by apply send_inv.
  - exists L, acked. by apply (move_inv cfg s L acked id (Sending e)).
  - exists L, acked. apply (move_inv cfg s L acked id (Waiting e)); [done|done|done|done|].
    intros x. unfold sync_answer. intros [= _ Hx]. destruct r; [done|]. by apply oks_elem.
  - exists L, acked. by apply (move_inv cfg s L acked id (Waiting e)).
  - exists L, acked. by apply (append_inv cfg s L acked e w r).
  - destruct (wstep_winv _ _ _ w _ _ (si_writer _ _ _ _ Hs) Hw) as (L' & acked' & H'). exists L', acked'.
    destruct (wstep_account _ _ Hw) as [Hacc Hpre]. apply (writer_inv cfg s L acked); [done|done| |done].
    intros id. by rewrite Hacc.
  - exists L, acked. by apply panic_inv.
Qed.

Lemma reachable_inv cfg s : reachable cfg s → ∃ L acked, sys_inv cfg s L acked.
Proof.
  revert s. unfold reachable. apply rtc_ind_r.
  - exists [], []. split; simpl; [|by intros id Hid; apply elem_of_nil in Hid|done|done].
    split; simpl; try done; [split; [done|]; by exists [], [], []| |constructor].
    intros _. exists []. split; [|done]. split; simpl; [done|done|done|]. by exists [], [].
  - intros s1 s2 _ Hst (L & acked & Hi). by apply (sync_step_inv cfg s1 s2 L acked).
Qed.

(** What recovery reads contains the confirmed events. *)
Lemma winv_read cfg T w L acked image :
  winv cfg T w L acked → crash_image (Durable cfg) (segments (wr_wal w)) image → acked.*2 `sublist_of` log_events image.
Proof.
  intros Hw Hi. unfold crash_image in Hi. destruct (Durable cfg) eqn:Hd.
  - destruct (wi_stable _ _ _ _ _ Hw Hd) as (S & HS & H). etrans; [exact H|]. by apply (stable_read (wr_wal w)).
  - subst image. destruct (log_ok_read _ _ (wi_log _ _ _ _ _ Hw)) as [extra ->].
    apply sublist_inserts_r, (wi_sub _ _ _ _ _ Hw).
Qed.


(** *** Sample runs *)

Definition publish_of (id : string) : Event := mkEvent EventPublish "ns" "jobs" "t1" id (str_bytes "x") 0 0.
Definition sample_io (sync : option io_error) : io_results := mkIO None sync true (λ _, 5).
Definition sample_cfg : WALConfig := mkWALConfig 2 10 true.

Lemma publish_of_fit id : Z.of_nat (str_len id) < 10 → event_fit (publish_of id).
Proof.
  intros Hid. constructor; [by_eval|by_eval|by_eval| |by_eval].
  unfold event_fields, stamp. cbn. repeat constructor; lia.
Qed.

(** One publisher is confirmed; the file of the next publication cannot be
    synced, its publisher is told so and the power fails. *)
Definition after_two : system :=
  let w1 := flush (sample_io None) (receive (sample_io None) (mkPending (publish_of "a") (Some 1%nat)) (new_writer (newQueueWAL sample_cfg [] (mkSegment 0 [] 0)))) in
  let k := mkIOError false "input/output error" in
  let w2 := flush (sample_io (Some k)) (receive (sample_io None) (mkPending (publish_of "b") (Some 2%nat)) w1) in
  mkSystem w2 (<[2%nat := Returned (publish_of "b") (Some (SyncFailed k))]> {[1%nat := Returned (publish_of "a") None]}).

Ltac sync_next c := eapply rtc_l; [c; try reflexivity; try (by apply publish_of_fit)|].

Lemma after_two_reachable : reachable sample_cfg after_two.
Proof.
  unfold reachable.
  sync_next ltac:(apply (ss_call _ 1 (publish_of "a"))).
  sync_next ltac:(eapply (ss_send _ 1 (publish_of "a"))).
  sync_next ltac:(eapply ss_turn, (ws_event _ (sample_io None))).
  sync_next ltac:(eapply ss_turn, (ws_tick _ (sample_io None))).
  sync_next ltac:(apply (ss_answer _ 1 (publish_of "a") None); [|apply list_elem_of_singleton]).
  sync_next ltac:(apply (ss_call _ 2 (publish_of "b"))).
  sync_next ltac:(eapply (ss_send _ 2 (publish_of "b"))).
  sync_next ltac:(eapply ss_turn, (ws_event _ (sample_io None))).
  sync_next ltac:(eapply ss_turn, (ws_tick _ (sample_io (Some (mkIOError false "input/output error"))))).
  sync_next ltac:(apply (ss_answer _ 2 (publish_of "b") (Some (mkIOError false "input/output error"))); [|by_eval]).
  match goal with |- rtc _ ?a ?b => replace a with b by (by vm_compute) end. apply rtc_refl.
Qed.


(** A publisher that gave up waiting may find its event logged all the same. *)
Example timed_out_yet_logged :
  let w := flush (sample_io None) (receive (sample_io None) (mkPending (publish_of "a") (Some 1%nat)) (new_writer (newQueueWAL sample_cfg [] (mkSegment 0 [] 0)))) in
  let s := mkSystem w {[1%nat := Returned (publish_of "a") (Some TimedOutFlush)]} in
  reachable sample_cfg s ∧ log_events (segments (wr_wal (sy_writer s))) = [stamp (publish_of "a") 1 5].
Proof.
  split; [|by vm_compute]. unfold reachable.
  sync_next ltac:(apply (ss_call _ 1 (publish_of "a"))).
  sync_next ltac:(eapply (ss_send _ 1 (publish_of "a"))).
  sync_next ltac:(apply (ss_timeout _ 1 (publish_of "a"))).
  sync_next ltac:(eapply ss_turn, (ws_event _ (sample_io None))).
  sync_next ltac:(eapply ss_turn, (ws_tick _ (sample_io None))).
  match goal with |- rtc _ ?a ?b => replace a with b by (by vm_compute) end. apply rtc_refl.
Qed.

(** The contract is for a log that starts empty, or ends in a whole record.  A
    record cut short by a crash stays in the last segment, the next process
    appends to that segment, and the reader stops at the damage: what the next
    process confirms is not read back by the one after it. *)
Example torn_tail_hides_confirmed :
  let torn := mkSegment 0 (take 10 (writeRecord (stamp (publish_of "a") 1 5))) 10 in
  let '(q, sig) := flushBatch (sample_io None) [mkPending (publish_of "b") (Some 1%nat)] (newQueueWAL sample_cfg [] torn) in
  sig = [(1%nat, None)] ∧ log_events (segments q) = [].
Proof. by vm_compute. Qed.

(** ** The errors of the logs of a process *)

(** [QueueWAL.Err], and over all queues, visited in any order, [WAL.Err] and [WAL.Healthy]. *)
Definition Err (w : writer) : option io_error := w_errored (wr_wal w).
Definition wal_Err (ord : range_order writer) (queues : gmap string writer) : option io_error :=
  head (omap (λ x, Err x.2) (range_of ord queues)).
Definition Healthy (ord : range_order writer) (queues : gmap string writer) : bool :=
  forallb (λ x, negb (bool_decide (is_Some (Err x.2)))) (range_of ord queues).

(** [containsAny] finds exactly the texts that contain one of the others. *)
Lemma containsAny_spec s subs :
  containsAny s subs = true ↔ ∃ sub, sub ∈ subs ∧ ∃ a b, str_bytes s = a ++ str_bytes sub ++ b.
Proof.
  unfold containsAny. rewrite existsb_exists. split.
  - intros (sub & Hin & [Hle Hx]%andb_true_iff). apply existsb_exists in Hx as (i & _ & Hi%bool_decide_eq_true).
    exists sub. split; [by apply list_elem_of_In|]. exists (take i (str_bytes s)), (drop (length (str_bytes sub)) (drop i (str_bytes s))).
    rewrite <-Hi at 1. by rewrite take_drop, take_drop.
  - intros (sub & Hin & a & b & Hs). exists sub. split; [by apply list_elem_of_In|].
    rewrite Hs, !length_app. apply andb_true_iff. split; [apply Nat.leb_le; lia|].
    apply existsb_exists. exists (length a). split; [apply in_seq; lia|].
    apply bool_decide_eq_true. by rewrite drop_app_length, take_app_length.
Qed.


(** Whatever the order of the map, [Err] and [Healthy] agree: no log has failed. *)
Lemma healthy_spec ord queues :
  (Healthy ord queues = true ↔ map_Forall (λ _ w, Err w = None) queues) ∧
  (wal_Err ord queues = None ↔ map_Forall (λ _ w, Err w = None) queues).
Proof.
  assert (map_Forall (λ _ w, Err w = None) queues ↔ Forall (λ x, Err x.2 = None) (range_of ord queues)) as Hall.
  { rewrite (range_perm ord queues), map_Forall_to_list. apply Forall_iff. by intros []. }
  rewrite Hall. split.
  - unfold Healthy. rewrite forallb_forall, Forall_forall. split; intros H x Hx.
    + specialize (H x (proj1 (list_elem_of_In _ _) Hx)). apply negb_true_iff, bool_decide_eq_false in H. by apply eq_None_not_Some.
    + by rewrite (H x (proj2 (list_elem_of_In _ _) Hx)).
  - clear Hall. unfold wal_Err. induction (range_of ord queues) as [|x l IH]; csimpl; [by split; [intros _; constructor|]|].
    rewrite Forall_cons. destruct (Err x.2); [by split; [|intros []]|]. rewrite IH. naive_solver.
Qed.

(** ** Closing *)

(** [closeQueueWAL]: the turn in which the goroutine sees the stop signal, or
    the failure of the log; [ios] has a result for each event left in the channel. *)
Definition closeQueueWAL (ios : list io_results) (io : io_results) (w : writer) : writer :=
  if wr_done w then w
  else match w_errored (wr_wal w) with
       | Some k => set_done (mkWriter (wr_wal w) (wr_batch w) [] (wr_signals w ++ signalDone (Some k) (wr_chan w)) false)
       | None => set_done (flush io (set_chan [] (drain ios (wr_chan w) w)))
       end.

(** [WAL.Close] over the open logs *)
Definition wal_Close (ios : string → list io_results) (io : string → io_results) (queues : gmap string writer) : gmap string writer :=
  map_imap (λ key w, Some (closeQueueWAL (ios key) (io key) w)) queues.

Lemma closeQueueWAL_turn ios io w :
  wr_done w = false → length ios = length (wr_chan w) → wstep w (closeQueueWAL ios io w).
Proof.
  intros Hd Hl. unfold closeQueueWAL. rewrite Hd. destruct (w_errored (wr_wal w)) eqn:E; by constructor.
Qed.

(** Closing the logs stops every writer and answers every publisher whose event
    was accepted before. *)
Theorem close_answers_all ios io queues sent :
  (∀ key w, queues !! key = Some w → wr_done w = false ∧ length (ios key) = length (wr_chan w) ∧
     ∃ q, w_errored q = None ∧ wruns q (sent key) w) →
  map_Forall (λ key w, wr_done w = true ∧ sent key ≡ₚ (wr_signals w).*1) (wal_Close ios io queues).
Proof.
  intros Hq key w'. unfold wal_Close. rewrite map_lookup_imap. intros Hw. apply bind_Some in Hw as (w & Hw & [= <-]).
  destruct (Hq key w Hw) as (Hd & Hl & q & He & Hr).
  assert (wr_done (closeQueueWAL (ios key) (io key) w) = true) as Hdone.
  { unfold closeQueueWAL. rewrite Hd. by destruct (w_errored (wr_wal w)). }
  split; [done|]. pose proof (wr_turn q (sent key) w _ Hr (closeQueueWAL_turn (ios key) (io key) w Hd Hl)) as Hr'.
  destruct (wruns_inv q _ _ He Hr') as (Hacc & _ & Hnil). destruct (Hnil Hdone) as [Hb Hc].
  rewrite Hacc. unfold account. rewrite Hb, Hc. simpl. by rewrite app_nil_r.
Qed.

(** A publication sent after the writer has stopped is never answered; only the
    time-out ends the wait. *)
Lemma sent_after_close id e w : wr_done w = true →
  ∀ w', sync_send id e w = Some w' → ¬ ∃ w'', wstep w' w''.
Proof.
  intros Hd w' Hs [w'' Hw]. unfold sync_send in Hs. destruct (_ <? _); [|done]. injection Hs as <-.
  destruct Hw as [? H|? ? ? H|? H|? ? H]; simpl in H; congruence.
Qed.
