(* ===== verification/Names.v ===== *)
(** * File names of a queue directory

    The WAL names its files with [fmt.Sprintf("%09d.log", id)] (segments) and
    ["%09d.snap"] (snapshots), finds them again with [fmt.Sscanf], and relies
    on os.ReadDir, which lists a directory in the order of the names, to visit
    the segments in the order of their numbers: src/internal/storage/segment.go,
    writer.go, snapshot/snapshot.go and recovery/replay.go.  This file models
    the two formatting functions on those formats. *)

From stdpp Require Import base list strings.
From Stdlib Require Import ZArith Lia.
From S2P Require Import Prelude.
Local Open Scope Z_scope.

(** ** Printing *)

Definition digit_char (d : Z) : Ascii.ascii := Ascii.ascii_of_N (Z.to_N (48 + d)).

(** The last [w] decimal digits of [z]. *)
Fixpoint dec_str (w : nat) (z : Z) : string :=
  match w with
  | O => ""
  | S k => String (digit_char ((z / 10 ^ Z.of_nat k) `mod` 10)) (dec_str k z)
  end.

(** The number of decimal digits; a uint64 has at most 20. *)
Fixpoint ndigits (fuel : nat) (z : Z) : nat :=
  match fuel with
  | O => 1
  | S fuel => if z <? 10 then 1 else S (ndigits fuel (z / 10))
  end.

(** [fmt.Sprintf("%09d" + ext, z)] *)
Definition Sprintf_id (ext : string) (z : Z) : string :=
  dec_str (Nat.max 9 (ndigits 20 z)) z +:+ ext.

(** ** Scanning *)

Definition char_code (c : Ascii.ascii) : Z := Z.of_N (Ascii.N_of_ascii c).
Definition is_digit (c : Ascii.ascii) : bool := (48 <=? char_code c) && (char_code c <=? 57).
(** The ASCII white space that [SkipSpace] skips; a newline is an error there. *)
Definition is_space (c : Ascii.ascii) : bool :=
  let z := char_code c in (z =? 32) || (z =? 9) || (z =? 11) || (z =? 12) || (z =? 13).

Fixpoint skip_space (s : string) : string :=
  match s with
  | String c t => if is_space c then skip_space t else s
  | "" => ""
  end.

(** The longest prefix of digits: how many, their value, and the rest. *)
Fixpoint scan_digits (n : nat) (acc : Z) (s : string) : nat * Z * string :=
  match s with
  | String c t => if is_digit c then scan_digits (S n) (acc * 10 + (char_code c - 48)) t else (n, acc, s)
  | "" => (n, acc, "")
  end.

(** [fmt.Sscanf(name, "%d" + ext, &id)] into a uint64; what follows the
    extension is not looked at. *)
Definition Sscanf_id (ext name : string) : option Z :=
  let '(n, v, rest) := scan_digits 0 0 (skip_space name) in
  if (n =? 0)%nat then None
  else if 2 ^ 64 <=? v then None
  else if String.prefix ext rest then Some v else None.

Example name_roundtrip :
  Sprintf_id ".log" 42 = "000000042.log" ∧ Sscanf_id ".log" "000000042.log" = Some 42 ∧
  Sprintf_id ".log" 12345678901 = "12345678901.log" ∧ Sscanf_id ".snap" "7.snapshot" = Some 7 ∧
  Sscanf_id ".log" "42.idx" = None ∧ Sscanf_id ".log" "99999999999999999999.log" = None.
Proof. vm_compute. repeat split. Qed.

(** ** Digits *)

Lemma digit_code d : 0 ≤ d < 10 → char_code (digit_char d) = 48 + d.
Proof.
  intros Hd. unfold char_code, digit_char. rewrite Ascii.N_ascii_embedding by lia. lia.
Qed.

Lemma digit_is_digit d : 0 ≤ d < 10 → is_digit (digit_char d) = true ∧ is_space (digit_char d) = false.
Proof.
  intros Hd. unfold is_digit, is_space. rewrite digit_code by done.
  rewrite !(proj2 (Z.eqb_neq _ _)) by lia. rewrite !(proj2 (Z.leb_le _ _)) by lia. done.
Qed.

Lemma mod10_range z : 0 ≤ z `mod` 10 < 10.
Proof. apply Z.mod_pos_bound. lia. Qed.

Lemma dec_split k z :
  z `mod` 10 ^ Z.of_nat (S k) = ((z / 10 ^ Z.of_nat k) `mod` 10) * 10 ^ Z.of_nat k + z `mod` 10 ^ Z.of_nat k.
Proof.
  rewrite Nat2Z.inj_succ, Z.pow_succ_r, (Z.mul_comm 10) by lia.
  rewrite Z.rem_mul_r by lia. lia.
Qed.

Lemma scan_dec w z n acc rest :
  scan_digits n acc (dec_str w z +:+ rest)
  = scan_digits (w + n) (acc * 10 ^ Z.of_nat w + z `mod` 10 ^ Z.of_nat w) rest.
Proof.
  revert n acc. induction w as [|w IH]; intros n acc.
  { simpl. rewrite Z.mod_1_r. f_equal; lia. }
  cbn [dec_str]. change ((String ?c ?s) +:+ rest) with (String c (s +:+ rest)).
  cbn [scan_digits]. destruct (digit_is_digit _ (mod10_range (z / 10 ^ Z.of_nat w))) as [-> _].
  rewrite digit_code by apply mod10_range. rewrite IH, dec_split.
  rewrite Nat2Z.inj_succ, Z.pow_succ_r by lia. f_equal; [lia|ring].
Qed.

Lemma ndigits_bound fuel z : 0 ≤ z < 10 ^ Z.of_nat (S fuel) → z < 10 ^ Z.of_nat (ndigits fuel z).
Proof.
  revert z. induction fuel as [|fuel IH]; intros z Hz; [apply Hz|].
  cbn [ndigits]. destruct (Z.ltb_spec z 10); [by change (10 ^ Z.of_nat 1) with 10|].
  rewrite (Nat2Z.inj_succ (ndigits _ _)), Z.pow_succ_r by lia.
  assert (z / 10 < 10 ^ Z.of_nat (ndigits fuel (z / 10))).
  { apply IH. rewrite (Nat2Z.inj_succ (S fuel)), Z.pow_succ_r in Hz by lia.
    split; [apply Z.div_pos; lia|]. apply Z.div_lt_upper_bound; lia. }
  pose proof (Z.div_mod z 10 ltac:(lia)). pose proof (mod10_range z). lia.
Qed.

Lemma scan_stop n acc s : match s with String c _ => is_digit c = false | "" => True end →
  scan_digits n acc s = (n, acc, s).
Proof. destruct s as [|c s]; simpl; [done|]. by intros ->. Qed.

Lemma prefix_refl s : String.prefix s s = true.
Proof. induction s as [|c s IH]; simpl; [done|]. by destruct (Ascii.ascii_dec c c). Qed.

(** A file name read with another extension. *)
Lemma Sscanf_Sprintf_ext ext' ext z :
  0 ≤ z < 2 ^ 64 → match ext with String c _ => is_digit c = false | "" => True end →
  Sscanf_id ext' (Sprintf_id ext z) = if String.prefix ext' ext then Some z else None.
Proof.
  intros Hz Hext. unfold Sscanf_id, Sprintf_id. set (w := Nat.max 9 (ndigits 20 z)).
  assert (skip_space (dec_str w z +:+ ext) = dec_str w z +:+ ext) as ->.
  { assert (w = S (pred w)) as -> by lia. cbn [dec_str].
    change ((String ?c ?s) +:+ ext) with (String c (s +:+ ext)). cbn [skip_space].
    by destruct (digit_is_digit _ (mod10_range (z / 10 ^ Z.of_nat (pred w)))) as [_ ->]. }
  rewrite scan_dec, scan_stop by done.
  assert (z < 10 ^ Z.of_nat w) as Hw.
  { eapply Z.lt_le_trans; [apply (ndigits_bound 20); lia|]. apply Z.pow_le_mono_r; lia. }
  rewrite Z.mod_small by lia. replace (0 * _ + z) with z by lia.
  destruct (Nat.eqb_spec (w + 0) 0); [lia|]. by destruct (Z.leb_spec (2 ^ 64) z); [lia|].
Qed.

(** A file name reads back as the number it was made from. *)
Lemma Sscanf_Sprintf ext z :
  0 ≤ z < 2 ^ 64 → match ext with String c _ => is_digit c = false | "" => True end →
  Sscanf_id ext (Sprintf_id ext z) = Some z.
Proof. intros Hz Hext. by rewrite Sscanf_Sprintf_ext, prefix_refl. Qed.

Lemma digit_compare d e : 0 ≤ d < 10 → 0 ≤ e < 10 → Ascii.compare (digit_char d) (digit_char e) = Z.compare d e.
Proof.
  intros Hd He. unfold Ascii.compare, digit_char. rewrite !Ascii.N_ascii_embedding by lia.
  rewrite Z2N.inj_compare by lia.
  destruct (Z.compare_spec d e), (Z.compare_spec (48 + d) (48 + e)); try done; lia.
Qed.

Lemma dec_str_lt w a b ext :
  a `mod` 10 ^ Z.of_nat w < b `mod` 10 ^ Z.of_nat w →
  String.compare (dec_str w a +:+ ext) (dec_str w b +:+ ext) = Lt.
Proof.
  induction w as [|w IH]; [simpl; rewrite !Z.mod_1_r; lia|].
  rewrite !dec_split. cbn [dec_str]. change ((String ?c ?s) +:+ ext) with (String c (s +:+ ext)).
  cbn [String.compare].
  pose proof (mod10_range (a / 10 ^ Z.of_nat w)) as Ha. pose proof (mod10_range (b / 10 ^ Z.of_nat w)) as Hb.
  rewrite digit_compare by done.
  pose proof (Z.mod_pos_bound a (10 ^ Z.of_nat w) ltac:(lia)).
  pose proof (Z.mod_pos_bound b (10 ^ Z.of_nat w) ltac:(lia)).
  destruct (Z.compare_spec ((a / 10 ^ Z.of_nat w) `mod` 10) ((b / 10 ^ Z.of_nat w) `mod` 10)) as [E|E|E].
  - rewrite E. intros. apply IH. lia.
  - done.
  - intros. exfalso. nia.
Qed.

Lemma ndigits_le k fuel z : 0 ≤ z < 10 ^ Z.of_nat (S k) → (ndigits fuel z ≤ S k)%nat.
Proof.
  revert fuel z. induction k as [|k IH]; intros fuel z Hz.
  - destruct fuel; simpl; [lia|]. rewrite (proj2 (Z.ltb_lt z 10)) by lia. lia.
  - destruct fuel as [|fuel]; cbn [ndigits]; [lia|]. destruct (Z.ltb_spec z 10); [lia|].
    apply le_n_S, IH. rewrite (Nat2Z.inj_succ (S k)), Z.pow_succ_r in Hz by lia.
    split; [apply Z.div_pos; lia|]. apply Z.div_lt_upper_bound; lia.
Qed.

Lemma Sprintf_lt ext a b : 0 ≤ a < b → b < 10 ^ 9 → str_lt (Sprintf_id ext a) (Sprintf_id ext b).
Proof.
  intros Ha Hb. assert (∀ z, 0 ≤ z < 10 ^ 9 → Nat.max 9 (ndigits 20 z) = 9%nat) as Hnine.
  { intros z Hz. pose proof (ndigits_le 8 20 z Hz). lia. }
  rewrite str_lt_compare. unfold Sprintf_id. rewrite !Hnine by lia.
  apply dec_str_lt. rewrite !Z.mod_small; lia.
Qed.

(** File names and numbers: every name the WAL makes is read back as the
    number it was made from, and below a billion segments the names sort as the
    numbers do, so listing a directory visits the segments in the order they
    were written. *)
Theorem segment_names a b :
  0 ≤ a < 2 ^ 64 →
  Sscanf_id ".log" (Sprintf_id ".log" a) = Some a ∧ Sscanf_id ".snap" (Sprintf_id ".snap" a) = Some a ∧
  (a < b < 10 ^ 9 → str_lt (Sprintf_id ".log" a) (Sprintf_id ".log" b)).
Proof.
  intros Ha. split_and!; [by apply Sscanf_Sprintf..|]. intros Hab. apply Sprintf_lt; lia.
Qed.

Lemma segment_names_witness :
  0 ≤ 41 < 2 ^ 64 ∧ (41 < 1042 < 10 ^ 9) ∧
  Sscanf_id ".log" (Sprintf_id ".log" 41) = Some 41 ∧ Sscanf_id ".snap" (Sprintf_id ".snap" 41) = Some 41 ∧
  (41 < 1042 < 10 ^ 9 → str_lt (Sprintf_id ".log" 41) (Sprintf_id ".log" 1042)).
Proof. split; [lia|]. split; [lia|]. apply (segment_names 41 1042). lia. Defined.

(** With ten digits the order of the names is no longer that of the numbers:
    segment 10^9 is listed before segment 10^9 - 1. *)
Example names_out_of_order : str_lt (Sprintf_id ".log" (10 ^ 9)) (Sprintf_id ".log" (10 ^ 9 - 1)).
Proof. vm_compute. repeat split. Qed.
