(* ===== verification/Snapshot.v ===== *)
(** * The snapshot file format

    src/internal/storage/snapshot/snapshot.go (the writer and the reader of a
    snapshot file, the choice of the latest one) and the conversion of a queue
    state to it, convertQueueStateToSnapshot of src/internal/storage/writer.go.
    A reader is a function of the bytes still to come; the writer's output is
    the bytes it has written. *)

From stdpp Require Import base gmap list strings.
From Stdlib Require Import ZArith Lia Strings.Byte.
From S2P Require Import Prelude Message Group Queue.
Local Open Scope Z_scope.
Local Open Scope list_scope.

(** ** Readers *)

Inductive snap_error := SnapIO (e : io_error) | InvalidMagic | UnsupportedVersion.

#[export] Instance snap_error_eq_dec : EqDecision snap_error.
Proof. solve_decision. Defined.

Definition reader (A : Type) : Type := list byte → list byte * (A + snap_error).

#[export] Instance r_ret : MRet reader := λ A a s, (s, inl a).
Definition r_fail {A} (e : snap_error) : reader A := λ s, (s, inr e).
#[export] Instance r_bind : MBind reader := λ A B f p s,
  match p s with (s, inl a) => f a s | (s, inr e) => (s, inr e) end.

Definition read_bytes (n : nat) : reader (list byte) :=
  λ s, match ReadFull n s with (s, inl bs) => (s, inl bs) | (s, inr e) => (s, inr (SnapIO e)) end.

(** [binary.Read] of an unsigned and of a signed integer of [n] bytes. *)
Definition read_uint (n : nat) : reader Z := bs ← read_bytes n; mret (be_get bs).
Definition read_int (n : nat) : reader Z :=
  bs ← read_bytes n; mret (wrap_s (8 * Z.of_nat n) (be_get bs)).

Definition read_blob (lenBytes : nat) : reader (list byte) :=
  n ← read_uint lenBytes; read_bytes (Z.to_nat n).
Definition read_string (lenBytes : nat) : reader string :=
  bs ← read_blob lenBytes; mret (bytes_str bs).

Fixpoint read_n {A} (n : nat) (p : reader A) : reader (list A) :=
  match n with
  | O => mret []
  | S n => x ← p; xs ← read_n n p; mret (x :: xs)
  end.

(** ** The format *)

Record MessageSnapshot := mkMessageSnapshot {
  ms_ID : string; ms_Payload : list byte; ms_State : Z; ms_Attempts : Z;
  ms_CreatedAt : Z; ms_ScheduledAt : Z; ms_LastError : string;
}.

Record GroupSnapshot := mkGroupSnapshot {
  sg_Key : string; sg_Parallelism : Z; sg_Quantum : Z; sg_Messages : list MessageSnapshot;
}.

Record Snapshot := mkSnapshot {
  SegmentID : Z; WALSeq : Z; Timestamp : Z; Groups : list GroupSnapshot;
}.

#[export] Instance MessageSnapshot_eq_dec : EqDecision MessageSnapshot.
Proof. solve_decision. Defined.
#[export] Instance GroupSnapshot_eq_dec : EqDecision GroupSnapshot.
Proof. solve_decision. Defined.
#[export] Instance Snapshot_eq_dec : EqDecision Snapshot.
Proof. solve_decision. Defined.

Definition magic : list byte := str_bytes "FSNP".
Definition version : Z := 1.

(** [binary.Write] of an integer of [n] bytes, signed ones in two's complement. *)
Definition write_int (n : nat) (v : Z) : list byte := be_put n (wrap_u (8 * Z.of_nat n) v).
Definition write_blob (n : nat) (data : list byte) : list byte :=
  write_int n (Z.of_nat (length data)) ++ data.
Definition write_string (n : nat) (s : string) : list byte := write_blob n (str_bytes s).

Definition writeMessage (m : MessageSnapshot) : list byte :=
  write_string 2 (ms_ID m) ++ write_blob 4 (ms_Payload m) ++ write_int 1 (ms_State m)
  ++ write_int 4 (ms_Attempts m) ++ write_int 8 (ms_CreatedAt m) ++ write_int 8 (ms_ScheduledAt m)
  ++ write_string 2 (ms_LastError m).

Definition writeGroup (g : GroupSnapshot) : list byte :=
  write_string 2 (sg_Key g) ++ write_int 4 (sg_Parallelism g) ++ write_int 4 (sg_Quantum g)
  ++ write_int 4 (Z.of_nat (length (sg_Messages g))) ++ concat (writeMessage <$> sg_Messages g).

Definition snap_header (s : Snapshot) : list byte :=
  magic ++ be_put 2 version ++ write_int 8 (SegmentID s) ++ write_int 8 (WALSeq s)
  ++ write_int 8 (Timestamp s) ++ be_put 2 0.

Definition Write (s : Snapshot) : list byte :=
  snap_header s ++ write_int 4 (Z.of_nat (length (Groups s))) ++ concat (writeGroup <$> Groups s).

Definition readMessage : reader MessageSnapshot :=
  id ← read_string 2; payload ← read_blob 4; state ← read_int 1; attempts ← read_int 4;
  createdAt ← read_int 8; scheduledAt ← read_int 8; lastError ← read_string 2;
  mret (mkMessageSnapshot id payload state attempts createdAt scheduledAt lastError).

Definition readGroup : reader GroupSnapshot :=
  key ← read_string 2; parallelism ← read_int 4; quantum ← read_int 4;
  msgCount ← read_uint 4; messages ← read_n (Z.to_nat msgCount) readMessage;
  mret (mkGroupSnapshot key parallelism quantum messages).

(** The bytes [a, b) of the header. *)
Definition header_field (a b : nat) (header : list byte) : list byte := take (b - a) (drop a header).

Definition Read : reader Snapshot :=
  header ← read_bytes 32;
  if negb (bool_decide (header_field 0 4 header = magic)) then r_fail InvalidMagic
  else if negb (be_get (header_field 4 6 header) =? version) then r_fail UnsupportedVersion
  else
    groupCount ← read_uint 4; groups ← read_n (Z.to_nat groupCount) readGroup;
    mret (mkSnapshot (be_get (header_field 6 14 header)) (be_get (header_field 14 22 header))
             (i64 (be_get (header_field 22 30 header))) groups).

(** ** The state of a queue in the format *)

Definition convert_message (m : Message) : MessageSnapshot :=
  mkMessageSnapshot (ID m) (Payload m) (MessageState_code (State m)) (i32 (Attempts m))
    (UnixNano (CreatedAt m)) (UnixNano (ScheduledAt m)) (LastError m).

Definition convert_group (ord : range_order Message) (key : string) (gs : GroupState) : GroupSnapshot :=
  let all := gs_ReadyMsgs gs ++ gs_UrgentMsgs gs ++ gs_DelayedMsgs gs
             ++ (range_of ord (map_entries (gs_ProcessingMsgs gs))).*2 in
  mkGroupSnapshot key (i32 (gs_Parallelism gs)) (i32 (gs_Quantum gs)) (convert_message <$> all).

Definition convertQueueStateToSnapshot (ordg : range_order GroupState) (ord : range_order Message)
    (state : QueueState) : list GroupSnapshot :=
  (λ kg, convert_group ord kg.1 kg.2) <$> range_of ordg (qs_Groups state).

(** ** What a reader consumes *)

(** [p] reads exactly [bs], whatever follows, and returns [a]. *)
Definition reads {A} (p : reader A) (bs : list byte) (a : A) : Prop :=
  ∀ rest, p (bs ++ rest) = (rest, inl a).

(** A reader that succeeds is not disturbed by what comes after. *)
Class Stable {A} (p : reader A) : Prop :=
  stable : ∀ s rest a extra, p s = (rest, inl a) → p (s ++ extra) = (rest ++ extra, inl a).

#[export] Instance stable_ret {A} (a : A) : Stable (mret a).
Proof. by intros s rest b extra [= -> ->]. Qed.
#[export] Instance stable_fail {A} e : Stable (@r_fail A e).
Proof. by intros s rest b extra [=]. Qed.
#[export] Instance stable_bind {A B} (p : reader A) (f : A → reader B) :
  Stable p → (∀ a, Stable (f a)) → Stable (p ≫= f).
Proof.
  intros Hp Hf s rest b extra. unfold mbind, r_bind.
  destruct (p s) as [s' [a|e]] eqn:E; [|done]. intros Hb. rewrite (Hp _ _ _ _ E). by apply Hf.
Qed.
#[export] Instance stable_if {A} (b : bool) (p q : reader A) :
  Stable p → Stable q → Stable (if b then p else q).
Proof. by destruct b. Qed.
#[export] Instance stable_bytes n : Stable (read_bytes n).
Proof.
  intros s rest a extra. unfold read_bytes, ReadFull.
  destruct (Nat.leb_spec n (length s)) as [Hle|]; [|by destruct s].
  intros [= <- <-]. rewrite (proj2 (Nat.leb_le _ _)) by (rewrite length_app; lia).
  by rewrite drop_app_le, take_app_le by done.
Qed.
#[export] Instance stable_n {A} n (p : reader A) : Stable p → Stable (read_n n p).
Proof. intros Hp. induction n; simpl; apply _. Qed.

Lemma reads_ret {A} (a : A) : reads (mret a) [] a.
Proof. by intros rest. Qed.

Lemma reads_bind {A B} (p : reader A) (f : A → reader B) bs bs' a b :
  reads p bs a → reads (f a) bs' b → reads (p ≫= f) (bs ++ bs') b.
Proof. intros Hp Hf rest. unfold mbind, r_bind. by rewrite <-(assoc_L (++)), Hp, Hf. Qed.

Lemma reads_map {A B} (p : reader A) (f : A → B) bs a :
  reads p bs a → reads (a ← p; mret (f a)) bs (f a).
Proof. intros Hp. rewrite <-(app_nil_r bs). eapply reads_bind; [done|apply reads_ret]. Qed.

Lemma reads_bytes n bs : n = length bs → reads (read_bytes n) bs bs.
Proof. intros Hn rest. unfold read_bytes. by rewrite ReadFull_app. Qed.

Lemma pow256 n : 256 ^ Z.of_nat n = 2 ^ (8 * Z.of_nat n).
Proof. rewrite Z.pow_mul_r by lia. done. Qed.

Lemma reads_uint n v : 0 ≤ v < 2 ^ (8 * Z.of_nat n) → reads (read_uint n) (write_int n v) v.
Proof.
  intros Hv. unfold read_uint, write_int. rewrite wrap_u_small by done.
  replace v with (be_get (be_put n v)) at 2 by (rewrite be_get_put_small; [done|by rewrite pow256]).
  apply reads_map, reads_bytes. by rewrite length_be_put.
Qed.

Lemma reads_int n v :
  (0 < n)%nat → - 2 ^ (8 * Z.of_nat n - 1) ≤ v < 2 ^ (8 * Z.of_nat n - 1) →
  reads (read_int n) (write_int n v) v.
Proof.
  intros Hn Hv. unfold read_int, write_int.
  set (w := 8 * Z.of_nat n) in *.
  assert (be_get (be_put n (wrap_u w v)) = wrap_u w v) as E.
  { apply be_get_put_small. rewrite pow256. apply Z.mod_pos_bound. apply Z.pow_pos_nonneg; lia. }
  replace v with (wrap_s w (be_get (be_put n (wrap_u w v)))) at 2.
  - eapply (reads_map _ (λ bs, wrap_s w (be_get bs))), reads_bytes. by rewrite length_be_put.
  - rewrite E, wrap_s_wrap_u by lia. apply wrap_s_small; [lia|done].
Qed.

Lemma reads_blob n bs : Z.of_nat (length bs) < 2 ^ (8 * Z.of_nat n) → reads (read_blob n) (write_blob n bs) bs.
Proof.
  intros H. eapply reads_bind; [apply reads_uint; lia|]. apply reads_bytes. lia.
Qed.

Lemma reads_string n s : Z.of_nat (str_len s) < 2 ^ (8 * Z.of_nat n) → reads (read_string n) (write_string n s) s.
Proof.
  intros H. rewrite <-(bytes_str_bytes s) at 2. unfold read_string, write_string.
  apply reads_map, reads_blob. by rewrite length_str_bytes.
Qed.

Lemma reads_n {A} (p : reader A) (w : A → list byte) xs :
  (∀ x, x ∈ xs → reads p (w x) x) → reads (read_n (length xs) p) (concat (w <$> xs)) xs.
Proof.
  induction xs as [|x xs IH]; intros H; simpl; [apply reads_ret|].
  eapply reads_bind; [apply H; by left|].
  apply (reads_map _ (cons x)), IH. intros y Hy. apply H. by right.
Qed.

(** ** The round trip *)

Definition short (w : Z) (s : string) : Prop := Z.of_nat (str_len s) < 2 ^ w.
Definition fits_s (w v : Z) : Prop := - 2 ^ (w - 1) ≤ v < 2 ^ (w - 1).

Record message_ok (m : MessageSnapshot) : Prop := {
  mo_id : short 16 (ms_ID m); mo_err : short 16 (ms_LastError m);
  mo_payload : Z.of_nat (length (ms_Payload m)) < 2 ^ 32;
  mo_state : fits_s 8 (ms_State m); mo_attempts : fits_s 32 (ms_Attempts m);
  mo_created : fits_s 64 (ms_CreatedAt m); mo_sched : fits_s 64 (ms_ScheduledAt m);
}.

Record groupsnap_ok (g : GroupSnapshot) : Prop := {
  go_key : short 16 (sg_Key g);
  go_par : fits_s 32 (sg_Parallelism g); go_quantum : fits_s 32 (sg_Quantum g);
  go_count : Z.of_nat (length (sg_Messages g)) < 2 ^ 32;
  go_msgs : Forall message_ok (sg_Messages g);
}.

Record snapshot_ok (s : Snapshot) : Prop := {
  so_seg : 0 ≤ SegmentID s < 2 ^ 64; so_seq : 0 ≤ WALSeq s < 2 ^ 64;
  so_time : fits_s 64 (Timestamp s);
  so_count : Z.of_nat (length (Groups s)) < 2 ^ 32;
  so_groups : Forall groupsnap_ok (Groups s);
}.

#[export] Instance fits_s_dec w v : Decision (fits_s w v).
Proof. unfold fits_s. apply _. Defined.
#[export] Instance short_dec w v : Decision (short w v).
Proof. unfold short. apply _. Defined.
#[global] Typeclasses Opaque short fits_s.

Lemma readMessage_ok m : message_ok m → reads readMessage (writeMessage m) m.
Proof.
  intros []. unfold readMessage, writeMessage. destruct m; cbn [ms_ID ms_Payload ms_State ms_Attempts ms_CreatedAt ms_ScheduledAt ms_LastError] in *.
  do 6 (eapply reads_bind; [first [by apply reads_string|by apply reads_blob|by apply reads_int; [lia|]]|]).
  rewrite <-(app_nil_r (write_string 2 _)).
  eapply reads_bind; [by apply reads_string|apply reads_ret].
Qed.

Lemma readGroup_ok g : groupsnap_ok g → reads readGroup (writeGroup g) g.
Proof.
  intros []. unfold readGroup, writeGroup. destruct g as [key par quantum msgs]; cbn [sg_Key sg_Parallelism sg_Quantum sg_Messages] in *.
  eapply reads_bind; [by apply reads_string|]. eapply reads_bind; [by apply reads_int; [lia|]|].
  eapply reads_bind; [by apply reads_int; [lia|]|]. eapply reads_bind; [apply reads_uint; lia|].
  rewrite Nat2Z.id. apply (reads_map _ (mkGroupSnapshot key par quantum)), reads_n.
  intros m Hm. by apply readMessage_ok, (proj1 (Forall_forall _ _) go_msgs0).
Qed.

(** The fields of a header laid out from its parts. *)
Lemma header_field_app a b pre bs post :
  length pre = a → length bs = (b - a)%nat → header_field a b (pre ++ bs ++ post) = bs.
Proof. intros <- H. unfold header_field. by rewrite drop_app_length, <-H, take_app_length. Qed.

Lemma length_write_int n v : length (write_int n v) = n.
Proof. apply length_be_put. Qed.

Lemma length_snap_header s : length (snap_header s) = 32%nat.
Proof. unfold snap_header. by rewrite !length_app, !length_write_int, !length_be_put. Qed.

Lemma header_fields s :
  header_field 0 4 (snap_header s) = magic ∧
  header_field 4 6 (snap_header s) = be_put 2 version ∧
  header_field 6 14 (snap_header s) = write_int 8 (SegmentID s) ∧
  header_field 14 22 (snap_header s) = write_int 8 (WALSeq s) ∧
  header_field 22 30 (snap_header s) = write_int 8 (Timestamp s).
Proof.
  pose proof (λ v, length_write_int 8 v) as L8. unfold snap_header.
  split_and!.
  - apply (header_field_app 0 4 []); done.
  - apply (header_field_app 4 6 magic); done.
  - rewrite (assoc_L (++) magic). apply header_field_app; [done|apply L8].
  - rewrite (assoc_L (++) (be_put 2 version)), (assoc_L (++) magic).
    apply header_field_app; [by rewrite !length_app, L8|apply L8].
  - rewrite (assoc_L (++) (write_int 8 (SegmentID s))), (assoc_L (++) (be_put 2 version)), (assoc_L (++) magic).
    apply header_field_app; [by rewrite !length_app, !L8|apply L8].
Qed.

Lemma Read_ok s : snapshot_ok s → reads Read (Write s) s.
Proof.
  intros [Hseg Hseq Ht Hc Hg]. unfold Read, Write.
  eapply reads_bind; [apply reads_bytes; by rewrite length_snap_header|].
  destruct (header_fields s) as (-> & -> & -> & -> & ->).
  rewrite bool_decide_true by done. cbn [negb].
  change (be_get (be_put 2 version) =? version) with true. cbn [negb].
  eapply reads_bind; [apply reads_uint; lia|]. rewrite Nat2Z.id.
  assert (be_get (write_int 8 (SegmentID s)) = SegmentID s ∧ be_get (write_int 8 (WALSeq s)) = WALSeq s ∧
          i64 (be_get (write_int 8 (Timestamp s))) = Timestamp s) as (-> & -> & ->).
  { unfold write_int. split_and!; rewrite ?be_get_put_small.
    - by apply wrap_u_small.
    - apply Z.mod_pos_bound; lia.
    - by apply wrap_u_small.
    - apply Z.mod_pos_bound; lia.
    - change (8 * Z.of_nat 8) with 64. rewrite wrap_s_wrap_u by lia. apply wrap_s_small; [lia|done].
    - apply Z.mod_pos_bound; lia. }
  destruct s as [seg seq t groups]; cbn [SegmentID WALSeq Timestamp Groups] in *.
  apply (reads_map _ (mkSnapshot seg seq t)), reads_n.
  intros g Hin. by apply readGroup_ok, (proj1 (Forall_forall _ _) Hg).
Qed.

#[export] Instance Read_stable : Stable Read.
Proof. unfold Read, readGroup, readMessage, read_string, read_blob, read_uint, read_int. apply _. Qed.

(** A snapshot file reads back as the snapshot that was written to it, and a
    file cut anywhere before its end is refused with an error instead of being
    read as a smaller state. *)
Theorem snapshot_file_roundtrip s :
  snapshot_ok s →
  Read (Write s) = ([], inl s) ∧
  ∀ n, (n < length (Write s))%nat → ∃ rest e, Read (take n (Write s)) = (rest, inr e).
Proof.
  intros Hok. pose proof (Read_ok s Hok []) as Hread. rewrite app_nil_r in Hread.
  split; [done|]. intros n Hn.
  destruct (Read (take n (Write s))) as [rest [s'|e]] eqn:E; [|by eauto].
  pose proof (stable _ _ _ (drop n (Write s)) E) as Hfull.
  rewrite take_drop, Hread in Hfull. apply (f_equal fst) in Hfull. cbn [fst] in Hfull.
  apply (f_equal length) in Hfull. rewrite length_app, length_drop in Hfull.
  change (length []) with 0%nat in Hfull. lia.
Qed.

Definition sample_snapshot : Snapshot :=
  mkSnapshot 3 17 1000
    [mkGroupSnapshot "g" 2 1
       [mkMessageSnapshot "id1" [x01; x02] 0 1 5 (-6) "boom"; mkMessageSnapshot "id2" [] 1 0 7 8 ""];
     mkGroupSnapshot "h" 1 4 []].

Lemma sample_snapshot_ok : snapshot_ok sample_snapshot.
Proof. repeat constructor; by_eval. Qed.

Lemma snapshot_file_roundtrip_witness :
  snapshot_ok sample_snapshot ∧ Read (Write sample_snapshot) = ([], inl sample_snapshot) ∧
  ∀ n, (n < length (Write sample_snapshot))%nat →
    ∃ rest e, Read (take n (Write sample_snapshot)) = (rest, inr e).
Proof. split; [apply sample_snapshot_ok|]. exact (snapshot_file_roundtrip sample_snapshot sample_snapshot_ok). Defined.
