(* ===== verification/Recovery.v ===== *)
(** * Recovery of a queue

    src/internal/storage/recovery/bootstrap.go and replay.go (what a queue
    directory holds, which snapshot to load, the replay of the log), the choice
    of the latest snapshot of src/internal/storage/snapshot/snapshot.go, and the
    broker's replay handler, src/internal/broker/recovery.go.  A directory maps
    file names to contents; [time.Now] is a clock indexed by the number of the
    call. *)

From stdpp Require Import base gmap list strings.
From Stdlib Require Import ZArith Lia Strings.Byte.
From S2P Require Import Prelude Message Group Queue WalRecord Snapshot Names.
Local Open Scope Z_scope.
Local Open Scope list_scope.

(** ** Directories *)

Inductive dir_entry := File (data : list byte) | Dir.

Abbreviation directory := (gmap string dir_entry).

(** [os.ReadDir]: the entries in the order of their names. *)
Definition ReadDir (d : directory) : list (string * dir_entry) :=
  omap (λ name, pair name <$> d !! name) (sort_strings (elements (dom d))).

(** [os.Open] and a read to the end; it fails on a missing file. *)
Definition file_data (d : directory) (name : string) : option (list byte) :=
  match d !! name with Some (File data) => Some data | _ => None end.

(** [FindLatestSnapshot]: the name, [""] for none. *)
Definition FindLatestSnapshot (d : directory) : string * Z :=
  foldl (λ best e,
    match e.2 with
    | Dir => best
    | File _ => match Sscanf_id ".snap" e.1 with
                | Some seq => if best.2 <? seq then (e.1, seq) else best
                | None => best
                end
    end) ("", 0) (ReadDir d).

(** ** Discovery *)

Record QueueRecoveryInfo := mkInfo {
  ri_Namespace : string; ri_Queue : string;
  SnapshotPath : string; SnapshotSeq : Z; SnapshotSegID : Z;
}.

Definition loadSnapshot (d : directory) (name : string) : option Snapshot :=
  match file_data d name with
  | Some data => match Read data with (_, inl s) => Some s | (_, inr _) => None end
  | None => None
  end.

(** One queue directory of [DiscoverQueues]. *)
Definition discover_queue (ns queue : string) (d : directory) : QueueRecoveryInfo :=
  let '(snapPath, _) := FindLatestSnapshot d in
  if bool_decide (snapPath = "") then mkInfo ns queue "" 0 0
  else match loadSnapshot d snapPath with
       | None => mkInfo ns queue "" 0 0
       | Some snap => mkInfo ns queue snapPath (WALSeq snap) (SegmentID snap)
       end.

(** The tree of namespaces and queues under the WAL root; [None] is an entry
    that is not a directory. *)
Definition wal_root : Type := list (string * option (list (string * option directory))).

Definition DiscoverQueues (root : wal_root) : list QueueRecoveryInfo :=
  concat ((λ ns : string * _,
    match ns.2 with
    | None => []
    | Some qs => omap (λ q : string * option directory, discover_queue ns.1 q.1 <$> q.2) qs
    end) <$> root).

(** ** Replay *)

Record ReplayHandler (S : Type) := mkHandler {
  OnPublish : Event → S → S; OnLease : Event → S → S; OnACK : Event → S → S;
  OnNACK : Event → S → S; OnExpire : Event → S → S;
}.
Arguments OnPublish {S}. Arguments OnLease {S}. Arguments OnACK {S}.
Arguments OnNACK {S}. Arguments OnExpire {S}. Arguments mkHandler {S}.

Record SnapshotHandler (S : Type) := mkSnapshotHandler {
  replay_handler : ReplayHandler S; OnSnapshot : Snapshot → S → S;
}.
Arguments replay_handler {S}. Arguments OnSnapshot {S}. Arguments mkSnapshotHandler {S}.

Definition dispatch {S} (event : Event) (h : ReplayHandler S) : S → S :=
  if ev_Type event =? EventPublish then OnPublish h event
  else if ev_Type event =? EventLease then OnLease h event
  else if ev_Type event =? EventACK then OnACK h event
  else if ev_Type event =? EventNACK then OnNACK h event
  else if ev_Type event =? EventExpire then OnExpire h event
  else id.

(** The events of a segment up to its end or its first unreadable record. *)
Definition file_events (data : list byte) : list Event := (read_segment (S (length data)) data).1.

Definition replayFile {S} (data : list byte) (startSeq : Z) (h : ReplayHandler S) (s : S) : S :=
  foldl (λ s event, if ev_Seq event <? startSeq then s else dispatch event h s) s (file_events data).

Definition ReplaySegment {S} (d : directory) (startSeq : Z) (h : ReplayHandler S) (s : S) : S :=
  foldl (λ s (e : string * dir_entry),
    match e.2 with
    | Dir => s
    | File data => match Sscanf_id ".log" e.1 with
                   | None => s
                   | Some _ => replayFile data startSeq h s
                   end
    end) s (ReadDir d).

Definition tryLoadSnapshot (d : directory) (path : string) : option Snapshot :=
  match loadSnapshot d path with
  | Some s => Some s
  | None =>
      match Sscanf_id ".snap" path with
      | None => None
      | Some snapID => if snapID =? 0 then None
                       else loadSnapshot d (Sprintf_id ".snap" (snapID - 1))
      end
  end.

Definition ReplayFromSnapshot {S} (d : directory) (info : QueueRecoveryInfo) (h : SnapshotHandler S) (s : S) : S :=
  let s := if bool_decide (SnapshotPath info = "") then s
           else match tryLoadSnapshot d (SnapshotPath info) with
                | Some snap => OnSnapshot h snap s
                | None => s
                end in
  let startSeq := u64 (SnapshotSeq info + 1) in
  foldl (λ s (e : string * dir_entry),
    match e.2 with
    | Dir => s
    | File data =>
        match Sscanf_id ".log" e.1 with
        | None => s
        | Some segID =>
            if negb (bool_decide (SnapshotPath info = "")) && (segID <? SnapshotSegID info) then s
            else replayFile data startSeq (replay_handler h) s
        end
    end) s (ReadDir d).

(** ** The broker's handler *)

(** The queue being rebuilt, the calls to [time.Now] so far, and whether the
    handler has panicked. *)
Record rstate := mkRstate { rs_queue : Queue; rs_tick : nat; rs_panicked : bool }.

Section handler.
Context (clock : nat → Z) (ordg : range_order GroupState).
Context (queueName namespace : string).

Definition recovered_message (key : string) (ms : MessageSnapshot) : Message :=
  let msg := NewMessageForRecovery queueName namespace key (ms_Payload ms) (ms_CreatedAt ms) (ms_ID ms) in
  set_LastError (ms_LastError ms) (set_ScheduledAt (ms_ScheduledAt ms)
    (set_Attempts (ms_Attempts ms) (set_State (MessageState_of_code (ms_State ms)) msg))).

(** Put one message of a group snapshot in its place; a map that is still nil
    is allocated first, and a message in another state is dropped. *)
Definition place_message (now : Z) (gs : GroupState) (msg : Message) : GroupState :=
  match State msg with
  | StateProcessing =>
      mkGroupState (gs_Key gs) (gs_Parallelism gs) (gs_Quantum gs) (gs_ReadyMsgs gs) (gs_UrgentMsgs gs)
        (gs_DelayedMsgs gs) (Some (<[ID msg := msg]> (map_entries (gs_ProcessingMsgs gs))))
  | StatePending =>
      if After (ScheduledAt msg) now
      then mkGroupState (gs_Key gs) (gs_Parallelism gs) (gs_Quantum gs) (gs_ReadyMsgs gs) (gs_UrgentMsgs gs)
             (gs_DelayedMsgs gs ++ [msg]) (gs_ProcessingMsgs gs)
      else mkGroupState (gs_Key gs) (gs_Parallelism gs) (gs_Quantum gs) (gs_ReadyMsgs gs ++ [msg])
             (gs_UrgentMsgs gs) (gs_DelayedMsgs gs) (gs_ProcessingMsgs gs)
  | _ => gs
  end.

Definition group_of_snapshot (now : Z) (gs : GroupSnapshot) : GroupState :=
  foldl (place_message now)
    (mkGroupState (sg_Key gs) (sg_Parallelism gs) (sg_Quantum gs) [] [] [] None)
    (recovered_message (sg_Key gs) <$> sg_Messages gs).

Definition queue_state_of (now : Z) (snap : Snapshot) : QueueState :=
  mkQueueState "" "" (foldl (λ m gs, <[sg_Key gs := group_of_snapshot now gs]> m) ∅ (Groups snap)).

(** A call of the handler: one reading of the clock, nothing after a panic. *)
Definition on_event (f : Z → Queue → Queue * outcome unit) (s : rstate) : rstate :=
  if rs_panicked s then s
  else let '(q, o) := f (clock (rs_tick s)) (rs_queue s) in
       mkRstate q (S (rs_tick s)) (negb (is_ret o)).

Definition on_snapshot (snap : Snapshot) : rstate → rstate :=
  on_event (λ now q, (ImportState ordg (queue_state_of now snap) q, Ret tt)).

Definition on_publish (event : Event) : rstate → rstate :=
  on_event (λ now q, ((PublishWithID "" now (ev_Group event) (ev_MsgID event) (ev_Payload event) q).1, Ret tt)).

Definition on_lease (event : Event) : rstate → rstate :=
  on_event (λ now q, let '(q, o) := ReplayLease (ev_Group event) (ev_MsgID event) now q in
                     (q, outcome_map (λ _, tt) o)).

Definition on_ack (event : Event) : rstate → rstate :=
  on_event (λ now q, let '(q, err) := Complete (ev_Group event) (ev_MsgID event) q in
    (match err with
     | Some _ => (RemoveMessage (ev_Group event) (ev_MsgID event) q).1
     | None => q
     end, Ret tt)).

Definition on_nack (event : Event) : rstate → rstate :=
  on_event (λ now q, let '(q, res) := Fail (ev_Group event) (ev_MsgID event) "replayed NACK" now q in
    (match res with
     | inr _ => (RemoveMessage (ev_Group event) (ev_MsgID event) q).1
     | inl _ => q
     end, Ret tt)).

Definition on_expire (event : Event) : rstate → rstate :=
  on_event (λ now q, ((Complete (ev_Group event) (ev_MsgID event) q).1, Ret tt)).

Definition queueRecoveryHandler : SnapshotHandler rstate :=
  mkSnapshotHandler (mkHandler on_publish on_lease on_ack on_nack on_expire) on_snapshot.

(** One queue of [replayWAL]. *)
Definition recover_queue (d : directory) (q : Queue) : rstate :=
  ReplayFromSnapshot d (discover_queue namespace queueName d) queueRecoveryHandler (mkRstate q 0 false).
End handler.
