(* ===== verification/RecoveryInv.v ===== *)
(** * Correctness of recovery

    What the replay of src/internal/broker/recovery.go rebuilds: theorems on
    the handler, on the visit of the log of a directory and on the state read
    back from a snapshot. *)

From stdpp Require Import base gmap list strings sorting.
From Stdlib Require Import ZArith Lia Strings.Byte.
From S2P Require Import Prelude Heap Message Group GroupInv GroupDrain GroupSettle KeyIndex ConfigIdx Queue QueueInv QueueSnap WalRecord Snapshot Names Recovery.
Local Open Scope Z_scope.
Local Open Scope list_scope.

(** ** A group during replay *)

Definition tag (m : Message) : string * list byte := (ID m, Payload m).

(** There is room for [n] more messages under the depth limit [max]. *)
Definition room (max : Z) (n : nat) (used : Z) : Prop := max ≤ 0 ∨ used + Z.of_nat n ≤ max.

(** Nothing is promoted or returned during a replay, so [urgent] and [delayed]
    stay empty; [n] more messages are welcome. *)
Record replaying (n : nat) (g : group) : Prop := {
  rp_wf : group_wf g;
  rp_urgent : urgent g = [];
  rp_delayed : delayed g = [];
  rp_depth : room (MaxPending (cfg g)) n (pendingCount g);
}.

Lemma clear_ready_slot g i m :
  group_wf g → urgent g = [] → (readyHead g ≤ i)%nat → ready g !! i = Some (Some m) →
  let g0 := set_ready (<[i := None]> (ready g)) (readyHead g) g in
  group_wf g0 ∧ group_msgs g ≡ₚ m :: group_msgs g0.
Proof.
  intros Hwf Hu Hh Hi g0.
  assert (dispatch_order g ≡ₚ m :: dispatch_order g0) as Ho.
  { unfold dispatch_order, g0. simpl. by rewrite (live_clear _ _ _ _ Hh Hi), <-Permutation_middle. }
  assert (group_msgs g ≡ₚ m :: group_msgs g0) as Hm.
  { unfold group_msgs, pending. rewrite Ho. done. }
  split; [|done]. pose proof Hwf as [Hp Hk Hnd Hurg [Hh1 Hh2] Hheap Hlim Hpend Hinf].
  constructor; try done.
  - unfold group_ids in *. rewrite Hm in Hnd. by apply NoDup_cons in Hnd as [_ ?].
  - unfold g0. simpl. by rewrite length_insert.
  - revert Hpend. unfold pending. rewrite Ho. simpl. rewrite Forall_cons. tauto.
Qed.

Lemma find_slot_nil id head off : find_slot id head off [] = None.
Proof. done. Qed.

(** A lease keeps the messages of the group. *)
Lemma replay_lease_replaying n id now g :
  replaying n g →
  ∃ g' b, replay_lease id now g = (g', Ret b) ∧ replaying n g' ∧ tag <$> group_msgs g' ≡ₚ tag <$> group_msgs g ∧
    cfg g' = cfg g.
Proof.
  intros [Hwf Hu Hd Hmax]. unfold replay_lease. rewrite Hu, find_slot_nil.
  destruct (find_slot id (readyHead g) 0 (ready g)) as [[i m]|] eqn:Er; [|by exists g, false].
  apply find_slot_Some in Er as (j & -> & Hh & Hj & Hid). simpl in *.
  destruct (clear_ready_slot g j m Hwf Hu Hh Hj) as [Hwf0 Hm].
  set (g0 := set_ready _ _ g) in *.
  assert (ID m ∉ group_ids g0) as Hni.
  { pose proof (wf_nodup g Hwf) as Hnd. unfold group_ids in Hnd. rewrite Hm in Hnd.
    by apply NoDup_cons in Hnd as [? _]. }
  destruct (lease_ok now g0 m Hwf0 Hni) as (g' & Hl & Hwf' & _ & Hinf & Heq).
  exists g', true. unfold lease in Hl. unfold lease_found.
  destruct (map_put _ _ (processing g0)); [|done]. injection Hl as ->.
  split; [done|]. split.
  { constructor; [done|by rewrite Heq..|]. rewrite Heq. revert Hmax. unfold room, pendingCount, g0. simpl.
    by rewrite length_insert. }
  split; [|by rewrite Heq].
  rewrite Hm. unfold group_msgs. rewrite Hinf, <-Permutation_middle. csimpl.
  change (tag (leased now g0 m)) with (tag m). apply Permutation_cons; [done|].
  rewrite Heq. done.
Qed.

(** [OnACK] on the group of the message. *)
Definition ack_group (id : string) (g : group) : group :=
  match complete id g with
  | (g, Some _) => g
  | (g, None) => (remove_message id g).1
  end.

Lemma filter_tag_drop id (m : Message) (l l' : list Message) :
  ID m = id → NoDup (ID <$> l) → l ≡ₚ m :: l' →
  tag <$> l' ≡ₚ filter (λ t, t.1 ≠ id) (tag <$> l).
Proof.
  intros Hid Hnd Hp. rewrite Hp in Hnd |- *. csimpl. rewrite filter_cons_False by (simpl; tauto).
  apply NoDup_cons in Hnd as [Hni _]. rewrite filter_all; [done|].
  apply Forall_fmap, Forall_forall. intros x Hx. simpl. intros Heq. apply Hni.
  rewrite Hid, <-Heq. by apply list_elem_of_fmap_2.
Qed.

Lemma filter_tag_absent id (l : list Message) :
  id ∉ ID <$> l → tag <$> l = filter (λ t, t.1 ≠ id) (tag <$> l).
Proof.
  intros Hni. rewrite filter_all; [done|]. apply Forall_fmap, Forall_forall. intros x Hx. simpl.
  intros <-. apply Hni. by apply list_elem_of_fmap_2.
Qed.

Lemma ack_group_replaying n id g :
  replaying n g →
  replaying n (ack_group id g) ∧ cfg (ack_group id g) = cfg g ∧
  tag <$> group_msgs (ack_group id g) ≡ₚ filter (λ t, t.1 ≠ id) (tag <$> group_msgs g).
Proof.
  intros [Hwf Hu Hd Hmax]. unfold ack_group.
  destruct (map_get (processing g) id) as [m|] eqn:E.
  - destruct (complete_found g id m Hwf E) as (g' & Heq & Hwf' & _ & Hpend & Hinf & Hcfg).
    rewrite Heq. unfold complete in Heq. rewrite E in Heq. injection Heq as Heq.
    split; [split; try done; by rewrite <-Heq|]. split; [done|].
    apply (filter_tag_drop _ m); [by apply (wf_keys g Hwf)|by apply (wf_nodup g Hwf)|].
    unfold group_msgs. rewrite Hpend, Hinf. by rewrite <-Permutation_middle.
  - unfold complete. rewrite E. unfold remove_message. rewrite Hu, find_slot_nil.
    destruct (find_slot id (readyHead g) 0 (ready g)) as [[i m]|] eqn:Er.
    + apply find_slot_Some in Er as (j & -> & Hh & Hj & Hid). cbn [fst Nat.add].
      destruct (clear_ready_slot g j m Hwf Hu Hh Hj) as [Hwf0 Hm].
      split; [split; try done; revert Hmax; unfold room, pendingCount; simpl; by rewrite length_insert|].
      split; [done|].
      apply (filter_tag_drop _ m); [done|by apply (wf_nodup g Hwf)|done].
    + rewrite E. cbn [fst]. split; [by split|]. split; [done|].
      rewrite <-filter_tag_absent; [done|]. intros (m & Hid & Hm)%list_elem_of_fmap.
      unfold group_msgs, pending, dispatch_order in Hm. rewrite Hu, Hd, live_nil in Hm. simpl in Hm.
      rewrite app_nil_r in Hm. apply elem_of_app in Hm as [(i & Hh & Hi)%live_elem|[k Hk]%elem_of_inflight].
      * by eapply (find_slot_None _ _ _ _ Er i m).
      * pose proof (wf_keys g Hwf _ _ Hk) as Hkey. congruence.
Qed.

Lemma enqueue_tags g m :
  group_wf g → tag <$> group_msgs (enqueue m g) ≡ₚ tag m :: (tag <$> group_msgs g).
Proof.
  intros Hwf. unfold group_msgs, pending. rewrite enqueue_order by apply (wf_heads g Hwf).
  change (delayed (enqueue m g)) with (delayed g). change (inflight (enqueue m g)) with (inflight g).
  rewrite !fmap_app. simpl. solve_Permutation.
Qed.

(** ** A queue during replay *)

Definition group_tags (k : string) (q : Queue) : list (string * list byte) :=
  match GetGroup k q with Some g => tag <$> group_msgs g | None => [] end.

Record replay_inv (n : nat) (q : Queue) (L : string → list (string * list byte)) : Prop := {
  ri_wf : queue_wf q;
  ri_groups : ∀ k g, GetGroup k q = Some g → replaying n g;
  ri_depth : ∀ k, room (MaxPending (resolveConfig k q)) n 0;
  ri_tags : ∀ k, group_tags k q ≡ₚ L k;
}.

Lemma GetGroup_with {A} k (f : group → group * A) d q k' :
  shards_wf q →
  GetGroup k' (with_group k f d q).1 =
    if decide (k' = k) then (λ g, (f g).1) <$> GetGroup k q else GetGroup k' q.
Proof.
  intros Hw. unfold with_group. destruct (GetGroup k q) as [g|] eqn:E; simpl.
  - destruct (f g) as [g' a] eqn:Ef. simpl. rewrite GetGroup_put by done. by case_decide.
  - case_decide as Hk; [by rewrite Hk|done].
Qed.

Lemma with_group_cfgIdx {A} k (f : group → group * A) d q : cfgIdx (with_group k f d q).1 = cfgIdx q.
Proof. unfold with_group. destruct (GetGroup k q); [|done]. by destruct (f _). Qed.

Lemma resolveConfig_cfgIdx k q q' : cfgIdx q' = cfgIdx q → resolveConfig k q' = resolveConfig k q.
Proof. intros E. unfold resolveConfig. by rewrite E. Qed.

(** An operation on one group that keeps it replaying. *)
Lemma with_group_replay {A} n k (f : group → group * A) d q L l :
  replay_inv n q L →
  (∀ g, replaying n g → replaying n (f g).1 ∧ cfg (f g).1 = cfg g) →
  (∀ g, replaying n g → tag <$> group_msgs g ≡ₚ L k → tag <$> group_msgs (f g).1 ≡ₚ l) →
  (GetGroup k q = None → l ≡ₚ []) →
  replay_inv n (with_group k f d q).1 (λ k', if decide (k' = k) then l else L k').
Proof.
  intros [Hwf Hg Hd Ht] Hf Hl Hnone. split.
  - apply with_group_wf; [done|]. intros g Hk _. destruct (Hf g (Hg _ _ Hk)) as [[] Hc]. by rewrite Hc.
  - intros k' g'. rewrite GetGroup_with by apply Hwf. case_decide as Hk; [|apply Hg].
    intros (g & Hgk & ->)%fmap_Some. by apply Hf, (Hg k).
  - intros k'. rewrite (resolveConfig_cfgIdx _ q); [done|apply with_group_cfgIdx].
  - intros k'. unfold group_tags. rewrite GetGroup_with by apply Hwf. case_decide as Hk; [|apply Ht].
    pose proof (Ht k) as Htk. unfold group_tags in Htk.
    destruct (GetGroup k q) as [g|] eqn:E; simpl; [|by rewrite Hnone].
    apply Hl; [by apply (Hg k)|done].
Qed.

Lemma replay_inv_ext n q L L' : (∀ k, L k ≡ₚ L' k) → replay_inv n q L → replay_inv n q L'.
Proof. intros HL [H1 H2 H3 H4]. split; try done. intros k. by rewrite H4. Qed.

(** What the log says is still in group [k]. *)
Definition live_step (k : string) (l : list (string * list byte)) (e : Event) : list (string * list byte) :=
  if bool_decide (ev_Group e = k) then
    if ev_Type e =? EventPublish then (ev_MsgID e, ev_Payload e) :: l
    else if ev_Type e =? EventACK then filter (λ t, t.1 ≠ ev_MsgID e) l
    else l
  else l.

Definition live_in (k : string) (log : list Event) : list (string * list byte) := foldl (live_step k) [] log.

Section replay.
Context (clock : nat → Z) (ordg : range_order GroupState) (queueName namespace : string).
Abbreviation handler := (replay_handler (queueRecoveryHandler clock ordg queueName namespace)).

Definition replay_state (n : nat) (s : rstate) (L : string → list (string * list byte)) : Prop :=
  rs_panicked s = false ∧ replay_inv n (rs_queue s) L.

Lemma room_less max n used : room max (S n) used → room max n used.
Proof. unfold room. lia. Qed.

Lemma replaying_less n g : replaying (S n) g → replaying n g.
Proof. intros []. split; try done. by apply room_less. Qed.

Lemma replay_state_less n s L : replay_state (S n) s L → replay_state n s L.
Proof. intros [Hp []]. split; [done|]. split; eauto using replaying_less, room_less. Qed.

Lemma on_publish_ok n e s L :
  replay_state (S n) s L → ev_MsgID e ∉ (L (ev_Group e)).*1 →
  replay_state n (on_publish clock e s)
    (λ k, if decide (k = ev_Group e) then (ev_MsgID e, ev_Payload e) :: L k else L k).
Proof.
  intros [Hp [Hwf Hg Hd Ht]] Hni. unfold on_publish, on_event. rewrite Hp.
  set (now := clock (rs_tick s)). set (q := rs_queue s) in *. set (k := ev_Group e) in *.
  assert (replaying (S n) (group_or_new k q)) as Hrep.
  { unfold group_or_new. destruct (GetGroup k q) as [g|] eqn:E; [by apply (Hg k)|].
    split; try done; [by apply newGroup_wf, resolveConfig_ok|apply Hd]. }
  assert (tag <$> group_msgs (group_or_new k q) ≡ₚ L k) as Htk.
  { rewrite <-(Ht k). unfold group_tags, group_or_new. by destruct (GetGroup k q). }
  assert (default "" (Some (ev_MsgID e)) ∉ group_ids (group_or_new k q)) as Hfresh.
  { simpl. intros Hin. apply Hni. rewrite <-Htk. unfold group_ids in Hin. by rewrite <-list_fmap_compose. }
  assert (depth_exceeded (group_or_new k q) = false) as Hdep.
  { unfold depth_exceeded. apply andb_false_iff. rewrite Z.ltb_ge, Z.leb_gt.
    destruct (rp_depth _ _ Hrep); [by left|right; lia]. }
  destruct (publish_accepted "" (Some (ev_MsgID e)) now k (ev_Payload e) q Hwf Hdep Hfresh)
    as (q' & Hpub & Hwf' & Hflat & Hcfg).
  unfold PublishWithID. rewrite Hpub. split; [done|]. cbn [rs_queue fst]. split; [done| | |].
  - intros k' g'. rewrite <-flat_lookup, Hflat by apply Hwf'. intros [[<- <-]|[_ Hk]]%lookup_insert_Some.
    + destruct Hrep as [H1 H2 H3 H4]. split; try done; [by apply enqueue_wf|].
      revert H4. unfold room, pendingCount. simpl. rewrite length_app. simpl. lia.
    + rewrite flat_lookup in Hk by apply Hwf. by apply replaying_less, (Hg k').
  - intros k'. rewrite (resolveConfig_cfgIdx _ q) by done. apply room_less, Hd.
  - intros k'. unfold group_tags. rewrite <-flat_lookup, Hflat by apply Hwf'.
    destruct (decide (k' = k)) as [->|Hk].
    + rewrite lookup_insert_eq. rewrite enqueue_tags by apply Hrep. by rewrite Htk.
    + rewrite lookup_insert_ne, flat_lookup by (done || apply Hwf). apply Ht.
Qed.

Lemma on_lease_ok n e s L : replay_state n s L → replay_state n (on_lease clock e s) L.
Proof.
  intros [Hp Hinv]. unfold on_lease, on_event. rewrite Hp.
  set (now := clock (rs_tick s)). set (q := rs_queue s) in *. set (k := ev_Group e).
  pose proof (with_group_replay n k (replay_lease (ev_MsgID e) now) (Ret false) q L (L k) Hinv) as Hstep.
  destruct (ReplayLease k (ev_MsgID e) now q) as [q' o] eqn:E. split; cbn [rs_panicked rs_queue].
  - unfold ReplayLease, with_group in E. destruct (GetGroup k q) as [g|] eqn:Eg; [|by injection E as <- <-].
    destruct (replay_lease_replaying n (ev_MsgID e) now g (ri_groups _ _ _ Hinv _ _ Eg)) as (g' & b & Hr & _).
    rewrite Hr in E. by injection E as <- <-.
  - unfold ReplayLease in E. rewrite E in Hstep.
    eapply replay_inv_ext; [|apply Hstep].
    + intros k'. cbn beta. by case_decide; subst.
    + intros g Hg. destruct (replay_lease_replaying n (ev_MsgID e) now g Hg) as (g' & b & -> & ? & _ & ?). done.
    + intros g Hg Htg. destruct (replay_lease_replaying n (ev_MsgID e) now g Hg) as (g' & b & -> & _ & Htag & _).
      simpl. by rewrite Htag.
    + intros Hn. rewrite <-(ri_tags _ _ _ Hinv k). unfold group_tags. by rewrite Hn.
Qed.

(** The two calls of [OnACK] work on the same group. *)
Lemma on_ack_group k id q :
  shards_wf q →
  (let '(q', err) := Complete k id q in
   match err with Some _ => (RemoveMessage k id q').1 | None => q' end)
  = (with_group k (λ g, (ack_group id g, tt)) tt q).1.
Proof.
  intros Hw. unfold Complete, RemoveMessage, with_group.
  destruct (GetGroup k q) as [g|] eqn:E; [|by rewrite E].
  unfold ack_group. unfold complete. destruct (map_get (processing g) id) as [m|] eqn:Em; [done|].
  rewrite put_same by done. rewrite E. by destruct (remove_message id g).
Qed.

Lemma on_ack_ok n e s L :
  replay_state n s L →
  replay_state n (on_ack clock e s)
    (λ k, if decide (k = ev_Group e) then filter (λ t, t.1 ≠ ev_MsgID e) (L k) else L k).
Proof.
  intros [Hp Hinv]. unfold on_ack, on_event. rewrite Hp. set (q := rs_queue s) in *. set (k := ev_Group e).
  pose proof (on_ack_group k (ev_MsgID e) q (qw_shards _ (ri_wf _ _ _ Hinv))) as Heq.
  destruct (Complete k (ev_MsgID e) q) as [q' err] eqn:E. split; [done|]. cbn [rs_queue]. rewrite Heq.
  eapply replay_inv_ext; [|apply (with_group_replay _ _ _ _ _ L (filter (λ t, t.1 ≠ ev_MsgID e) (L k)) Hinv)].
  - intros k'. cbn beta. by case_decide; subst.
  - intros g Hg. by destruct (ack_group_replaying n (ev_MsgID e) g Hg) as (? & ? & _).
  - intros g Hg Htg. destruct (ack_group_replaying n (ev_MsgID e) g Hg) as (_ & _ & Htag).
    simpl. by rewrite Htag, Htg.
  - intros Hn. assert (L k ≡ₚ []) as ->; [|done]. rewrite <-(ri_tags _ _ _ Hinv k). unfold group_tags. by rewrite Hn.
Qed.

Definition is_publish (e : Event) : Prop := ev_Type e = EventPublish.
#[local] Instance is_publish_dec e : Decision (is_publish e).
Proof. unfold is_publish. apply _. Defined.

Definition published_ids (log : list Event) : list string := ev_MsgID <$> filter is_publish log.

(** The events of deliveries that succeed the first time. *)
Definition settled_first_time (e : Event) : Prop :=
  ev_Type e = EventPublish ∨ ev_Type e = EventLease ∨ ev_Type e = EventACK.

Definition replay_events (log : list Event) (s : rstate) : rstate :=
  foldl (λ s e, dispatch e handler s) s log.

Lemma replay_state_ext n s L L' : (∀ k, L k = L' k) → replay_state n s L → replay_state n s L'.
Proof. intros HL [Hp Hi]. split; [done|]. eapply replay_inv_ext; [|done]. intros k. by rewrite HL. Qed.

Lemma dispatch_ok n e s L :
  replay_state (S n) s L → settled_first_time e → (is_publish e → ev_MsgID e ∉ (L (ev_Group e)).*1) →
  replay_state n (dispatch e handler s) (λ k, live_step k (L k) e).
Proof.
  intros Hs Ht Hni. unfold dispatch. destruct Ht as [Ht|[Ht|Ht]]; rewrite Ht; cbn -[on_publish on_lease on_ack].
  - eapply replay_state_ext; [|apply (on_publish_ok n e s L Hs (Hni Ht))].
    intros k. unfold live_step. rewrite Ht. cbn. case_decide; case_bool_decide; congruence.
  - eapply replay_state_ext; [|apply (on_lease_ok n e s L (replay_state_less _ _ _ Hs))].
    intros k. unfold live_step. rewrite Ht. cbn. by case_bool_decide.
  - eapply replay_state_ext; [|apply (on_ack_ok n e s L (replay_state_less _ _ _ Hs))].
    intros k. unfold live_step. rewrite Ht. cbn. case_decide; case_bool_decide; congruence.
Qed.

Lemma live_step_ids k l e x :
  x ∈ (live_step k l e).*1 → x ∈ l.*1 ∨ (is_publish e ∧ x = ev_MsgID e).
Proof.
  unfold live_step. case_bool_decide; [|tauto].
  destruct (Z.eqb_spec (ev_Type e) EventPublish) as [Hp|_].
  - intros [->|?]%elem_of_cons; [by right|by left].
  - destruct (ev_Type e =? EventACK); [|tauto].
    intros (t & -> & [_ Ht]%list_elem_of_filter)%list_elem_of_fmap. left. by apply list_elem_of_fmap_2.
Qed.

Lemma published_cons e log :
  published_ids (e :: log) = if decide (is_publish e) then ev_MsgID e :: published_ids log else published_ids log.
Proof. unfold published_ids. rewrite filter_cons. by case_decide. Qed.

Lemma replay_events_ok log s L :
  replay_state (length log) s L → Forall settled_first_time log → NoDup (published_ids log) →
  (∀ k x, x ∈ (L k).*1 → x ∉ published_ids log) →
  replay_state 0 (replay_events log s) (λ k, foldl (live_step k) (L k) log).
Proof.
  revert s L. induction log as [|e log IH]; intros s L Hs Ht Hnd Hdis; [done|].
  apply Forall_cons in Ht as [He Ht]. rewrite published_cons in Hnd, Hdis. simpl.
  assert (NoDup (published_ids log)) as Hnd' by (case_decide; [by apply NoDup_cons in Hnd as [_ ?]|done]).
  apply (IH _ (λ k, live_step k (L k) e)); [|done|done|].
  - apply dispatch_ok; try done. intros Hp Hin. rewrite decide_True in Hdis by done.
    eapply Hdis; [done|by left].
  - intros k x [Hx|[Hp ->]]%live_step_ids.
    + specialize (Hdis _ _ Hx). case_decide; [|done]. by intros ?; apply Hdis; right.
    + rewrite decide_True in Hnd by done. by apply NoDup_cons in Hnd as [? _].
Qed.

Lemma fresh_replay_inv n q :
  queue_wf q → (∀ k, GetGroup k q = None) → (∀ k, room (MaxPending (resolveConfig k q)) n 0) →
  replay_inv n q (λ _, []).
Proof.
  intros Hwf Hnone Hd. split; try done.
  - intros k g. by rewrite Hnone.
  - intros k. unfold group_tags. by rewrite Hnone.
Qed.
End replay.

(** C4. Replaying a log of deliveries that succeeded the first time rebuilds the
    queue: the replay does not panic, the queue is well formed, and each group
    holds exactly the messages, with their payloads, that the log published
    there and did not acknowledge.  The queue may have declared configurations;
    the log is not longer than the depth they allow (ten million by default). *)
Theorem replay_exact clock ordg qn ns log q :
  queue_wf q → (∀ k, GetGroup k q = None) →
  (∀ k, room (MaxPending (resolveConfig k q)) (length log) 0) →
  Forall settled_first_time log → NoDup (published_ids log) →
  let s := replay_events clock ordg qn ns log (mkRstate q 0 false) in
  rs_panicked s = false ∧ queue_wf (rs_queue s) ∧
  ∀ k, group_tags k (rs_queue s) ≡ₚ live_in k log.
Proof.
  intros Hwf Hnone Hd Ht Hnd s.
  destruct (replay_events_ok clock ordg qn ns log (mkRstate q 0 false) (λ _, [])) as [Hp []]; try done.
  - split; [done|]. by apply fresh_replay_inv.
  - intros k x Hx. by apply elem_of_nil in Hx.
Qed.

Definition ev (t : Z) (key id : string) : Event := mkEvent t "ns" "jobs" key id [x2a] 0 0.
Definition sample_log : list Event :=
  [ev EventPublish "g" "a"; ev EventPublish "h" "b"; ev EventLease "g" "a"; ev EventPublish "g" "c";
   ev EventACK "g" "a"; ev EventACK "h" "b"; ev EventLease "h" "b"].
Definition ticks : nat → Z := λ n, second * Z.of_nat n.
Definition fresh : Queue := NewQueue "jobs" "ns".

Lemma replay_exact_witness :
  let s := replay_events ticks list_order "jobs" "ns" sample_log (mkRstate fresh 0 false) in
  (Forall settled_first_time sample_log ∧ NoDup (published_ids sample_log)) ∧
  live_in "g" sample_log = [("c", [x2a])] ∧
  rs_panicked s = false ∧ queue_wf (rs_queue s) ∧
  ∀ k, group_tags k (rs_queue s) ≡ₚ live_in k sample_log.
Proof.
  assert (Forall settled_first_time sample_log) as H1 by (repeat constructor; unfold settled_first_time; simpl; auto).
  assert (NoDup (published_ids sample_log)) as H2 by by_eval.
  split; [done|]. split; [done|].
  apply (replay_exact ticks list_order "jobs" "ns" sample_log fresh); try done.
  - apply NewQueue_wf.
  - intros k. apply GetGroup_new.
  - intros k. unfold resolveConfig, resolve. simpl. rewrite lookup_empty. right. simpl. lia.
Defined.

(** A message that was refused once is not removed by its acknowledgement
    during replay: the refusal puts it among the retries, where neither
    [ReplayLease] nor [RemoveMessage] looks, so a completed message is in the
    queue again after a restart. *)
Theorem nacked_message_resurrected :
  let log := [ev EventPublish "g" "a"; ev EventLease "g" "a"; ev EventNACK "g" "a";
              ev EventLease "g" "a"; ev EventACK "g" "a"] in
  group_tags "g" (rs_queue (replay_events ticks list_order "jobs" "ns" log (mkRstate fresh 0 false))) = [("a", [x2a])].
Proof. vm_compute. reflexivity. Qed.

(** A message whose lease expired is lost by a restart: the broker returned it
    to pending and logged EXPIRE, and the replay of EXPIRE completes it. *)
Theorem expired_message_lost :
  let log := [ev EventPublish "g" "a"; ev EventLease "g" "a"; ev EventExpire "g" "a"] in
  group_tags "g" (rs_queue (replay_events ticks list_order "jobs" "ns" log (mkRstate fresh 0 false))) = [].
Proof. vm_compute. reflexivity. Qed.
