(* ===== verification/RecoverySnap.v ===== *)
(** * Recovery from a snapshot

    The path of a queue through a snapshot: ExportState, the conversion and the
    writing of src/internal/storage/writer.go and snapshot.go, the reading, and
    OnSnapshot of src/internal/broker/recovery.go; and the visit of the
    segments of a directory by src/internal/storage/recovery/replay.go. *)

From stdpp Require Import base gmap list strings sorting.
From Stdlib Require Import ZArith Lia Strings.Byte.
From S2P Require Import Prelude Heap Message Group GroupInv GroupDrain GroupSettle KeyIndex ConfigIdx Queue QueueInv QueueSnap WalRecord Snapshot Names Recovery RecoveryInv.
Local Open Scope Z_scope.
Local Open Scope list_scope.

(** ** The messages of a group state *)

Definition state_msgs (gs : GroupState) : list Message :=
  gs_ReadyMsgs gs ++ gs_UrgentMsgs gs ++ gs_DelayedMsgs gs
  ++ (map_to_list (map_entries (gs_ProcessingMsgs gs))).*2.

Definition placeable (m : Message) : Prop := State m = StatePending ∨ State m = StateProcessing.

Definition keyed (gs : GroupState) : Prop :=
  ∀ k m, map_get (gs_ProcessingMsgs gs) k = Some m → ID m = k.

Lemma place_message_spec now gs m :
  placeable m → keyed gs → ID m ∉ ID <$> state_msgs gs →
  let gs' := place_message now gs m in
  keyed gs' ∧ state_msgs gs' ≡ₚ m :: state_msgs gs ∧
  gs_Key gs' = gs_Key gs ∧ gs_Parallelism gs' = gs_Parallelism gs ∧ gs_Quantum gs' = gs_Quantum gs ∧
  gs_UrgentMsgs gs' = gs_UrgentMsgs gs.
Proof.
  intros Hp Hk Hni gs'. unfold gs', place_message. destruct Hp as [-> | ->].
  - destruct (After _ _); split_and!; try done; unfold state_msgs; simpl; solve_Permutation.
  - split_and!; try done.
    + intros k m'. unfold map_get. simpl. intros [[<- <-]|[_ H]]%lookup_insert_Some; [done|]. by apply Hk.
    + unfold state_msgs. simpl. rewrite map_to_list_insert; [simpl; solve_Permutation|].
      apply eq_None_not_Some. intros [m' Hm']. apply Hni. unfold state_msgs.
      rewrite <-(Hk _ _ Hm'). apply list_elem_of_fmap_2. rewrite !elem_of_app. right; right; right.
      apply list_elem_of_fmap. exists (ID m, m'). split; [done|]. by apply elem_of_map_to_list.
Qed.

Lemma place_fold now msgs gs :
  Forall placeable msgs → keyed gs → NoDup (ID <$> msgs ++ state_msgs gs) →
  let gs' := foldl (place_message now) gs msgs in
  state_msgs gs' ≡ₚ msgs ++ state_msgs gs ∧
  gs_Key gs' = gs_Key gs ∧ gs_Parallelism gs' = gs_Parallelism gs ∧ gs_Quantum gs' = gs_Quantum gs ∧
  gs_UrgentMsgs gs' = gs_UrgentMsgs gs.
Proof.
  revert gs. induction msgs as [|m msgs IH]; intros gs Hp Hk Hnd; [done|].
  apply Forall_cons in Hp as [Hm Hp]. cbn [foldl].
  change ((m :: msgs) ++ state_msgs gs) with (m :: msgs ++ state_msgs gs) in Hnd.
  destruct (place_message_spec now gs m Hm Hk) as (Hk' & Hperm & <- & <- & <- & <-).
  { csimpl in Hnd. apply NoDup_cons in Hnd as [Hni _]. rewrite fmap_app, elem_of_app in Hni. tauto. }
  destruct (IH (place_message now gs m) Hp Hk') as (H1 & H2); [|split; [|done]].
  - rewrite Hperm. by rewrite <-Permutation_middle.
  - rewrite H1, Hperm. by rewrite <-Permutation_middle.
Qed.

Lemma imported_msgs gs q :
  group_msgs (imported gs q) ≡ₚ state_msgs gs ∧ processing (imported gs q) = gs_ProcessingMsgs gs ∧
  Parallelism (cfg (imported gs q)) = (if gs_Parallelism gs <=? 0 then 1 else gs_Parallelism gs) ∧
  quantum (imported gs q) = gs_Quantum gs.
Proof.
  split_and!; try done.
  unfold group_msgs, pending, dispatch_order, inflight, state_msgs. simpl.
  rewrite !fmap_Some_live, Init_perm. solve_Permutation.
Qed.

Lemma converted_msgs ord g :
  gs_ReadyMsgs (group_ExportState g) ++ gs_UrgentMsgs (group_ExportState g)
    ++ gs_DelayedMsgs (group_ExportState g)
    ++ (range_of ord (map_entries (gs_ProcessingMsgs (group_ExportState g)))).*2 ≡ₚ group_msgs g.
Proof.
  simpl. rewrite range_values. unfold group_msgs, pending, dispatch_order. solve_Permutation.
Qed.

(** ** A group through the snapshot *)

(** What recovery makes of a stored message. *)
Definition restored (qn ns key : string) (m : Message) : Message :=
  recovered_message qn ns key (convert_message m).

Lemma restored_placeable qn ns k m : placeable m → placeable (restored qn ns k m).
Proof. intros [E|E]; [left|right]; unfold restored, recovered_message; simpl; by rewrite E. Qed.

Lemma group_through_snapshot qn ns now ord g :
  group_wf g →
  let gs := group_of_snapshot qn ns now (convert_group ord (Key (cfg g)) (group_ExportState g)) in
  gs_Key gs = Key (cfg g) ∧ gs_UrgentMsgs gs = [] ∧
  gs_Parallelism gs = i32 (Parallelism (cfg g)) ∧ gs_Quantum gs = i32 (quantum g) ∧
  state_msgs gs ≡ₚ restored qn ns (Key (cfg g)) <$> group_msgs g.
Proof.
  intros Hwf gs. unfold gs, group_of_snapshot, convert_group. cbn [sg_Key sg_Parallelism sg_Quantum sg_Messages].
  set (all := gs_ReadyMsgs _ ++ _). pose proof (converted_msgs ord g) as Hall. fold all in Hall.
  rewrite <-list_fmap_compose.
  change (recovered_message qn ns (Key (cfg g)) ∘ convert_message) with (restored qn ns (Key (cfg g))).
  destruct (place_fold now (restored qn ns (Key (cfg g)) <$> all)
    (mkGroupState (Key (cfg g)) (i32 (Parallelism (cfg g))) (i32 (quantum g)) [] [] [] None))
    as (H1 & H2 & H3 & H4 & H5).
  - rewrite Hall. apply Forall_fmap. unfold group_msgs. apply Forall_app. split.
    + eapply Forall_impl; [apply (wf_pending g Hwf)|]. intros m Hm. apply restored_placeable. by left.
    + eapply Forall_impl; [apply (wf_inflight g Hwf)|]. intros m Hm. apply restored_placeable. by right.
  - intros k m. change (map_get _ k) with ((∅ : gmap string Message) !! k). by rewrite lookup_empty.
  - unfold state_msgs. simpl. rewrite map_to_list_empty. simpl. rewrite app_nil_r, <-list_fmap_compose.
    change (ID ∘ restored qn ns (Key (cfg g))) with ID. rewrite Hall. apply (wf_nodup g Hwf).
  - simpl in H2, H3, H4, H5. split_and!; try done. rewrite H1.
    unfold state_msgs. simpl. rewrite map_to_list_empty. simpl. by rewrite app_nil_r, Hall.
Qed.

(** ** A queue through the snapshot *)

Record storable_message (m : Message) : Prop := {
  sm_id : short 16 (ID m); sm_err : short 16 (LastError m);
  sm_payload : Z.of_nat (length (Payload m)) < 2 ^ 32;
}.

Record storable (q : Queue) : Prop := {
  st_groups : Z.of_nat (size (qs_Groups (ExportState q))) < 2 ^ 32;
  st_group : ∀ k g, GetGroup k q = Some g →
    short 16 k ∧ Z.of_nat (length (group_msgs g)) < 2 ^ 32 ∧ Forall storable_message (group_msgs g);
}.

Lemma wrap_s_fits w v : 0 < w → fits_s w (wrap_s w v).
Proof.
  intros Hw. unfold fits_s, wrap_s.
  assert (2 ^ w = 2 * 2 ^ (w - 1)) as Hp by (rewrite <-Z.pow_succ_r by lia; f_equal; lia).
  pose proof (Z.mod_pos_bound (v + 2 ^ (w - 1)) (2 ^ w) ltac:(lia)). lia.
Qed.

Lemma convert_message_ok m : storable_message m → placeable m → message_ok (convert_message m).
Proof.
  intros [] Hp. unfold convert_message. split; cbn -[wrap_s Z.pow]; try done.
  - destruct Hp as [-> | ->]; by_eval.
  - by apply wrap_s_fits.
  - by apply wrap_s_fits.
  - by apply wrap_s_fits.
Qed.

Lemma group_placeable g : group_wf g → Forall placeable (group_msgs g).
Proof.
  intros Hwf. unfold group_msgs. apply Forall_app. split.
  - eapply Forall_impl; [apply (wf_pending g Hwf)|]. by left.
  - eapply Forall_impl; [apply (wf_inflight g Hwf)|]. by right.
Qed.

Section snapshot.
Context (q : Queue) (Hq : queue_wf q) (ordg : range_order GroupState) (ord : range_order Message).

Abbreviation converted := (convertQueueStateToSnapshot ordg ord (ExportState q)).

Lemma elem_of_converted sg :
  sg ∈ converted ↔ ∃ k g, GetGroup k q = Some g ∧ Key (cfg g) = k ∧ sg = convert_group ord k (group_ExportState g).
Proof.
  unfold convertQueueStateToSnapshot. rewrite range_perm, list_elem_of_fmap. split.
  - intros ([k gs] & -> & Hk%elem_of_map_to_list). rewrite ExportState_lookup in Hk by apply Hq.
    destruct (GetGroup k q) as [g|] eqn:E; simpl in Hk; [|done]. injection Hk as <-.
    exists k, g. by destruct (qw_group q Hq k g E).
  - intros (k & g & HG & HK & ->). exists (k, group_ExportState g). split; [done|].
    rewrite elem_of_map_to_list, ExportState_lookup by apply Hq. by rewrite HG.
Qed.

Lemma converted_keys : NoDup (sg_Key <$> converted).
Proof.
  unfold convertQueueStateToSnapshot. rewrite <-list_fmap_compose, range_perm.
  change (sg_Key ∘ λ kg, convert_group ord kg.1 kg.2) with (fst : string * GroupState → string).
  apply NoDup_fst_map_to_list.
Qed.

Lemma converted_ok seg seq ts :
  storable q → 0 ≤ seg < 2 ^ 64 → 0 ≤ seq < 2 ^ 64 → fits_s 64 ts →
  snapshot_ok (mkSnapshot seg seq ts converted).
Proof.
  intros [Hn Hs] Hseg Hseq Ht. split; cbn [SegmentID WALSeq Timestamp Groups]; try done.
  - unfold convertQueueStateToSnapshot. by rewrite length_fmap, range_perm, length_map_to_list.
  - apply Forall_forall. intros sg (k & g & HG & HK & ->)%elem_of_converted.
    destruct (Hs k g HG) as (H1 & H2 & H3). destruct (qw_group q Hq k g HG) as [Hg _].
    pose proof (converted_msgs ord g) as Hall. split; cbn [sg_Key sg_Parallelism sg_Quantum sg_Messages convert_group].
    + done.
    + by apply wrap_s_fits.
    + by apply wrap_s_fits.
    + by rewrite length_fmap, Hall.
    + rewrite Hall. apply Forall_fmap, Forall_forall. intros m Hm.
      apply convert_message_ok; [by apply (proj1 (Forall_forall _ _) H3)|].
      by apply (proj1 (Forall_forall _ _) (group_placeable g Hg)).
Qed.
End snapshot.

Lemma foldl_groups_lookup (f : GroupSnapshot → GroupState) l (acc : gmap string GroupState) k :
  NoDup (sg_Key <$> l) →
  (∀ sg, sg ∈ l → sg_Key sg = k →
    (foldl (λ m gs, <[sg_Key gs := f gs]> m) acc l : gmap string GroupState) !! k = Some (f sg)) ∧
  (k ∉ sg_Key <$> l →
    (foldl (λ m gs, <[sg_Key gs := f gs]> m) acc l : gmap string GroupState) !! k = acc !! k).
Proof.
  revert acc. induction l as [|x l IH]; intros acc Hnd; csimpl in *.
  { split; [|done]. intros sg H. by apply elem_of_nil in H. }
  apply NoDup_cons in Hnd as [Hni Hnd]. destruct (IH (<[sg_Key x := f x]> acc) Hnd) as [H1 H2]. split.
  - intros sg [->|Hin]%elem_of_cons Hk; [|by apply H1]. rewrite H2 by (by rewrite <-Hk).
    rewrite Hk. apply lookup_insert_eq.
  - intros [Hk Hnk]%not_elem_of_cons. rewrite H2 by done. by apply lookup_insert_ne.
Qed.

Section import.
Context (q : Queue) (Hq : queue_wf q) (ordg ordg' : range_order GroupState) (ord : range_order Message).
Context (qn ns : string) (now : Z) (seg seq ts : Z).

Abbreviation snap := (mkSnapshot seg seq ts (convertQueueStateToSnapshot ordg ord (ExportState q))).
Abbreviation st := (queue_state_of qn ns now snap).

Lemma state_lookup k :
  qs_Groups st !! k =
    (λ g, group_of_snapshot qn ns now (convert_group ord k (group_ExportState g))) <$> GetGroup k q.
Proof.
  unfold queue_state_of. cbn [qs_Groups Groups].
  destruct (foldl_groups_lookup (group_of_snapshot qn ns now)
    (convertQueueStateToSnapshot ordg ord (ExportState q)) ∅ k (converted_keys q ordg ord)) as [H1 H2].
  destruct (GetGroup k q) as [g|] eqn:E; simpl.
  - apply H1; [|done]. apply elem_of_converted; [done|]. exists k, g. by destruct (qw_group q Hq k g E).
  - rewrite H2; [apply lookup_empty|]. intros (sg & -> & (k' & g & HG & HK & ->)%elem_of_converted)%list_elem_of_fmap; [|done].
    simpl in E. congruence.
Qed.

Lemma import_snapshot q0 :
  queue_wf q0 → (∀ k, GetGroup k q0 = None) →
  let q' := ImportState ordg' st q0 in
  ∀ k, match GetGroup k q with
       | None => GetGroup k q' = None
       | Some g => GetGroup k q' =
           Some (imported (group_of_snapshot qn ns now (convert_group ord k (group_ExportState g))) q0)
       end.
Proof.
  intros Hq0 Hnone q' k. unfold q', ImportState.
  set (entries := (range_of ordg' (qs_Groups st)).*2).
  assert (∀ k gs, qs_Groups st !! k = Some gs → gs_Key gs = k) as Hkey.
  { intros k' gs. rewrite state_lookup. intros (g & HG & ->)%fmap_Some.
    destruct (qw_group q Hq k' g HG) as [Hg <-]. by destruct (group_through_snapshot qn ns now ord g Hg). }
  assert (gs_Key <$> entries ≡ₚ (map_to_list (qs_Groups st)).*1) as Hkeys.
  { unfold entries. rewrite range_perm, <-list_fmap_compose.
    assert (gs_Key ∘ snd <$> map_to_list (qs_Groups st) = (map_to_list (qs_Groups st)).*1) as ->; [|done].
    apply list_fmap_ext. intros i [k' gs] Hi%list_elem_of_lookup_2%elem_of_map_to_list. by apply Hkey. }
  assert (NoDup (gs_Key <$> entries)) as Hnd by (rewrite Hkeys; apply NoDup_fst_map_to_list).
  destruct (import_fold_spec entries q0 (qw_shards q0 Hq0) Hnd) as (_ & _ & _ & _ & H5 & H6).
  change (GetGroup k (set_keyIdx _ ?x)) with (GetGroup k x).
  pose proof (state_lookup k) as Hst. destruct (GetGroup k q) as [g|] eqn:E; cbn [fmap option_fmap option_map] in Hst.
  - set (gs := group_of_snapshot _ _ _ _) in *. rewrite <-(Hkey k gs Hst). apply H5.
    unfold entries. rewrite range_perm. apply list_elem_of_fmap. exists (k, gs). split; [done|].
    by apply elem_of_map_to_list.
  - rewrite H6; [apply Hnone|]. rewrite Hkeys. intros ([k' gs] & -> & Hin%elem_of_map_to_list)%list_elem_of_fmap.
    cbn [fst] in *. by rewrite Hin in Hst.
Qed.
End import.


Lemma storable_message_alt m :
  storable_message m ↔ short 16 (ID m) ∧ short 16 (LastError m) ∧ Z.of_nat (length (Payload m)) < 2 ^ 32.
Proof. split; [by intros []|]. intros (? & ? & ?). by split. Qed.

#[export] Instance storable_message_dec m : Decision (storable_message m).
Proof.
  refine (cast_if (decide (short 16 (ID m) ∧ short 16 (LastError m) ∧ Z.of_nat (length (Payload m)) < 2 ^ 32)));
    by rewrite storable_message_alt.
Defined.

Lemma sample_storable : storable sample_queue.
Proof.
  split; [by apply Z.ltb_lt; vm_compute|].
  intros k g. rewrite <-flat_lookup by apply sample_queue_wf. revert k g.
  change (map_Forall (λ k g, short 16 k ∧ Z.of_nat (length (group_msgs g)) < 2 ^ 32 ∧
    Forall storable_message (group_msgs g)) (flat sample_queue)). by_eval.
Qed.


(** The state, identifier, payload, attempts and error of a message are those
    that were stored. *)
Lemma restored_fields qn ns k m :
  placeable m → fits_s 32 (Attempts m) →
  let m' := restored qn ns k m in
  ID m' = ID m ∧ Payload m' = Payload m ∧ State m' = State m ∧ Attempts m' = Attempts m ∧
  LastError m' = LastError m.
Proof.
  intros Hp Ha m'. split_and!; try done.
  - unfold m', restored, recovered_message. simpl. by destruct Hp as [-> | ->].
  - unfold m', restored, recovered_message. cbn -[wrap_s]. by apply wrap_s_small.
Qed.

(** The first dispatch after recovery can panic: a group that had no message
    in flight when the snapshot was taken is restored with a nil processing
    map, and leasing a message writes to it. *)
Theorem recovered_group_panics :
  let q := (Publish "a" 0 "g" [x2a] (NewQueue "jobs" "ns")).1 in
  let snap := mkSnapshot 1 1 0 (convertQueueStateToSnapshot list_order list_order (ExportState q)) in
  let d : directory := {[ "000000001.snap" := File (Write snap) ]} in
  let s := recover_queue ticks list_order "jobs" "ns" d (NewQueue "jobs" "ns") in
  rs_panicked s = false ∧ group_tags "g" (rs_queue s) = [("a", [x2a])] ∧
  (TryDispatchOne list_order "g" 5 (rs_queue s)).2 = Panic.
Proof. vm_compute. done. Qed.

(** A damaged latest snapshot hides the one before it: discovery falls back to
    no snapshot at all, and the replay that would try the previous file is
    never told of a snapshot, although the file is there and readable. *)
Theorem damaged_snapshot_hides_previous :
  let q := (Publish "a" 0 "g" [x2a] (NewQueue "jobs" "ns")).1 in
  let snap n := mkSnapshot n n 0 (convertQueueStateToSnapshot list_order list_order (ExportState q)) in
  let d : directory :=
    {[ "000000001.snap" := File (Write (snap 1)); "000000002.snap" := File (take 40 (Write (snap 2))) ]} in
  is_Some (loadSnapshot d "000000001.snap") ∧
  is_Some (tryLoadSnapshot d "000000002.snap") ∧
  group_tags "g" (rs_queue (recover_queue ticks list_order "jobs" "ns" d (NewQueue "jobs" "ns"))) = [].
Proof. vm_compute. split_and!; [by eexists..|done]. Qed.

(** ** The visit of a directory *)

(** The segments a replay reads, in the order it reads them. *)
Definition log_files (d : directory) : list (Z * list byte) :=
  omap (λ e : string * dir_entry,
    match e.2 with
    | Dir => None
    | File data => (λ id, (id, data)) <$> Sscanf_id ".log" e.1
    end) (ReadDir d).

Lemma foldl_omap {A B S} (f : A → option B) (step : S → B → S) (l : list A) (s : S) :
  foldl (λ s a, match f a with Some b => step s b | None => s end) s l = foldl step s (omap f l).
Proof. revert s. induction l as [|a l IH]; intros s; csimpl; [done|]. by destruct (f a); simpl; rewrite IH. Qed.

(** Two sorted lists of names with the same elements are equal. *)
Lemma sorted_names_eq (l l' : list string) :
  StronglySorted str_le l → StronglySorted str_le l' → l ≡ₚ l' → l = l'.
Proof. intros. by apply (StronglySorted_unique str_le). Qed.

Lemma omap_filter {A B} (P : A → Prop) `{∀ x, Decision (P x)} (f : A → option B) (l : list A) :
  (∀ x, ¬ P x → f x = None) → omap f (filter P l) = omap f l.
Proof.
  intros Hf. induction l as [|x l IH]; [done|]. rewrite filter_cons. csimpl.
  case_decide as Hx; csimpl; rewrite IH; [done|]. by rewrite Hf.
Qed.

Lemma StronglySorted_filter {A} (R : relation A) (P : A → Prop) `{∀ x, Decision (P x)} (l : list A) :
  StronglySorted R l → StronglySorted R (filter P l).
Proof.
  induction 1 as [|x l Hs IH Hall]; [constructor|]. rewrite filter_cons. case_decide; [|done].
  constructor; [done|]. apply Forall_forall. intros y [_ Hy]%list_elem_of_filter.
  by apply (proj1 (Forall_forall _ _) Hall).
Qed.

(** A directory whose segment files are those of [segs]. *)
Record holds_segments (d : directory) (segs : list (Z * list byte)) : Prop := {
  hs_ids : StronglySorted Z.lt segs.*1;
  hs_range : Forall (λ id, 0 ≤ id < 10 ^ 9) segs.*1;
  hs_files : ∀ id data, (id, data) ∈ segs → d !! Sprintf_id ".log" id = Some (File data);
  hs_only : ∀ name, is_Some (d !! name) → is_Some (Sscanf_id ".log" name) →
    name ∈ (λ s : Z * list byte, Sprintf_id ".log" s.1) <$> segs;
}.

Lemma Sprintf_sorted ids :
  StronglySorted Z.lt ids → Forall (λ id, 0 ≤ id < 10 ^ 9) ids →
  StronglySorted str_lt (Sprintf_id ".log" <$> ids).
Proof.
  induction 1 as [|x l Hs IH Hall]; intros Hr; [constructor|].
  apply Forall_cons in Hr as [Hx Hr]. csimpl. constructor; [auto|].
  apply Forall_fmap, Forall_forall. intros y Hy. simpl.
  pose proof (proj1 (Forall_forall _ _) Hall y Hy). pose proof (proj1 (Forall_forall _ _) Hr y Hy).
  apply Sprintf_lt; simpl in *; lia.
Qed.

Lemma strict_sorted_le l : StronglySorted str_lt l → StronglySorted str_le l ∧ NoDup l.
Proof.
  induction 1 as [|x l Hs [IH1 IH2] Hall]; [by split; constructor|]. split; constructor; try done.
  - eapply Forall_impl; [exact Hall|]. intros y Hy. apply str_le_lt_eq. by left.
  - intros Hin. apply (str_lt_irrefl x). by apply (proj1 (Forall_forall _ _) Hall).
Qed.

Lemma log_files_segments d segs : holds_segments d segs → log_files d = segs.
Proof.
  intros [Hids Hr Hf Ho]. unfold log_files, ReadDir.
  set (names := sort_strings (elements (dom d))).
  assert (omap (λ e : string * dir_entry,
      match e.2 with Dir => None | File data => (λ id, (id, data)) <$> Sscanf_id ".log" e.1 end)
      (omap (λ name, pair name <$> d !! name) names)
    = omap (λ name, match d !! name with
        | Some (File data) => (λ id, (id, data)) <$> Sscanf_id ".log" name | _ => None end) names) as ->.
  { induction names as [|n l IH]; csimpl; [done|]. destruct (d !! n) as [[data|]|]; csimpl; by rewrite ?IH. }
  set (P := λ name, is_Some (Sscanf_id ".log" name)).
  rewrite <-(omap_filter P).
  2:{ intros n Hn. destruct (d !! n) as [[data|]|]; [|done..].
      destruct (Sscanf_id ".log" n) eqn:E; [|done]. exfalso. apply Hn. unfold P. rewrite E. by eexists. }
  assert (∀ id, id ∈ segs.*1 → Sscanf_id ".log" (Sprintf_id ".log" id) = Some id) as Hscan.
  { intros id Hid. pose proof (proj1 (Forall_forall _ _) Hr id Hid) as Hb. simpl in Hb.
    apply Sscanf_Sprintf; [lia|done]. }
  destruct (strict_sorted_le _ (Sprintf_sorted _ Hids Hr)) as [Hle Hnd].
  assert (filter P names = Sprintf_id ".log" <$> segs.*1) as ->.
  { apply sorted_names_eq; [apply StronglySorted_filter, sort_strings_sorted|done|].
    apply NoDup_Permutation; [|done|].
    - apply NoDup_filter. unfold names. rewrite sort_strings_perm. apply NoDup_elements.
    - intros n. rewrite list_elem_of_filter. unfold names. rewrite sort_strings_perm, elem_of_elements, (elem_of_dom (d : gmap string dir_entry)).
      split.
      + intros [H1 H2]. rewrite <-list_fmap_compose. by apply Ho.
      + intros (id & -> & Hid)%list_elem_of_fmap. split; [unfold P; rewrite Hscan by done; by eexists|].
        apply list_elem_of_fmap in Hid as ([id' data] & -> & Hin). cbn [fst]. eexists. exact (Hf _ _ Hin). }
  clear Hids Hr Ho Hle Hnd. induction segs as [|[id data] segs IH]; [done|]. csimpl.
  rewrite (Hf id data) by (by left). rewrite Hscan by (by left). csimpl. f_equal. apply IH.
  - intros id' data' H. apply Hf. by right.
  - intros id' H. apply Hscan. by right.
Qed.

(** ** The replay of a directory *)

(** A segment as a crash may leave it: whole records, then bytes that do not
    make a record. *)
Record stored_segment := mkStored { ss_id : Z; ss_events : list Event; ss_torn : list byte }.

Definition stored_bytes (s : stored_segment) : list byte :=
  concat (writeRecord <$> ss_events s) ++ ss_torn s.

Record stored_ok (s : stored_segment) : Prop := {
  so_events : Forall event_ok (ss_events s);
  so_torn : ∃ rest e, ReadEvent (ss_torn s) = (rest, inr e);
}.

Lemma file_events_stored s : stored_ok s → file_events (stored_bytes s) = ss_events s.
Proof.
  intros [Hev (rest & e & Ht)]. unfold file_events, stored_bytes.
  pose proof (length_records (ss_events s)) as Hl.
  rewrite read_segment_write; [|done|rewrite length_app; lia].
  destruct (S _ - _)%nat as [|f] eqn:E; [rewrite length_app in E; lia|].
  cbn [read_segment]. rewrite Ht. simpl. by rewrite app_nil_r.
Qed.

Lemma foldl_pointwise {A S} (f g : S → A → S) l s :
  (∀ s a, f s a = g s a) → foldl f s l = foldl g s l.
Proof. intros H. revert s. induction l as [|a l IH]; intros s; simpl; [done|]. by rewrite H. Qed.

Lemma foldl_skip {A S} (P : A → Prop) `{∀ x, Decision (P x)} (f : S → A → S) l s :
  foldl (λ s x, if decide (P x) then f s x else s) s l = foldl f s (filter P l).
Proof.
  revert s. induction l as [|x l IH]; intros s; [done|]. rewrite filter_cons. simpl. rewrite IH. by case_decide.
Qed.

Lemma replay_log_events {St} d info (h : SnapshotHandler St) st segs :
  holds_segments d ((λ s, (ss_id s, stored_bytes s)) <$> segs) → Forall stored_ok segs →
  0 ≤ SnapshotSeq info < 2 ^ 64 - 1 →
  let after e := SnapshotSeq info < ev_Seq e in
  let kept s := SnapshotPath info = "" ∨ SnapshotSegID info ≤ ss_id s in
  let base := if bool_decide (SnapshotPath info = "") then st
              else match tryLoadSnapshot d (SnapshotPath info) with
                   | Some snap => OnSnapshot h snap st | None => st end in
  ReplayFromSnapshot d info h st =
    foldl (λ st e, dispatch e (replay_handler h) st) base
      (filter after (concat (ss_events <$> filter kept segs))).
Proof.
  intros Hd Hok Hseq after kept base. unfold ReplayFromSnapshot. fold base.
  rewrite wrap_u_small by lia. set (startSeq := SnapshotSeq info + 1).
  set (skipped segID := negb (bool_decide (SnapshotPath info = "")) && (segID <? SnapshotSegID info)).
  transitivity (foldl (λ s (f : Z * list byte),
    if skipped f.1 then s else replayFile f.2 startSeq (replay_handler h) s) base (log_files d)).
  { unfold log_files. rewrite <-(foldl_omap _ (λ s (f : Z * list byte),
      if skipped f.1 then s else replayFile f.2 startSeq (replay_handler h) s)).
    apply foldl_pointwise. intros s [name [data|]]; cbn [fst snd]; [|done]. by destruct (Sscanf_id ".log" name). }
  rewrite (log_files_segments _ _ Hd). clear Hd. clearbody base. revert base.
  induction Hok as [|sg segs Hsg Hsegs IH]; intros base; [done|]. csimpl.
  assert (bool_decide (kept sg) = negb (skipped (ss_id sg))) as Hkept.
  { unfold kept, skipped. apply eq_true_iff_eq. rewrite negb_true_iff, andb_false_iff, bool_decide_eq_true,
      negb_false_iff, bool_decide_eq_true, Z.ltb_ge. done. }
  rewrite filter_cons. destruct (skipped (ss_id sg)) eqn:E.
  - rewrite decide_False by (by eapply bool_decide_eq_false_1). apply IH.
  - rewrite decide_True by (by eapply bool_decide_eq_true_1). rewrite IH. csimpl.
    rewrite filter_app, foldl_app. f_equal.
    unfold replayFile. rewrite file_events_stored by done. rewrite <-foldl_skip.
    apply foldl_pointwise. intros s e.
    unfold startSeq. destruct (Z.ltb_spec (ev_Seq e) (SnapshotSeq info + 1)); 
      destruct (decide (after e)) as [Ha|Ha]; unfold after in Ha; done || lia.
Qed.

(** The replay of a queue directory hands over the log: after the snapshot
    (when there is one), the handler is given exactly the events that come
    after it, segment after segment in the order they were written, each
    segment up to the end of its whole records. *)
Theorem replay_visits_log {St} d info (h : SnapshotHandler St) st segs :
  holds_segments d ((λ s, (ss_id s, stored_bytes s)) <$> segs) → Forall stored_ok segs →
  0 ≤ SnapshotSeq info < 2 ^ 64 - 1 →
  let after e := SnapshotSeq info < ev_Seq e in
  let kept s := SnapshotPath info = "" ∨ SnapshotSegID info ≤ ss_id s in
  let base := if bool_decide (SnapshotPath info = "") then st
              else match tryLoadSnapshot d (SnapshotPath info) with
                   | Some snap => OnSnapshot h snap st | None => st end in
  ReplayFromSnapshot d info h st =
    foldl (λ st e, dispatch e (replay_handler h) st) base
      (filter after (concat (ss_events <$> filter kept segs))).
Proof. apply replay_log_events. Qed.

Module Visited.
Definition e1 : Event := mkEvent EventPublish "ns" "jobs" "g" "a" [x2a] 1 100.
Definition e2 : Event := mkEvent EventPublish "ns" "jobs" "g" "b" [x2b] 2 200.
Definition segs : list stored_segment := [mkStored 1 [e1] []; mkStored 2 [e2] (take 30 (writeRecord e1))].
Definition d : directory :=
  <["000000001.log" := File (stored_bytes (mkStored 1 [e1] []))]>
  {["000000002.log" := File (stored_bytes (mkStored 2 [e2] (take 30 (writeRecord e1))))]}.
Definition info : QueueRecoveryInfo := mkInfo "ns" "jobs" "" 1 0.

Lemma holds : holds_segments d ((λ s, (ss_id s, stored_bytes s)) <$> segs).
Proof.
  split.
  - repeat constructor.
  - repeat constructor; by_eval.
  - intros id data. unfold segs. csimpl.
    intros [[= -> ->]|[[= -> ->]|[]%elem_of_nil]%elem_of_cons]%elem_of_cons; by vm_compute.
  - intros name Hn _. unfold d in Hn. csimpl.
    destruct (decide (name = "000000001.log")) as [->|H1]; [by left|].
    rewrite lookup_insert_ne in Hn by done.
    destruct (decide (name = "000000002.log")) as [->|H2]; [by right; left|].
    rewrite lookup_singleton_ne in Hn by done. by destruct Hn.
Qed.

Lemma segs_ok : Forall stored_ok segs.
Proof.
  repeat constructor; try by_eval; simpl.
  - exists [], (WIO EOF). by vm_compute.
  - exists [], (WIO UnexpectedEOF). by vm_compute.
Qed.
End Visited.

Lemma replay_visits_log_witness :
  let h := queueRecoveryHandler ticks list_order "jobs" "ns" in
  let st := mkRstate (NewQueue "jobs" "ns") 0 false in
  (holds_segments Visited.d ((λ s, (ss_id s, stored_bytes s)) <$> Visited.segs) ∧ Forall stored_ok Visited.segs) ∧
  group_tags "g" (rs_queue (ReplayFromSnapshot Visited.d Visited.info h st)) = [("b", [x2b])] ∧
  ReplayFromSnapshot Visited.d Visited.info h st =
    foldl (λ st e, dispatch e (replay_handler h) st) st
      (filter (λ e, 1 < ev_Seq e) (concat (ss_events <$> filter (λ s, "" = "" ∨ 0 ≤ ss_id s) Visited.segs))).
Proof.
  intros h st. split; [split; [apply Visited.holds|apply Visited.segs_ok]|]. split; [by vm_compute|].
  apply (replay_visits_log Visited.d Visited.info h st Visited.segs Visited.holds Visited.segs_ok). simpl; lia.
Defined.
