(* ===== verification/TimingWheel.v ===== *)
(** * The timing wheel (src/internal/scheduler/timingwheel.go)

    A wheel of buckets; each tick takes the tasks of the current bucket, runs
    those that are due and puts the others back.  The bucket lists are the
    linked lists of the source, head first; a callback is its identifier.  The
    clock readings of [Add] and of each tick are arguments. *)

From stdpp Require Import base list.
From Stdlib Require Import ZArith Lia.
From S2P Require Import Prelude.
Local Open Scope Z_scope.

Record timerTask := mkTask { executeAt : Z; callback : nat }.

Record TimingWheel := mkWheel {
  buckets : list (list timerTask);
  bucketTime : Z;
  current : nat;
}.

Definition NewTimingWheel (tick : Z) (slots : nat) : TimingWheel := mkWheel (replicate slots []) tick 0.

(** [if ticks == 0 { ticks = 1 }] *)
Definition at_least_one (ticks : Z) : Z := if ticks =? 0 then 1 else ticks.

(** Push at the head of a bucket. *)
Definition push_task (idx : Z) (t : timerTask) (w : TimingWheel) : TimingWheel :=
  mkWheel (alter (cons t) (Z.to_nat idx) (buckets w)) (bucketTime w) (current w).

(** Go's [/] and [%] truncate. *)
Definition Add (now delay : Z) (cb : nat) (w : TimingWheel) : TimingWheel :=
  let delay := if delay <? 0 then 0 else delay in
  let ticks := at_least_one (delay ÷ bucketTime w) in
  push_task (Z.rem (Z.of_nat (current w) + ticks) (Z.of_nat (length (buckets w))))
    (mkTask (now + delay) cb) w.

(** One task of the bucket being processed at time [now]. *)
Definition handle_task (now : Z) (acc : TimingWheel * list timerTask) (t : timerTask)
    : TimingWheel * list timerTask :=
  let '(w, fired) := acc in
  if executeAt t <=? now then (w, fired ++ [t])
  else
    let ticks := at_least_one ((executeAt t - now) ÷ bucketTime w) in
    let n := Z.of_nat (length (buckets w)) in
    (push_task (Z.rem (Z.of_nat (current w) + ticks - 1 + n) n) t w, fired).

Definition tick (now : Z) (w : TimingWheel) : TimingWheel * list timerTask :=
  let head := default [] (buckets w !! current w) in
  let w := mkWheel (<[current w := []]> (buckets w)) (bucketTime w)
             ((current w + 1) mod length (buckets w))%nat in
  foldl (handle_task now) (w, []) head.

(** ** The wheel as a schedule

    [due w i] is how many ticks before bucket [i] is processed: 1 for the
    current one. *)
Definition slots (w : TimingWheel) : Z := Z.of_nat (length (buckets w)).
Definition due (w : TimingWheel) (i : nat) : Z := (Z.of_nat i - Z.of_nat (current w)) `mod` slots w + 1.

Definition tasks (w : TimingWheel) : list timerTask := concat (buckets w).

(** With the next tick at [next] and one every [bucketTime], every task is
    looked at no later than [slack] after it is due. *)
Definition timely (next slack : Z) (w : TimingWheel) : Prop :=
  ∀ i ts t, buckets w !! i = Some ts → t ∈ ts →
    next + (due w i - 1) * bucketTime w ≤ executeAt t + slack.

Record wheel_ok (w : TimingWheel) : Prop := {
  wk_tick : 0 < bucketTime w;
  wk_slots : (0 < length (buckets w))%nat;
  wk_current : (current w < length (buckets w))%nat;
}.

Lemma push_ok idx t w : wheel_ok w → wheel_ok (push_task idx t w).
Proof. intros []. split; simpl; by rewrite ?length_alter. Qed.

Lemma due_push idx t w i : due (push_task idx t w) i = due w i.
Proof. unfold due, slots. simpl. by rewrite length_alter. Qed.

Lemma alter_concat_perm {A} (x : A) (l : list (list A)) i :
  (i < length l)%nat → concat (alter (cons x) i l) ≡ₚ x :: concat l.
Proof.
  revert i. induction l as [|b l IH]; intros [|i] Hi; cbn [length] in Hi; try lia; [done|].
  change (concat (alter (cons x) (S i) (b :: l))) with (b ++ concat (alter (cons x) i l)).
  rewrite IH by lia. cbn [concat]. by rewrite <-Permutation_middle.
Qed.

(** Pushing into a bucket that comes up [d] ticks from now, or one turn of the
    wheel earlier. *)
Lemma push_spec w t (d : Z) idx :
  wheel_ok w → 0 ≤ idx < slots w → 1 ≤ d → (Z.of_nat (current w) + (d - 1)) `mod` slots w = idx →
  tasks (push_task idx t w) ≡ₚ t :: tasks w ∧
  (∀ next slack, timely next slack w → next + (d - 1) * bucketTime w ≤ executeAt t + slack →
    timely next slack (push_task idx t w)).
Proof.
  intros [Ht Hs Hc] Hidx Hd Hpos. split.
  { apply alter_concat_perm. unfold slots in Hidx. lia. }
  intros next slack Htm Hnew i ts x. unfold push_task at 1. simpl. rewrite list_lookup_alter.
  rewrite due_push. case_decide as Hi; [|apply Htm].
  rewrite Hi. destruct (buckets w !! i) as [ts0|] eqn:E; simpl; [|done]. intros [= <-] [->|Hx]%elem_of_cons; [|by eapply Htm].
  assert (due w i ≤ d) as Hdue; [|nia].
  unfold due. rewrite <-Hi, Z2Nat.id by lia. rewrite <-Hpos.
  rewrite Zminus_mod_idemp_l. replace (Z.of_nat (current w) + (d - 1) - Z.of_nat (current w)) with (d - 1) by lia.
  pose proof (Z.mod_le (d - 1) (slots w) ltac:(lia) ltac:(unfold slots; lia)). lia.
Qed.

Lemma at_least_one_spec x : 0 ≤ x → 1 ≤ at_least_one x ∧ (at_least_one x ≤ Z.max 1 x).
Proof. intros Hx. unfold at_least_one. destruct (Z.eqb_spec x 0); lia. Qed.

Lemma quot_bound a b : 0 ≤ a → 0 < b → 0 ≤ a ÷ b ∧ (a ÷ b) * b ≤ a.
Proof.
  intros Ha Hb. rewrite Z.quot_div_nonneg by lia. split; [apply Z.div_pos; lia|].
  rewrite Z.mul_comm. apply Z.mul_div_le. lia.
Qed.

(** Scheduling a task: it is in the wheel once, and comes up in time. *)
Lemma Add_spec now delay cb w next slack :
  wheel_ok w → next ≤ now + bucketTime w → 2 * bucketTime w ≤ slack → timely next slack w →
  let w' := Add now delay cb w in
  wheel_ok w' ∧ bucketTime w' = bucketTime w ∧ timely next slack w' ∧
  tasks w' ≡ₚ mkTask (now + Z.max 0 delay) cb :: tasks w.
Proof.
  intros Hok Hnext Hslack Htm w'. unfold w', Add.
  assert ((if delay <? 0 then 0 else delay) = Z.max 0 delay) as -> by (destruct (Z.ltb_spec delay 0); lia).
  set (dl := Z.max 0 delay). set (ticks := at_least_one _).
  destruct (quot_bound dl (bucketTime w) ltac:(lia) (wk_tick w Hok)) as [Hq0 Hq1].
  destruct (at_least_one_spec _ Hq0) as [Ht1 Ht2]. fold ticks in Ht1, Ht2.
  pose proof (wk_slots w Hok) as Hs. pose proof (wk_tick w Hok) as Hbt.
  assert (0 < slots w) as Hsl by (unfold slots; lia).
  change (Z.of_nat (length (buckets w))) with (slots w).
  rewrite Z.rem_mod_nonneg by lia.
  destruct (push_spec w (mkTask (now + dl) cb) (ticks + 1) ((Z.of_nat (current w) + ticks) `mod` slots w)) as [Hp Htime].
  - done.
  - apply Z.mod_pos_bound. lia.
  - lia.
  - f_equal. lia.
  - split_and!; [by apply push_ok|done| |done]. apply Htime; [done|]. simpl. nia.
Qed.

(** A task that is not due yet goes back into the wheel. *)
Lemma handle_task_spec now w fired t slack :
  wheel_ok w → bucketTime w ≤ slack → timely (now + bucketTime w) slack w →
  let '(w', fired') := handle_task now (w, fired) t in
  wheel_ok w' ∧ bucketTime w' = bucketTime w ∧ timely (now + bucketTime w) slack w' ∧
  ((executeAt t ≤ now ∧ fired' = fired ++ [t] ∧ w' = w) ∨
   (now < executeAt t ∧ fired' = fired ∧ tasks w' ≡ₚ t :: tasks w)).
Proof.
  intros Hok Hslack Htm. unfold handle_task. destruct (Z.leb_spec (executeAt t) now) as [Hdue|Hlate].
  { split_and!; try done. by left. }
  set (ticks := at_least_one _).
  destruct (quot_bound (executeAt t - now) (bucketTime w) ltac:(lia) (wk_tick w Hok)) as [Hq0 Hq1].
  destruct (at_least_one_spec _ Hq0) as [Ht1 Ht2]. fold ticks in Ht1, Ht2.
  pose proof (wk_slots w Hok) as Hs. pose proof (wk_tick w Hok) as Hbt.
  assert (0 < slots w) as Hsl by (unfold slots; lia).
  change (Z.of_nat (length (buckets w))) with (slots w).
  rewrite Z.rem_mod_nonneg by lia.
  destruct (push_spec w t ticks ((Z.of_nat (current w) + ticks - 1 + slots w) `mod` slots w)) as [Hp Htime].
  - done.
  - apply Z.mod_pos_bound. lia.
  - lia.
  - replace (Z.of_nat (current w) + ticks - 1 + slots w) with (Z.of_nat (current w) + (ticks - 1) + 1 * slots w) by lia.
    by rewrite Z.mod_add by lia.
  - split_and!; [by apply push_ok|done| |by right]. apply Htime; [done|]. nia.
Qed.

Lemma handle_bucket now head w fired slack :
  wheel_ok w → bucketTime w ≤ slack → timely (now + bucketTime w) slack w →
  let '(w', fired') := foldl (handle_task now) (w, fired) head in
  ∃ ran, fired' = fired ++ ran ∧ wheel_ok w' ∧ bucketTime w' = bucketTime w ∧
    timely (now + bucketTime w) slack w' ∧ Forall (λ t, executeAt t ≤ now ∧ t ∈ head) ran ∧
    tasks w' ++ ran ≡ₚ tasks w ++ head.
Proof.
  revert w fired. induction head as [|t head IH]; intros w fired Hok Hslack Htm; cbn [foldl].
  { exists []. rewrite !app_nil_r. by split_and!. }
  pose proof (handle_task_spec now w fired t slack Hok Hslack Htm) as Hstep.
  destruct (handle_task now (w, fired) t) as [w1 fired1]. destruct Hstep as (Hok1 & Hbt & Htm1 & Hcase).
  specialize (IH w1 fired1 Hok1). rewrite Hbt in IH. specialize (IH Hslack Htm1).
  destruct (foldl (handle_task now) (w1, fired1) head) as [w' fired'].
  destruct IH as (ran & -> & Hok' & Hbt' & Htm' & Hran & Hperm).
  assert (Forall (λ x, executeAt x ≤ now ∧ x ∈ t :: head) ran) as Hran'.
  { eapply Forall_impl; [exact Hran|]. intros x [? ?]. split; [done|by right]. }
  destruct Hcase as [(Hdue & -> & ->)|(Hlate & -> & Hp)].
  - exists (t :: ran). rewrite <-app_assoc. split_and!; try done.
    + constructor; [split; [done|by left]|done].
    + rewrite <-!Permutation_middle. by rewrite Hperm.
  - exists ran. split_and!; try done. rewrite Hperm, Hp. by rewrite <-Permutation_middle.
Qed.

Lemma concat_take_out {A} (l : list (list A)) i :
  (i < length l)%nat → concat l ≡ₚ default [] (l !! i) ++ concat (<[i := []]> l).
Proof.
  revert i. induction l as [|b l IH]; intros [|i] Hi; cbn [length] in Hi; try lia; [done|].
  change (concat (<[S i := []]> (b :: l))) with (b ++ concat (<[i := []]> l)).
  change ((b :: l) !! S i) with (l !! i). cbn [concat]. rewrite (IH i) by lia. solve_Permutation.
Qed.

(** Advancing the hand. *)
Lemma due_advance w i :
  wheel_ok w → (i < length (buckets w))%nat → i ≠ current w →
  due (mkWheel (<[current w := []]> (buckets w)) (bucketTime w) ((current w + 1) mod length (buckets w))%nat) i
  = due w i - 1.
Proof.
  intros [_ Hs Hc] Hi Hne. unfold due, slots. simpl. rewrite length_insert.
  set (n := length (buckets w)) in *. rewrite Nat2Z.inj_mod. rewrite Zminus_mod_idemp_r.
  rewrite Nat2Z.inj_add. change (Z.of_nat 1) with 1.
  destruct (Z.lt_ge_cases (Z.of_nat i) (Z.of_nat (current w))) as [Hlt|Hge].
  - rewrite <-(Z.mod_add (Z.of_nat i - Z.of_nat (current w)) 1), <-(Z.mod_add _ 1 (Z.of_nat n)) by lia.
    rewrite !Z.mod_small; lia.
  - rewrite !Z.mod_small; lia.
Qed.

Lemma tick_spec now w slack :
  wheel_ok w → bucketTime w ≤ slack → timely now slack w →
  let '(w', ran) := tick now w in
  wheel_ok w' ∧ bucketTime w' = bucketTime w ∧ timely (now + bucketTime w) slack w' ∧
  Forall (λ t, executeAt t ≤ now ≤ executeAt t + slack) ran ∧ tasks w' ++ ran ≡ₚ tasks w.
Proof.
  intros Hok Hslack Htm. unfold tick. set (head := default [] _).
  set (w1 := mkWheel _ _ _).
  pose proof Hok as [Hbt Hs Hc].
  assert (wheel_ok w1) as Hok1.
  { split; simpl; rewrite ?length_insert; try done. apply Nat.mod_upper_bound. lia. }
  assert (timely (now + bucketTime w1) slack w1) as Htm1.
  { intros i ts t. change (buckets w1) with (<[current w := []]> (buckets w)).
    intros Hi Ht. destruct (decide (i = current w)) as [->|Hne].
    - rewrite list_lookup_insert_eq in Hi by done. injection Hi as <-. by apply elem_of_nil in Ht.
    - rewrite list_lookup_insert_ne in Hi by done. unfold w1. rewrite due_advance; [|done| |done].
      + specialize (Htm i ts t Hi Ht). simpl. lia.
      + by eapply lookup_lt_Some. }
  assert (∀ t, t ∈ head → now ≤ executeAt t + slack) as Hhead.
  { intros t Ht. unfold head in Ht. destruct (buckets w !! current w) as [ts|] eqn:E; simpl in Ht; [|by apply elem_of_nil in Ht].
    specialize (Htm _ _ _ E Ht). unfold due in Htm. rewrite Z.sub_diag, Z.mod_0_l in Htm by (unfold slots; lia). lia. }
  pose proof (handle_bucket now head w1 [] slack Hok1 Hslack Htm1) as H.
  destruct (foldl (handle_task now) (w1, []) head) as [w' fired'].
  destruct H as (ran & -> & Hok' & Hbt' & Htm' & Hran & Hperm). cbn [app].
  split_and!; try done.
  - eapply Forall_impl; [exact Hran|]. intros t [Hdue Hin]. specialize (Hhead t Hin). lia.
  - rewrite Hperm. unfold tasks at 2. rewrite (concat_take_out (buckets w) (current w)) by done.
    unfold tasks, w1, head. simpl. by rewrite Permutation_app_comm.
Qed.

(** ** Runs of the wheel

    [wheel_run bt w next added fired]: the ticker is at [next], the tasks
    [added] were scheduled so far, each within the tick it was added in, and
    [fired] lists the callbacks run with the time of their tick. *)
Inductive wheel_run (bt : Z) (n : nat) (t0 : Z) : TimingWheel → Z → list timerTask → list (timerTask * Z) → Prop :=
| wr_new : wheel_run bt n t0 (NewTimingWheel bt n) (t0 + bt) [] []
| wr_add w next added fired now delay cb :
    wheel_run bt n t0 w next added fired → next - bt ≤ now ≤ next →
    wheel_run bt n t0 (Add now delay cb w) next (mkTask (now + Z.max 0 delay) cb :: added) fired
| wr_tick w next added fired :
    wheel_run bt n t0 w next added fired →
    wheel_run bt n t0 (tick next w).1 (next + bt) added (fired ++ ((λ t, (t, next)) <$> (tick next w).2)).

Lemma wheel_run_inv bt n t0 w next added fired :
  0 < bt → (0 < n)%nat → wheel_run bt n t0 w next added fired →
  wheel_ok w ∧ bucketTime w = bt ∧ timely next (2 * bt) w ∧
  added ≡ₚ tasks w ++ fired.*1 ∧ Forall (λ f, executeAt f.1 ≤ f.2 ≤ executeAt f.1 + 2 * bt) fired.
Proof.
  intros Hbt Hn. induction 1 as [|w next added fired now delay cb H IH Hnow|w next added fired H IH].
  - split_and!; try done.
    + split; simpl; rewrite ?length_replicate; done || lia.
    + intros i ts t. simpl. intros [-> _]%lookup_replicate Ht. by apply elem_of_nil in Ht.
    + rewrite app_nil_r. unfold tasks. simpl. clear. by induction n.
  - destruct IH as (Hok & Hb & Htm & Hadd & Hfired).
    destruct (Add_spec now delay cb w next (2 * bt)) as (H1 & H2 & H3 & H4); try done; [rewrite Hb; lia..|].
    split_and!; try done. by rewrite H4, Hadd.
  - destruct IH as (Hok & Hb & Htm & Hadd & Hfired).
    pose proof (tick_spec next w (2 * bt) Hok ltac:(lia) Htm) as Hs. rewrite Hb in Hs.
    destruct (tick next w) as [w' ran]. destruct Hs as (H1 & H2 & H3 & H4 & H5). cbn [fst snd].
    split_and!; try done.
    + rewrite Hadd, fmap_app, <-list_fmap_compose, <-H5.
      change (fst ∘ λ t : timerTask, (t, next)) with (@id timerTask). rewrite list_fmap_id. solve_Permutation.
    + apply Forall_app. split; [done|]. by apply Forall_fmap.
Qed.

(** C27. The timing wheel runs every callback once and in time: at any moment each
    task scheduled is either still in the wheel or has been run, exactly once;
    no callback runs before its instant nor more than two ticks after it; and a
    task still in the wheel is at most two ticks overdue.  Delays longer than a
    turn of the wheel are covered. *)
Theorem wheel_on_time bt n t0 w next added fired :
  0 < bt → (0 < n)%nat → wheel_run bt n t0 w next added fired →
  added ≡ₚ tasks w ++ fired.*1 ∧
  Forall (λ f, executeAt f.1 ≤ f.2 ≤ executeAt f.1 + 2 * bt) fired ∧
  Forall (λ t, next ≤ executeAt t + 2 * bt) (tasks w).
Proof.
  intros Hbt Hn Hrun. destruct (wheel_run_inv bt n t0 w next added fired Hbt Hn Hrun) as (Hok & Hb & Htm & Hadd & Hf).
  split_and!; try done. apply Forall_forall. intros t (ts & Ht & [i Hi]%list_elem_of_lookup)%elem_of_concat.
  specialize (Htm i ts t Hi Ht). rewrite Hb in Htm. unfold due in Htm.
  pose proof (wk_slots w Hok). pose proof (Z.mod_pos_bound (Z.of_nat i - Z.of_nat (current w)) (slots w) ltac:(unfold slots; lia)).
  nia.
Qed.

Module Wheel.
Definition w1 := Add 3 25 7 (NewTimingWheel 10 2).
Definition w2 := (tick 10 w1).1.
Definition w3 := (tick 20 w2).1.

(** A delay of 25 on a wheel of two slots of 10: put back twice, run at 30. *)
Lemma story : wheel_run 10 2 0 (tick 30 w3).1 40 [mkTask 28 7] [(mkTask 28 7, 30)].
Proof.
  apply (wr_tick 10 2 0 w3 30 [mkTask 28 7] []). apply (wr_tick 10 2 0 w2 20 [mkTask 28 7] []).
  apply (wr_tick 10 2 0 w1 10 [mkTask 28 7] []). apply (wr_add 10 2 0 (NewTimingWheel 10 2) 10 [] [] 3 25 7); [|lia].
  apply (wr_new 10 2 0).
Qed.
End Wheel.

Lemma wheel_on_time_witness :
  let w := (tick 30 Wheel.w3).1 in
  wheel_run 10 2 0 w 40 [mkTask 28 7] [(mkTask 28 7, 30)] ∧
  [mkTask 28 7] ≡ₚ tasks w ++ [(mkTask 28 7, 30)].*1 ∧
  Forall (λ f, executeAt f.1 ≤ f.2 ≤ executeAt f.1 + 2 * 10) [(mkTask 28 7, 30)] ∧
  Forall (λ t, 40 ≤ executeAt t + 2 * 10) (tasks w).
Proof.
  split; [apply Wheel.story|].
  apply (wheel_on_time 10 2 0 (tick 30 Wheel.w3).1 40 [mkTask 28 7] [(mkTask 28 7, 30)]); [lia..|apply Wheel.story].
Defined.
