(* ===== verification/SchedStats.v ===== *)
(** * Statistics of the scheduler (src/internal/scheduler/scheduler.go) and the coarse clock (src/internal/xtime)

    The counters that activations and workers keep, the lock-free maximum of
    the latencies, and [Metrics], which reports them.  Activations, workers and
    the compare-and-swap loop of each worker interleave as a step relation.  The
    two quotients Metrics computes in floating point are given as numerator and
    denominator. *)

From stdpp Require Import base list relations.
From Stdlib Require Import ZArith Lia.
From S2P Require Import Prelude.
Local Open Scope Z_scope.
Local Open Scope list_scope.

(** ** The coarse clock *)

(** A goroutine stores the time of each tick; readers load the last one. *)
Definition coarse_store (t : Z) (coarse : Z) : Z := i64 t.
Definition UnixNano (coarse : Z) : Z := coarse.

(** ** Counters *)

(** [nanos(now - enqueuedAt)] as an unsigned number; [Sub] saturates. *)
Definition sub_nanos (now at' : Z) : Z := Z.max (- 2 ^ 63) (Z.min (2 ^ 63 - 1) (now - at')).
Definition latency (now enqueuedAt : Z) : Z := u64 (sub_nanos now enqueuedAt).

(** A worker in [processActivation] before or after it has loaded the maximum. *)
Record observer := mkObserver { ob_latency : Z; ob_loaded : option Z }.

Record stats := mkStats {
  st_chan : list Z;                (** times of the activations queued *)
  st_total : Z;                    (** activationsTotal *)
  st_latTotal : Z;                 (** activationLatencyTotalNanos *)
  st_latMax : Z;                   (** activationLatencyMaxNanos *)
  st_observers : list observer;    (** workers in the loop *)
  st_taken : list Z;               (** latencies measured so far *)
  st_count : nat;                  (** activations so far *)
}.

(** [Activate] counts, and queues or drops the activation. *)
Definition count_activation (now : Z) (queued : bool) (s : stats) : stats :=
  mkStats (if queued then st_chan s ++ [now] else st_chan s) (u64 (st_total s + 1)) (st_latTotal s) (st_latMax s) (st_observers s) (st_taken s) (S (st_count s)).

Definition measure (now : Z) (s : stats) : stats :=
  match st_chan s with
  | [] => s
  | at' :: rest =>
      let l := latency now at' in
      mkStats rest (st_total s) (u64 (st_latTotal s + l)) (st_latMax s) (mkObserver l None :: st_observers s) (l :: st_taken s) (st_count s)
  end.

(** One turn of the loop: load and compare, or compare and swap. *)
Definition observe (o : observer) (latMax : Z) : Z * option observer :=
  match ob_loaded o with
  | None => (latMax, if ob_latency o <=? latMax then None else Some (mkObserver (ob_latency o) (Some latMax)))
  | Some cur => if latMax =? cur then (ob_latency o, None) else (latMax, Some (mkObserver (ob_latency o) None))
  end.
Definition observed (l1 l2 : list observer) (o : observer) (s : stats) : stats :=
  let '(m, r) := observe o (st_latMax s) in
  mkStats (st_chan s) (st_total s) (st_latTotal s) m (l1 ++ match r with Some o' => o' :: l2 | None => l2 end) (st_taken s) (st_count s).

Inductive counts (s : stats) : stats → Prop :=
| co_activate now queued : counts s (count_activation now queued s)
| co_measure now : counts s (measure now s)
| co_observe l1 o l2 : st_observers s = l1 ++ o :: l2 → counts s (observed l1 l2 o s).

Definition no_stats : stats := mkStats [] 0 0 0 [] [] 0.

(** ** Metrics *)

(** The report; a quotient is [None] when its guard leaves it zero. *)
Record SchedulerStats := mkSchedulerStats {
  RegisteredQueues : Z; ActivationQueueDepth : Z; ActiveGroups : Z; WorkerCount : Z; BusyWorkers : Z;
  WorkerUtilization : option (Z * Z);      (** busy nanoseconds, nanoseconds of all workers *)
  ActivationsTotal : Z;
  ActivationsPerSec : option (Z * Z);      (** activations, nanoseconds *)
  ActivationLatencyAvg : Z; ActivationLatencyMax : Z; Uptime : Z;
}.

(** [startedAt] is [None] before [Run]. *)
Definition Metrics (now : Z) (startedAt : option Z) (nQueues workerCount busyWorkers busyTime : Z) (s : stats) : SchedulerStats :=
  let uptime := Z.max 0 (sub_nanos now (default now startedAt)) in
  mkSchedulerStats nQueues (Z.of_nat (length (st_chan s))) (Z.of_nat (length (st_chan s))) workerCount busyWorkers
    (if (0 <? workerCount) && (0 <? uptime) then Some (busyTime, i64 (uptime * workerCount)) else None)
    (st_total s)
    (if 0 <? uptime then Some (st_total s, uptime) else None)
    (if 0 <? st_total s then i64 (st_latTotal s / st_total s) else 0)
    (i64 (st_latMax s)) uptime.

(** ** The invariant *)

Definition max_of (l : list Z) : Z := foldr Z.max 0 l.
Definition sum_of (l : list Z) : Z := foldr Z.add 0 l.

Lemma max_of_ge l x : x ∈ l → x ≤ max_of l.
Proof.
  unfold max_of. induction l as [|y l IH]; intros H; [by apply elem_of_nil in H|]. cbn.
  apply elem_of_cons in H as [->|H]; [lia|]. specialize (IH H). lia.
Qed.
Lemma max_of_least l m : 0 ≤ m → (∀ x, x ∈ l → x ≤ m) → max_of l ≤ m.
Proof.
  unfold max_of. intros Hm H. induction l as [|y l IH]; [done|]. cbn. assert (y ≤ m) by (apply H; by left).
  enough (foldr Z.max 0 l ≤ m) by lia. apply IH. intros x Hx. apply H. by right.
Qed.
Lemma sum_of_bound l m : (∀ x, x ∈ l → 0 ≤ x ≤ m) → 0 ≤ sum_of l ≤ Z.of_nat (length l) * m.
Proof.
  induction l as [|y l IH]; intros H; [cbn; lia|].
  assert (0 ≤ y ≤ m) by (apply H; by left). assert (0 ≤ sum_of l ≤ Z.of_nat (length l) * m) by (apply IH; intros x Hx; apply H; by right).
  cbn [sum_of foldr length]. fold (sum_of l). lia.
Qed.

Record stats_ok (s : stats) : Prop := {
  sk_total : (length (st_taken s) + length (st_chan s) ≤ st_count s)%nat ∧ st_total s = u64 (Z.of_nat (st_count s));
  sk_sum : st_latTotal s = u64 (sum_of (st_taken s));
  sk_range : ∀ x, x ∈ st_taken s → 0 ≤ x < 2 ^ 64;
  sk_below : 0 ≤ st_latMax s ≤ max_of (st_taken s);
  sk_above : ∀ x, x ∈ st_taken s → x ≤ st_latMax s ∨ ∃ o, o ∈ st_observers s ∧ ob_latency o = x;
  sk_observers : ∀ o, o ∈ st_observers s → ob_latency o ∈ st_taken s ∧
    match ob_loaded o with Some cur => cur ≤ st_latMax s ∧ cur < ob_latency o | None => True end;
}.

Lemma u64_range z : 0 ≤ u64 z < 2 ^ 64.
Proof. unfold wrap_u. apply Z.mod_pos_bound. lia. Qed.
Lemma u64_add_l a b : u64 (u64 a + b) = u64 (a + b).
Proof. unfold wrap_u. apply Zplus_mod_idemp_l. Qed.

Lemma observe_grows o m : (∀ cur, ob_loaded o = Some cur → cur ≤ m ∧ cur < ob_latency o) → m ≤ (observe o m).1.
Proof. intros H. unfold observe. destruct (ob_loaded o) as [cur|]; [|done]. specialize (H cur eq_refl). destruct (Z.eqb_spec m cur); cbn; lia. Qed.

Lemma counts_ok s s' : counts s s' → stats_ok s → stats_ok s'.
Proof.
  intros Hst [[H1 H2] H3 H4 H5 H6 H7]. destruct Hst as [now queued|now|l1 o l2 Ho].
  - split; try done. cbn. split; [|rewrite H2, u64_add_l; f_equal; lia]. destruct queued; rewrite ?length_app; cbn; lia.
  - unfold measure. destruct (st_chan s) as [|at' rest] eqn:E; [split; try done; by rewrite E|]. cbn in H1.
    set (l := latency now at'). assert (0 ≤ l < 2 ^ 64) by apply u64_range.
    split; cbn [st_total st_latTotal st_latMax st_observers st_taken st_chan st_count].
    + split; [cbn; lia|done].
    + rewrite H3, u64_add_l. f_equal. cbn. unfold sum_of. lia.
    + intros x [->|Hx]%elem_of_cons; auto.
    + unfold max_of in *. cbn. lia.
    + intros x [->|Hx]%elem_of_cons; [right; eexists; split; [by left|done]|]. destruct (H6 x Hx) as [?|(o & Ho & Hl)]; [by left|right].
      exists o. split; [by right|done].
    + intros o [->|Ho]%elem_of_cons; [split; [by left|done]|]. destruct (H7 o Ho) as [Hin Hl]. split; [by right|done].
  - unfold observed. assert (o ∈ st_observers s) as Hin by (rewrite Ho; set_solver). destruct (H7 o Hin) as [Hot Hol].
    pose proof (max_of_ge _ _ Hot) as Hmax. pose proof (H4 _ Hot) as Hrange.
    assert (st_latMax s ≤ (observe o (st_latMax s)).1) as Hgrow by (apply observe_grows; intros cur E; by rewrite E in Hol).
    assert ((observe o (st_latMax s)).1 ≤ max_of (st_taken s)) as Hle.
    { unfold observe. destruct (ob_loaded o); [destruct (_ =? _)|]; cbn; lia. }
    assert (match (observe o (st_latMax s)).2 with
            | None => ob_latency o ≤ (observe o (st_latMax s)).1
            | Some o' => ob_latency o' = ob_latency o ∧
                match ob_loaded o' with Some cur => cur ≤ (observe o (st_latMax s)).1 ∧ cur < ob_latency o' | None => True end
            end) as Hout.
    { unfold observe. destruct (ob_loaded o) as [cur|]; [destruct (_ =? _); cbn; [lia|done]|]. cbn. destruct (Z.leb_spec (ob_latency o) (st_latMax s)); cbn; [done|]. lia. }
    destruct (observe o (st_latMax s)) as [m r]. cbn [fst snd] in *.
    assert (∀ o', o' ∈ l1 ++ l2 → o' ∈ st_observers s) as Hsub by (intros o'; rewrite Ho; set_solver).
    assert (∀ o', o' ∈ l1 ++ (match r with Some o' => o' :: l2 | None => l2 end) → o' ∈ l1 ++ l2 ∨ r = Some o') as Hnew
      by (intros o'; destruct r; set_solver).
    split; cbn [st_total st_latTotal st_latMax st_observers st_taken st_chan st_count]; try done; [lia| |].
    + intros x Hx. destruct (H6 x Hx) as [?|(o' & Ho' & <-)]; [left; lia|]. rewrite Ho in Ho'.
      apply elem_of_app in Ho' as [Ho'|[->|Ho']%elem_of_cons].
      * right. exists o'. split; [set_solver|done].
      * destruct r as [o''|]; [right|by left]. exists o''. split; [set_solver|by destruct Hout].
      * right. exists o'. split; [destruct r; set_solver|done].
    + intros o' [Ho'|Hr]%Hnew.
      * destruct (H7 o' (Hsub o' Ho')) as [? Hl]. split; [done|]. destruct (ob_loaded o'); [lia|done].
      * subst r. destruct Hout as [E Hl]. split; [by rewrite E|done].
Qed.

Lemma no_stats_ok : stats_ok no_stats.
Proof. split; cbn; try done; try (by intros ? ?%elem_of_nil); lia. Qed.

Lemma counts_reach s : rtc counts no_stats s → stats_ok s.
Proof.
  intros H. pose proof no_stats_ok as Hok. induction H as [s|s1 s2 s3 Hst _ IH]; [done|]. apply IH. by eapply counts_ok.
Qed.

(** The lock-free maximum is the maximum: when no worker is in the loop, the
    counter is the largest latency measured; and while no counter has wrapped
    around the reported average is at most the reported maximum. *)
Theorem latency_statistics s now startedAt nQueues workerCount busyWorkers busyTime :
  rtc counts no_stats s → st_observers s = [] → sum_of (st_taken s) < 2 ^ 63 → Z.of_nat (st_count s) < 2 ^ 64 →
  let r := Metrics now startedAt nQueues workerCount busyWorkers busyTime s in
  st_latMax s = max_of (st_taken s) ∧ 0 ≤ ActivationLatencyAvg r ≤ ActivationLatencyMax r.
Proof.
  intros [[H1 H2] H3 H4 H5 H6 H7]%counts_reach Hnil Hsum Hn r.
  assert (st_latMax s = max_of (st_taken s)) as Hmax.
  { apply Z.le_antisymm; [lia|]. apply max_of_least; [lia|].
    intros x Hx. destruct (H6 x Hx) as [?|(o & Ho & _)]; [done|]. rewrite Hnil in Ho. by apply elem_of_nil in Ho. }
  split; [done|].
  assert (∀ x, x ∈ st_taken s → 0 ≤ x ≤ st_latMax s) as Hb.
  { intros x Hx. split; [by apply H4|]. rewrite Hmax. by apply max_of_ge. }
  pose proof (sum_of_bound _ _ Hb) as Hs.
  assert (st_latMax s < 2 ^ 63) as Hm.
  { rewrite Hmax. apply Z.le_lt_trans with (sum_of (st_taken s)); [|done]. clear -H4. unfold max_of, sum_of.
    induction (st_taken s) as [|y l IH]; [done|]. cbn. assert (0 ≤ y < 2 ^ 64) by (apply H4; by left).
    assert (foldr Z.max 0 l ≤ foldr Z.add 0 l) by (apply IH; intros x Hx; apply H4; by right).
    assert (0 ≤ foldr Z.max 0 l) by (clear; induction l; cbn; lia). lia. }
  unfold r, Metrics. cbn. rewrite (wrap_s_small 64 (st_latMax s)) by (try done; change (2 ^ (64 - 1)) with (2 ^ 63); lia).
  destruct (Z.ltb_spec 0 (st_total s)) as [Ht|Ht]; [|lia].
  assert (st_latTotal s = sum_of (st_taken s)) as E1 by (rewrite H3; unfold wrap_u; apply Z.mod_small; lia).
  assert (st_total s = Z.of_nat (st_count s)) as E2 by (rewrite H2; unfold wrap_u; apply Z.mod_small; lia).
  assert (0 ≤ st_latTotal s / st_total s ≤ st_latMax s) as Hd.
  { split; [apply Z.div_pos; lia|]. apply Z.div_le_upper_bound; [done|]. rewrite E1, E2. nia. }
  rewrite wrap_s_small by (try done; change (2 ^ (64 - 1)) with (2 ^ 63); lia). done.
Qed.

(** The loop is lock-free: a worker goes round again only when another has
    raised the maximum since it looked. *)
Lemma retry_means_progress s o cur o' :
  rtc counts no_stats s → o ∈ st_observers s → ob_loaded o = Some cur → (observe o (st_latMax s)).2 = Some o' → cur < st_latMax s.
Proof.
  intros Hs%counts_reach Ho E Hr. destruct (sk_observers s Hs o Ho) as [_ Hl]. rewrite E in Hl.
  unfold observe in Hr. rewrite E in Hr. destruct (Z.eqb_spec (st_latMax s) cur); [done|]. lia.
Qed.

(** Two workers meet in the loop, and the smaller latency is stored first. *)
Definition contended : stats :=
  let s := count_activation 200 true (count_activation 100 true no_stats) in
  let s := measure 900 (measure 700 s) in
  let s := observed [mkObserver 700 None] [] (mkObserver 600 None) s in
  let s := observed [] [mkObserver 600 (Some 0)] (mkObserver 700 None) s in
  let s := observed [mkObserver 700 (Some 0)] [] (mkObserver 600 (Some 0)) s in
  let s := observed [] [] (mkObserver 700 (Some 0)) s in
  let s := observed [] [] (mkObserver 700 None) s in
  observed [] [] (mkObserver 700 (Some 600)) s.

Lemma contended_reached : rtc counts no_stats contended.
Proof.
  eapply rtc_l; [apply (co_activate _ 100 true)|]. eapply rtc_l; [apply (co_activate _ 200 true)|].
  eapply rtc_l; [apply (co_measure _ 700)|]. eapply rtc_l; [apply (co_measure _ 900)|].
  eapply rtc_l; [by apply (co_observe _ [mkObserver 700 None] (mkObserver 600 None) [])|].
  eapply rtc_l; [by apply (co_observe _ [] (mkObserver 700 None) [mkObserver 600 (Some 0)])|].
  eapply rtc_l; [by apply (co_observe _ [mkObserver 700 (Some 0)] (mkObserver 600 (Some 0)) [])|].
  eapply rtc_l; [by apply (co_observe _ [] (mkObserver 700 (Some 0)) [])|].
  eapply rtc_l; [by apply (co_observe _ [] (mkObserver 700 None) [])|].
  eapply rtc_l; [by apply (co_observe _ [] (mkObserver 700 (Some 600)) [])|]. apply rtc_refl.
Qed.

Lemma latency_statistics_witness :
  let r := Metrics 1000 (Some 0) 1 4 0 0 contended in
  (st_latMax contended = max_of (st_taken contended) ∧ 0 ≤ ActivationLatencyAvg r ≤ ActivationLatencyMax r) ∧
  ActivationLatencyAvg r = 650 ∧ ActivationLatencyMax r = 700.
Proof.
  intros r. split; [|by vm_compute].
  apply (latency_statistics contended 1000 (Some 0) 1 4 0 0 contended_reached); by vm_compute.
Defined.

(** The coarse clock follows the wall clock: when that is set back by a second
    between queueing and processing, the difference is a huge unsigned number,
    and the maximum reported is negative from then on. *)
Example clock_set_back :
  let c := coarse_store (second * 10) 0 in
  let c' := coarse_store (second * 9) c in
  let s := measure (UnixNano c') (count_activation (UnixNano c) true no_stats) in
  let s := observed [] [] (mkObserver (2 ^ 64 - second) (Some 0)) (observed [] [] (mkObserver (2 ^ 64 - second) None) s) in
  st_taken s = [2 ^ 64 - second] ∧ st_observers s = [] ∧ ActivationLatencyMax (Metrics c' (Some 0) 1 4 0 0 s) = - second.
Proof. by vm_compute. Qed.

(** The product of uptime and workers is computed in 64 bits: with 64 workers it
    overflows after four years and seven months. *)
Example utilization_overflows :
  let year := 365 * 24 * 3600 * second in
  WorkerUtilization (Metrics (5 * year) (Some 0) 1 64 0 (4 * year) no_stats) = Some (4 * year, 320 * year - 2 ^ 64).
Proof. by vm_compute. Qed.
