(* ===== verification/Registry.v ===== *)
(** * The subscription registry (src/internal/broker/registry.go)

    Glob matching of group patterns, the subscriber list of one subscription
    key with its round-robin cursor, and the registry: two maps of lists, one
    for exact group names and one for patterns, and the subscriptions of each
    connection.  A connection is a number.  [sync.Map.Range] visits the entries
    in any order, an argument of the lookups. *)

From stdpp Require Import base gmap list strings.
From Stdlib Require Import ZArith Lia Ascii.
From S2P Require Import Prelude GroupInv ConfigIdx.
Local Open Scope Z_scope.

(** ** Glob matching *)

Fixpoint strip_stars (p : string) : string :=
  match p with String "*"%char p' => strip_stars p' | _ => p end.

(** [name[i:]] for [i] from 0 to [len(name)]. *)
Fixpoint suffixes (name : string) : list string :=
  name :: match name with "" => [] | String _ n => suffixes n end.

(** Every turn of the source's loop consumes at least one byte of the pattern. *)
Fixpoint matchGlobRec (fuel : nat) (pattern name : string) : bool :=
  match fuel with
  | O => false
  | S fuel =>
      match pattern with
      | "" => bool_decide (name = "")
      | String "*"%char _ =>
          let pattern := strip_stars pattern in
          if bool_decide (pattern = "") then true
          else existsb (matchGlobRec fuel pattern) (suffixes name)
      | String "?"%char pattern => match name with "" => false | String _ name => matchGlobRec fuel pattern name end
      | String c pattern =>
          match name with
          | "" => false
          | String d name => if Ascii.eqb c d then matchGlobRec fuel pattern name else false
          end
      end
  end.

Definition matchGlob (pattern name : string) : bool := matchGlobRec (S (str_len pattern)) pattern name.

(** ** Subscriber lists *)

Record subList := mkSubList { conns : list nat; cursor : Z }.
Definition new_subList : subList := mkSubList [] 0.

Definition sub_add (conn : nat) (l : subList) : subList := mkSubList (conns l ++ [conn]) (cursor l).

(** The list without the first occurrence. *)
Fixpoint remove_first (conn : nat) (l : list nat) : list nat :=
  match l with
  | [] => []
  | c :: l => if (c =? conn)%nat then l else c :: remove_first conn l
  end.

Definition sub_remove (conn : nat) (l : subList) : subList * bool :=
  let next := remove_first conn (conns l) in
  (mkSubList next (cursor l), bool_decide (next = [])).

(** [conns[(l.cursor.Add(1)-1)%n]] *)
Definition sub_next (l : subList) : subList * option nat :=
  let n := Z.of_nat (length (conns l)) in
  if n =? 0 then (l, None)
  else let c := u64 (cursor l + 1) in
       (mkSubList (conns l) c, conns l !! Z.to_nat (u64 (c - 1) `mod` n)).

Definition hasAny (l : subList) : bool := negb (bool_decide (conns l = [])).

(** ** The registry *)

Record subKey := mkSubKey { sk_ns : string; sk_queue : string; sk_group : string }.

#[export] Instance subKey_eq_dec : EqDecision subKey.
Proof. solve_decision. Defined.
#[export] Instance subKey_countable : Countable subKey.
Proof.
  refine (inj_countable' (λ k, (sk_ns k, sk_queue k, sk_group k)) (λ t, mkSubKey t.1.1 t.1.2 t.2) _).
  by intros [].
Defined.

Record subKeyEntry := mkEntry { se_key : subKey; se_wildcard : bool }.

Record subRegistry := mkRegistry {
  r_exact : gmap subKey subList;
  r_wildcard : gmap subKey subList;
  connSubs : gmap nat (list subKeyEntry);
}.

Definition newSubRegistry : subRegistry := mkRegistry ∅ ∅ ∅.

(** [strings.ContainsAny(s, "*?[")], as in the queue's configuration index. *)
Definition wildcard_key (k : subKey) : bool := isGlobPattern (sk_group k).

(** [LoadOrStore] and [add]. *)
Definition add_to (k : subKey) (conn : nat) (m : gmap subKey subList) : gmap subKey subList :=
  <[k := sub_add conn (default new_subList (m !! k))]> m.

Definition reg_add (k : subKey) (conn : nat) (r : subRegistry) : subRegistry :=
  let entry := mkEntry k (wildcard_key k) in
  let subs := <[conn := default [] (connSubs r !! conn) ++ [entry]]> (connSubs r) in
  if wildcard_key k
  then mkRegistry (r_exact r) (add_to k conn (r_wildcard r)) subs
  else mkRegistry (add_to k conn (r_exact r)) (r_wildcard r) subs.

Definition remove_from (k : subKey) (conn : nat) (m : gmap subKey subList) : gmap subKey subList :=
  match m !! k with
  | None => m
  | Some l => let '(l, empty) := sub_remove conn l in if empty then delete k m else <[k := l]> m
  end.

Definition remove_entry (conn : nat) (r : subRegistry) (e : subKeyEntry) : subRegistry :=
  if se_wildcard e
  then mkRegistry (r_exact r) (remove_from (se_key e) conn (r_wildcard r)) (connSubs r)
  else mkRegistry (remove_from (se_key e) conn (r_exact r)) (r_wildcard r) (connSubs r).

Definition reg_remove (conn : nat) (r : subRegistry) : subRegistry :=
  let entries := default [] (connSubs r !! conn) in
  let r := mkRegistry (r_exact r) (r_wildcard r) (delete conn (connSubs r)) in
  foldl (remove_entry conn) r entries.

Record sub_order := SubOrder {
  sub_range : gmap subKey subList → list (subKey * subList);
  sub_perm : ∀ m, sub_range m ≡ₚ map_to_list m;
}.
Definition list_sub_order : sub_order := SubOrder map_to_list (λ m, reflexivity _).

(** The pattern [k] covers the group of the message. *)
Definition covers (ns q group : string) (k : subKey) : bool :=
  bool_decide (sk_ns k = ns) && bool_decide (sk_queue k = q) && matchGlob (sk_group k) group.

Definition reg_has (ord : sub_order) (ns q group : string) (r : subRegistry) : bool :=
  match r_exact r !! mkSubKey ns q group with Some l => hasAny l | None => false end
  || existsb (λ kl, covers ns q group kl.1 && hasAny kl.2) (sub_range ord (r_wildcard r)).

(** The scan of [next]: the first covering pattern with a subscriber. *)
Fixpoint scan_wildcards (ns q group : string) (kls : list (subKey * subList)) : option (subKey * subList * nat) :=
  match kls with
  | [] => None
  | (k, l) :: kls =>
      if covers ns q group k
      then match sub_next l with
           | (l, Some conn) => Some (k, l, conn)
           | (_, None) => scan_wildcards ns q group kls
           end
      else scan_wildcards ns q group kls
  end.

Definition reg_next (ord : sub_order) (ns q group : string) (r : subRegistry) : subRegistry * option nat :=
  let wild :=
    match scan_wildcards ns q group (sub_range ord (r_wildcard r)) with
    | Some (k, l, conn) => (mkRegistry (r_exact r) (<[k := l]> (r_wildcard r)) (connSubs r), Some conn)
    | None => (r, None)
    end in
  let key := mkSubKey ns q group in
  match r_exact r !! key with
  | Some l => match sub_next l with
              | (l, Some conn) => (mkRegistry (<[key := l]> (r_exact r)) (r_wildcard r) (connSubs r), Some conn)
              | (_, None) => wild
              end
  | None => wild
  end.

Example glob_doc :
  matchGlob "*" "tenant-123" = true ∧ matchGlob "tenant-*" "tenant-123" = true ∧
  matchGlob "tenant-*" "other-123" = false ∧ matchGlob "*-prod" "app-prod" = true ∧
  matchGlob "region/*" "region/us-east" = true.
Proof. by vm_compute. Qed.

(** ** What a pattern means *)

Inductive glob : string → string → Prop :=
| glob_nil : glob "" ""
| glob_star p n pre : glob p n → glob (String "*"%char p) (pre +:+ n)
| glob_any p n c : glob p n → glob (String "?"%char p) (String c n)
| glob_char p n c : c ≠ "*"%char → c ≠ "?"%char → glob p n → glob (String c p) (String c n).

Lemma suffixes_spec s n : s ∈ suffixes n ↔ ∃ pre, n = pre +:+ s.
Proof.
  revert s. induction n as [|c n IH]; intros s; simpl.
  - rewrite list_elem_of_singleton. split; [intros ->; by exists ""|].
    intros [pre H]. by destruct pre, s.
  - rewrite elem_of_cons, IH. split.
    + intros [->|[pre ->]]; [by exists ""|by exists (String c pre)].
    + intros [[|d pre] H]; [by left|]. injection H as -> ->. right. by exists pre.
Qed.

Lemma glob_star_suffix p n m : glob (String "*"%char p) n → glob (String "*"%char p) (m +:+ n).
Proof.
  intros H. inversion H as [|p' n' pre Hp| |c p' n']; subst; [|done].
  rewrite str_app_assoc. by constructor.
Qed.

Lemma glob_strip p n : glob (String "*"%char p) n ↔ glob (String "*"%char (strip_stars p)) n.
Proof.
  revert n. induction p as [|c p IH]; intros n; [done|].
  destruct (decide (c = "*"%char)) as [->|Hc].
  - cbn [strip_stars]. rewrite <-IH. split.
    + intros H. inversion H as [|p' n' pre Hp| |]; subst; [|done]. by apply glob_star_suffix.
    + intros H. change n with ("" +:+ n). by constructor.
  - assert (strip_stars (String c p) = String c p) as ->; [|done].
    unfold strip_stars. destruct c as [[] [] [] [] [] [] [] []]; done.
Qed.

Lemma strip_stars_len p : (str_len (strip_stars p) ≤ str_len p)%nat.
Proof.
  induction p as [|c p IH]; [done|]. destruct (decide (c = "*"%char)) as [->|Hc].
  - cbn [strip_stars]. unfold str_len in *. simpl. lia.
  - assert (strip_stars (String c p) = String c p) as ->; [|done].
    destruct c as [[] [] [] [] [] [] [] []]; done.
Qed.

(** The three cases of one turn of the loop. *)
Lemma match_star fuel p n :
  matchGlobRec (S fuel) (String "*"%char p) n =
    if bool_decide (strip_stars p = "") then true else existsb (matchGlobRec fuel (strip_stars p)) (suffixes n).
Proof. done. Qed.
Lemma match_any fuel p n :
  matchGlobRec (S fuel) (String "?"%char p) n = match n with "" => false | String _ n => matchGlobRec fuel p n end.
Proof. done. Qed.
Lemma match_char fuel c p n :
  c ≠ "*"%char → c ≠ "?"%char →
  matchGlobRec (S fuel) (String c p) n =
    match n with "" => false | String d n => if Ascii.eqb c d then matchGlobRec fuel p n else false end.
Proof. intros H1 H2. destruct c as [[] [] [] [] [] [] [] []]; done. Qed.

Lemma matchGlobRec_spec fuel p n :
  (str_len p < fuel)%nat → matchGlobRec fuel p n = true ↔ glob p n.
Proof.
  revert p n. induction fuel as [|fuel IH]; intros p n Hf; [lia|].
  destruct p as [|c p].
  { cbn [matchGlobRec]. rewrite bool_decide_eq_true. split; [intros ->; constructor|by inversion 1]. }
  assert (str_len p < fuel)%nat as Hp by (unfold str_len in *; simpl in Hf; lia).
  destruct (decide (c = "*"%char)) as [->|Hs]; [|destruct (decide (c = "?"%char)) as [->|Hq]].
  - rewrite match_star, glob_strip. pose proof (strip_stars_len p) as Hl.
    set (p' := strip_stars p) in *. case_bool_decide as Hnil.
    + rewrite Hnil. split; [|done]. intros _. rewrite <-(str_app_nil n). constructor. constructor.
    + rewrite existsb_exists. setoid_rewrite <-list_elem_of_In. split.
      * intros (s & [pre ->]%suffixes_spec & Hm). constructor. apply IH; [lia|done].
      * intros H. inversion H as [|p2 n2 pre Hg| |]; subst; [|done].
        exists n2. split; [apply suffixes_spec; by exists pre|]. apply IH; [lia|done].
  - rewrite match_any. destruct n as [|d n].
    + split; [done|]. intros H. inversion H; subst; done.
    + rewrite IH by done. split; [by constructor|]. intros H. inversion H; subst; done.
  - rewrite match_char by done. destruct n as [|d n].
    + split; [done|]. intros H. inversion H; subst; done.
    + destruct (Ascii.eqb_spec c d) as [->|Hne].
      * rewrite IH by done. split; [by constructor|]. intros H. inversion H; subst; done.
      * split; [done|]. intros H. inversion H; subst; done.
Qed.

(** C26. Pattern matching is what its comment promises: a pattern matches a name
    exactly when the name is the pattern with each star replaced by any text,
    each question mark by one character, and the rest literal.  The recursion
    terminates within the length of the pattern. *)
Theorem matchGlob_correct p n : matchGlob p n = true ↔ glob p n.
Proof. apply matchGlobRec_spec. lia. Qed.

(** ** Round robin *)

Lemma sub_next_ready l :
  conns l ≠ [] → ∃ c, sub_next l = (mkSubList (conns l) (u64 (cursor l + 1)), Some c) ∧ c ∈ conns l.
Proof.
  intros Hne. unfold sub_next. assert (0 < length (conns l))%nat by (destruct (conns l); simpl; [done|lia]).
  destruct (Z.eqb_spec (Z.of_nat (length (conns l))) 0); [lia|].
  set (i := Z.to_nat _). destruct (lookup_lt_is_Some_2 (conns l) i) as [c Hc].
  { unfold i. pose proof (Z.mod_pos_bound (u64 (u64 (cursor l + 1) - 1)) (Z.of_nat (length (conns l))) ltac:(lia)). lia. }
  exists c. rewrite Hc. split; [done|]. by eapply list_elem_of_lookup_2.
Qed.

Lemma sub_next_none l : (sub_next l).2 = None ↔ conns l = [].
Proof.
  split.
  - intros H. destruct (decide (conns l = [])) as [|Hne]; [done|].
    destruct (sub_next_ready l Hne) as (c & Hn & _). by rewrite Hn in H.
  - intros H. unfold sub_next. by rewrite H.
Qed.

(** The subscribers chosen by [n] deliveries in a row. *)
Fixpoint deliveries (n : nat) (l : subList) : list nat :=
  match n with
  | O => []
  | S n => let '(l, c) := sub_next l in option_list c ++ deliveries n l
  end.

Lemma deliveries_lookup n l i :
  conns l ≠ [] → 0 ≤ cursor l → cursor l + Z.of_nat n < 2 ^ 64 → (i < n)%nat →
  deliveries n l !! i = conns l !! Z.to_nat ((cursor l + Z.of_nat i) `mod` Z.of_nat (length (conns l))).
Proof.
  revert l i. induction n as [|n IH]; intros l i Hne H0 Hc Hi; [lia|].
  assert (0 < length (conns l))%nat as Hlen by (destruct (conns l); simpl; [done|lia]).
  cbn [deliveries]. destruct (sub_next_ready l Hne) as (c & Hn & _). rewrite Hn. cbn [option_list app].
  destruct i as [|i]; simpl.
  - unfold sub_next in Hn. destruct (Z.eqb_spec (Z.of_nat (length (conns l))) 0); [lia|].
    injection Hn as Hn. rewrite <-Hn, !wrap_u_small by (rewrite ?wrap_u_small; lia).
    by replace (cursor l + 1 - 1) with (cursor l + Z.of_nat 0) by lia.
  - rewrite IH; simpl; try done; rewrite ?wrap_u_small by lia; try lia.
    by replace (cursor l + 1 + Z.of_nat i) with (cursor l + Z.of_nat (S i)) by lia.
Qed.

(** Deliveries are spread evenly: among any [n] deliveries in a row to a list
    of [n] subscribers each subscriber gets exactly one (a subscription made
    twice counts twice). *)
Theorem round_robin l :
  0 ≤ cursor l → cursor l + Z.of_nat (length (conns l)) < 2 ^ 64 →
  deliveries (length (conns l)) l ≡ₚ conns l.
Proof.
  intros H0 Hc. destruct (decide (conns l = [])) as [Hnil|Hne]; [by rewrite Hnil|].
  assert (0 < length (conns l))%nat as Hlen by (destruct (conns l); simpl; [done|lia]).
  set (k := Z.to_nat (cursor l `mod` Z.of_nat (length (conns l)))).
  assert (k < length (conns l))%nat as Hk.
  { unfold k. pose proof (Z.mod_pos_bound (cursor l) (Z.of_nat (length (conns l))) ltac:(lia)). lia. }
  assert (deliveries (length (conns l)) l = drop k (conns l) ++ take k (conns l)) as ->.
  - assert (length (deliveries (length (conns l)) l) = length (conns l)) as Hdl.
    { clear -Hne. generalize (length (conns l)) as n. intros n. revert l Hne. induction n as [|n IH]; intros l Hne; [done|].
      cbn [deliveries]. destruct (sub_next_ready l Hne) as (c & -> & _). simpl. by rewrite IH. }
    apply list_eq_same_length with (length (conns l)); [by rewrite length_app, length_drop, length_take; lia|done|].
    intros i x y Hi Hx Hy. rewrite deliveries_lookup in Hx by done.
    assert (conns l !! Z.to_nat ((cursor l + Z.of_nat i) `mod` Z.of_nat (length (conns l))) = Some y); [|congruence].
    rewrite <-Hy. rewrite <-Zplus_mod_idemp_l.
    assert (cursor l `mod` Z.of_nat (length (conns l)) = Z.of_nat k) as ->.
    { unfold k. rewrite Z2Nat.id; [done|]. apply Z.mod_pos_bound. lia. }
    destruct (decide (k + i < length (conns l))%nat) as [Hlt|Hge].
    + rewrite Z.mod_small by lia. rewrite lookup_app_l by (rewrite length_drop; lia).
      rewrite lookup_drop. f_equal. lia.
    + rewrite lookup_app_r by (rewrite length_drop; lia). rewrite length_drop.
      rewrite lookup_take_lt by lia. f_equal.
      rewrite <-(Z.mod_add _ (-1)) by lia. rewrite Z.mod_small by lia. lia.
  - rewrite Permutation_app_comm. by rewrite take_drop.
Qed.

Lemma round_robin_witness :
  let l := mkSubList [7; 8; 9]%nat 4 in
  (0 ≤ cursor l ∧ cursor l + Z.of_nat (length (conns l)) < 2 ^ 64) ∧
  deliveries 3 l = [8; 9; 7]%nat ∧ deliveries (length (conns l)) l ≡ₚ conns l.
Proof. split; [by_eval|]. split; [done|]. by apply round_robin; by_eval. Defined.

(** ** The registry as a set of subscriptions *)

Inductive reg_op :=
| RAdd (k : subKey) (conn : nat)
| RRemove (conn : nat)
| RNext (ord : sub_order) (ns q group : string).

Definition reg_step (r : subRegistry) (op : reg_op) : subRegistry :=
  match op with
  | RAdd k conn => reg_add k conn r
  | RRemove conn => reg_remove conn r
  | RNext ord ns q g => (reg_next ord ns q g r).1
  end.

(** What should be there: the subscriptions made by connections that have not
    gone since. *)
Definition sub_step (S : list (nat * subKey)) (op : reg_op) : list (nat * subKey) :=
  match op with
  | RAdd k conn => S ++ [(conn, k)]
  | RRemove conn => filter (λ s, s.1 ≠ conn) S
  | RNext _ _ _ _ => S
  end.

Definition conns_in (k : subKey) (m : gmap subKey subList) : list nat := conns (default new_subList (m !! k)).
Definition conns_at (r : subRegistry) (k : subKey) : list nat :=
  conns_in k (if wildcard_key k then r_wildcard r else r_exact r).

Definition entry (k : subKey) : subKeyEntry := mkEntry k (wildcard_key k).

Record reg_inv (r : subRegistry) (S : list (nat * subKey)) : Prop := {
  rv_exact : ∀ k l, r_exact r !! k = Some l → wildcard_key k = false;
  rv_wild : ∀ k l, r_wildcard r !! k = Some l → wildcard_key k = true;
  rv_conns : ∀ k, conns_at r k = (filter (λ s, s.2 = k) S).*1;
  rv_subs : ∀ c, default [] (connSubs r !! c) = entry <$> (filter (λ s, s.1 = c) S).*2;
}.

Lemma conns_in_add k c m k' :
  conns_in k' (add_to k c m) = if decide (k' = k) then conns_in k' m ++ [c] else conns_in k' m.
Proof.
  unfold conns_in, add_to. case_decide as Hk; [rewrite Hk, lookup_insert_eq; done|].
  by rewrite lookup_insert_ne.
Qed.

Lemma conns_in_remove k c m k' :
  conns_in k' (remove_from k c m) = if decide (k' = k) then remove_first c (conns_in k' m) else conns_in k' m.
Proof.
  unfold conns_in, remove_from. destruct (m !! k) as [l|] eqn:E.
  - unfold sub_remove. case_bool_decide as Hnil; case_decide as Hk.
    + rewrite Hk, lookup_delete_eq, E. simpl. by rewrite Hnil.
    + by rewrite lookup_delete_ne.
    + by rewrite Hk, lookup_insert_eq, E.
    + by rewrite lookup_insert_ne.
  - case_decide as Hk; [|done]. by rewrite Hk, E.
Qed.

Lemma remove_from_keys k c m k' : is_Some (remove_from k c m !! k') → is_Some (m !! k').
Proof.
  unfold remove_from. destruct (m !! k) as [l|] eqn:E; [|done]. unfold sub_remove. case_bool_decide.
  - rewrite lookup_delete_is_Some. tauto.
  - rewrite lookup_insert_is_Some'. intros [->|?]; [by eexists|done].
Qed.

Lemma reg_add_inv k c r S : reg_inv r S → reg_inv (reg_add k c r) (S ++ [(c, k)]).
Proof.
  intros [He Hw Hc Hs]. unfold reg_add.
  assert (∀ c', default [] (<[c := default [] (connSubs r !! c) ++ [entry k]]> (connSubs r) !! c')
    = entry <$> (filter (λ s, s.1 = c') (S ++ [(c, k)])).*2) as Hs'.
  { intros c'. rewrite filter_app, filter_cons, filter_nil. simpl.
    destruct (decide (c = c')) as [->|Hne].
    - rewrite lookup_insert_eq. cbn [default]. by rewrite Hs, !fmap_app.
    - rewrite lookup_insert_ne by done. by rewrite Hs, app_nil_r. }
  assert (∀ k', (filter (λ s, s.2 = k') (S ++ [(c, k)])).*1
    = (filter (λ s, s.2 = k') S).*1 ++ (if decide (k' = k) then [c] else [])) as Hf.
  { intros k'. rewrite filter_app, filter_cons, filter_nil, fmap_app. simpl. f_equal.
    destruct (decide (k = k')), (decide (k' = k)); try done; congruence. }
  destruct (wildcard_key k) eqn:Ek; split; simpl; try done.
  - intros k' l. unfold add_to. intros [[<- _]|[_ ?]]%lookup_insert_Some; [done|by eapply Hw].
  - intros k'. rewrite Hf, <-Hc. unfold conns_at. simpl. destruct (wildcard_key k') eqn:Ek'.
    + rewrite conns_in_add. case_decide; [done|by rewrite app_nil_r].
    + rewrite decide_False by (intros ->; congruence). by rewrite app_nil_r.
  - intros c'. unfold entry in Hs' at 1. rewrite Ek in Hs'. apply Hs'.
  - intros k' l. unfold add_to. intros [[<- _]|[_ ?]]%lookup_insert_Some; [done|by eapply He].
  - intros k'. rewrite Hf, <-Hc. unfold conns_at. simpl. destruct (wildcard_key k') eqn:Ek'.
    + rewrite decide_False by (intros ->; congruence). by rewrite app_nil_r.
    + rewrite conns_in_add. case_decide; [done|by rewrite app_nil_r].
  - intros c'. unfold entry in Hs' at 1. rewrite Ek in Hs'. apply Hs'.
Qed.

(** Taking the first occurrence out as often as there is one. *)
Definition count_in (c : nat) (l : list nat) : nat := length (filter (λ x, x = c) l).

Lemma remove_first_all c l n :
  (count_in c l ≤ n)%nat → Nat.iter n (remove_first c) l = filter (λ x, x ≠ c) l.
Proof.
  unfold count_in. revert l. induction n as [|n IH]; intros l Hn.
  - simpl. rewrite <-(filter_all (λ x, x ≠ c) l) at 1; [done|]. apply Forall_forall. intros x Hx ->.
    assert (c ∈ filter (λ x, x = c) l) as Hin by (by apply list_elem_of_filter).
    destruct (filter (λ x, x = c) l); [by apply elem_of_nil in Hin|simpl in Hn; lia].
  - rewrite Nat.iter_succ_r, IH.
    + clear. induction l as [|x l IH]; [done|]. simpl. destruct (Nat.eqb_spec x c) as [->|Hne].
      * rewrite filter_cons_False by tauto. done.
      * by rewrite !filter_cons_True, IH by done.
    + clear IH. induction l as [|x l IH]; simpl; [lia|]. destruct (Nat.eqb_spec x c) as [->|Hne].
      * rewrite filter_cons_True in Hn by done. simpl in Hn. lia.
      * rewrite filter_cons_False in Hn |- * by done. auto.
Qed.

Lemma remove_entries c ks r k :
  conns_at (foldl (remove_entry c) r (entry <$> ks)) k
  = Nat.iter (length (filter (λ k', k' = k) ks)) (remove_first c) (conns_at r k).
Proof.
  revert r. induction ks as [|k0 ks IH]; intros r; [done|]. csimpl. rewrite IH. clear IH.
  assert (conns_at (remove_entry c r (entry k0)) k
    = if decide (k = k0) then remove_first c (conns_at r k) else conns_at r k) as ->.
  { unfold conns_at, remove_entry. simpl. destruct (wildcard_key k0) eqn:E0, (wildcard_key k) eqn:E; simpl;
      rewrite ?conns_in_remove; try done; rewrite decide_False; done || (intros ->; congruence). }
  rewrite filter_cons. destruct (decide (k = k0)) as [->|Hne].
  - rewrite decide_True by done. simpl. by rewrite <-Nat.iter_succ_r.
  - rewrite decide_False by congruence. done.
Qed.

Lemma remove_entries_frame c es r :
  let r' := foldl (remove_entry c) r es in
  connSubs r' = connSubs r ∧ (∀ k, is_Some (r_exact r' !! k) → is_Some (r_exact r !! k)) ∧
  (∀ k, is_Some (r_wildcard r' !! k) → is_Some (r_wildcard r !! k)).
Proof.
  revert r. induction es as [|e es IH]; intros r; [done|]. cbn [foldl].
  destruct (IH (remove_entry c r e)) as (-> & H1 & H2). unfold remove_entry in *.
  destruct (se_wildcard e); simpl in *; split_and!; try done; intros k Hk.
  - by eapply remove_from_keys, H2.
  - by eapply remove_from_keys, H1.
Qed.

Lemma filter_comm {A} (P Q : A → Prop) `{∀ x, Decision (P x)} `{∀ x, Decision (Q x)} (l : list A) :
  filter P (filter Q l) = filter Q (filter P l).
Proof.
  induction l as [|x l IH]; [done|]. rewrite !filter_cons.
  destruct (decide (Q x)), (decide (P x)); rewrite ?filter_cons_True, ?filter_cons_False by done; congruence.
Qed.

Lemma filter_fmap_fst {A} (c : nat) (S : list (nat * A)) :
  filter (λ x, x ≠ c) S.*1 = (filter (λ s, s.1 ≠ c) S).*1 ∧ filter (λ x, x = c) S.*1 = (filter (λ s, s.1 = c) S).*1.
Proof.
  induction S as [|[x a] S [IH1 IH2]]; [done|]. csimpl. rewrite !filter_cons. simpl.
  destruct (decide (x ≠ c)), (decide (x = c)); simpl; rewrite ?IH1, ?IH2; done || tauto.
Qed.

Lemma filter_fmap_snd (k : subKey) (S : list (nat * subKey)) :
  filter (λ x, x = k) S.*2 = (filter (λ s, s.2 = k) S).*2.
Proof.
  induction S as [|[x a] S IH]; [done|]. csimpl. rewrite !filter_cons. simpl.
  destruct (decide (a = k)); simpl; by rewrite IH.
Qed.

Lemma reg_remove_inv c r S : reg_inv r S → reg_inv (reg_remove c r) (filter (λ s, s.1 ≠ c) S).
Proof.
  intros [He Hw Hc Hs]. unfold reg_remove. rewrite Hs.
  set (r0 := mkRegistry _ _ _). set (ks := (filter (λ s, s.1 = c) S).*2).
  destruct (remove_entries_frame c (entry <$> ks) r0) as (Hsub & Hex & Hwi). split.
  - intros k l Hk. destruct (Hex k) as [l' Hl']; [by eexists|]. by eapply He.
  - intros k l Hk. destruct (Hwi k) as [l' Hl']; [by eexists|]. by eapply Hw.
  - intros k. rewrite remove_entries. change (conns_at r0 k) with (conns_at r k). rewrite Hc.
    rewrite remove_first_all.
    + rewrite (proj1 (filter_fmap_fst c _)). by rewrite filter_comm.
    + unfold count_in, ks. rewrite (proj2 (filter_fmap_fst c _)), filter_fmap_snd, !length_fmap.
      by rewrite filter_comm.
  - intros c'. rewrite Hsub. simpl. destruct (decide (c = c')) as [->|Hne].
    + rewrite lookup_delete_eq. cbn [default]. rewrite filter_comm, filter_none; [done|].
      apply Forall_forall. intros s [H1 _]%list_elem_of_filter. tauto.
    + rewrite lookup_delete_ne by done. rewrite Hs, filter_comm, (filter_all (λ s, s.1 ≠ c)); [done|].
      apply Forall_forall. intros s [H1 _]%list_elem_of_filter. congruence.
Qed.

(** A delivery only moves a cursor. *)
Lemma conns_in_cursor k l c m k' :
  m !! k = Some l → conns_in k' (<[k := mkSubList (conns l) c]> m) = conns_in k' m.
Proof.
  intros Hk. unfold conns_in. destruct (decide (k = k')) as [<-|Hne].
  - by rewrite lookup_insert_eq, Hk.
  - by rewrite lookup_insert_ne.
Qed.

(** The subscription [k] is for messages of this group. *)
Definition serves (ns q group : string) (k : subKey) : Prop :=
  if wildcard_key k then covers ns q group k = true else k = mkSubKey ns q group.

Lemma scan_wildcards_spec ns q g kls :
  match scan_wildcards ns q g kls with
  | Some (k, l', c) => ∃ l, (k, l) ∈ kls ∧ covers ns q g k = true ∧ c ∈ conns l ∧
      l' = mkSubList (conns l) (u64 (cursor l + 1))
  | None => ∀ k l, (k, l) ∈ kls → covers ns q g k = true → conns l = []
  end.
Proof.
  induction kls as [|[k l] kls IH]; simpl; [intros k l Hin; by apply elem_of_nil in Hin|].
  assert (match scan_wildcards ns q g kls with
    | Some (k0, l', c) => ∃ l0, (k0, l0) ∈ (k, l) :: kls ∧ covers ns q g k0 = true ∧ c ∈ conns l0 ∧
        l' = mkSubList (conns l0) (u64 (cursor l0 + 1))
    | None => (covers ns q g k = true → conns l = []) →
        ∀ k0 l0, (k0, l0) ∈ (k, l) :: kls → covers ns q g k0 = true → conns l0 = []
    end) as Hrest.
  { destruct (scan_wildcards ns q g kls) as [[[k0 l'] c]|].
    - destruct IH as (l0 & Hin & ?). exists l0. split; [by right|done].
    - intros Hhd k0 l0 [[= -> ->]|Hin]%elem_of_cons Hcov; [auto|by eapply IH]. }
  destruct (covers ns q g k) eqn:Ek.
  - destruct (decide (conns l = [])) as [Hnil|Hne].
    + destruct (sub_next l) as [l1 o] eqn:E. pose proof (proj2 (sub_next_none l) Hnil) as Hn. rewrite E in Hn.
      simpl in Hn. subst o. destruct (scan_wildcards ns q g kls) as [[[? ?] ?]|]; [done|]. by apply Hrest.
    + destruct (sub_next_ready l Hne) as (c & -> & Hc). exists l. split; [by left|done].
  - destruct (scan_wildcards ns q g kls) as [[[? ?] ?]|]; [done|]. by apply Hrest.
Qed.

Section inv.
Context (r : subRegistry) (S : list (nat * subKey)) (Hinv : reg_inv r S).

Lemma elem_of_conns k c : c ∈ conns_at r k ↔ (c, k) ∈ S.
Proof.
  rewrite (rv_conns r S Hinv). rewrite list_elem_of_fmap. split.
  - intros ([c' k'] & -> & [Hk Hin]%list_elem_of_filter). simpl in *. by subst.
  - intros Hin. exists (c, k). split; [done|]. by apply list_elem_of_filter.
Qed.

Lemma wild_conns k l : r_wildcard r !! k = Some l → conns_at r k = conns l.
Proof. intros Hk. unfold conns_at, conns_in. rewrite (rv_wild r S Hinv k l Hk). by rewrite Hk. Qed.

Lemma exact_conns k l : r_exact r !! k = Some l → conns_at r k = conns l.
Proof. intros Hk. unfold conns_at, conns_in. rewrite (rv_exact r S Hinv k l Hk). by rewrite Hk. Qed.

Lemma subscribed_list k c : (c, k) ∈ S →
  ∃ l, (if wildcard_key k then r_wildcard r else r_exact r) !! k = Some l ∧ c ∈ conns l.
Proof.
  intros Hin%elem_of_conns. unfold conns_at, conns_in in Hin.
  destruct ((if wildcard_key k then r_wildcard r else r_exact r) !! k) as [l|]; [by exists l|].
  by apply elem_of_nil in Hin.
Qed.

Lemma reg_has_spec ord ns q g : reg_has ord ns q g r = true ↔ ∃ s, s ∈ S ∧ serves ns q g s.2.
Proof.
  unfold reg_has. rewrite orb_true_iff, existsb_exists. setoid_rewrite <-list_elem_of_In. split.
  - intros [Hex|([k l] & Hin & [Hcov Hany]%andb_true_iff)].
    + destruct (r_exact r !! mkSubKey ns q g) as [l|] eqn:E; [|done].
      unfold hasAny in Hex. apply negb_true_iff, bool_decide_eq_false in Hex.
      destruct (conns l) as [|c cs] eqn:El; [done|]. exists (c, mkSubKey ns q g). split.
      * apply elem_of_conns. rewrite (exact_conns _ _ E), El. by left.
      * unfold serves. simpl. by rewrite (rv_exact r S Hinv _ _ E).
    + rewrite sub_perm in Hin. apply elem_of_map_to_list in Hin.
      unfold hasAny in Hany. apply negb_true_iff, bool_decide_eq_false in Hany.
      simpl in *. destruct (conns l) as [|c cs] eqn:El; [done|]. exists (c, k). split.
      * apply elem_of_conns. rewrite (wild_conns _ _ Hin), El. by left.
      * unfold serves. simpl. by rewrite (rv_wild r S Hinv _ _ Hin).
  - intros ([c k] & Hin & Hserve). destruct (subscribed_list k c Hin) as (l & Hl & Hc).
    unfold serves in Hserve. simpl in Hserve.
    assert (hasAny l = true) as Hany.
    { unfold hasAny. rewrite bool_decide_eq_false_2; [done|]. intros Hnil. rewrite Hnil in Hc. by apply elem_of_nil in Hc. }
    destruct (wildcard_key k) eqn:Ek.
    + right. exists (k, l). simpl. rewrite sub_perm, elem_of_map_to_list, Hserve, Hany. done.
    + left. by rewrite <-Hserve, Hl.
Qed.

Lemma reg_next_spec ord ns q g :
  match (reg_next ord ns q g r).2 with
  | Some c => ∃ k, (c, k) ∈ S ∧ serves ns q g k ∧
      (wildcard_key k = true → conns_in (mkSubKey ns q g) (r_exact r) = [])
  | None => ¬ ∃ s, s ∈ S ∧ serves ns q g s.2
  end ∧ reg_inv (reg_next ord ns q g r).1 S.
Proof.
  unfold reg_next. set (key := mkSubKey ns q g).
  pose proof (scan_wildcards_spec ns q g (sub_range ord (r_wildcard r))) as Hscan.
  set (wild := match scan_wildcards ns q g (sub_range ord (r_wildcard r)) with Some _ => _ | None => _ end).
  assert (conns_in key (r_exact r) = [] →
    match wild.2 with
    | Some c => ∃ k, (c, k) ∈ S ∧ serves ns q g k ∧ (wildcard_key k = true → conns_in key (r_exact r) = [])
    | None => ¬ ∃ s, s ∈ S ∧ serves ns q g s.2
    end ∧ reg_inv wild.1 S) as Hwild.
  { intros Hnil. unfold wild. clear wild.
    destruct (scan_wildcards ns q g (sub_range ord (r_wildcard r))) as [[[k l'] c]|]; simpl.
    - destruct Hscan as (l & Hin & Hcov & Hc & ->). rewrite sub_perm in Hin. apply elem_of_map_to_list in Hin.
      pose proof (rv_wild r S Hinv _ _ Hin) as Hk. split.
      + exists k. split; [apply elem_of_conns; by rewrite (wild_conns _ _ Hin)|]. unfold serves. by rewrite Hk.
      + destruct Hinv as [H1 H2 H3 H4]. split; simpl; try done.
        * intros k' l0 [[<- _]|[_ ?]]%lookup_insert_Some; [done|by eapply H2].
        * intros k'. rewrite <-H3. unfold conns_at. simpl.
          destruct (wildcard_key k'); [by rewrite (conns_in_cursor k l)|done].
    - split; [|done]. intros ([c k] & Hin & Hserve). destruct (subscribed_list k c Hin) as (l & Hl & Hc).
      unfold serves in Hserve. simpl in Hserve. destruct (wildcard_key k) eqn:Ek.
      + rewrite (Hscan k l) in Hc; [by apply elem_of_nil in Hc| |done]. by rewrite sub_perm, elem_of_map_to_list.
      + unfold conns_in in Hnil. fold key in Hserve. rewrite <-Hserve, Hl in Hnil. simpl in Hnil.
        rewrite Hnil in Hc. by apply elem_of_nil in Hc. }
  destruct (r_exact r !! key) as [l|] eqn:E; [|apply Hwild; unfold conns_in; by rewrite E].
  destruct (decide (conns l = [])) as [Hnil|Hne].
  - destruct (sub_next l) as [l1 o] eqn:En. pose proof (proj2 (sub_next_none l) Hnil) as Hn. rewrite En in Hn.
    simpl in Hn. subst o. apply Hwild. unfold conns_in. by rewrite E.
  - destruct (sub_next_ready l Hne) as (c & -> & Hc). cbn [fst snd]. split.
    + exists key. split; [apply elem_of_conns; by rewrite (exact_conns _ _ E)|].
      unfold serves. by rewrite (rv_exact r S Hinv _ _ E).
    + pose proof (rv_exact r S Hinv _ _ E) as Hk. destruct Hinv as [H1 H2 H3 H4]. split; simpl; try done.
      * intros k' l0 [[<- _]|[_ ?]]%lookup_insert_Some; [done|by eapply H1].
      * intros k'. rewrite <-H3. unfold conns_at. simpl.
        destruct (wildcard_key k'); [done|by rewrite (conns_in_cursor key l)].
Qed.
End inv.

Lemma reg_run_inv ops : reg_inv (foldl reg_step newSubRegistry ops) (foldl sub_step [] ops).
Proof.
  assert (reg_inv newSubRegistry []) as H0.
  { split; simpl; try (intros k l; by rewrite lookup_empty).
    - intros k. unfold conns_at, conns_in. simpl. by destruct (wildcard_key k); rewrite lookup_empty.
    - intros c. by rewrite lookup_empty. }
  revert H0. generalize newSubRegistry as r. generalize (@nil (nat * subKey)) as S.
  induction ops as [|op ops IH]; intros S r Hr; [done|]. cbn [foldl]. apply IH.
  destruct op; simpl; [by apply reg_add_inv|by apply reg_remove_inv|by apply reg_next_spec].
Qed.

(** C25. The registry implements the set of live subscriptions: after any sequence
    of subscriptions, disconnections and deliveries, a group is reported to have
    a subscriber exactly when a live subscription names it or matches it, a
    delivery goes to such a subscriber whenever there is one, to one that named
    the group in preference to one that matched it, and never to a connection
    that has gone. *)
Theorem registry_refines ops ord ns q g :
  let r := foldl reg_step newSubRegistry ops in
  let live := foldl sub_step [] ops in
  (reg_has ord ns q g r = true ↔ ∃ s, s ∈ live ∧ serves ns q g s.2) ∧
  match (reg_next ord ns q g r).2 with
  | Some c => ∃ k, (c, k) ∈ live ∧ serves ns q g k ∧
      (wildcard_key k = true → ∀ c', (c', mkSubKey ns q g) ∈ live → wildcard_key (mkSubKey ns q g) = true)
  | None => ¬ ∃ s, s ∈ live ∧ serves ns q g s.2
  end.
Proof.
  intros r live. pose proof (reg_run_inv ops) as Hinv. fold r live in Hinv.
  split; [by apply reg_has_spec|].
  destruct (reg_next_spec r live Hinv ord ns q g) as [Hn _].
  destruct (reg_next ord ns q g r).2 as [c|]; [|done]. destruct Hn as (k & Hin & Hs & Hex).
  exists k. split; [done|]. split; [done|]. intros Hk c' Hin'. specialize (Hex Hk).
  destruct (subscribed_list r live Hinv _ _ Hin') as (l & Hl & Hc).
  destruct (wildcard_key (mkSubKey ns q g)) eqn:E; [done|]. exfalso.
  unfold conns_in in Hex. rewrite Hl in Hex. simpl in Hex. rewrite Hex in Hc. by apply elem_of_nil in Hc.
Qed.
