(* ===== verification/Scheduler.v ===== *)
(** * The scheduler (src/internal/scheduler/scheduler.go)

    The registry of queues, the channel of group activations, the wake-up
    timers and the processing of one activation.  Queues are objects: an
    activation and a timer hold a reference, an index of [s_store], which stays
    valid when the queue is unregistered.  The dispatch function is an
    argument, with the state [B] it works on.  Counters that only feed metrics
    are left out. *)

From stdpp Require Import base gmap list strings.
From Stdlib Require Import ZArith Lia.
From S2P Require Import Prelude Heap Message RateLimit Group GroupInv GroupDrain GroupSettle KeyIndex ConfigIdx Queue QueueInv QueueHist RecoveryInv TimingWheel.
Local Open Scope Z_scope.

Record groupActivation := mkActivation { a_queue : nat; a_group : string }.

(** What a timer does: clear the wake-up [wk_ns] of a group and activate it. *)
Record wake := mkWake { wk_queue : nat; wk_group : string; wk_ns : Z }.

Record Scheduler := mkScheduler {
  s_store : gmap nat Queue;
  s_queues : gmap string nat;
  s_active : list groupActivation;
  s_wheel : TimingWheel;
  s_wakes : list wake;        (** the callbacks of the wheel, by number *)
}.

Definition active_cap : Z := 65536.

Definition NewScheduler : Scheduler :=
  mkScheduler ∅ ∅ [] (NewTimingWheel (10 * millisecond) (Z.to_nat 65536)) [].

Definition set_store (m : gmap nat Queue) (s : Scheduler) : Scheduler :=
  mkScheduler m (s_queues s) (s_active s) (s_wheel s) (s_wakes s).
Definition set_active (l : list groupActivation) (s : Scheduler) : Scheduler :=
  mkScheduler (s_store s) (s_queues s) l (s_wheel s) (s_wakes s).

(** A method call on a queue object. *)
Definition on_queue {A} (p : nat) (f : Queue → Queue * A) (s : Scheduler) : Scheduler * option A :=
  match s_store s !! p with
  | Some q => let '(q, a) := f q in (set_store (<[p := q]> (s_store s)) s, Some a)
  | None => (s, None)
  end.

(** ** Queues *)

Definition RegisterQueue (p : nat) (q : Queue) (s : Scheduler) : Scheduler :=
  mkScheduler (<[p := q]> (s_store s)) (<[queueKey (q_Namespace q) (Name q) := p]> (s_queues s))
    (s_active s) (s_wheel s) (s_wakes s).

Definition UnregisterQueue (ns name : string) (s : Scheduler) : Scheduler :=
  mkScheduler (s_store s) (delete (queueKey ns name) (s_queues s)) (s_active s) (s_wheel s) (s_wakes s).

Definition GetQueue (ns name : string) (s : Scheduler) : option nat := s_queues s !! queueKey ns name.

Definition ListQueues (s : Scheduler) : list nat := (map_to_list (s_queues s)).*2.

(** ** Activation *)

(** [token.TrySchedule()] and [token.Unschedule()] of a group. *)
Definition try_schedule (key : string) (q : Queue) : Queue * bool := with_group key TrySchedule false q.
Definition unschedule (key : string) (q : Queue) : Queue := (with_group key (λ g, (Unschedule g, ())) () q).1.

Definition Activate (p : nat) (key : string) (s : Scheduler) : Scheduler :=
  if bool_decide (key = "") then s
  else match on_queue p (try_schedule key) s with
       | (s, Some true) =>
           if Z.of_nat (length (s_active s)) <? active_cap
           then set_active (s_active s ++ [mkActivation p key]) s
           else (on_queue p (λ q, (unschedule key q, tt)) s).1
       | (s, _) => s
       end.

(** The timer callback: clear the wake-up and activate the group. *)
Definition fire_wake (w : wake) (s : Scheduler) : Scheduler :=
  let s := (on_queue (wk_queue w) (λ q, (with_group (wk_group w) (λ g, (ClearWake (wk_ns w) g, ())) () q)) s).1 in
  Activate (wk_queue w) (wk_group w) s.

(** [scheduleWake]: an earlier or equal wake-up that is already set wins.  The
    compare-and-swap follows the load at once here. *)
Definition set_wake (key : string) (wakeNs : Z) (q : Queue) : Queue * bool :=
  with_group key (λ g,
    let curr := LoadWake g in
    if negb (curr =? 0) && (curr <=? wakeNs) then (g, false) else TrySetWake curr wakeNs g) false q.

Definition scheduleWake (p : nat) (key : string) (now wakeAt : Z) (s : Scheduler) : Scheduler :=
  let wakeNs := UnixNano wakeAt in
  match on_queue p (set_wake key wakeNs) s with
  | (s, Some true) =>
      let delay := if wakeAt - now <? 0 then 0 else wakeAt - now in
      mkScheduler (s_store s) (s_queues s) (s_active s)
        (Add now delay (length (s_wakes s)) (s_wheel s)) (s_wakes s ++ [mkWake p key wakeNs])
  | (s, _) => s
  end.

(** A tick of the wheel runs the callbacks that are due. *)
Definition wheel_tick (now : Z) (s : Scheduler) : Scheduler :=
  let '(w, due) := tick now (s_wheel s) in
  let s := mkScheduler (s_store s) (s_queues s) (s_active s) w (s_wakes s) in
  foldl (λ s t, match s_wakes s !! callback t with Some w => fire_wake w s | None => s end) s due.

Section dispatch.
Context {B : Type} (dispatch : Message → B → B * bool).

(** The loop over the batch: messages handed over, messages left from the first
    refusal on. *)
Fixpoint hand_over (msgs : list Message) (b : B) : B * list Message * list Message :=
  match msgs with
  | [] => (b, [], [])
  | m :: rest =>
      match dispatch m b with
      | (b, true) => let '(b, delivered, undelivered) := hand_over rest b in (b, m :: delivered, undelivered)
      | (b, false) => (b, [], m :: rest)
      end
  end.

(** [processActivation], with the messages that were handed over.  [Panic] is
    recovered by the worker, which starts again. *)
Definition processActivation (ord : range_order Message) (a : groupActivation) (now : Z) (s : Scheduler) (b : B)
    : Scheduler * B * outcome (list Message) :=
  let '(p, key) := (a_queue a, a_group a) in
  let s := (on_queue p (λ q, (unschedule key q, tt)) s).1 in
  match on_queue p (DrainGroup ord key now) s with
  | (s, None) => (s, b, Ret [])
  | (s, Some Panic) => (s, b, Panic)
  | (s, Some (Ret d)) =>
      let '(b, delivered, undelivered) := hand_over (default [] (d_ready d)) b in
      let s := (on_queue p (λ q, (foldl (λ q m, ReturnToPending key (ID m) q) q undelivered, tt)) s).1 in
      if negb (bool_decide (undelivered = [])) then (s, b, Ret delivered)
      else
        (if d_hasWake d then scheduleWake p key now (d_wakeAt d) s
         else if d_stillPending d then Activate p key s
         else s, b, Ret delivered)
  end.

Lemma hand_over_split msgs b :
  let '(_, delivered, undelivered) := hand_over msgs b in msgs = delivered ++ undelivered.
Proof.
  revert b. induction msgs as [|m msgs IH]; intros b; simpl; [done|].
  destruct (dispatch m b) as [b' []]; [|done]. specialize (IH b').
  destruct (hand_over msgs b') as [[b'' delivered] undelivered]. simpl. by rewrite IH.
Qed.
End dispatch.

(** ** One activation *)

Lemma returnToPending_processing id g id' :
  map_get (processing (returnToPending id g).1) id' =
    if decide (id' = id) then None else map_get (processing g) id'.
Proof.
  unfold returnToPending. destruct (map_get (processing g) id) as [m|] eqn:E; simpl.
  - unfold map_get, map_del in *. destruct (processing g) as [p|]; simpl in *; [|done].
    case_decide as H; [rewrite H; apply lookup_delete_eq|by apply lookup_delete_ne].
  - case_decide as H; [by rewrite H|done].
Qed.

(** Returning a list of messages to a group. *)
Lemma return_all key (ms : list Message) q g :
  queue_wf q → GetGroup key q = Some g →
  let q' := foldl (λ q m, ReturnToPending key (ID m) q) q ms in
  queue_wf q' ∧ queue_ids q' ≡ₚ queue_ids q ∧
  ∃ g', GetGroup key q' = Some g' ∧
    ∀ id, map_get (processing g') id = if decide (id ∈ ID <$> ms) then None else map_get (processing g) id.
Proof.
  revert q g. induction ms as [|m ms IH]; intros q g Hwf Hg; cbn [foldl].
  { split; [done|]. split; [done|]. exists g. split; [done|]. intros id. by rewrite decide_False by apply not_elem_of_nil. }
  pose proof (op_post (OpReturn (ID m)) key q Hwf) as [Hwf1 Hids]. rewrite Hg in Hids.
  simpl in Hwf1, Hids. rewrite !app_nil_r in Hids.
  assert (GetGroup key (ReturnToPending key (ID m) q) = Some (returnToPending (ID m) g).1) as Hg1.
  { unfold ReturnToPending. rewrite GetGroup_with by apply Hwf. by rewrite decide_True, Hg. }
  destruct (IH _ _ Hwf1 Hg1) as (H1 & H2 & g' & H3 & H4). split; [done|]. split; [by rewrite H2, Hids|].
  exists g'. split; [done|]. intros id. rewrite H4, returnToPending_processing. csimpl.
  destruct (decide (id ∈ ID <$> ms)) as [Hin|Hin].
  - by rewrite decide_True by (by right).
  - case_decide as Hid.
    + by rewrite decide_True by (rewrite Hid; by left).
    + rewrite decide_False; [done|]. rewrite elem_of_cons. tauto.
Qed.

(** The scheduling flags of a group change, its messages do not. *)
Record keeps (key : string) (q q' : Queue) : Prop := {
  kp_wf : queue_wf q';
  kp_ids : queue_ids q' ≡ₚ queue_ids q;
  kp_group : ∀ g, GetGroup key q = Some g →
    ∃ g', GetGroup key q' = Some g' ∧ group_wf g' ∧ processing g' = processing g ∧ group_ids g' ≡ₚ group_ids g;
}.

Definition flags_only {A} (h : group → group * A) : Prop :=
  ∀ g, ∃ f w, (h g).1 = set_isScheduled f (set_wakeScheduledAt w g).

Lemma with_flags {A} key (h : group → group * A) d q :
  queue_wf q → flags_only h → keeps key q (with_group key h d q).1.
Proof.
  intros Hwf Hh.
  assert (∀ g, group_wf g → group_wf (h g).1) as Hgw.
  { intros g [H1 H2 H3 H4 H5 H6 H7 H8 H9]. destruct (Hh g) as (f & w & ->). by constructor. }
  split.
  - apply with_group_wf; [done|]. intros g _ Hg. split; [by apply Hgw|]. by destruct (Hh g) as (f & w & ->).
  - unfold queue_ids. fold (ids_of (flat q)) (ids_of (flat (with_group key h d q).1)).
    destruct (with_group_flat key h d q (qw_shards q Hwf)) as [-> _].
    destruct (flat q !! key) as [g|] eqn:E; [|done].
    rewrite ids_of_update, (ids_of_lookup _ _ _ E). by destruct (Hh g) as (f & w & ->).
  - intros g Hg. exists (h g).1. rewrite GetGroup_with by apply Hwf. rewrite decide_True, Hg by done.
    destruct (qw_group q Hwf key g Hg) as [Hw _]. split; [done|]. split; [by apply Hgw|].
    by destruct (Hh g) as (f & w & ->).
Qed.

Lemma flags_TrySchedule : flags_only TrySchedule.
Proof.
  intros g. exists (isScheduled (TrySchedule g).1), (wakeScheduledAt g). unfold TrySchedule.
  by destruct g as [?????????[]?]; simpl; destruct (_ =? 0).
Qed.
Lemma flags_Unschedule : flags_only (λ g, (Unschedule g, ())).
Proof. intros g. exists 0, (wakeScheduledAt g). by destruct g. Qed.
Lemma flags_set_wake wakeNs : flags_only (λ g,
    let curr := LoadWake g in
    if negb (curr =? 0) && (curr <=? wakeNs) then (g, false) else TrySetWake curr wakeNs g).
Proof.
  intros g. unfold LoadWake, TrySetWake. rewrite Z.eqb_refl.
  destruct (negb _ && _); [exists (isScheduled g), (wakeScheduledAt g)|exists (isScheduled g), wakeNs]; by destruct g.
Qed.

(** The object at [p] of the store, after a step that keeps its messages. *)
Definition store_keeps (p : nat) (key : string) (s s' : Scheduler) : Prop :=
  ∀ q, s_store s !! p = Some q → queue_wf q → ∃ q', s_store s' !! p = Some q' ∧ keeps key q q'.

Lemma keeps_refl key q : queue_wf q → keeps key q q.
Proof. intros H. split; [done|done|]. intros g Hg. exists g. split_and!; try done. by apply (qw_group q H key). Qed.

Lemma keeps_trans key q q' q'' : keeps key q q' → keeps key q' q'' → keeps key q q''.
Proof.
  intros [H1 H2 H3] [H4 H5 H6]. split; [done|by rewrite H5|]. intros g Hg.
  destruct (H3 g Hg) as (g' & Hg' & _ & Hp & Hi). destruct (H6 g' Hg') as (g'' & ? & ? & Hp' & Hi').
  exists g''. split_and!; try done; [congruence|by rewrite Hi'].
Qed.

Lemma store_keeps_flags {A} p key (h : group → group * A) d s :
  flags_only h → store_keeps p key s (on_queue p (with_group key h d) s).1.
Proof.
  intros Hh q Hq Hwf. unfold on_queue. rewrite Hq.
  pose proof (with_flags key h d q Hwf Hh) as Hk. destruct (with_group key h d q) as [q' a].
  exists q'. split; [|done]. simpl. apply lookup_insert_eq.
Qed.

Lemma store_keeps_trans p key s s' s'' : store_keeps p key s s' → store_keeps p key s' s'' → store_keeps p key s s''.
Proof.
  intros H1 H2 q Hq Hwf. destruct (H1 q Hq Hwf) as (q' & Hq' & Hk).
  destruct (H2 q' Hq' (kp_wf _ _ _ Hk)) as (q'' & Hq'' & Hk'). exists q''. split; [done|]. by eapply keeps_trans.
Qed.

Lemma store_keeps_refl p key s s' : s_store s' = s_store s → store_keeps p key s s'.
Proof. intros E q Hq Hwf. exists q. rewrite E. split; [done|]. by apply keeps_refl. Qed.

Lemma unschedule_keeps p key s : store_keeps p key s (on_queue p (λ q, (unschedule key q, tt)) s).1.
Proof.
  intros q Hq Hwf. unfold on_queue. rewrite Hq. simpl. rewrite lookup_insert_eq. eexists. split; [done|].
  apply with_flags; [done|apply flags_Unschedule].
Qed.

Lemma Activate_keeps p key s : store_keeps p key s (Activate p key s).
Proof.
  unfold Activate. case_bool_decide; [by apply store_keeps_refl|].
  pose proof (store_keeps_flags p key TrySchedule false s flags_TrySchedule) as Hk.
  unfold try_schedule. destruct (on_queue p (with_group key TrySchedule false) s) as [s1 [[]|]]; simpl in Hk; try done.
  destruct (_ <? _).
  - eapply store_keeps_trans; [exact Hk|]. by apply store_keeps_refl.
  - eapply store_keeps_trans; [exact Hk|apply unschedule_keeps].
Qed.

Lemma scheduleWake_keeps p key now w s : store_keeps p key s (scheduleWake p key now w s).
Proof.
  unfold scheduleWake, set_wake.
  pose proof (store_keeps_flags p key _ false s (flags_set_wake (UnixNano w))) as Hk.
  by destruct (on_queue p _ s) as [s1 [[]|]].
Qed.

(** The messages a drain hands out are in flight in the group it leaves. *)
Lemma drain_in_flight ord now key q g :
  queue_wf q → GetGroup key q = Some g →
  ∃ q' g' d, DrainGroup ord key now q = (q', Ret d) ∧ queue_wf q' ∧ queue_ids q' ≡ₚ queue_ids q ∧
    GetGroup key q' = Some g' ∧ group_wf g' ∧
    (∀ m, m ∈ default [] (d_ready d) → map_get (processing g') (ID m) = Some m) ∧
    NoDup (ID <$> default [] (d_ready d)) ∧
    (∀ id m, map_get (processing g') id = Some m → m ∈ default [] (d_ready d) ∨ m ∈ inflight g).
Proof.
  intros Hwf Hg. pose proof (op_post (OpDrain ord now) key q Hwf) as [Hwf' Hids].
  destruct (qw_group q Hwf key g Hg) as [Hgw _].
  destruct (drainRound_post ord now g Hgw) as (g1 & w & es & ds & g' & ms & d & Hpr & Hd & Hp & Hr).
  assert (DrainGroup ord key now q = (put_group key g' q, Ret d)) as Heq.
  { unfold DrainGroup, drainGroup, with_group. by rewrite Hg, Hd. }
  rewrite Hg in Hids. cbn [run_op op_events] in Hwf', Hids. rewrite Heq in Hwf', Hids. cbn [fst] in Hwf', Hids.
  change (enqueued []) with (@nil string) in Hids.
  change (completed [] ++ dead []) with (@nil string) in Hids. rewrite !app_nil_r in Hids.
  exists (put_group key g' q), g', d.
  assert (group_wf g') as Hgw' by apply Hr.
  assert (∀ m, m ∈ inflight g' → map_get (processing g') (ID m) = Some m) as Hin.
  { intros m [k Hk]%elem_of_inflight. by rewrite (wf_keys g' Hgw' _ _ Hk). }
  split_and!; try done.
  - rewrite GetGroup_put by apply Hwf. by rewrite decide_True.
  - intros m Hm. apply Hin. rewrite (rd_inflight _ _ _ _ _ _ _ Hr), elem_of_app.
    left. by rewrite <-(rd_batch _ _ _ _ _ _ _ Hr).
  - rewrite (rd_batch _ _ _ _ _ _ _ Hr).
    pose proof (wf_nodup g' Hgw') as Hnd. rewrite group_ids_app, (rd_inflight _ _ _ _ _ _ _ Hr), fmap_app in Hnd.
    apply NoDup_app in Hnd as (_ & _ & Hnd). apply NoDup_app in Hnd as (_ & _ & Hnd). by apply NoDup_app in Hnd as [? _].
  - intros id m Hm. assert (m ∈ inflight g') as Hi by (apply elem_of_inflight; eauto).
    rewrite (rd_inflight _ _ _ _ _ _ _ Hr), elem_of_app in Hi. rewrite (rd_batch _ _ _ _ _ _ _ Hr).
    destruct Hi as [?|Hi]; [by left|right].
    rewrite (pm_inflight _ _ _ _ _ _ Hp) in Hi. by apply list_elem_of_filter in Hi as [_ ?].
Qed.

(** The final step of an activation keeps the store at [p]. *)
Lemma follow_up_keeps p key now d s :
  store_keeps p key s
    (if d_hasWake d then scheduleWake p key now (d_wakeAt d) s
     else if d_stillPending d then Activate p key s else s).
Proof.
  destruct (d_hasWake d); [apply scheduleWake_keeps|].
  destruct (d_stillPending d); [apply Activate_keeps|by apply store_keeps_refl].
Qed.

Lemma on_queue_at {A} p (f : Queue → Queue * A) s q :
  s_store s !! p = Some q →
  (on_queue p f s).2 = Some (f q).2 ∧ s_store (on_queue p f s).1 !! p = Some (f q).1.
Proof.
  intros H. unfold on_queue. rewrite H. destruct (f q) as [q' a]. simpl. by rewrite lookup_insert_eq.
Qed.

(** C10. One activation of a group neither loses nor duplicates a message, whatever
    the dispatch function answers: it does not panic, the queue stays well
    formed with the same messages, exactly the messages that were handed over
    are newly in flight, and the ones refused are pending again. *)
Theorem activation_safe {B} (dispatch : Message → B → B * bool) ord a now s b q g :
  s_store s !! a_queue a = Some q → queue_wf q → GetGroup (a_group a) q = Some g →
  ∃ s' b' delivered q' g', processActivation dispatch ord a now s b = (s', b', Ret delivered) ∧
    s_store s' !! a_queue a = Some q' ∧ queue_wf q' ∧ queue_ids q' ≡ₚ queue_ids q ∧
    GetGroup (a_group a) q' = Some g' ∧
    (∀ m, m ∈ delivered → map_get (processing g') (ID m) = Some m) ∧
    (∀ id m, map_get (processing g') id = Some m → m ∈ delivered ∨ m ∈ inflight g).
Proof.
  destruct a as [p key]. cbn [a_queue a_group]. intros Hq Hwf Hg. unfold processActivation. cbn [a_queue a_group].
  destruct (unschedule_keeps p key s q Hq Hwf) as (q1 & Hq1 & [Hwf1 Hids1 Hgr1]).
  destruct (Hgr1 g Hg) as (g1 & Hg1 & _ & Hproc1 & _).
  set (s1 := (on_queue p _ s).1) in *.
  destruct (drain_in_flight ord now key q1 g1 Hwf1 Hg1)
    as (q2 & g2 & d & Hd & Hwf2 & Hids2 & Hg2 & Hgw2 & Hbatch & Hnd & Hfl).
  destruct (on_queue_at p (DrainGroup ord key now) s1 q1 Hq1) as [Hr2 Hq2]. rewrite Hd in Hr2, Hq2.
  destruct (on_queue p (DrainGroup ord key now) s1) as [s2 r2]. cbn [fst snd] in Hr2, Hq2. rewrite Hr2.
  pose proof (hand_over_split dispatch (default [] (d_ready d)) b) as Hsplit.
  destruct (hand_over dispatch (default [] (d_ready d)) b) as [[b' delivered] undelivered].
  destruct (return_all key undelivered q2 g2 Hwf2 Hg2) as (Hwf3 & Hids3 & g3 & Hg3 & Hproc3).
  destruct (on_queue_at p (λ q, (foldl (λ q m, ReturnToPending key (ID m) q) q undelivered, tt)) s2 q2 Hq2) as [_ Hq3].
  set (s3 := (on_queue p _ s2).1) in *. cbn [fst] in Hq3. set (q3 := foldl _ q2 undelivered) in *.
  assert (∃ s4, (if negb (bool_decide (undelivered = [])) then (s3, b', Ret delivered)
     else (if d_hasWake d then scheduleWake p key now (d_wakeAt d) s3
           else if d_stillPending d then Activate p key s3 else s3, b', Ret delivered)) = (s4, b', Ret delivered) ∧
     store_keeps p key s3 s4) as (s4 & -> & Hk4).
  { case_bool_decide; [eexists; split; [done|apply follow_up_keeps]|].
    exists s3. split; [done|]. by apply store_keeps_refl. }
  destruct (Hk4 q3 Hq3 Hwf3) as (q4 & Hq4 & [Hwf4 Hids4 Hgr4]). destruct (Hgr4 g3 Hg3) as (g4 & Hg4 & _ & Hproc4 & _).
  exists s4, b', delivered, q4, g4. split; [done|]. split; [done|]. split; [done|].
  split; [by rewrite Hids4, Hids3, Hids2|]. split; [done|].
  rewrite Hsplit, fmap_app in Hnd. apply NoDup_app in Hnd as (_ & Hdisj & _).
  rewrite Hproc4. split.
  - intros m Hm. rewrite Hproc3, decide_False by (apply Hdisj; by apply list_elem_of_fmap_2).
    apply Hbatch. rewrite Hsplit. apply elem_of_app. by left.
  - intros id m. rewrite Hproc3. case_decide as Hin; [done|]. intros Hm.
    destruct (Hfl id m Hm) as [Hb|Hi]; [left|right].
    + rewrite Hsplit in Hb. apply elem_of_app in Hb as [?|Hu]; [done|]. exfalso. apply Hin.
      rewrite <-(wf_keys g2 Hgw2 _ _ Hm). by apply list_elem_of_fmap_2.
    + unfold inflight in *. by rewrite <-Hproc1.
Qed.

(** A store with the sample queue; the consumer takes one message only. *)
Definition sample_sched : Scheduler := RegisterQueue 0 sample_queue NewScheduler.
Definition take_one (m : Message) (n : nat) : nat * bool := (S n, (n <? 1)%nat).

Lemma activation_safe_witness :
  let a := mkActivation 0 "g" in
  s_store sample_sched !! a_queue a = Some sample_queue ∧
  ∃ g, GetGroup (a_group a) sample_queue = Some g ∧
  ∃ s' b' delivered q' g', processActivation take_one list_order a 5 sample_sched 0%nat = (s', b', Ret delivered) ∧
    s_store s' !! a_queue a = Some q' ∧ queue_wf q' ∧ queue_ids q' ≡ₚ queue_ids sample_queue ∧
    GetGroup (a_group a) q' = Some g' ∧
    (∀ m, m ∈ delivered → map_get (processing g') (ID m) = Some m) ∧
    (∀ id m, map_get (processing g') id = Some m → m ∈ delivered ∨ m ∈ inflight g).
Proof.
  intros a. split; [by vm_compute|].
  destruct (GetGroup (a_group a) sample_queue) as [g|] eqn:Hg; [|by vm_compute in Hg].
  exists g. split; [done|].
  apply (activation_safe take_one list_order a 5 sample_sched 0%nat sample_queue g); [by vm_compute|apply sample_queue_wf|done].
Defined.

(** ** Publishers and workers in parallel

    [Activate] is two atomic steps, the compare-and-swap of the flag and the
    send; [processActivation] begins with two more, the receive and the reset
    of the flag.  Any number of goroutines take these steps in any order. *)

#[export] Instance groupActivation_eq_dec : EqDecision groupActivation.
Proof. solve_decision. Defined.
#[export] Instance groupActivation_countable : Countable groupActivation.
Proof.
  refine (inj_countable' (λ a, (a_queue a, a_group a)) (λ t, mkActivation t.1 t.2) _). by intros [].
Defined.

Record shared := mkShared {
  sh_groups : gmap groupActivation group;
  sh_chan : list groupActivation;
  sh_sending : list groupActivation;   (** flag won, not sent yet *)
  sh_taken : list groupActivation;     (** received, flag not reset yet *)
}.

Definition in_hand (s : shared) : list groupActivation := sh_chan s ++ sh_sending s ++ sh_taken s.

Inductive sched_step (s : shared) : shared → Prop :=
| sc_won a g g' :
    sh_groups s !! a = Some g → TrySchedule g = (g', true) →
    sched_step s (mkShared (<[a := g']> (sh_groups s)) (sh_chan s) (a :: sh_sending s) (sh_taken s))
| sc_lost a g g' :
    sh_groups s !! a = Some g → TrySchedule g = (g', false) →
    sched_step s (mkShared (<[a := g']> (sh_groups s)) (sh_chan s) (sh_sending s) (sh_taken s))
| sc_send a rest :
    sh_sending s ≡ₚ a :: rest → Z.of_nat (length (sh_chan s)) < active_cap →
    sched_step s (mkShared (sh_groups s) (sh_chan s ++ [a]) rest (sh_taken s))
| sc_full a g rest :
    sh_sending s ≡ₚ a :: rest → active_cap ≤ Z.of_nat (length (sh_chan s)) → sh_groups s !! a = Some g →
    sched_step s (mkShared (<[a := Unschedule g]> (sh_groups s)) (sh_chan s) rest (sh_taken s))
| sc_receive a c :
    sh_chan s = a :: c → sched_step s (mkShared (sh_groups s) c (sh_sending s) (a :: sh_taken s))
| sc_reset a g rest :
    sh_taken s ≡ₚ a :: rest → sh_groups s !! a = Some g →
    sched_step s (mkShared (<[a := Unschedule g]> (sh_groups s)) (sh_chan s) (sh_sending s) rest)
| sc_group a g' :   (** any work on a group, or a new one *)
    isScheduled g' = match sh_groups s !! a with Some g => isScheduled g | None => 0 end →
    sched_step s (mkShared (<[a := g']> (sh_groups s)) (sh_chan s) (sh_sending s) (sh_taken s)).

Inductive sched_reach : shared → Prop :=
| sr_init : sched_reach (mkShared ∅ [] [] [])
| sr_step s s' : sched_reach s → sched_step s s' → sched_reach s'.

Record flags_ok (groups : gmap groupActivation group) (hand : list groupActivation) : Prop := {
  fo_nodup : NoDup hand;
  fo_known : ∀ a, a ∈ hand → is_Some (groups !! a);
  fo_flag : ∀ a g, groups !! a = Some g → isScheduled g = if decide (a ∈ hand) then 1 else 0;
}.

Lemma flags_ok_perm groups hand hand' : hand ≡ₚ hand' → flags_ok groups hand → flags_ok groups hand'.
Proof.
  intros Hp [H1 H2 H3]. split.
  - by rewrite <-Hp.
  - intros a. rewrite <-Hp. apply H2.
  - intros a g Hg. rewrite (H3 a g Hg). by rewrite (decide_ext (a ∈ hand) (a ∈ hand')) by (by rewrite Hp).
Qed.

(** Entering and leaving the set of groups in hand. *)
Lemma flags_enter groups hand a g g' :
  flags_ok groups hand → groups !! a = Some g → TrySchedule g = (g', true) →
  flags_ok (<[a := g']> groups) (a :: hand).
Proof.
  intros [H1 H2 H3] Hg Ht. unfold TrySchedule in Ht.
  destruct (Z.eqb_spec (isScheduled g) 0) as [E|]; [|done]. injection Ht as <-.
  assert (a ∉ hand) as Hni by (intros Hin; specialize (H3 a g Hg); rewrite decide_True in H3 by done; lia).
  split; [by constructor| |].
  - intros b [->|Hb]%elem_of_cons; [by rewrite lookup_insert_eq|]. rewrite lookup_insert_is_Some'. auto.
  - intros b gb [[<- <-]|[Hne Hb]]%lookup_insert_Some; [by rewrite decide_True by (by left)|].
    rewrite (H3 b gb Hb). apply decide_ext. rewrite elem_of_cons. split; [by right|by intros [->|?]].
Qed.

Lemma flags_leave groups hand a g :
  flags_ok groups (a :: hand) → groups !! a = Some g → flags_ok (<[a := Unschedule g]> groups) hand.
Proof.
  intros [H1 H2 H3] Hg. apply NoDup_cons in H1 as [Hni Hnd]. split; [done| |].
  - intros b Hb. rewrite lookup_insert_is_Some'. right. apply H2. by right.
  - intros b gb [[<- <-]|[Hne Hb]]%lookup_insert_Some; [by rewrite decide_False|].
    rewrite (H3 b gb Hb). apply decide_ext. rewrite elem_of_cons. split; [by intros [->|?]|by right].
Qed.

Lemma flags_same groups hand a g' :
  flags_ok groups hand → isScheduled g' = match groups !! a with Some g => isScheduled g | None => 0 end →
  flags_ok (<[a := g']> groups) hand.
Proof.
  intros [H1 H2 H3] Hs. split; [done| |].
  - intros b Hb. rewrite lookup_insert_is_Some'. right. by apply H2.
  - intros b gb [[<- <-]|[Hne Hb]]%lookup_insert_Some; [|by apply H3].
    rewrite Hs. destruct (groups !! a) as [g|] eqn:E; [by apply H3|].
    rewrite decide_False; [done|]. intros Hin. destruct (H2 a Hin). congruence.
Qed.

Lemma sched_reach_ok s : sched_reach s → flags_ok (sh_groups s) (in_hand s).
Proof.
  induction 1 as [|s s' _ IH Hst]; [split; [constructor|..]; set_solver|]. unfold in_hand in *.
  destruct Hst as [a g g' Hg Ht|a g g' Hg Ht|a rest Hp Hlen|a g rest Hp Hlen Hg|a c Hc|a g rest Hp Hg|a g' Hs];
    cbn [sh_groups sh_chan sh_sending sh_taken].
  - eapply flags_ok_perm; [|by eapply flags_enter]. solve_Permutation.
  - unfold TrySchedule in Ht. destruct (_ =? 0); [done|]. injection Ht as <-.
    apply flags_same; [done|]. by rewrite Hg.
  - eapply flags_ok_perm; [|exact IH]. rewrite Hp. solve_Permutation.
  - eapply flags_leave; [|done]. eapply flags_ok_perm; [|exact IH]. rewrite Hp. solve_Permutation.
  - eapply flags_ok_perm; [|exact IH]. rewrite Hc. solve_Permutation.
  - eapply flags_leave; [|done]. eapply flags_ok_perm; [|exact IH]. rewrite Hp. solve_Permutation.
  - by apply flags_same.
Qed.

(** C11. Concurrent activations: however publishers, consumers, timers and workers
    interleave, a group is queued at most once, and its flag is set exactly
    while an activation of it is queued or in the hands of a goroutine.  So no
    group is activated twice in parallel, and no flag stays set with nobody
    left to serve the group. *)
Theorem activation_unique s :
  sched_reach s →
  NoDup (sh_chan s) ∧
  ∀ a g, sh_groups s !! a = Some g → isScheduled g = 1 ∧ a ∈ in_hand s ∨ isScheduled g = 0 ∧ a ∉ in_hand s.
Proof.
  intros Hr. destruct (sched_reach_ok s Hr) as [H1 H2 H3]. split.
  - by apply NoDup_app in H1 as [? _].
  - intros a g Hg. rewrite (H3 a g Hg). case_decide; [by left|by right].
Qed.

(** Two activations of a group, one wins, is sent and received. *)
Module Race.
Definition a : groupActivation := mkActivation 0 "g".
Definition g0 : group := newGroup (defaultGroupConfig "g").
Definition s1 : shared := mkShared {[a := g0]} [] [] [].
Definition s2 : shared := mkShared (<[a := set_isScheduled 1 g0]> {[a := g0]}) [] [a] [].
Definition s3 : shared := mkShared (<[a := set_isScheduled 1 g0]> (<[a := set_isScheduled 1 g0]> {[a := g0]})) [] [a] [].
Definition s4 : shared := mkShared (sh_groups s3) [a] [] [].

Lemma raced : sched_reach s4.
Proof.
  apply (sr_step s3); [|by apply (sc_send s3 a [])].
  apply (sr_step s2); [|by eapply (sc_lost s2 a (set_isScheduled 1 g0) (set_isScheduled 1 g0))].
  apply (sr_step s1); [|by eapply (sc_won s1 a g0)].
  apply (sr_step (mkShared ∅ [] [] [])); [constructor|]. by apply (sc_group (mkShared ∅ [] [] []) a g0).
Qed.
End Race.

Lemma activation_unique_witness :
  sched_reach Race.s4 ∧ NoDup (sh_chan Race.s4) ∧
  ∀ a g, sh_groups Race.s4 !! a = Some g →
    isScheduled g = 1 ∧ a ∈ in_hand Race.s4 ∨ isScheduled g = 0 ∧ a ∉ in_hand Race.s4.
Proof. split; [apply Race.raced|]. exact (activation_unique Race.s4 Race.raced). Defined.

(** A refused batch is left behind: when the dispatch channel refuses the
    batch, its messages are pending again but the group is neither queued nor
    given a timer, so it waits for an unrelated publish or acknowledgement. *)
Theorem refused_group_not_rescheduled :
  let r := processActivation (λ _ n, (n, false)) list_order (mkActivation 0 "g") 5 sample_sched tt in
  let s := r.1.1 in
  r.2 = Ret [] ∧ s_active s = [] ∧ s_wakes s = [] ∧
  (λ q, GetGroupStats "g" q) <$> s_store s !! 0%nat = Some (Some (mkGroupStats "g" 4 0)) ∧
  (λ q, isScheduled <$> GetGroup "g" q) <$> s_store s !! 0%nat = Some (Some 0).
Proof. split_and!; vm_compute; reflexivity. Qed.
