(* ===== verification/Broker.v ===== *)
(** * The broker's handlers

    src/internal/broker/handlers.go, dispatch.go, quota.go, the counters and
    the lease sweep of broker.go, and src/internal/server/credit.go.  One state
    holds the scheduler, the subscriptions, the quotas, the connections, the
    dispatch channels and the events accepted by the log.  What the
    environment decides is an argument: whether a connection's buffer takes a
    frame, whether the log accepts an event, and the clock.  Every handler is
    the whole handler, with its early returns; frames written back to the
    client are returned. *)

From stdpp Require Import base gmap list strings.
From Stdlib Require Import ZArith Lia Strings.Byte.
From S2P Require Import Prelude Heap Message Group KeyIndex ConfigIdx Queue Codec WalRecord TimingWheel Registry Scheduler.
Local Open Scope Z_scope.
Local Open Scope list_scope.

(** ** Quotas *)

Record brokerQuota := mkQuota { q_inflight : Z; q_max : Z }.

Definition TryAcquire (q : brokerQuota) : brokerQuota * bool :=
  if q_max q <=? 0 then (q, true)
  else if q_max q <=? q_inflight q then (q, false)
  else (mkQuota (i64 (q_inflight q + 1)) (q_max q), true).

Definition Release (q : brokerQuota) : brokerQuota :=
  if 0 <? q_max q then mkQuota (i64 (q_inflight q - 1)) (q_max q) else q.

Record credit := mkCredit { cr_inflight : Z; cr_max : Z }.

Definition AcquireCredit (c : credit) : credit * bool :=
  if cr_max c <=? cr_inflight c then (c, false)
  else (mkCredit (i32 (cr_inflight c + 1)) (cr_max c), true).

Definition ReleaseCredit (c : credit) : credit := mkCredit (i32 (cr_inflight c - 1)) (cr_max c).

(** ** State *)

Record connection := mkConn { cn_namespace : string; cn_credit : credit }.

Record Broker := mkBroker {
  b_sched : Scheduler;
  b_registry : subRegistry;
  b_quota : brokerQuota;
  b_conns : gmap nat connection;
  b_chans : list (list Message);   (** dispatchChs *)
  b_global : Z;                    (** globalMsgs *)
  b_globalMax : Z;
  b_log : list Event;              (** events the log has accepted *)
  b_stop : list bool;              (** what select does once [dispatchStop] is closed *)
}.

Definition set_sched x b := mkBroker x (b_registry b) (b_quota b) (b_conns b) (b_chans b) (b_global b) (b_globalMax b) (b_log b) (b_stop b).
Definition set_registry x b := mkBroker (b_sched b) x (b_quota b) (b_conns b) (b_chans b) (b_global b) (b_globalMax b) (b_log b) (b_stop b).
Definition set_quota x b := mkBroker (b_sched b) (b_registry b) x (b_conns b) (b_chans b) (b_global b) (b_globalMax b) (b_log b) (b_stop b).
Definition set_conns x b := mkBroker (b_sched b) (b_registry b) (b_quota b) x (b_chans b) (b_global b) (b_globalMax b) (b_log b) (b_stop b).
Definition set_chans x b := mkBroker (b_sched b) (b_registry b) (b_quota b) (b_conns b) x (b_global b) (b_globalMax b) (b_log b) (b_stop b).
Definition set_global x b := mkBroker (b_sched b) (b_registry b) (b_quota b) (b_conns b) (b_chans b) x (b_globalMax b) (b_log b) (b_stop b).
Definition add_log e b := mkBroker (b_sched b) (b_registry b) (b_quota b) (b_conns b) (b_chans b) (b_global b) (b_globalMax b) (b_log b ++ [e]) (b_stop b).
Definition set_stop x b := mkBroker (b_sched b) (b_registry b) (b_quota b) (b_conns b) (b_chans b) (b_global b) (b_globalMax b) (b_log b) x.

(** A method call on a queue object. *)
Definition call {A} (p : nat) (f : Queue → Queue * A) (b : Broker) : Broker * option A :=
  let '(s, a) := on_queue p f (b_sched b) in (set_sched s b, a).
Definition call_ {A} (p : nat) (f : Queue → Queue * A) (b : Broker) : Broker := (call p f b).1.

Definition return_to_pending (p : nat) (key id : string) : Broker → Broker :=
  call_ p (λ q, (ReturnToPending key id q, tt)).

Definition activate (p : nat) (key : string) (b : Broker) : Broker := set_sched (Activate p key (b_sched b)) b.

Definition get_queue (ns name : string) (b : Broker) : option nat := GetQueue ns name (b_sched b).

(** The log takes an event or refuses it. *)
Definition wal_append (ok : bool) (e : Event) (b : Broker) : Broker * bool :=
  if ok then (add_log e b, true) else (b, false).

Definition wal_event (t : Z) (ns queue group id : string) (payload : list byte) : Event :=
  mkEvent t ns queue group id payload 0 0.

(** ** Counters *)

Definition IncGlobalMsgs (b : Broker) : Broker * bool :=
  if b_globalMax b <=? 0 then (set_global (i64 (b_global b + 1)) b, true)
  else if b_globalMax b <=? b_global b then (b, false)
  else (set_global (i64 (b_global b + 1)) b, true).

Definition DecGlobalMsgs (b : Broker) : Broker := set_global (i64 (b_global b - 1)) b.

(** ** Dispatch *)

Definition chan_size : Z := 1024.

(** A message goes to the channel its group hashes to; a full channel refuses
    it.  Once [dispatchStop] is closed that case of the select is ready as well:
    [b_stop] has the choices to come, [true] for the closed channel. *)
Definition enqueueDispatch (msg : Message) (b : Broker) : Broker * bool :=
  let stopped := default false (head (b_stop b)) in
  let b := set_stop (tail (b_stop b)) b in
  let idx := Z.to_nat (HashKey (GroupKey msg) `mod` Z.of_nat (length (b_chans b))) in
  match b_chans b !! idx with
  | None => (b, false)
  | Some ch =>
      if negb stopped && (Z.of_nat (length ch) <? chan_size)
      then (set_chans (<[idx := ch ++ [msg]]> (b_chans b)) b, true)
      else (b, false)
  end.

Definition update_credit (conn : nat) (f : credit → credit) (b : Broker) : Broker :=
  set_conns (alter (λ c, mkConn (cn_namespace c) (f (cn_credit c))) conn (b_conns b)) b.

Definition acquire_credit (conn : nat) (b : Broker) : Broker * bool :=
  match b_conns b !! conn with
  | None => (b, false)
  | Some c => let '(cr, ok) := AcquireCredit (cn_credit c) in
              (if ok then update_credit conn (λ _, cr) b else b, ok)
  end.

(** Put the message back when its queue is still registered. *)
Definition put_back (msg : Message) (b : Broker) : Broker :=
  match get_queue (Namespace msg) (QueueName msg) b with
  | Some p => return_to_pending p (GroupKey msg) (ID msg) b
  | None => b
  end.

(** [dispatch]; the backpressure frame a consumer over a limit is offered is not
    part of the state.  [wrote] is whether the connection's buffer took the message,
    [logged] whether the log took the lease.  The result says whether the
    message was delivered, and to whom. *)
Definition dispatch (ord : sub_order) (wrote logged : bool) (msg : Message) (b : Broker) : Broker * option nat :=
  match reg_next ord (Namespace msg) (QueueName msg) (GroupKey msg) (b_registry b) with
  | (r, None) => (put_back msg (set_registry r b), None)
  | (r, Some conn) =>
      let b := set_registry r b in
      let '(q, ok) := TryAcquire (b_quota b) in
      if negb ok then (put_back msg b, None)
      else
        let b := set_quota q b in
        let '(b, ok) := acquire_credit conn b in
        if negb ok then (put_back msg (set_quota (Release (b_quota b)) b), None)
        else if negb wrote
        then (put_back msg (set_quota (Release (b_quota b)) (update_credit conn ReleaseCredit b)), None)
        else ((wal_append logged (wal_event EventLease (Namespace msg) (QueueName msg) (GroupKey msg) (ID msg) []) b).1,
              Some conn)
  end.

(** One turn of a dispatch worker. *)
Definition dispatch_worker (ord : sub_order) (wrote logged : bool) (i : nat) (b : Broker) : Broker :=
  match b_chans b !! i with
  | Some (m :: ch) => (dispatch ord wrote logged m (set_chans (<[i := ch]> (b_chans b)) b)).1
  | _ => b
  end.

(** ** Handlers *)

(** Frames written back to the client. *)
Inductive reply :=
| RPublishOK (id : string)
| RError (code : Z)
| RBackpressure (retryAfter : Z)
| RHeartbeat.

Definition enqueue_or_return (p : nat) (group : string) (next : Message) (b : Broker) : Broker :=
  let '(b, ok) := enqueueDispatch next b in
  if ok then b else return_to_pending p group (ID next) b.

(** Registered queues are objects of the store, so a call on one answers.  The
    reply is written before the message is offered to a consumer. *)
Definition onPublish (ord : range_order Message) (sord : sub_order) (logged : bool) (generated : string) (now : Z)
    (ns queue group : string) (payload : list byte) (b : Broker) : Broker * reply * outcome unit :=
  match get_queue ns queue b with
  | None => (b, RError 404, Ret tt)
  | Some p =>
      match IncGlobalMsgs b with
      | (b, false) => (b, RBackpressure 5, Ret tt)
      | (b, true) =>
          match wal_append logged (wal_event EventPublish ns queue group generated payload) b with
          | (b, false) => (DecGlobalMsgs b, RError 500, Ret tt)
          | (b, true) =>
              match call p (PublishWithID "" now group generated payload) b with
              | (b, Some (inl msg)) =>
                  match call p (TryDispatchOne ord group now) b with
                  | (b, Some Panic) => (b, RPublishOK (ID msg), Panic)
                  | (b, next) =>
                      let b := match next with Some (Ret (Some m)) => enqueue_or_return p group m b | _ => b end in
                      (if reg_has sord ns queue group (b_registry b) then activate p group b else b,
                       RPublishOK (ID msg), Ret tt)
                  end
              | (b, _) => (DecGlobalMsgs b, RError 500, Ret tt)
              end
          end
      end
  end.

(** The loop over the pages of the group index. *)
Fixpoint activate_pages (fuel : nat) (p : nat) (after : string) (b : Broker) : Broker :=
  match fuel with
  | O => b
  | S fuel =>
      match s_store (b_sched b) !! p with
      | None => b
      | Some q =>
          let '(stats, next) := PageGroupStats after 1000 q in
          let b := foldl (λ b st, activate p (st_Key st) b) b stats in
          if bool_decide (next = "") then b else activate_pages fuel p next b
      end
  end.

Definition onSubscribe (fuel : nat) (conn : nat) (ns queue group : string) (b : Broker) : Broker :=
  let b := set_registry (reg_add (mkSubKey ns queue group) conn (b_registry b)) b in
  match get_queue ns queue b with
  | None => b
  | Some p => if isGlobPattern group then activate_pages fuel p "" b else activate p group b
  end.

Definition release_both (conn : nat) (b : Broker) : Broker :=
  let b := update_credit conn ReleaseCredit b in set_quota (Release (b_quota b)) b.

Definition enqueue_next (next : option Message) (b : Broker) : Broker :=
  match next with Some m => (enqueueDispatch m b).1 | None => b end.

Definition onACK (ord : range_order Message) (logged : bool) (now : Z) (conn : nat)
    (ns queue group id : string) (b : Broker) : Broker * outcome unit :=
  let b := release_both conn b in
  match get_queue ns queue b with
  | None => (b, Ret tt)
  | Some p =>
      match wal_append logged (wal_event EventACK ns queue group id []) b with
      | (b, false) => (b, Ret tt)
      | (b, true) =>
          match call p (CompleteAndNext ord group id now) (DecGlobalMsgs b) with
          | (b, Some (Ret next)) => (activate p group (enqueue_next next b), Ret tt)
          | (b, _) => (b, Panic)
          end
      end
  end.

(** The dead letter goes to its queue, if that is registered. *)
Definition publish_dead_letter (sord : sub_order) (generated : string) (now : Z) (ns dlqName : string)
    (dlqMsg : option Message) (b : Broker) : Broker :=
  match dlqMsg with
  | None => b
  | Some m =>
      if bool_decide (dlqName = "") then b
      else match get_queue ns dlqName b with
           | None => b
           | Some d =>
               match call d (Publish generated now (GroupKey m) (Payload m)) b with
               | (b, Some (inl _)) =>
                   if reg_has sord ns dlqName (GroupKey m) (b_registry b) then activate d (GroupKey m) b else b
               | (b, _) => b
               end
           end
  end.

Definition onNACK (ord : range_order Message) (sord : sub_order) (logged : bool) (now : Z) (generated : string)
    (conn : nat) (ns queue group id reason : string) (b : Broker) : Broker * outcome unit :=
  let b := release_both conn b in
  match get_queue ns queue b with
  | None => (b, Ret tt)
  | Some p =>
      match wal_append logged (wal_event EventNACK ns queue group id []) b with
      | (b, false) => (b, Ret tt)
      | (b, true) =>
          match call p (FailAndNext ord group id reason now) b with
          | (b, Some (Ret (dlqName, dlqMsg, next))) =>
              let b := match dlqMsg with Some _ => DecGlobalMsgs b | None => b end in
              let b := activate p group (enqueue_next next b) in
              (publish_dead_letter sord generated now ns dlqName dlqMsg b, Ret tt)
          | (b, _) => (b, Panic)
          end
      end
  end.

(** A connection ends: its outstanding credits go back to the quota and its
    subscriptions are dropped. *)
Definition disconnect (conn : nat) (b : Broker) : Broker :=
  match b_conns b !! conn with
  | None => b
  | Some c =>
      let leaked := Z.to_nat (cr_inflight (cn_credit c)) in
      let b := set_quota (Nat.iter leaked Release (b_quota b)) b in
      set_conns (delete conn (b_conns b)) (set_registry (reg_remove conn (b_registry b)) b)
  end.

(** What the environment decides while a frame is handled. *)
Record env := mkEnv {
  e_ord : range_order Message;
  e_sub : sub_order;
  e_logged : bool;      (** the log takes the event *)
  e_now : Z;
  e_id : string;        (** the identifier [GenerateID] returns *)
  e_fuel : nat;         (** pages a pattern subscription may read *)
}.

(** One turn of [handleConnection].  A panic unwinds to the deferred function,
    which ends the connection. *)
Definition handle_frame (e : env) (conn : nat) (f : frame) (b : Broker) : Broker * option reply :=
  match b_conns b !! conn with
  | None => (b, None)
  | Some c =>
      let ns := cn_namespace c in
      let ended (r : Broker * outcome unit) : Broker :=
        match r with (b, Panic) => disconnect conn b | (b, Ret _) => b end in
      match f with
      | PublishFrame queue group payload =>
          let '(b, r, o) := onPublish (e_ord e) (e_sub e) (e_logged e) (e_id e) (e_now e) ns queue group payload b in
          (ended (b, o), Some r)
      | SubscribeFrame queue group => (onSubscribe (e_fuel e) conn ns queue group b, None)
      | ACKFrame id queue group => (ended (onACK (e_ord e) (e_logged e) (e_now e) conn ns queue group id b), None)
      | NACKFrame id queue group reason =>
          (ended (onNACK (e_ord e) (e_sub e) (e_logged e) (e_now e) (e_id e) conn ns queue group id reason b), None)
      | HeartbeatFrame => (b, Some RHeartbeat)
      | _ => (b, None)
      end
  end.

(** ** The lease sweep *)

Definition sweep_lease (logged : bool) (b : Broker) (l : ExpiredLease) : Broker :=
  let b := (wal_append logged (wal_event EventExpire (el_Namespace l) (el_QueueName l) (el_GroupKey l) (el_MsgID l) []) b).1 in
  match get_queue (el_Namespace l) (el_QueueName l) b with
  | Some p => activate p (el_GroupKey l) b
  | None => b
  end.

Definition sweepLeases (ordg : range_order group) (ord : range_order Message) (logged : bool) (now : Z) (b : Broker) : Broker :=
  foldl (λ b p,
    match call p (SweepExpiredLeases ordg ord now) b with
    | (b, Some expired) => foldl (sweep_lease logged) b expired
    | (b, None) => b
    end) b (ListQueues (b_sched b)).

Definition newBroker (globalQuota globalMax : Z) (workers : nat) : Broker :=
  mkBroker NewScheduler newSubRegistry (mkQuota 0 globalQuota) ∅ (replicate workers []) 0 globalMax [] [].

(** A client has authenticated for a namespace. *)
Definition connect (conn : nat) (ns : string) (maxInflight : Z) (b : Broker) : Broker :=
  set_conns (<[conn := mkConn ns (mkCredit 0 maxInflight)]> (b_conns b)) b.

(** A scheduler worker takes an activation; the dispatch function it was given
    is [enqueueDispatch]. *)
Definition run_activation (ord : range_order Message) (now : Z) (b : Broker) : Broker :=
  match s_active (b_sched b) with
  | [] => b
  | a :: rest =>
      let '(s, b, _) := processActivation enqueueDispatch ord a now (set_active rest (b_sched b)) b in
      set_sched s b
  end.
