(* ===== verification/BrokerInv.v ===== *)
(** * Admission control of the broker

    Theorems on the handlers of [Broker.v]: the branches of [dispatch] and
    [onPublish], and the accounting of the inflight quota and the connection
    credits along every run of the broker. *)

From stdpp Require Import base gmap list strings.
From Stdlib Require Import ZArith Lia Strings.Byte.
From S2P Require Import Prelude Heap Message Group KeyIndex ConfigIdx Queue QueueInv Codec WalRecord TimingWheel Registry Scheduler Broker.
Local Open Scope Z_scope.
Local Open Scope list_scope.

(** ** What a step leaves alone *)

(** The quota and the credits. *)
Definition accounts (b : Broker) : brokerQuota * gmap nat connection := (b_quota b, b_conns b).

Create Rewrite HintDb accounts.

Lemma accounts_call {A} p (f : Queue → Queue * A) b : accounts (call p f b).1 = accounts b.
Proof. unfold call. by destruct (on_queue p f (b_sched b)). Qed.
Lemma accounts_call_ {A} p (f : Queue → Queue * A) b : accounts (call_ p f b) = accounts b.
Proof. apply accounts_call. Qed.
Lemma accounts_return p k id b : accounts (return_to_pending p k id b) = accounts b.
Proof. apply accounts_call_. Qed.
Lemma accounts_activate p k b : accounts (activate p k b) = accounts b.
Proof. done. Qed.
Lemma accounts_registry r b : accounts (set_registry r b) = accounts b.
Proof. done. Qed.
Lemma accounts_chans c b : accounts (set_chans c b) = accounts b.
Proof. done. Qed.
Lemma accounts_sched c b : accounts (set_sched c b) = accounts b.
Proof. done. Qed.
Lemma accounts_global x b : accounts (set_global x b) = accounts b.
Proof. done. Qed.
Lemma accounts_dec b : accounts (DecGlobalMsgs b) = accounts b.
Proof. done. Qed.
Lemma accounts_inc b : accounts (IncGlobalMsgs b).1 = accounts b.
Proof. unfold IncGlobalMsgs. by repeat case_match. Qed.
Lemma accounts_wal ok e b : accounts (wal_append ok e b).1 = accounts b.
Proof. by destruct ok. Qed.
Lemma accounts_enqueue m b : accounts (enqueueDispatch m b).1 = accounts b.
Proof. unfold enqueueDispatch. by repeat case_match. Qed.
Lemma accounts_put_back m b : accounts (put_back m b) = accounts b.
Proof. unfold put_back. case_match; [apply accounts_return|done]. Qed.

#[export] Hint Rewrite @accounts_call @accounts_call_ accounts_return accounts_activate accounts_registry
  accounts_chans accounts_sched accounts_global accounts_dec accounts_inc accounts_wal accounts_enqueue
  accounts_put_back : accounts.

Lemma accounts_enqueue_or_return p k m b : accounts (enqueue_or_return p k m b) = accounts b.
Proof.
  unfold enqueue_or_return. pose proof (accounts_enqueue m b). destruct (enqueueDispatch m b) as [b' []]; [done|].
  by rewrite accounts_return.
Qed.
Lemma accounts_enqueue_next m b : accounts (enqueue_next m b) = accounts b.
Proof. destruct m; [apply accounts_enqueue|done]. Qed.
#[export] Hint Rewrite accounts_enqueue_or_return accounts_enqueue_next : accounts.

(** Name the state a call returns by its accounts. *)
Ltac split_call :=
  match goal with
  | |- context [call ?p ?f ?b] =>
      let H := fresh "Hacc" in pose proof (accounts_call p f b) as H; destruct (call p f b) as [? ?]; simpl in H
  | |- context [wal_append ?ok ?e ?b] =>
      let H := fresh "Hacc" in pose proof (accounts_wal ok e b) as H; destruct (wal_append ok e b) as [? []]; simpl in H
  | |- context [IncGlobalMsgs ?b] =>
      let H := fresh "Hacc" in pose proof (accounts_inc b) as H; destruct (IncGlobalMsgs b) as [? []]; simpl in H
  end.
Ltac by_accounts := repeat case_match; simpl; autorewrite with accounts in *; simpl in *; congruence.

Lemma accounts_publish ord sord ok gen now ns q g p b :
  accounts (onPublish ord sord ok gen now ns q g p b).1.1 = accounts b.
Proof.
  unfold onPublish. destruct (get_queue ns q b); [|done]. do 2 (split_call; [|by_accounts]).
  split_call. destruct o as [[m|e]|]; [|by_accounts..]. split_call. by_accounts.
Qed.

Lemma accounts_activate_pages fuel p after b : accounts (activate_pages fuel p after b) = accounts b.
Proof.
  revert after b. induction fuel as [|fuel IH]; intros after b; simpl; [done|]. case_match; [|done].
  destruct (PageGroupStats after 1000 _) as [stats next].
  assert (∀ b, accounts (foldl (λ b st, activate p (st_Key st) b) b stats) = accounts b) as Hf.
  { induction stats as [|st stats IHs]; intros b'; simpl; [done|]. by rewrite IHs. }
  case_bool_decide; [apply Hf|]. by rewrite IH, Hf.
Qed.

Lemma accounts_subscribe fuel conn ns q g b : accounts (onSubscribe fuel conn ns q g b) = accounts b.
Proof. unfold onSubscribe. repeat case_match; [by rewrite accounts_activate_pages|done|done]. Qed.

Lemma accounts_ack ord ok now conn ns q g id b :
  accounts (onACK ord ok now conn ns q g id b).1 = accounts (release_both conn b).
Proof.
  unfold onACK. set (b1 := release_both conn b). destruct (get_queue ns q b1); [|done].
  split_call; [|done]. split_call. by_accounts.
Qed.

Lemma accounts_dead_letter sord gen now ns name m b :
  accounts (publish_dead_letter sord gen now ns name m b) = accounts b.
Proof.
  unfold publish_dead_letter. destruct m; [|done]. case_bool_decide; [done|]. case_match; [|done].
  split_call. by_accounts.
Qed.
#[export] Hint Rewrite accounts_dead_letter : accounts.
#[local] Arguments publish_dead_letter : simpl never.

Lemma accounts_nack ord sord ok now gen conn ns q g id reason b :
  accounts (onNACK ord sord ok now gen conn ns q g id reason b).1 = accounts (release_both conn b).
Proof.
  unfold onNACK. set (b1 := release_both conn b). destruct (get_queue ns q b1); [|done].
  split_call; [|done]. split_call. by_accounts.
Qed.

Lemma accounts_sweep ordg ord ok now b : accounts (sweepLeases ordg ord ok now b) = accounts b.
Proof.
  unfold sweepLeases. generalize (ListQueues (b_sched b)) as ps. intros ps. revert b.
  assert (∀ ls b, accounts (foldl (sweep_lease ok) b ls) = accounts b) as Hl.
  { induction ls as [|l ls IH]; intros b; simpl; [done|]. rewrite IH. unfold sweep_lease.
    case_match; by autorewrite with accounts. }
  induction ps as [|p ps IH]; intros b; simpl; [done|]. rewrite IH. split_call.
  case_match; [by rewrite Hl|done].
Qed.

Lemma accounts_activation ord now b : accounts (run_activation ord now b) = accounts b.
Proof.
  unfold run_activation. destruct (s_active (b_sched b)) as [|a rest]; [done|].
  assert (∀ ms b, accounts (hand_over enqueueDispatch ms b).1.1 = accounts b) as Hh.
  { induction ms as [|m ms IH]; intros b'; simpl; [done|]. pose proof (accounts_enqueue m b') as He.
    destruct (enqueueDispatch m b') as [b'' []]; [|done]. specialize (IH b'').
    destruct (hand_over enqueueDispatch ms b'') as [[? ?] ?]. simpl in *. congruence. }
  unfold processActivation. destruct (on_queue (a_queue a) (DrainGroup _ _ _) _) as [s [[d|]|]]; try done.
  specialize (Hh (default [] (d_ready d)) b).
  destruct (hand_over enqueueDispatch (default [] (d_ready d)) b) as [[b' delivered] undelivered].
  by destruct (negb _).
Qed.

(** ** The books balance *)

Definition inflight_sum (m : gmap nat connection) : Z :=
  map_fold (λ _ c z, cr_inflight (cn_credit c) + z) 0 m.

Lemma inflight_sum_insert i c m :
  m !! i = None → inflight_sum (<[i := c]> m) = cr_inflight (cn_credit c) + inflight_sum m.
Proof. intros Hi. unfold inflight_sum. rewrite map_fold_insert_L; [done| |done]. intros. lia. Qed.

Lemma inflight_sum_lookup i c m :
  m !! i = Some c → inflight_sum m = cr_inflight (cn_credit c) + inflight_sum (delete i m).
Proof. intros Hi. rewrite <-(inflight_sum_insert i) by apply lookup_delete_eq. by rewrite insert_delete_id. Qed.

Lemma inflight_sum_update i c c' m :
  m !! i = Some c →
  inflight_sum (<[i := c']> m) = inflight_sum m - cr_inflight (cn_credit c) + cr_inflight (cn_credit c').
Proof.
  intros Hi. rewrite <-insert_delete_eq, inflight_sum_insert by apply lookup_delete_eq.
  rewrite (inflight_sum_lookup i c m Hi). lia.
Qed.

Lemma inflight_sum_nonneg m :
  (∀ i c, m !! i = Some c → 0 ≤ cr_inflight (cn_credit c)) → 0 ≤ inflight_sum m.
Proof.
  induction m as [|i c m Hi IH] using map_ind; intros H; [done|].
  rewrite inflight_sum_insert by done. pose proof (H i c (lookup_insert_eq _ _ _)).
  enough (0 ≤ inflight_sum m) by lia. apply IH. intros j c' Hj. apply (H j). rewrite lookup_insert_ne; [done|congruence].
Qed.

(** The quota counts what the connections hold, and no limit is passed. *)
Record balanced (a : brokerQuota * gmap nat connection) : Prop := {
  ba_credit : ∀ i c, a.2 !! i = Some c → 0 ≤ cr_inflight (cn_credit c) ≤ cr_max (cn_credit c) ∧ cr_max (cn_credit c) < 2 ^ 31;
  ba_max : q_max a.1 < 2 ^ 63;
  ba_sum : 0 < q_max a.1 → q_inflight a.1 = inflight_sum a.2;
  ba_quota : 0 < q_max a.1 → q_inflight a.1 ≤ q_max a.1;
}.

Lemma balanced_quota_nonneg a : balanced a → 0 < q_max a.1 → 0 ≤ q_inflight a.1.
Proof.
  intros [Hc _ Hs _] Hm. rewrite Hs by done. apply inflight_sum_nonneg. intros i c Hi. by apply (Hc i).
Qed.

Definition with_inflight (n : Z) (c : connection) : connection :=
  mkConn (cn_namespace c) (mkCredit n (cr_max (cn_credit c))).

(** One connection's credit moves from [n] to [n + d] and the quota with it. *)
Lemma balanced_move a i c d :
  balanced a → a.2 !! i = Some c →
  0 ≤ cr_inflight (cn_credit c) + d ≤ cr_max (cn_credit c) →
  (0 < q_max a.1 → q_inflight a.1 + d ≤ q_max a.1) →
  balanced (if 0 <? q_max a.1 then mkQuota (q_inflight a.1 + d) (q_max a.1) else a.1,
            <[i := with_inflight (cr_inflight (cn_credit c) + d) c]> a.2).
Proof.
  intros [Hc Hm Hs Hq] Hi Hd Hle. destruct a as [q m]. simpl in *. pose proof (Hc i c Hi).
  destruct (Z.ltb_spec 0 (q_max q)); constructor; simpl; try done; try lia.
  1, 3: intros j c' [[_ <-]|[_ ?]]%lookup_insert_Some; [simpl; lia|eauto].
  rewrite (inflight_sum_update i c) by done. simpl. intros. rewrite Hs by done. lia.
Qed.

Lemma Release_eq q : q_max q < 2 ^ 63 → (0 < q_max q → 0 ≤ q_inflight q ≤ q_max q) →
  Release q = if 0 <? q_max q then mkQuota (q_inflight q + -1) (q_max q) else q.
Proof. intros Hm Hq. unfold Release. destruct (Z.ltb_spec 0 (q_max q)); [|done]. rewrite wrap_s_small; [done|lia|]. specialize (Hq ltac:(done)). change (2 ^ (64 - 1)) with (2 ^ 63). lia. Qed.

(** The accounts after the connection's credit moved by [d]. *)
Definition moved (conn : nat) (c : connection) (d : Z) (a : brokerQuota * gmap nat connection)
    : brokerQuota * gmap nat connection :=
  (if 0 <? q_max a.1 then mkQuota (q_inflight a.1 + d) (q_max a.1) else a.1,
   <[conn := with_inflight (cr_inflight (cn_credit c) + d) c]> a.2).

Lemma update_credit_at conn c f b :
  b_conns b !! conn = Some c →
  b_conns (update_credit conn f b) = <[conn := mkConn (cn_namespace c) (f (cn_credit c))]> (b_conns b).
Proof.
  intros Hc. unfold update_credit. simpl. apply map_eq. intros i. rewrite lookup_alter. case_decide as Hi.
  - subst. by rewrite lookup_insert_eq, Hc.
  - by rewrite lookup_insert_ne.
Qed.

Lemma release_both_moved conn c b :
  balanced (accounts b) → b_conns b !! conn = Some c → 0 < cr_inflight (cn_credit c) →
  accounts (release_both conn b) = moved conn c (-1) (accounts b).
Proof.
  intros Hb Hc Hpos. pose proof (ba_credit _ Hb conn c Hc). pose proof (balanced_quota_nonneg _ Hb).
  pose proof (ba_quota _ Hb). pose proof (ba_max _ Hb). unfold accounts, moved, release_both in *. simpl in *.
  rewrite Release_eq by (try done; lia). f_equal. trans (b_conns (update_credit conn ReleaseCredit b)); [done|].
  rewrite (update_credit_at conn c) by done. unfold with_inflight, ReleaseCredit. do 3 f_equal.
  apply wrap_s_small; [done|]. change (2 ^ (32 - 1)) with (2 ^ 31). lia.
Qed.

Lemma release_both_balanced conn c b :
  balanced (accounts b) → b_conns b !! conn = Some c → 0 < cr_inflight (cn_credit c) →
  balanced (accounts (release_both conn b)).
Proof.
  intros Hb Hc Hpos. rewrite (release_both_moved conn c) by done. pose proof (ba_credit _ Hb conn c Hc).
  pose proof (ba_quota _ Hb). apply balanced_move; [done|done|lia|]. lia.
Qed.

(** ** Dispatch *)

Lemma TryAcquire_cases q :
  q_max q < 2 ^ 63 → (0 < q_max q → 0 ≤ q_inflight q ≤ q_max q) →
  (0 < q_max q ∧ q_inflight q = q_max q ∧ TryAcquire q = (q, false)) ∨
  ((0 < q_max q → q_inflight q < q_max q) ∧
   TryAcquire q = (if 0 <? q_max q then mkQuota (q_inflight q + 1) (q_max q) else q, true) ∧
   Release (if 0 <? q_max q then mkQuota (q_inflight q + 1) (q_max q) else q) = q).
Proof.
  intros Hm Hq. unfold TryAcquire. destruct (Z.leb_spec (q_max q) 0), (Z.ltb_spec 0 (q_max q)); try lia.
  - right. split; [lia|]. split; [done|]. unfold Release. by destruct (Z.ltb_spec 0 (q_max q)); [lia|].
  - destruct (Z.leb_spec (q_max q) (q_inflight q)); [left; split_and!; try done; lia|right].
    specialize (Hq ltac:(done)). rewrite wrap_s_small by (try done; change (2 ^ (64 - 1)) with (2 ^ 63); lia).
    split; [done|]. split; [done|]. rewrite Release_eq; simpl; [|done|lia].
    destruct (Z.ltb_spec 0 (q_max q)); [|lia]. destruct q as [n mx]. simpl. f_equal. lia.
Qed.

Lemma AcquireCredit_cases c :
  0 ≤ cr_inflight c ≤ cr_max c → cr_max c < 2 ^ 31 →
  (cr_inflight c = cr_max c ∧ AcquireCredit c = (c, false)) ∨
  (cr_inflight c < cr_max c ∧ AcquireCredit c = (mkCredit (cr_inflight c + 1) (cr_max c), true) ∧
   ReleaseCredit (mkCredit (cr_inflight c + 1) (cr_max c)) = c).
Proof.
  intros Hc Hm. unfold AcquireCredit, ReleaseCredit. simpl.
  destruct (Z.leb_spec (cr_max c) (cr_inflight c)); [left; split; [lia|done]|right].
  rewrite !wrap_s_small by (try done; change (2 ^ (32 - 1)) with (2 ^ 31); lia).
  split_and!; try done. destruct c as [n mx]. simpl. f_equal. lia.
Qed.

(** Why a message is not delivered. *)
Inductive refused (wrote : bool) (b : Broker) : option nat → Prop :=
| rf_no_subscriber : refused wrote b None
| rf_quota conn : 0 < q_max (b_quota b) → q_inflight (b_quota b) = q_max (b_quota b) → refused wrote b (Some conn)
| rf_gone conn : b_conns b !! conn = None → refused wrote b (Some conn)
| rf_credit conn c :
    b_conns b !! conn = Some c → cr_inflight (cn_credit c) = cr_max (cn_credit c) → refused wrote b (Some conn)
| rf_buffer conn : wrote = false → refused wrote b (Some conn).

Definition lease_event (m : Message) : Event :=
  wal_event EventLease (Namespace m) (QueueName m) (GroupKey m) (ID m) [].

Definition picked (ord : sub_order) (m : Message) (b : Broker) : option nat :=
  (reg_next ord (Namespace m) (QueueName m) (GroupKey m) (b_registry b)).2.

Lemma put_back_frame m b :
  b_log (put_back m b) = b_log b ∧ b_chans (put_back m b) = b_chans b ∧ accounts (put_back m b) = accounts b.
Proof.
  split_and!; [| |apply accounts_put_back]; unfold put_back, return_to_pending, call_, call; case_match;
    try done; by destruct (on_queue _ _ _).
Qed.

Lemma put_back_sched m b b' : b_sched b' = b_sched b → b_sched (put_back m b') = b_sched (put_back m b).
Proof.
  intros E. unfold put_back, get_queue, return_to_pending, call_, call. rewrite E. case_match; [|done].
  by destruct (on_queue _ _ _).
Qed.

Definition dispatch_post (ord : sub_order) (wrote logged : bool) (m : Message) (b b' : Broker) (r : option nat) : Prop :=
  b_chans b' = b_chans b ∧
  match r with
  | Some conn => ∃ c, picked ord m b = Some conn ∧ b_conns b !! conn = Some c ∧ wrote = true ∧
      cr_inflight (cn_credit c) < cr_max (cn_credit c) ∧
      (0 < q_max (b_quota b) → q_inflight (b_quota b) < q_max (b_quota b)) ∧
      accounts b' = moved conn c 1 (accounts b) ∧ b_sched b' = b_sched b ∧
      b_log b' = b_log b ++ (if logged then [lease_event m] else [])
  | None => refused wrote b (picked ord m b) ∧ accounts b' = accounts b ∧
      b_log b' = b_log b ∧ b_sched b' = b_sched (put_back m b)
  end.

(** Refusals share this: the message was put back in a state with the accounts,
    log, channels and scheduler of [b]. *)
Lemma dispatch_refused ord wrote logged m b b1 :
  refused wrote b (picked ord m b) → accounts b1 = accounts b → b_log b1 = b_log b → b_chans b1 = b_chans b →
  b_sched b1 = b_sched b → dispatch_post ord wrote logged m b (put_back m b1) None.
Proof.
  intros Hr Ha Hl Hc Hs. destruct (put_back_frame m b1) as (H1 & H2 & H3).
  split; [congruence|]. split_and!; [done|congruence|congruence|by apply put_back_sched].
Qed.

Lemma dispatch_branches ord wrote logged m b :
  balanced (accounts b) →
  let '(b', r) := dispatch ord wrote logged m b in dispatch_post ord wrote logged m b b' r.
Proof.
  intros Hb. pose proof (balanced_quota_nonneg _ Hb) as Hnn. destruct Hb as [Hcr Hmax _ Hq]. simpl in *.
  unfold dispatch. assert (picked ord m b = (reg_next ord (Namespace m) (QueueName m) (GroupKey m) (b_registry b)).2)
    as Hp by done.
  destruct (reg_next ord _ _ _ _) as [r [conn|]]; simpl in Hp.
  2: { apply dispatch_refused; try done. rewrite Hp. constructor. }
  change (b_quota (set_registry r b)) with (b_quota b).
  destruct (TryAcquire_cases (b_quota b) Hmax ltac:(lia)) as [(H1 & H2 & ->)|(Hroom & -> & Hrel)].
  { apply dispatch_refused; try done. rewrite Hp. by constructor. }
  cbn [negb]. set (q' := if 0 <? q_max (b_quota b) then _ else _) in *.
  unfold acquire_credit. change (b_conns (set_quota q' (set_registry r b))) with (b_conns b).
  destruct (b_conns b !! conn) as [c|] eqn:Hc; cbn [negb].
  2: { apply dispatch_refused; try done; [rewrite Hp; by apply rf_gone|]. unfold accounts. simpl. by rewrite Hrel. }
  destruct (Hcr conn c Hc) as [Hc1 Hc2].
  destruct (AcquireCredit_cases (cn_credit c) Hc1 Hc2) as [[Hfull ->]|(Hfree & -> & Hback)]; cbn [negb].
  { apply dispatch_refused; try done; [rewrite Hp; by eapply rf_credit|]. unfold accounts. simpl. by rewrite Hrel. }
  set (b2 := update_credit conn (λ _, _) _).
  assert (b_conns b2 = <[conn := with_inflight (cr_inflight (cn_credit c) + 1) c]> (b_conns b)) as Hb2
    by (unfold b2; rewrite (update_credit_at conn c) by done; done).
  destruct wrote; cbn [negb].
  - split; [by destruct logged|]. exists c. split_and!; try done.
    + unfold accounts, moved. simpl. transitivity (q', b_conns b2); [by destruct logged|]. by rewrite Hb2.
    + by destruct logged.
    + destruct logged; simpl; [done|]. by rewrite app_nil_r.
  - apply dispatch_refused; try done; [rewrite Hp; by constructor|]. unfold accounts. simpl. rewrite Hrel. f_equal.
    change (b_conns (update_credit conn ReleaseCredit b2) = b_conns b).
    rewrite (update_credit_at conn (with_inflight (cr_inflight (cn_credit c) + 1) c)).
    + rewrite Hb2, insert_insert_eq. apply insert_id. rewrite Hc. destruct c. simpl in *. by rewrite Hback.
    + rewrite Hb2. apply lookup_insert_eq.
Qed.

(** C13. Delivery takes one unit of the global quota and one of the consumer's
    credit, never past a limit, and logs the lease; a message that is refused,
    for one of the five reasons, goes back to its queue, and the quota, the
    credits and the log are as before. *)
Theorem dispatch_spec ord wrote logged m b :
  balanced (accounts b) →
  let '(b', r) := dispatch ord wrote logged m b in
  b_chans b' = b_chans b ∧
  match r with
  | Some conn => ∃ c, picked ord m b = Some conn ∧ b_conns b !! conn = Some c ∧ wrote = true ∧
      cr_inflight (cn_credit c) < cr_max (cn_credit c) ∧
      (0 < q_max (b_quota b) → q_inflight (b_quota b) < q_max (b_quota b)) ∧
      accounts b' = moved conn c 1 (accounts b) ∧ b_sched b' = b_sched b ∧
      b_log b' = b_log b ++ (if logged then [lease_event m] else [])
  | None => refused wrote b (picked ord m b) ∧ accounts b' = accounts b ∧
      b_log b' = b_log b ∧ b_sched b' = b_sched (put_back m b)
  end.
Proof. apply dispatch_branches. Qed.

(** ** Runs *)

Lemma iter_Release n q :
  q_max q < 2 ^ 63 → (0 < q_max q → Z.of_nat n ≤ q_inflight q ≤ q_max q) →
  Nat.iter n Release q = if 0 <? q_max q then mkQuota (q_inflight q - Z.of_nat n) (q_max q) else q.
Proof.
  intros Hm. induction n as [|n IH]; intros Hq.
  - simpl. destruct q as [i mx]. simpl. rewrite Z.sub_0_r. by destruct (_ <? _).
  - change (Nat.iter (S n) Release q) with (Release (Nat.iter n Release q)). rewrite IH by lia.
    destruct (Z.ltb_spec 0 (q_max q)) as [Hpos|Hpos].
    + specialize (Hq Hpos). rewrite Release_eq by (simpl; lia). cbn [q_max q_inflight].
      rewrite (proj2 (Z.ltb_lt _ _) Hpos). f_equal. lia.
    + unfold Release. by rewrite (proj2 (Z.ltb_ge _ _) Hpos).
Qed.

Lemma disconnect_balanced conn b : balanced (accounts b) → balanced (accounts (disconnect conn b)).
Proof.
  intros Hb. pose proof (balanced_quota_nonneg _ Hb) as Hnn. unfold disconnect.
  destruct (b_conns b !! conn) as [c|] eqn:Hc; [|done]. destruct Hb as [Hcr Hm Hs Hq]. simpl in *.
  pose proof (Hcr conn c Hc) as [Hc1 _].
  assert (∀ j c', delete conn (b_conns b) !! j = Some c' → 0 ≤ cr_inflight (cn_credit c')) as Hd.
  { intros j c' [_ Hj]%lookup_delete_Some. by apply (Hcr j). }
  pose proof (inflight_sum_nonneg _ Hd). pose proof (inflight_sum_lookup conn c _ Hc).
  rewrite iter_Release by (try done; intros Hp; specialize (Hs Hp); specialize (Hq Hp); lia).
  destruct (Z.ltb_spec 0 (q_max (b_quota b))) as [Hp|Hp]; constructor; simpl; try done; try lia.
  all: intros j c' [_ Hj]%lookup_delete_Some; eauto.
Qed.

Lemma connect_balanced conn ns mx b :
  balanced (accounts b) → b_conns b !! conn = None → 0 ≤ mx < 2 ^ 31 → balanced (accounts (connect conn ns mx b)).
Proof.
  intros [Hcr Hm Hs Hq] Hc Hmx. constructor; simpl in *; try done.
  - intros j c [[_ <-]|[_ Hj]]%lookup_insert_Some; [simpl; lia|eauto].
  - rewrite inflight_sum_insert by done. done.
Qed.

(** A client settles only what it holds: it acknowledges or rejects no more
    messages than it has been sent. *)
Definition settles_held (conn : nat) (f : frame) (b : Broker) : Prop :=
  match f with
  | ACKFrame _ _ _ | NACKFrame _ _ _ _ =>
      ∀ c, b_conns b !! conn = Some c → 0 < cr_inflight (cn_credit c)
  | _ => True
  end.

(** The goroutines of the broker, one atomic turn each, in any order: clients
    arrive, send frames and leave, dispatch workers and scheduler workers take
    an item, the lease sweep and the timing wheel tick, queues are declared and
    deleted. *)
Inductive bstep (b : Broker) : Broker → Prop :=
| bs_connect conn ns mx : b_conns b !! conn = None → 0 ≤ mx < 2 ^ 31 → bstep b (connect conn ns mx b)
| bs_frame e conn f : settles_held conn f b → bstep b (handle_frame e conn f b).1
| bs_leave conn : bstep b (disconnect conn b)
| bs_dispatch ord wrote logged i : bstep b (dispatch_worker ord wrote logged i b)
| bs_activation ord now : bstep b (run_activation ord now b)
| bs_sweep ordg ord logged now : bstep b (sweepLeases ordg ord logged now b)
| bs_tick now : bstep b (set_sched (wheel_tick now (b_sched b)) b)
| bs_register p q : bstep b (set_sched (RegisterQueue p q (b_sched b)) b)
| bs_unregister ns name : bstep b (set_sched (UnregisterQueue ns name (b_sched b)) b).

Lemma handle_frame_balanced e conn f b :
  balanced (accounts b) → settles_held conn f b → balanced (accounts (handle_frame e conn f b).1).
Proof.
  intros Hb Hf. unfold handle_frame. destruct (b_conns b !! conn) as [c|] eqn:Hc; [|done].
  assert (∀ r : Broker * outcome unit, balanced (accounts r.1) →
    balanced (accounts (match r with (b, Panic) => disconnect conn b | (b, Ret _) => b end))) as Hend.
  { intros [b' []] ?; [done|by apply disconnect_balanced]. }
  destruct f; try done.
  - pose proof (accounts_publish (e_ord e) (e_sub e) (e_logged e) (e_id e) (e_now e) (cn_namespace c) Queue Group Payload b) as Ha.
    destruct (onPublish _ _ _ _ _ _ _ _ _ _) as [[b' r] o]. apply (Hend (b', o)). simpl in *. by rewrite Ha.
  - simpl. by rewrite accounts_subscribe.
  - apply Hend. rewrite accounts_ack. apply (release_both_balanced conn c); [done|done|by apply Hf].
  - apply Hend. rewrite accounts_nack. apply (release_both_balanced conn c); [done|done|by apply Hf].
Qed.

Lemma dispatch_worker_balanced ord wrote logged i b :
  balanced (accounts b) → balanced (accounts (dispatch_worker ord wrote logged i b)).
Proof.
  intros Hb. unfold dispatch_worker. destruct (b_chans b !! i) as [[|m ch]|]; try done.
  set (b0 := set_chans _ b). assert (balanced (accounts b0)) as Hb0 by done.
  pose proof (dispatch_branches ord wrote logged m b0 Hb0) as Hd. destruct (dispatch ord wrote logged m b0) as [b' [conn|]].
  - destruct Hd as (_ & c & _ & Hc & _ & Hlt & Hq & Ha & _). simpl. rewrite Ha. pose proof (ba_credit _ Hb0 conn c Hc).
    apply balanced_move; [done|done|lia|]. intros Hp. specialize (Hq Hp). cbn [accounts fst] in *. lia.
  - destruct Hd as (_ & _ & Ha & _). simpl. by rewrite Ha.
Qed.

Lemma bstep_balanced b b' : bstep b b' → balanced (accounts b) → balanced (accounts b').
Proof.
  destruct 1; intros Hb.
  - by apply connect_balanced.
  - by apply handle_frame_balanced.
  - by apply disconnect_balanced.
  - by apply dispatch_worker_balanced.
  - by rewrite accounts_activation.
  - by rewrite accounts_sweep.
  - done.
  - done.
  - done.
Qed.

Lemma Release_max q : q_max (Release q) = q_max q.
Proof. unfold Release. by destruct (0 <? q_max q). Qed.
Lemma iter_Release_max n q : q_max (Nat.iter n Release q) = q_max q.
Proof. induction n as [|n IH]; [done|]. by rewrite <-IH, <-(Release_max (Nat.iter n Release q)). Qed.
Lemma disconnect_max conn b : q_max (b_quota (disconnect conn b)) = q_max (b_quota b).
Proof. unfold disconnect. case_match; [apply iter_Release_max|done]. Qed.

Lemma accounts_max b b' : accounts b = accounts b' → q_max (b_quota b) = q_max (b_quota b').
Proof. by intros [= -> _]. Qed.

Lemma handle_frame_max e conn f b : q_max (b_quota (handle_frame e conn f b).1) = q_max (b_quota b).
Proof.
  unfold handle_frame. destruct (b_conns b !! conn) as [c|] eqn:Hc; [|done].
  assert (∀ r : Broker * outcome unit, q_max (b_quota r.1) = q_max (b_quota b) →
    q_max (b_quota (match r with (b, Panic) => disconnect conn b | (b, Ret _) => b end)) = q_max (b_quota b)) as Hend.
  { intros [b' []] ?; [done|]. by rewrite disconnect_max. }
  destruct f; try done.
  - pose proof (accounts_publish (e_ord e) (e_sub e) (e_logged e) (e_id e) (e_now e) (cn_namespace c) Queue Group Payload b) as Ha.
    destruct (onPublish _ _ _ _ _ _ _ _ _ _) as [[b' r] o]. apply (Hend (b', o)). by apply accounts_max.
  - apply accounts_max, accounts_subscribe.
  - apply Hend. rewrite (accounts_max _ _ (accounts_ack _ _ _ _ _ _ _ _ _)). apply Release_max.
  - apply Hend. rewrite (accounts_max _ _ (accounts_nack _ _ _ _ _ _ _ _ _ _ _ _)). apply Release_max.
Qed.

Lemma bstep_max b b' : bstep b b' → balanced (accounts b) → q_max (b_quota b') = q_max (b_quota b).
Proof.
  destruct 1 as [conn ns mx _ _|e conn f _|conn|ord wrote logged i|ord now|ordg ord logged now|now|p q|ns name]; intros Hb; try done.
  - apply handle_frame_max.
  - apply disconnect_max.
  - unfold dispatch_worker. destruct (b_chans b !! i) as [[|m ch]|]; try done. set (b0 := set_chans _ b).
    pose proof (dispatch_branches ord wrote logged m b0 Hb) as Hd. destruct (dispatch ord wrote logged m b0) as [b' [conn|]].
    + simpl. destruct Hd as (_ & c & _ & _ & _ & _ & _ & [= -> _] & _). by destruct (0 <? _).
    + simpl. destruct Hd as (_ & _ & [= -> _] & _). done.
  - apply accounts_max, accounts_activation.
  - apply accounts_max, accounts_sweep.
Qed.

Lemma bsteps_balanced b b' :
  rtc bstep b b' → balanced (accounts b) → balanced (accounts b') ∧ q_max (b_quota b') = q_max (b_quota b).
Proof.
  induction 1 as [|b1 b2 b3 Hst _ IH]; intros Hb; [done|].
  destruct (IH (bstep_balanced _ _ Hst Hb)) as [? ->]. split; [done|]. by apply bstep_max.
Qed.


(** A consumer subscribes, two messages arrive and are delivered, one is
    acknowledged. *)
Definition test_env (id : string) : env := mkEnv list_order list_sub_order true 1 id 5.
Definition frames (b : Broker) (fs : list (string * frame)) : Broker :=
  foldl (λ b f, (handle_frame (test_env f.1) 7 f.2 b).1) b fs.
Definition start : Broker :=
  connect 7 "ns" 3 (set_sched (RegisterQueue 0 (NewQueue "jobs" "ns") (b_sched (newBroker 5 0 1))) (newBroker 5 0 1)).
Definition loaded : Broker :=
  frames start [("", SubscribeFrame "jobs" "g"); ("a", PublishFrame "jobs" "g" []); ("b", PublishFrame "jobs" "h" [])].
Definition busy : Broker := dispatch_worker list_sub_order true true 0 loaded.

Lemma loaded_reached : rtc bstep (newBroker 5 0 1) loaded.
Proof.
  eapply rtc_l; [apply (bs_register _ 0 (NewQueue "jobs" "ns"))|].
  eapply rtc_l; [apply (bs_connect _ 7 "ns" 3); [done|lia]|].
  eapply rtc_l; [by apply (bs_frame _ (test_env "") 7 (SubscribeFrame "jobs" "g"))|].
  eapply rtc_l; [by apply (bs_frame _ (test_env "a") 7 (PublishFrame "jobs" "g" []))|].
  eapply rtc_l; [by apply (bs_frame _ (test_env "b") 7 (PublishFrame "jobs" "h" []))|]. apply rtc_refl.
Qed.

Lemma busy_reached : rtc bstep (newBroker 5 0 1) busy.
Proof. eapply rtc_r; [apply loaded_reached|]. apply bs_dispatch. Qed.


Definition first_message : Message := newMessageAt "a" "jobs" "ns" "g" [] 1.

Lemma dispatch_spec_witness :
  balanced (accounts loaded) ∧
  (dispatch list_sub_order true true first_message loaded).2 = Some 7%nat ∧
  let '(b', r) := dispatch list_sub_order true true first_message loaded in
  b_chans b' = b_chans loaded ∧
  match r with
  | Some conn => ∃ c, picked list_sub_order first_message loaded = Some conn ∧ b_conns loaded !! conn = Some c ∧ true = true ∧
      cr_inflight (cn_credit c) < cr_max (cn_credit c) ∧
      (0 < q_max (b_quota loaded) → q_inflight (b_quota loaded) < q_max (b_quota loaded)) ∧
      accounts b' = moved conn c 1 (accounts loaded) ∧ b_sched b' = b_sched loaded ∧
      b_log b' = b_log loaded ++ [lease_event first_message]
  | None => refused true loaded (picked list_sub_order first_message loaded) ∧ accounts b' = accounts loaded ∧
      b_log b' = b_log loaded ∧ b_sched b' = b_sched (put_back first_message loaded)
  end.
Proof.
  assert (balanced (accounts loaded)) as Hb.
  { apply (bsteps_balanced _ _ loaded_reached). constructor; simpl; try done; lia. }
  split; [done|]. split; [vm_compute; reflexivity|].
  apply (dispatch_spec list_sub_order true true first_message loaded Hb).
Defined.

(** A client that acknowledges a message it was never sent frees a unit of its
    credit and of the global quota all the same: with room for one message in
    flight, two are, and the counters say one. *)
Theorem spurious_ack_over_admits :
  let b := connect 7 "ns" 1 (set_sched (RegisterQueue 0 (NewQueue "jobs" "ns") (b_sched (newBroker 1 0 1))) (newBroker 1 0 1)) in
  let b := frames b [("", SubscribeFrame "jobs" "*"); ("a", PublishFrame "jobs" "g" []); ("b", PublishFrame "jobs" "h" [])] in
  let b := dispatch_worker list_sub_order true true 0 b in
  let b := frames b [("", ACKFrame "nonsense" "jobs" "g")] in
  let b := dispatch_worker list_sub_order true true 0 b in
  let q := default (NewQueue "" "") (s_store (b_sched b) !! 0%nat) in
  q_inflight (b_quota b) = 1 ∧ inflight_sum (b_conns b) = 1 ∧
  st_Processing <$> (PageGroupStats "" 10 q).1 = [1; 1] ∧
  ev_MsgID <$> filter (λ e, ev_Type e = EventLease) (b_log b) = ["a"; "b"].
Proof. vm_compute. done. Qed.
