(* ===== verification/BrokerCrash.v ===== *)
(** * Crash equivalence

    The broker's handlers and the recovery of its log, put together: after any
    run of publications, deliveries and acknowledgements, the log of a queue,
    replayed into an empty queue, rebuilds the groups the broker holds in
    memory. *)

From stdpp Require Import base gmap list strings.
From Stdlib Require Import ZArith Lia Strings.Byte.
From S2P Require Import Prelude Heap Message Group GroupInv GroupDrain GroupSettle KeyIndex ConfigIdx Queue QueueInv QueueHist Codec WalRecord Snapshot Recovery RecoveryInv TimingWheel Registry Scheduler Broker BrokerInv.
Local Open Scope Z_scope.
Local Open Scope list_scope.

(** ** Steps that move no message in or out of a queue *)

Definition ids_in (k : string) (q : Queue) : list string :=
  match GetGroup k q with Some g => group_ids g | None => [] end.

Record same_ids (q q' : Queue) : Prop := {
  si_wf : queue_wf q';
  si_ids : ∀ k, ids_in k q' ≡ₚ ids_in k q;
}.

Lemma same_ids_refl q : queue_wf q → same_ids q q.
Proof. by split. Qed.
Lemma same_ids_trans q1 q2 q3 : same_ids q1 q2 → same_ids q2 q3 → same_ids q1 q3.
Proof. intros [_ H1] [H2 H3]. split; [done|]. intros k. by rewrite H3. Qed.

Lemma ids_in_put k g q k' :
  shards_wf q → ids_in k' (put_group k g q) = if decide (k' = k) then group_ids g else ids_in k' q.
Proof. intros Hw. unfold ids_in. rewrite GetGroup_put by done. by case_decide. Qed.

(** The events of a queue operation tell how the group's messages changed. *)
Lemma op_ids op k q :
  queue_wf q →
  queue_wf (run_op op k q).1 ∧ (run_op op k q).2 = true ∧
  (∀ k', k' ≠ k → ids_in k' (run_op op k q).1 = ids_in k' q) ∧
  match GetGroup k q with
  | None => ids_in k (run_op op k q).1 = []
  | Some g => group_ids g ++ enqueued (op_events op g) ≡ₚ
      ids_in k (run_op op k q).1 ++ completed (op_events op g) ++ dead (op_events op g)
  end.
Proof.
  intros Hwf. destruct (op_post op k q Hwf) as [Hwf' _]. pose proof (run_op_acts op k q Hwf) as Ha.
  unfold acts in Ha. split; [done|]. destruct (GetGroup k q) as [g|] eqn:E.
  - destruct Ha as (g' & -> & Hs & ->). split; [done|]. split.
    + intros k' Hk. rewrite ids_in_put by apply Hwf. by rewrite decide_False.
    + rewrite ids_in_put by apply Hwf. rewrite decide_True by done.
      destruct (qw_group q Hwf k g E) as [Hg _]. by destruct (gsteps_post g _ g' Hg Hs).
  - destruct Ha as [-> ->]. split; [done|]. split; [done|]. unfold ids_in. by rewrite E.
Qed.

Definition silent (op : group_op) : Prop := ∀ g, op_events op g = [].

Lemma op_same_ids op k q : silent op → queue_wf q → same_ids q (run_op op k q).1.
Proof.
  intros Hop Hwf. destruct (op_ids op k q Hwf) as (Hw & _ & Ho & Hi). split; [done|].
  intros k'. destruct (decide (k' = k)) as [->|Hk]; [|by rewrite Ho].
  unfold ids_in at 2. destruct (GetGroup k q) as [g|]; [|by rewrite Hi].
  rewrite Hop in Hi. simpl in Hi. by rewrite !app_nil_r in Hi.
Qed.

Lemma flags_same_ids {A} k (h : group → group * A) d q :
  flags_only h → queue_wf q → same_ids q (with_group k h d q).1.
Proof.
  intros Hh Hwf. destruct (with_flags k h d q Hwf Hh) as [Hw _ _]. split; [done|].
  intros k'. unfold ids_in. rewrite GetGroup_with by apply Hwf. case_decide as Hk; [subst|done].
  destruct (GetGroup k q) as [g|]; [|done]. simpl. by destruct (Hh g) as (f & w & ->).
Qed.

(** ** Quiet steps of the scheduler *)

Definition quiet (p : nat) (s s' : Scheduler) : Prop :=
  s_queues s' = s_queues s ∧
  ∀ q, s_store s !! p = Some q → queue_wf q → ∃ q', s_store s' !! p = Some q' ∧ same_ids q q'.

#[export] Instance quiet_refl p : Reflexive (quiet p).
Proof. intros s. split; [done|]. intros q Hq Hwf. exists q. split; [done|]. by apply same_ids_refl. Qed.
#[export] Instance quiet_trans p : Transitive (quiet p).
Proof.
  intros s1 s2 s3 [E1 H1] [E2 H2]. split; [congruence|]. intros q Hq Hwf.
  destruct (H1 q Hq Hwf) as (q2 & Hq2 & Hs2). destruct (H2 q2 Hq2 (si_wf _ _ Hs2)) as (q3 & Hq3 & Hs3).
  exists q3. split; [done|]. by eapply same_ids_trans.
Qed.

Lemma quiet_same p s s' : s_queues s' = s_queues s → s_store s' = s_store s → quiet p s s'.
Proof. intros E1 E2. split; [done|]. intros q Hq Hwf. exists q. rewrite E2. split; [done|]. by apply same_ids_refl. Qed.

Lemma on_queue_quiet {A} p p' (f : Queue → Queue * A) s :
  (∀ q, queue_wf q → same_ids q (f q).1) → quiet p s (on_queue p' f s).1.
Proof.
  intros Hf. unfold on_queue. destruct (s_store s !! p') as [q'|] eqn:E; [|done].
  pose proof (Hf q') as Hq'. destruct (f q') as [q2 a]. split; [done|]. simpl. intros q Hq Hwf.
  destruct (decide (p = p')) as [->|Hp].
  - rewrite lookup_insert_eq. exists q2. split; [done|]. assert (q' = q) as -> by congruence. by apply Hq'.
  - rewrite lookup_insert_ne by done. exists q. split; [done|]. by apply same_ids_refl.
Qed.

Lemma Activate_quiet p p' k s : quiet p s (Activate p' k s).
Proof.
  unfold Activate. case_bool_decide; [done|]. unfold try_schedule.
  pose proof (on_queue_quiet p p' (with_group k TrySchedule false) s (λ q, flags_same_ids k _ _ q flags_TrySchedule)) as H1.
  destruct (on_queue p' _ s) as [s1 [[]|]]; try done. case_match.
  - etransitivity; [exact H1|]. by apply quiet_same.
  - etransitivity; [exact H1|]. apply on_queue_quiet. intros q Hq. apply flags_same_ids; [apply flags_Unschedule|done].
Qed.

Lemma flags_ClearWake e : flags_only (λ g, (ClearWake e g, ())).
Proof.
  intros g. unfold ClearWake. exists (isScheduled g), (if wakeScheduledAt g =? e then 0 else wakeScheduledAt g).
  simpl. destruct (wakeScheduledAt g =? e); by destruct g.
Qed.

Lemma fire_wake_quiet p w s : quiet p s (fire_wake w s).
Proof.
  unfold fire_wake. etransitivity; [|apply Activate_quiet]. apply on_queue_quiet.
  intros q Hq. apply flags_same_ids; [apply flags_ClearWake|done].
Qed.

Lemma wheel_tick_quiet p now s : quiet p s (wheel_tick now s).
Proof.
  unfold wheel_tick. destruct (tick now (s_wheel s)) as [w due].
  set (s1 := mkScheduler _ _ _ _ _). transitivity s1; [by apply quiet_same|]. generalize s1. clear.
  induction due as [|t due IH]; intros s; simpl; [done|]. etransitivity; [|apply IH].
  case_match; [apply fire_wake_quiet|done].
Qed.

Lemma scheduleWake_quiet p p' k now w s : quiet p s (scheduleWake p' k now w s).
Proof.
  unfold scheduleWake, set_wake.
  pose proof (on_queue_quiet p p' _ s (λ q, flags_same_ids k _ false q (flags_set_wake (UnixNano w)))) as H1.
  by destruct (on_queue p' _ s) as [s1 [[]|]].
Qed.

Lemma return_all_same_ids k (ms : list Message) q :
  queue_wf q → same_ids q (foldl (λ q m, ReturnToPending k (ID m) q) q ms).
Proof.
  revert q. induction ms as [|m ms IH]; intros q Hwf; simpl; [by apply same_ids_refl|].
  pose proof (op_same_ids (OpReturn (ID m)) k q (λ _, eq_refl) Hwf) as H1. simpl in H1.
  eapply same_ids_trans; [exact H1|]. apply IH. apply H1.
Qed.

Lemma processActivation_quiet {B} (d : Message → B → B * bool) ord a now s b p :
  quiet p s (processActivation d ord a now s b).1.1.
Proof.
  unfold processActivation. destruct a as [p' k]. cbn [a_queue a_group].
  set (s1 := (on_queue p' (λ q, (unschedule k q, tt)) s).1).
  assert (quiet p s s1) as H1.
  { apply on_queue_quiet. intros q Hq. apply flags_same_ids; [apply flags_Unschedule|done]. }
  assert (quiet p s1 (on_queue p' (DrainGroup ord k now) s1).1) as H2.
  { apply on_queue_quiet. intros q Hq. pose proof (op_same_ids (OpDrain ord now) k q (λ _, eq_refl) Hq) as H.
    simpl in H. by destruct (DrainGroup ord k now q). }
  destruct (on_queue p' (DrainGroup ord k now) s1) as [s2 [[r|]|]]; try by etransitivity.
  destruct (hand_over d (default [] (d_ready r)) b) as [[b' delivered] undelivered].
  set (s3 := (on_queue p' _ s2).1).
  assert (quiet p s s3) as H3.
  { etransitivity; [exact H1|]. etransitivity; [exact H2|]. apply on_queue_quiet.
    intros q Hq. by apply return_all_same_ids. }
  case_bool_decide; cbn [negb fst]; [|done].
  repeat case_match; [|etransitivity; [exact H3|apply Activate_quiet]|done].
  etransitivity; [exact H3|apply scheduleWake_quiet].
Qed.

(** ** Quiet steps of the broker *)

(** Neither the messages of the queue at [p] nor the log change. *)
Definition bquiet (p : nat) (b b' : Broker) : Prop :=
  quiet p (b_sched b) (b_sched b') ∧ b_log b' = b_log b.

#[export] Instance bquiet_refl p : Reflexive (bquiet p).
Proof. by split. Qed.
#[export] Instance bquiet_trans p : Transitive (bquiet p).
Proof. intros b1 b2 b3 [H1 E1] [H2 E2]. split; [by etransitivity|congruence]. Qed.

Lemma bquiet_same p b b' : b_sched b' = b_sched b → b_log b' = b_log b → bquiet p b b'.
Proof. intros E1 E2. split; [by rewrite E1|done]. Qed.

Create HintDb quiet.
#[export] Hint Resolve bquiet_refl : quiet.

Lemma call_quiet {A} p p' (f : Queue → Queue * A) b :
  (∀ q, queue_wf q → same_ids q (f q).1) → bquiet p b (call p' f b).1.
Proof.
  intros Hf. unfold call. pose proof (on_queue_quiet p p' f (b_sched b) Hf).
  by destruct (on_queue p' f (b_sched b)).
Qed.

Lemma call_op_quiet {A} p p' (f : Queue → Queue * A) op k b :
  silent op → (∀ q, (f q).1 = (run_op op k q).1) → bquiet p b (call p' f b).1.
Proof. intros Hop Hf. apply call_quiet. intros q Hq. rewrite Hf. by apply op_same_ids. Qed.

Lemma return_quiet p p' k id b : bquiet p b (return_to_pending p' k id b).
Proof. unfold return_to_pending, call_. by apply (call_op_quiet _ _ _ (OpReturn id) k). Qed.

Lemma activate_quiet p p' k b : bquiet p b (activate p' k b).
Proof. split; [apply Activate_quiet|done]. Qed.

Lemma put_back_quiet p m b : bquiet p b (put_back m b).
Proof. unfold put_back. case_match; [apply return_quiet|done]. Qed.

Lemma enqueue_quiet p m b : bquiet p b (enqueueDispatch m b).1.
Proof. unfold enqueueDispatch. repeat case_match; simpl; by apply bquiet_same. Qed.

Lemma enqueue_next_quiet p m b : bquiet p b (enqueue_next m b).
Proof. destruct m; [apply enqueue_quiet|done]. Qed.

Lemma enqueue_or_return_quiet p p' k m b : bquiet p b (enqueue_or_return p' k m b).
Proof.
  unfold enqueue_or_return. pose proof (enqueue_quiet p m b) as H. destruct (enqueueDispatch m b) as [b' []]; [done|].
  etransitivity; [exact H|apply return_quiet].
Qed.

Lemma release_both_quiet p conn b : bquiet p b (release_both conn b).
Proof. by apply bquiet_same. Qed.

Lemma disconnect_quiet p conn b : bquiet p b (disconnect conn b).
Proof. unfold disconnect. case_match; [by apply bquiet_same|done]. Qed.

Lemma subscribe_quiet p fuel conn ns q g b : bquiet p b (onSubscribe fuel conn ns q g b).
Proof.
  unfold onSubscribe. set (b1 := set_registry _ b). transitivity b1; [by apply bquiet_same|].
  destruct (get_queue ns q b1) as [p'|]; [|done]. destruct (isGlobPattern g); [|apply activate_quiet].
  generalize "" as after, b1. clear. induction fuel as [|fuel IH]; intros after b; simpl; [done|].
  case_match; [|done]. destruct (PageGroupStats after 1000 _) as [stats next].
  set (b2 := foldl _ b stats). assert (bquiet p b b2) as Hb2.
  { unfold b2. clear. revert b. induction stats as [|st stats IHs]; intros b; simpl; [done|].
    etransitivity; [apply (activate_quiet p p' (st_Key st))|apply IHs]. }
  case_bool_decide; [done|]. etransitivity; [exact Hb2|apply IH].
Qed.

Lemma activation_quiet p ord now b : bquiet p b (run_activation ord now b).
Proof.
  unfold run_activation. destruct (s_active (b_sched b)) as [|a rest] eqn:E; [done|].
  pose proof (processActivation_quiet enqueueDispatch ord a now (set_active rest (b_sched b)) b p) as Hq.
  assert (b_log (processActivation enqueueDispatch ord a now (set_active rest (b_sched b)) b).1.2 = b_log b) as Hl.
  { unfold processActivation. destruct (on_queue (a_queue a) (DrainGroup _ _ _) _) as [s [[d|]|]]; try done.
    assert (∀ ms b, b_log (hand_over enqueueDispatch ms b).1.1 = b_log b) as Hh.
    { induction ms as [|m ms IH]; intros b'; simpl; [done|]. pose proof (enqueue_quiet 0 m b') as [_ He].
      destruct (enqueueDispatch m b') as [b'' []]; [|done]. specialize (IH b'').
      destruct (hand_over enqueueDispatch ms b'') as [[? ?] ?]. simpl in *. congruence. }
    specialize (Hh (default [] (d_ready d)) b).
    destruct (hand_over enqueueDispatch (default [] (d_ready d)) b) as [[b' delivered] undelivered].
    by destruct (negb _). }
  destruct (processActivation _ _ _ _ _ _) as [[s' b'] o]. simpl in *. split; [|done].
  etransitivity; [|exact Hq]. by apply quiet_same.
Qed.

(** A dispatch worker may log a lease. *)
Lemma dispatch_quiet p ord wrote logged m b :
  quiet p (b_sched b) (b_sched (dispatch ord wrote logged m b).1) ∧
  (b_log (dispatch ord wrote logged m b).1 = b_log b ∨ b_log (dispatch ord wrote logged m b).1 = b_log b ++ [lease_event m]).
Proof.
  assert (∀ b1, bquiet p b b1 → quiet p (b_sched b) (b_sched (put_back m b1)) ∧ b_log (put_back m b1) = b_log b) as Hpb.
  { intros b1 Hb1. destruct (put_back_quiet p m b1) as [H1 H2], Hb1 as [H3 H4]. split; [by etransitivity|congruence]. }
  unfold dispatch. destruct (reg_next ord _ _ _ _) as [r [conn|]]; [|destruct (Hpb (set_registry r b)); [by apply bquiet_same|tauto]].
  destruct (TryAcquire _) as [q' []]; cbn [negb]; [|destruct (Hpb (set_registry r b)); [by apply bquiet_same|tauto]].
  set (b1 := set_quota q' _).
  assert (b_sched (acquire_credit conn b1).1 = b_sched b ∧ b_log (acquire_credit conn b1).1 = b_log b) as [H1 H2].
  { unfold acquire_credit. case_match; [|done]. destruct (AcquireCredit _) as [cr []]; done. }
  destruct (acquire_credit conn b1) as [b2 []]; cbn [negb fst] in *.
  2: { destruct (Hpb (set_quota (Release (b_quota b2)) b2)); [by apply bquiet_same|tauto]. }
  destruct wrote; cbn [negb].
  - destruct logged; simpl; rewrite H1, H2; split; try done; [by right|by left].
  - set (b3 := set_quota _ (update_credit conn ReleaseCredit b2)). destruct (Hpb b3); [by apply bquiet_same|tauto].
Qed.

(** ** Memory and log agree *)

(** The log of a queue: the events filed under its key. *)
Definition event_key (e : Event) : string := queueKey (ev_Namespace e) (ev_Queue e).
Definition qlog (key : string) (log : list Event) : list Event := filter (λ e, event_key e = key) log.

Record tracks (p : nat) (key : string) (b : Broker) : Prop := {
  tr_reg : ∀ key', s_queues (b_sched b) !! key' = Some p ↔ key' = key;
  tr_queue : ∃ q, s_store (b_sched b) !! p = Some q ∧ queue_wf q ∧
    ∀ k, ids_in k q ≡ₚ (live_in k (qlog key (b_log b))).*1;
  tr_log : Forall settled_first_time (qlog key (b_log b));
  tr_nodup : NoDup (published_ids (qlog key (b_log b)));
}.

Lemma qlog_snoc key log e :
  qlog key (log ++ [e]) = qlog key log ++ (if decide (event_key e = key) then [e] else []).
Proof. unfold qlog. rewrite filter_app, filter_cons, filter_nil. by case_decide. Qed.

Lemma live_in_snoc k log e : live_in k (log ++ [e]) = live_step k (live_in k log) e.
Proof. unfold live_in. by rewrite foldl_app. Qed.

Lemma published_snoc log e :
  published_ids (log ++ [e]) = published_ids log ++ (if ev_Type e =? EventPublish then [ev_MsgID e] else []).
Proof.
  unfold published_ids. rewrite filter_app, fmap_app, filter_cons, filter_nil. f_equal.
  destruct (Z.eqb_spec (ev_Type e) EventPublish) as [H|H]; [by rewrite decide_True|by rewrite decide_False].
Qed.

Lemma live_published k log x : x ∈ (live_in k log).*1 → x ∈ published_ids log.
Proof.
  induction log as [|e log IH] using rev_ind; [done|]. rewrite live_in_snoc, published_snoc.
  intros [Hx|[Hp ->]]%live_step_ids; apply elem_of_app; [left; auto|right].
  unfold is_publish in Hp. rewrite Hp. simpl. by left.
Qed.

(** One event more in the log, with what the queue did about it. *)
Lemma tracks_log p key b b' e :
  tracks p key b → b_log b' = b_log b ++ [e] → s_queues (b_sched b') = s_queues (b_sched b) →
  (∀ q, s_store (b_sched b) !! p = Some q → queue_wf q → ∃ q', s_store (b_sched b') !! p = Some q' ∧ queue_wf q' ∧
     if decide (event_key e = key)
     then settled_first_time e ∧ (ev_Type e = EventPublish → ev_MsgID e ∉ published_ids (qlog key (b_log b))) ∧
          ∀ k l, ids_in k q ≡ₚ l.*1 → ids_in k q' ≡ₚ (live_step k l e).*1
     else ∀ k, ids_in k q' ≡ₚ ids_in k q) →
  tracks p key b'.
Proof.
  intros [Hr (q & Hq & Hwf & Hids) Hl Hnd] Elog Eq Hst. destruct (Hst q Hq Hwf) as (q' & Hq' & Hwf' & He).
  assert (qlog key (b_log b') = qlog key (b_log b) ++ (if decide (event_key e = key) then [e] else [])) as El
    by (by rewrite Elog, qlog_snoc).
  case_decide.
  - destruct He as (Hty & Hfr & Hstep). split; rewrite ?El.
    + by rewrite Eq.
    + exists q'. split_and!; try done. intros k. rewrite live_in_snoc. by apply Hstep.
    + apply Forall_app. split; [done|]. by constructor.
    + rewrite published_snoc. destruct (Z.eqb_spec (ev_Type e) EventPublish); [|by rewrite app_nil_r].
      rewrite Permutation_app_comm. simpl. constructor; auto.
  - rewrite app_nil_r in El. split; rewrite ?El; [by rewrite Eq| |done|done].
    exists q'. split_and!; try done. intros k. by rewrite He.
Qed.

Lemma tracks_quiet p key b b' : bquiet p b b' → tracks p key b → tracks p key b'.
Proof.
  intros [[Eq Hst] El] [Hr (q & Hq & Hwf & Hids) Hl Hnd]. destruct (Hst q Hq Hwf) as (q' & Hq' & Hwf' & Hids').
  split; rewrite ?El; [by rewrite Eq| |done|done]. exists q'. split_and!; try done. intros k. by rewrite Hids'.
Qed.

Lemma call_other {A} p p' (f : Queue → Queue * A) b : p' ≠ p → bquiet p b (call p' f b).1.
Proof.
  intros Hp. unfold call, on_queue. destruct (s_store (b_sched b) !! p') as [q'|]; [|done].
  destruct (f q') as [q2 a]. split; [|done]. split; [done|]. simpl. intros q Hq Hwf.
  rewrite lookup_insert_ne by done. exists q. split; [done|]. by apply same_ids_refl.
Qed.

Lemma call_at {A} p (f : Queue → Queue * A) b q :
  s_store (b_sched b) !! p = Some q →
  (call p f b).2 = Some (f q).2 ∧ s_store (b_sched (call p f b).1) !! p = Some (f q).1 ∧
  s_queues (b_sched (call p f b).1) = s_queues (b_sched b) ∧ b_log (call p f b).1 = b_log b.
Proof.
  intros Hq. unfold call, on_queue. rewrite Hq. destruct (f q) as [q' a]. simpl. by rewrite lookup_insert_eq.
Qed.

Lemma dispatch_worker_tracks p key ord wrote logged i b :
  tracks p key b → tracks p key (dispatch_worker ord wrote logged i b).
Proof.
  intros Ht. unfold dispatch_worker. destruct (b_chans b !! i) as [[|m ch]|]; try done.
  set (b0 := set_chans _ b). assert (tracks p key b0) as Ht0 by (by apply (tracks_quiet _ _ b); [apply bquiet_same|]).
  destruct (dispatch_quiet p ord wrote logged m b0) as [[Eq Hst] [El|El]].
  - by apply (tracks_quiet _ _ b0).
  - apply (tracks_log p key b0 _ (lease_event m)); try done. intros q Hq Hwf.
    destruct (Hst q Hq Hwf) as (q' & Hq' & Hwf' & Hids). exists q'. split; [done|]. split; [done|].
    case_decide; [|done]. split; [right; by left|]. split; [done|]. intros k l Hl. rewrite Hids, Hl.
    unfold live_step. simpl. by case_bool_decide.
Qed.

(** The message is not waiting in its group: it is in flight or unknown. *)
Definition not_waiting (k id : string) (q : Queue) : Prop :=
  ∀ g, GetGroup k q = Some g → id ∉ ID <$> pending g.

Lemma filter_fst id (l : list (string * list byte)) :
  (filter (λ t, t.1 ≠ id) l).*1 = filter (λ x, x ≠ id) l.*1.
Proof. induction l as [|[x y] l IH]; [done|]. rewrite fmap_cons, !filter_cons. simpl. by case_decide; csimpl; rewrite IH. Qed.

Lemma complete_ids ord k id now q :
  queue_wf q → not_waiting k id q →
  let r := CompleteAndNext ord k id now q in
  is_ret r.2 = true ∧ queue_wf r.1 ∧
  ∀ k' (l : list (string * list byte)), ids_in k' q ≡ₚ l.*1 →
    ids_in k' r.1 ≡ₚ (if decide (k = k') then filter (λ t : string * list byte, t.1 ≠ id) l else l).*1.
Proof.
  intros Hwf Hnw r. destruct (op_ids (OpCompleteAndNext ord id now) k q Hwf) as (Hw & Hret & Ho & Hi).
  cbn [run_op op_events] in *. fold r in Hw, Hret, Ho, Hi. destruct r as [q' o]. simpl in *.
  split; [done|]. split; [done|]. intros k' l Hl. case_decide as Hk; [subst k'|by rewrite Ho].
  rewrite filter_fst, <-Hl. destruct (GetGroup k q) as [g|] eqn:E; [|unfold ids_in in *; by rewrite E, Hi].
  assert (ids_in k q = group_ids g) as Hg by (unfold ids_in; by rewrite E).
  destruct (qw_group q Hwf k g E) as [Hgw _]. pose proof (wf_nodup g Hgw) as Hnd. rewrite Hg.
  unfold complete_events in Hi. destruct (map_get (processing g) id) as [m|] eqn:Em; simpl in Hi.
  - rewrite app_nil_r, (Permutation_app_comm _ [id]) in Hi. simpl in Hi. rewrite Hi in Hnd |- *.
    apply NoDup_cons in Hnd as [Hni _]. rewrite filter_cons_False by tauto.
    rewrite filter_all; [done|]. apply Forall_forall. intros x Hx ->. done.
  - rewrite !app_nil_r in Hi. rewrite filter_all; [by rewrite Hi|]. apply Forall_forall. intros x Hx ->.
    unfold group_ids, group_msgs in Hx. rewrite fmap_app in Hx. apply elem_of_app in Hx as [Hx|Hx]; [by eapply Hnw|].
    apply list_elem_of_fmap in Hx as (m & -> & [k0 Hk0]%elem_of_inflight).
    pose proof (wf_keys g Hgw _ _ Hk0). congruence.
Qed.

Lemma get_queue_key p key b ns name p' :
  tracks p key b → get_queue ns name b = Some p' → p' = p ↔ queueKey ns name = key.
Proof.
  intros Ht. unfold get_queue, GetQueue. intros Hg. pose proof (proj2 (tr_reg _ _ _ Ht key) eq_refl) as Hk.
  split; [intros ->; by apply (tr_reg _ _ _ Ht)|intros Heq; congruence].
Qed.

Lemma ack_call_tracks p key b ns name g id ord now p' :
  tracks p key b → get_queue ns name b = Some p' →
  (p' = p → ∀ q, s_store (b_sched b) !! p = Some q → not_waiting g id q) →
  tracks p key (call p' (CompleteAndNext ord g id now)
    (DecGlobalMsgs (add_log (wal_event EventACK ns name g id []) b))).1.
Proof.
  intros Ht Hg Hnw. set (e := wal_event _ _ _ _ _ _). set (b1 := DecGlobalMsgs (add_log e b)).
  pose proof (get_queue_key p key b ns name p' Ht Hg) as Hkey. destruct (decide (p' = p)) as [->|Hp].
  - destruct (tr_queue _ _ _ Ht) as (q0 & Hq0 & _).
    destruct (call_at p (CompleteAndNext ord g id now) b1 q0 Hq0) as (_ & Hs & Eq & El).
    apply (tracks_log p key b _ e); [done|by rewrite El|by rewrite Eq|]. intros q Hq Hwf.
    assert (q0 = q) as -> by congruence.
    destruct (complete_ids ord g id now q Hwf (Hnw eq_refl q Hq)) as (_ & Hw & Hids).
    eexists. split; [exact Hs|]. split; [done|]. rewrite decide_True by (by apply Hkey).
    split; [by right; right|]. split; [done|]. intros k l Hl. rewrite (Hids k l Hl). unfold live_step. simpl.
    case_decide; case_bool_decide; try done.
  - destruct (call_other p p' (CompleteAndNext ord g id now) b1 Hp) as [[Eq Hs] El].
    apply (tracks_log p key b _ e); [done|by rewrite El|by rewrite Eq|]. intros q Hq Hwf.
    destruct (Hs q Hq Hwf) as (q' & Hq' & Hwf' & Hids). exists q'. split; [done|]. split; [done|].
    rewrite decide_False; [done|]. intros Heq. by apply Hp, Hkey.
Qed.

Lemma ack_tracks p key b ord logged now conn ns name g id :
  tracks p key b →
  (∀ q, queueKey ns name = key → s_store (b_sched b) !! p = Some q → not_waiting g id q) →
  tracks p key (onACK ord logged now conn ns name g id b).1.
Proof.
  intros Ht Hnw. unfold onACK. set (b1 := release_both conn b).
  assert (tracks p key b1) as Ht1 by (by apply (tracks_quiet _ _ b); [apply release_both_quiet|]).
  destruct (get_queue ns name b1) as [p'|] eqn:Hg; [|done]. destruct logged; [|done]. cbn [wal_append].
  pose proof (ack_call_tracks p key b1 ns name g id ord now p' Ht1 Hg) as Hc.
  destruct (call p' _ _) as [b2 [[next|]|]]; cbn [fst] in *.
  1: eapply tracks_quiet; [etransitivity; [apply (enqueue_next_quiet p next)|apply activate_quiet]|].
  all: apply Hc; intros -> q Hq; apply Hnw; [|done]; by apply (get_queue_key p key b1 ns name p Ht1 Hg).
Qed.

(** The group has room for one more message. *)
Definition has_room (k : string) (q : Queue) : Prop := depth_exceeded (group_or_new k q) = false.

Lemma group_or_new_ids k q : group_ids (group_or_new k q) = ids_in k q.
Proof. unfold group_or_new, ids_in. by destruct (GetGroup k q). Qed.

Lemma publish_ids gen now k id payload q :
  queue_wf q → has_room k q → id ∉ ids_in k q →
  let r := PublishWithID gen now k id payload q in
  (∃ m, r.2 = inl m ∧ ID m = id) ∧ queue_wf r.1 ∧
  ∀ k', ids_in k' r.1 ≡ₚ (if decide (k = k') then [id] else []) ++ ids_in k' q.
Proof.
  intros Hwf Hroom Hni r.
  destruct (publish_accepted gen (Some id) now k payload q Hwf Hroom) as (q' & Hpub & Hwf' & Hfl & _).
  { simpl. by rewrite group_or_new_ids. }
  unfold r, PublishWithID. rewrite Hpub. cbn [fst snd]. split; [by eexists|]. split; [done|].
  intros k'. unfold ids_in at 1. rewrite <-flat_lookup, Hfl by apply Hwf'. case_decide as Hk; [subst k'|].
  - rewrite lookup_insert_eq, enqueue_ids by (apply (wf_heads (group_or_new k q)), group_or_new_wf, Hwf).
    by rewrite group_or_new_ids.
  - rewrite lookup_insert_ne, flat_lookup by (done || apply Hwf). done.
Qed.

Lemma fresh_in_group p key b q k id :
  tracks p key b → s_store (b_sched b) !! p = Some q → id ∉ published_ids (qlog key (b_log b)) → id ∉ ids_in k q.
Proof.
  intros Ht Hq Hf Hin. destruct (tr_queue _ _ _ Ht) as (q0 & Hq0 & _ & Hids). assert (q0 = q) as -> by congruence.
  apply Hf, (live_published k). by rewrite <-(Hids k).
Qed.

Lemma publish_call_tracks p key b ns name k id payload gen now p' :
  tracks p key b → get_queue ns name b = Some p' →
  (p' = p → id ∉ published_ids (qlog key (b_log b)) ∧ ∀ q, s_store (b_sched b) !! p = Some q → has_room k q) →
  let r := call p' (PublishWithID gen now k id payload) (add_log (wal_event EventPublish ns name k id payload) b) in
  tracks p key r.1 ∧ (p' = p → ∃ m, r.2 = Some (inl m) ∧ ID m = id).
Proof.
  intros Ht Hg Hfr r. set (e := wal_event _ _ _ _ _ _) in r. set (b1 := add_log e b) in r.
  pose proof (get_queue_key p key b ns name p' Ht Hg) as Hkey. destruct (decide (p' = p)) as [->|Hp].
  - destruct (tr_queue _ _ _ Ht) as (q & Hq & Hwf & _). destruct (Hfr eq_refl) as [Hf Hroom].
    destruct (publish_ids gen now k id payload q Hwf (Hroom q Hq)) as ((m & Hm & Hid) & Hw & Hids);
      [by eapply fresh_in_group|].
    destruct (call_at p (PublishWithID gen now k id payload) b1 q Hq) as (Hr & Hs & Eq & El).
    split; [|intros _; exists m; split; [|done]; unfold r; by rewrite Hr, Hm].
    apply (tracks_log p key b _ e); [done|unfold r; by rewrite El|unfold r; by rewrite Eq|]. intros q0 Hq0 _.
    assert (q0 = q) as -> by congruence. eexists. split; [exact Hs|]. split; [done|].
    rewrite decide_True by (by apply Hkey). split; [by left|]. split; [done|]. intros k' l Hl. rewrite Hids, Hl.
    unfold live_step. simpl. case_decide; case_bool_decide; try done.
  - split; [|done]. destruct (call_other p p' (PublishWithID gen now k id payload) b1 Hp) as [[Eq Hs] El].
    apply (tracks_log p key b _ e); [done|unfold r; by rewrite El|unfold r; by rewrite Eq|]. intros q Hq Hwf.
    destruct (Hs q Hq Hwf) as (q' & Hq' & Hwf' & Hids). exists q'. split; [done|]. split; [done|].
    rewrite decide_False; [done|]. intros Heq. by apply Hp, Hkey.
Qed.

Lemma inc_quiet p b : bquiet p b (IncGlobalMsgs b).1.
Proof. unfold IncGlobalMsgs. repeat case_match; by apply bquiet_same. Qed.

Lemma publish_tracks p key b ord sord logged id now ns name k payload :
  tracks p key b →
  (queueKey ns name = key → id ∉ published_ids (qlog key (b_log b)) ∧
     ∀ q, s_store (b_sched b) !! p = Some q → has_room k q) →
  tracks p key (onPublish ord sord logged id now ns name k payload b).1.1.
Proof.
  intros Ht Hfr. unfold onPublish. destruct (get_queue ns name b) as [p'|] eqn:Hg; [|done].
  pose proof (inc_quiet p b) as Hinc. destruct (IncGlobalMsgs b) as [b1 ok] eqn:E1. cbn [fst] in Hinc.
  assert (tracks p key b1) as Ht1 by (by eapply tracks_quiet).
  destruct ok; [|done]. destruct logged; [|by apply (tracks_quiet _ _ b1); [apply bquiet_same|]]. cbn [wal_append].
  assert (s_store (b_sched b1) = s_store (b_sched b) ∧ b_log b1 = b_log b ∧ get_queue ns name b1 = Some p') as (Es & El & Hg1).
  { unfold IncGlobalMsgs in E1. repeat case_match; by simplify_eq. }
  destruct (publish_call_tracks p key b1 ns name k id payload "" now p' Ht1 Hg1) as [Htp _].
  { intros ->. rewrite El, Es. apply Hfr. by apply (get_queue_key p key b ns name p Ht Hg). }
  destruct (call p' (PublishWithID _ _ _ _ _) _) as [b2 [[m|err]|]]; cbn [fst] in Htp.
  2, 3: by apply (tracks_quiet _ _ b2); [apply bquiet_same|].
  assert (bquiet p b2 (call p' (TryDispatchOne ord k now) b2).1) as Hq2.
  { apply (call_op_quiet _ _ _ (OpTryDispatchOne ord now) k); [done|]. intros q. simpl. by destruct (TryDispatchOne ord k now q). }
  destruct (call p' (TryDispatchOne ord k now) b2) as [b3 o]. cbn [fst] in Hq2.
  assert (∀ b4, bquiet p b3 b4 → tracks p key (if reg_has sord ns name k (b_registry b4) then activate p' k b4 else b4)) as Hend.
  { intros b4 H4. assert (tracks p key b4) as Ht4 by (by do 2 (eapply tracks_quiet; [done|])).
    case_match; [|done]. eapply tracks_quiet; [apply activate_quiet|done]. }
  destruct o as [[[m'|]|]|]; cbn [fst]; try by apply Hend.
  - apply Hend, enqueue_or_return_quiet.
  - by eapply tracks_quiet.
Qed.

(** ** Runs *)

Section run.
Context (p : nat) (key : string).

(** A turn of the broker in a run without rejections and expired leases: the
    queue has room for what is published to it, identifiers are fresh, and what
    is acknowledged is not waiting for delivery.  Anything may happen to other
    queues. *)
Inductive delivery (b : Broker) : Broker → Prop :=
| dl_connect conn ns mx : delivery b (connect conn ns mx b)
| dl_publish e conn c name k payload :
    b_conns b !! conn = Some c →
    (queueKey (cn_namespace c) name = key → e_id e ∉ published_ids (qlog key (b_log b)) ∧
       ∀ q, s_store (b_sched b) !! p = Some q → has_room k q) →
    delivery b (handle_frame e conn (PublishFrame name k payload) b).1
| dl_subscribe e conn name k : delivery b (handle_frame e conn (SubscribeFrame name k) b).1
| dl_ack e conn c id name k :
    b_conns b !! conn = Some c →
    (∀ q, queueKey (cn_namespace c) name = key → s_store (b_sched b) !! p = Some q → not_waiting k id q) →
    delivery b (handle_frame e conn (ACKFrame id name k) b).1
| dl_leave conn : delivery b (disconnect conn b)
| dl_dispatch ord wrote logged i : delivery b (dispatch_worker ord wrote logged i b)
| dl_activation ord now : delivery b (run_activation ord now b)
| dl_tick now : delivery b (set_sched (wheel_tick now (b_sched b)) b)
| dl_register p' q' :
    p' ≠ p → queueKey (q_Namespace q') (Name q') ≠ key →
    delivery b (set_sched (RegisterQueue p' q' (b_sched b)) b)
| dl_unregister ns name :
    queueKey ns name ≠ key → delivery b (set_sched (UnregisterQueue ns name (b_sched b)) b).

Lemma ended_tracks conn (r : Broker * outcome unit) :
  tracks p key r.1 → tracks p key (match r with (b, Panic) => disconnect conn b | (b, Ret _) => b end).
Proof. destruct r as [b []]; [done|]. intros. eapply tracks_quiet; [apply disconnect_quiet|done]. Qed.

Lemma delivery_tracks b b' : delivery b b' → tracks p key b → tracks p key b'.
Proof.
  destruct 1 as [conn ns mx|e conn c name k payload Hc Hfr|e conn name k|e conn c id name k Hc Hnw|conn
    |ord wrote logged i|ord now|now|p' q' Hp Hk|ns name Hk]; intros Ht.
  - by apply (tracks_quiet _ _ b); [apply bquiet_same|].
  - unfold handle_frame. rewrite Hc.
    pose proof (publish_tracks p key b (e_ord e) (e_sub e) (e_logged e) (e_id e) (e_now e) _ name k payload Ht Hfr) as Hp.
    destruct (onPublish _ _ _ _ _ _ _ _ _ _) as [[b' r] o]. by apply (ended_tracks conn (b', o)).
  - unfold handle_frame. destruct (b_conns b !! conn); [|done]. eapply tracks_quiet; [apply subscribe_quiet|done].
  - unfold handle_frame. rewrite Hc. apply ended_tracks. by apply ack_tracks.
  - eapply tracks_quiet; [apply disconnect_quiet|done].
  - by apply dispatch_worker_tracks.
  - eapply tracks_quiet; [apply activation_quiet|done].
  - apply (tracks_quiet _ _ b); [|done]. split; [apply wheel_tick_quiet|done].
  - destruct Ht as [Hr (q & Hq & Hwf & Hids) Hl Hnd]. split; simpl; try done.
    + intros key'. destruct (decide (queueKey (q_Namespace q') (Name q') = key')) as [<-|Hne].
      * rewrite lookup_insert_eq. split; [intros [= ?]; congruence|done].
      * by rewrite lookup_insert_ne.
    + exists q. by rewrite lookup_insert_ne.
  - destruct Ht as [Hr Hq Hl Hnd]. split; simpl; try done. intros key'.
    destruct (decide (queueKey ns name = key')) as [<-|Hne].
    + rewrite lookup_delete_eq. done.
    + by rewrite lookup_delete_ne.
Qed.
End run.

(** The queue at [p] is the one registered under [key]; it is empty, and so is
    its log. *)
Record fresh_start (p : nat) (key : string) (b : Broker) : Prop := {
  fs_reg : ∀ key', s_queues (b_sched b) !! key' = Some p ↔ key' = key;
  fs_queue : ∃ q, s_store (b_sched b) !! p = Some q ∧ queue_wf q ∧ ∀ k, GetGroup k q = None;
  fs_log : qlog key (b_log b) = [];
}.

Lemma fresh_start_tracks p key b : fresh_start p key b → tracks p key b.
Proof.
  intros [Hr (q & Hq & Hwf & Hn) Hl]. split; rewrite ?Hl; [done| |constructor|constructor].
  exists q. split_and!; try done. intros k. unfold ids_in. by rewrite Hn.
Qed.

Lemma group_tags_ids k q : (group_tags k q).*1 = ids_in k q.
Proof. unfold group_tags, ids_in. destruct (GetGroup k q); [|done]. by rewrite <-list_fmap_compose. Qed.


(** A consumer takes two of three messages and acknowledges one of them. *)
Definition crash_start : Broker := start.
Definition crash_run : Broker :=
  let b := frames crash_start [("", SubscribeFrame "jobs" "g"); ("a", PublishFrame "jobs" "g" []); ("b", PublishFrame "jobs" "g" []);
     ("c", PublishFrame "jobs" "h" [])] in
  let b := dispatch_worker list_sub_order true true 0 b in
  frames b [("", ACKFrame "a" "jobs" "g")].

Example crash_run_state :
  ev_MsgID <$> b_log crash_run = ["a"; "b"; "c"; "a"; "a"] ∧
  (λ q, (ids_in "g" q, ids_in "h" q)) <$> s_store (b_sched crash_run) !! 0%nat = Some (["b"], ["c"]).
Proof. vm_compute. done. Qed.

(** The conditions on a step, evaluated. *)
Definition room_now (p : nat) (k : string) (b : Broker) : bool :=
  from_option (λ q, negb (depth_exceeded (group_or_new k q))) true (s_store (b_sched b) !! p).
Definition settled_now (p : nat) (k id : string) (b : Broker) : bool :=
  from_option (λ q, from_option (λ g, bool_decide (id ∉ ID <$> pending g)) true (GetGroup k q)) true (s_store (b_sched b) !! p).

Lemma room_now_ok p k b q : room_now p k b = true → s_store (b_sched b) !! p = Some q → has_room k q.
Proof. unfold room_now, has_room. intros H E. rewrite E in H. by apply negb_true_iff in H. Qed.
Lemma settled_now_ok p k id b q : settled_now p k id b = true → s_store (b_sched b) !! p = Some q → not_waiting k id q.
Proof.
  unfold settled_now, not_waiting. intros H E g Hg. rewrite E in H. simpl in H. rewrite Hg in H.
  simpl in H. by apply bool_decide_eq_true in H.
Qed.

Ltac publish_step id k :=
  eapply rtc_l;
    [eapply (dl_publish _ _ _ (test_env id) 7 _ "jobs" k []);
       [vm_compute; reflexivity
       |intros _; split; [by_eval|intros q; apply room_now_ok; vm_compute; reflexivity]]|].

Lemma crash_run_reached : rtc (delivery 0 "ns/jobs") crash_start crash_run.
Proof.
  eapply rtc_l; [apply (dl_subscribe _ _ _ (test_env "") 7 "jobs" "g")|].
  publish_step "a" "g". publish_step "b" "g". publish_step "c" "h".
  eapply rtc_l; [apply (dl_dispatch _ _ _ list_sub_order true true 0)|].
  eapply rtc_l; [|apply rtc_refl].
  eapply (dl_ack _ _ _ (test_env "") 7 _ "a" "jobs" "g"); [vm_compute; reflexivity|].
  intros q _. apply settled_now_ok. vm_compute. reflexivity.
Qed.

Lemma crash_start_fresh : fresh_start 0 "ns/jobs" crash_start.
Proof.
  split; [| |by vm_compute].
  - intros key. change (s_queues (b_sched crash_start)) with ({["ns/jobs" := 0%nat]} : gmap string nat).
    rewrite lookup_singleton_Some. naive_solver.
  - exists (NewQueue "jobs" "ns"). split; [by vm_compute|]. split; [apply NewQueue_wf|]. intros k. apply GetGroup_new.
Qed.


(** ** Publishing *)

Lemma Inc_cases b :
  0 ≤ b_global b < 2 ^ 63 - 1 →
  IncGlobalMsgs b =
    if (0 <? b_globalMax b) && (b_globalMax b <=? b_global b) then (b, false)
    else (set_global (b_global b + 1) b, true).
Proof.
  intros Hg. unfold IncGlobalMsgs. rewrite wrap_s_small by (try done; change (2 ^ (64 - 1)) with (2 ^ 63); lia).
  by destruct (Z.leb_spec (b_globalMax b) 0), (Z.ltb_spec 0 (b_globalMax b)), (b_globalMax b <=? b_global b);
    simpl; try lia.
Qed.

Lemma Dec_Inc b : 0 ≤ b_global b < 2 ^ 63 - 1 → DecGlobalMsgs (set_global (b_global b + 1) b) = b.
Proof.
  intros Hg. unfold DecGlobalMsgs. cbn [set_global b_global].
  rewrite wrap_s_small by (try done; change (2 ^ (64 - 1)) with (2 ^ 63); lia).
  destruct b. unfold set_global. simpl. f_equal. lia.
Qed.

Lemma call_global {A} p (f : Queue → Queue * A) b : b_global (call p f b).1 = b_global b.
Proof. unfold call. by destruct (on_queue p f (b_sched b)). Qed.

Lemma enqueue_or_return_global p k m b : b_global (enqueue_or_return p k m b) = b_global b.
Proof.
  unfold enqueue_or_return. assert (b_global (enqueueDispatch m b).1 = b_global b) as H.
  { unfold enqueueDispatch. by repeat case_match. }
  destruct (enqueueDispatch m b) as [b' []]; [done|]. rewrite <-H. apply call_global.
Qed.

(** The rest of a publication, once the message is in the queue, is quiet and
    does not panic. *)
Lemma offer_quiet ord sord p k now b q :
  s_store (b_sched b) !! p = Some q → queue_wf q →
  ∃ b' o, call p (TryDispatchOne ord k now) b = (b', Some (Ret o)) ∧
    ∀ ns name, let b'' := match o with Some m => enqueue_or_return p k m b' | None => b' end in
      let b3 := if reg_has sord ns name k (b_registry b'') then activate p k b'' else b'' in
      bquiet p b b3 ∧ b_global b3 = b_global b.
Proof.
  intros Hq Hwf. destruct (call_at p (TryDispatchOne ord k now) b q Hq) as (Hr & _).
  destruct (op_ids (OpTryDispatchOne ord now) k q Hwf) as (_ & Hret & _). cbn [run_op] in Hret.
  assert (bquiet p b (call p (TryDispatchOne ord k now) b).1) as Hb.
  { apply (call_op_quiet _ _ _ (OpTryDispatchOne ord now) k); [done|]. intros q0. simpl. by destruct (TryDispatchOne ord k now q0). }
  pose proof (call_global p (TryDispatchOne ord k now) b) as Hgl.
  destruct (TryDispatchOne ord k now q) as [q' [o|]]; [|done].
  destruct (call p (TryDispatchOne ord k now) b) as [b' r]. cbn [fst snd] in *. subst r. exists b', o. split; [done|].
  intros ns name. set (b'' := match o with Some m => _ | None => _ end). assert (bquiet p b b'' ∧ b_global b'' = b_global b) as [H1 H2].
  { destruct o as [m|]; [|done]. split; [|by rewrite <-Hgl; apply enqueue_or_return_global].
    etransitivity; [exact Hb|apply enqueue_or_return_quiet]. }
  cbn zeta. case_match; [|done]. split; [|done]. etransitivity; [exact H1|apply activate_quiet].
Qed.



(** ** Where memory and log part *)

Definition limited (attempts maxPending : Z) : GroupConfig :=
  mkGroupConfig "g" 1 1 (5 * minute) None (mkRetryConfig attempts BackoffFixed second minute) None maxPending.
Definition with_config (c : GroupConfig) : Broker :=
  let q := SetGroupConfig c (NewQueue "jobs" "ns") in
  connect 7 "ns" 100 (set_sched (RegisterQueue 0 q (b_sched (newBroker 0 0 1))) (newBroker 0 0 1)).
Definition replay_into (q : Queue) (b : Broker) : Queue :=
  rs_queue (replay_events ticks list_order "jobs" "ns" (qlog "ns/jobs" (b_log b)) (mkRstate q 0 false)).
Definition worker (b : Broker) : Broker := dispatch_worker list_sub_order true true 0 b.
Definition live_queue (b : Broker) : Queue := default (NewQueue "" "") (s_store (b_sched b) !! 0%nat).

(** The replay applies the depth limit to the log, and slots of messages that
    were leased or acknowledged in the replay still count: with a limit of two,
    after two messages have come and gone, a third that the broker accepted and
    holds is refused by the replay, and lost. *)
Theorem replay_depth_loses_accepted :
  let c := limited 3 2 in
  let b := frames (with_config c) [("", SubscribeFrame "jobs" "g"); ("a", PublishFrame "jobs" "g" [])] in
  let b := frames (worker b) [("", ACKFrame "a" "jobs" "g"); ("b", PublishFrame "jobs" "g" [])] in
  let b := frames (worker b) [("", ACKFrame "b" "jobs" "g")] in
  let '(b, r) := handle_frame (test_env "c") 7 (PublishFrame "jobs" "g" []) b in
  r = Some (RPublishOK "c") ∧ ids_in "g" (live_queue b) = ["c"] ∧
  (λ e, (ev_Type e, ev_MsgID e)) <$> b_log b =
    [(EventPublish, "a"); (EventLease, "a"); (EventACK, "a"); (EventPublish, "b"); (EventLease, "b"); (EventACK, "b");
     (EventPublish, "c")] ∧
  ids_in "g" (replay_into (SetGroupConfig c (NewQueue "jobs" "ns")) b) = [].
Proof. vm_compute. done. Qed.

(** A publication refused for the group's depth is in the log already: once the
    limit is raised, a restart delivers what the producer was told had failed. *)
Theorem refused_publish_replayed :
  let c := limited 3 1 in
  let b := frames (with_config c) [("a", PublishFrame "jobs" "g" []); ("b", PublishFrame "jobs" "g" [])] in
  let '(b, r) := handle_frame (test_env "c") 7 (PublishFrame "jobs" "g" []) b in
  r = Some (RError 500) ∧ ids_in "g" (live_queue b) = ["b"; "a"] ∧
  ids_in "g" (replay_into (SetGroupConfig (limited 3 10) (NewQueue "jobs" "ns")) b) = ["a"; "b"; "c"].
Proof. vm_compute. done. Qed.

(** A message given up without a dead-letter queue leaves the queue but is
    still counted by the global limit. *)
Theorem given_up_message_still_counted :
  let b := frames (with_config (limited 1 10)) [("", SubscribeFrame "jobs" "g"); ("a", PublishFrame "jobs" "g" [])] in
  let b := frames (worker b) [("", NACKFrame "a" "jobs" "g" "no")] in
  ids_in "g" (live_queue b) = [] ∧ b_global b = 1.
Proof. vm_compute. done. Qed.
