(* ===== verification/Lifecycle.v ===== *)
(** * The running broker and its shutdown

    src/internal/broker/broker.go (Start, Stop), src/internal/app/app.go (Start,
    waitForShutdown, Stop), the loops of the goroutines they start (dispatch
    workers, lease sweeper, metrics collector, scheduler workers, timing wheel,
    accept loop, connection handlers) and the closing of the log of one queue.
    Each goroutine takes turns on the state of [Broker.v]; the main goroutine
    goes through the calls of the shutdown.  Everything interleaves.  What is on
    disk of the log of the queue is a prefix of what the log has accepted.  As in
    [BrokerCrash.delivery] nothing is rejected and no lease expires. *)

From stdpp Require Import base gmap list strings.
From Stdlib Require Import ZArith Lia Strings.Byte.
From S2P Require Import Prelude Message Group Queue QueueInv Codec WalRecord Snapshot Recovery RecoveryInv RecoverySnap Registry Scheduler Broker BrokerInv BrokerCrash.
Local Open Scope Z_scope.
Local Open Scope list_scope.

(** Where the main goroutine is: [App.Start] waiting for a signal, then
    [App.Stop] and in it [Broker.Stop] call by call. *)
Inductive stage :=
| Serving | StopAPI | StopDispatch | WaitWorkers | StopScheduler | StopServer | CloseWAL | Stopped | StopError.

(** The writer of the queue's log, which the first append starts. *)
Inductive log_state := NotOpened | Running | Closed.

Record process := mkProcess {
  lp_broker : Broker;
  lp_stage : stage;
  lp_dispatchers : list bool;         (** dispatch workers that run *)
  lp_sweeper : bool; lp_collector : bool;
  lp_dispatchStop : bool;             (** closed *)
  lp_workers : nat;                   (** scheduler workers that run *)
  lp_busyWorkers : Z;
  lp_wheel : bool;
  lp_schedStop : bool;                (** closed *)
  lp_listening : bool;
  lp_log : log_state;
  lp_disk : list Event;
}.

Definition lset_broker x s := mkProcess x (lp_stage s) (lp_dispatchers s) (lp_sweeper s) (lp_collector s) (lp_dispatchStop s) (lp_workers s) (lp_busyWorkers s) (lp_wheel s) (lp_schedStop s) (lp_listening s) (lp_log s) (lp_disk s).
Definition lset_stage x s := mkProcess (lp_broker s) x (lp_dispatchers s) (lp_sweeper s) (lp_collector s) (lp_dispatchStop s) (lp_workers s) (lp_busyWorkers s) (lp_wheel s) (lp_schedStop s) (lp_listening s) (lp_log s) (lp_disk s).
Definition lset_dispatchers x s := mkProcess (lp_broker s) (lp_stage s) x (lp_sweeper s) (lp_collector s) (lp_dispatchStop s) (lp_workers s) (lp_busyWorkers s) (lp_wheel s) (lp_schedStop s) (lp_listening s) (lp_log s) (lp_disk s).
Definition lset_tickers x y s := mkProcess (lp_broker s) (lp_stage s) (lp_dispatchers s) x y (lp_dispatchStop s) (lp_workers s) (lp_busyWorkers s) (lp_wheel s) (lp_schedStop s) (lp_listening s) (lp_log s) (lp_disk s).
Definition lset_dispatchStop x s := mkProcess (lp_broker s) (lp_stage s) (lp_dispatchers s) (lp_sweeper s) (lp_collector s) x (lp_workers s) (lp_busyWorkers s) (lp_wheel s) (lp_schedStop s) (lp_listening s) (lp_log s) (lp_disk s).
Definition lset_workers x y s := mkProcess (lp_broker s) (lp_stage s) (lp_dispatchers s) (lp_sweeper s) (lp_collector s) (lp_dispatchStop s) x y (lp_wheel s) (lp_schedStop s) (lp_listening s) (lp_log s) (lp_disk s).
Definition lset_sched x y s := mkProcess (lp_broker s) (lp_stage s) (lp_dispatchers s) (lp_sweeper s) (lp_collector s) (lp_dispatchStop s) (lp_workers s) (lp_busyWorkers s) x y (lp_listening s) (lp_log s) (lp_disk s).
Definition lset_listening x s := mkProcess (lp_broker s) (lp_stage s) (lp_dispatchers s) (lp_sweeper s) (lp_collector s) (lp_dispatchStop s) (lp_workers s) (lp_busyWorkers s) (lp_wheel s) (lp_schedStop s) x (lp_log s) (lp_disk s).
Definition lset_log x y s := mkProcess (lp_broker s) (lp_stage s) (lp_dispatchers s) (lp_sweeper s) (lp_collector s) (lp_dispatchStop s) (lp_workers s) (lp_busyWorkers s) (lp_wheel s) (lp_schedStop s) (lp_listening s) x y.

(** [startDispatchWorkers]: one worker per channel. *)
Definition startDispatchWorkers (b : Broker) : list bool := replicate (length (b_chans b)) true.

(** [Scheduler.Run] starts a worker per processor, at least one. *)
Definition Run (cpus : nat) : nat := Nat.max 1 cpus.

(** [Broker.Start] after the recovery: the listener may fail; then the dispatch
    workers, the two tickers and the scheduler workers are started. *)
Definition Start (listens : bool) (cpus : nat) (b : Broker) : option process :=
  if negb listens then None
  else Some (mkProcess b Serving (startDispatchWorkers b) true true false (Run cpus) 0 true false true NotOpened []).

(** A turn of a scheduler worker.  A panic skips the decrement of the counter;
    the worker starts again. *)
Definition activation_panics (ord : range_order Message) (now : Z) (b : Broker) : bool :=
  match s_active (b_sched b) with
  | [] => false
  | a :: rest => negb (is_ret (processActivation enqueueDispatch ord a now (set_active rest (b_sched b)) b).2)
  end.
Definition worker (ord : range_order Message) (now : Z) (s : process) : process :=
  let b := lp_broker s in
  lset_broker (run_activation ord now b)
    (if activation_panics ord now b then lset_workers (lp_workers s) (i32 (lp_busyWorkers s + 1)) s else s).

(** The main goroutine's calls of [App.Stop] and [Broker.Stop]; [Wait] returns
    when every goroutine of the wait group has ended.  Closing the log writes
    what its channel holds, unless the writer has failed. *)
Definition all_ended (s : process) : bool := forallb negb (lp_dispatchers s) && negb (lp_sweeper s) && negb (lp_collector s).

Section run.
Context (p : nat) (key : string).
Local Abbreviation accepted s := (qlog key (b_log (lp_broker s))).

Definition closed_log (healthy : bool) (s : process) : process :=
  match lp_log s with
  | Running => lset_log Closed (if healthy then accepted s else lp_disk s) s
  | _ => s
  end.

Definition stop_call (ok : bool) (s : process) : option process :=
  match lp_stage s with
  | Serving | Stopped | StopError => None
  | StopAPI => Some (lset_stage (if ok then StopDispatch else StopError) s)
  | StopDispatch => Some (lset_stage WaitWorkers (lset_dispatchStop true s))
  | WaitWorkers => if all_ended s then Some (lset_stage StopScheduler s) else None
  | StopScheduler => Some (lset_stage StopServer (lset_sched (lp_wheel s) true s))
  | StopServer => Some (lset_stage CloseWAL (lset_listening false s))
  | CloseWAL => Some (lset_stage Stopped (closed_log ok s))
  end.

(** A turn on the broker; the first event of the queue opens its log. *)
Definition on_broker (b : Broker) (s : process) : process :=
  let s := lset_broker b s in
  match lp_log s, accepted s with NotOpened, _ :: _ => lset_log Running (lp_disk s) s | _, _ => s end.

(** [AppendSync] has returned: the event and all before it are on disk. *)
Definition synced (s : process) : process := lset_log (lp_log s) (accepted s) s.

Inductive turn (s : process) : process → Prop :=
(* connections *)
| tn_accept conn ns mx : lp_listening s = true → turn s (on_broker (connect conn ns mx (lp_broker s)) s)
| tn_publish e conn c name k payload :
    b_conns (lp_broker s) !! conn = Some c →
    (queueKey (cn_namespace c) name = key →
       (e_id e ∉ published_ids (accepted s) ∧ (∀ q, s_store (b_sched (lp_broker s)) !! p = Some q → has_room k q)) ∧
       (lp_log s = Closed → e_logged e = false)) →
    let s' := on_broker (handle_frame e conn (PublishFrame name k payload) (lp_broker s)).1 s in
    turn s (if decide (queueKey (cn_namespace c) name = key ∧ e_logged e = true) then synced s' else s')
| tn_subscribe e conn name k : turn s (on_broker (handle_frame e conn (SubscribeFrame name k) (lp_broker s)).1 s)
| tn_ack e conn c id name k :
    b_conns (lp_broker s) !! conn = Some c →
    (∀ q, queueKey (cn_namespace c) name = key → s_store (b_sched (lp_broker s)) !! p = Some q → not_waiting k id q) →
    turn s (on_broker (handle_frame e conn (ACKFrame id name k) (lp_broker s)).1 s)
| tn_leave conn : turn s (on_broker (disconnect conn (lp_broker s)) s)
(* dispatch workers and the two tickers *)
| tn_dispatch ord wrote logged i :
    lp_dispatchers s !! i = Some true → turn s (on_broker (dispatch_worker ord wrote logged i (lp_broker s)) s)
| tn_dispatch_end i :
    lp_dispatchers s !! i = Some true → lp_dispatchStop s = true → turn s (lset_dispatchers (<[i := false]> (lp_dispatchers s)) s)
| tn_sweeper_end : lp_dispatchStop s = true → turn s (lset_tickers false (lp_collector s) s)
| tn_collector_end : lp_dispatchStop s = true → turn s (lset_tickers (lp_sweeper s) false s)
| tn_choices l : lp_dispatchStop s = true → turn s (on_broker (set_stop l (lp_broker s)) s)
(* the scheduler *)
| tn_worker ord now : (0 < lp_workers s)%nat → turn s (on_broker (lp_broker (worker ord now s)) (worker ord now s))
| tn_worker_end n : lp_schedStop s = true → lp_workers s = S n → turn s (lset_workers n (lp_busyWorkers s) s)
| tn_tick now : lp_wheel s = true → turn s (on_broker (set_sched (wheel_tick now (b_sched (lp_broker s))) (lp_broker s)) s)
| tn_wheel_end : lp_schedStop s = true → turn s (lset_sched false true s)
(* the writer of the log *)
| tn_flush n : lp_log s = Running → (length (lp_disk s) ≤ n)%nat → turn s (lset_log Running (take n (accepted s)) s)
(* the main goroutine *)
| tn_signal : lp_stage s = Serving → turn s (lset_stage StopAPI s)
| tn_stop ok s' : stop_call ok s = Some s' → turn s s'.
End run.

(** ** What a turn on the broker adds to the log *)

Lemma call_log {A} p (f : Queue → Queue * A) b : b_log (call p f b).1 = b_log b.
Proof. unfold call. by destruct (on_queue p f (b_sched b)). Qed.

Lemma enqueue_log m b : b_log (enqueueDispatch m b).1 = b_log b.
Proof. apply (enqueue_quiet 0 m b). Qed.

Lemma ack_log ord logged now conn ns queue group id b :
  let b' := (onACK ord logged now conn ns queue group id b).1 in
  b_log b' = b_log b ∨ b_log b' = b_log b ++ [wal_event EventACK ns queue group id []].
Proof.
  unfold onACK. set (b1 := release_both conn b). assert (b_log b1 = b_log b) as E1 by done.
  destruct (get_queue ns queue b1) as [p|]; [|by left]. destruct logged; cbn [wal_append]; [right|by left].
  set (b2 := DecGlobalMsgs _). assert (b_log b2 = b_log b ++ [wal_event EventACK ns queue group id []]) as E2 by done.
  pose proof (call_log p (CompleteAndNext ord group id now) b2) as Hc. rewrite E2 in Hc.
  destruct (call _ _ _) as [b3 [[[m|]|]|]]; cbn [fst enqueue_next activate b_log set_sched] in *; rewrite ?enqueue_log; done.
Qed.

Lemma publish_log ord sord logged gen now ns queue group payload b :
  let b' := (onPublish ord sord logged gen now ns queue group payload b).1.1 in
  b_log b' = b_log b ∨ logged = true ∧ b_log b' = b_log b ++ [wal_event EventPublish ns queue group gen payload].
Proof.
  unfold onPublish. destruct (get_queue ns queue b) as [p|]; [|by left].
  assert (b_log (IncGlobalMsgs b).1 = b_log b) as E1 by (unfold IncGlobalMsgs; by repeat case_match).
  destruct (IncGlobalMsgs b) as [b1 []]; cbn [fst] in E1; [|by left]. destruct logged; cbn [wal_append]; [right; split; [done|]|by left].
  set (b2 := add_log _ b1). assert (b_log b2 = b_log b ++ [wal_event EventPublish ns queue group gen payload]) as E2 by (cbn; by rewrite E1).
  pose proof (call_log p (PublishWithID "" now group gen payload) b2) as Hc. rewrite E2 in Hc.
  destruct (call p (PublishWithID _ _ _ _ _) b2) as [b3 [[msg|]|]]; cbn [fst] in *; try done.
  pose proof (call_log p (TryDispatchOne ord group now) b3) as Hd. rewrite Hc in Hd.
  destruct (call p (TryDispatchOne _ _ _) b3) as [b4 o]. cbn [fst] in Hd.
  assert (∀ m, b_log (enqueue_or_return p group m b4) = b_log b4) as He by (intros m; apply (enqueue_or_return_quiet 0)).
  destruct o as [[[m|]|]|]; cbn [fst]; try done; case_match; cbn [fst activate b_log set_sched]; rewrite ?He; done.
Qed.

Lemma ended_log conn (r : Broker * outcome unit) :
  b_log (match r with (b, Panic) => disconnect conn b | (b, Ret _) => b end) = b_log r.1.
Proof. destruct r as [b []]; [done|]. apply (disconnect_quiet 0). Qed.

(** ** The invariant *)

Section invariant.
Context (p : nat) (key : string).
Local Abbreviation accepted s := (qlog key (b_log (lp_broker s))).

(** The calls of [Broker.Stop] after [Wait]. *)
Definition after_wait (st : stage) : bool :=
  match st with StopScheduler | StopServer | CloseWAL | Stopped => true | _ => false end.
Definition stop_closed (st : stage) : bool := match st with WaitWorkers => true | _ => after_wait st end.

(** What is accepted and not on disk is no publication. *)
Definition disk_ok (log disk : list Event) : Prop := ∃ rest, log = disk ++ rest ∧ Forall (λ e, ¬ is_publish e) rest.

Record life_ok (s : process) : Prop := {
  lo_tracks : tracks p key (lp_broker s);
  lo_disk : disk_ok (accepted s) (lp_disk s);
  lo_closed : stop_closed (lp_stage s) = true → lp_dispatchStop s = true;
  lo_ended : after_wait (lp_stage s) = true → all_ended s = true;
}.

(** A broker turn that publishes nothing to the queue. *)
Definition no_publish (b b' : Broker) : Prop :=
  ∃ new, qlog key (b_log b') = qlog key (b_log b) ++ new ∧ Forall (λ e, ¬ is_publish e) new.

Lemma same_log_no_publish b b' : b_log b' = b_log b → no_publish b b'.
Proof. intros E. exists []. by rewrite E, app_nil_r. Qed.

Lemma event_no_publish b b' e : b_log b' = b_log b ++ [e] → ev_Type e ≠ EventPublish ∨ event_key e ≠ key → no_publish b b'.
Proof.
  intros E He. eexists. rewrite E, qlog_snoc. split; [done|]. case_decide; [|done]. constructor; [|done].
  unfold is_publish. by destruct He.
Qed.

Lemma on_broker_ok b s :
  tracks p key b → no_publish (lp_broker s) b → life_ok s → life_ok (on_broker key b s).
Proof.
  intros Ht (new & El & Hn) [_ (rest & Ed & Hr) Hc He].
  assert (lp_broker (on_broker key b s) = b ∧ lp_disk (on_broker key b s) = lp_disk s ∧ lp_stage (on_broker key b s) = lp_stage s ∧
    lp_dispatchStop (on_broker key b s) = lp_dispatchStop s ∧ all_ended (on_broker key b s) = all_ended s) as (E1 & E2 & E3 & E4 & E5).
  { unfold on_broker. cbn. destruct (lp_log s), (qlog key (b_log b)); done. }
  split; rewrite ?E1, ?E2, ?E3, ?E4, ?E5; try done.
  exists (rest ++ new). rewrite El, Ed, app_assoc. split; [done|]. by apply Forall_app.
Qed.

Lemma published_ok b s :
  tracks p key b → life_ok s → life_ok (synced key (on_broker key b s)).
Proof.
  intros Ht [_ _ Hc He].
  assert (lp_broker (on_broker key b s) = b ∧ lp_stage (on_broker key b s) = lp_stage s ∧
    lp_dispatchStop (on_broker key b s) = lp_dispatchStop s ∧ all_ended (on_broker key b s) = all_ended s) as (E1 & E3 & E4 & E5).
  { unfold on_broker. cbn. destruct (lp_log s), (qlog key (b_log b)); done. }
  split; cbn [synced lset_log lp_broker lp_stage lp_dispatchStop lp_disk].
  - by rewrite E1.
  - exists []. by rewrite app_nil_r.
  - by rewrite E3, E4.
  - change (all_ended (synced key (on_broker key b s))) with (all_ended (on_broker key b s)). by rewrite E3, E5.
Qed.

(** A turn that leaves broker, stage and disk alone and starts nothing. *)
Lemma life_keep s s' :
  lp_broker s' = lp_broker s → lp_disk s' = lp_disk s → lp_stage s' = lp_stage s →
  (lp_dispatchStop s = true → lp_dispatchStop s' = true) → (all_ended s = true → all_ended s' = true) → life_ok s → life_ok s'.
Proof. intros E1 E2 E3 H4 H5 [A B C D]. split; rewrite ?E1, ?E2, ?E3; auto. Qed.

Lemma all_ended_insert i s :
  all_ended s = true → all_ended (lset_dispatchers (<[i := false]> (lp_dispatchers s)) s) = true.
Proof.
  unfold all_ended. cbn. rewrite !andb_true_iff. intros [[H1 H2] H3]. split_and!; try done.
  rewrite forallb_forall in *. intros x Hx%list_elem_of_In. apply list_elem_of_lookup in Hx as [j Hj].
  apply list_lookup_insert_Some in Hj as [(_ & <- & _)|[_ Hj]]; [done|]. apply H1, list_elem_of_In. by eapply list_elem_of_lookup_2.
Qed.

Lemma disk_flush log disk n : (length disk ≤ n)%nat → disk_ok log disk → disk_ok log (take n log).
Proof.
  intros Hn (rest & -> & Hr). exists (drop n (disk ++ rest)). rewrite take_drop. split; [done|].
  rewrite drop_app_ge by done. by apply Forall_drop.
Qed.

Lemma stop_call_ok ok s s' : stop_call key ok s = Some s' → life_ok s → life_ok s'.
Proof.
  unfold stop_call. intros Hc [A B C D]. destruct (lp_stage s) eqn:Est; try discriminate.
  - injection Hc as <-. destruct ok; by split.
  - injection Hc as <-. by split.
  - destruct (all_ended s) eqn:E; [|done]. injection Hc as <-. by split; try (intros _; by apply C).
  - injection Hc as <-. by split; try apply C; try apply D.
  - injection Hc as <-. by split; try apply C; try apply D.
  - injection Hc as <-. unfold closed_log. destruct (lp_log s); try (by split; try apply C; try apply D).
    split; try done; try (intros _; by apply C); try (intros _; by apply D). cbn. destruct ok; [|done]. exists []. by rewrite app_nil_r.
Qed.

Lemma turn_ok s s' : turn p key s s' → life_ok s → life_ok s'.
Proof.
  intros Ht Hok. pose proof (lo_tracks s Hok) as Htr.
  assert (∀ b, delivery p key (lp_broker s) b → no_publish (lp_broker s) b → life_ok (on_broker key b s)) as Hdel.
  { intros b Hd Hn. apply on_broker_ok; [|done|done]. by eapply delivery_tracks. }
  destruct Ht as [conn ns mx Hl|e conn c name k payload Hc Hpub|e conn name k|e conn c id name k Hc Hnw|conn
    |ord wrote logged i Hi|i Hi Hs|Hs|Hs|l Hs|ord now Hw|n Hs Hw|now Hw|Hs|n Hl Hn|Hst|ok s' Hst].
  - apply Hdel; [apply dl_connect|by apply same_log_no_publish].
  - assert (tracks p key (handle_frame e conn (PublishFrame name k payload) (lp_broker s)).1) as Ht'.
    { eapply delivery_tracks; [|exact Htr]. apply (dl_publish p key _ e conn c); [done|]. intros Hk. by apply Hpub. }
    cbn zeta. case_decide as Hd; [by apply published_ok|]. apply on_broker_ok; [done| |done].
    unfold handle_frame. rewrite Hc.
    pose proof (publish_log (e_ord e) (e_sub e) (e_logged e) (e_id e) (e_now e) (cn_namespace c) name k payload (lp_broker s)) as Hlog.
    destruct (onPublish _ _ _ _ _ _ _ _ _ _) as [[b' r] o]. cbn [fst] in *. pose proof (ended_log conn (b', o)) as He. cbn [fst] in He.
    destruct Hlog as [Hlog|[Hlg Hlog]]; [apply same_log_no_publish; by rewrite He|].
    eapply event_no_publish; [by rewrite He, Hlog|]. right. intros Hk. apply Hd. done.
  - apply Hdel; [apply dl_subscribe|]. apply same_log_no_publish. unfold handle_frame.
    destruct (b_conns _ !! conn) as [c|]; [|done]. apply (subscribe_quiet 0).
  - apply Hdel; [by apply (dl_ack p key _ e conn c)|]. unfold handle_frame. rewrite Hc. cbn [fst].
    pose proof (ack_log (e_ord e) (e_logged e) (e_now e) conn (cn_namespace c) name k id (lp_broker s)) as Hlog. cbn zeta in Hlog.
    rewrite <-(ended_log conn (onACK _ _ _ _ _ _ _ _ _)) in Hlog.
    destruct Hlog as [Hlog|Hlog]; [by apply same_log_no_publish|]. eapply event_no_publish; [exact Hlog|by left].
  - apply Hdel; [apply dl_leave|]. apply same_log_no_publish. apply (disconnect_quiet 0).
  - apply Hdel; [apply dl_dispatch|]. unfold dispatch_worker. destruct (b_chans (lp_broker s) !! i) as [[|m ch]|]; try by apply same_log_no_publish.
    set (b1 := set_chans _ _). destruct (dispatch_quiet 0 ord wrote logged m b1) as [_ [E|E]]; [by apply same_log_no_publish|].
    eapply event_no_publish; [exact E|by left].
  - apply (life_keep s); try done. apply all_ended_insert.
  - apply (life_keep s); try done. unfold all_ended. cbn. rewrite !andb_true_iff. tauto.
  - apply (life_keep s); try done. unfold all_ended. cbn. rewrite !andb_true_iff. tauto.
  - apply on_broker_ok; [|by apply same_log_no_publish|done]. by apply (tracks_quiet p key (lp_broker s)); [apply bquiet_same|].
  - unfold worker. cbn [lp_broker lset_broker].
    assert (tracks p key (run_activation ord now (lp_broker s))) as Ht' by (eapply delivery_tracks; [apply dl_activation|done]).
    apply on_broker_ok; [done|by apply same_log_no_publish|].
    assert (b_log (run_activation ord now (lp_broker s)) = b_log (lp_broker s)) as El by apply (activation_quiet 0).
    destruct Hok as [A B C D]. destruct (activation_panics _ _ _); split; cbn [lp_broker lp_disk lp_stage lp_dispatchStop lset_broker lset_workers]; rewrite ?El; try done.
  - by apply (life_keep s).
  - apply Hdel; [apply dl_tick|by apply same_log_no_publish].
  - by apply (life_keep s).
  - destruct Hok as [A B C D]. split; try done. by eapply disk_flush.
  - destruct Hok as [A B C D]. by split.
  - by eapply stop_call_ok.
Qed.
End invariant.

Lemma started_ok p key cpus b s : fresh_start p key b → Start true cpus b = Some s → life_ok p key s.
Proof.
  intros Hf [= <-]. split; [by apply fresh_start_tracks| |done|done].
  exists []. cbn. by rewrite (fs_log p key b Hf).
Qed.

Lemma life_reach p key cpus b s0 s :
  fresh_start p key b → Start true cpus b = Some s0 → rtc (turn p key) s0 s → life_ok p key s.
Proof.
  intros Hf Hs H. pose proof (started_ok p key cpus b s0 Hf Hs) as Hok. clear Hs.
  induction H as [|s1 s2 s3 Hst _ IH]; [done|]. apply IH. by eapply turn_ok.
Qed.

(** ** A stop or a crash loses no message *)

Lemma live_rest k log rest x :
  Forall (λ e, ¬ is_publish e) rest → x ∈ (live_in k (log ++ rest)).*1 → x ∈ (live_in k log).*1.
Proof.
  induction rest as [|e rest IH] using rev_ind; [by rewrite app_nil_r|]. intros [Hr He]%Forall_app.
  rewrite app_assoc, live_in_snoc. intros [Hx|[Hp _]]%live_step_ids; [auto|]. apply Forall_inv in He. done.
Qed.


(** ** The stop comes to an end *)

Definition remaining (st : stage) : nat :=
  match st with
  | Serving => 7 | StopAPI => 6 | StopDispatch => 5 | WaitWorkers => 4 | StopScheduler => 3 | StopServer => 2 | CloseWAL => 1
  | Stopped | StopError => 0
  end.
Definition running (s : process) : nat :=
  length (filter (λ d : bool, d = true) (lp_dispatchers s)) + Nat.b2n (lp_sweeper s) + Nat.b2n (lp_collector s).
Definition to_go (s : process) : nat := remaining (lp_stage s) + running s.
Definition stopping (st : stage) : bool := match st with Serving | StopError => false | _ => true end.

Lemma count_ended (l : list bool) i :
  l !! i = Some true → length (filter (λ d, d = true) l) = S (length (filter (λ d, d = true) (<[i := false]> l))).
Proof.
  revert i. induction l as [|d l IH]; intros [|i] Hi; [done|done| |].
  - by injection Hi as ->.
  - cbn [list_insert insert]. change (<[S i := false]> (d :: l)) with (d :: <[i := false]> l). rewrite !filter_cons.
    case_decide; cbn; by rewrite (IH i Hi).
Qed.

Lemma running_insert i s :
  lp_dispatchers s !! i = Some true → running s = S (running (lset_dispatchers (<[i := false]> (lp_dispatchers s)) s)).
Proof. intros Hi. unfold running. cbn [lset_dispatchers lp_dispatchers lp_sweeper lp_collector]. by rewrite (count_ended _ i Hi). Qed.

Lemma on_broker_running key b s : running (on_broker key b s) = running s ∧ lp_stage (on_broker key b s) = lp_stage s.
Proof. unfold on_broker. cbn. by destruct (lp_log s), (qlog key (b_log b)). Qed.

Lemma turn_to_go p key s s' : lp_stage s ≠ Serving → turn p key s s' → (to_go s' ≤ to_go s)%nat.
Proof.
  intros Hst Ht. unfold to_go.
  assert (∀ b, (remaining (lp_stage (on_broker key b s)) + running (on_broker key b s) ≤ remaining (lp_stage s) + running s)%nat) as Hb.
  { intros b. destruct (on_broker_running key b s) as [-> ->]. done. }
  destruct Ht as [conn ns mx Hl|e conn c name k payload Hc Hpub|e conn name k|e conn c id name k Hc Hnw|conn
    |ord wrote logged i Hi|i Hi Hs|Hs|Hs|l Hs|ord now Hw|n Hs Hw|now Hw|Hs|n Hl Hn|Hsv|ok s' Hc]; try done; try apply Hb.
  - cbn zeta. case_decide; [|apply Hb]. unfold synced, running. cbn. apply Hb.
  - pose proof (running_insert i s Hi). cbn [lp_stage lset_dispatchers] in *. lia.
  - unfold running. cbn. destruct (lp_sweeper s); cbn; lia.
  - unfold running. cbn. destruct (lp_collector s); cbn; lia.
  - destruct (on_broker_running key (lp_broker (worker ord now s)) (worker ord now s)) as [-> ->].
    unfold worker. by destruct (activation_panics _ _ _).
  - unfold stop_call in Hc. destruct (lp_stage s) eqn:E; try discriminate; try (injection Hc as <-).
    + destruct ok; unfold running; cbn; lia.
    + cbn. unfold running. cbn. lia.
    + destruct (all_ended s); [|done]. injection Hc as <-. cbn. unfold running. cbn. lia.
    + cbn. unfold running. cbn. lia.
    + cbn. unfold running. cbn. lia.
    + unfold running, closed_log. destruct (lp_log s); cbn; lia.
Qed.

(** The stop can always go on: a goroutine that has not ended sees the closed
    channel, or the main goroutine makes its next call. *)
Lemma stop_progress p key s :
  life_ok p key s → stopping (lp_stage s) = true → lp_stage s ≠ Stopped →
  ∃ s', turn p key s s' ∧ stopping (lp_stage s') = true ∧ (to_go s' < to_go s)%nat.
Proof.
  intros [_ _ Hc _] Hst Hns.
  assert (∀ s', stop_call key true s = Some s' → stopping (lp_stage s') = true → (to_go s' < to_go s)%nat →
    ∃ s', turn p key s s' ∧ stopping (lp_stage s') = true ∧ (to_go s' < to_go s)%nat) as Hcall.
  { intros s' H1 H2 H3. exists s'. split; [by apply (tn_stop p key s true)|done]. }
  unfold to_go, stop_call in *. destruct (lp_stage s) eqn:E; try done.
  - eapply Hcall; [done|done|cbn; unfold running; cbn; lia].
  - eapply Hcall; [done|done|cbn; unfold running; cbn; lia].
  - specialize (Hc eq_refl). destruct (all_ended s) eqn:Ea; [eapply Hcall; [done|done|cbn; unfold running; cbn; lia]|].
    unfold all_ended in Ea. rewrite !andb_false_iff in Ea. destruct Ea as [[Ea|Ea]|Ea].
    + assert (∃ i, lp_dispatchers s !! i = Some true) as [i Hi].
      { clear -Ea. induction (lp_dispatchers s) as [|[] l IH]; [done|by exists 0%nat|]. destruct (IH Ea) as [i Hi]. by exists (S i). }
      exists (lset_dispatchers (<[i := false]> (lp_dispatchers s)) s). split; [by apply tn_dispatch_end|].
      pose proof (running_insert i s Hi). cbn [lp_stage lset_dispatchers] in *. rewrite E. split; [done|lia].
    + exists (lset_tickers false (lp_collector s) s). split; [by apply tn_sweeper_end|]. apply negb_false_iff in Ea.
      cbn. rewrite E. split; [done|]. unfold running. cbn. rewrite Ea. cbn. lia.
    + exists (lset_tickers (lp_sweeper s) false s). split; [by apply tn_collector_end|]. apply negb_false_iff in Ea.
      cbn. rewrite E. split; [done|]. unfold running. cbn. rewrite Ea. cbn. lia.
  - eapply Hcall; [done|done|cbn; unfold running; cbn; lia].
  - eapply Hcall; [done|done|cbn; unfold running; cbn; lia].
  - eapply Hcall; [done|done|]. unfold closed_log, running. destruct (lp_log s); cbn; lia.
Qed.

Lemma stop_path p key n s :
  (to_go s ≤ n)%nat → life_ok p key s → stopping (lp_stage s) = true →
  ∃ m s', (m ≤ to_go s)%nat ∧ nsteps (turn p key) m s s' ∧ lp_stage s' = Stopped ∧ all_ended s' = true.
Proof.
  revert s. induction n as [|n IH]; intros s Hn Hok Hst.
  all: destruct (decide (remaining (lp_stage s) = 0%nat)) as [Hz|Hz];
    [assert (lp_stage s = Stopped) as Es by (by destruct (lp_stage s)); exists 0%nat, s; split_and!; [lia|constructor|done|];
     apply (lo_ended p key s Hok); by rewrite Es|].
  - unfold to_go in Hn. lia.
  - destruct (stop_progress p key s Hok Hst) as (s' & Ht & Hst' & Hlt); [intros E; by rewrite E in Hz|].
    destruct (IH s') as (m & s'' & Hm & Hsteps & Hend); [lia|by eapply turn_ok|done|].
    exists (S m), s''. split; [lia|]. split; [by econstructor|done].
Qed.


(** ** A stop with a late acknowledgement *)

Module Late.
Local Abbreviation key := "ns/jobs".
Definition s0 : process := mkProcess crash_start Serving [true] true true false 4 0 true false true NotOpened [].
Definition frame (id : string) (f : Codec.frame) (s : process) : process :=
  on_broker key (handle_frame (test_env id) 7 f (lp_broker s)).1 s.
Definition call (ok : bool) (s : process) : process := default s (stop_call key ok s).

(** One message is published and given to a consumer. *)
Definition served : process :=
  let s := frame "" (SubscribeFrame "jobs" "g") s0 in
  let s := synced key (frame "a" (PublishFrame "jobs" "g" []) s) in
  on_broker key (dispatch_worker list_sub_order true true 0 (lp_broker s)) s.
Definition waiting : process := call true (call true (lset_stage StopAPI served)).
Definition ended : process := lset_tickers false false (lset_tickers false true (lset_dispatchers [false] waiting)).
Definition stopped : process := call true (call true (call true (call true ended))).
Definition late : process := frame "" (ACKFrame "a" "jobs" "g") stopped.
(** The API does not stop in time, and the broker is not stopped at all. *)
Definition failed : process := call false (lset_stage StopAPI (frame "" (ACKFrame "a" "jobs" "g") served)).

Lemma started : Start true 4 crash_start = Some s0.
Proof. unfold Start, startDispatchWorkers. cbn [negb]. replace (length (b_chans crash_start)) with 1%nat by (by vm_compute). done. Qed.

Lemma reach_served : rtc (turn 0 key) s0 served.
Proof.
  eapply rtc_l; [apply (tn_subscribe _ _ _ (test_env "") 7 "jobs" "g")|].
  eapply rtc_l.
  { pose proof (tn_publish 0 key (frame "" (SubscribeFrame "jobs" "g") s0) (test_env "a") 7 (mkConn "ns" (mkCredit 0 3)) "jobs" "g" []) as H.
    cbn zeta in H. rewrite decide_True in H by (split; by vm_compute). apply H; [by vm_compute|].
    intros _. split; [split; [by_eval|intros q; apply room_now_ok; by vm_compute]|by vm_compute]. }
  eapply rtc_l; [|apply rtc_refl]. by apply (tn_dispatch _ _ _ list_sub_order true true 0).
Qed.

Lemma reach_waiting : rtc (turn 0 key) s0 waiting.
Proof.
  etransitivity; [apply reach_served|]. eapply rtc_l; [apply tn_signal; by vm_compute|].
  eapply rtc_l; [by apply (tn_stop _ _ _ true)|]. eapply rtc_l; [by apply (tn_stop _ _ _ true)|]. apply rtc_refl.
Qed.

Lemma reach_stopped : rtc (turn 0 key) s0 stopped.
Proof.
  etransitivity; [apply reach_waiting|].
  eapply rtc_l; [apply (tn_dispatch_end _ _ waiting 0); by vm_compute|].
  eapply rtc_l; [apply tn_sweeper_end; by vm_compute|]. eapply rtc_l; [apply tn_collector_end; by vm_compute|].
  eapply rtc_l; [by apply (tn_stop _ _ _ true)|]. eapply rtc_l; [by apply (tn_stop _ _ _ true)|].
  eapply rtc_l; [by apply (tn_stop _ _ _ true)|]. eapply rtc_l; [by apply (tn_stop _ _ _ true)|]. apply rtc_refl.
Qed.

Lemma reach_ack s : lp_broker s = lp_broker served → turn 0 key s (frame "" (ACKFrame "a" "jobs" "g") s).
Proof.
  intros E. apply (tn_ack _ _ _ (test_env "") 7 (mkConn "ns" (mkCredit 1 3))); [rewrite E; by vm_compute|].
  intros q _. rewrite E. apply settled_now_ok. by vm_compute.
Qed.

Lemma call_broker ok s : lp_broker (call ok s) = lp_broker s.
Proof.
  unfold call, stop_call, closed_log. destruct (lp_stage s); try done; [by destruct (all_ended s)|by destruct (lp_log s)].
Qed.

Lemma tickers_broker x y s : lp_broker (lset_tickers x y s) = lp_broker s.
Proof. done. Qed.
Lemma dispatchers_broker x s : lp_broker (lset_dispatchers x s) = lp_broker s.
Proof. done. Qed.
Lemma stage_broker x s : lp_broker (lset_stage x s) = lp_broker s.
Proof. done. Qed.

Lemma stopped_broker : lp_broker stopped = lp_broker served.
Proof.
  unfold stopped. rewrite !call_broker. unfold ended. rewrite !tickers_broker, dispatchers_broker.
  unfold waiting. rewrite !call_broker. apply stage_broker.
Qed.

Lemma reach_late : rtc (turn 0 key) s0 late.
Proof. exact (rtc_r _ _ _ reach_stopped (reach_ack stopped stopped_broker)). Qed.

Lemma reach_failed : rtc (turn 0 key) s0 failed.
Proof.
  etransitivity; [apply reach_served|]. eapply rtc_l; [by apply reach_ack|].
  eapply rtc_l; [apply tn_signal; by vm_compute|]. eapply rtc_l; [by apply (tn_stop _ _ _ false)|]. apply rtc_refl.
Qed.

Definition in_memory (s : process) : option (list string) := ids_in "g" <$> s_store (b_sched (lp_broker s)) !! 0%nat.
Definition recovered (s : process) : list string :=
  ids_in "g" (rs_queue (replay_events ticks list_order "jobs" "ns" (lp_disk s) (mkRstate (NewQueue "jobs" "ns") 0 false))).
End Late.



(** Connections outlive the stop: an acknowledgement that comes after the log
    is closed is accepted, but it is never written, and the message is delivered
    again after a restart. *)
Example late_ack_redelivered :
  rtc (turn 0 "ns/jobs") Late.s0 Late.late ∧ lp_stage Late.late = Stopped ∧
  ev_Type <$> b_log (lp_broker Late.late) = [EventPublish; EventLease; EventACK] ∧
  Late.in_memory Late.late = Some [] ∧ Late.recovered Late.late = ["a"].
Proof. split; [apply Late.reach_late|]. by vm_compute. Qed.

(** When the API does not stop in time, [App.Stop] returns before it has stopped
    the broker: an acknowledgement in the channel of the log is lost. *)
Example api_timeout_skips_broker :
  rtc (turn 0 "ns/jobs") Late.s0 Late.failed ∧ lp_stage Late.failed = StopError ∧ lp_log Late.failed = Running ∧
  Late.in_memory Late.failed = Some [] ∧ Late.recovered Late.failed = ["a"].
Proof. split; [apply Late.reach_failed|]. by vm_compute. Qed.

(** A worker that panics starts again, but stays counted as busy: here on a
    group restored from a snapshot without messages in flight. *)
Example panicked_worker_counts_busy :
  let q := (Publish "a" 0 "g" [x2a] (NewQueue "jobs" "ns")).1 in
  let snap := mkSnapshot 1 1 0 (convertQueueStateToSnapshot list_order list_order (ExportState q)) in
  let r := rs_queue (on_snapshot ticks list_order "jobs" "ns" snap (mkRstate (NewQueue "jobs" "ns") 0 false)) in
  let b := newBroker 5 0 1 in
  let b := set_sched (Activate 0 "g" (RegisterQueue 0 r (b_sched b))) b in
  let s := worker list_order 5 (mkProcess b Serving [true] true true false 4 0 true false true NotOpened []) in
  lp_workers s = 4%nat ∧ s_active (b_sched (lp_broker s)) = [] ∧ lp_busyWorkers s = 1.
Proof. by vm_compute. Qed.
