(* ===== verification/BrokerSub.v ===== *)
(** * Pattern subscriptions

    A client that subscribes to a pattern wakes every group of the queue: the
    paging loop of [onSubscribe] ends, visits every group once and leaves each
    of them scheduled. *)

From stdpp Require Import base gmap list strings.
From Stdlib Require Import ZArith Lia Strings.Byte.
From S2P Require Import Prelude Heap Message Group GroupInv KeyIndex ConfigIdx Queue QueueInv QueueHist RecoveryInv Codec WalRecord TimingWheel Registry Scheduler Broker BrokerInv.
Local Open Scope Z_scope.
Local Open Scope list_scope.

(** ** One activation *)

(** The queue after [Activate], when the channel has room. *)
Lemma Activate_at p k s q :
  k ≠ "" → s_store s !! p = Some q → queue_wf q → Z.of_nat (length (s_active s)) < active_cap →
  ∃ q', s_store (Activate p k s) !! p = Some q' ∧ queue_wf q' ∧ keyIdx q' = keyIdx q ∧
    (∀ k', GetGroup k' q' = if decide (k' = k) then (λ g, (TrySchedule g).1) <$> GetGroup k q else GetGroup k' q) ∧
    s_active (Activate p k s) = s_active s ++
      match GetGroup k q with
      | Some g => if isScheduled g =? 0 then [mkActivation p k] else []
      | None => []
      end.
Proof.
  intros Hk Hq Hwf Hcap. unfold Activate. rewrite bool_decide_eq_false_2 by done.
  destruct (on_queue_at p (try_schedule k) s q Hq) as [Hr Hs].
  assert (s_active (on_queue p (try_schedule k) s).1 = s_active s) as Ha.
  { unfold on_queue. rewrite Hq. by destruct (try_schedule k q). }
  destruct (with_flags k TrySchedule false q Hwf flags_TrySchedule) as [Hwf' _ _].
  assert (∀ k', GetGroup k' (try_schedule k q).1 =
    if decide (k' = k) then (λ g, (TrySchedule g).1) <$> GetGroup k q else GetGroup k' q) as Hg.
  { intros k'. unfold try_schedule. rewrite GetGroup_with by apply Hwf. by case_decide; subst. }
  assert (keyIdx (try_schedule k q).1 = keyIdx q) as Hi.
  { unfold try_schedule, with_group. destruct (GetGroup k q); [|done]. by destruct (TrySchedule _). }
  assert ((try_schedule k q).2 = match GetGroup k q with Some g => isScheduled g =? 0 | None => false end) as Hr2.
  { unfold try_schedule, with_group. destruct (GetGroup k q) as [g|]; [|done]. unfold TrySchedule. by destruct (isScheduled g =? 0). }
  destruct (on_queue p (try_schedule k) s) as [s1 r1]. cbn [fst snd] in Hr, Hs, Ha. subst r1. rewrite Hr2.
  assert (∀ s2, s_store s2 = s_store s1 → ∃ q', s_store s2 !! p = Some q' ∧ queue_wf q' ∧ keyIdx q' = keyIdx q ∧
    (∀ k', GetGroup k' q' = if decide (k' = k) then (λ g, (TrySchedule g).1) <$> GetGroup k q else GetGroup k' q)) as Hfin.
  { intros s2 E. exists (try_schedule k q).1. by rewrite E. }
  destruct (GetGroup k q) as [g|]; [destruct (isScheduled g =? 0)|].
  - rewrite Ha. apply Z.ltb_lt in Hcap. rewrite Hcap.
    destruct (Hfin (set_active (s_active s ++ [mkActivation p k]) s1) eq_refl) as (q' & ? & ? & ? & ?). by exists q'.
  - destruct (Hfin s1 eq_refl) as (q' & ? & ? & ? & ?). exists q'. by rewrite app_nil_r.
  - destruct (Hfin s1 eq_refl) as (q' & ? & ? & ? & ?). exists q'. by rewrite app_nil_r.
Qed.

Definition activate_all (p : nat) (ks : list string) (b : Broker) : Broker := foldl (λ b k, activate p k b) b ks.

Record woken (p : nat) (ks : list string) (q : Queue) (b b' : Broker) (q' : Queue) : Prop := {
  wo_store : s_store (b_sched b') !! p = Some q';
  wo_wf : queue_wf q';
  wo_idx : keyIdx q' = keyIdx q;
  wo_groups : ∀ k, GetGroup k q' = if decide (k ∈ ks) then (λ g, (TrySchedule g).1) <$> GetGroup k q else GetGroup k q;
  wo_chan : ∃ new, s_active (b_sched b') = s_active (b_sched b) ++ new ∧ (length new ≤ length ks)%nat ∧
    ∀ k g, k ∈ ks → GetGroup k q = Some g → isScheduled g = 0 → mkActivation p k ∈ new;
}.

Lemma activate_all_woken p ks b q :
  NoDup ks → "" ∉ ks → s_store (b_sched b) !! p = Some q → queue_wf q →
  Z.of_nat (length (s_active (b_sched b)) + length ks) ≤ active_cap →
  ∃ q', woken p ks q b (activate_all p ks b) q'.
Proof.
  intros Hnd. revert b q. induction Hnd as [|k ks Hni Hnd IH]; intros b q Hne Hq Hwf Hcap.
  { exists q. split; try done.
    exists []. rewrite app_nil_r. split_and!; try done. intros k g Hk. by apply elem_of_nil in Hk. }
  rewrite not_elem_of_cons in Hne. destruct Hne as [Hk Hne]. simpl in Hcap.
  destruct (Activate_at p k (b_sched b) q (not_eq_sym Hk) Hq Hwf ltac:(lia)) as (q1 & Hq1 & Hwf1 & Hi1 & Hg1 & Ha1).
  set (b1 := activate p k b). change (s_active (Activate p k (b_sched b))) with (s_active (b_sched b1)) in Ha1.
  set (new1 := match GetGroup k q with Some g => _ | None => _ end) in Ha1.
  assert (length new1 ≤ 1)%nat as Hn1 by (unfold new1; destruct (GetGroup k q) as [g|]; [destruct (_ =? _)|]; simpl; lia).
  destruct (IH b1 q1 Hne Hq1 Hwf1) as (q2 & [Hq2 Hwf2 Hi2 Hg2 (new2 & Ha2 & Hn2 & Hin2)]).
  { rewrite Ha1, length_app. lia. }
  exists q2. split; try done; [congruence| |].
  - intros k'. rewrite Hg2, !Hg1. destruct (decide (k' = k)) as [->|Hkk].
    + rewrite decide_False by done. by rewrite decide_True by (by left).
    + destruct (decide (k' ∈ ks)) as [Hin|Hin].
      * by rewrite decide_True by (by right).
      * rewrite decide_False; [done|]. by rewrite elem_of_cons; intros [?|?].
  - exists (new1 ++ new2). split_and!.
    + change (activate_all p (k :: ks) b) with (activate_all p ks b1). by rewrite Ha2, Ha1, app_assoc.
    + rewrite length_app. simpl. lia.
    + intros k' g Hin Hg Hs. apply elem_of_app. destruct (decide (k' = k)) as [->|Hkk].
      * left. unfold new1. rewrite Hg, Hs. simpl. by left.
      * right. apply elem_of_cons in Hin as [?|Hin]; [done|]. apply (Hin2 k' g Hin); [|done].
        by rewrite Hg1, decide_False.
Qed.

(** ** The paging loop *)

Lemma page_stats_keys after q :
  queue_wf q → st_Key <$> (PageGroupStats after 1000 q).1 = (page after 1000 (keyIdx q)).1 ∧
  (PageGroupStats after 1000 q).2 = (page after 1000 (keyIdx q)).2.
Proof.
  intros Hwf. unfold PageGroupStats. change (page_limit 1000) with 1000.
  assert (∀ k, k ∈ (page after 1000 (keyIdx q)).1 → k ∈ keys (keyIdx q)) as Hsub.
  { intros k. unfold page. case_match; simpl; [by intros ?%elem_of_nil|].
    intros Hk%elem_of_take. destruct Hk as (i & Hi & _). rewrite lookup_drop in Hi. by eapply list_elem_of_lookup_2. }
  assert (∀ next, (page after 1000 (keyIdx q)) = ([], next) → next = "") as Hnil.
  { intros next. unfold page. case_match eqn:E; [by intros [= <-]|]. intros [= H _]. apply Z.leb_gt in E.
    apply (f_equal length) in H. rewrite length_take, length_drop in H. simpl in H. lia. }
  destruct (page after 1000 (keyIdx q)) as [ks next]. cbn [fst snd] in *.
  case_decide as Hk; [subst; split; [done|]; symmetry; by apply Hnil|]. split; [|done].
  cbn [fst]. clear Hk Hnil. induction ks as [|k ks IH]; [done|]. cbn [omap list_omap].
  destruct (proj1 (qw_keys q Hwf k)) as [g Hg]; [apply Hsub; by left|].
  unfold GetGroupStats at 1. rewrite Hg. csimpl. rewrite IH; [done|]. intros k' Hk'. apply Hsub. by right.
Qed.

Lemma activate_stats p stats b :
  foldl (λ b st, activate p (st_Key st) b) b stats = activate_all p (st_Key <$> stats) b.
Proof. revert b. induction stats as [|st stats IH]; intros b; [done|]. apply IH. Qed.

Lemma activate_keeps_idx p k b q :
  s_store (b_sched b) !! p = Some q → queue_wf q →
  ∃ q', s_store (b_sched (activate p k b)) !! p = Some q' ∧ queue_wf q' ∧ keyIdx q' = keyIdx q.
Proof.
  intros Hq Hwf. cbn [activate set_sched b_sched]. unfold Activate. case_bool_decide; [by exists q|].
  assert (∀ {A} (h : group → group * A) d s0 q0, s_store s0 !! p = Some q0 → queue_wf q0 → flags_only h → keyIdx q0 = keyIdx q →
    ∃ q', s_store (on_queue p (with_group k h d) s0).1 !! p = Some q' ∧ queue_wf q' ∧ keyIdx q' = keyIdx q) as Hstep.
  { intros A h d s0 q0 Hq0 Hwf0 Hh Hi. destruct (on_queue_at p (with_group k h d) s0 q0 Hq0) as [_ ->].
    exists (with_group k h d q0).1. split; [done|]. split; [by apply (with_flags k h d q0 Hwf0 Hh)|].
    unfold with_group. destruct (GetGroup k q0); [|done]. by destruct (h _). }
  destruct (Hstep _ TrySchedule false (b_sched b) q Hq Hwf flags_TrySchedule eq_refl) as (q1 & Hq1 & Hwf1 & Hi1).
  unfold try_schedule. destruct (on_queue p (with_group k TrySchedule false) (b_sched b)) as [s1 [[]|]]; cbn [fst] in Hq1;
    [|by exists q1..]. case_match; [by exists q1|].
  destruct (on_queue_at p (λ q, (unschedule k q, tt)) s1 q1 Hq1) as [_ ->]. cbn [fst].
  destruct (on_queue_at p (with_group k (λ g, (Unschedule g, ())) ()) s1 q1 Hq1) as [_ E].
  destruct (Hstep _ (λ g, (Unschedule g, ())) () s1 q1 Hq1 Hwf1 flags_Unschedule Hi1) as (q2 & Hq2 & Hwf2 & Hi2).
  rewrite E in Hq2. exists q2. by split_and!.
Qed.

Lemma activate_all_keeps_idx p ks b q :
  s_store (b_sched b) !! p = Some q → queue_wf q →
  ∃ q', s_store (b_sched (activate_all p ks b)) !! p = Some q' ∧ queue_wf q' ∧ keyIdx q' = keyIdx q.
Proof.
  revert b q. induction ks as [|k ks IH]; intros b q Hq Hwf; [by exists q|].
  destruct (activate_keeps_idx p k b q Hq Hwf) as (q1 & Hq1 & Hwf1 & Hi1).
  destruct (IH (activate p k b) q1 Hq1 Hwf1) as (q2 & Hq2 & Hwf2 & Hi2). exists q2. split_and!; try done. congruence.
Qed.

(** Enough fuel for the keys that are left: the loop is one pass over them. *)
Lemma activate_pages_eq fuel p after b q :
  s_store (b_sched b) !! p = Some q → queue_wf q → "" ∉ keys (keyIdx q) →
  (length (keys (keyIdx q)) - page_start after (keyIdx q) < fuel)%nat →
  activate_pages fuel p after b = activate_all p (drop (page_start after (keyIdx q)) (keys (keyIdx q))) b.
Proof.
  revert after b q. induction fuel as [|fuel IH]; intros after b q Hq Hwf Hne Hf; [lia|].
  cbn [activate_pages]. rewrite Hq.
  pose proof (page_stats_keys after q Hwf) as [Hk Hnext].
  pose proof (page_spec after 1000 (keyIdx q) (qw_idx q Hwf) Hne ltac:(lia)) as Hp. cbn zeta in Hp.
  destruct (PageGroupStats after 1000 q) as [stats next]. cbn [fst snd] in *. subst next.
  destruct (page after 1000 (keyIdx q)) as [ks next]. cbn [fst snd] in *. destruct Hp as (Hks & Hlast & Hmore).
  rewrite activate_stats, Hk. case_bool_decide as Hn; [by rewrite Hlast|].
  destruct (Hmore Hn) as [Hs Hlt].
  destruct (activate_all_keeps_idx p ks b q Hq Hwf) as (q1 & Hq1 & Hwf1 & Hi1).
  rewrite (IH next _ q1 Hq1 Hwf1); rewrite Hi1; [|done|rewrite Hs; lia].
  unfold activate_all. rewrite <-foldl_app. f_equal. rewrite Hs, Hks, <-drop_drop. apply take_drop.
Qed.


(** The sample broker with two idle groups, no activation pending. *)
Definition idle_groups : Broker :=
  frames start [("a", PublishFrame "jobs" "g" []); ("b", PublishFrame "jobs" "h" [])].
Definition idle_queue : Queue := default (NewQueue "" "") (s_store (b_sched idle_groups) !! 0%nat).

Lemma idle_queue_at : s_store (b_sched idle_groups) !! 0%nat = Some idle_queue.
Proof.
  unfold idle_queue. destruct (s_store (b_sched idle_groups) !! 0%nat) eqn:E; [done|]. vm_compute in E. discriminate.
Qed.

Lemma idle_queue_wf : queue_wf idle_queue.
Proof.
  assert (idle_queue = (TryDispatchOne list_order "h" 1 (PublishWithID "" 1 "h" "b" []
    (TryDispatchOne list_order "g" 1 (PublishWithID "" 1 "g" "a" [] (NewQueue "jobs" "ns")).1).1).1).1) as ->
    by (vm_compute; reflexivity).
  assert (∀ k q, queue_wf q → queue_wf (TryDispatchOne list_order k 1 q).1) as Ht.
  { intros k0 q Hq. destruct (op_post (OpTryDispatchOne list_order 1) k0 q Hq) as [H _]. simpl in H.
    by destruct (TryDispatchOne list_order k0 1 q). }
  apply Ht, publish_wf; [apply Ht, publish_wf; [apply NewQueue_wf|by_eval]|by_eval].
Qed.

