(* ===== verification/Auth.v ===== *)
(** * Authentication and authorisation

    src/internal/auth: identities and permission sets (identity/types.go), the
    registry of authenticators (authenticator/interfaces.go), the password and
    API-key providers, the role policy (rbac/rbac.go), the calls of service.go
    the broker makes, and [Connection.Authenticate] of
    src/internal/server/connection.go.  The user table is a map by user name;
    bcrypt and the keyed hash of API keys are parameters, as are the clock, the
    random suffix of a key and the order in which Go visits a map. *)

From stdpp Require Import base gmap list strings sorting.
From Stdlib Require Import ZArith Lia Strings.Byte Strings.Ascii.
From S2P Require Import Prelude Codec.
Local Open Scope Z_scope.
Local Open Scope list_scope.

(** ** Identities *)

Definition SubjectUser : string := "USER".
Definition SubjectService : string := "SERVICE_ACCOUNT".
Definition SubjectAdmin : string := "ADMIN".

Definition AuthMethodPassword : string := "PASSWORD".
Definition AuthMethodAPIKey : string := "API_KEY".

(** [1 << iota] in the second line of the block, where [iota] is 1. *)
Definition Permission : Type := Z.
Definition PermNone : Permission := 0.
Definition PermPublish : Permission := Z.shiftl 1 1.
Definition PermConsume : Permission := Z.shiftl 1 2.
Definition PermAck : Permission := Z.shiftl 1 3.
Definition PermNack : Permission := Z.shiftl 1 4.
Definition PermManageQueues : Permission := Z.shiftl 1 5.
Definition PermManageUsers : Permission := Z.shiftl 1 6.
Definition PermMetricsRead : Permission := Z.shiftl 1 7.
Definition PermAuditRead : Permission := Z.shiftl 1 8.
Definition PermAdmin : Permission := Z.shiftl 1 9.

Definition PermissionSet : Type := gset Z.

Definition NewPermissionSet (perms : list Permission) : PermissionSet := list_to_set perms.
Definition perm_Has (ps : PermissionSet) (p : Permission) : bool := bool_decide (p ∈ ps).
Definition perm_Add (p : Permission) (ps : PermissionSet) : PermissionSet := ps ∪ {[p]}.
Definition perm_Remove (p : Permission) (ps : PermissionSet) : PermissionSet := ps ∖ {[p]}.
Definition perm_Merge (other ps : PermissionSet) : PermissionSet := ps ∪ other.

(** The permission a name stands for; unknown names grant nothing. *)
Definition permission_named (s : string) : option Permission :=
  if bool_decide (s = "publish") then Some PermPublish
  else if bool_decide (s = "consume") then Some PermConsume
  else if bool_decide (s = "ack") then Some PermAck
  else if bool_decide (s = "nack") then Some PermNack
  else if bool_decide (s = "queues:manage") || bool_decide (s = "manage_queues") then Some PermManageQueues
  else if bool_decide (s = "users:manage") || bool_decide (s = "manage_users") then Some PermManageUsers
  else if bool_decide (s = "metrics:read") then Some PermMetricsRead
  else if bool_decide (s = "audit:read") then Some PermAuditRead
  else if bool_decide (s = "admin") then Some PermAdmin
  else None.

Definition PermissionSetFromStrings (perms : list string) : PermissionSet :=
  foldl (λ ps s, match permission_named s with Some p => ps ∪ {[p]} | None => ps end) ∅ perms.

Record Identity := mkIdentity {
  SubjectID : string;
  SubjectType : string;
  AccountID : string;
  i_Namespace : string;
  Roles : list string;
  Permissions : option PermissionSet;        (** nil or a map *)
  Namespaces : gmap string (list string);
  AuthMethod : string;
  IssuedAt : Z;
  ExpiresAt : Z;
  Metadata : gmap string string;
}.

Definition HasPermission (i : Identity) (p : Permission) : bool :=
  match Permissions i with None => false | Some ps => perm_Has ps p end.
Definition HasRole (i : Identity) (role : string) : bool := existsb (String.eqb role) (Roles i).
Definition IsExpired (now : Z) (i : Identity) : bool :=
  if IsZero (ExpiresAt i) then false else After now (ExpiresAt i).
Definition CanPublish (i : Identity) : bool := HasPermission i PermPublish.
Definition CanConsume (i : Identity) : bool := HasPermission i PermConsume.
Definition CanManageQueues (i : Identity) : bool := HasPermission i PermManageQueues.
Definition CanManageUsers (i : Identity) : bool := HasPermission i PermManageUsers.
Definition IsAdmin (i : Identity) : bool :=
  HasPermission i PermAdmin || bool_decide (SubjectType i = SubjectAdmin).

Definition CanAccessNamespace (ns : string) (i : Identity) : bool :=
  if IsAdmin i then true
  else match Namespaces i !! ns with
       | Some perms => (0 <? length perms)%nat
       | None => false
       end.

Definition HasNamespacePermission (ns perm : string) (i : Identity) : bool :=
  if IsAdmin i then true
  else match Namespaces i !! ns with
       | None => false
       | Some perms => existsb (λ p, String.eqb p "*" || String.eqb p perm) perms
       end.

(** ** Authenticators *)

Record AuthRequest := mkAuthRequest {
  RemoteAddr : string;
  r_Username : string;
  r_Password : string;
  r_APIKey : string;
  r_Token : string;
  r_Certificate : string;
  r_Namespace : string;
}.

(** An authenticator answers with an identity, with none, or with an error. *)
Record Authenticator := mkAuthenticator {
  a_Name : string;
  Priority : Z;
  Authenticate : AuthRequest → (option Identity + string);
}.

Abbreviation AuthRegistry := (gmap string Authenticator).
Definition NewRegistry : AuthRegistry := ∅.
Definition Register (a : Authenticator) (r : AuthRegistry) : AuthRegistry := <[a_Name a := a]> r.
Definition reg_Get (name : string) (r : AuthRegistry) : option Authenticator := r !! name.

(** The inner loop of [All]: the element at the front is exchanged with every
    later one of smaller priority. *)
Fixpoint exchange (x : Authenticator) (l : list Authenticator) : Authenticator * list Authenticator :=
  match l with
  | [] => (x, [])
  | y :: l =>
      let '(hi, lo) := if Priority y <? Priority x then (y, x) else (x, y) in
      let '(x', l') := exchange hi l in (x', lo :: l')
  end.

(** The outer loop, one position per step. *)
Fixpoint exchange_sort (n : nat) (l : list Authenticator) : list Authenticator :=
  match n, l with
  | S n, x :: l => let '(x', l') := exchange x l in x' :: exchange_sort n l'
  | _, _ => l
  end.

Definition All (ord : range_order Authenticator) (r : AuthRegistry) : list Authenticator :=
  let result := (range_of ord r).*2 in exchange_sort (length result) result.

(** ** The password provider *)

Record User := mkUser {
  u_ID : Z; u_Username : string; u_PasswordHash : string; u_Email : option string; u_Role : string;
  u_CreatedAt : string; u_UpdatedAt : string;
}.

Section password.
Context (compare : string → string → bool).   (** bcrypt: hash and password match *)
Context (users : gmap string User).           (** the user table *)

Definition GetUser (name : string) : option User := users !! name.
Definition CheckPassword (name password : string) : bool :=
  match GetUser name with Some u => compare (u_PasswordHash u) password | None => false end.

Definition resolvePermissions (role : string) : PermissionSet :=
  if bool_decide (role = "admin")
  then NewPermissionSet [PermPublish; PermConsume; PermAck; PermNack; PermManageQueues; PermManageUsers;
         PermMetricsRead; PermAuditRead; PermAdmin]
  else NewPermissionSet [PermPublish; PermConsume; PermAck; PermNack].

Definition password_identity (issued expires : Z) (req : AuthRequest) (u : User) : Identity :=
  mkIdentity (u_Username u) (if bool_decide (u_Role u = "admin") then SubjectAdmin else SubjectUser) (u_Username u)
    (r_Namespace req) [u_Role u] (Some (resolvePermissions (u_Role u))) ∅ AuthMethodPassword issued expires
    {["email" := default "" (u_Email u)]}.

(** [issued] and [later] are the two readings of the clock. *)
Definition password_Authenticate (issued later : Z) (req : AuthRequest) : option Identity :=
  if bool_decide (r_Username req = "") || bool_decide (r_Password req = "") then None
  else if negb (CheckPassword (r_Username req) (r_Password req)) then None
  else password_identity issued (later + 24 * hour) req <$> GetUser (r_Username req).

Definition PasswordAuthenticator (issued later : Z) : Authenticator :=
  mkAuthenticator "password" 10 (λ req, inl (password_Authenticate issued later req)).
End password.

(** ** API keys *)

(** [strings.TrimSpace] on the bytes of a string: the UTF-8 encodings of the
    white space characters. *)
Definition white_spaces : list (list byte) :=
  [[x09]; [x0a]; [x0b]; [x0c]; [x0d]; [x20]; [xc2; x85]; [xc2; xa0]; [xe1; x9a; x80]]
  ++ ((λ b, [xe2; x80; b]) <$>
       [x80; x81; x82; x83; x84; x85; x86; x87; x88; x89; x8a; xa8; xa9; xaf])
  ++ [[xe2; x81; x9f]; [xe3; x80; x80]].

Fixpoint strip_any (fuel : nat) (spaces : list (list byte)) (s : list byte) : list byte :=
  match fuel with
  | O => s
  | S fuel =>
      match List.find (λ w, bool_decide (take (length w) s = w)) spaces with
      | Some w => strip_any fuel spaces (drop (length w) s)
      | None => s
      end
  end.

Definition TrimSpace (s : string) : string :=
  let b := strip_any (str_len s) white_spaces (str_bytes s) in
  bytes_str (reverse (strip_any (length b) (reverse <$> white_spaces) (reverse b))).

Definition HasPrefix (s p : string) : bool := String.prefix p s.

Record APIKeyEntry := mkAPIKeyEntry {
  k_Hash : string; k_SubjectID : string; k_SubjectType : string; k_Namespace : string;
  k_Permissions : list string; k_Prefix : string;
}.

Record APIKeyAuthenticator := mkAPIKeyAuthenticator {
  ak_Prefix : string; ak_Priority : Z; keyHash : gmap string APIKeyEntry;
}.

Section apikey.
Context (hashKey : string → string).   (** the hash keyed with the server's secret *)

Definition apikey_identity (e : APIKeyEntry) : Identity :=
  mkIdentity (k_SubjectID e) (k_SubjectType e) (k_SubjectID e) (k_Namespace e) ["service"]
    (Some (PermissionSetFromStrings (k_Permissions e))) {[k_Namespace e := k_Permissions e]} AuthMethodAPIKey
    zero_time zero_time ∅.

Definition apikey_Authenticate (a : APIKeyAuthenticator) (req : AuthRequest) : option Identity :=
  if bool_decide (r_APIKey req = "") then None
  else
    let key := TrimSpace (r_APIKey req) in
    if negb (bool_decide (ak_Prefix a = "")) && negb (HasPrefix key (ak_Prefix a)) then None
    else match keyHash a !! hashKey key with
         | None => None
         | Some e =>
             if negb (bool_decide (r_Namespace req = "")) && negb (bool_decide (k_Namespace e = ""))
                && negb (bool_decide (r_Namespace req = k_Namespace e))
             then None
             else Some (apikey_identity e)
         end.

Definition apikey_Authenticator (a : APIKeyAuthenticator) : Authenticator :=
  mkAuthenticator "api_key" (ak_Priority a) (λ req, inl (apikey_Authenticate a req)).

Definition AddKey (key subjectID namespace : string) (perms : list string) (a : APIKeyAuthenticator)
    : APIKeyAuthenticator :=
  let e := mkAPIKeyEntry (hashKey key) subjectID SubjectService namespace perms (ak_Prefix a) in
  mkAPIKeyAuthenticator (ak_Prefix a) (ak_Priority a) (<[k_Hash e := e]> (keyHash a)).

Definition RevokeKey (key : string) (a : APIKeyAuthenticator) : APIKeyAuthenticator :=
  mkAPIKeyAuthenticator (ak_Prefix a) (ak_Priority a) (delete (hashKey key) (keyHash a)).

Definition ListKeys (ord : range_order APIKeyEntry) (a : APIKeyAuthenticator) : list APIKeyEntry :=
  (range_of ord (keyHash a)).*2.

(** The random bytes are an argument. *)
Definition charset : string := "abcdefghijklmnopqrstuvwxyz0123456789".
Definition generateRandomSuffix (random : list byte) : string :=
  bytes_str ((λ b, default x00 (str_bytes charset !! Z.to_nat (byte_to_Z b `mod` Z.of_nat (str_len charset)))) <$> random).
Definition GenerateAPIKey (prefix : string) (random : list byte) : string := prefix +:+ generateRandomSuffix random.
End apikey.

(** ** The service *)

(** The loop of [AuthenticateTCP] and [AuthenticateTCPWithKey]: the first
    identity in order of priority; an error ends the search. *)
Fixpoint try_all (auths : list Authenticator) (req : AuthRequest) : option Identity + string :=
  match auths with
  | [] => inl None
  | a :: auths =>
      match Authenticate a req with
      | inr e => inr e
      | inl (Some id) => inl (Some id)
      | inl None => try_all auths req
      end
  end.

Definition AuthenticateTCP (ord : range_order Authenticator) (r : AuthRegistry)
    (remoteAddr username password namespace : string) : option Identity + string :=
  try_all (All ord r) (mkAuthRequest remoteAddr username password "" "" "" namespace).

Definition AuthenticateTCPWithKey (ord : range_order Authenticator) (r : AuthRegistry)
    (remoteAddr apiKey namespace : string) : option Identity + string :=
  try_all (All ord r) (mkAuthRequest remoteAddr "" "" apiKey "" "" namespace).

(** ** The handshake *)

(** [err == nil && id != nil] *)
Definition identity_of (r : option Identity + string) : option Identity :=
  match r with inl o => o | inr _ => None end.

(** [Connection.Authenticate] on what [ReadFrame] returned: the frame sent back
    and, when the client is let in, its identity and its session's user and
    namespace. *)
Definition conn_Authenticate (ord ord' : range_order Authenticator) (r : AuthRegistry) (remoteAddr : string)
    (input : option frame) : frame * option (Identity * string * string) :=
  match input with
  | Some (ConnectFrame username password apiKey _ namespace) =>
      let identity :=
        if negb (bool_decide (password = "")) && negb (bool_decide (username = ""))
        then identity_of (AuthenticateTCP ord r remoteAddr username password namespace) else None in
      let identity :=
        match identity with
        | Some id => Some id
        | None => if negb (bool_decide (apiKey = ""))
                  then identity_of (AuthenticateTCPWithKey ord' r remoteAddr apiKey namespace) else None
        end in
      match identity with
      | None => (ConnectErrFrame "invalid credentials or namespace", None)
      | Some id =>
          if negb (CanAccessNamespace namespace id) then (ConnectErrFrame "no access to namespace", None)
          else (ConnectOKFrame remoteAddr, Some (id, SubjectID id, namespace))
      end
  | _ => (ConnectErrFrame "expected CONNECT frame", None)
  end.

(** ** Roles and policies *)

Definition RoleAdmin : string := "admin".
Definition RoleProducer : string := "producer".
Definition RoleConsumer : string := "consumer".
Definition RoleObserver : string := "observer".
Definition RoleBilling : string := "billing".
Definition RoleService : string := "service".

Definition RolePermissions : gmap string (list string) :=
  {[ RoleAdmin := ["namespaces:*"; "queues:*"; "groups:*"; "users:*"; "metrics:*"; "audit:*"; "publish"; "consume"; "ack"; "nack"];
     RoleProducer := ["namespaces:read"; "queues:write"; "publish"];
     RoleConsumer := ["namespaces:read"; "queues:read"; "groups:write"; "consume"; "ack"; "nack"];
     RoleObserver := ["namespaces:read"; "queues:read"; "metrics:read"];
     RoleBilling := ["namespaces:read"; "metrics:read"];
     RoleService := ["namespaces:read"; "publish"; "consume"] ]}.

Record RoleBinding := mkRoleBinding {
  rb_Name : string; rb_Subjects : list string; rb_Roles : list string; rb_Namespace : string;
}.
Record ResourceRule := mkResourceRule { Allow : list string; Deny : list string }.
Record Policy := mkPolicy {
  Version : string; p_Roles : gmap string string; Bindings : list RoleBinding; Resources : gmap string ResourceRule;
}.

Definition NewPolicy : Policy := mkPolicy "v1" ∅ [] ∅.

Definition AddRoleBinding (name : string) (subjects roles : list string) (namespace : string) (p : Policy) : Policy :=
  mkPolicy (Version p)
    (foldl (λ m subject, foldl (λ m role, <[subject := role]> m) m roles) (p_Roles p) subjects)
    (Bindings p ++ [mkRoleBinding name subjects roles namespace]) (Resources p).

Definition GetRoleForSubject (p : Policy) (subject : string) : string := default "" (p_Roles p !! subject).
Definition GetPermissions (role : string) : list string := default [] (RolePermissions !! role).

(** [a == action || a == "*"] *)
Definition names_action (action a : string) : bool := String.eqb a action || String.eqb a "*".

(** One permission of a role: the action itself, everything, or a prefix. *)
Definition permits (action perm : string) : bool :=
  names_action action perm
  || ((2 <? str_len perm)%nat && bool_decide (String.get (str_len perm - 1) perm = Some "*"%char)
      && (let prefix := String.substring 0 (str_len perm - 1) perm in
          (str_len prefix <? str_len action)%nat && String.prefix prefix action)).

Definition policy_HasPermission (p : Policy) (subject resource action : string) : bool :=
  let role := GetRoleForSubject p subject in
  if bool_decide (role = "") then false
  else
    let by_role := existsb (permits action) (GetPermissions role) in
    match Resources p !! resource with
    | Some rule =>
        if existsb (names_action action) (Allow rule) then true
        else if existsb (names_action action) (Deny rule) then false
        else by_role
    | None => by_role
    end.

Definition Clone (p : Policy) : Policy := mkPolicy (Version p) (p_Roles p) (Bindings p) (Resources p).

Definition ValidRoles : list string := [RoleAdmin; RoleProducer; RoleConsumer; RoleObserver; RoleBilling; RoleService].
Definition RoleFromString (s : string) : string + string :=
  if bool_decide (s ∈ ValidRoles) then inl s else inr ("invalid role: " +:+ s).

Definition loadDefaultPolicy (p : Policy) : Policy :=
  AddRoleBinding "service" ["service"] [RoleService] "" (AddRoleBinding "admin" ["admin"] [RoleAdmin] "" p).

(** ** Order of the authenticators *)

Definition before (a b : Authenticator) : Prop := Priority a ≤ Priority b.

Lemma exchange_spec x l :
  let '(x', l') := exchange x l in x' :: l' ≡ₚ x :: l ∧ Forall (before x') l' ∧ length l' = length l ∧ before x' x.
Proof.
  revert x. induction l as [|y l IH]; intros x; cbn [exchange].
  { split_and!; try done. unfold before. lia. }
  destruct (Z.ltb_spec (Priority y) (Priority x)) as [Hlt|Hle].
  - specialize (IH y). destruct (exchange y l) as [x' l']. destruct IH as (Hp & Hf & Hl & Hb).
    split_and!.
    + by rewrite Permutation_swap, Hp.
    + constructor; [unfold before in *; lia|done].
    + simpl. congruence.
    + unfold before in *. lia.
  - specialize (IH x). destruct (exchange x l) as [x' l']. destruct IH as (Hp & Hf & Hl & Hb).
    split_and!.
    + rewrite Permutation_swap, Hp. apply Permutation_swap.
    + constructor; [unfold before in *; lia|done].
    + simpl. congruence.
    + done.
Qed.

Lemma exchange_sort_spec n l :
  (length l ≤ n)%nat → exchange_sort n l ≡ₚ l ∧ StronglySorted before (exchange_sort n l).
Proof.
  revert l. induction n as [|n IH]; intros [|x l] Hl; simpl in *; try lia; [split; [done|constructor]..|].
  pose proof (exchange_spec x l) as Hx. destruct (exchange x l) as [x' l']. destruct Hx as (Hp & Hf & Hlen & _).
  destruct (IH l' ltac:(lia)) as [Hp' Hs]. split; [by rewrite Hp', Hp|].
  constructor; [done|]. by rewrite Hp'.
Qed.

(** The authenticators are tried in order of priority, each registered one
    once, whatever order the map is visited in. *)
Theorem authenticators_sorted ord r :
  All ord r ≡ₚ (map_to_list r).*2 ∧ StronglySorted before (All ord r).
Proof.
  unfold All. destruct (exchange_sort_spec (length (range_of ord r).*2) (range_of ord r).*2 ltac:(lia)) as [Hp Hs].
  split; [|done]. rewrite Hp. by rewrite (range_perm ord r).
Qed.

(** ** API keys as a map *)

Section keys.
Context (hashKey : string → string).

(** The entries [AddKey] makes. *)
Definition keys_wf (a : APIKeyAuthenticator) : Prop :=
  ∀ h e, keyHash a !! h = Some e → k_Hash e = h ∧ k_SubjectType e = SubjectService.

Lemma AddKey_wf key s ns perms a : keys_wf a → keys_wf (AddKey hashKey key s ns perms a).
Proof. intros Hw h e. simpl. intros [[<- <-]|[_ He]]%lookup_insert_Some; [done|by apply Hw]. Qed.
Lemma RevokeKey_wf key a : keys_wf a → keys_wf (RevokeKey hashKey key a).
Proof. intros Hw h e. simpl. intros [_ He]%lookup_delete_Some. by apply Hw. Qed.

(** What a request gets when the table holds [o] for its key. *)
Definition answer (a : APIKeyAuthenticator) (req : AuthRequest) (o : option APIKeyEntry) : option Identity :=
  if bool_decide (r_APIKey req = "") then None
  else if negb (bool_decide (ak_Prefix a = "")) && negb (HasPrefix (TrimSpace (r_APIKey req)) (ak_Prefix a)) then None
  else e ← o;
    if negb (bool_decide (r_Namespace req = "")) && negb (bool_decide (k_Namespace e = ""))
       && negb (bool_decide (r_Namespace req = k_Namespace e))
    then None else Some (apikey_identity e).

Lemma apikey_answer a req :
  apikey_Authenticate hashKey a req = answer a req (keyHash a !! hashKey (TrimSpace (r_APIKey req))).
Proof.
  unfold apikey_Authenticate, answer. destruct (bool_decide _); [done|]. cbn zeta. destruct (_ && _); [done|].
  by destruct (keyHash a !! _).
Qed.
End keys.

(** The table of hashed keys is a map from keys, provided the hash does not
    collide: a key that was added authenticates as its subject with its
    permissions, one that was revoked does not, and other keys are not touched. *)
Theorem api_keys_map hashKey a req key s ns perms :
  Inj (=) (=) hashKey →
  let k := TrimSpace (r_APIKey req) in
  apikey_Authenticate hashKey (AddKey hashKey key s ns perms a) req =
    (if decide (k = key)
     then answer a req (Some (mkAPIKeyEntry (hashKey key) s SubjectService ns perms (ak_Prefix a)))
     else apikey_Authenticate hashKey a req) ∧
  apikey_Authenticate hashKey (RevokeKey hashKey key a) req =
    (if decide (k = key) then None else apikey_Authenticate hashKey a req).
Proof.
  intros Hinj k. rewrite !apikey_answer. fold k. unfold AddKey, RevokeKey. cbn [keyHash k_Hash].
  split; case_decide as Hk.
  - subst key. by rewrite lookup_insert_eq.
  - rewrite lookup_insert_ne; [done|]. intros Heq%Hinj. by apply Hk.
  - subst key. rewrite lookup_delete_eq. unfold answer. destruct (bool_decide (r_APIKey req = "")); [done|]. by destruct (_ && _).
  - rewrite lookup_delete_ne; [done|]. intros Heq%Hinj. by apply Hk.
Qed.

Lemma api_keys_map_witness :
  let a := mkAPIKeyAuthenticator "flw_" 20 ∅ in
  let req := mkAuthRequest "" "" "" " flw_x " "" "" "ns" in
  let k := TrimSpace (r_APIKey req) in
  Inj (=) (=) (λ s : string, s) ∧ k = "flw_x" ∧
  SubjectID <$> apikey_Authenticate id (AddKey id "flw_x" "svc" "ns" ["publish"] a) req = Some "svc" ∧
  apikey_Authenticate id (AddKey id "flw_x" "svc" "ns" ["publish"] a) req =
    (if decide (k = "flw_x")
     then answer a req (Some (mkAPIKeyEntry "flw_x" "svc" SubjectService "ns" ["publish"] (ak_Prefix a)))
     else apikey_Authenticate id a req) ∧
  apikey_Authenticate id (RevokeKey id "flw_x" a) req =
    (if decide (k = "flw_x") then None else apikey_Authenticate id a req).
Proof.
  split; [by intros x y ->|]. split; [by vm_compute|]. split; [by vm_compute|].
  apply (api_keys_map id (mkAPIKeyAuthenticator "flw_" 20 ∅) (mkAuthRequest "" "" "" " flw_x " "" "" "ns") "flw_x" "svc" "ns" ["publish"]).
  by intros x y H.
Defined.

(** ** Who gets in *)

Lemma permission_set_elem p perms :
  p ∈ PermissionSetFromStrings perms ↔ ∃ s, s ∈ perms ∧ permission_named s = Some p.
Proof.
  unfold PermissionSetFromStrings. rewrite <-(reverse_involutive perms) at 1.
  assert (∀ l (acc : PermissionSet), p ∈ foldl (λ ps s, match permission_named s with Some q => ps ∪ {[q]} | None => ps end) acc l ↔
    p ∈ acc ∨ ∃ s, s ∈ l ∧ permission_named s = Some p) as H.
  { induction l as [|s l IH]; intros acc; cbn [foldl].
    - split; [by left|]. intros [?|(s & Hs & _)]; [done|]. by apply elem_of_nil in Hs.
    - rewrite IH. setoid_rewrite elem_of_cons. destruct (permission_named s) as [q|] eqn:E.
      + rewrite elem_of_union, elem_of_singleton. split.
        * intros [[?| ->]|(s' & ? & ?)]; [by left|right; exists s; eauto|right; eauto].
        * intros [?|(s' & [->|?] & Hs')]; [tauto| |right; eauto]. left. right. congruence.
      + split; [intros [?|(s' & ? & ?)]; eauto|]. intros [?|(s' & [->|?] & ?)]; [tauto|congruence|eauto]. }
  rewrite reverse_involutive, H. set_solver.
Qed.

Lemma admin_permission perms : PermAdmin ∈ PermissionSetFromStrings perms ↔ "admin" ∈ perms.
Proof.
  rewrite permission_set_elem. split; [|intros; by exists "admin"].
  intros (s & Hs & Hp). assert (s = "admin") as <-; [|done]. unfold permission_named in Hp.
  repeat (case_bool_decide; [try done; by injection Hp|simpl in Hp]). done.
Qed.

Section login.
Context (compare : string → string → bool) (users : gmap string User).
Context (hashKey : string → string) (keys : APIKeyAuthenticator) (issued later : Z).

(** The registry of a server with the password and the API-key provider. *)
Definition providers : AuthRegistry :=
  Register (apikey_Authenticator hashKey keys) (Register (PasswordAuthenticator compare users issued later) NewRegistry).

Abbreviation by_password := (password_Authenticate compare users issued later).
Abbreviation by_key := (apikey_Authenticate hashKey keys).

(** In either order of the two providers the answer is the same. *)
Lemma try_providers ord req :
  r_APIKey req = "" ∨ r_Username req = "" ∨ r_Password req = "" →
  try_all (All ord providers) req = inl (match by_password req with Some id => Some id | None => by_key req end).
Proof.
  intros Hreq.
  assert (by_password req = None ∨ by_key req = None) as Hone.
  { destruct Hreq as [H|H]; [right|left].
    - unfold apikey_Authenticate. by rewrite H.
    - unfold password_Authenticate. destruct H as [-> | ->]; [done|]. by rewrite orb_true_r. }
  destruct (exchange_sort_spec (length (range_of ord providers).*2) (range_of ord providers).*2 ltac:(lia)) as [Hp _].
  fold (All ord providers) in Hp. rewrite (range_perm ord providers) in Hp.
  assert ((map_to_list providers).*2 ≡ₚ [apikey_Authenticator hashKey keys; PasswordAuthenticator compare users issued later]) as Hl.
  { change providers with (<["api_key" := apikey_Authenticator hashKey keys]>
      (<["password" := PasswordAuthenticator compare users issued later]> (∅ : gmap string Authenticator))).
    rewrite (map_to_list_insert (M:=gmap string) _ "api_key") by (by rewrite lookup_insert_ne). csimpl.
    rewrite (map_to_list_insert (M:=gmap string) ∅ "password") by apply lookup_empty. by rewrite map_to_list_empty. }
  rewrite Hl in Hp. clear Hl. destruct (All ord providers) as [|a [|b [|c l]]]; try by apply Permutation_length in Hp.
  apply Permutation_length_2_inv in Hp as [Hp|Hp]; try done. all: injection Hp as <- <-; cbn -[password_Authenticate apikey_Authenticate].
  all: destruct (by_password req), (by_key req); try done; by destruct Hone.
Qed.

(** The password is right. *)
Definition valid_password (username password : string) (u : User) : Prop :=
  username ≠ "" ∧ password ≠ "" ∧ users !! username = Some u ∧ compare (u_PasswordHash u) password = true.

(** The key is known, has the required prefix and is good for the namespace. *)
Definition valid_key (apiKey namespace : string) (e : APIKeyEntry) : Prop :=
  apiKey ≠ "" ∧ keyHash keys !! hashKey (TrimSpace apiKey) = Some e ∧
  (ak_Prefix keys = "" ∨ HasPrefix (TrimSpace apiKey) (ak_Prefix keys) = true) ∧
  (namespace = "" ∨ k_Namespace e = "" ∨ namespace = k_Namespace e).

Lemma by_password_iff req id :
  by_password req = Some id ↔ ∃ u, valid_password (r_Username req) (r_Password req) u ∧
    id = password_identity issued (later + 24 * hour) req u.
Proof.
  unfold password_Authenticate, CheckPassword, GetUser, valid_password.
  destruct (decide (r_Username req = "")) as [->|Hu]; [cbn; naive_solver|].
  destruct (decide (r_Password req = "")) as [->|Hp]; [rewrite orb_true_r; naive_solver|].
  rewrite !bool_decide_eq_false_2 by done. cbn [orb].
  destruct (users !! r_Username req) as [u|]; cbn [negb]; [|naive_solver].
  destruct (compare (u_PasswordHash u) (r_Password req)) eqn:E; cbn [negb].
  - split; [intros [= <-]; exists u; by split_and!|]. intros (u' & (_ & _ & [= <-] & _) & ->). done.
  - split; [done|]. intros (u' & (_ & _ & [= <-] & ?) & _). congruence.
Qed.

Lemma by_key_iff req id :
  by_key req = Some id ↔ ∃ e, valid_key (r_APIKey req) (r_Namespace req) e ∧ id = apikey_identity e.
Proof.
  unfold apikey_Authenticate, valid_key.
  destruct (decide (r_APIKey req = "")) as [->|Hk]; [cbn; naive_solver|]. rewrite bool_decide_eq_false_2 by done. cbn zeta.
  destruct (negb (bool_decide (ak_Prefix keys = "")) && _) eqn:Ep.
  { apply andb_true_iff in Ep as [H1%negb_true_iff%bool_decide_eq_false H2%negb_true_iff].
    split; [done|]. intros (e & (_ & _ & [?|?] & _) & _); congruence. }
  assert (ak_Prefix keys = "" ∨ HasPrefix (TrimSpace (r_APIKey req)) (ak_Prefix keys) = true) as Hpre.
  { apply andb_false_iff in Ep as [H1%negb_false_iff%bool_decide_eq_true|H2%negb_false_iff]; tauto. }
  destruct (keyHash keys !! _) as [e|] eqn:E; [|split; [done|]; intros (e & (_ & ? & _) & _); congruence].
  assert ((negb (bool_decide (r_Namespace req = "")) && negb (bool_decide (k_Namespace e = ""))
     && negb (bool_decide (r_Namespace req = k_Namespace e))) = false ↔
     (r_Namespace req = "" ∨ k_Namespace e = "" ∨ r_Namespace req = k_Namespace e)) as Hns.
  { rewrite !andb_false_iff, !negb_false_iff, !bool_decide_eq_true. tauto. }
  destruct (_ && _ && _).
  - split; [done|]. intros (e' & (_ & [= <-] & _ & H) & _). by apply Hns in H.
  - split; [intros [= <-]; exists e; split_and!; tauto|]. intros (e' & (_ & [= <-] & _) & ->). done.
Qed.
End login.

Lemma password_access issued expires req u ns :
  CanAccessNamespace ns (password_identity issued expires req u) = bool_decide (u_Role u = "admin").
Proof.
  unfold CanAccessNamespace, IsAdmin, HasPermission, perm_Has, password_identity, resolvePermissions.
  cbn [Permissions SubjectType Namespaces]. destruct (decide (u_Role u = "admin")) as [Hr|Hr].
  - rewrite !(bool_decide_eq_true_2 _ Hr). by vm_compute.
  - rewrite !(bool_decide_eq_false_2 _ Hr), lookup_empty. by vm_compute.
Qed.

Lemma key_access keys h e ns :
  keys_wf keys → keyHash keys !! h = Some e →
  CanAccessNamespace ns (apikey_identity e) = true ↔
    "admin" ∈ k_Permissions e ∨ (k_Namespace e = ns ∧ k_Permissions e ≠ []).
Proof.
  intros Hw He. destruct (Hw h e He) as [_ Hty].
  unfold CanAccessNamespace, IsAdmin, HasPermission, perm_Has, apikey_identity. cbn [Permissions SubjectType Namespaces].
  rewrite Hty. change (bool_decide (SubjectService = SubjectAdmin)) with false. rewrite orb_false_r.
  case_bool_decide as Ha; rewrite admin_permission in Ha; [split; [by left|done]|].
  destruct ({[k_Namespace e := k_Permissions e]} !! ns) as [perms|] eqn:El.
  - apply lookup_singleton_Some in El as [-> <-]. rewrite Nat.ltb_lt.
    destruct (k_Permissions e); simpl; [|intuition (done || lia)]. split; [lia|]. tauto.
  - apply lookup_singleton_None in El. split; [done|tauto].
Qed.

(** Who gets in. *)
Lemma login_cases compare users hashKey keys issued later ord ord' addr u p k t ns :
  keys_wf keys →
  let '(reply, session) := conn_Authenticate ord ord' (providers compare users hashKey keys issued later) addr
                             (Some (ConnectFrame u p k t ns)) in
  (is_Some session ↔ reply = ConnectOKFrame addr) ∧
  (is_Some session ↔
     (∃ usr, valid_password compare users u p usr ∧ u_Role usr = "admin") ∨
     ((∀ usr, ¬ valid_password compare users u p usr) ∧
      ∃ e, valid_key hashKey keys k ns e ∧
           ("admin" ∈ k_Permissions e ∨ (k_Namespace e = ns ∧ k_Permissions e ≠ [])))).
Proof.
  intros Hw. unfold conn_Authenticate, AuthenticateTCP, AuthenticateTCPWithKey.
  rewrite !try_providers by (simpl; tauto). cbn [identity_of].
  set (reqp := mkAuthRequest addr u p "" "" "" ns). set (reqk := mkAuthRequest addr "" "" k "" "" ns).
  assert (apikey_Authenticate hashKey keys reqp = None) as -> by done.
  assert (password_Authenticate compare users issued later reqk = None) as -> by done.
  pose proof (by_password_iff compare users issued later reqp) as Hp.
  pose proof (by_key_iff hashKey keys reqk) as Hk. cbn [reqp reqk r_Username r_Password r_APIKey r_Namespace] in Hp, Hk.
  assert ((if negb (bool_decide (p = "")) && negb (bool_decide (u = ""))
    then match password_Authenticate compare users issued later reqp with Some id => Some id | None => None end else None)
    = password_Authenticate compare users issued later reqp) as ->.
  { unfold password_Authenticate. cbn [reqp r_Username r_Password].
    do 2 case_bool_decide; try done. match goal with |- _ = ?x => by destruct x end. }
  assert ((if negb (bool_decide (k = "")) then apikey_Authenticate hashKey keys reqk else None)
    = apikey_Authenticate hashKey keys reqk) as ->.
  { unfold apikey_Authenticate. cbn [reqk r_APIKey]. by case_bool_decide. }
  destruct (password_Authenticate compare users issued later reqp) as [id|] eqn:Epw.
  - destruct (proj1 (Hp id) eq_refl) as (usr & Hv & ->). rewrite password_access. case_bool_decide as Hr; cbn [negb].
    + split; [by split; [|eauto]|]. split; [|eauto]. intros _. left. eauto.
    + split; [split; [by intros [? ?]|done]|]. split; [by intros [? ?]|].
      intros [(usr' & Hv' & Hr')|[Hno _]]; [|by destruct (Hno usr)].
      destruct Hv as (_ & _ & H1 & _), Hv' as (_ & _ & H2 & _). congruence.
  - assert (∀ usr, ¬ valid_password compare users u p usr) as Hno.
    { intros usr Hv. enough (None = Some (password_identity issued (later + 24 * hour) reqp usr)) by done.
      apply Hp. eauto. }
    destruct (apikey_Authenticate hashKey keys reqk) as [id|] eqn:Ek.
    + destruct (proj1 (Hk id) eq_refl) as (e & Hv & ->). pose proof (key_access keys _ e ns Hw (proj1 (proj2 Hv))) as Ha.
      destruct (CanAccessNamespace ns (apikey_identity e)); cbn [negb].
      * split; [by split; [|eauto]|]. split; [|eauto]. intros _. right. split; [done|]. exists e. tauto.
      * split; [split; [by intros [? ?]|done]|]. split; [by intros [? ?]|].
        intros [(usr & Hv' & _)|[_ (e' & Hv' & Hg)]]; [by destruct (Hno usr)|].
        destruct Hv as (_ & H1 & _), Hv' as (_ & H2 & _). assert (e' = e) as -> by congruence. by apply Ha in Hg.
    + split; [split; [by intros [? ?]|done]|]. split; [by intros [? ?]|].
      intros [(usr & Hv' & _)|[_ (e' & Hv' & _)]]; [by destruct (Hno usr)|].
      enough (None = Some (apikey_identity e')) by done. apply Hk. eauto.
Qed.

(** Who gets in, on a server with the password and the API-key provider,
    whatever order the providers are tried in: administrators with the right
    password, and, when no password matches, holders of a key that is good for
    the namespace and grants something there or grants "admin". *)
Theorem login_spec compare users hashKey keys issued later ord ord' addr u p k t ns :
  keys_wf keys →
  let '(reply, session) := conn_Authenticate ord ord' (providers compare users hashKey keys issued later) addr
                             (Some (ConnectFrame u p k t ns)) in
  (is_Some session ↔ reply = ConnectOKFrame addr) ∧
  (is_Some session ↔
     (∃ usr, valid_password compare users u p usr ∧ u_Role usr = "admin") ∨
     ((∀ usr, ¬ valid_password compare users u p usr) ∧
      ∃ e, valid_key hashKey keys k ns e ∧
           ("admin" ∈ k_Permissions e ∨ (k_Namespace e = ns ∧ k_Permissions e ≠ [])))).
Proof. apply login_cases. Qed.

(** A table with an administrator and a producer, and one key. *)
Definition sample_users : gmap string User :=
  {["root" := mkUser 1 "root" "pw0" None "admin" "" ""; "bob" := mkUser 2 "bob" "pw1" None "producer" "" ""]}.
Definition sample_keys : APIKeyAuthenticator :=
  AddKey id "flw_1" "svc" "ns" ["publish"] (mkAPIKeyAuthenticator "flw_" 20 ∅).
Definition sample_login (u p k ns : string) : frame * option (Identity * string * string) :=
  conn_Authenticate list_order list_order (providers String.eqb sample_users id sample_keys 0 0) "1.2.3.4:5"
    (Some (ConnectFrame u p k "" ns)).

Lemma sample_keys_wf : keys_wf sample_keys.
Proof. apply AddKey_wf. intros h e. cbn [keyHash]. by rewrite lookup_empty. Qed.

Lemma login_spec_witness :
  keys_wf sample_keys ∧
  (sample_login "root" "pw0" "" "ns").1 = ConnectOKFrame "1.2.3.4:5" ∧
  let '(reply, session) := sample_login "x" "" "flw_1" "ns" in
  (is_Some session ↔ reply = ConnectOKFrame "1.2.3.4:5") ∧
  (is_Some session ↔
     (∃ usr, valid_password String.eqb sample_users "x" "" usr ∧ u_Role usr = "admin") ∨
     ((∀ usr, ¬ valid_password String.eqb sample_users "x" "" usr) ∧
      ∃ e, valid_key id sample_keys "flw_1" "ns" e ∧
           ("admin" ∈ k_Permissions e ∨ (k_Namespace e = "ns" ∧ k_Permissions e ≠ [])))).
Proof.
  split; [apply sample_keys_wf|]. split; [by vm_compute|].
  apply (login_spec String.eqb sample_users id sample_keys 0 0 list_order list_order "1.2.3.4:5" "x" "" "flw_1" "" "ns").
  apply sample_keys_wf.
Defined.

(** A user who is not an administrator is refused with the right password, and
    with it even a good API key does not help; a key without a namespace opens
    no namespace. *)
Theorem plain_user_locked_out :
  sample_login "bob" "pw1" "" "ns" = (ConnectErrFrame "no access to namespace", None) ∧
  sample_login "bob" "pw1" "flw_1" "ns" = (ConnectErrFrame "no access to namespace", None) ∧
  is_Some (sample_login "bob" "wrong" "flw_1" "ns").2 ∧
  (conn_Authenticate list_order list_order
     (providers String.eqb sample_users id (AddKey id "flw_2" "svc" "" ["publish"] sample_keys) 0 0) "1.2.3.4:5"
     (Some (ConnectFrame "x" "" "flw_2" "" "ns"))).1 = ConnectErrFrame "no access to namespace".
Proof.
  split; [by vm_compute|]. split; [by vm_compute|]. split; [|by vm_compute].
  apply (bool_decide_unpack _). by vm_compute.
Qed.

(** ** Policies *)

Lemma bind_subject roles s (m : gmap string string) s' :
  foldl (λ m role, <[s := role]> m) m roles !! s' =
    if decide (s' = s) then match last roles with Some r => Some r | None => m !! s' end else m !! s'.
Proof.
  revert m. induction roles as [|r roles IH]; intros m; [by case_decide|]. cbn [foldl]. rewrite IH, last_cons.
  case_decide as Hs; [subst|by rewrite lookup_insert_ne].
  destruct (last roles); [done|]. apply lookup_insert_eq.
Qed.

(** A binding gives its subjects the last of its roles and leaves the others
    alone; neither its other roles nor its namespace have any effect on what
    the policy permits. *)
Theorem role_binding_spec name subjects roles namespace p s resource action :
  let p' := AddRoleBinding name subjects roles namespace p in
  GetRoleForSubject p' s =
    (if decide (s ∈ subjects) then default (GetRoleForSubject p s) (last roles) else GetRoleForSubject p s) ∧
  policy_HasPermission p' s resource action =
    policy_HasPermission (mkPolicy "" {[s := GetRoleForSubject p' s]} [] (Resources p)) s resource action.
Proof.
  intros p'. split.
  - unfold p', GetRoleForSubject, AddRoleBinding. cbn [p_Roles]. generalize (p_Roles p) as m.
    induction subjects as [|x subjects IH]; intros m; cbn [foldl].
    { by rewrite decide_False by apply not_elem_of_nil. }
    rewrite IH. rewrite bind_subject. destruct (decide (s = x)) as [->|Hx].
    + rewrite (decide_True (P:=x ∈ x :: subjects)) by (by left).
      destruct (last roles); [|by case_decide]. by case_decide.
    + assert (s ∈ x :: subjects ↔ s ∈ subjects) as Hiff by (rewrite elem_of_cons; tauto).
      do 2 case_decide; tauto.
  - unfold policy_HasPermission.
    assert (GetRoleForSubject (mkPolicy "" {[s := GetRoleForSubject p' s]} [] (Resources p)) s = GetRoleForSubject p' s) as ->.
    { unfold GetRoleForSubject at 1. cbn [p_Roles]. by rewrite lookup_singleton_eq. }
    done.
Qed.

(** A producer who is also a consumer cannot publish. *)
Example two_roles :
  policy_HasPermission (AddRoleBinding "b" ["bob"] [RoleProducer; RoleConsumer] "" NewPolicy) "bob" "q" "publish" = false.
Proof. by vm_compute. Qed.
