(* ===== verification/Server.v ===== *)
(** * The TCP server's accept loop (src/internal/server/tcp_server.go)

    One goroutine accepts; every accepted connection runs its handler in a
    goroutine of its own, which gives its slot back when it returns.  The
    decision of the token bucket, which computes with floating-point numbers,
    is part of the event. *)

From stdpp Require Import base list relations.
From Stdlib Require Import ZArith Lia.
From S2P Require Import Prelude.
Local Open Scope Z_scope.

(** What [Accept] returns, and for a connection whether the bucket allows it. *)
Inductive accept :=
| AcceptTimeout
| AcceptFatal
| AcceptConn (allowed : bool).

(** What the loop does about it. *)
Inductive action :=
| Sleep (d : Z)
| Stop
| RejectRate
| RejectMax
| Spawn.

Record TCPServer := mkServer {
  MaxConnections : Z;
  limited_rate : bool;      (** a token bucket is configured *)
  activeConns : Z;
  backoff : Z;
}.

Definition maxBackoff : Z := 5 * second.
Definition NewTCPServer (maxConns : Z) (rate : bool) : TCPServer := mkServer maxConns rate 0 millisecond.

Definition set_backoff (d : Z) (s : TCPServer) : TCPServer := mkServer (MaxConnections s) (limited_rate s) (activeConns s) d.
Definition set_active (n : Z) (s : TCPServer) : TCPServer := mkServer (MaxConnections s) (limited_rate s) n (backoff s).

(** One turn of [acceptLoop]. *)
Definition acceptLoop (e : accept) (s : TCPServer) : TCPServer * action :=
  match e with
  | AcceptTimeout =>
      (if backoff s <? maxBackoff then set_backoff (backoff s + backoff s) s else s, Sleep (backoff s))
  | AcceptFatal => (s, Stop)
  | AcceptConn allowed =>
      let s := set_backoff millisecond s in
      if limited_rate s && negb allowed then (s, RejectRate)
      else if 0 <? MaxConnections s then
        if MaxConnections s <=? activeConns s then (s, RejectMax)
        else (set_active (i32 (activeConns s + 1)) s, Spawn)
      else (s, Spawn)
  end.

(** The deferred call of [handleConn]. *)
Definition handleConn_done (s : TCPServer) : TCPServer :=
  if 0 <? MaxConnections s then set_active (i32 (activeConns s - 1)) s else s.

(** The server with the number of handlers that are running: the loop turns,
    and any running handler may return. *)
Inductive sstep : TCPServer * nat → TCPServer * nat → Prop :=
| ss_accept e s s' a n :
    acceptLoop e s = (s', a) →
    sstep (s, n) (s', match a with Spawn => S n | _ => n end)
| ss_done s n : sstep (s, S n) (handleConn_done s, n).

Definition counted (s : TCPServer) (n : nat) : Prop :=
  0 < MaxConnections s < 2 ^ 31 ∧ activeConns s = Z.of_nat n ∧ Z.of_nat n ≤ MaxConnections s.

Lemma sstep_counted s n s' n' :
  sstep (s, n) (s', n') → counted s n → counted s' n' ∧ MaxConnections s' = MaxConnections s.
Proof.
  intros Hst (Hm & Ha & Hn). inversion Hst as [e s0 s1 a n0 Hacc|s0 n0]; subst.
  - destruct e as [| |allowed]; cbn [acceptLoop] in Hacc.
    + destruct (backoff s <? maxBackoff); by injection Hacc as <- <-.
    + by injection Hacc as <- <-.
    + cbn [set_backoff limited_rate MaxConnections activeConns] in Hacc.
      destruct (_ && _); [by injection Hacc as <- <-|].
      destruct (Z.ltb_spec 0 (MaxConnections s)); [|lia].
      destruct (Z.leb_spec (MaxConnections s) (activeConns s)); injection Hacc as <- <-; [done|].
      split; [|done]. unfold counted. cbn [set_active set_backoff MaxConnections activeConns].
      rewrite wrap_s_small by (try done; change (2 ^ (32 - 1)) with (2 ^ 31); lia). lia.
  - unfold handleConn_done. destruct (Z.ltb_spec 0 (MaxConnections s)); [|lia]. split; [|done].
    unfold counted. cbn [set_active MaxConnections activeConns].
    rewrite wrap_s_small by (try done; change (2 ^ (32 - 1)) with (2 ^ 31); lia). lia.
Qed.

Lemma reachable_counted x y :
  rtc sstep x y → counted x.1 x.2 → counted y.1 y.2 ∧ MaxConnections y.1 = MaxConnections x.1.
Proof.
  induction 1 as [|[s1 n1] [s2 n2] y Hst _ IH]; intros Hc; [done|].
  destruct (sstep_counted _ _ _ _ Hst Hc) as [Hc' Hmax]. destruct (IH Hc'). split; [done|]. simpl in *. congruence.
Qed.

Lemma reachable_limit maxConns rate s n :
  0 < maxConns < 2 ^ 31 → rtc sstep (NewTCPServer maxConns rate, O) (s, n) →
  activeConns s = Z.of_nat n ∧ Z.of_nat n ≤ maxConns.
Proof.
  intros Hm Hrun. destruct (reachable_counted _ _ Hrun) as [(_ & Ha & Hn) Hmax]; [unfold counted; simpl; lia|].
  simpl in *. split; [done|]. lia.
Qed.

(** With a limit configured, at no time do more handlers run than it allows,
    and the counter is the number of handlers that run. *)
Theorem connection_limit maxConns rate s n :
  0 < maxConns < 2 ^ 31 → rtc sstep (NewTCPServer maxConns rate, O) (s, n) →
  activeConns s = Z.of_nat n ∧ Z.of_nat n ≤ maxConns.
Proof. apply reachable_limit. Qed.

Lemma connection_limit_witness :
  let s := set_active 1 (NewTCPServer 1 false) in
  rtc sstep (NewTCPServer 1 false, O) (s, 1%nat) ∧ (acceptLoop (AcceptConn true) s).2 = RejectMax ∧
  activeConns s = Z.of_nat 1 ∧ Z.of_nat 1 ≤ 1.
Proof.
  intros s. assert (rtc sstep (NewTCPServer 1 false, O) (s, 1%nat)) as Hrun.
  { eapply rtc_l; [|apply rtc_refl]. by apply (ss_accept (AcceptConn true) (NewTCPServer 1 false) s Spawn 0). }
  split; [exact Hrun|]. split; [done|]. apply (connection_limit 1 false s 1); [lia|exact Hrun].
Defined.

(** The pauses after consecutive timeouts: they double from a millisecond and
    end above the five seconds [maxBackoff] names. *)
Fixpoint pauses (n : nat) (s : TCPServer) : list Z :=
  match n with
  | O => []
  | S n => match acceptLoop AcceptTimeout s with (s', Sleep d) => d :: pauses n s' | _ => [] end
  end.

Lemma pauses_bound n s :
  0 < backoff s → backoff s < 2 * maxBackoff → Forall (λ d, 0 < d < 2 * maxBackoff) (pauses n s).
Proof.
  revert s. induction n as [|n IH]; intros s Hp Hb; [constructor|]. cbn [pauses acceptLoop].
  constructor; [lia|]. destruct (Z.ltb_spec (backoff s) maxBackoff); apply IH; simpl; lia.
Qed.

Theorem backoff_pauses maxConns rate :
  (∀ n, Forall (λ d, 0 < d < 2 * maxBackoff) (pauses n (NewTCPServer maxConns rate))) ∧
  last (pauses 15 (NewTCPServer maxConns rate)) = Some (8192 * millisecond) ∧ maxBackoff < 8192 * millisecond.
Proof.
  split; [|done]. intros n. apply pauses_bound; by vm_compute.
Qed.
