(* ===== verification/Base64.v ===== *)
(** * Base64 as the token code uses it

    encoding/base64 with the two encodings of src/internal/auth/jwt/jwt.go: the
    URL alphabet without padding and the standard alphabet with padding.  The
    decoder skips line breaks and does not look at the unused low bits of the
    last character, as the package's default does. *)

From stdpp Require Import base list.
From Stdlib Require Import ZArith Lia Strings.Byte.
From S2P Require Import Prelude.
Local Open Scope Z_scope.
Local Open Scope list_scope.

(** ** Alphabets *)

Record alphabet := mkAlphabet { c62 : byte; c63 : byte }.
Definition url_alphabet : alphabet := mkAlphabet x2d x5f.   (** - and _ *)
Definition std_alphabet : alphabet := mkAlphabet x2b x2f.   (** + and / *)

Definition enc_char (a : alphabet) (v : Z) : byte :=
  if v <? 26 then byte_of_Z (65 + v)
  else if v <? 52 then byte_of_Z (97 + (v - 26))
  else if v <? 62 then byte_of_Z (48 + (v - 52))
  else if v =? 62 then c62 a else c63 a.

Definition dec_char (a : alphabet) (b : byte) : option Z :=
  let c := byte_to_Z b in
  if (65 <=? c) && (c <=? 90) then Some (c - 65)
  else if (97 <=? c) && (c <=? 122) then Some (c - 97 + 26)
  else if (48 <=? c) && (c <=? 57) then Some (c - 48 + 52)
  else if bool_decide (b = c62 a) then Some 62
  else if bool_decide (b = c63 a) then Some 63
  else None.

(** ** Encoding *)

Definition sextet (v : Z) (i : Z) : Z := (v / 64 ^ i) `mod` 64.

Fixpoint encode_with (pad : option byte) (a : alphabet) (bs : list byte) : list byte :=
  match bs with
  | [] => []
  | [x] =>
      let v := byte_to_Z x * 65536 in
      [enc_char a (sextet v 3); enc_char a (sextet v 2)] ++ match pad with Some p => [p; p] | None => [] end
  | [x; y] =>
      let v := byte_to_Z x * 65536 + byte_to_Z y * 256 in
      [enc_char a (sextet v 3); enc_char a (sextet v 2); enc_char a (sextet v 1)]
      ++ match pad with Some p => [p] | None => [] end
  | x :: y :: z :: bs =>
      let v := byte_to_Z x * 65536 + byte_to_Z y * 256 + byte_to_Z z in
      enc_char a (sextet v 3) :: enc_char a (sextet v 2) :: enc_char a (sextet v 1) :: enc_char a (sextet v 0)
      :: encode_with pad a bs
  end.

Definition pad_char : byte := x3d.
Definition RawURL_encode (bs : list byte) : list byte := encode_with None url_alphabet bs.
Definition Std_encode (bs : list byte) : list byte := encode_with (Some pad_char) std_alphabet bs.

(** ** Decoding *)

Definition line_break (b : byte) : bool := bool_decide (b = x0d) || bool_decide (b = x0a).

Definition quantum_bytes (n : nat) (v : Z) : list byte :=
  take n [byte_of_Z (v / 65536); byte_of_Z (v / 256); byte_of_Z v].

(** The bytes of characters that contain no line break. *)
Fixpoint decode_chars (padded : bool) (a : alphabet) (cs : list byte) : option (list byte) :=
  match cs with
  | [] => Some []
  | c0 :: c1 :: c2 :: c3 :: cs =>
      x0 ← dec_char a c0; x1 ← dec_char a c1;
      if padded && bool_decide (c2 = pad_char) then
        (** two padding characters end the input *)
        if bool_decide (c3 = pad_char) && bool_decide (cs = []) then Some (quantum_bytes 1 ((x0 * 64 + x1) * 4096)) else None
      else
        x2 ← dec_char a c2;
        if padded && bool_decide (c3 = pad_char) then
          if bool_decide (cs = []) then Some (quantum_bytes 2 (((x0 * 64 + x1) * 64 + x2) * 64)) else None
        else
          x3 ← dec_char a c3;
          rest ← decode_chars padded a cs;
          Some (quantum_bytes 3 (((x0 * 64 + x1) * 64 + x2) * 64 + x3) ++ rest)
  | [c0; c1; c2] =>
      if padded then None
      else x0 ← dec_char a c0; x1 ← dec_char a c1; x2 ← dec_char a c2;
           Some (quantum_bytes 2 (((x0 * 64 + x1) * 64 + x2) * 64))
  | [c0; c1] =>
      if padded then None
      else x0 ← dec_char a c0; x1 ← dec_char a c1; Some (quantum_bytes 1 ((x0 * 64 + x1) * 4096))
  | [_] => None
  end.

Definition RawURL_decode (s : list byte) : option (list byte) :=
  decode_chars false url_alphabet (filter (λ b, line_break b = false) s).
Definition Std_decode (s : list byte) : option (list byte) :=
  decode_chars true std_alphabet (filter (λ b, line_break b = false) s).

Example std_abc : Std_encode [x61; x62; x63; x64] = [x59; x57; x4a; x6a; x5a; x41; x3d; x3d].
Proof. by vm_compute. Qed.

(** ** Round trip *)

(** What the decoder needs of an alphabet. *)
Definition alphabet_ok (a : alphabet) : bool :=
  forallb (λ n, let v := Z.of_nat n in
    bool_decide (dec_char a (enc_char a v) = Some v) && negb (line_break (enc_char a v))
    && negb (bool_decide (enc_char a v = pad_char)) && negb (bool_decide (enc_char a v = x2e))) (seq 0 64).

Lemma url_ok : alphabet_ok url_alphabet = true. Proof. by vm_compute. Qed.
Lemma std_ok : alphabet_ok std_alphabet = true. Proof. by vm_compute. Qed.

Lemma alphabet_spec a v :
  alphabet_ok a = true → 0 ≤ v < 64 →
  dec_char a (enc_char a v) = Some v ∧ line_break (enc_char a v) = false ∧ enc_char a v ≠ pad_char ∧ enc_char a v ≠ x2e.
Proof.
  intros Ha Hv. unfold alphabet_ok in Ha. rewrite forallb_forall in Ha. specialize (Ha (Z.to_nat v)).
  rewrite Z2Nat.id in Ha by lia.
  assert (In (Z.to_nat v) (seq 0 64)) as Hin by (apply List.in_seq; lia). apply Ha in Hin.
  rewrite !andb_true_iff, !negb_true_iff, bool_decide_eq_true, !bool_decide_eq_false in Hin. tauto.
Qed.

Lemma sextet_range v i : 0 ≤ sextet v i < 64.
Proof. apply Z.mod_pos_bound. lia. Qed.

Lemma sextets_of v :
  0 ≤ v < 2 ^ 24 → ((sextet v 3 * 64 + sextet v 2) * 64 + sextet v 1) * 64 + sextet v 0 = v.
Proof.
  intros Hv. unfold sextet. change (64 ^ 3) with (64 * (64 * 64)). change (64 ^ 2) with (64 * 64).
  change (64 ^ 1) with 64. change (64 ^ 0) with 1. rewrite Z.div_1_r, <-!Z.div_div by lia.
  set (a := v / 64). set (b := a / 64). set (c := b / 64).
  pose proof (Z.div_mod v 64 ltac:(lia)). pose proof (Z.div_mod a 64 ltac:(lia)). pose proof (Z.div_mod b 64 ltac:(lia)).
  rewrite (Z.mod_small c 64); [lia|]. unfold c, b, a. rewrite !Z.div_div by lia.
  split; [apply Z.div_pos; lia|apply Z.div_lt_upper_bound; lia].
Qed.

Lemma sextet_low w : sextet (w * 64) 0 = 0.
Proof. unfold sextet. change (64 ^ 0) with 1. rewrite Z.div_1_r. apply Z.mod_mul. lia. Qed.
Lemma sextet_mid w : sextet (w * 4096) 1 = 0.
Proof.
  unfold sextet. change (64 ^ 1) with 64. replace (w * 4096) with (w * 64 * 64) by ring.
  rewrite Z.div_mul by lia. apply Z.mod_mul. lia.
Qed.

(** The three bytes of a 24-bit number. *)
Lemma quantum_spec x y z :
  quantum_bytes 3 (byte_to_Z x * 65536 + byte_to_Z y * 256 + byte_to_Z z) = [x; y; z].
Proof.
  pose proof (byte_to_Z_range x). pose proof (byte_to_Z_range y). pose proof (byte_to_Z_range z).
  unfold quantum_bytes. cbn [take].
  set (v := byte_to_Z x * 65536 + byte_to_Z y * 256 + byte_to_Z z).
  assert (∀ w b, 0 ≤ byte_to_Z b < 256 → w `mod` 256 = byte_to_Z b → byte_of_Z w = b) as Hb.
  { intros w b _ E. rewrite <-(byte_of_to_Z b), <-E. unfold byte_of_Z. by rewrite Z.mod_mod. }
  f_equal; [|f_equal; [|f_equal]]; apply Hb; try done; unfold v.
  - rewrite <-(Z.div_unique _ 65536 (byte_to_Z x) (byte_to_Z y * 256 + byte_to_Z z)) by lia. apply Z.mod_small. lia.
  - rewrite <-(Z.div_unique _ 256 (byte_to_Z x * 256 + byte_to_Z y) (byte_to_Z z)) by lia.
    rewrite Z.add_comm, Z_mod_plus_full. apply Z.mod_small. lia.
  - replace (byte_to_Z x * 65536 + byte_to_Z y * 256 + byte_to_Z z)
      with (byte_to_Z z + (byte_to_Z x * 256 + byte_to_Z y) * 256) by ring.
    rewrite Z_mod_plus_full. apply Z.mod_small. lia.
Qed.

Lemma quantum_take n v : (n ≤ 3)%nat → quantum_bytes n v = take n (quantum_bytes 3 v).
Proof. unfold quantum_bytes. intros. rewrite take_take. f_equal. lia. Qed.

Lemma dec_enc_sextet a v i : alphabet_ok a = true → dec_char a (enc_char a (sextet v i)) = Some (sextet v i).
Proof. intros Ha. by apply alphabet_spec, sextet_range. Qed.

Lemma enc_not_pad a v i : alphabet_ok a = true → bool_decide (enc_char a (sextet v i) = pad_char) = false.
Proof. intros Ha. apply bool_decide_eq_false_2. by apply alphabet_spec, sextet_range. Qed.

Definition padded_by (pad : option byte) : bool := match pad with Some _ => true | None => false end.

Lemma decode_encode pad a bs :
  alphabet_ok a = true → pad = None ∨ pad = Some pad_char →
  decode_chars (padded_by pad) a (encode_with pad a bs) = Some bs.
Proof.
  intros Ha Hpad. assert (∀ n bs, (length bs ≤ n)%nat →
    decode_chars (padded_by pad) a (encode_with pad a bs) = Some bs) as H; [|by apply (H (length bs))].
  clear bs. induction n as [|n IH]; intros [|x [|y [|z bs]]] Hn; simpl in Hn; try lia; try done.
  - pose proof (byte_to_Z_range x). cbn [encode_with app]. set (v := byte_to_Z x * 65536).
    assert (quantum_bytes 1 ((sextet v 3 * 64 + sextet v 2) * 4096) = [x]) as Hq.
    { replace ((sextet v 3 * 64 + sextet v 2) * 4096) with v; [|pose proof (sextets_of v ltac:(unfold v; lia)) as Hs].
      - rewrite quantum_take by lia. pose proof (quantum_spec x x00 x00) as Hx. change (byte_to_Z x00) with 0 in Hx.
        unfold v. replace (byte_to_Z x * 65536) with (byte_to_Z x * 65536 + 0 * 256 + 0) by ring. by rewrite Hx.
      - assert (sextet v 1 = 0) by (unfold v; replace (byte_to_Z x * 65536) with (byte_to_Z x * 16 * 4096) by ring; apply sextet_mid).
        assert (sextet v 0 = 0) by (unfold v; replace (byte_to_Z x * 65536) with (byte_to_Z x * 1024 * 64) by ring; apply sextet_low).
        lia. }
    destruct Hpad as [-> | ->]; cbn [decode_chars padded_by]; rewrite !dec_enc_sextet by done; cbn [mbind option_bind];
      by rewrite Hq.
  - pose proof (byte_to_Z_range x). pose proof (byte_to_Z_range y). cbn [encode_with app].
    set (v := byte_to_Z x * 65536 + byte_to_Z y * 256).
    assert (quantum_bytes 2 (((sextet v 3 * 64 + sextet v 2) * 64 + sextet v 1) * 64) = [x; y]) as Hq.
    { replace (((sextet v 3 * 64 + sextet v 2) * 64 + sextet v 1) * 64) with v; [|pose proof (sextets_of v ltac:(unfold v; lia)) as Hs].
      - rewrite quantum_take by lia. pose proof (quantum_spec x y x00) as Hx. change (byte_to_Z x00) with 0 in Hx.
        unfold v. replace (byte_to_Z x * 65536 + byte_to_Z y * 256) with (byte_to_Z x * 65536 + byte_to_Z y * 256 + 0) by ring. by rewrite Hx.
      - assert (sextet v 0 = 0); [|lia].
        unfold v. replace (byte_to_Z x * 65536 + byte_to_Z y * 256) with ((byte_to_Z x * 1024 + byte_to_Z y * 4) * 64) by ring. apply sextet_low. }
    destruct Hpad as [-> | ->]; cbn [decode_chars padded_by]; rewrite !dec_enc_sextet by done; cbn [mbind option_bind];
      rewrite ?enc_not_pad by done; cbn [andb]; by rewrite ?Hq.
  - pose proof (byte_to_Z_range x). pose proof (byte_to_Z_range y). pose proof (byte_to_Z_range z).
    cbn [encode_with]. set (v := byte_to_Z x * 65536 + byte_to_Z y * 256 + byte_to_Z z).
    cbn [decode_chars]. rewrite !dec_enc_sextet by done. cbn [mbind option_bind].
    rewrite !enc_not_pad, !andb_false_r by done. cbn [mbind option_bind]. rewrite (IH bs) by lia. cbn [mbind option_bind].
    rewrite sextets_of by (unfold v; lia). unfold v. by rewrite quantum_spec.
Qed.

(** Characters of an encoding: no line breaks, and no dots without padding. *)
Lemma encode_chars pad a bs :
  alphabet_ok a = true → pad = None ∨ pad = Some pad_char →
  Forall (λ b, line_break b = false ∧ b ≠ x2e) (encode_with pad a bs).
Proof.
  intros Ha Hpad. assert (∀ v i, line_break (enc_char a (sextet v i)) = false ∧ enc_char a (sextet v i) ≠ x2e) as He.
  { intros v i. by destruct (alphabet_spec a (sextet v i) Ha (sextet_range v i)) as (_ & ? & _ & ?). }
  assert (∀ n bs, (length bs ≤ n)%nat → Forall (λ b, line_break b = false ∧ b ≠ x2e) (encode_with pad a bs)) as H;
    [|by apply (H (length bs))].
  clear bs. induction n as [|n IH]; intros [|x [|y [|z bs]]] Hn; simpl in Hn; try lia; try constructor; cbn [encode_with app].
  all: repeat constructor; try apply He.
  - by destruct Hpad as [-> | ->]; repeat constructor.
  - by destruct Hpad as [-> | ->]; repeat constructor.
  - apply IH. lia.
Qed.

Lemma filter_breaks pad a bs :
  alphabet_ok a = true → pad = None ∨ pad = Some pad_char →
  filter (λ b, line_break b = false) (encode_with pad a bs) = encode_with pad a bs.
Proof.
  intros Ha Hp. pose proof (encode_chars pad a bs Ha Hp) as H. induction H as [|b l [Hb _] _ IH]; [done|].
  by rewrite filter_cons_True, IH.
Qed.

Lemma RawURL_roundtrip bs : RawURL_decode (RawURL_encode bs) = Some bs.
Proof.
  unfold RawURL_decode, RawURL_encode. rewrite filter_breaks by (apply url_ok || by left).
  apply (decode_encode None); [apply url_ok|by left].
Qed.

Lemma Std_roundtrip bs : Std_decode (Std_encode bs) = Some bs.
Proof.
  unfold Std_decode, Std_encode. rewrite filter_breaks by (apply std_ok || by right).
  apply (decode_encode (Some pad_char)); [apply std_ok|by right].
Qed.

Lemma RawURL_no_dot bs : x2e ∉ RawURL_encode bs.
Proof.
  intros Hin. pose proof (encode_chars None url_alphabet bs url_ok (or_introl eq_refl)) as H.
  rewrite Forall_forall in H. by destruct (H _ Hin).
Qed.
