(* ===== verification/Jwt.v ===== *)
(** * Tokens (src/internal/auth/jwt/jwt.go)

    Access and refresh tokens: claims, signing with a key or with the secret,
    verification, refresh, and the calls of service.go on them.  A token is its
    bytes.  encoding/json on the three payloads, SHA-256 and the signature
    functions of the key are parameters; base64 is [Base64.v].  The key store is
    given; [Keys.v] has the loading and generating of keys. *)

From stdpp Require Import base gmap list strings.
From Stdlib Require Import ZArith Lia Strings.Byte.
From S2P Require Import Prelude Auth Base64.
Local Open Scope Z_scope.
Local Open Scope list_scope.

(** ** Payloads *)

Record Claims := mkClaims {
  Subject : string;
  SubjectTy : string;
  c_AccountID : string;
  c_Namespace : string;
  c_Roles : list string;
  Perms : list string;
  c_Namespaces : gmap string (list string);
  Method : string;
  c_IssuedAt : Z;
  c_ExpiresAt : Z;
}.

Definition ToIdentity (c : Claims) : Identity :=
  mkIdentity (Subject c) (SubjectTy c) (c_AccountID c) (c_Namespace c) (c_Roles c)
    (Some (if (0 <? length (Perms c))%nat then PermissionSetFromStrings (Perms c) else NewPermissionSet []))
    (c_Namespaces c) (Method c) (c_IssuedAt c * second) (c_ExpiresAt c * second) ∅.

Record Tokens := mkTokens { AccessToken : list byte; RefreshTok : list byte; ExpiresIn : Z; TokenType : string }.

Record RefreshToken := mkRefreshToken {
  t_SubjectID : string;
  t_SubjectType : string;
  t_AccountID : string;
  t_Roles : list string;
  t_Namespaces : gmap string (list string);
  t_IssuedAt : Z;
  t_ExpiresAt : Z;
}.

(** ** The manager *)

Record keyStore := mkKeyStore {
  keyType : string;
  keyID : string;
  ks_sign : list byte → option (list byte);     (** nothing: unsupported key *)
  ks_verify : list byte → list byte → bool;
}.

Record Manager := mkManager {
  AccessTokenTTL : Z;                (** seconds *)
  m_keyStore : option keyStore;
  hmacSecret : list byte;
}.

Definition refreshTTL : Z := 7 * 24 * hour.

Definition permissionsFromRole (role : string) : list string :=
  if bool_decide (role = "admin")
  then ["admin"; "publish"; "consume"; "ack"; "nack"; "queues:manage"; "users:manage"; "metrics:read"]
  else if bool_decide (role = "user") then ["publish"; "consume"; "ack"; "nack"; "queues:manage"]
  else [].

(** [cur] is nil after a dot; what follows the last dot counts when it is not
    nil. *)
Fixpoint split_loop (parts : list (list byte)) (cur : option (list byte)) (s : list byte) : list (list byte) :=
  match s with
  | [] => match cur with Some c => parts ++ [c] | None => parts end
  | b :: s => if bool_decide (b = x2e) then split_loop (parts ++ [default [] cur]) None s
              else split_loop parts (Some (default [] cur ++ [b])) s
  end.
Definition splitToken (token : list byte) : list (list byte) := split_loop [] None token.

Definition constTimeEqual (a b : list byte) : bool :=
  if negb (length a =? length b)%nat then false
  else foldl (λ d p, Z.lor d (Z.lxor (byte_to_Z p.1) (byte_to_Z p.2))) 0 (zip a b) =? 0.

(** encoding/json on the payloads. *)
Class JSON := {
  marshal_header : list (string * string) → list byte;
  marshal_claims : Claims → list byte;
  unmarshal_claims : list byte → option Claims;
  marshal_refresh : RefreshToken → list byte;
  unmarshal_refresh : list byte → option RefreshToken;
}.

Section jwt.
Context `{JSON} (sha256 : list byte → list byte).

Definition hmacSHA256 (data key : list byte) : list byte :=
  let k1 := sha256 (key ++ [x01]) in sha256 (k1 ++ data ++ [x01]).

Definition dot : byte := x2e.
Definition join_dot (a b : list byte) : list byte := a ++ dot :: b.

(** *** Access tokens *)

Definition signWithKey (ks : keyStore) (c : Claims) : option (list byte) :=
  let headerEnc := RawURL_encode (marshal_header [("alg", keyType ks); ("kid", keyID ks); ("typ", "JWT")]) in
  let payloadEnc := RawURL_encode (marshal_claims c) in
  sig ← ks_sign ks (join_dot headerEnc payloadEnc);
  Some (join_dot (join_dot headerEnc payloadEnc) (RawURL_encode sig)).

Definition signHMAC (m : Manager) (c : Claims) : list byte :=
  let headerEnc := RawURL_encode (marshal_header [("alg", "HS256"); ("typ", "JWT")]) in
  let payloadEnc := RawURL_encode (marshal_claims c) in
  let sig := hmacSHA256 (join_dot headerEnc payloadEnc) (hmacSecret m) in
  join_dot (join_dot headerEnc payloadEnc) (RawURL_encode sig).

Definition signClaims (m : Manager) (c : Claims) : option (list byte) :=
  match m_keyStore m with
  | Some ks => signWithKey ks c
  | None => if (0 <? length (hmacSecret m))%nat then Some (signHMAC m c) else None
  end.

(** The payload of a token whose signature was accepted. *)
Definition accepted_claims (now : Z) (payloadEnc : list byte) : option Claims :=
  bytes ← RawURL_decode payloadEnc;
  c ← unmarshal_claims bytes;
  if c_ExpiresAt c <? now / second then None else Some c.

Definition verifyWithKey (ks : keyStore) (now : Z) (token : list byte) : option Claims :=
  match splitToken token with
  | [headerEnc; payloadEnc; sigEnc] =>
      sig ← RawURL_decode sigEnc;
      if ks_verify ks (join_dot headerEnc payloadEnc) sig then accepted_claims now payloadEnc else None
  | _ => None
  end.

Definition verifyHMAC (m : Manager) (now : Z) (token : list byte) : option Claims :=
  match splitToken token with
  | [headerEnc; payloadEnc; sigEnc] =>
      let expected := hmacSHA256 (join_dot headerEnc payloadEnc) (hmacSecret m) in
      actual ← RawURL_decode sigEnc;
      if constTimeEqual expected actual then accepted_claims now payloadEnc else None
  | _ => None
  end.

Definition VerifyAccessToken (m : Manager) (now : Z) (token : list byte) : option Claims :=
  match m_keyStore m with
  | Some ks => verifyWithKey ks now token
  | None => if (0 <? length (hmacSecret m))%nat then verifyHMAC m now token else None
  end.

(** *** Refresh tokens *)

(** [now] and [later] are the two readings of the clock. *)
Definition generateRefreshToken (m : Manager) (now later : Z) (subjectID subjectType accountID : string)
    (roles : list string) (namespaces : gmap string (list string)) : list byte :=
  let rt := mkRefreshToken subjectID subjectType accountID roles namespaces (now / second) ((later + refreshTTL) / second) in
  let data := marshal_refresh rt in
  Std_encode (if (0 <? length (hmacSecret m))%nat then data ++ hmacSHA256 data (hmacSecret m) else data).

Definition validateRefreshToken (m : Manager) (now : Z) (token : list byte) : option RefreshToken :=
  data ← Std_decode token;
  data ← (if (0 <? length (hmacSecret m))%nat then
            if (length data <? 32)%nat then None
            else
              let mac := drop (length data - 32) data in
              let body := take (length data - 32) data in
              if constTimeEqual (hmacSHA256 body (hmacSecret m)) mac then Some body else None
          else Some data);
  rt ← unmarshal_refresh data;
  if t_ExpiresAt rt <? now / second then None else Some rt.

(** *** Token pairs *)

Definition access_ttl (m : Manager) : Z :=
  let ttl := i64 (AccessTokenTTL m * second) in if ttl =? 0 then 15 * minute else ttl.

Definition subject_type (user : User) : string := if bool_decide (u_Role user = "admin") then "admin" else "user".

Definition login_claims (m : Manager) (now : Z) (user : User) : Claims :=
  mkClaims (u_Username user) (subject_type user) (u_Username user) "" [u_Role user]
    (permissionsFromRole (u_Role user)) ∅ "password" (now / second) ((now + access_ttl m) / second).

Definition GenerateTokens (m : Manager) (now r1 r2 : Z) (user : User) : option Tokens :=
  access ← signClaims m (login_claims m now user);
  Some (mkTokens access
    (generateRefreshToken m r1 r2 (u_Username user) (subject_type user) (u_Username user) [u_Role user] ∅)
    (Z.quot (access_ttl m) second) "Bearer").

(** The claims of a refreshed token; [rt.Roles[0]] panics without roles. *)
Definition refreshed_claims (m : Manager) (now : Z) (rt : RefreshToken) (role : string) : Claims :=
  mkClaims (t_SubjectID rt) (t_SubjectType rt) (t_AccountID rt) "" (t_Roles rt) (permissionsFromRole role)
    (t_Namespaces rt) "refresh" (now / second) ((now + access_ttl m) / second).

Definition RefreshTokens (m : Manager) (v now r1 r2 : Z) (refreshToken : list byte) : outcome (option Tokens) :=
  match validateRefreshToken m v refreshToken with
  | None => Ret None
  | Some rt =>
      match t_Roles rt with
      | [] => Panic
      | role :: _ =>
          Ret (access ← signClaims m (refreshed_claims m now rt role);
               Some (mkTokens access
                 (generateRefreshToken m r1 r2 (t_SubjectID rt) (t_SubjectType rt) (t_AccountID rt) (t_Roles rt) (t_Namespaces rt))
                 (Z.quot (access_ttl m) second) "Bearer"))
      end
  end.

(** [Service.VerifyToken]: a token, else an API key. *)
Definition VerifyToken (hashKey : string → string) (mgr : option Manager) (keys : APIKeyAuthenticator) (now : Z)
    (token : list byte) : option Identity :=
  match (m ← mgr; VerifyAccessToken m now token) with
  | Some c => Some (ToIdentity c)
  | None => apikey_Authenticate hashKey keys (mkAuthRequest "" "" "" (bytes_str token) "" "" "")
  end.
End jwt.

(** ** Parts of a token *)

Lemma lor_fold_zero acc l :
  foldl (λ d (p : byte * byte), Z.lor d (Z.lxor (byte_to_Z p.1) (byte_to_Z p.2))) acc l = 0 ↔
  acc = 0 ∧ Forall (λ p, p.1 = p.2) l.
Proof.
  revert acc. induction l as [|[x y] l IH]; intros acc; simpl; [by split; [|intros []]|].
  rewrite IH, Z.lor_eq_0_iff, Z.lxor_eq_0_iff, Forall_cons. simpl. split; [|naive_solver].
  intros [[-> Hxy] Hl]. split_and!; try done. by rewrite <-(byte_of_to_Z x), Hxy, byte_of_to_Z.
Qed.

(** The comparison in constant time is equality. *)
Lemma constTimeEqual_spec a b : constTimeEqual a b = true ↔ a = b.
Proof.
  unfold constTimeEqual. destruct (Nat.eqb_spec (length a) (length b)) as [Hl|Hl]; simpl.
  2: { split; [done|]. intros ->. done. }
  rewrite Z.eqb_eq, lor_fold_zero. split; [|intros ->; split; [done|]].
  - intros [_ H]. revert b Hl H. induction a as [|x a IH]; intros [|y b] Hl H; simpl in *; try done.
    apply Forall_cons in H as [Hxy H]. simpl in Hxy. subst. f_equal. apply IH; [lia|done].
  - clear Hl. induction b as [|y b IH]; simpl; constructor; done.
Qed.

Lemma split_prefix parts cur s rest :
  x2e ∉ s → split_loop parts cur (s ++ rest) =
    split_loop parts (match s with [] => cur | _ => Some (default [] cur ++ s) end) rest.
Proof.
  revert cur. induction s as [|b s IH]; intros cur Hd; [done|]. rewrite not_elem_of_cons in Hd. destruct Hd as [Hb Hd].
  cbn [app split_loop]. rewrite bool_decide_eq_false_2 by congruence. rewrite IH by done.
  destruct s as [|c s]; [done|]. simpl. by rewrite <-app_assoc.
Qed.

Lemma split_dot parts cur s : split_loop parts cur (dot :: s) = split_loop (parts ++ [default [] cur]) None s.
Proof. done. Qed.

Lemma default_cur (s : list byte) : default [] (match s with [] => None | _ => Some (default [] None ++ s) end) = s.
Proof. by destruct s. Qed.

Lemma splitToken_join a b c :
  x2e ∉ a → x2e ∉ b → x2e ∉ c → c ≠ [] → splitToken (join_dot (join_dot a b) c) = [a; b; c].
Proof.
  intros Ha Hb Hc Hne. unfold splitToken, join_dot. rewrite <-app_assoc. cbn [app].
  rewrite split_prefix, split_dot, default_cur by done. cbn [app].
  rewrite split_prefix, split_dot, default_cur by done.
  rewrite <-(app_nil_r c) at 1. rewrite split_prefix by done. by destruct c.
Qed.

Lemma RawURL_encode_nil bs : RawURL_encode bs = [] → bs = [].
Proof. intros E. pose proof (RawURL_roundtrip bs) as H. rewrite E in H. by injection H. Qed.

Section laws.
Context `{JSON} (sha256 : list byte → list byte).

(** What is assumed of encoding/json: the payloads for which decoding undoes
    encoding (all whose strings are valid UTF-8). *)
Context (claims_ok : Claims → Prop) (refresh_ok : RefreshToken → Prop).
Context (Hclaims : ∀ c, claims_ok c → unmarshal_claims (marshal_claims c) = Some c).
Context (Hrefresh : ∀ r, refresh_ok r → unmarshal_refresh (marshal_refresh r) = Some r).
(** SHA-256 has 32 bytes; a key accepts its own signatures, which are not empty. *)
Context (Hsha : ∀ x, length (sha256 x) = 32%nat).
Definition key_ok (ks : keyStore) : Prop :=
  ∀ data, ∃ sig, ks_sign ks data = Some sig ∧ sig ≠ [] ∧ ks_verify ks data sig = true.

(** There is something to sign with. *)
Definition can_sign (m : Manager) : Prop :=
  match m_keyStore m with Some ks => key_ok ks | None => hmacSecret m ≠ [] end.

Lemma accepted_own c now :
  claims_ok c → now / second ≤ c_ExpiresAt c → accepted_claims now (RawURL_encode (marshal_claims c)) = Some c.
Proof.
  intros Hok Hexp. unfold accepted_claims. rewrite RawURL_roundtrip. simpl. rewrite Hclaims by done. simpl.
  by destruct (Z.ltb_spec (c_ExpiresAt c) (now / second)); [lia|].
Qed.

Lemma hmac_nonempty data key : RawURL_encode (hmacSHA256 sha256 data key) ≠ [].
Proof. intros E%RawURL_encode_nil. pose proof (Hsha (sha256 (key ++ [x01]) ++ data ++ [x01])) as Hl. unfold hmacSHA256 in E. by rewrite E in Hl. Qed.

Lemma access_roundtrip m c now :
  can_sign m → claims_ok c → now / second ≤ c_ExpiresAt c →
  ∃ tok, signClaims sha256 m c = Some tok ∧ VerifyAccessToken sha256 m now tok = Some c.
Proof.
  intros Hm Hok Hexp. unfold can_sign, signClaims, VerifyAccessToken in *. destruct (m_keyStore m) as [ks|].
  - unfold signWithKey. set (data := join_dot _ _). destruct (Hm data) as (sig & -> & Hne & Hv). cbn [mbind option_bind].
    eexists. split; [done|]. unfold verifyWithKey, data.
    rewrite splitToken_join by (try apply RawURL_no_dot; by intros ?%RawURL_encode_nil).
    rewrite RawURL_roundtrip. cbn [mbind option_bind]. fold data. rewrite Hv. by apply accepted_own.
  - destruct (hmacSecret m) as [|b s] eqn:E; [done|]. rewrite <-E. cbn [length]. rewrite E. cbn [length Nat.ltb Nat.leb].
    eexists. split; [done|]. unfold signHMAC, verifyHMAC.
    rewrite splitToken_join by (try apply RawURL_no_dot; apply hmac_nonempty).
    rewrite RawURL_roundtrip. cbn [mbind option_bind]. rewrite (proj2 (constTimeEqual_spec _ _) eq_refl). by apply accepted_own.
Qed.

Lemma refresh_roundtrip m now n1 n2 sid sty acc roles nss :
  let rt := mkRefreshToken sid sty acc roles nss (n1 / second) ((n2 + refreshTTL) / second) in
  refresh_ok rt → now ≤ n2 + refreshTTL →
  validateRefreshToken sha256 m now (generateRefreshToken sha256 m n1 n2 sid sty acc roles nss) = Some rt.
Proof.
  intros rt Hok Hexp. unfold validateRefreshToken, generateRefreshToken. rewrite Std_roundtrip. cbn [mbind option_bind].
  fold rt. set (data := marshal_refresh rt).
  assert (now / second ≤ (n2 + refreshTTL) / second) as Hdiv by (apply Z.div_le_mono; done).
  assert ((rt0 ← unmarshal_refresh data; if t_ExpiresAt rt0 <? now / second then None else Some rt0) = Some rt) as Hfin.
  { unfold data. rewrite Hrefresh by done. cbn [mbind option_bind]. cbn [rt t_ExpiresAt].
    by destruct (Z.ltb_spec ((n2 + refreshTTL) / second) (now / second)); [lia|]. }
  destruct (0 <? length (hmacSecret m))%nat; cbn [mbind option_bind]; [|exact Hfin].
  assert (length (hmacSHA256 sha256 data (hmacSecret m)) = 32%nat) as Hl by apply Hsha.
  rewrite length_app, Hl. destruct (Nat.ltb_spec (length data + 32) 32); [lia|].
  replace (length data + 32 - 32)%nat with (length data) by lia. rewrite take_app_length, drop_app_length.
  rewrite (proj2 (constTimeEqual_spec _ _) eq_refl). exact Hfin.
Qed.
End laws.

(** ** Theorems *)

(** A token is only accepted with a valid signature over what it says: an
    accepted token has three parts, the third is the signature of the first two,
    by the key or with the secret, and the claims are the second part, not
    expired. *)
Theorem access_token_sound `{JSON} sha256 m now tok c :
  VerifyAccessToken sha256 m now tok = Some c →
  ∃ h p s sig bytes, splitToken tok = [h; p; s] ∧ RawURL_decode s = Some sig ∧
    match m_keyStore m with
    | Some ks => ks_verify ks (join_dot h p) sig = true
    | None => hmacSecret m ≠ [] ∧ sig = hmacSHA256 sha256 (join_dot h p) (hmacSecret m)
    end ∧
    RawURL_decode p = Some bytes ∧ unmarshal_claims bytes = Some c ∧ now / second ≤ c_ExpiresAt c.
Proof.
  intros Hv.
  assert (∀ p, accepted_claims now p = Some c →
    ∃ bytes, RawURL_decode p = Some bytes ∧ unmarshal_claims bytes = Some c ∧ now / second ≤ c_ExpiresAt c) as Hacc.
  { intros p. unfold accepted_claims. destruct (RawURL_decode p) as [bytes|]; [|done]. cbn [mbind option_bind].
    destruct (unmarshal_claims bytes) as [c'|] eqn:E; [|done]. cbn [mbind option_bind].
    destruct (Z.ltb_spec (c_ExpiresAt c') (now / second)); [done|]. intros [= <-]. by exists bytes. }
  unfold VerifyAccessToken in Hv. destruct (m_keyStore m) as [ks|].
  - unfold verifyWithKey in Hv. destruct (splitToken tok) as [|h [|p [|s [|]]]]; try done.
    destruct (RawURL_decode s) as [sig|] eqn:Es; [|done]. cbn [mbind option_bind] in Hv.
    destruct (ks_verify ks (join_dot h p) sig) eqn:Ek; [|done].
    destruct (Hacc p Hv) as (bytes & ? & ? & ?). by exists h, p, s, sig, bytes.
  - destruct (hmacSecret m) as [|b l] eqn:E; [done|]. cbn [length Nat.ltb Nat.leb] in Hv. rewrite <-E.
    unfold verifyHMAC in Hv. destruct (splitToken tok) as [|h [|p [|s [|]]]]; try done.
    destruct (RawURL_decode s) as [sig|] eqn:Es; [|done]. cbn [mbind option_bind] in Hv.
    destruct (constTimeEqual _ _) eqn:Ek; [|done]. apply constTimeEqual_spec in Ek.
    destruct (Hacc p Hv) as (bytes & ? & ? & ?). exists h, p, s, sig, bytes. split_and!; try done. by rewrite E.
Qed.

(** The refresh token [GenerateTokens] makes for a user. *)
Definition login_refresh (n1 n2 : Z) (user : User) : RefreshToken :=
  mkRefreshToken (u_Username user) (subject_type user) (u_Username user) [u_Role user] ∅ (n1 / second) ((n2 + refreshTTL) / second).


(** Without a secret refresh tokens are not signed, whatever key signs the
    access tokens: anyone can write one for any name, with any role, and is
    given a valid access token for it, an administrator's if he likes. *)
Theorem refresh_token_forged `{JSON} sha256 (claims_ok : Claims → Prop) (refresh_ok : RefreshToken → Prop) m rt others
    v now r1 r2 check :
  (∀ c, claims_ok c → unmarshal_claims (marshal_claims c) = Some c) →
  (∀ r, refresh_ok r → unmarshal_refresh (marshal_refresh r) = Some r) →
  (∀ x, length (sha256 x) = 32%nat) →
  can_sign m → hmacSecret m = [] →
  refresh_ok rt → t_Roles rt = "admin" :: others → v / second ≤ t_ExpiresAt rt →
  claims_ok (refreshed_claims m now rt "admin") → check ≤ now + access_ttl m →
  ∃ toks c, RefreshTokens sha256 m v now r1 r2 (Std_encode (marshal_refresh rt)) = Ret (Some toks) ∧
    VerifyAccessToken sha256 m check (AccessToken toks) = Some c ∧
    Subject c = t_SubjectID rt ∧ IsAdmin (ToIdentity c) = true.
Proof.
  intros Hcl Hrf Hsha Hm Hsec Hok Hroles Hexp Hc Ht.
  destruct (access_roundtrip sha256 claims_ok Hcl Hsha m _ check Hm Hc) as (tok & Hs & Hv);
    [simpl; by apply Z.div_le_mono|].
  unfold RefreshTokens, validateRefreshToken. rewrite Std_roundtrip, Hsec. cbn [mbind option_bind length Nat.ltb Nat.leb].
  rewrite Hrf by done. cbn [mbind option_bind]. destruct (Z.ltb_spec (t_ExpiresAt rt) (v / second)); [lia|].
  rewrite Hroles, Hs. cbn [mbind option_bind]. do 2 eexists. split; [done|]. split; [exact Hv|]. split; [done|].
  by vm_compute.
Qed.

(** A refresh token without roles ends the request with a panic. *)
Lemma refresh_no_roles_panics `{JSON} sha256 m rt v now r1 r2 :
  unmarshal_refresh (marshal_refresh rt) = Some rt → hmacSecret m = [] → t_Roles rt = [] → v / second ≤ t_ExpiresAt rt →
  RefreshTokens sha256 m v now r1 r2 (Std_encode (marshal_refresh rt)) = Panic.
Proof.
  intros Hu Hsec Hr Hexp. unfold RefreshTokens, validateRefreshToken. rewrite Std_roundtrip, Hsec.
  cbn [mbind option_bind length Nat.ltb Nat.leb]. rewrite Hu. cbn [mbind option_bind].
  destruct (Z.ltb_spec (t_ExpiresAt rt) (v / second)); [lia|]. by rewrite Hr.
Qed.

(** The roles a user can have, other than the administrator's, carry no
    permission into a token. *)
Example role_permissions :
  permissionsFromRole <$> [RoleProducer; RoleConsumer; RoleObserver; RoleBilling; RoleService] = [[]; []; []; []; []].
Proof. by vm_compute. Qed.

(** ** An instance of the parameters *)

Module Sample.

Fixpoint pos_bytes (p : positive) : list byte :=
  match p with xH => [] | xO p => x00 :: pos_bytes p | xI p => x01 :: pos_bytes p end.
Fixpoint bytes_pos (l : list byte) : positive :=
  match l with [] => xH | b :: l => if bool_decide (b = x01) then xI (bytes_pos l) else xO (bytes_pos l) end.

Lemma bytes_pos_bytes p : bytes_pos (pos_bytes p) = p.
Proof. induction p as [p IH|p IH|]; simpl; by rewrite ?IH. Qed.

#[local] Instance Claims_eq_dec : EqDecision Claims.
Proof. solve_decision. Defined.
#[local] Instance Claims_countable : Countable Claims.
Proof.
  refine (inj_countable' (λ c, (Subject c, SubjectTy c, c_AccountID c, c_Namespace c, c_Roles c, Perms c, c_Namespaces c,
      Method c, c_IssuedAt c, c_ExpiresAt c))
    (λ '(a, b, c, d, e, f, g, h, i, j), mkClaims a b c d e f g h i j) _). by intros [].
Defined.
#[local] Instance RefreshToken_eq_dec : EqDecision RefreshToken.
Proof. solve_decision. Defined.
#[local] Instance RefreshToken_countable : Countable RefreshToken.
Proof.
  refine (inj_countable' (λ r, (t_SubjectID r, t_SubjectType r, t_AccountID r, t_Roles r, t_Namespaces r, t_IssuedAt r, t_ExpiresAt r))
    (λ '(a, b, c, d, e, f, g), mkRefreshToken a b c d e f g) _). by intros [].
Defined.

(** A self-inverse encoding, a checksum of the right length and a key that signs
    with one byte. *)
#[export] Instance json : JSON := {
  marshal_header l := pos_bytes (encode l);
  marshal_claims c := pos_bytes (encode c);
  unmarshal_claims b := decode (bytes_pos b);
  marshal_refresh r := pos_bytes (encode r);
  unmarshal_refresh b := decode (bytes_pos b);
}.
Definition digest (x : list byte) : list byte := take 32 (x ++ replicate 32 x00).
Definition key : keyStore := mkKeyStore "RSA" "auto" (λ _, Some [x2a]) (λ _ s, bool_decide (s = [x2a])).
Definition manager : Manager := mkManager 900 (Some key) [].
Definition bob : User := mkUser 1 "bob" "" None "producer" "" "".
Definition forged : RefreshToken := mkRefreshToken "mallory" "admin" "mallory" ["admin"] ∅ 0 9000000000.

Lemma claims_law c : True → unmarshal_claims (marshal_claims c) = Some c.
Proof. intros _. cbn. by rewrite bytes_pos_bytes, countable.decode_encode. Qed.
Lemma refresh_law r : True → unmarshal_refresh (marshal_refresh r) = Some r.
Proof. intros _. cbn. by rewrite bytes_pos_bytes, countable.decode_encode. Qed.
Lemma digest_length x : length (digest x) = 32%nat.
Proof. unfold digest. rewrite length_take, length_app, length_replicate. lia. Qed.
Lemma manager_signs : can_sign manager.
Proof. intros data. by exists [x2a]. Qed.
End Sample.

#[local] Existing Instance Sample.json.


Lemma refresh_token_forged_witness :
  hmacSecret Sample.manager = [] ∧
  ∃ toks c, RefreshTokens Sample.digest Sample.manager 0 0 0 0 (Std_encode (marshal_refresh Sample.forged)) = Ret (Some toks) ∧
    VerifyAccessToken Sample.digest Sample.manager 0 (AccessToken toks) = Some c ∧
    Subject c = t_SubjectID Sample.forged ∧ IsAdmin (ToIdentity c) = true.
Proof.
  split; [done|].
  apply (refresh_token_forged Sample.digest (λ _, True) (λ _, True) Sample.manager Sample.forged [] 0 0 0 0 0
    Sample.claims_law Sample.refresh_law Sample.digest_length Sample.manager_signs); done.
Defined.

(** A token made by hand for the sample key. *)
Definition sample_token : list byte :=
  default [] (signClaims Sample.digest Sample.manager (login_claims Sample.manager 0 Sample.bob)).

Lemma access_token_sound_witness :
  VerifyAccessToken Sample.digest Sample.manager 0 sample_token = Some (login_claims Sample.manager 0 Sample.bob) ∧
  ∃ h p s sig bytes, splitToken sample_token = [h; p; s] ∧ RawURL_decode s = Some sig ∧
    ks_verify Sample.key (join_dot h p) sig = true ∧
    RawURL_decode p = Some bytes ∧ unmarshal_claims bytes = Some (login_claims Sample.manager 0 Sample.bob) ∧
    0 / second ≤ c_ExpiresAt (login_claims Sample.manager 0 Sample.bob).
Proof.
  assert (VerifyAccessToken Sample.digest Sample.manager 0 sample_token = Some (login_claims Sample.manager 0 Sample.bob)) as Hv.
  { destruct (access_roundtrip Sample.digest (λ _, True) Sample.claims_law Sample.digest_length Sample.manager
      (login_claims Sample.manager 0 Sample.bob) 0 Sample.manager_signs I ltac:(done)) as (tok & Hs & Hv).
    unfold sample_token. rewrite Hs. exact Hv. }
  split; [exact Hv|]. apply (access_token_sound Sample.digest Sample.manager 0 sample_token _ Hv).
Defined.
