(* ===== verification/Table.v ===== *)
(** * Tables of the metadata store

    What the SQL statements of src/internal/db need of SQLite: a table is its
    rows in the order of their identifiers with the last identifier given out
    (AUTOINCREMENT never gives one out twice), a statement is a function on it.
    [key] is the UNIQUE column or columns of the table. *)

From stdpp Require Import base gmap list strings sorting.
From Stdlib Require Import ZArith Lia.
From S2P Require Import Prelude.
Local Open Scope Z_scope.

Record table (A : Type) := mkTable { rows : list A; last_id : Z }.
Arguments mkTable {A}.
Arguments rows {A}.
Arguments last_id {A}.

Definition empty_table {A} : table A := mkTable [] 0.

Section statements.
Context {A : Type}.
Implicit Types (t : table A).

(** [SELECT ... WHERE P], [DELETE FROM ... WHERE P], [UPDATE ... WHERE P] and
    [INSERT INTO ...], the row from its identifier. *)
Definition select (P : A → Prop) `{∀ r, Decision (P r)} t : list A := filter P (rows t).
Definition delete_where (P : A → Prop) `{∀ r, Decision (P r)} t : table A :=
  mkTable (filter (λ r, ¬ P r) (rows t)) (last_id t).
Definition update_where (P : A → Prop) `{∀ r, Decision (P r)} (f : A → A) t : table A :=
  mkTable ((λ r, if decide (P r) then f r else r) <$> rows t) (last_id t).
Definition insert_row (row : Z → A) t : table A :=
  mkTable (rows t ++ [row (last_id t + 1)]) (last_id t + 1).

(** [ORDER BY]: the rows ascending in a text column. *)
Definition order_by (column : A → string) (l : list A) : list A :=
  merge_sort (λ r r', str_le (column r) (column r')) l.
End statements.

Section keyed.
Context {A K : Type} `{EqDecision K} (key : A → K).
Implicit Types (t : table A) (k : K) (r : A).

(** The row of a key; several rows never share one. *)
Definition row_of k t : option A := head (select (λ r, key r = k) t).

Lemma row_of_cons k r l n :
  row_of k (mkTable (r :: l) n) = if decide (key r = k) then Some r else row_of k (mkTable l n).
Proof. unfold row_of, select. cbn [rows]. rewrite filter_cons. by destruct (decide (key r = k)). Qed.

Lemma row_of_Some_2 k t r : row_of k t = Some r → r ∈ rows t ∧ key r = k.
Proof.
  unfold row_of, select. intros E. apply head_Some_elem_of in E. rewrite list_elem_of_filter in E. naive_solver.
Qed.

Lemma row_of_None k t : row_of k t = None ↔ ∀ r, r ∈ rows t → key r ≠ k.
Proof.
  destruct t as [l n]. induction l as [|r l IH]; [by split; [intros _ r Hr; apply elem_of_nil in Hr|]|].
  rewrite row_of_cons. cbn in *. setoid_rewrite elem_of_cons. destruct (decide (key r = k)); [naive_solver|].
  rewrite IH. naive_solver.
Qed.

Context (id : A → Z).

Record table_ok t : Prop := {
  ids_unique : NoDup (id <$> rows t);
  ids_given : Forall (λ r, id r ≤ last_id t) (rows t);
  keys_unique : NoDup (key <$> rows t);
}.

Lemma row_of_Some k t r : table_ok t → row_of k t = Some r ↔ r ∈ rows t ∧ key r = k.
Proof.
  intros [_ _ Hk]. split; [apply row_of_Some_2|]. intros [Hr <-].
  destruct (row_of (key r) t) as [r'|] eqn:E; [|by apply (proj1 (row_of_None _ _) E) in Hr].
  apply row_of_Some_2 in E as [Hr' E]. f_equal. apply list_elem_of_lookup in Hr as [i Hi].
  apply list_elem_of_lookup in Hr' as [j Hj].
  assert (i = j) as ->; [|congruence].
  eapply NoDup_lookup; [done| |]; rewrite list_lookup_fmap; [by rewrite Hi|by rewrite Hj; simpl; rewrite E].
Qed.

(** *** The empty table and the three changes *)

Lemma empty_table_ok : table_ok empty_table.
Proof. split; [constructor|constructor|constructor]. Qed.

Lemma row_of_insert k row t :
  row_of (key (row (last_id t + 1))) t = None →
  row_of k (insert_row row t) = if decide (key (row (last_id t + 1)) = k) then Some (row (last_id t + 1)) else row_of k t.
Proof.
  unfold insert_row. set (r := row (last_id t + 1)). generalize (last_id t + 1). intros n Hn. destruct t as [l m]. cbn in *.
  induction l as [|x l IH].
  - rewrite app_nil_l, row_of_cons. done.
  - cbn [app]. rewrite !row_of_cons in *. destruct (decide (key x = k)) as [Hx|Hx].
    + destruct (decide (key r = k)); [|done]. destruct (decide (key x = key r)); congruence.
    + destruct (decide (key x = key r)); [congruence|auto].
Qed.

Lemma insert_row_ok row t :
  (∀ n, id (row n) = n) → row_of (key (row (last_id t + 1))) t = None → table_ok t → table_ok (insert_row row t).
Proof.
  intros Hid Hfresh [Hi Hg Hk]. unfold insert_row. split; cbn.
  - rewrite fmap_app, NoDup_app. split_and!; [done| |by apply NoDup_singleton].
    intros x Hx Hx'. apply list_elem_of_singleton in Hx'. rewrite Hid in Hx'. subst.
    apply list_elem_of_fmap in Hx as (r & E & Hr). rewrite Forall_forall in Hg. specialize (Hg r Hr). lia.
  - rewrite Forall_app. split; [|constructor; [rewrite Hid; lia|constructor]].
    eapply Forall_impl; [done|]. cbn. lia.
  - rewrite fmap_app, NoDup_app. split_and!; [done| |by apply NoDup_singleton].
    intros x Hx Hx'. apply list_elem_of_singleton in Hx'. subst.
    apply list_elem_of_fmap in Hx as (r & E & Hr). by eapply row_of_None.
Qed.

Lemma row_of_delete (P : A → Prop) `{∀ r, Decision (P r)} k t :
  table_ok t → row_of k (delete_where P t) = r ← row_of k t; if decide (P r) then None else Some r.
Proof.
  intros [_ _ Hk]. destruct t as [l m]. cbn in Hk. unfold delete_where. cbn [rows last_id]. revert Hk.
  induction l as [|x l IH]; intros Hk; [done|]. cbn in Hk. apply NoDup_cons in Hk as [Hx Hk].
  rewrite filter_cons, row_of_cons. destruct (decide (¬ P x)) as [HP|HP].
  - rewrite row_of_cons. destruct (decide (key x = k)); [cbn; by destruct (decide (P x))|by apply IH].
  - rewrite (IH Hk). destruct (decide (key x = k)) as [<-|]; [|done]. cbn. destruct (decide (P x)); [|tauto].
    destruct (row_of (key x) (mkTable l m)) as [r|] eqn:E; [|done]. apply row_of_Some_2 in E as [Hr E].
    destruct Hx. rewrite <-E. by apply list_elem_of_fmap_2.
Qed.

Lemma delete_where_ok (P : A → Prop) `{∀ r, Decision (P r)} t : table_ok t → table_ok (delete_where P t).
Proof.
  intros [Hi Hg Hk]. unfold delete_where. split; cbn.
  - eapply sublist_NoDup; [done|]. apply fmap_sublist, sublist_filter.
  - rewrite Forall_forall in *. intros r Hr. apply list_elem_of_filter in Hr as [_ Hr]. by apply Hg.
  - eapply sublist_NoDup; [done|]. apply fmap_sublist, sublist_filter.
Qed.

Lemma row_of_update (P : A → Prop) `{∀ r, Decision (P r)} (f : A → A) k t :
  (∀ r, key (f r) = key r) →
  row_of k (update_where P f t) = (λ r, if decide (P r) then f r else r) <$> row_of k t.
Proof.
  intros Hf. unfold update_where. destruct t as [l m]. cbn. induction l as [|x l IH]; [done|].
  rewrite fmap_cons, !row_of_cons, IH.
  replace (key (if decide (P x) then f x else x)) with (key x) by (destruct (decide (P x)); congruence).
  by destruct (decide (key x = k)).
Qed.

Lemma update_where_ok (P : A → Prop) `{∀ r, Decision (P r)} (f : A → A) t :
  (∀ r, key (f r) = key r) → (∀ r, id (f r) = id r) → table_ok t → table_ok (update_where P f t).
Proof.
  intros Hk Hi [H1 H2 H3]. unfold update_where. split; cbn.
  - rewrite <-list_fmap_compose. erewrite list_fmap_ext; [exact H1|]. intros ? r _. cbn. by destruct (decide (P r)).
  - rewrite Forall_fmap. eapply Forall_impl; [done|]. intros r ?. cbn. by destruct (decide (P r)); rewrite ?Hi.
  - rewrite <-list_fmap_compose. erewrite list_fmap_ext; [exact H3|]. intros ? r _. cbn. by destruct (decide (P r)).
Qed.
End keyed.

(** *** The rows of one parent, as a map *)
Section slice.
Context {A B V : Type} `{EqDecision B} (key : A → B * string).

Definition slice (b : B) (f : A → V) (t : table A) : gmap string V :=
  list_to_map ((λ r, ((key r).2, f r)) <$> select (λ r, (key r).1 = b) t).

Lemma lookup_slice b f t k : slice b f t !! k = f <$> row_of key (b, k) t.
Proof.
  unfold slice, select. destruct t as [l n]. cbn [rows]. induction l as [|r l IH]; [done|].
  rewrite filter_cons, row_of_cons. destruct (key r) as [b' k'] eqn:E. cbn.
  destruct (decide (b' = b)) as [->|Hb].
  - rewrite fmap_cons. cbn. rewrite E. cbn. destruct (decide (k' = k)) as [->|Hk].
    + rewrite lookup_insert_eq. by rewrite decide_True.
    + rewrite lookup_insert_ne by done. rewrite decide_False by congruence. done.
  - rewrite decide_False by congruence. done.
Qed.
End slice.

Section order.
Context {A : Type} (column : A → string).

Lemma order_by_perm (l : list A) : order_by column l ≡ₚ l.
Proof. apply merge_sort_Permutation. Qed.

Lemma order_by_sorted (l : list A) : StronglySorted str_le (column <$> order_by column l).
Proof.
  unfold order_by. set (R := λ r r', str_le (column r) (column r')).
  assert (Total R) by (intros r r'; apply str_le_total).
  assert (Transitive R) by (intros r r' r''; apply str_le_trans).
  assert (StronglySorted R (merge_sort R l)) as HR by (apply StronglySorted_merge_sort; apply _).
  revert HR. generalize (merge_sort R l). intros l' HR.
  induction HR as [|r l' _ IH Hr]; [constructor|]. cbn. constructor; [done|]. by apply Forall_fmap.
Qed.
End order.
