(* ===== verification/Database.v ===== *)
(** * The metadata store (src/internal/db)

    Namespaces, users and their grants, queues and group configurations in
    SQLite: db.go, namespaces.go, users.go, queues.go and errors.go.  The store
    is its tables; a method runs its statements on them and returns the new
    store with its result or its error.  [now] is CURRENT_TIMESTAMP.  Whether
    the connection enforces foreign keys is a parameter; failures of SQLite
    itself are not modelled.  bcrypt and encoding/json are parameters. *)

From stdpp Require Import base gmap list strings.
From Stdlib Require Import ZArith Lia Strings.Ascii.
From S2P Require Import Prelude Table Auth.
Local Open Scope Z_scope.
Local Open Scope list_scope.

(** ** Rows *)

Record Namespace := mkNamespace {
  ns_ID : Z; ns_Name : string; ns_Config : string; ns_CreatedAt : string; ns_UpdatedAt : string;
}.
Record DbQueue := mkDbQueue {
  dq_ID : Z; dq_NamespaceID : Z; dq_Name : string; dq_Config : string; dq_CreatedAt : string;
}.
Record DbGroup := mkDbGroup {
  dg_ID : Z; dg_QueueID : Z; dg_Key : string; dg_Config : string; dg_CreatedAt : string;
}.
(** user_namespace_permissions *)
Record UserGrant := mkUserGrant {
  ug_ID : Z; ug_UserID : Z; ug_NamespaceID : Z; ug_Permissions : string; ug_CreatedAt : string;
}.

Definition dq_key (r : DbQueue) : Z * string := (dq_NamespaceID r, dq_Name r).
Definition dg_key (r : DbGroup) : Z * string := (dg_QueueID r, dg_Key r).
Definition ug_key (r : UserGrant) : Z * Z := (ug_UserID r, ug_NamespaceID r).

Record Store := mkStore {
  namespaces : table Namespace;
  users : table User;
  grants : table UserGrant;
  queues : table DbQueue;
  groups : table DbGroup;
  adminCreated : bool;
}.

Definition set_namespaces x s := mkStore x (users s) (grants s) (queues s) (groups s) (adminCreated s).
Definition set_users x s := mkStore (namespaces s) x (grants s) (queues s) (groups s) (adminCreated s).
Definition set_grants x s := mkStore (namespaces s) (users s) x (queues s) (groups s) (adminCreated s).
Definition set_queues x s := mkStore (namespaces s) (users s) (grants s) x (groups s) (adminCreated s).
Definition set_groups x s := mkStore (namespaces s) (users s) (grants s) (queues s) x (adminCreated s).
Definition set_adminCreated x s := mkStore (namespaces s) (users s) (grants s) (queues s) (groups s) x.

Inductive db_error := ErrNotFound | ErrConflict | ErrValidation | ErrForbidden | ErrInternal.

(** ** Names *)

Definition lower_or_digit (c : ascii) : bool :=
  let n := nat_of_ascii c in ((97 <=? n) && (n <=? 122))%nat || ((48 <=? n) && (n <=? 57))%nat.
Definition name_char (c : ascii) : bool :=
  lower_or_digit c || bool_decide (c = "_"%char) || bool_decide (c = "-"%char).
(** [^[class]+$] *)
Definition MatchString (class : ascii → bool) (s : string) : bool :=
  negb (bool_decide (s = "")) && forallb class (String.list_ascii_of_string s).
Definition namePattern : string → bool := MatchString name_char.
Definition queueNamePattern : string → bool := MatchString name_char.
Definition groupKeyPattern : string → bool := MatchString (λ c, name_char c || bool_decide (c = "*"%char)).

Definition validRoles (role : string) : bool :=
  bool_decide (role ∈ ["admin"; "producer"; "consumer"; "observer"; "billing"; "service"]).

Section store.
Context (fk : bool).                                (** foreign keys are enforced *)
Context (bcrypt : string → option string).          (** the hash, nothing for a password it refuses *)
Context (compare : string → string → bool).
Context (marshal_strings : list string → string) (unmarshal_strings : string → list string).

(** ** Namespaces *)

Definition ListNamespaces (s : Store) : list Namespace := order_by ns_Name (rows (namespaces s)).

Definition GetNamespace (name : string) (s : Store) : option Namespace := row_of ns_Name name (namespaces s).

Definition CreateNamespace (now name config : string) (s : Store) : Store * (option Namespace + db_error) :=
  if negb (namePattern name) then (s, inr ErrValidation)
  else if (64 <? str_len name)%nat then (s, inr ErrValidation)
  else match GetNamespace name s with
       | Some _ => (s, inr ErrConflict)
       | None =>
           let s := set_namespaces (insert_row (λ id, mkNamespace id name config now now) (namespaces s)) s in
           (s, inl (GetNamespace name s))
       end.

Definition UpdateNamespace (now name config : string) (s : Store) : Store * (option Namespace + db_error) :=
  match GetNamespace name s with
  | None => (s, inr ErrNotFound)
  | Some _ =>
      let s := set_namespaces (update_where (λ n, ns_Name n = name)
                 (λ n, mkNamespace (ns_ID n) (ns_Name n) config (ns_CreatedAt n) now) (namespaces s)) s in
      (s, inl (GetNamespace name s))
  end.

(** ON DELETE CASCADE from a set of namespaces or queues. *)
Definition cascade_queues (P : DbQueue → Prop) `{∀ q, Decision (P q)} (s : Store) : Store :=
  let gone := dq_ID <$> select P (queues s) in
  set_groups (if fk then delete_where (λ g, dg_QueueID g ∈ gone) (groups s) else groups s)
    (set_queues (delete_where P (queues s)) s).

Definition DeleteNamespace (name : string) (s : Store) : Store * option db_error :=
  match GetNamespace name s with
  | None => (s, Some ErrNotFound)
  | Some n =>
      let s := set_namespaces (delete_where (λ n, ns_Name n = name) (namespaces s)) s in
      if fk
      then (cascade_queues (λ q, dq_NamespaceID q = ns_ID n)
              (set_grants (delete_where (λ g, ug_NamespaceID g = ns_ID n) (grants s)) s), None)
      else (s, None)
  end.

(** ** Queues and groups *)

Definition namespace_exists (id : Z) (s : Store) : bool := bool_decide (id ∈ ns_ID <$> rows (namespaces s)).
Definition queue_exists (id : Z) (s : Store) : bool := bool_decide (id ∈ dq_ID <$> rows (queues s)).

Definition ListQueues (namespaceID : Z) (s : Store) : list DbQueue :=
  order_by dq_Name (select (λ q, dq_NamespaceID q = namespaceID) (queues s)).

Definition GetQueueByName (namespaceID : Z) (name : string) (s : Store) : option DbQueue :=
  row_of dq_key (namespaceID, name) (queues s).

Definition CreateQueue (now : string) (namespaceID : Z) (name config : string) (s : Store) : Store * option db_error :=
  if negb (queueNamePattern name) then (s, Some ErrValidation)
  else if (128 <? str_len name)%nat then (s, Some ErrValidation)
  else match GetQueueByName namespaceID name s with
       | Some _ => (s, Some ErrConflict)
       | None =>
           if fk && negb (namespace_exists namespaceID s) then (s, Some ErrNotFound)
           else (set_queues (insert_row (λ id, mkDbQueue id namespaceID name config now) (queues s)) s, None)
       end.

Definition DeleteQueue (namespaceID : Z) (name : string) (s : Store) : Store * option db_error :=
  match GetQueueByName namespaceID name s with
  | None => (s, Some ErrNotFound)
  | Some _ => (cascade_queues (λ q, dq_key q = (namespaceID, name)) s, None)
  end.

Definition ListGroups (queueID : Z) (s : Store) : list DbGroup :=
  order_by dg_Key (select (λ g, dg_QueueID g = queueID) (groups s)).

Definition get_group (queueID : Z) (key : string) (s : Store) : option DbGroup :=
  row_of dg_key (queueID, key) (groups s).

Definition UpsertGroupConfig (now : string) (queueID : Z) (key config : string) (s : Store) : Store * option db_error :=
  if negb (groupKeyPattern key) then (s, Some ErrValidation)
  else match get_group queueID key s with
       | Some _ =>
           (set_groups (update_where (λ g, dg_key g = (queueID, key))
              (λ g, mkDbGroup (dg_ID g) (dg_QueueID g) (dg_Key g) config (dg_CreatedAt g)) (groups s)) s, None)
       | None =>
           if fk && negb (queue_exists queueID s) then (s, Some ErrNotFound)
           else (set_groups (insert_row (λ id, mkDbGroup id queueID key config now) (groups s)) s, None)
       end.

Definition DeleteGroupConfig (queueID : Z) (key : string) (s : Store) : Store * option db_error :=
  match get_group queueID key s with
  | None => (s, Some ErrNotFound)
  | Some _ => (set_groups (delete_where (λ g, dg_key g = (queueID, key)) (groups s)) s, None)
  end.

(** ** Users *)

Definition db_GetUser (username : string) (s : Store) : option User := row_of u_Username username (users s).

Definition db_CheckPassword (username password : string) (s : Store) : bool :=
  match db_GetUser username s with Some u => compare (u_PasswordHash u) password | None => false end.

(** Only the selected columns are filled. *)
Definition ListUsers (s : Store) : list User :=
  (λ u, mkUser (u_ID u) (u_Username u) "" (u_Email u) (u_Role u) (u_CreatedAt u) "") <$> rows (users s).

Definition CreateUser (now username password email role : string) (s : Store) : Store * option db_error :=
  if negb (validRoles role) then (s, Some ErrValidation)
  else match bcrypt password with
       | None => (s, Some ErrInternal)
       | Some hash =>
           match db_GetUser username s with
           | Some _ => (s, Some ErrConflict)
           | None => (set_users (insert_row (λ id, mkUser id username hash (Some email) role now now) (users s)) s, None)
           end
       end.

Definition adminCount (s : Store) : nat := length (select (λ u, u_Role u = "admin") (users s)).

Definition DeleteUser (username : string) (s : Store) : Store * option db_error :=
  match db_GetUser username s with
  | None => (s, Some ErrNotFound)
  | Some user =>
      if bool_decide (u_Role user = "admin") && (adminCount s <=? 1)%nat then (s, Some ErrForbidden)
      else
        (set_grants (if fk then delete_where (λ g, ug_UserID g = u_ID user) (grants s) else grants s)
           (set_users (delete_where (λ u, u_Username u = username) (users s)) s), None)
  end.

Definition set_email (now email : string) (u : User) : User :=
  mkUser (u_ID u) (u_Username u) (u_PasswordHash u) (Some email) (u_Role u) (u_CreatedAt u) now.
Definition set_role (now role : string) (u : User) : User :=
  mkUser (u_ID u) (u_Username u) (u_PasswordHash u) (u_Email u) role (u_CreatedAt u) now.
Definition set_password (now hash : string) (u : User) : User :=
  mkUser (u_ID u) (u_Username u) hash (u_Email u) (u_Role u) (u_CreatedAt u) now.

Definition update_user (username : string) (f : option (User → User)) (s : Store) : Store :=
  match f with Some f => set_users (update_where (λ u, u_Username u = username) f (users s)) s | None => s end.

(** A transaction: an error leaves the store as it was. *)
Definition UpdateUser (now username : string) (email role password : option string) (s : Store) : Store * option db_error :=
  if match role with Some r => negb (validRoles r) | None => false end then (s, Some ErrValidation)
  else match db_GetUser username s with
       | None => (s, Some ErrNotFound)
       | Some _ =>
           let tx := update_user username (set_email now <$> email) s in
           let tx := update_user username (set_role now <$> role) tx in
           match password with
           | None => (tx, None)
           | Some p =>
               match bcrypt p with
               | None => (s, Some ErrInternal)
               | Some hash => (update_user username (Some (set_password now hash)) tx, None)
               end
           end
       end.

(** *** Grants *)

(** INSERT OR REPLACE: the row of the pair goes, a new one comes. *)
Definition SetUserNamespacePermissions (now : string) (userID namespaceID : Z) (permissions : list string) (s : Store)
    : Store * option db_error :=
  if fk && negb (bool_decide (userID ∈ u_ID <$> rows (users s)) && namespace_exists namespaceID s)
  then (s, Some ErrInternal)
  else (set_grants (insert_row (λ id, mkUserGrant id userID namespaceID (marshal_strings permissions) now)
          (delete_where (λ g, ug_key g = (userID, namespaceID)) (grants s))) s, None).

Definition SetUserNamespacePermissionsByName (now username namespaceName : string) (permissions : list string) (s : Store)
    : Store * option db_error :=
  match db_GetUser username s, GetNamespace namespaceName s with
  | Some user, Some ns => SetUserNamespacePermissions now (u_ID user) (ns_ID ns) permissions s
  | _, _ => (s, Some ErrNotFound)
  end.

Definition GetUserNamespacePermissions (userID : Z) (s : Store) : gmap Z (list string) :=
  foldl (λ m g, <[ug_NamespaceID g := unmarshal_strings (ug_Permissions g)]> m) ∅
    (select (λ g, ug_UserID g = userID) (grants s)).

(** The join with namespaces drops grants whose namespace is gone. *)
Definition GetUserNamespacePermissionsByUsername (username : string) (s : Store)
    : gmap string (list string) + db_error :=
  match db_GetUser username s with
  | None => inr ErrNotFound
  | Some user =>
      inl (foldl (λ m g,
             match head (select (λ n, ns_ID n = ug_NamespaceID g) (namespaces s)) with
             | Some n => <[ns_Name n := unmarshal_strings (ug_Permissions g)]> m
             | None => m
             end) ∅ (select (λ g, ug_UserID g = u_ID user) (grants s)))
  end.

(** ** First start *)

Definition default_str (d s : string) : string := if bool_decide (s = "") then d else s.

Definition seedDefaultData (now adminUsername adminPassword : string) (s : Store) : Store * option db_error :=
  let s := match rows (namespaces s) with
           | [] => set_namespaces (insert_row (λ id, mkNamespace id "main" "{}" now now) (namespaces s)) s
           | _ => s
           end in
  match rows (users s) with
  | [] =>
      match bcrypt (default_str "admin" adminPassword) with
      | None => (s, Some ErrInternal)
      | Some hash =>
          (set_adminCreated true
             (set_users (insert_row (λ id, mkUser id (default_str "admin" adminUsername) hash None "admin" now now) (users s)) s),
           None)
      end
  | _ => (s, None)
  end.

(** A database without tables. *)
Definition new_store : Store := mkStore empty_table empty_table empty_table empty_table empty_table false.
End store.
