(* ===== verification/DatabaseInv.v ===== *)
(** * The metadata store as a catalogue

    The invariant of the tables of [Database.v] and its preservation by every
    method, and the refinement of the catalogue the management API and the
    recovery see: a map from namespaces to their configuration and queues, from
    queues to theirs and their group configurations.  Both hold whether or not
    SQLite enforces the foreign keys: identifiers are never given out twice, so
    rows left behind by a deletion are never reached again. *)

From stdpp Require Import base gmap list strings.
From Stdlib Require Import ZArith Lia.
From S2P Require Import Prelude Table Auth Database.
Local Open Scope Z_scope.
Local Open Scope list_scope.

(** ** The invariant *)

Record store_ok (s : Store) : Prop := {
  ok_namespaces : table_ok ns_Name ns_ID (namespaces s);
  ok_users : table_ok u_Username u_ID (users s);
  ok_grants : table_ok ug_key ug_ID (grants s);
  ok_queues : table_ok dq_key dq_ID (queues s);
  ok_groups : table_ok dg_key dg_ID (groups s);
  ok_queue_refs : Forall (λ q, dq_NamespaceID q ≤ last_id (namespaces s)) (rows (queues s));
  ok_group_refs : Forall (λ g, dg_QueueID g ≤ last_id (queues s)) (rows (groups s));
  ok_roles : Forall (λ u, validRoles (u_Role u) = true) (rows (users s));
}.

(** What foreign keys add: no row points to one that is gone. *)
Record refs_ok (s : Store) : Prop := {
  live_queues : Forall (λ q, dq_NamespaceID q ∈ ns_ID <$> rows (namespaces s)) (rows (queues s));
  live_groups : Forall (λ g, dg_QueueID g ∈ dq_ID <$> rows (queues s)) (rows (groups s));
  live_grants : Forall (λ g, ug_UserID g ∈ u_ID <$> rows (users s) ∧ ug_NamespaceID g ∈ ns_ID <$> rows (namespaces s))
    (rows (grants s));
}.

Lemma new_store_ok : store_ok new_store.
Proof. split; try apply empty_table_ok; constructor. Qed.

(** ** The catalogue *)

Abbreviation catalogue := (gmap string (string * gmap string (string * gmap string string))).

Definition groups_of (s : Store) (queueID : Z) : gmap string string := slice dg_key queueID dg_Config (groups s).
Definition queues_of (s : Store) (namespaceID : Z) : gmap string (string * gmap string string) :=
  slice dq_key namespaceID (λ q, (dq_Config q, groups_of s (dq_ID q))) (queues s).
Definition named (n : Namespace) : unit * string := (tt, ns_Name n).
Definition catalogue_of (s : Store) : catalogue :=
  slice named tt (λ n, (ns_Config n, queues_of s (ns_ID n))) (namespaces s).

Lemma row_of_named k t : row_of named (tt, k) t = row_of ns_Name k t.
Proof.
  destruct t as [l n]. induction l as [|r l IH]; [done|]. rewrite !row_of_cons, IH. unfold named.
  destruct (decide (ns_Name r = k)); [by rewrite decide_True by congruence|by rewrite decide_False by congruence].
Qed.

Lemma lookup_groups_of s id k : groups_of s id !! k = dg_Config <$> get_group id k s.
Proof. apply lookup_slice. Qed.
Lemma lookup_queues_of s id k :
  queues_of s id !! k = (λ q, (dq_Config q, groups_of s (dq_ID q))) <$> GetQueueByName id k s.
Proof. apply lookup_slice. Qed.
Lemma lookup_catalogue s k :
  catalogue_of s !! k = (λ n, (ns_Config n, queues_of s (ns_ID n))) <$> GetNamespace k s.
Proof. unfold catalogue_of. rewrite lookup_slice, row_of_named. done. Qed.

(** Equal rows at equal names give equal catalogues. *)
Lemma groups_of_ext s s' id : groups s' = groups s → groups_of s' id = groups_of s id.
Proof. unfold groups_of. by intros ->. Qed.
Lemma queues_of_ext s s' id : queues s' = queues s → groups s' = groups s → queues_of s' id = queues_of s id.
Proof. unfold queues_of, groups_of. by intros -> ->. Qed.
Lemma catalogue_ext s s' :
  namespaces s' = namespaces s → queues s' = queues s → groups s' = groups s → catalogue_of s' = catalogue_of s.
Proof. unfold catalogue_of, queues_of, groups_of. by intros -> -> ->. Qed.

Lemma queues_of_fresh s id : store_ok s → last_id (namespaces s) < id → queues_of s id = ∅.
Proof.
  intros Hs Hid. apply map_eq. intros k. rewrite lookup_queues_of, lookup_empty.
  destruct (GetQueueByName id k s) as [q|] eqn:E; [|done]. apply row_of_Some_2 in E as [Hq E].
  pose proof (ok_queue_refs _ Hs) as Hr. rewrite Forall_forall in Hr. specialize (Hr q Hq). injection E as <- <-. lia.
Qed.
Lemma groups_of_fresh s id : store_ok s → last_id (queues s) < id → groups_of s id = ∅.
Proof.
  intros Hs Hid. apply map_eq. intros k. rewrite lookup_groups_of, lookup_empty.
  destruct (get_group id k s) as [g|] eqn:E; [|done]. apply row_of_Some_2 in E as [Hg E].
  pose proof (ok_group_refs _ Hs) as Hr. rewrite Forall_forall in Hr. specialize (Hr g Hg). injection E as <- <-. lia.
Qed.

(** Rows with one identifier are one row. *)
Lemma same_id {A} (id : A → Z) (l : list A) r r' : NoDup (id <$> l) → r ∈ l → r' ∈ l → id r = id r' → r = r'.
Proof.
  intros Hd Hr Hr' E. apply list_elem_of_lookup in Hr as [i Hi]. apply list_elem_of_lookup in Hr' as [j Hj].
  assert (i = j) as ->; [|congruence]. eapply NoDup_lookup; [done| |]; rewrite list_lookup_fmap; [by rewrite Hi|by rewrite Hj; simpl; rewrite E].
Qed.

(** ** Operations as their callers compose them *)

Inductive catalogue_op :=
| OpCreateNamespace (name config : string)
| OpUpdateNamespace (name config : string)
| OpDeleteNamespace (name : string)
| OpCreateQueue (namespace name config : string)
| OpDeleteQueue (namespace name : string)
| OpSetGroup (namespace queue key config : string)
| OpDeleteGroup (namespace queue key : string).

Definition error_of {A} (r : A + db_error) : option db_error := match r with inl _ => None | inr e => Some e end.

Section run.
Context (fk : bool) (now : string).

Definition in_namespace (name : string) (f : Z → Store → Store * option db_error) (s : Store) : Store * option db_error :=
  match GetNamespace name s with Some n => f (ns_ID n) s | None => (s, Some ErrNotFound) end.
Definition in_queue (namespace name : string) (f : Z → Store → Store * option db_error) : Store → Store * option db_error :=
  in_namespace namespace (λ id s,
    match GetQueueByName id name s with Some q => f (dq_ID q) s | None => (s, Some ErrNotFound) end).

Definition run_op (op : catalogue_op) (s : Store) : Store * option db_error :=
  match op with
  | OpCreateNamespace name config => let '(s, r) := CreateNamespace now name config s in (s, error_of r)
  | OpUpdateNamespace name config => let '(s, r) := UpdateNamespace now name config s in (s, error_of r)
  | OpDeleteNamespace name => DeleteNamespace fk name s
  | OpCreateQueue ns name config => in_namespace ns (λ id, CreateQueue fk now id name config) s
  | OpDeleteQueue ns name => in_namespace ns (λ id, DeleteQueue fk id name) s
  | OpSetGroup ns q key config => in_queue ns q (λ id, UpsertGroupConfig fk now id key config) s
  | OpDeleteGroup ns q key => in_queue ns q (λ id, DeleteGroupConfig id key) s
  end.
End run.

(** The same on the catalogue. *)
Definition spec_queues (ns : string)
    (f : gmap string (string * gmap string string) → gmap string (string * gmap string string) * option db_error)
    (c : catalogue) : catalogue * option db_error :=
  match c !! ns with
  | None => (c, Some ErrNotFound)
  | Some (config, qs) => let '(qs, e) := f qs in (<[ns := (config, qs)]> c, e)
  end.
Definition spec_groups (ns q : string) (f : gmap string string → gmap string string * option db_error)
    : catalogue → catalogue * option db_error :=
  spec_queues ns (λ qs,
    match qs !! q with
    | None => (qs, Some ErrNotFound)
    | Some (config, gs) => let '(gs, e) := f gs in (<[q := (config, gs)]> qs, e)
    end).

Definition spec_op (op : catalogue_op) (c : catalogue) : catalogue * option db_error :=
  match op with
  | OpCreateNamespace name config =>
      if negb (namePattern name) || (64 <? str_len name)%nat then (c, Some ErrValidation)
      else match c !! name with
           | Some _ => (c, Some ErrConflict)
           | None => (<[name := (config, ∅)]> c, None)
           end
  | OpUpdateNamespace name config =>
      match c !! name with
      | None => (c, Some ErrNotFound)
      | Some (_, qs) => (<[name := (config, qs)]> c, None)
      end
  | OpDeleteNamespace name =>
      match c !! name with None => (c, Some ErrNotFound) | Some _ => (delete name c, None) end
  | OpCreateQueue ns name config =>
      spec_queues ns (λ qs,
        if negb (queueNamePattern name) || (128 <? str_len name)%nat then (qs, Some ErrValidation)
        else match qs !! name with
             | Some _ => (qs, Some ErrConflict)
             | None => (<[name := (config, ∅)]> qs, None)
             end) c
  | OpDeleteQueue ns name =>
      spec_queues ns (λ qs,
        match qs !! name with None => (qs, Some ErrNotFound) | Some _ => (delete name qs, None) end) c
  | OpSetGroup ns q key config =>
      spec_groups ns q (λ gs, if negb (groupKeyPattern key) then (gs, Some ErrValidation) else (<[key := config]> gs, None)) c
  | OpDeleteGroup ns q key =>
      spec_groups ns q (λ gs,
        match gs !! key with None => (gs, Some ErrNotFound) | Some _ => (delete key gs, None) end) c
  end.

(** ** Preservation and refinement, method by method *)

(** A method changes the tables it names; [keep] closes the parts of the
    invariant about the others. *)
Ltac keep Hs := destruct Hs; split; cbn; try done.

Lemma insert_namespace_ok now name config s :
  store_ok s → GetNamespace name s = None →
  let s' := set_namespaces (insert_row (λ id, mkNamespace id name config now now) (namespaces s)) s in
  store_ok s' ∧ catalogue_of s' = <[name := (config, ∅)]> (catalogue_of s).
Proof.
  intros Hs Hn s'. split.
  - keep Hs; [by apply insert_row_ok|]. eapply Forall_impl; [done|]. cbn. lia.
  - apply map_eq. intros k. rewrite lookup_catalogue. unfold GetNamespace. cbn.
    rewrite row_of_insert by done. cbn. destruct (decide (name = k)) as [<-|Hk].
    + rewrite lookup_insert_eq. cbn. f_equal. f_equal.
      rewrite (queues_of_ext s) by done. apply queues_of_fresh; [done|lia].
    + by rewrite lookup_insert_ne, lookup_catalogue by done.
Qed.

Lemma update_namespace_ok now name config n s :
  store_ok s → GetNamespace name s = Some n →
  let s' := set_namespaces (update_where (λ n, ns_Name n = name)
              (λ n, mkNamespace (ns_ID n) (ns_Name n) config (ns_CreatedAt n) now) (namespaces s)) s in
  store_ok s' ∧ catalogue_of s' = <[name := (config, queues_of s (ns_ID n))]> (catalogue_of s).
Proof.
  intros Hs Hn s'. split; [keep Hs; by apply update_where_ok|].
  apply map_eq. intros k. rewrite lookup_catalogue. unfold GetNamespace. cbn. rewrite row_of_update by done.
  pose proof (row_of_Some_2 _ _ _ _ Hn) as [_ Hnn].
  destruct (decide (name = k)) as [<-|Hk].
  - rewrite lookup_insert_eq. unfold GetNamespace in Hn. rewrite Hn. cbn. by rewrite decide_True.
  - rewrite lookup_insert_ne, lookup_catalogue by done. unfold GetNamespace.
    destruct (row_of ns_Name k (namespaces s)) as [n'|] eqn:E; [|done].
    apply row_of_Some_2 in E as [_ E]. cbn. by rewrite decide_False by congruence.
Qed.

(** Deleting queues, with or without their groups. *)
Section cascade.
Context (fk : bool) (P : DbQueue → Prop) `{∀ q, Decision (P q)} (s : Store) (Hs : store_ok s).
Local Abbreviation s' := (cascade_queues fk P s).

Lemma cascade_ok : store_ok s'.
Proof.
  unfold cascade_queues. pose proof Hs as Hs0. keep Hs0.
  - by apply delete_where_ok.
  - destruct fk; [by apply delete_where_ok|done].
  - rewrite Forall_forall in *. intros q Hq. apply list_elem_of_filter in Hq as [_ Hq]. auto.
  - destruct fk; [|done]. rewrite Forall_forall in *. intros q Hq. apply list_elem_of_filter in Hq as [_ Hq]. auto.
Qed.

Lemma cascade_namespaces : namespaces s' = namespaces s.
Proof. done. Qed.

Lemma cascade_groups_of q : q ∈ rows (queues s) → ¬ P q → groups_of s' (dq_ID q) = groups_of s (dq_ID q).
Proof.
  intros Hq HP. unfold cascade_queues. apply map_eq. intros k. rewrite !lookup_groups_of. unfold get_group. cbn.
  destruct fk; [|done]. rewrite (row_of_delete _ dg_ID) by apply Hs.
  destruct (row_of dg_key (dq_ID q, k) (groups s)) as [g|] eqn:E; [|done]. cbn.
  apply row_of_Some_2 in E as [_ E]. injection E as E _. rewrite decide_False; [done|]. rewrite E.
  intros (q' & Eq & Hq')%list_elem_of_fmap. apply list_elem_of_filter in Hq' as [HP' Hq'].
  assert (q = q') as ->; [|done]. by apply (same_id dq_ID (rows (queues s))); [apply Hs| | |].
Qed.

Lemma cascade_queue id k :
  GetQueueByName id k s' = q ← GetQueueByName id k s; if decide (P q) then None else Some q.
Proof. unfold GetQueueByName, cascade_queues. cbn. apply (row_of_delete _ dq_ID). apply Hs. Qed.

Lemma cascade_queues_of id k :
  queues_of s' id !! k = q ← GetQueueByName id k s; if decide (P q) then None else Some (dq_Config q, groups_of s (dq_ID q)).
Proof.
  rewrite lookup_queues_of, cascade_queue. destruct (GetQueueByName id k s) as [q|] eqn:E; [|done]. cbn.
  destruct (decide (P q)); [done|]. cbn. apply row_of_Some_2 in E as [Hq _]. by rewrite cascade_groups_of.
Qed.
End cascade.

Lemma delete_namespace_ok fk name n s :
  store_ok s → GetNamespace name s = Some n →
  store_ok (DeleteNamespace fk name s).1 ∧
  catalogue_of (DeleteNamespace fk name s).1 = delete name (catalogue_of s).
Proof.
  intros Hs Hn. unfold DeleteNamespace. rewrite Hn. pose proof (row_of_Some_2 _ _ _ _ Hn) as [Hin Hname].
  set (s1 := set_namespaces _ s).
  assert (store_ok s1) as Hs1 by (pose proof Hs as Hs0; keep Hs0; by apply delete_where_ok).
  assert (∀ k, GetNamespace k s1 = if decide (k = name) then None else GetNamespace k s) as Hget.
  { intros k. unfold GetNamespace, s1. cbn. rewrite (row_of_delete _ ns_ID) by apply Hs.
    destruct (row_of ns_Name k (namespaces s)) as [n'|] eqn:E; [|by destruct (decide (k = name))].
    apply row_of_Some_2 in E as [_ <-]. cbn. done. }
  set (s2 := set_grants _ s1).
  assert (store_ok s2) as Hs2 by (pose proof Hs1 as Hs0; keep Hs0; by apply delete_where_ok).
  destruct fk; cbn [fst].
  - split; [by apply cascade_ok|]. apply map_eq. intros k. rewrite lookup_catalogue.
    change (GetNamespace k (cascade_queues true _ s2)) with (GetNamespace k s1). rewrite Hget.
    destruct (decide (k = name)) as [->|Hk]; [by rewrite lookup_delete_eq|].
    rewrite lookup_delete_ne, lookup_catalogue by done.
    destruct (GetNamespace k s) as [n'|] eqn:E; [|done]. cbn [fmap option_fmap option_map]. do 2 f_equal.
    apply map_eq. intros q. rewrite cascade_queues_of by done. rewrite lookup_queues_of.
    change (GetQueueByName (ns_ID n') q s2) with (GetQueueByName (ns_ID n') q s).
    destruct (GetQueueByName (ns_ID n') q s) as [r|] eqn:Eq; [|done]. cbn.
    apply row_of_Some_2 in Eq as [_ Eq]. injection Eq as Eq _. apply row_of_Some_2 in E as [Hin' E].
    rewrite decide_False; [by rewrite (groups_of_ext s)|]. rewrite Eq. intros Eid. subst k. apply Hk. rewrite <-Hname. f_equal.
    by apply (same_id ns_ID (rows (namespaces s))); [apply Hs| | |].
  - split; [done|]. apply map_eq. intros k. rewrite lookup_catalogue, Hget.
    destruct (decide (k = name)) as [->|Hk]; [by rewrite lookup_delete_eq|].
    rewrite lookup_delete_ne, lookup_catalogue by done. destruct (GetNamespace k s); [|done]. cbn. by rewrite (queues_of_ext s).
Qed.

(** A change confined to one namespace: the catalogue changes there. *)
Lemma catalogue_change s s' ns n qs :
  namespaces s' = namespaces s → store_ok s → GetNamespace ns s = Some n →
  queues_of s' (ns_ID n) = qs → (∀ id, id ≠ ns_ID n → queues_of s' id = queues_of s id) →
  catalogue_of s' = <[ns := (ns_Config n, qs)]> (catalogue_of s).
Proof.
  intros Hns Hs Hn Hq Hother. apply map_eq. intros k. rewrite lookup_catalogue. unfold GetNamespace. rewrite Hns.
  fold (GetNamespace k s). destruct (decide (ns = k)) as [<-|Hk].
  - rewrite lookup_insert_eq, Hn. cbn. by rewrite Hq.
  - rewrite lookup_insert_ne, lookup_catalogue by done. destruct (GetNamespace k s) as [n'|] eqn:E; [|done]. cbn.
    rewrite Hother; [done|]. intros Eid. apply row_of_Some_2 in E as [Hin' E]. apply row_of_Some_2 in Hn as [Hin Hn].
    apply Hk. rewrite <-Hn, <-E. f_equal. by apply (same_id ns_ID (rows (namespaces s))); [apply Hs| | |].
Qed.

Lemma insert_queue_ok now ns n name config s :
  store_ok s → GetNamespace ns s = Some n → GetQueueByName (ns_ID n) name s = None →
  let s' := set_queues (insert_row (λ id, mkDbQueue id (ns_ID n) name config now) (queues s)) s in
  store_ok s' ∧ catalogue_of s' = <[ns := (ns_Config n, <[name := (config, ∅)]> (queues_of s (ns_ID n)))]> (catalogue_of s).
Proof.
  intros Hs Hn Hq s'.
  assert (∀ id k, GetQueueByName id k s' = if decide ((ns_ID n, name) = (id, k)) then Some (mkDbQueue (last_id (queues s) + 1) (ns_ID n) name config now)
            else GetQueueByName id k s) as Hget by (intros id k; unfold GetQueueByName, s'; cbn; by rewrite row_of_insert).
  split.
  - pose proof Hs as Hs0. apply row_of_Some_2 in Hn as [Hin _]. keep Hs0; [by apply insert_row_ok| |].
    + apply Forall_app. split; [done|]. constructor; [|constructor]. cbn.
      pose proof (ids_given _ _ _ ok_namespaces0) as Hg. rewrite Forall_forall in Hg. by apply Hg.
    + eapply Forall_impl; [done|]. cbn. lia.
  - apply catalogue_change with (s := s); [done|done|done| |].
    + apply map_eq. intros k. rewrite lookup_queues_of, Hget. destruct (decide (name = k)) as [<-|Hk].
      * rewrite decide_True, lookup_insert_eq by done. cbn. rewrite (groups_of_ext s) by done.
        by rewrite groups_of_fresh by (done || lia).
      * rewrite decide_False, lookup_insert_ne, lookup_queues_of by congruence.
        destruct (GetQueueByName (ns_ID n) k s); [|done]. cbn. by rewrite (groups_of_ext s).
    + intros id Hid. apply map_eq. intros k. rewrite !lookup_queues_of, Hget, decide_False by congruence.
      destruct (GetQueueByName id k s); [|done]. cbn. by rewrite (groups_of_ext s).
Qed.

Lemma delete_queue_ok fk ns n name s :
  store_ok s → GetNamespace ns s = Some n →
  let s' := cascade_queues fk (λ q, dq_key q = (ns_ID n, name)) s in
  store_ok s' ∧ catalogue_of s' = <[ns := (ns_Config n, delete name (queues_of s (ns_ID n)))]> (catalogue_of s).
Proof.
  intros Hs Hn s'. split; [by apply cascade_ok|]. apply catalogue_change with (s := s); [done|done|done| |].
  - apply map_eq. intros k. unfold s'. rewrite cascade_queues_of by done. destruct (decide (name = k)) as [<-|Hk].
    + rewrite lookup_delete_eq. destruct (GetQueueByName (ns_ID n) name s) as [q|] eqn:E; [|done]. cbn.
      apply row_of_Some_2 in E as [_ E]. by rewrite decide_True.
    + rewrite lookup_delete_ne, lookup_queues_of by done. destruct (GetQueueByName (ns_ID n) k s) as [q|] eqn:E; [|done]. cbn.
      apply row_of_Some_2 in E as [_ E]. by rewrite decide_False by congruence.
  - intros id Hid. apply map_eq. intros k. unfold s'. rewrite cascade_queues_of, lookup_queues_of by done.
    destruct (GetQueueByName id k s) as [q|] eqn:E; [|done]. cbn. apply row_of_Some_2 in E as [_ E].
    by rewrite decide_False by congruence.
Qed.

(** A change confined to the groups of one queue. *)
Lemma groups_change s s' ns n name q gs :
  namespaces s' = namespaces s → queues s' = queues s → store_ok s →
  GetNamespace ns s = Some n → GetQueueByName (ns_ID n) name s = Some q →
  groups_of s' (dq_ID q) = gs → (∀ id, id ≠ dq_ID q → groups_of s' id = groups_of s id) →
  catalogue_of s' = <[ns := (ns_Config n, <[name := (dq_Config q, gs)]> (queues_of s (ns_ID n)))]> (catalogue_of s).
Proof.
  intros Hns Hqs Hs Hn Hq Hgs Hother.
  assert (∀ id k, GetQueueByName id k s' = GetQueueByName id k s) as Hget by (intros; unfold GetQueueByName; by rewrite Hqs).
  apply row_of_Some_2 in Hq as Hq'. destruct Hq' as [Hin Hkey].
  assert (∀ id k r, GetQueueByName id k s = Some r → (id, k) ≠ (ns_ID n, name) → dq_ID r ≠ dq_ID q) as Hne.
  { intros id k r Hr Hk Eid. apply row_of_Some_2 in Hr as [Hr E]. apply Hk. rewrite <-E, <-Hkey. f_equal.
    by apply (same_id dq_ID (rows (queues s))); [apply Hs| | |]. }
  apply catalogue_change with (s := s); [done|done|done| |].
  - apply map_eq. intros k. rewrite lookup_queues_of, Hget. destruct (decide (name = k)) as [<-|Hk].
    + rewrite Hq, lookup_insert_eq. cbn [fmap option_fmap option_map]. by rewrite Hgs.
    + rewrite lookup_insert_ne, lookup_queues_of by done. destruct (GetQueueByName (ns_ID n) k s) as [r|] eqn:E; [|done].
      cbn [fmap option_fmap option_map]. rewrite Hother; [done|]. eapply Hne; [done|congruence].
  - intros id Hid. apply map_eq. intros k. rewrite !lookup_queues_of, Hget.
    destruct (GetQueueByName id k s) as [r|] eqn:E; [|done].
    cbn [fmap option_fmap option_map]. rewrite Hother; [done|]. eapply Hne; [done|congruence].
Qed.

(** What the three statements on groups do to the groups of a queue. *)
Lemma groups_of_table s id t k :
  groups_of (set_groups t s) id !! k = dg_Config <$> row_of dg_key (id, k) t.
Proof. apply lookup_groups_of. Qed.

(** A change at one key. *)
Lemma groups_of_point s t id key (v : option string) :
  (∀ k, dg_Config <$> row_of dg_key k t = if decide ((id, key) = k) then v else dg_Config <$> row_of dg_key k (groups s)) →
  groups_of (set_groups t s) id = partial_alter (λ _, v) key (groups_of s id) ∧
  ∀ id', id' ≠ id → groups_of (set_groups t s) id' = groups_of s id'.
Proof.
  intros Ht. split; [|intros id' Hid]; apply map_eq; intros k; rewrite groups_of_table, Ht.
  - destruct (decide (key = k)) as [<-|Hk]; [by rewrite decide_True, lookup_partial_alter_eq|].
    rewrite decide_False, lookup_partial_alter_ne, lookup_groups_of by congruence. done.
  - rewrite decide_False, lookup_groups_of by congruence. done.
Qed.

Lemma group_refs_ok s t :
  store_ok s → table_ok dg_key dg_ID t → Forall (λ g, dg_QueueID g ≤ last_id (queues s)) (rows t) → store_ok (set_groups t s).
Proof. intros Hs Ht Hr. by keep Hs. Qed.

Lemma upsert_ok fk now q key config s :
  store_ok s → q ∈ rows (queues s) → groupKeyPattern key = true →
  ∃ t, UpsertGroupConfig fk now (dq_ID q) key config s = (set_groups t s, None) ∧ store_ok (set_groups t s) ∧
    groups_of (set_groups t s) (dq_ID q) = <[key := config]> (groups_of s (dq_ID q)) ∧
    ∀ id, id ≠ dq_ID q → groups_of (set_groups t s) id = groups_of s id.
Proof.
  intros Hs Hq Hp. unfold UpsertGroupConfig. rewrite Hp. cbn [negb]. pose proof (ok_group_refs _ Hs) as Hrefs.
  destruct (get_group (dq_ID q) key s) as [g|] eqn:E.
  - eexists. split; [done|]. split; [apply group_refs_ok; [done|by apply update_where_ok; [..|apply Hs]|]|].
    { cbn. rewrite Forall_fmap. eapply Forall_impl; [done|]. intros g' ?. cbn. by destruct (decide _). }
    apply groups_of_point. intros k. rewrite row_of_update by done. unfold get_group in E.
    destruct (decide (_ = k)) as [<-|Hk].
    + rewrite E. cbn. apply row_of_Some_2 in E as [_ E]. by rewrite decide_True.
    + destruct (row_of dg_key k (groups s)) as [g'|] eqn:E'; [|done]. cbn. apply row_of_Some_2 in E' as [_ E'].
      by rewrite decide_False by congruence.
  - assert (queue_exists (dq_ID q) s = true) as -> by (apply bool_decide_eq_true; by apply list_elem_of_fmap_2).
    rewrite andb_false_r. eexists. split; [done|].
    split; [apply group_refs_ok; [done|by apply insert_row_ok; [..|apply Hs]|]|].
    { cbn. apply Forall_app. split; [done|]. constructor; [|constructor]. cbn.
      pose proof (ids_given _ _ _ (ok_queues _ Hs)) as Hg. rewrite Forall_forall in Hg. by apply Hg. }
    apply groups_of_point. intros k. rewrite row_of_insert by done. cbn. by destruct (decide (_ = k)).
Qed.

Lemma delete_group_ok id key s :
  store_ok s → let s' := set_groups (delete_where (λ g, dg_key g = (id, key)) (groups s)) s in
  store_ok s' ∧ groups_of s' id = delete key (groups_of s id) ∧ ∀ id', id' ≠ id → groups_of s' id' = groups_of s id'.
Proof.
  intros Hs s'. split.
  - apply group_refs_ok; [done|apply delete_where_ok, Hs|]. pose proof (ok_group_refs _ Hs) as Hr. cbn.
    rewrite Forall_forall in *. intros g Hg. apply list_elem_of_filter in Hg as [_ Hg]. auto.
  - apply groups_of_point. intros k. rewrite (row_of_delete _ dg_ID) by apply Hs.
    destruct (row_of dg_key k (groups s)) as [g|] eqn:E; cbn; [|by destruct (decide (_ = k))].
    apply row_of_Some_2 in E as [_ <-]. destruct (decide (dg_key g = (id, key))) as [->|Hk]; [by rewrite decide_True|].
    by rewrite decide_False.
Qed.

Lemma catalogue_same ns n s : GetNamespace ns s = Some n →
  <[ns := (ns_Config n, queues_of s (ns_ID n))]> (catalogue_of s) = catalogue_of s.
Proof. intros E. apply insert_id. by rewrite lookup_catalogue, E. Qed.
Lemma queues_same id name q s : GetQueueByName id name s = Some q →
  <[name := (dq_Config q, groups_of s (dq_ID q))]> (queues_of s id) = queues_of s id.
Proof. intros E. apply insert_id. by rewrite lookup_queues_of, E. Qed.

(** The two ways to reach a queue or a group through the names above it. *)
Lemma in_namespace_ok ns f g s :
  store_ok s →
  (∀ n, GetNamespace ns s = Some n →
     store_ok (f (ns_ID n) s).1 ∧ (g (queues_of s (ns_ID n))).2 = (f (ns_ID n) s).2 ∧
     catalogue_of (f (ns_ID n) s).1 = <[ns := (ns_Config n, (g (queues_of s (ns_ID n))).1)]> (catalogue_of s)) →
  store_ok (in_namespace ns f s).1 ∧
  spec_queues ns g (catalogue_of s) = (catalogue_of (in_namespace ns f s).1, (in_namespace ns f s).2).
Proof.
  intros Hs Hf. unfold in_namespace, spec_queues. rewrite lookup_catalogue. destruct (GetNamespace ns s) as [n|] eqn:E; [|done].
  destruct (Hf n eq_refl) as (H1 & H2 & H3). split; [done|]. cbn [fmap option_fmap option_map].
  destruct (g (queues_of s (ns_ID n))) as [qs e]. cbn in *. by rewrite H3, H2.
Qed.

Lemma in_queue_ok ns name f g s :
  store_ok s →
  (∀ q, q ∈ rows (queues s) →
     (f (dq_ID q) s).2 = (g (groups_of s (dq_ID q))).2 ∧
     ∃ t, (f (dq_ID q) s).1 = set_groups t s ∧ store_ok (set_groups t s) ∧
       groups_of (set_groups t s) (dq_ID q) = (g (groups_of s (dq_ID q))).1 ∧
       ∀ id, id ≠ dq_ID q → groups_of (set_groups t s) id = groups_of s id) →
  store_ok (in_queue ns name f s).1 ∧
  spec_groups ns name g (catalogue_of s) = (catalogue_of (in_queue ns name f s).1, (in_queue ns name f s).2).
Proof.
  intros Hs Hf. apply in_namespace_ok; [done|]. intros n Hn. rewrite lookup_queues_of.
  destruct (GetQueueByName (ns_ID n) name s) as [q|] eqn:E; [|by cbn; rewrite catalogue_same].
  destruct (Hf q) as (H1 & t & H2 & H3 & H4 & H5); [by apply row_of_Some_2 in E as [? _]|].
  cbn [fmap option_fmap option_map]. destruct (g (groups_of s (dq_ID q))) as [gs e]. cbn [fst snd] in *.
  rewrite H2. split; [done|]. split; [done|]. by apply groups_change with (q := q).
Qed.

Lemma same_groups s : set_groups (groups s) s = s.
Proof. by destruct s. Qed.

(** One operation: the invariant is kept, and the catalogue answers and changes
    as specified. *)
Lemma run_op_ok fk now op s :
  store_ok s → store_ok (run_op fk now op s).1 ∧
  spec_op op (catalogue_of s) = (catalogue_of (run_op fk now op s).1, (run_op fk now op s).2).
Proof.
  intros Hs. destruct op as [name config|name config|name|ns name config|ns name|ns q key config|ns q key]; cbn [run_op spec_op].
  - unfold CreateNamespace. destruct (namePattern name); cbn [negb orb]; [|done].
    destruct (64 <? str_len name)%nat; cbn; [done|]. rewrite lookup_catalogue.
    destruct (GetNamespace name s) eqn:E; [done|].
    destruct (insert_namespace_ok now name config s Hs E) as [H1 H2]. cbn. by rewrite <-H2.
  - unfold UpdateNamespace. rewrite lookup_catalogue. destruct (GetNamespace name s) as [n|] eqn:E; [|done].
    destruct (update_namespace_ok now name config n s Hs E) as [H1 H2]. cbn. by rewrite <-H2.
  - rewrite lookup_catalogue. destruct (GetNamespace name s) as [n|] eqn:E.
    + destruct (delete_namespace_ok fk name n s Hs E) as [H1 H2]. split; [done|]. cbn. rewrite H2.
      unfold DeleteNamespace. rewrite E. by destruct fk.
    + unfold DeleteNamespace. by rewrite E.
  - apply in_namespace_ok; [done|]. intros n Hn. unfold CreateQueue.
    destruct (queueNamePattern name); cbn [negb orb]; [|by cbn; rewrite catalogue_same].
    destruct (128 <? str_len name)%nat; [by cbn; rewrite catalogue_same|]. rewrite lookup_queues_of.
    destruct (GetQueueByName (ns_ID n) name s) eqn:Eq; [by cbn; rewrite catalogue_same|].
    assert (namespace_exists (ns_ID n) s = true) as ->.
    { apply bool_decide_eq_true, list_elem_of_fmap_2. by apply row_of_Some_2 in Hn as [? _]. }
    rewrite andb_false_r. destruct (insert_queue_ok now ns n name config s Hs Hn Eq). by split_and!.
  - apply in_namespace_ok; [done|]. intros n Hn. unfold DeleteQueue. rewrite lookup_queues_of.
    destruct (GetQueueByName (ns_ID n) name s) eqn:Eq; [|by cbn; rewrite catalogue_same].
    destruct (delete_queue_ok fk ns n name s Hs Hn). by split_and!.
  - apply in_queue_ok; [done|]. intros r Hr. destruct (groupKeyPattern key) eqn:Hp; cbn [negb].
    + destruct (upsert_ok fk now r key config s Hs Hr Hp) as (t & -> & H1 & H2 & H3). cbn. split; [done|]. by exists t.
    + unfold UpsertGroupConfig. rewrite Hp. cbn. split; [done|]. exists (groups s). by rewrite same_groups.
  - apply in_queue_ok; [done|]. intros r Hr. unfold DeleteGroupConfig. rewrite lookup_groups_of.
    destruct (get_group (dq_ID r) key s) eqn:E; cbn.
    + split; [done|]. eexists. split; [done|]. by apply delete_group_ok.
    + split; [done|]. exists (groups s). by rewrite same_groups.
Qed.

(** Any sequence of operations. *)
Fixpoint run_ops (fk : bool) (ops : list (string * catalogue_op)) (s : Store) : Store * list (option db_error) :=
  match ops with
  | [] => (s, [])
  | (now, op) :: ops =>
      let '(s, e) := run_op fk now op s in let '(s, es) := run_ops fk ops s in (s, e :: es)
  end.
Fixpoint spec_ops (ops : list (string * catalogue_op)) (c : catalogue) : catalogue * list (option db_error) :=
  match ops with
  | [] => (c, [])
  | (_, op) :: ops => let '(c, e) := spec_op op c in let '(c, es) := spec_ops ops c in (c, e :: es)
  end.

Lemma run_ops_ok fk ops s : store_ok s → store_ok (run_ops fk ops s).1.
Proof.
  revert s. induction ops as [|[now op] ops IH]; intros s Hs; [done|]. cbn [run_ops].
  destruct (run_op_ok fk now op s Hs) as [H1 _]. destruct (run_op fk now op s) as [s' e]. specialize (IH s' H1).
  by destruct (run_ops fk ops s').
Qed.

(** C31. The metadata store implements the catalogue: whatever sequence of
    creations, updates and deletions of namespaces, queues and group
    configurations is run, the store answers as the nested map does and ends in
    the catalogue the map ends in, and its invariant holds.  Foreign keys may be
    enforced or not. *)
Theorem store_refines_catalogue fk ops s :
  store_ok s → store_ok (run_ops fk ops s).1 ∧
  spec_ops ops (catalogue_of s) = (catalogue_of (run_ops fk ops s).1, (run_ops fk ops s).2).
Proof.
  intros Hs. split; [by apply run_ops_ok|]. revert s Hs. induction ops as [|[now op] ops IH]; intros s Hs; [done|].
  cbn [run_ops spec_ops]. destruct (run_op_ok fk now op s Hs) as [H1 ->]. destruct (run_op fk now op s) as [s' e]. cbn [fst snd] in *.
  rewrite (IH s' H1). by destruct (run_ops fk ops s').
Qed.

Definition sample_ops : list (string * catalogue_op) :=
  [("t1", OpCreateNamespace "main" "{}"); ("t2", OpCreateQueue "main" "jobs" "c1"); ("t3", OpSetGroup "main" "jobs" "g" "a");
   ("t4", OpCreateQueue "main" "jobs" "c2"); ("t5", OpDeleteNamespace "main"); ("t6", OpCreateNamespace "main" "{}");
   ("t7", OpCreateQueue "main" "jobs" "c3"); ("t8", OpDeleteGroup "main" "jobs" "g")].

Lemma store_refines_catalogue_witness :
  store_ok (run_ops false sample_ops new_store).1 ∧
  spec_ops sample_ops ∅ = (catalogue_of (run_ops false sample_ops new_store).1,
    [None; None; None; Some ErrConflict; None; None; None; Some ErrNotFound]).
Proof.
  destruct (store_refines_catalogue false sample_ops new_store new_store_ok) as [H1 H2]. split; [exact H1|].
  etransitivity; [exact H2|]. f_equal.
Defined.

(** ** Users *)

Inductive user_op :=
| OpCreateUser (username password email role : string)
| OpDeleteUser (username : string)
| OpUpdateUser (username : string) (email role password : option string)
| OpGrant (username namespace : string) (permissions : list string).

Section user_ops.
Context (fk : bool) (bcrypt : string → option string) (marshal_strings : list string → string).

Definition run_user_op (now : string) (op : user_op) (s : Store) : Store * option db_error :=
  match op with
  | OpCreateUser u p e r => CreateUser bcrypt now u p e r s
  | OpDeleteUser u => DeleteUser fk u s
  | OpUpdateUser u e r p => UpdateUser bcrypt now u e r p s
  | OpGrant u ns perms => SetUserNamespacePermissionsByName fk marshal_strings now u ns perms s
  end.

(** The requests that do not take a role away. *)
Definition keeps_role (op : user_op) : Prop :=
  match op with OpUpdateUser _ _ (Some r) _ => r = "admin" | _ => True end.

Lemma delete_grants_ok P `{∀ g, Decision (P g)} s :
  store_ok s → store_ok (set_grants (delete_where P (grants s)) s).
Proof. intros Hs. keep Hs. by apply delete_where_ok. Qed.

Lemma update_user_ok name f s :
  store_ok s → (∀ u, u_Username (f u) = u_Username u) → (∀ u, u_ID (f u) = u_ID u) →
  (∀ u, validRoles (u_Role u) = true → validRoles (u_Role (f u)) = true) →
  store_ok (update_user name (Some f) s).
Proof.
  intros Hs H1 H2 H3. keep Hs; [by apply update_where_ok|]. rewrite Forall_fmap. eapply Forall_impl; [done|].
  intros u Hu. cbn. destruct (decide _); auto.
Qed.

Lemma adminCount_update name f s :
  (∀ u, u_Role u = "admin" → u_Role (f u) = "admin") →
  (adminCount s ≤ adminCount (update_user name (Some f) s))%nat.
Proof.
  intros Hf. unfold adminCount, select. cbn. induction (rows (users s)) as [|u l IH]; [done|].
  rewrite fmap_cons, !filter_cons. destruct (decide (u_Role u = "admin")) as [Hu|Hu].
  - rewrite decide_True; [cbn; lia|]. destruct (decide _); auto.
  - destruct (decide _); cbn; lia.
Qed.

Lemma adminCount_pos s : (0 < adminCount s)%nat ↔ ∃ u, u ∈ rows (users s) ∧ u_Role u = "admin".
Proof.
  unfold adminCount, select. split.
  - destruct (filter _ _) as [|u l] eqn:E; cbn; [lia|]. intros _. exists u.
    assert (u ∈ filter (λ u, u_Role u = "admin") (rows (users s))) as Hu by (rewrite E; left).
    apply list_elem_of_filter in Hu. naive_solver.
  - intros (u & Hu & Hr). assert (u ∈ filter (λ u, u_Role u = "admin") (rows (users s))) as Hf by (by apply list_elem_of_filter).
    destruct (filter _ _); [by apply elem_of_nil in Hf|cbn; lia].
Qed.

(** Deleting one of two administrators leaves the other. *)
Lemma another_admin name s :
  store_ok s → (1 < adminCount s)%nat → ∃ u, u ∈ rows (users s) ∧ u_Role u = "admin" ∧ u_Username u ≠ name.
Proof.
  intros Hs. unfold adminCount, select. destruct (filter _ _) as [|a [|b l]] eqn:E; cbn; [lia|lia|]. intros _.
  assert (∀ u, u ∈ a :: b :: l → u ∈ rows (users s) ∧ u_Role u = "admin") as Hin.
  { intros u. rewrite <-E. intros Hu%list_elem_of_filter. naive_solver. }
  assert (NoDup (u_Username <$> a :: b :: l)) as Hd.
  { rewrite <-E. eapply sublist_NoDup; [apply (keys_unique _ _ _ (ok_users _ Hs))|]. apply fmap_sublist, sublist_filter. }
  cbn in Hd. apply NoDup_cons in Hd as [Hab _]. rewrite not_elem_of_cons in Hab. destruct Hab as [Hab _].
  destruct (decide (u_Username a = name)) as [Ha|Ha]; [exists b|exists a]; (split; [|split]); try apply Hin; set_solver.
Qed.

Lemma create_user_ok now u p e r s : store_ok s → store_ok (CreateUser bcrypt now u p e r s).1.
Proof.
  intros Hs. unfold CreateUser. destruct (validRoles r) eqn:Hr; [|done]. destruct (bcrypt p); [|done].
  destruct (db_GetUser u s) eqn:Eu; [done|]. keep Hs; [by apply insert_row_ok|]. cbn.
  apply Forall_app. split; [done|]. by constructor; [|constructor].
Qed.

Lemma delete_user_ok u s : store_ok s → store_ok (DeleteUser fk u s).1.
Proof.
  intros Hs. unfold DeleteUser. destruct (db_GetUser u s) as [user|]; [|done]. destruct (_ && _); [done|]. cbn [fst].
  assert (store_ok (set_users (delete_where (λ x, u_Username x = u) (users s)) s)) as H1.
  { keep Hs; [by apply delete_where_ok|]. rewrite Forall_forall in *. intros x Hx. apply list_elem_of_filter in Hx as [_ Hx]. auto. }
  destruct fk; [by apply (delete_grants_ok _ _ H1)|by destruct H1].
Qed.

Lemma update_fields_ok now u e r p s :
  store_ok s → match r with Some r => validRoles r = true | None => True end →
  store_ok (update_user u (set_password now <$> p) (update_user u (set_role now <$> r) (update_user u (set_email now <$> e) s))).
Proof.
  intros Hs Hr. assert (store_ok (update_user u (set_email now <$> e) s)) as H1 by (destruct e; [by apply update_user_ok|done]).
  assert (store_ok (update_user u (set_role now <$> r) (update_user u (set_email now <$> e) s))) as H2.
  { destruct r; [by apply update_user_ok|done]. }
  destruct p; [by apply update_user_ok|done].
Qed.

Lemma update_ok now u e r p s : store_ok s → store_ok (UpdateUser bcrypt now u e r p s).1.
Proof.
  intros Hs. unfold UpdateUser. destruct (match r with Some r => negb (validRoles r) | None => false end) eqn:Hr; [done|].
  assert (match r with Some r => validRoles r = true | None => True end) as Hr' by (destruct r; [by apply negb_false_iff|done]).
  destruct (db_GetUser u s); [|done]. destruct p as [p|]; [|by apply (update_fields_ok now u e r None)].
  destruct (bcrypt p) as [h|]; [|done]. by apply (update_fields_ok now u e r (Some h)).
Qed.

Lemma grant_ok now u ns perms s : store_ok s → store_ok (SetUserNamespacePermissionsByName fk marshal_strings now u ns perms s).1.
Proof.
  intros Hs. unfold SetUserNamespacePermissionsByName. destruct (db_GetUser u s) as [user|]; [|done].
  destruct (GetNamespace ns s) as [n|]; [|done]. unfold SetUserNamespacePermissions. destruct (fk && _); [done|]. keep Hs.
  assert (table_ok ug_key ug_ID (delete_where (λ g, ug_key g = (u_ID user, ns_ID n)) (grants s))) as Ht by by apply delete_where_ok.
  apply insert_row_ok; [done| |done]. apply row_of_None. intros g Hg. apply list_elem_of_filter in Hg as [Hg _]. done.
Qed.

Lemma run_user_op_ok now op s : store_ok s → store_ok (run_user_op now op s).1.
Proof. intros Hs. destruct op; cbn; [by apply create_user_ok|by apply delete_user_ok|by apply update_ok|by apply grant_ok]. Qed.

Lemma run_user_op_admin now op s :
  store_ok s → keeps_role op → (0 < adminCount s)%nat → (0 < adminCount (run_user_op now op s).1)%nat.
Proof.
  intros Hs Hk Ha. destruct op as [u p e r|u|u e r p|u ns perms]; cbn [run_user_op].
  - unfold CreateUser. destruct (validRoles r); [|done]. destruct (bcrypt p); [|done]. destruct (db_GetUser u s); [done|].
    apply adminCount_pos in Ha as (a & Hin & Hr). apply adminCount_pos. exists a. split; [|done]. cbn. by apply elem_of_app; left.
  - unfold DeleteUser. destruct (db_GetUser u s) as [user|] eqn:E; [|done]. destruct (_ && _) eqn:Hb; [done|]. cbn [fst].
    assert (∃ a, a ∈ rows (users s) ∧ u_Role a = "admin" ∧ u_Username a ≠ u) as (a & Hin & Hr & Hn).
    { apply andb_false_iff in Hb as [Hb|Hb].
      - apply bool_decide_eq_false in Hb. apply adminCount_pos in Ha as (a & Hin & Hr). exists a. split_and!; [done..|].
        intros <-. assert (Some user = Some a) as [=->]; [|done]. rewrite <-E. by apply (row_of_Some _ u_ID); [apply Hs|].
      - apply Nat.leb_gt in Hb. by apply another_admin. }
    apply adminCount_pos. exists a. split; [|done]. cbn. by apply list_elem_of_filter.
  - unfold UpdateUser. destruct (match r with Some r => negb (validRoles r) | None => false end); [done|].
    destruct (db_GetUser u s); [|done].
    set (s1 := update_user u (set_email now <$> e) s). set (s2 := update_user u (set_role now <$> r) s1).
    assert (adminCount s ≤ adminCount s1)%nat by (destruct e; [by apply adminCount_update|done]).
    assert (adminCount s1 ≤ adminCount s2)%nat by (destruct r; [by apply adminCount_update|done]).
    destruct p as [p|]; [|cbn; lia]. destruct (bcrypt p) as [h|]; [|done]. cbn [fst].
    pose proof (adminCount_update u (set_password now h) s2 ltac:(done)). lia.
  - unfold SetUserNamespacePermissionsByName. destruct (db_GetUser u s); [|done]. destruct (GetNamespace ns s); [|done].
    unfold SetUserNamespacePermissions. by destruct (fk && _).
Qed.

Definition run_user_ops (ops : list (string * user_op)) (s : Store) : Store :=
  foldl (λ s o, (run_user_op o.1 o.2 s).1) s ops.

Lemma run_user_ops_ok ops s : store_ok s → store_ok (run_user_ops ops s).
Proof.
  unfold run_user_ops. revert s. induction ops as [|[now op] ops IH]; intros s Hs; [done|]. cbn. apply IH. by apply run_user_op_ok.
Qed.

(** The broker stays manageable: from any store with an administrator,
    whatever users are created, deleted, updated and granted permissions, the
    tables stay well formed, every role is a known one, and as long as no
    request takes a role away an administrator remains. *)
Theorem administrator_remains ops s :
  store_ok s → (0 < adminCount s)%nat →
  store_ok (run_user_ops ops s) ∧
  (Forall (λ o, keeps_role o.2) ops → (0 < adminCount (run_user_ops ops s))%nat).
Proof.
  intros Hs Ha. split; [by apply run_user_ops_ok|]. unfold run_user_ops. revert s Hs Ha.
  induction ops as [|[now op] ops IH]; intros s Hs Ha; [done|]. cbn [foldl fst snd]. intros [Hk Hks]%Forall_cons.
  apply IH; [by apply run_user_op_ok|by apply run_user_op_admin|done].
Qed.
End user_ops.

(** *** The first start *)

Lemma seed_ok bcrypt now u p s : store_ok s → store_ok (seedDefaultData bcrypt now u p s).1.
Proof.
  intros Hs. unfold seedDefaultData. set (s1 := match rows (namespaces s) with [] => _ | _ => _ end).
  assert (store_ok s1) as H1.
  { unfold s1. destruct (rows (namespaces s)) as [|n l] eqn:E; [|done]. apply insert_namespace_ok; [done|].
    apply row_of_None. rewrite E. intros r Hr. by apply elem_of_nil in Hr. }
  clearbody s1. destruct (rows (users s1)) as [|x l] eqn:E; [|done]. destruct (bcrypt _) as [h|]; [|done]. cbn [fst].
  keep H1; [apply insert_row_ok; [done| |done]|rewrite E; by constructor; [|constructor]].
  apply row_of_None. rewrite E. intros r Hr. by apply elem_of_nil in Hr.
Qed.

(** The store of a first start has the namespace main and one administrator. *)
Example first_start :
  let '(s, e) := seedDefaultData (λ p, Some p) "t" "" "secret" new_store in
  e = None ∧ ns_Name <$> rows (namespaces s) = ["main"] ∧
  (λ u, (u_Username u, u_Role u)) <$> rows (users s) = [("admin", "admin")] ∧ adminCreated s = true.
Proof. by vm_compute. Qed.

Definition seeded : Store := (seedDefaultData (λ p, Some p) "t" "" "secret" new_store).1.

Lemma administrator_remains_witness :
  let ops := [("t1", OpCreateUser "eve" "password" "e@x" "admin"); ("t2", OpDeleteUser "admin"); ("t3", OpDeleteUser "eve")] in
  u_Username <$> rows (users (run_user_ops true (λ p, Some p) (λ _, "") ops seeded)) = ["eve"] ∧
  (0 < adminCount (run_user_ops true (λ p, Some p) (λ _, "") ops seeded))%nat.
Proof.
  split; [by vm_compute|]. apply (administrator_remains true (λ p, Some p) (λ _, "")).
  - apply seed_ok, new_store_ok.
  - vm_compute. lia.
  - by repeat constructor.
Defined.

(** Updating the role of the last administrator is not refused, and leaves
    nobody who can manage users. *)
Example last_admin_demoted :
  let '(s, e) := run_user_op true (λ p, Some p) (λ _, "") "t" (OpUpdateUser "admin" None (Some "observer") None) seeded in
  e = None ∧ adminCount s = 0%nat.
Proof. by vm_compute. Qed.

(** ** Foreign keys *)

Lemma new_store_refs : refs_ok new_store.
Proof. split; constructor. Qed.

Lemma update_ids {A} (id : A → Z) (P : A → Prop) `{∀ r, Decision (P r)} f (t : table A) :
  (∀ r, id (f r) = id r) → id <$> rows (update_where P f t) = id <$> rows t.
Proof. intros Hf. cbn. rewrite <-list_fmap_compose. apply list_fmap_ext. intros ? r _. cbn. by destruct (decide _). Qed.

Lemma insert_ids {A} (id : A → Z) row (t : table A) x : x ∈ id <$> rows t → x ∈ id <$> rows (insert_row row t).
Proof. cbn. rewrite fmap_app, elem_of_app. by left. Qed.

Lemma delete_ids {A} (id : A → Z) (P : A → Prop) `{∀ r, Decision (P r)} (t : table A) x :
  x ∈ id <$> rows t → x ∉ id <$> select P t → x ∈ id <$> rows (delete_where P t).
Proof.
  intros (r & -> & Hr)%list_elem_of_fmap Hn. cbn. apply list_elem_of_fmap_2, list_elem_of_filter. split; [|done].
  intros HP. apply Hn. apply list_elem_of_fmap_2. by apply list_elem_of_filter.
Qed.

Lemma cascade_refs P `{∀ q, Decision (P q)} s : refs_ok s → refs_ok (cascade_queues true P s).
Proof.
  intros [H1 H2 H3]. unfold cascade_queues. split; cbn; [| |done]; rewrite Forall_forall in *.
  - intros q Hq. apply list_elem_of_filter in Hq as [_ Hq]. auto.
  - intros g Hg. apply list_elem_of_filter in Hg as [Hn Hg]. apply delete_ids; auto.
Qed.

Lemma run_op_refs now op s : store_ok s → refs_ok s → refs_ok (run_op true now op s).1.
Proof.
  intros Hs Hr. destruct op as [name config|name config|name|ns name config|ns name|ns q key config|ns q key]; cbn [run_op].
  - unfold CreateNamespace. destruct (negb _); [done|]. destruct (64 <? _)%nat; [done|]. destruct (GetNamespace name s); [done|].
    destruct Hr as [H1 H2 H3]. split; [|done|]; cbn -[insert_row]; rewrite Forall_forall in *; intros x Hx.
    + by apply insert_ids, H1.
    + split; [by apply H3|]. by apply insert_ids, H3.
  - unfold UpdateNamespace. destruct (GetNamespace name s); [|done]. destruct Hr as [H1 H2 H3].
    split; [|done|]; cbn -[update_where]; by rewrite update_ids.
  - unfold DeleteNamespace. destruct (GetNamespace name s) as [n|] eqn:E; [|done]. cbn [fst].
    assert (∀ x, x ∈ ns_ID <$> rows (namespaces s) → x ≠ ns_ID n →
      x ∈ ns_ID <$> rows (delete_where (λ n, ns_Name n = name) (namespaces s))) as Hd.
    { intros x Hx Hne. apply delete_ids; [done|]. intros (n' & -> & Hn')%list_elem_of_fmap.
      apply list_elem_of_filter in Hn' as [Hname Hin]. apply Hne. f_equal.
      assert (Some n' = Some n) as [=]; [|done]. rewrite <-E. symmetry. by apply (row_of_Some _ ns_ID); [apply Hs|]. }
    destruct Hr as [H1 H2 H3]. unfold cascade_queues. split; cbn; rewrite Forall_forall in *.
    + intros q Hq. apply list_elem_of_filter in Hq as [Hn Hq]. apply Hd; auto.
    + intros g Hg. apply list_elem_of_filter in Hg as [Hn Hg]. apply delete_ids; auto.
    + intros g Hg. apply list_elem_of_filter in Hg as [Hn Hg]. split; [by apply H3|]. apply Hd; [by apply H3|done].
  - unfold in_namespace. destruct (GetNamespace ns s) as [n|]; [|done]. unfold CreateQueue. destruct (negb _); [done|].
    destruct (128 <? _)%nat; [done|]. destruct (GetQueueByName _ _ _); [done|].
    destruct (namespace_exists (ns_ID n) s) eqn:Ex; [|done]. apply bool_decide_eq_true in Ex.
    destruct Hr as [H1 H2 H3]. split; cbn -[insert_row]; [| |done].
    + cbn. apply Forall_app. by split; [|constructor].
    + rewrite Forall_forall in *. intros g Hg. by apply insert_ids, H2.
  - unfold in_namespace. destruct (GetNamespace ns s) as [n|]; [|done]. unfold DeleteQueue.
    destruct (GetQueueByName _ _ _); [by apply cascade_refs|done].
  - unfold in_queue, in_namespace. destruct (GetNamespace ns s) as [n|]; [|done]. destruct (GetQueueByName _ _ _) as [r|]; [|done].
    unfold UpsertGroupConfig. destruct (negb _); [done|]. destruct Hr as [H1 H2 H3]. destruct (get_group _ _ _).
    + split; cbn; [done| |done]. rewrite Forall_fmap. eapply Forall_impl; [done|]. intros g Hg. cbn. by destruct (decide _).
    + destruct (queue_exists (dq_ID r) s) eqn:Ex; [|done]. apply bool_decide_eq_true in Ex. split; cbn; [done| |done].
      apply Forall_app. by split; [|constructor].
  - unfold in_queue, in_namespace. destruct (GetNamespace ns s) as [n|]; [|done]. destruct (GetQueueByName _ _ _) as [r|]; [|done].
    unfold DeleteGroupConfig. destruct (get_group _ _ _); [|done]. destruct Hr as [H1 H2 H3]. split; cbn; [done| |done].
    rewrite Forall_forall in *. intros g Hg. apply list_elem_of_filter in Hg as [_ Hg]. auto.
Qed.

(** With foreign keys enforced no row of the catalogue ever points to a row
    that is gone. *)
Theorem foreign_keys_hold ops s :
  store_ok s → refs_ok s → refs_ok (run_ops true ops s).1.
Proof.
  revert s. induction ops as [|[now op] ops IH]; intros s Hs Hr; [done|]. cbn [run_ops].
  destruct (run_op_ok true now op s Hs) as [H1 _]. pose proof (run_op_refs now op s Hs Hr) as H2.
  destruct (run_op true now op s) as [s' e]. cbn [fst] in *. specialize (IH s' H1 H2). by destruct (run_ops true ops s').
Qed.

(** Without them a deleted namespace leaves its queues behind. *)
Example orphans_left :
  length (rows (queues (run_ops false sample_ops new_store).1)) = 2%nat ∧
  length (rows (queues (run_ops true sample_ops new_store).1)) = 1%nat.
Proof. by vm_compute. Qed.

(** ** Names *)

Record names_ok (s : Store) : Prop := {
  ok_ns_names : Forall (λ n, namePattern (ns_Name n) = true) (rows (namespaces s));
  ok_queue_names : Forall (λ q, queueNamePattern (dq_Name q) = true) (rows (queues s));
}.

Lemma new_store_names : names_ok new_store.
Proof. split; constructor. Qed.

Lemma delete_Forall {A} (Q P : A → Prop) `{∀ r, Decision (P r)} (t : table A) :
  Forall Q (rows t) → Forall Q (rows (delete_where P t)).
Proof. rewrite !Forall_forall. intros HQ r Hr. apply list_elem_of_filter in Hr as [_ Hr]. auto. Qed.

Lemma update_Forall {A} (Q P : A → Prop) `{∀ r, Decision (P r)} f (t : table A) :
  (∀ r, Q r → Q (f r)) → Forall Q (rows t) → Forall Q (rows (update_where P f t)).
Proof. intros Hf HQ. cbn. rewrite Forall_fmap. eapply Forall_impl; [done|]. intros r Hr. cbn. destruct (decide _); auto. Qed.

Lemma run_op_names fk now op s : names_ok s → names_ok (run_op fk now op s).1.
Proof.
  intros [H1 H2]. destruct op as [name config|name config|name|ns name config|ns name|ns q key config|ns q key]; cbn [run_op].
  - unfold CreateNamespace. destruct (namePattern name) eqn:Hp; [|done]. cbn [negb]. destruct (64 <? _)%nat; [done|].
    destruct (GetNamespace name s); [done|]. split; [|done]. cbn. apply Forall_app. by split; [|constructor].
  - unfold UpdateNamespace. destruct (GetNamespace name s); [|done]. split; [|done]. cbn -[update_where]. by apply update_Forall.
  - unfold DeleteNamespace. destruct (GetNamespace name s); [|done]. destruct fk; split; cbn -[delete_where]; try done; by apply delete_Forall.
  - unfold in_namespace. destruct (GetNamespace ns s) as [n|]; [|done]. unfold CreateQueue.
    destruct (queueNamePattern name) eqn:Hp; [|done]. cbn [negb].
    destruct (128 <? _)%nat; [done|]. destruct (GetQueueByName _ _ _); [done|]. destruct (fk && _); [done|].
    split; [done|]. cbn. apply Forall_app. by split; [|constructor].
  - unfold in_namespace. destruct (GetNamespace ns s) as [n|]; [|done]. unfold DeleteQueue. destruct (GetQueueByName _ _ _); [|done].
    split; [done|]. cbn -[delete_where]. by apply delete_Forall.
  - unfold in_queue, in_namespace. destruct (GetNamespace ns s) as [n|]; [|done]. destruct (GetQueueByName _ _ _) as [r|]; [|done].
    unfold UpsertGroupConfig. destruct (negb _); [done|]. destruct (get_group _ _ _); [done|]. by destruct (fk && _).
  - unfold in_queue, in_namespace. destruct (GetNamespace ns s) as [n|]; [|done]. destruct (GetQueueByName _ _ _) as [r|]; [|done].
    unfold DeleteGroupConfig. by destruct (get_group _ _ _).
Qed.

Lemma run_ops_names fk ops s : names_ok s → names_ok (run_ops fk ops s).1.
Proof.
  revert s. induction ops as [|[now op] ops IH]; intros s Hs; [done|]. cbn [run_ops].
  pose proof (run_op_names fk now op s Hs) as H1. destruct (run_op fk now op s) as [s' e]. specialize (IH s' H1).
  by destruct (run_ops fk ops s').
Qed.
