(* ===== verification/Startup.v ===== *)
(** * Starting the broker

    src/internal/broker/recovery.go: the queues and group configurations are
    restored from the metadata store, then the logs found on disk are replayed,
    creating the queues the store does not know; broker.go's Start does this
    before anything else.  The runtime state is the scheduler with its queues
    and the registry of queue logs of src/internal/storage/wal.go. *)

From stdpp Require Import base gmap list strings.
From Stdlib Require Import ZArith Lia Strings.Ascii.
From S2P Require Import Prelude Group GroupDrain ConfigIdx Queue QueueInv Wal Snapshot Recovery Scheduler Table Auth Database DatabaseInv.
Local Open Scope Z_scope.
Local Open Scope list_scope.

Record runtime := mkRuntime { rt_sched : Scheduler; rt_wal : WAL }.

(** The address of a new queue object. *)
Definition fresh_queue (s : Scheduler) : nat := fresh (dom (s_store s) : gset nat).

Definition registerQueueWithWAL (p : nat) (q : Queue) (rt : runtime) : runtime :=
  mkRuntime (RegisterQueue p q (rt_sched rt)) (RegisterQueueState (q_Namespace q) (Name q) p (rt_wal rt)).

Section startup.
(** json.Unmarshal into a GroupConfig, nothing on an error. *)
Context (unmarshal_config : string → option GroupConfig).

Definition restore_group (q : Queue) (g : DbGroup) : Queue :=
  match unmarshal_config (dg_Config g) with
  | None => q
  | Some cfg => SetGroupConfig (cfg_set_Key (dg_Key g) cfg) q
  end.

Definition restored_queue (s : Store) (ns : string) (dbQueue : DbQueue) : Queue :=
  foldl restore_group (NewQueue (dq_Name dbQueue) ns) (ListGroups (dq_ID dbQueue) s).

Definition restore_queue (s : Store) (ns : string) (rt : runtime) (dbQueue : DbQueue) : runtime :=
  registerQueueWithWAL (fresh_queue (rt_sched rt)) (restored_queue s ns dbQueue) rt.

Definition restoreFromDB (s : Store) (rt : runtime) : runtime :=
  foldl (λ rt n, foldl (restore_queue s (ns_Name n)) rt (Database.ListQueues (ns_ID n) s)) rt (ListNamespaces s).
End startup.

(** The queue directories under the root of the logs. *)
Definition queue_dirs (root : wal_root) : list (string * string * directory) :=
  concat ((λ ns : string * _,
    match ns.2 with
    | None => []
    | Some qs => omap (λ q : string * option directory, (λ d, (ns.1, q.1, d)) <$> q.2) qs
    end) <$> root).

Section replay.
Context (clock : string → string → nat → Z) (ordg : range_order GroupState).

(** One queue of [replayWAL]: the registered queue, or a new one. *)
Definition queue_for_replay (ns name : string) (rt : runtime) : nat * runtime :=
  match GetQueue ns name (rt_sched rt) with
  | Some p => (p, rt)
  | None => let p := fresh_queue (rt_sched rt) in (p, registerQueueWithWAL p (NewQueue name ns) rt)
  end.

Definition replay_queue (rt : runtime) (dir : string * string * directory) : outcome runtime :=
  let '(ns, name, d) := dir in
  let '(p, rt) := queue_for_replay ns name rt in
  match s_store (rt_sched rt) !! p with
  | None => Ret rt
  | Some q =>
      let r := recover_queue (clock ns name) ordg name ns d q in
      if rs_panicked r then Panic
      else Ret (mkRuntime (set_store (<[p := rs_queue r]> (s_store (rt_sched rt))) (rt_sched rt)) (rt_wal rt))
  end.

Definition replayWAL (root : wal_root) (rt : runtime) : outcome runtime :=
  foldl (λ o dir, match o with Ret rt => replay_queue rt dir | Panic => Panic end) (Ret rt) (queue_dirs root).

Definition recoverQueues (unmarshal_config : string → option GroupConfig) (s : Store) (root : wal_root) (rt : runtime)
    : outcome runtime :=
  replayWAL root (restoreFromDB unmarshal_config s rt).
End replay.

(** [broker.New]: a scheduler without queues, a registry without open logs. *)
Definition new_runtime (durable : bool) : runtime := mkRuntime NewScheduler (NewWAL durable).

(** ** Keys of queues *)

Definition no_slash (s : string) : bool := forallb (λ c, negb (bool_decide (c = "/"%char))) (String.list_ascii_of_string s).

Lemma no_slash_cons c s : no_slash (String c s) = true ↔ c ≠ "/"%char ∧ no_slash s = true.
Proof. unfold no_slash. cbn. rewrite andb_true_iff, negb_true_iff, bool_decide_eq_false. done. Qed.

Lemma no_slash_app a b : no_slash (a +:+ "/" +:+ b) = false.
Proof.
  unfold no_slash. induction a as [|c a IH]; [done|]. change (String c a +:+ "/" +:+ b) with (String c (a +:+ "/" +:+ b)).
  cbn. rewrite IH. apply andb_false_r.
Qed.

(** Names without a slash are told apart by their key, whatever the others. *)
Lemma queueKey_inj ns name ns' name' :
  no_slash ns = true → no_slash name = true → queueKey ns name = queueKey ns' name' → ns = ns' ∧ name = name'.
Proof.
  unfold queueKey. revert ns'. induction ns as [|c ns IH]; intros ns' Hns Hn E.
  - destruct ns' as [|c' ns'].
    + change (String "/" name = String "/" name') in E. by injection E as ->.
    + change (String "/" name = String c' (ns' +:+ "/" +:+ name')) in E. injection E as <- ->. pose proof (no_slash_app ns' name') as Hs. congruence.
  - apply no_slash_cons in Hns as [Hc Hns]. destruct ns' as [|c' ns'].
    { change (String c (ns +:+ "/" +:+ name) = String "/" name') in E. by injection E as ->. }
    change (String c (ns +:+ "/" +:+ name) = String c' (ns' +:+ "/" +:+ name')) in E. injection E as -> E.
    destruct (IH ns' Hns Hn E) as [-> ->]. done.
Qed.

Lemma forallb_weaken {A} (f g : A → bool) l : (∀ x, f x = true → g x = true) → forallb f l = true → forallb g l = true.
Proof. rewrite !forallb_forall. auto. Qed.

Lemma name_no_slash s : MatchString name_char s = true → no_slash s = true.
Proof.
  unfold MatchString, no_slash. intros [_ H]%andb_true_iff. revert H. apply forallb_weaken. intros c Hc.
  apply negb_true_iff, bool_decide_eq_false. by intros ->.
Qed.

(** ** What is restored *)

(** Registering a list of queue objects, each at a new address. *)
Definition register_all (qs : list Queue) (rt : runtime) : runtime :=
  foldl (λ rt q, registerQueueWithWAL (fresh_queue (rt_sched rt)) q rt) rt qs.

Definition key_of (q : Queue) : string := queueKey (q_Namespace q) (Name q).

(** The queue registered under a key. *)
Definition registered (rt : runtime) (key : string) : option Queue :=
  p ← s_queues (rt_sched rt) !! key; s_store (rt_sched rt) !! p.

(** Every registered address holds a queue. *)
Definition rt_ok (rt : runtime) : Prop :=
  ∀ key p, s_queues (rt_sched rt) !! key = Some p → is_Some (s_store (rt_sched rt) !! p).

Lemma fresh_not_stored s : s_store s !! fresh_queue s = None.
Proof. apply (not_elem_of_dom (D := gset nat)). unfold fresh_queue. apply is_fresh. Qed.

Lemma registered_step q rt key :
  rt_ok rt →
  rt_ok (registerQueueWithWAL (fresh_queue (rt_sched rt)) q rt) ∧
  registered (registerQueueWithWAL (fresh_queue (rt_sched rt)) q rt) key =
    if decide (key = key_of q) then Some q else registered rt key.
Proof.
  intros Hok. set (p := fresh_queue (rt_sched rt)). split.
  - intros k p'. cbn. rewrite lookup_insert_Some. intros [[_ <-]|[_ Hk]]; [by rewrite lookup_insert_eq|].
    apply Hok in Hk as [q' Hq']. rewrite lookup_insert_is_Some'. right. by eexists.
  - unfold registered. cbn. fold (key_of q). destruct (decide (key = key_of q)) as [->|Hk].
    + rewrite lookup_insert_eq. cbn. by rewrite lookup_insert_eq.
    + rewrite lookup_insert_ne by done. destruct (s_queues (rt_sched rt) !! key) as [p'|] eqn:E; [|done]. cbn.
      apply lookup_insert_ne. intros Hp. apply Hok in E as [q' Hq']. rewrite <-Hp in Hq'. unfold p in Hq'.
      by rewrite fresh_not_stored in Hq'.
Qed.

Lemma register_all_spec qs rt :
  rt_ok rt → NoDup (key_of <$> qs) →
  rt_ok (register_all qs rt) ∧
  ∀ key, registered (register_all qs rt) key =
    match List.find (λ q, bool_decide (key_of q = key)) qs with Some q => Some q | None => registered rt key end.
Proof.
  unfold register_all. revert rt. induction qs as [|q qs IH]; intros rt Hok Hd; [done|]. cbn in *.
  apply NoDup_cons in Hd as [Hq Hd]. destruct (registered_step q rt (key_of q) Hok) as [Hok' _].
  destruct (IH _ Hok' Hd) as [H1 H2]. split; [done|]. intros key. rewrite H2. destruct (registered_step q rt key Hok) as [_ ->].
  destruct (bool_decide_reflect (key_of q = key)) as [<-|Hk].
  - rewrite decide_True by done. destruct (List.find _ qs) as [q'|] eqn:E; [|done].
    apply find_some in E as [Hin E]. apply bool_decide_eq_true in E. destruct Hq. rewrite <-E.
    apply list_elem_of_fmap_2. by apply list_elem_of_In.
  - rewrite decide_False by congruence. done.
Qed.

(** The search of a list whose keys are distinct. *)
Lemma find_unique {A K} `{EqDecision K} (f : A → K) (l : list A) k o :
  NoDup (f <$> l) →
  (∀ x, o = Some x ↔ x ∈ l ∧ f x = k) → List.find (λ x, bool_decide (f x = k)) l = o.
Proof.
  intros Hd Ho. destruct o as [x|].
  - destruct (proj1 (Ho x) eq_refl) as [Hx Hk]. destruct (List.find _ l) as [y|] eqn:E.
    + apply find_some in E as [Hy Ek]. apply bool_decide_eq_true in Ek. assert (Some x = Some y) as [=->]; [|done].
      apply Ho. split; [by apply list_elem_of_In|done].
    + apply list_elem_of_In in Hx. by pose proof (find_none _ _ E x Hx) as Hn%bool_decide_eq_false.
  - destruct (List.find _ l) as [y|] eqn:E; [|done]. apply find_some in E as [Hy Ek]. apply bool_decide_eq_true in Ek.
    symmetry. apply Ho. split; [by apply list_elem_of_In|done].
Qed.

(** *** One queue *)

Lemma SetGroupConfig_cfgIdx c q : cfgIdx (SetGroupConfig c q) = set (normal_quantum c) (cfgIdx q).
Proof.
  unfold SetGroupConfig. fold (normal_quantum c). destruct (isGlobPattern _); [done|].
  unfold with_group. by destruct (GetGroup _ _).
Qed.

Lemma SetGroupConfig_name c q : Name (SetGroupConfig c q) = Name q ∧ q_Namespace (SetGroupConfig c q) = q_Namespace q.
Proof.
  unfold SetGroupConfig. destruct (isGlobPattern _); [done|]. unfold with_group. by destruct (GetGroup _ _).
Qed.

Lemma SetGroupConfig_no_groups c q : (∀ k, GetGroup k q = None) → ∀ k, GetGroup k (SetGroupConfig c q) = None.
Proof.
  intros Hq k. unfold SetGroupConfig. fold (normal_quantum c). set (q1 := set_cfgIdx _ q).
  assert (∀ k, GetGroup k q1 = None) as H1 by done. destruct (isGlobPattern _).
  - change (set_shards _ q1) with
      (map_groups (λ k g, if Matches (normal_quantum c) k then reconfigure (cfg_set_Key k (normal_quantum c)) g else g) q1).
    by rewrite GetGroup_map, H1.
  - unfold with_group. by rewrite H1.
Qed.

Section restore.
Context (unmarshal_config : string → option GroupConfig).

(** The configuration a stored row gives back. *)
Definition decode_config (key config : string) : option GroupConfig :=
  (λ cfg, normal_quantum (cfg_set_Key key cfg)) <$> unmarshal_config config.

Lemma restore_groups_spec l q :
  NoDup (dg_Key <$> l) → cfg_wf (cfgIdx q) → (∀ k, GetGroup k q = None) →
  let q' := foldl (restore_group unmarshal_config) q l in
  Name q' = Name q ∧ q_Namespace q' = q_Namespace q ∧ cfg_wf (cfgIdx q') ∧ (∀ k, GetGroup k q' = None) ∧
  ∀ k, GetGroupConfig k q' =
    match (g ← List.find (λ g, bool_decide (dg_Key g = k)) l; decode_config k (dg_Config g)) with
    | Some c => Some c
    | None => GetGroupConfig k q
    end.
Proof.
  revert q. induction l as [|g l IH]; intros q Hd Hc Hg q'; [done|]. cbn in Hd. apply NoDup_cons in Hd as [Hn Hd].
  unfold q'. cbn [foldl]. set (q1 := restore_group unmarshal_config q g).
  assert (Name q1 = Name q ∧ q_Namespace q1 = q_Namespace q ∧ cfg_wf (cfgIdx q1) ∧ (∀ k, GetGroup k q1 = None) ∧
    ∀ k, GetGroupConfig k q1 = if decide (k = dg_Key g) then
        match decode_config k (dg_Config g) with Some c => Some c | None => GetGroupConfig k q end else GetGroupConfig k q) as (H1 & H2 & H3 & H4 & H5).
  { unfold q1, restore_group, decode_config. destruct (unmarshal_config (dg_Config g)) as [cfg|]; cbn [fmap option_fmap option_map].
    - destruct (SetGroupConfig_name (cfg_set_Key (dg_Key g) cfg) q) as [-> ->]. rewrite SetGroupConfig_cfgIdx.
      split_and!; [done|done|by apply set_wf|by apply SetGroupConfig_no_groups|]. intros k.
      unfold GetGroupConfig. rewrite SetGroupConfig_cfgIdx, get_set by done. rewrite normal_quantum_Key. cbn.
      by destruct (decide (k = dg_Key g)) as [->|].
    - split_and!; try done. intros k. by destruct (decide (k = dg_Key g)). }
  destruct (IH q1 Hd H3 H4) as (I1 & I2 & I3 & I4 & I5). split_and!; [congruence|congruence|done|done|].
  intros k. rewrite I5, H5. cbn [List.find]. destruct (bool_decide_reflect (dg_Key g = k)) as [<-|Hk].
  - rewrite decide_True by done. destruct (List.find _ l) as [g'|] eqn:E; [|done].
    apply find_some in E as [Hin E]. apply bool_decide_eq_true in E. destruct Hn. rewrite <-E. apply list_elem_of_fmap_2. by apply list_elem_of_In.
  - rewrite decide_False by congruence. done.
Qed.

Lemma ListGroups_keys id s : store_ok s → NoDup (dg_Key <$> ListGroups id s).
Proof.
  intros Hs. unfold ListGroups. rewrite order_by_perm. unfold select.
  pose proof (keys_unique _ _ _ (ok_groups _ Hs)) as Hd. induction (rows (groups s)) as [|g l IH]; [constructor|].
  cbn in Hd. apply NoDup_cons in Hd as [Hn Hd]. rewrite filter_cons. destruct (decide _) as [Hg|]; [|auto]. cbn. constructor; [|auto].
  intros (g' & E & Hg')%list_elem_of_fmap. apply list_elem_of_filter in Hg' as [Hid Hin]. apply Hn.
  apply list_elem_of_fmap. exists g'. split; [|done]. unfold dg_key. congruence.
Qed.

Lemma ListGroups_find id k s : store_ok s → List.find (λ g, bool_decide (dg_Key g = k)) (ListGroups id s) = get_group id k s.
Proof.
  intros Hs. apply find_unique; [by apply ListGroups_keys|]. intros g. unfold get_group.
  rewrite (row_of_Some _ dg_ID) by apply Hs. unfold ListGroups. rewrite order_by_perm. unfold select.
  rewrite list_elem_of_filter. unfold dg_key. naive_solver.
Qed.

Lemma restored_queue_spec s ns r :
  store_ok s →
  let q := restored_queue unmarshal_config s ns r in
  Name q = dq_Name r ∧ q_Namespace q = ns ∧ cfg_wf (cfgIdx q) ∧ (∀ k, GetGroup k q = None) ∧
  ∀ k, GetGroupConfig k q = c ← groups_of s (dq_ID r) !! k; decode_config k c.
Proof.
  intros Hs q. destruct (restore_groups_spec (ListGroups (dq_ID r) s) (NewQueue (dq_Name r) ns)) as (H1 & H2 & H3 & H4 & H5);
    [by apply ListGroups_keys|apply newConfigIdx_wf|apply GetGroup_new|]. split_and!; [done..|].
  intros k. unfold q, restored_queue. rewrite H5, ListGroups_find, lookup_groups_of by done.
  destruct (get_group (dq_ID r) k s) as [g|]; [|done]. cbn. by destruct (decode_config k (dg_Config g)).
Qed.
End restore.

(** *** All queues *)

Section restore_all.
Context (unmarshal_config : string → option GroupConfig) (s : Store) (Hs : store_ok s) (Hn : names_ok s).

Definition declared_queues : list (Namespace * DbQueue) :=
  n ← ListNamespaces s; pair n <$> Database.ListQueues (ns_ID n) s.

Definition restored (x : Namespace * DbQueue) : Queue := restored_queue unmarshal_config s (ns_Name x.1) x.2.

Lemma restoreFromDB_all rt : restoreFromDB unmarshal_config s rt = register_all (restored <$> declared_queues) rt.
Proof.
  unfold restoreFromDB, declared_queues. revert rt. induction (ListNamespaces s) as [|n l IH]; intros rt; [done|].
  rewrite bind_cons. cbn [foldl]. rewrite IH. unfold register_all. rewrite fmap_app, foldl_app. f_equal. clear IH. revert rt.
  induction (Database.ListQueues (ns_ID n) s) as [|r l' IH]; intros rt; [done|]. cbn. apply IH.
Qed.

Lemma elem_of_declared n r :
  (n, r) ∈ declared_queues ↔ n ∈ rows (namespaces s) ∧ r ∈ rows (queues s) ∧ dq_NamespaceID r = ns_ID n.
Proof.
  unfold declared_queues. rewrite list_elem_of_bind. setoid_rewrite list_elem_of_fmap.
  unfold ListNamespaces, Database.ListQueues. setoid_rewrite order_by_perm. unfold select.
  setoid_rewrite list_elem_of_filter. naive_solver.
Qed.

Lemma restored_key x : key_of (restored x) = queueKey (ns_Name x.1) (dq_Name x.2).
Proof.
  unfold key_of, restored. destruct (restored_queue_spec unmarshal_config s (ns_Name x.1) x.2 Hs) as (-> & -> & _). done.
Qed.

Lemma ns_slash n : n ∈ rows (namespaces s) → no_slash (ns_Name n) = true.
Proof. intros H. destruct Hn as [H1 _]. rewrite Forall_forall in H1. by apply name_no_slash, H1. Qed.
Lemma queue_slash r : r ∈ rows (queues s) → no_slash (dq_Name r) = true.
Proof. intros H. destruct Hn as [_ H1]. rewrite Forall_forall in H1. by apply name_no_slash, H1. Qed.

(** Two declared queues with one key are one. *)
Lemma declared_same n r n' r' :
  (n, r) ∈ declared_queues → (n', r') ∈ declared_queues →
  queueKey (ns_Name n) (dq_Name r) = queueKey (ns_Name n') (dq_Name r') → n = n' ∧ r = r'.
Proof.
  intros (H1 & H2 & H3)%elem_of_declared (H1' & H2' & H3')%elem_of_declared E.
  apply queueKey_inj in E as [E1 E2]; [|by apply ns_slash|by apply queue_slash].
  assert (n = n') as ->.
  { assert (Some n = Some n') as [=]; [|done].
    transitivity (GetNamespace (ns_Name n') s); [symmetry|]; by apply (row_of_Some _ ns_ID); [apply Hs|]. }
  split; [done|]. assert (Some r = Some r') as [=]; [|done].
  transitivity (GetQueueByName (ns_ID n') (dq_Name r') s); [symmetry|]; apply (row_of_Some _ dq_ID); try apply Hs;
    unfold dq_key; (split; [done|congruence]).
Qed.

Lemma declared_keys : NoDup (key_of <$> (restored <$> declared_queues)).
Proof.
  rewrite <-list_fmap_compose. apply NoDup_fmap_2_strong.
  - intros [n r] [n' r'] H H' E. cbn in E. rewrite !restored_key in E. destruct (declared_same _ _ _ _ H H' E). by subst.
  - unfold declared_queues. apply NoDup_bind.
    + intros n n' x _ _ Hx Hx'. apply list_elem_of_fmap in Hx as (r & -> & _). apply list_elem_of_fmap in Hx' as (r' & E & _).
      by injection E.
    + intros n _. apply NoDup_fmap; [by intros ? ? [=]|]. unfold Database.ListQueues. rewrite order_by_perm.
      apply NoDup_filter. apply (NoDup_fmap_1 dq_ID). apply Hs.
    + unfold ListNamespaces. rewrite order_by_perm. apply (NoDup_fmap_1 ns_ID). apply Hs.
Qed.

Lemma find_declared n r :
  (n, r) ∈ declared_queues →
  List.find (λ q, bool_decide (key_of q = queueKey (ns_Name n) (dq_Name r))) (restored <$> declared_queues) = Some (restored (n, r)).
Proof.
  intros Hd. apply find_unique; [apply declared_keys|]. intros q. split.
  - intros [= <-]. split; [by apply list_elem_of_fmap_2|by rewrite restored_key].
  - intros [([n' r'] & -> & Hd')%list_elem_of_fmap E]. rewrite restored_key in E.
    destruct (declared_same _ _ _ _ Hd' Hd E) as [-> ->]. done.
Qed.
End restore_all.

(** What the catalogue says of a queue: its group configurations. *)
Definition declared_groups (s : Store) (ns name : string) : option (gmap string string) :=
  v ← catalogue_of s !! ns; snd <$> v.2 !! name.

Lemma declared_groups_rows s ns name gs :
  declared_groups s ns name = Some gs ↔
  ∃ n r, GetNamespace ns s = Some n ∧ GetQueueByName (ns_ID n) name s = Some r ∧ gs = groups_of s (dq_ID r).
Proof.
  unfold declared_groups. rewrite lookup_catalogue. destruct (GetNamespace ns s) as [n|]; cbn -[queues_of]; [|naive_solver].
  rewrite lookup_queues_of. split.
  - destruct (GetQueueByName (ns_ID n) name s) as [r|] eqn:E; [|done]. intros [= <-]. by exists n, r.
  - by intros (? & r & [= <-] & -> & ->).
Qed.

(** A registered queue carries the declared configurations. *)
Definition carries (unmarshal_config : string → option GroupConfig) (gs : gmap string string) (ns name : string) (q : Queue) : Prop :=
  Name q = name ∧ q_Namespace q = ns ∧ cfg_wf (cfgIdx q) ∧
  ∀ k, GetGroupConfig k q = c ← gs !! k; decode_config unmarshal_config k c.

(** What is registered after a start, for each queue of the store. *)
Lemma restored_registered unmarshal_config durable s ns name :
  store_ok s → names_ok s →
  let rt := restoreFromDB unmarshal_config s (new_runtime durable) in
  match declared_groups s ns name with
  | Some gs => ∃ q, registered rt (queueKey ns name) = Some q ∧ carries unmarshal_config gs ns name q ∧ ∀ k, GetGroup k q = None
  | None => registered rt (queueKey ns name) = None
  end.
Proof.
  intros Hs Hn rt. unfold rt. rewrite restoreFromDB_all.
  destruct (register_all_spec (restored unmarshal_config s <$> declared_queues s) (new_runtime durable)) as [_ Hreg];
    [by intros ? ? ?|by apply declared_keys|]. rewrite Hreg.
  destruct (declared_groups s ns name) as [gs|] eqn:E.
  - apply declared_groups_rows in E as (n & r & Hn' & Hr & ->).
    apply row_of_Some_2 in Hn' as [Hin <-]. apply row_of_Some_2 in Hr as [Hin' [= H1 <-]].
    rewrite find_declared by (done || by apply elem_of_declared). eexists. split; [done|].
    destruct (restored_queue_spec unmarshal_config s (ns_Name n) r Hs) as (H2 & H3 & H4 & H5 & H6). by split_and!.
  - destruct (List.find _ _) as [q|] eqn:Ef; [|done]. exfalso.
    apply find_some in Ef as [Hin Ek]. apply bool_decide_eq_true in Ek. apply list_elem_of_In in Hin.
    apply list_elem_of_fmap in Hin as ([n r] & -> & Hd). rewrite restored_key in Ek by done. cbn in Ek.
    apply elem_of_declared in Hd as (H1 & H2 & H3). apply queueKey_inj in Ek as [<- <-]; [|by eapply ns_slash|by eapply queue_slash].
    assert (declared_groups s (ns_Name n) (dq_Name r) = Some (groups_of s (dq_ID r))) as E'; [|congruence].
    apply declared_groups_rows. exists n, r. split; [by apply (row_of_Some _ ns_ID); [apply Hs|]|]. split; [|done].
    apply (row_of_Some _ dq_ID); [apply Hs|]. split; [done|]. unfold dq_key. congruence.
Qed.

(** C32. A restart restores what is declared: starting from the metadata store
    alone registers exactly the queues of the catalogue, each without messages
    and with the group configurations stored for it, exact keys and patterns
    alike. *)
Theorem restore_exact unmarshal_config durable s ns name :
  store_ok s → names_ok s →
  let rt := restoreFromDB unmarshal_config s (new_runtime durable) in
  match declared_groups s ns name with
  | Some gs => ∃ q, registered rt (queueKey ns name) = Some q ∧ carries unmarshal_config gs ns name q ∧ ∀ k, GetGroup k q = None
  | None => registered rt (queueKey ns name) = None
  end.
Proof. apply restored_registered. Qed.

(** A store with one queue and two overlapping patterns. *)
Definition pattern_config (n : Z) (key : string) : GroupConfig := cfg_set_Parallelism n (defaultGroupConfig key).
Definition sample_json (c : string) : option GroupConfig :=
  if bool_decide (c = "two") then Some (pattern_config 2 "") else if bool_decide (c = "three") then Some (pattern_config 3 "") else None.
Definition sample_store : Store :=
  (run_ops true [("t", OpCreateNamespace "main" "{}"); ("t", OpCreateQueue "main" "jobs" "{}");
     ("t", OpSetGroup "main" "jobs" "a*" "two"); ("t", OpSetGroup "main" "jobs" "*b" "three")] new_store).1.

Lemma sample_store_ok : store_ok sample_store ∧ names_ok sample_store.
Proof. split; [apply run_ops_ok, new_store_ok|apply run_ops_names, new_store_names]. Qed.

Lemma restore_exact_witness :
  ∃ q, registered (restoreFromDB sample_json sample_store (new_runtime true)) (queueKey "main" "jobs") = Some q ∧
    carries sample_json (<["a*" := "two"]> {["*b" := "three"]}) "main" "jobs" q ∧ ∀ k, GetGroup k q = None.
Proof.
  destruct sample_store_ok as [H1 H2]. pose proof (restore_exact sample_json true sample_store "main" "jobs" H1 H2) as H.
  replace (declared_groups sample_store "main" "jobs") with (Some (<["a*" := "two"]> {["*b" := "three"]} : gmap string string)) in H
    by by vm_compute. exact H.
Defined.

(** Patterns are consulted in the order of their declaration, but restored in
    the order of their text: here group "ab" is declared to follow "a*" and
    follows "*b" after a restart. *)
Example restart_reorders_patterns :
  let q := SetGroupConfig (pattern_config 3 "*b") (SetGroupConfig (pattern_config 2 "a*") (NewQueue "jobs" "main")) in
  Parallelism (resolveConfig "ab" q) = 2 ∧
  (Parallelism ∘ resolveConfig "ab" <$>
     registered (restoreFromDB sample_json sample_store (new_runtime true)) (queueKey "main" "jobs")) = Some 3.
Proof. by vm_compute. Qed.

(** ** What is not restored *)

Lemma register_state_closed ns name p w : wal_queues w = ∅ → RegisterQueueState ns name p w = w.
Proof. intros E. unfold RegisterQueueState, set_entry. rewrite E, lookup_empty. destruct w. cbn in *. by subst. Qed.

Lemma register_all_wal qs rt : wal_queues (rt_wal rt) = ∅ → rt_wal (register_all qs rt) = rt_wal rt.
Proof.
  unfold register_all. revert rt. induction qs as [|q qs IH]; intros rt E; [done|]. cbn [foldl].
  assert (rt_wal (registerQueueWithWAL (fresh_queue (rt_sched rt)) q rt) = rt_wal rt) as Hw by by apply register_state_closed.
  rewrite IH; by rewrite Hw.
Qed.

Definition provider_of (ns name : string) (w : WAL) : option nat := e ← wal_queues w !! wal_key ns name; we_provider e.

(** The registry of logs forgets across a restart: whatever durability was
    chosen for a queue it has the broker's default, and because logs are opened
    on first use, after the state providers are registered, the log of a
    restored queue has none. *)
Theorem restart_forgets_log_settings unmarshal_config durable s ns name :
  let w := rt_wal (restoreFromDB unmarshal_config s (new_runtime durable)) in
  QueueDurable ns name w = durable ∧
  provider_of ns name (getQueueWAL ns name w) = None ∧
  we_durable <$> wal_queues (getQueueWAL ns name w) !! wal_key ns name = Some durable.
Proof.
  intros w. unfold w. rewrite restoreFromDB_all, register_all_wal by done.
  unfold QueueDurable, provider_of, getQueueWAL. cbn. rewrite !lookup_empty. cbn. by rewrite lookup_insert_eq.
Qed.
