(* ===== verification/Checkpoint.v ===== *)
(** * Snapshots of a running queue

    saveSnapshot of src/internal/storage/writer.go with the removal of old
    segments of segment.go, on the directory of a queue, and what a recovery
    from that directory then sees. *)

From stdpp Require Import base gmap list strings.
From Stdlib Require Import ZArith Lia Strings.Byte.
From S2P Require Import Prelude Message Group Queue QueueInv WalRecord Wal Names Snapshot Recovery RecoveryInv RecoverySnap.
Local Open Scope Z_scope.
Local Open Scope list_scope.

(** How the file operations end: the file cannot be created, is cut short, is
    not synced, or all is well. *)
Inductive snap_io := NotCreated | CutShort (n : nat) | NotSynced | Saved.

(** [removeOldSegments]: every numbered file before the segment that precedes
    the snapshot goes. *)
Definition keep_from (snapSegID : Z) : Z := if 1 <? snapSegID then snapSegID - 1 else 0.
Definition kept_file (snapSegID : Z) (f : string * dir_entry) : Prop :=
  match f.2 with
  | Dir => True
  | File _ => match Sscanf_id "." f.1 with Some id => keep_from snapSegID ≤ id | None => True end
  end.
#[export] Instance kept_file_dec s f : Decision (kept_file s f).
Proof. unfold kept_file. destruct f.2; [|apply _]. destruct (Sscanf_id "." f.1); apply _. Defined.

Definition remove_old (snapSegID : Z) (d : directory) : directory := filter (kept_file snapSegID) d.

Section save.
Context (ordg : range_order GroupState) (ord : range_order Message).

(** The snapshot of a queue: [state] is what the provider returned, if the log
    has one. *)
Definition snapshot_of (now seq segID : Z) (state : option QueueState) : Snapshot :=
  mkSnapshot segID seq now (match state with Some st => convertQueueStateToSnapshot ordg ord st | None => [] end).

(** [saveSnapshot]: the directory afterwards and whether it returned without an
    error; [busy] when another snapshot is being written. *)
Definition saveSnapshot (busy : bool) (io : snap_io) (now seq segID : Z) (state : option QueueState) (d : directory)
    : directory * bool :=
  if busy then (d, true)
  else
    let snapPath := Sprintf_id ".snap" segID in
    let bytes := Write (snapshot_of now seq segID state) in
    match io with
    | NotCreated => (d, false)
    | CutShort n => (<[snapPath := File (take n bytes)]> d, false)
    | NotSynced => (<[snapPath := File bytes]> d, false)
    | Saved => (remove_old segID (<[snapPath := File bytes]> d), true)
    end.
End save.

(** [QueueWAL.LoadSnapshot] of reader.go: segment and sequence number of the
    latest snapshot, zero without one, nothing when it cannot be read. *)
Definition LoadSnapshot (d : directory) : option (Z * Z) :=
  let path := (FindLatestSnapshot d).1 in
  if bool_decide (path = "") then Some (0, 0)
  else (λ snap, (SegmentID snap, WALSeq snap)) <$> loadSnapshot d path.

(** ** The latest snapshot *)

#[export] Instance dir_entry_eq_dec : EqDecision dir_entry.
Proof. solve_decision. Defined.


Definition snap_entry (e : string * dir_entry) : option Z :=
  match e.2 with Dir => None | File _ => Sscanf_id ".snap" e.1 end.

Definition later (best : string * Z) (e : string * dir_entry) : string * Z :=
  match snap_entry e with Some seq => if best.2 <? seq then (e.1, seq) else best | None => best end.

Lemma FindLatestSnapshot_fold d : FindLatestSnapshot d = foldl later ("", 0) (ReadDir d).
Proof.
  unfold FindLatestSnapshot. apply foldl_pointwise. intros best [name [data|]]; [|done].
  unfold later, snap_entry. cbn. by destruct (Sscanf_id ".snap" name).
Qed.

Lemma later_below l best id : best.2 < id → (∀ e z, e ∈ l → snap_entry e = Some z → z < id) → (foldl later best l).2 < id.
Proof.
  revert best. induction l as [|e l IH]; intros best Hb Hl; [done|]. cbn. apply IH; [|set_solver].
  unfold later. destruct (snap_entry e) as [z|] eqn:E; [|done]. destruct (best.2 <? z); [|done]. cbn. eapply Hl; [left|done].
Qed.

Lemma later_stays l best : (∀ e z, e ∈ l → snap_entry e = Some z → z ≤ best.2) → foldl later best l = best.
Proof.
  induction l as [|e l IH]; intros Hl; [done|]. cbn.
  assert (later best e = best) as ->; [|apply IH; set_solver].
  unfold later. destruct (snap_entry e) as [z|] eqn:E; [|done].
  destruct (Z.ltb_spec best.2 z); [|done]. specialize (Hl e z ltac:(left) E). lia.
Qed.

Lemma elem_of_ReadDir d name e : (name, e) ∈ ReadDir d ↔ d !! name = Some e.
Proof.
  unfold ReadDir. rewrite list_elem_of_omap. split.
  - intros (n & _ & Hn). apply fmap_Some in Hn as (e' & Hn & [= -> ->]). done.
  - intros Hd. exists name. split; [|by apply fmap_Some; exists e]. rewrite sort_strings_perm, elem_of_elements. by apply elem_of_dom_2 in Hd.
Qed.

(** A snapshot numbered above all others is the one recovery takes. *)
Lemma latest_is d name id data :
  0 < id → d !! name = Some (File data) → Sscanf_id ".snap" name = Some id →
  (∀ name' e z, name' ≠ name → d !! name' = Some e → snap_entry (name', e) = Some z → z < id) →
  FindLatestSnapshot d = (name, id).
Proof.
  intros Hid Hd Hs Hothers. rewrite FindLatestSnapshot_fold.
  pose proof Hd as Hin. apply elem_of_ReadDir in Hin. apply list_elem_of_split_l in Hin as (l1 & l2 & Hl & Hl1).
  assert (∀ name' e z, (name', e) ∈ ReadDir d → snap_entry (name', e) = Some z →
    (name', e) = (name, File data) ∨ z < id) as Hcmp.
  { intros name' e z He Hz. apply elem_of_ReadDir in He. destruct (decide (name' = name)) as [->|Hne]; [left; congruence|].
    right. by eapply Hothers. }
  assert (snap_entry (name, File data) = Some id) as Hsn by done.
  rewrite Hl, foldl_app. cbn [foldl].
  assert ((foldl later ("", 0) l1).2 < id) as Hb.
  { apply later_below; [done|]. intros [name' e] z He Hz.
    destruct (Hcmp name' e z) as [E|]; [rewrite Hl; set_solver|done| |done]. by rewrite E in He. }
  assert (later (foldl later ("", 0) l1) (name, File data) = (name, id)) as ->.
  { unfold later at 1. rewrite Hsn. by rewrite (proj2 (Z.ltb_lt _ _) Hb). }
  apply later_stays. intros [name' e] z He Hz. cbn [snd].
  destruct (Hcmp name' e z) as [E|]; [rewrite Hl; set_solver|done| |lia]. rewrite E, Hsn in Hz. injection Hz. lia.
Qed.

(** ** Recovery from a saved snapshot *)

(** The snapshots of a directory are named by their segment, none later than
    the current one. *)
Definition snaps_upto (segID : Z) (d : directory) : Prop :=
  ∀ name e z, d !! name = Some e → snap_entry (name, e) = Some z →
    name = Sprintf_id ".snap" z ∧ z ≤ segID.

Section checkpoint.
Context (ordg : range_order GroupState) (ord : range_order Message).
Context (d : directory) (segs : list stored_segment) (now seq segID : Z) (state : option QueueState).
Local Abbreviation snap := (snapshot_of ordg ord now seq segID state).
Context (Hsegs : holds_segments d ((λ s, (ss_id s, stored_bytes s)) <$> segs)) (Hstored : Forall stored_ok segs).
Context (Hsnaps : snaps_upto segID d) (Hid : 1 ≤ segID < 10 ^ 9) (Hok : snapshot_ok snap).
Local Abbreviation path := (Sprintf_id ".snap" segID).
Local Abbreviation d' := (saveSnapshot ordg ord false Saved now seq segID state d).1.

Lemma lookup_saved name :
  d' !! name =
    e ← (<[path := File (Write snap)]> d) !! name;
    if decide (kept_file segID (name, e)) then Some e else None.
Proof.
  cbn. unfold remove_old. rewrite map_lookup_filter. destruct (_ !! name) as [e|]; [|done]. cbn.
  unfold guard. by destruct (decide (kept_file segID (name, e))).
Qed.

Lemma keep_from_le : keep_from segID ≤ segID.
Proof. unfold keep_from. destruct (Z.ltb_spec 1 segID); lia. Qed.

Lemma scan_path ext : Sscanf_id ext path = if String.prefix ext ".snap" then Some segID else None.
Proof. apply Sscanf_Sprintf_ext; [lia|done]. Qed.

Lemma lookup_path : d' !! path = Some (File (Write snap)).
Proof.
  rewrite lookup_saved, lookup_insert_eq. cbn. rewrite decide_True; [done|].
  unfold kept_file. cbn [fst snd]. rewrite scan_path. cbn. apply keep_from_le.
Qed.

Lemma saved_latest : FindLatestSnapshot d' = (path, segID).
Proof.
  apply latest_is with (data := Write snap); [lia|apply lookup_path|by rewrite scan_path|].
  intros name e z Hne Hl Hz. rewrite lookup_saved, lookup_insert_ne in Hl by done.
  destruct (d !! name) as [e'|] eqn:E; [|done]. cbn in Hl.
  destruct (decide _); [|done]. injection Hl as ->. destruct (Hsnaps name e z E Hz) as [-> Hle].
  assert (z ≠ segID) by (intros ->; done). lia.
Qed.

Lemma saved_info ns queue : discover_queue ns queue d' = mkInfo ns queue path seq segID.
Proof.
  unfold discover_queue. rewrite saved_latest.
  rewrite bool_decide_eq_false_2 by (intros E; pose proof (scan_path ".snap") as Hs; by rewrite E in Hs).
  unfold loadSnapshot, file_data. rewrite lookup_path.
  pose proof (Read_ok snap Hok []) as Hr. rewrite app_nil_r in Hr. by rewrite Hr.
Qed.

Lemma fst_stored l : ((λ s, (ss_id s, stored_bytes s)) <$> l).*1 = ss_id <$> l.
Proof. by rewrite <-list_fmap_compose. Qed.

Lemma saved_segments : holds_segments d' ((λ s, (ss_id s, stored_bytes s)) <$> filter (λ s, keep_from segID ≤ ss_id s) segs).
Proof.
  destruct Hsegs as [H1 H2 H3 H4]. rewrite fst_stored in H1, H2.
  assert (∀ s, s ∈ segs → 0 ≤ ss_id s < 10 ^ 9) as Hr.
  { intros s Hs. rewrite Forall_fmap, Forall_forall in H2. by apply H2. }
  assert (∀ s, s ∈ segs → Sprintf_id ".log" (ss_id s) ≠ path) as Hne.
  { intros s Hs E. pose proof (scan_path ".log") as Hp. rewrite <-E, Sscanf_Sprintf_ext in Hp; [done|pose proof (Hr s Hs); lia|done]. }
  split; rewrite ?fst_stored.
  - clear -H1. induction segs as [|s l IH]; [constructor|]. cbn in H1. inversion_clear H1 as [|? ? Hs Hall].
    rewrite filter_cons. destruct (decide _); [|auto]. cbn. constructor; [auto|].
    rewrite Forall_fmap, Forall_forall in *. intros x Hx. apply list_elem_of_filter in Hx as [_ Hx]. by apply Hall.
  - rewrite Forall_fmap, Forall_forall in *. intros s Hs. apply list_elem_of_filter in Hs as [_ Hs]. by apply H2.
  - intros id data (s & [= -> ->] & Hs)%list_elem_of_fmap. apply list_elem_of_filter in Hs as [Hk Hs].
    rewrite lookup_saved, lookup_insert_ne by (symmetry; by apply Hne). rewrite (H3 (ss_id s) (stored_bytes s)).
    2: { by apply (list_elem_of_fmap_2 (λ s, (ss_id s, stored_bytes s))). }
    cbn. rewrite decide_True; [done|]. unfold kept_file. cbn [fst snd].
    by rewrite Sscanf_Sprintf_ext by (done || pose proof (Hr s Hs); lia).
  - intros name [e He] Hlog. rewrite lookup_saved in He. destruct (decide (name = path)) as [->|Hnp].
    { rewrite scan_path in Hlog. by destruct Hlog. }
    rewrite lookup_insert_ne in He by done. destruct (d !! name) as [e'|] eqn:E; [|done]. cbn in He.
    destruct (decide _) as [Hk|]; [|done]. specialize (H4 name ltac:(by rewrite E) Hlog).
    apply list_elem_of_fmap in H4 as (x & -> & (s & -> & Hs)%list_elem_of_fmap). cbn [fst] in *.
    rewrite <-list_fmap_compose. apply (list_elem_of_fmap_2 (λ s, Sprintf_id ".log" (ss_id s))). apply list_elem_of_filter. split; [|done].
    rewrite (H3 (ss_id s) (stored_bytes s)) in E by (by apply (list_elem_of_fmap_2 (λ s, (ss_id s, stored_bytes s)))).
    injection E as <-. unfold kept_file in Hk. cbn [fst snd] in Hk.
    by rewrite Sscanf_Sprintf_ext in Hk by (done || pose proof (Hr s Hs); lia).
Qed.

(** The log finds the snapshot again. *)
Lemma LoadSnapshot_saved : LoadSnapshot d' = Some (segID, seq).
Proof.
  unfold LoadSnapshot. rewrite saved_latest. cbn [fst].
  rewrite bool_decide_eq_false_2 by (intros E; pose proof (scan_path ".snap") as Hs; by rewrite E in Hs).
  unfold loadSnapshot, file_data. rewrite lookup_path.
  pose proof (Read_ok snap Hok []) as Hr. rewrite app_nil_r in Hr. by rewrite Hr.
Qed.

(** The recovery of the queue after the snapshot: its state, then the later
    events. *)
Lemma recover_saved clock ordr qn ns q :
  seq < 2 ^ 64 - 1 →
  recover_queue clock ordr qn ns d' q =
    foldl (λ st e, dispatch e (replay_handler (queueRecoveryHandler clock ordr qn ns)) st)
      (on_snapshot clock ordr qn ns snap (mkRstate q 0 false))
      (filter (λ e, seq < ev_Seq e) (concat (ss_events <$> filter (λ s, segID ≤ ss_id s) segs))).
Proof.
  intros Hseq. unfold recover_queue. rewrite saved_info.
  assert (0 ≤ seq) by apply (so_seq _ Hok).
  rewrite (replay_log_events d' _ _ _ (filter (λ s, keep_from segID ≤ ss_id s) segs)); [|apply saved_segments| |cbn; lia].
  2: { rewrite Forall_forall in *. intros s Hs. apply list_elem_of_filter in Hs as [_ Hs]. by apply Hstored. }
  cbn [SnapshotPath SnapshotSeq SnapshotSegID].
  assert (bool_decide (path = "") = false) as Hp.
  { apply bool_decide_eq_false. intros E. pose proof (scan_path ".snap") as Hs. by rewrite E in Hs. }
  rewrite Hp. unfold tryLoadSnapshot, loadSnapshot, file_data. rewrite lookup_path.
  pose proof (Read_ok snap Hok []) as Hr. rewrite app_nil_r in Hr. rewrite Hr. cbn [OnSnapshot queueRecoveryHandler].
  f_equal. f_equal. f_equal. f_equal. rewrite list_filter_filter. apply list_filter_iff. intros s.
  pose proof keep_from_le. apply bool_decide_eq_false in Hp. split; [|intros ?; split; [by right|lia]]. intros [[?|?] _]; [done|lia].
Qed.
End checkpoint.


Lemma import_nothing ordr (q : Queue) k : GetGroup k (ImportState ordr (mkQueueState "" "" ∅) q) = GetGroup k q.
Proof.
  unfold ImportState. cbn [qs_Groups]. assert (range_of ordr ∅ = []) as ->; [|done].
  apply Permutation_nil_r. rewrite range_perm. by rewrite map_to_list_empty.
Qed.

(** A snapshot of a log without a state provider empties the queue: it
    records no group but the sequence number of the last event, so a recovery
    skips every message logged until then. *)
Theorem unregistered_snapshot_empties ordg ord clock ordr qn ns d segs now seq segID name :
  holds_segments d ((λ s, (ss_id s, stored_bytes s)) <$> segs) → Forall stored_ok segs → snaps_upto segID d →
  1 ≤ segID < 10 ^ 9 → 0 ≤ seq < 2 ^ 64 - 1 → fits_s 64 now →
  Forall (λ s, Forall (λ e, ev_Seq e ≤ seq) (ss_events s)) segs →
  let d' := (saveSnapshot ordg ord false Saved now seq segID None d).1 in
  ∀ k, GetGroup k (rs_queue (recover_queue clock ordr qn ns d' (NewQueue name ns))) = None.
Proof.
  intros H1 H2 H3 H4 H5 H6 H7 d' k.
  assert (snapshot_ok (snapshot_of ordg ord now seq segID None)) as Hok by (split; cbn; try lia; [done|constructor]).
  unfold d'. rewrite (recover_saved ordg ord d segs now seq segID None) by (done || lia).
  rewrite filter_none.
  - change (GetGroup k (ImportState ordr (mkQueueState "" "" ∅) (NewQueue name ns)) = None).
    rewrite import_nothing. apply GetGroup_new.
  - apply Forall_forall. intros e He. apply elem_of_concat in He as (l & He & (s & -> & Hs)%list_elem_of_fmap).
    apply list_elem_of_filter in Hs as [_ Hs]. pose proof (proj1 (Forall_forall _ _) H7 s Hs) as Hle.
    pose proof (proj1 (Forall_forall _ _) Hle e He) as Hee. cbn in Hee. lia.
Qed.

(** *** Instances *)

Lemma visited_snaps : snaps_upto 2 Visited.d.
Proof.
  intros name e z. unfold Visited.d. intros [[<- <-]|[_ [<- <-]%lookup_singleton_Some]]%lookup_insert_Some; by vm_compute.
Qed.


Lemma unregistered_snapshot_empties_witness :
  group_tags "g" (rs_queue (recover_queue ticks list_order "jobs" "ns" Visited.d (NewQueue "jobs" "ns"))) = [("a", [x2a]); ("b", [x2b])] ∧
  let d' := (saveSnapshot list_order list_order false Saved 5 2 2 None Visited.d).1 in
  ∀ k, GetGroup k (rs_queue (recover_queue ticks list_order "jobs" "ns" d' (NewQueue "jobs" "ns"))) = None.
Proof.
  split; [by vm_compute|].
  apply (unregistered_snapshot_empties list_order list_order ticks list_order "jobs" "ns" Visited.d Visited.segs 5 2 2 "jobs"
    Visited.holds Visited.segs_ok visited_snaps); [lia|lia|by_eval|].
  repeat constructor; cbn; lia.
Defined.

(** The file is written in place: a snapshot of the same segment that is cut
    short destroys the one recovery could have used. *)
Example interrupted_snapshot_destroys_previous :
  let st := ExportState (NewQueue "jobs" "ns") in
  let d1 := (saveSnapshot list_order list_order false Saved 5 1 2 (Some st) Visited.d).1 in
  let d2 := (saveSnapshot list_order list_order false (CutShort 20) 6 2 2 (Some st) d1).1 in
  (FindLatestSnapshot d1).1 = "000000002.snap" ∧ is_Some (loadSnapshot d1 "000000002.snap") ∧ loadSnapshot d2 "000000002.snap" = None.
Proof. vm_compute. split_and!; [done|by eexists|done]. Qed.
