(* ===== verification/SnapRace.v ===== *)
(** * Snapshots taken while messages are published

    [saveSnapshot] of src/internal/storage/writer.go copies the sequence number
    and the segment under the lock of the log, then asks the queue for its state,
    while [onPublish] of src/internal/broker/handlers.go writes a publication to
    the log first and puts the message into the queue afterwards.  The publishers
    of one queue, the writer of its log and the snapshot are a step relation;
    recovery is that of [Recovery.v] from the files they leave. *)

From stdpp Require Import base gmap list strings.
From Stdlib Require Import ZArith Lia Strings.Byte.
From S2P Require Import Prelude Scheduler Startup Heap Message Group GroupInv ConfigIdx Queue QueueInv QueueHist QueueSnap WalRecord Wal Names Snapshot Recovery RecoveryInv RecoverySnap BrokerCrash Checkpoint.
Local Open Scope Z_scope.
Local Open Scope list_scope.

(** What a snapshot has taken: the sequence number and the segment at the time
    of the first step, the queue at the time of the second and the publications
    that stood between the log and the queue then. *)
Record checkpoint := mkCheckpoint { ck_seq : Z; ck_seg : Z; ck_mem : Queue; ck_gap : list Event }.

Inductive progress := NoSnapshot | Captured (seq segID : Z) | Exported (c : checkpoint).

Record system := mkSystem {
  y_closed : list (Z * list Event);   (** rotated segments *)
  y_seg : Z; y_events : list Event;   (** the current segment *)
  y_entering : list Event;            (** AppendSync has returned, PublishWithID is to come *)
  y_told : list string;               (** answered with PublishOK *)
  y_queue : Queue;
  y_snap : progress;
  y_saved : option checkpoint;        (** the latest snapshot file *)
}.

Definition written (y : system) : list Event := concat y.(y_closed).*2 ++ y_events y.
Definition segments (y : system) : list (Z * list Event) := y_closed y ++ [(y_seg y, y_events y)].
Definition y_seq (y : system) : Z := Z.of_nat (length (written y)).

Definition set_snap (p : progress) (y : system) : system :=
  mkSystem (y_closed y) (y_seg y) (y_events y) (y_entering y) (y_told y) (y_queue y) p (y_saved y).
Definition set_queue (q : Queue) (y : system) : system :=
  mkSystem (y_closed y) (y_seg y) (y_events y) (y_entering y) (y_told y) q (y_snap y) (y_saved y).

(** The writer writes a publication; [wait] tells whether its publisher is still
    there and is told of success. *)
Definition log_publish (e : Event) (wait : bool) (y : system) : system :=
  mkSystem (y_closed y) (y_seg y) (y_events y ++ [e]) (if wait then e :: y_entering y else y_entering y)
    (y_told y) (y_queue y) (y_snap y) (y_saved y).
Definition rotate (y : system) : system :=
  mkSystem (y_closed y ++ [(y_seg y, y_events y)]) (y_seg y + 1) [] (y_entering y) (y_told y) (y_queue y) (y_snap y) (y_saved y).

(** The rest of [onPublish]. *)
Definition enter (now : Z) (e : Event) (rest : list Event) (y : system) : system :=
  let '(q, r) := PublishWithID "" now (ev_Group e) (ev_MsgID e) (ev_Payload e) (y_queue y) in
  mkSystem (y_closed y) (y_seg y) (y_events y) rest
    (match r with inl msg => ID msg :: y_told y | inr _ => y_told y end) q (y_snap y) (y_saved y).

(** The two steps of [saveSnapshot] that look at the log and at the queue, and
    its end. *)
Definition capture (y : system) : system := set_snap (Captured (y_seq y) (y_seg y)) y.
Definition export (seq segID : Z) (y : system) : system :=
  set_snap (Exported (mkCheckpoint seq segID (y_queue y) (y_entering y))) y.
Definition save (c : checkpoint) (y : system) : system :=
  mkSystem (y_closed y) (y_seg y) (y_events y) (y_entering y) (y_told y) (y_queue y) NoSnapshot (Some c).

Inductive race (y : system) : system → Prop :=
| ra_log e wait :
    ev_Type e = EventPublish → ev_Seq e = y_seq y + 1 → ev_MsgID e ∉ ev_MsgID <$> written y → race y (log_publish e wait y)
| ra_rotate : race y (rotate y)
| ra_enter now e l1 l2 : y_entering y = l1 ++ e :: l2 → race y (enter now e (l1 ++ l2) y)
| ra_queue op k : silent op → race y (set_queue (run_op op k (y_queue y)).1 y)
| ra_capture : y_snap y = NoSnapshot → race y (capture y)
| ra_export seq segID : y_snap y = Captured seq segID → race y (export seq segID y)
| ra_save c : y_snap y = Exported c → race y (save c y)
| ra_fail c : y_snap y = Exported c → race y (set_snap NoSnapshot y).

Definition idle (segID : Z) (q : Queue) : system := mkSystem [] segID [] [] [] q NoSnapshot None.

(** ** The invariant *)

(** A snapshot that began when [seq] events were written, in segment [segID]. *)
Record passed (y : system) (seq segID : Z) : Prop := {
  pa_seq : 0 ≤ seq ≤ y_seq y;
  pa_seg : segID ≤ y_seg y;
  pa_old : ∀ i l e, (i, l) ∈ y_closed y → i < segID → e ∈ l → ev_Seq e ≤ seq;
}.

Record taken (y : system) (c : checkpoint) : Prop := {
  ta_passed : passed y (ck_seq c) (ck_seg c);
  ta_wf : queue_wf (ck_mem c);
  ta_told : ∀ e, e ∈ written y → ev_MsgID e ∈ y_told y →
    ev_MsgID e ∈ ids_in (ev_Group e) (ck_mem c) ∨ e ∈ ck_gap c ∨ ck_seq c < ev_Seq e;
  ta_entering : ∀ e, e ∈ y_entering y → e ∈ ck_gap c ∨ ck_seq c < ev_Seq e;
}.

Definition snap_ok (y : system) : Prop :=
  match y_snap y with NoSnapshot => True | Captured seq segID => passed y seq segID | Exported c => taken y c end.

(** The publications and the queue. *)
Record flow_ok (y : system) : Prop := {
  fl_wf : queue_wf (y_queue y);
  fl_type : Forall is_publish (written y);
  fl_seqs : ∀ i e, written y !! i = Some e → ev_Seq e = Z.of_nat i + 1;
  fl_nodup : NoDup (ev_MsgID <$> written y);
  fl_entering : ∀ e, e ∈ y_entering y → e ∈ written y;
  fl_once : NoDup (ev_MsgID <$> y_entering y);
  fl_fresh : ∀ e k, e ∈ y_entering y → ev_MsgID e ∉ ids_in k (y_queue y);
  fl_mem : ∀ k x, x ∈ ids_in k (y_queue y) → x ∈ ev_MsgID <$> written y;
  fl_logged : ∀ x, x ∈ y_told y → x ∈ ev_MsgID <$> written y;
  fl_told : ∀ e, e ∈ written y → ev_MsgID e ∈ y_told y → ev_MsgID e ∈ ids_in (ev_Group e) (y_queue y);
}.

Record race_ok (y : system) : Prop := {
  ro_flow : flow_ok y;
  ro_snap : snap_ok y;
  ro_saved : ∀ c, y_saved y = Some c → taken y c;
}.

Lemma written_log e w y : written (log_publish e w y) = written y ++ [e].
Proof. unfold written. cbn. by rewrite app_assoc. Qed.
Lemma written_rotate y : written (rotate y) = written y.
Proof. unfold written. cbn. rewrite fmap_app, concat_app. cbn. by rewrite !app_nil_r. Qed.

Lemma seq_bound y e : flow_ok y → e ∈ written y → 1 ≤ ev_Seq e ≤ y_seq y.
Proof.
  intros Hf [i Hi]%list_elem_of_lookup. rewrite (fl_seqs y Hf i e Hi). apply lookup_lt_Some in Hi. unfold y_seq. lia.
Qed.

Lemma same_event y e e' : flow_ok y → e ∈ written y → e' ∈ written y → ev_MsgID e = ev_MsgID e' → e = e'.
Proof.
  intros Hf [i Hi]%list_elem_of_lookup [j Hj]%list_elem_of_lookup E.
  assert (i = j) as ->; [|congruence]. eapply NoDup_lookup; [apply (fl_nodup y Hf)| |]; rewrite list_lookup_fmap.
  - by rewrite Hi.
  - rewrite Hj. cbn. by rewrite E.
Qed.

Lemma closed_written y i l e : (i, l) ∈ y_closed y → e ∈ l → e ∈ written y.
Proof.
  intros Hl He. unfold written. apply elem_of_app. left. apply elem_of_concat. exists l. split; [done|].
  apply list_elem_of_fmap. by exists (i, l).
Qed.

(** A step that leaves log and answers alone and takes no publisher back. *)
Lemma taken_keep y y' c :
  y_closed y' = y_closed y → y_seg y' = y_seg y → y_events y' = y_events y → y_told y' = y_told y →
  (∀ e, e ∈ y_entering y' → e ∈ y_entering y) → taken y c → taken y' c.
Proof.
  intros E1 E2 E3 E4 He [[H1 H2 H3] H4 H5 H6].
  assert (written y' = written y) as Hw by (unfold written; by rewrite E1, E3).
  split; [split|done| |]; unfold y_seq; rewrite ?Hw, ?E1, ?E2, ?E4; auto.
Qed.

Lemma passed_keep y y' seq segID :
  y_closed y' = y_closed y → y_seg y' = y_seg y → y_events y' = y_events y → passed y seq segID → passed y' seq segID.
Proof.
  intros E1 E2 E3 [H1 H2 H3].
  assert (written y' = written y) as Hw by (unfold written; by rewrite E1, E3). split; unfold y_seq; rewrite ?Hw, ?E1, ?E2; done.
Qed.

(** Every snapshot of the system keeps what a step keeps. *)
Lemma snaps_keep y y' :
  y_snap y' = y_snap y → y_saved y' = y_saved y →
  (∀ seq segID, passed y seq segID → passed y' seq segID) → (∀ c, taken y c → taken y' c) →
  flow_ok y' → race_ok y → race_ok y'.
Proof.
  intros E1 E2 Hp Ht Hf [_ Hs Hv]. split; [done| |].
  - unfold snap_ok in *. rewrite E1. destruct (y_snap y); auto.
  - intros c. rewrite E2. auto.
Qed.

(** ** Every step keeps it *)

Lemma log_flow e w y :
  ev_Type e = EventPublish → ev_Seq e = y_seq y + 1 → ev_MsgID e ∉ ev_MsgID <$> written y →
  flow_ok y → flow_ok (log_publish e w y).
Proof.
  intros Ht Hs Hni [H1 H2 H3 H4 H5 H6 H7 H8 H9 H10].
  assert (∀ e', e' ∈ y_entering (log_publish e w y) → e' = e ∨ e' ∈ y_entering y) as Hen.
  { cbn. destruct w; [by intros e' [?|?]%elem_of_cons; auto|by auto]. }
  split; rewrite ?written_log; try done.
  - apply Forall_app. split; [done|]. by constructor.
  - intros i e' [Hi|[Hi Hl]]%lookup_app_Some; [by apply H3|].
    apply list_lookup_singleton_Some in Hl as [Hl <-]. rewrite Hs. unfold y_seq. lia.
  - rewrite fmap_app. apply NoDup_app. split_and!; [done| |apply NoDup_singleton]. intros x Hx ->%list_elem_of_singleton. done.
  - intros e' [->|He]%Hen; apply elem_of_app; [right; by apply list_elem_of_singleton|left; auto].
  - cbn. destruct w; [|done]. cbn. apply NoDup_cons. split; [|done].
    intros (e' & He & Hin)%list_elem_of_fmap. apply Hni. rewrite He. apply list_elem_of_fmap_2. auto.
  - intros e' k [->|He]%Hen; [|by apply H7]. intros Hin. by apply Hni, (H8 k).
  - intros k x Hx. rewrite fmap_app. apply elem_of_app. left. by apply (H8 k).
  - intros x Hx. rewrite fmap_app. apply elem_of_app. left. by apply H9.
  - intros e' [He| ->%list_elem_of_singleton]%elem_of_app Hto; [by apply H10|]. by apply H9 in Hto.
Qed.

Lemma log_taken e w y c :
  ev_Seq e = y_seq y + 1 → ev_MsgID e ∉ ev_MsgID <$> written y → flow_ok y → taken y c → taken (log_publish e w y) c.
Proof.
  intros Hs Hni Hf [[H1 H2 H3] H4 H5 H6].
  split; [split|done| |]; unfold y_seq in *; rewrite ?written_log, ?length_app; cbn [length]; try done; [lia| |].
  - intros e' [He| ->%list_elem_of_singleton]%elem_of_app Hto; [by apply H5|]. right. right. lia.
  - cbn. destruct w; [|done]. intros e' [->|He]%elem_of_cons; [right; lia|auto].
Qed.

Lemma log_passed e w y seq segID : passed y seq segID → passed (log_publish e w y) seq segID.
Proof. intros [H1 H2 H3]. split; [|done|done]. unfold y_seq in *. rewrite written_log, length_app. cbn. lia. Qed.

Lemma rotate_flow y : flow_ok y → flow_ok (rotate y).
Proof. intros []. split; by rewrite ?written_rotate. Qed.

Lemma rotate_passed y seq segID : passed y seq segID → passed (rotate y) seq segID.
Proof.
  intros [H1 H2 H3]. split; [unfold y_seq in *; by rewrite written_rotate|cbn; lia|]. cbn.
  intros i l e [Hi|[= -> ->]%list_elem_of_singleton]%elem_of_app Hlt He; [by eapply H3|lia].
Qed.

Lemma rotate_taken y c : taken y c → taken (rotate y) c.
Proof. intros [H1 H2 H3 H4]. split; [by apply rotate_passed|done| |done]. by rewrite written_rotate. Qed.

Lemma queue_flow q y : same_ids (y_queue y) q → flow_ok y → flow_ok (set_queue q y).
Proof.
  intros [Hw Hi] [H1 H2 H3 H4 H5 H6 H7 H8 H9 H10]. change (written (set_queue q y)) with (written y) in *.
  split; try done; cbn [y_queue set_queue y_entering y_told]; intros *; rewrite ?Hi; eauto.
Qed.

(** The publisher's message is in the queue, or refused and the queue as before. *)
Lemma enter_effect now e q :
  queue_wf q → (∀ k, ev_MsgID e ∉ ids_in k q) →
  let r := PublishWithID "" now (ev_Group e) (ev_MsgID e) (ev_Payload e) q in
  (r.1 = q ∧ ∃ err, r.2 = inr err) ∨
  ((∃ m, r.2 = inl m ∧ ID m = ev_MsgID e) ∧ queue_wf r.1 ∧
   ∀ k, ids_in k r.1 ≡ₚ (if decide (ev_Group e = k) then [ev_MsgID e] else []) ++ ids_in k q).
Proof.
  intros Hw Hni r. destruct (depth_exceeded (group_or_new (ev_Group e) q)) eqn:Hd.
  - left. unfold r, PublishWithID. rewrite publish_full by done. eauto.
  - right. by apply publish_ids.
Qed.

Lemma enter_flow now e l1 l2 y :
  y_entering y = l1 ++ e :: l2 → flow_ok y → flow_ok (enter now e (l1 ++ l2) y).
Proof.
  intros He [H1 H2 H3 H4 H5 H6 H7 H8 H9 H10].
  assert (e ∈ y_entering y) as Hin by (rewrite He; set_solver).
  assert (∀ e', e' ∈ l1 ++ l2 → e' ∈ y_entering y) as Hsub by (intros e'; rewrite He; set_solver).
  assert (NoDup (ev_MsgID <$> l1 ++ l2) ∧ ev_MsgID e ∉ ev_MsgID <$> l1 ++ l2) as [Hnd Hne].
  { rewrite He in H6. rewrite <-Permutation_middle in H6. cbn in H6. apply NoDup_cons in H6. tauto. }
  unfold enter. destruct (enter_effect now e (y_queue y) H1 (λ k, H7 e k Hin)) as [[Hq [err Hr]]|((m & Hr & Hm) & Hw & Hids)];
    destruct (PublishWithID _ _ _ _ _ _) as [q r]; cbn [fst snd] in *; subst r.
  - subst q. split; unfold written in *; cbn; auto.
  - split; unfold written in *; cbn; auto.
    + intros e' k He' Hk. rewrite Hids in Hk. apply elem_of_app in Hk as [Hk|Hk]; [|by apply (H7 e' k (Hsub e' He'))].
      destruct (decide _); [|by apply elem_of_nil in Hk]. apply list_elem_of_singleton in Hk. apply Hne. rewrite <-Hk. by apply list_elem_of_fmap_2.
    + intros k x Hx. rewrite Hids in Hx. apply elem_of_app in Hx as [Hx|Hx]; [|by apply (H8 k)].
      destruct (decide _); [|by apply elem_of_nil in Hx]. apply list_elem_of_singleton in Hx as ->. apply list_elem_of_fmap_2. auto.
    + intros x [->|Hx]%elem_of_cons; [|auto]. rewrite Hm. apply list_elem_of_fmap_2. auto.
    + intros e' He' Hto. rewrite Hids. apply elem_of_app. apply elem_of_cons in Hto as [Hto|Hto]; [left|right; auto].
      rewrite Hm in Hto. assert (e' = e) as ->; [|rewrite decide_True by done; by apply list_elem_of_singleton].
      apply (same_event y); auto. by split.
Qed.

Lemma enter_taken now e l1 l2 y c :
  y_entering y = l1 ++ e :: l2 → flow_ok y → taken y c → taken (enter now e (l1 ++ l2) y) c.
Proof.
  intros He Hf [H1 H2 H3 H4]. assert (e ∈ y_entering y) as Hin by (rewrite He; set_solver).
  unfold enter. pose proof (enter_effect now e (y_queue y) (fl_wf y Hf) (λ k, fl_fresh y Hf e k Hin)) as Heff.
  destruct (PublishWithID _ _ _ _ _ _) as [q r]; cbn [fst snd] in *.
  split; [by destruct H1|done| |].
  - unfold written in *. cbn. intros e' He' Hto. destruct r as [m|err]; [|by apply H3].
    apply elem_of_cons in Hto as [Hto|Hto]; [|by apply H3]. right.
    destruct Heff as [[_ [? [=]]]|((m' & [= <-] & Hm) & _)]. rewrite Hm in Hto.
    assert (e' = e) as ->; [|by apply H4]. apply (same_event y); auto. by apply (fl_entering y Hf).
  - cbn. intros e' He'. apply H4. rewrite He. set_solver.
Qed.

Lemma race_keeps y y' : race y y' → race_ok y → race_ok y'.
Proof.
  intros Hst Hok. pose proof Hok as [Hf Hs Hv]. destruct Hst as [e w Ht Hseq Hni| |now e l1 l2 He|op k Hop|Hn|seq segID Hc|c Hc|c Hc].
  - apply (snaps_keep y); try done; [intros; by apply log_passed|intros; by apply log_taken|by apply log_flow].
  - apply (snaps_keep y); try done; [intros; by apply rotate_passed|intros; by apply rotate_taken|by apply rotate_flow].
  - apply (snaps_keep y); try done;
      [unfold enter; by destruct (PublishWithID _ _ _ _ _ _)..| | |by apply enter_flow].
    + intros. unfold enter. destruct (PublishWithID _ _ _ _ _ _). by apply (passed_keep y).
    + intros. by apply enter_taken.
  - apply (snaps_keep y); try done; [intros; by apply (passed_keep y)|intros; by apply (taken_keep y)|].
    apply queue_flow; [|done]. apply op_same_ids; [done|apply Hf].
  - split; [by destruct Hf| |intros c Hc; apply (taken_keep y); try done; by apply Hv].
    unfold snap_ok. cbn. split; [unfold y_seq; change (written (capture y)) with (written y); lia|done|].
    cbn. intros i l e Hl _ He. apply (seq_bound y e Hf). by eapply closed_written.
  - unfold snap_ok in Hs. rewrite Hc in Hs.
    split; [by destruct Hf| |intros c Hc'; apply (taken_keep y); try done; by apply Hv].
    unfold snap_ok. cbn. split; [by destruct Hs|apply Hf| |]; cbn [ck_mem ck_gap export set_snap y_entering y_told].
    + intros e He Hto. left. by apply (fl_told y Hf).
    + auto.
  - unfold snap_ok in Hs. rewrite Hc in Hs. split; [by destruct Hf|done|].
    intros c' [= <-]. by apply (taken_keep y).
  - split; [by destruct Hf|done|]. intros c' Hc'. apply (taken_keep y); try done; by apply Hv.
Qed.

Lemma idle_ok segID q : queue_wf q → (∀ k, GetGroup k q = None) → race_ok (idle segID q).
Proof.
  intros Hw Hn. split; [|done|done].
  split; cbn; try (by constructor); try (intros ? ?%elem_of_nil; done); try done.
  - intros ? ? ?%elem_of_nil. done.
  - intros k x. unfold ids_in. rewrite Hn. by intros ?%elem_of_nil.
Qed.

Lemma race_reach segID q y :
  queue_wf q → (∀ k, GetGroup k q = None) → rtc race (idle segID q) y → race_ok y.
Proof.
  intros Hw Hn H. pose proof (idle_ok segID q Hw Hn) as Hok. induction H as [|y1 y2 y3 Hst _ IH]; [done|].
  apply IH. by eapply race_keeps.
Qed.

(** ** Replaying publications, also of messages the queue already has *)

Record filling (n : nat) (q : Queue) (L : string → list string) : Prop := {
  fi_shards : shards_wf q;
  fi_groups : ∀ k g, GetGroup k q = Some g → (readyHead g ≤ length (ready g))%nat ∧ room (MaxPending (cfg g)) n (pendingCount g);
  fi_depth : ∀ k, room (MaxPending (resolveConfig k q)) n 0;
  fi_ids : ∀ k, ids_in k q ≡ₚ L k;
}.

Lemma publish_filling n now e q L :
  filling (S n) q L →
  filling n (PublishWithID "" now (ev_Group e) (ev_MsgID e) (ev_Payload e) q).1
    (λ k, L k ++ (if decide (ev_Group e = k) then [ev_MsgID e] else [])).
Proof.
  intros [Hw Hg Hd Hi]. set (k := ev_Group e).
  assert ((readyHead (group_or_new k q) ≤ length (ready (group_or_new k q)))%nat ∧
          room (MaxPending (cfg (group_or_new k q))) (S n) (pendingCount (group_or_new k q))) as [Hh Hr].
  { unfold group_or_new. destruct (GetGroup k q) as [g|] eqn:E; [by apply (Hg k)|]. split; [done|apply Hd]. }
  assert (depth_exceeded (group_or_new k q) = false) as Hdep.
  { unfold depth_exceeded. apply andb_false_iff. rewrite Z.ltb_ge, Z.leb_gt. destruct Hr; [by left|right; lia]. }
  unfold PublishWithID, publish. rewrite Hdep. set (m := set_ID _ _). set (g' := enqueue m (group_or_new k q)).
  assert (filling n (put_group k g' q) (λ k', L k' ++ (if decide (k = k') then [ev_MsgID e] else []))) as [F1 F2 F3 F4].
  { split; [by apply put_group_wf| | |].
    - intros k' g0. rewrite GetGroup_put by done. case_decide as Hk; [intros [= <-]|intros H; split; [by apply (Hg k')|by apply room_less, (Hg k')]].
      unfold g', enqueue. unfold room, pendingCount in *. cbn. rewrite !length_app. cbn. lia.
    - intros k'. apply room_less. by rewrite (resolveConfig_cfgIdx k' q).
    - intros k'. rewrite ids_in_put by done. rewrite <-(Hi k'). case_decide as Hk; [subst k'|].
      + rewrite decide_True by done. unfold g'. rewrite enqueue_ids by done. rewrite group_or_new_ids. apply Permutation_cons_append.
      + rewrite decide_False by done. by rewrite app_nil_r. }
  destruct (GetGroup k q); cbn [fst]; split; try done. by destruct F1.
Qed.

Section replayed.
Context (clock : nat → Z) (ordg : range_order GroupState) (qn ns : string).

Lemma replay_publications log s L :
  Forall is_publish log → rs_panicked s = false → filling (length log) (rs_queue s) L →
  let s' := replay_events clock ordg qn ns log s in
  rs_panicked s' = false ∧
  ∀ k, ids_in k (rs_queue s') ≡ₚ L k ++ (ev_MsgID <$> filter (λ e, ev_Group e = k) log).
Proof.
  revert s L. induction log as [|e log IH]; intros s L Ht Hp Hf.
  { split; [done|]. intros k. rewrite (fi_ids _ _ _ Hf k). by rewrite app_nil_r. }
  apply Forall_cons in Ht as [He Ht]. cbn [replay_events foldl] in *.
  change (foldl _ ?s0 log) with (replay_events clock ordg qn ns log s0).
  destruct (IH (dispatch e (replay_handler (queueRecoveryHandler clock ordg qn ns)) s)
    (λ k, L k ++ (if decide (ev_Group e = k) then [ev_MsgID e] else []))) as [H1 H2]; [done| | |].
  1,2: unfold dispatch; rewrite He; cbn -[on_publish]; unfold on_publish, on_event; rewrite Hp.
  { done. }
  { by apply publish_filling. }
  split; [exact H1|]. intros k. rewrite H2, filter_cons, <-app_assoc. by destruct (decide (ev_Group e = k)).
Qed.
End replayed.

(** ** Recovery *)

Lemma import_groups_shards l q :
  shards_wf q → let q' := foldl (λ q gs, import_group gs q) q l in shards_wf q' ∧ cfgIdx q' = cfgIdx q.
Proof.
  revert q. induction l as [|gs l IH]; intros q Hw; [done|]. cbn.
  destruct (IH (import_group gs q)) as [H1 H2]; [by apply put_group_wf|]. done.
Qed.

Lemma imported_pending gs q : pendingCount (imported gs q) ≤ Z.of_nat (length (state_msgs gs)).
Proof.
  unfold pendingCount, imported, state_msgs. cbn -[Init]. rewrite !length_fmap, !length_app.
  rewrite (Permutation_length (Init_perm delayed_less (gs_DelayedMsgs gs))). lia.
Qed.

Lemma import_filling n q q0 ordg ordg' ord qn ns now seg seq ts :
  queue_wf q → queue_wf q0 → (∀ k, GetGroup k q0 = None) →
  (∀ k, room (MaxPending (resolveConfig k q0)) n (Z.of_nat (length (ids_in k q)))) →
  filling n (ImportState ordg' (queue_state_of qn ns now (mkSnapshot seg seq ts (convertQueueStateToSnapshot ordg ord (ExportState q)))) q0)
    (λ k, ids_in k q).
Proof.
  intros Hq Hq0 Hnone Hroom. set (st := queue_state_of _ _ _ _).
  destruct (import_groups_shards ((range_of ordg' (qs_Groups st)).*2) q0 (qw_shards q0 Hq0)) as [Hs Hc].
  assert (∀ k g', GetGroup k (ImportState ordg' st q0) = Some g' →
    ∃ g gs, GetGroup k q = Some g ∧ g' = imported gs q0 ∧ gs_Key gs = k ∧ state_msgs gs ≡ₚ restored qn ns k <$> group_msgs g) as Hgr.
  { intros k g' Hg'. pose proof (import_snapshot q Hq ordg ordg' ord qn ns now seg seq ts q0 Hq0 Hnone k) as Hk. cbn zeta in Hk. fold st in Hk.
    destruct (GetGroup k q) as [g|] eqn:E; [|congruence]. destruct (qw_group q Hq k g E) as [Hg HK]. subst k.
    destruct (group_through_snapshot qn ns now ord g Hg) as (H1 & _ & _ & _ & H5). rewrite Hk in Hg'. injection Hg' as <-. eexists g, _. split_and!; [done|reflexivity|exact H1|exact H5]. }
  assert (∀ k, GetGroup k (ImportState ordg' st q0) = None → GetGroup k q = None) as Hno.
  { intros k Hk. pose proof (import_snapshot q Hq ordg ordg' ord qn ns now seg seq ts q0 Hq0 Hnone k) as Hk'. cbn zeta in Hk'. fold st in Hk'.
    destruct (GetGroup k q); [congruence|done]. }
  assert (∀ g k, group_ids g = ID <$> (restored qn ns k <$> group_msgs g)) as Hrid.
  { intros g k. rewrite <-list_fmap_compose. done. }
  split; [by destruct Hs| | |].
  - intros k g' Hg'. destruct (Hgr k g' Hg') as (g & gs & HG & -> & <- & Hperm). split; [cbn; lia|].
    pose proof (Hroom (gs_Key gs)) as Hr. unfold ids_in in Hr. rewrite HG, (Hrid g (gs_Key gs)), length_fmap, <-(Permutation_length Hperm) in Hr.
    pose proof (imported_pending gs q0). change (MaxPending (cfg (imported gs q0))) with (MaxPending (resolveConfig (gs_Key gs) q0)).
    unfold room in *. lia.
  - intros k. rewrite (resolveConfig_cfgIdx k q0) by done. pose proof (Hroom k) as Hr. unfold room in *. lia.
  - intros k. unfold ids_in at 1. destruct (GetGroup k (ImportState ordg' st q0)) as [g'|] eqn:E.
    + destruct (Hgr k g' E) as (g & gs & HG & -> & _ & Hperm). unfold ids_in. rewrite HG. unfold group_ids at 1.
      destruct (imported_msgs gs q0) as [-> _]. rewrite Hperm. by rewrite <-Hrid.
    + unfold ids_in. by rewrite (Hno k E).
Qed.

Lemma later_events y seq segID (segs : list stored_segment) :
  passed y seq segID → (λ s, (ss_id s, ss_events s)) <$> segs = segments y →
  filter (λ e, seq < ev_Seq e) (concat (ss_events <$> filter (λ s, segID ≤ ss_id s) segs)) =
  filter (λ e, seq < ev_Seq e) (written y).
Proof.
  intros [_ Hseg Hold] Hs.
  assert (written y = concat (ss_events <$> segs)) as ->.
  { unfold written. replace (ss_events <$> segs) with (segments y).*2; [|rewrite <-Hs, <-list_fmap_compose; done].
    unfold segments. rewrite fmap_app, concat_app. cbn. by rewrite app_nil_r. }
  assert (∀ s, s ∈ segs → ¬ segID ≤ ss_id s → Forall (λ e, ¬ seq < ev_Seq e) (ss_events s)) as Hlow.
  { intros s Hin Hlt. apply Forall_forall. intros e He.
    assert ((ss_id s, ss_events s) ∈ segments y) as Hy by (rewrite <-Hs; by apply (list_elem_of_fmap_2 (λ s, (ss_id s, ss_events s)))).
    unfold segments in Hy. apply elem_of_app in Hy as [Hy|[= Hi _]%list_elem_of_singleton]; [|lia].
    specialize (Hold _ _ e Hy ltac:(lia) He). lia. }
  clear Hs Hold. induction segs as [|s segs IH]; [done|]. rewrite filter_cons.
  specialize (IH (λ s' H, Hlow s' ltac:(by right))). case_decide as Hd; cbn; rewrite ?filter_app, IH; [done|].
  by rewrite (filter_none _ (ss_events s)) by (apply Hlow; [by left|done]).
Qed.

Section recovery.
Context (ordg : range_order GroupState) (ord : range_order Message) (clock : nat → Z) (ordr : range_order GroupState) (qn ns : string).

(** What a restart makes of the files when the snapshot [c] is the latest. *)
Definition after_restart (now : Z) (c : checkpoint) (d : directory) (q : Queue) : rstate :=
  recover_queue clock ordr qn ns (saveSnapshot ordg ord false Saved now (ck_seq c) (ck_seg c) (Some (ExportState (ck_mem c))) d).1 q.

Lemma restart_exact y c d segs now fresh :
  race_ok y → y_saved y = Some c →
  (λ s, (ss_id s, ss_events s)) <$> segs = segments y →
  holds_segments d ((λ s, (ss_id s, stored_bytes s)) <$> segs) → Forall stored_ok segs → snaps_upto (ck_seg c) d →
  1 ≤ ck_seg c < 10 ^ 9 → y_seq y < 2 ^ 64 - 1 → fits_s 64 now → storable (ck_mem c) →
  queue_wf fresh → (∀ k, GetGroup k fresh = None) →
  (∀ k, room (MaxPending (resolveConfig k fresh)) (length (written y)) (Z.of_nat (length (ids_in k (ck_mem c))))) →
  let s := after_restart now c d fresh in
  rs_panicked s = false ∧
  ∀ k, ids_in k (rs_queue s) ≡ₚ
    ids_in k (ck_mem c) ++ (ev_MsgID <$> filter (λ e, ev_Group e = k) (filter (λ e, ck_seq c < ev_Seq e) (written y))).
Proof.
  intros [Hf _ Hv] Hc Hs Hd Hst Hsn Hid Hseq Hnow Hsto Hwf Hno Hroom s.
  destruct (Hv c Hc) as [Hp Hcw _ _]. pose proof (pa_seq _ _ _ Hp) as Hsq.
  unfold s, after_restart.
  rewrite (recover_saved ordg ord d segs now (ck_seq c) (ck_seg c) (Some (ExportState (ck_mem c))) Hd Hst Hsn Hid); [| |lia].
  2: { unfold snapshot_of. apply converted_ok; [done|done| |lia|done]. lia. }
  rewrite (later_events y _ _ segs Hp Hs).
  apply (replay_publications clock ordr qn ns); [|done|].
  - apply Forall_forall. intros e [_ He]%list_elem_of_filter. by apply (proj1 (Forall_forall _ _) (fl_type y Hf)).
  - eapply (import_filling _ (ck_mem c) fresh); [done|done|done|]. intros k. specialize (Hroom k).
    pose proof (length_filter (λ e, ck_seq c < ev_Seq e) (written y)). unfold room in *. lia.
Qed.
End recovery.


(** ** Three runs *)

Module Runs.
Import Visited.
Definition q0 : Queue := NewQueue "jobs" "ns".
Definition first : system := rotate (enter 100 e1 [] (log_publish e1 true (idle 1 q0))).
Definition mem : Queue := y_queue first.

(** The second publication is logged after the snapshot began and enters the
    queue after the export. *)
Definition c_after : checkpoint := mkCheckpoint 1 2 mem [e2].
Definition run_after : system := enter 200 e2 [] (save c_after (export 1 2 (log_publish e2 true (capture first)))).

(** It is logged before the snapshot begins and enters after the export. *)
Definition c_lost : checkpoint := mkCheckpoint 2 2 mem [e2].
Definition run_lost : system := enter 200 e2 [] (save c_lost (export 2 2 (capture (log_publish e2 true first)))).

(** It is logged after the snapshot began and enters before the export. *)
Definition entered : system := enter 200 e2 [] (log_publish e2 true (capture first)).
Definition c_twice : checkpoint := mkCheckpoint 1 2 (y_queue entered) [].
Definition run_twice : system := save c_twice (export 1 2 entered).

Lemma start_first : rtc race (idle 1 q0) first.
Proof.
  eapply rtc_l; [apply (ra_log _ e1 true); [done|done|by apply not_elem_of_nil]|].
  eapply rtc_l; [apply (ra_enter _ 100 e1 [] []); done|]. eapply rtc_l; [apply ra_rotate|]. apply rtc_refl.
Qed.

Lemma e2_fresh y : written y = [e1] → ev_MsgID e2 ∉ ev_MsgID <$> written y.
Proof. intros ->. by_eval. Qed.

Lemma reach_after : rtc race (idle 1 q0) run_after.
Proof.
  etransitivity; [apply start_first|].
  eapply rtc_l; [by apply ra_capture|].
  eapply rtc_l; [apply (ra_log _ e2 true); [done|by vm_compute|by apply e2_fresh]|].
  eapply rtc_l; [by apply (ra_export _ 1 2)|]. eapply rtc_l; [by apply (ra_save _ c_after)|].
  eapply rtc_l; [by apply (ra_enter _ 200 e2 [] [])|]. apply rtc_refl.
Qed.

Lemma reach_lost : rtc race (idle 1 q0) run_lost.
Proof.
  etransitivity; [apply start_first|].
  eapply rtc_l; [apply (ra_log _ e2 true); [done|by vm_compute|by apply e2_fresh]|].
  eapply rtc_l; [by apply ra_capture|].
  eapply rtc_l; [by apply (ra_export _ 2 2)|]. eapply rtc_l; [by apply (ra_save _ c_lost)|].
  eapply rtc_l; [by apply (ra_enter _ 200 e2 [] [])|]. apply rtc_refl.
Qed.

Lemma reach_twice : rtc race (idle 1 q0) run_twice.
Proof.
  etransitivity; [apply start_first|].
  eapply rtc_l; [by apply ra_capture|].
  eapply rtc_l; [apply (ra_log _ e2 true); [done|by vm_compute|by apply e2_fresh]|].
  eapply rtc_l; [by apply (ra_enter _ 200 e2 [] [])|].
  eapply rtc_l; [by apply (ra_export _ 1 2)|]. eapply rtc_l; [by apply (ra_save _ c_twice)|]. apply rtc_refl.
Qed.

Lemma mem_storable : storable mem.
Proof.
  split; [by apply Z.ltb_lt; vm_compute|].
  intros k g. rewrite <-flat_lookup by (apply (race_reach 1 q0 first); [apply NewQueue_wf|apply GetGroup_new|apply start_first]).
  revert k g. change (map_Forall (λ k g, short 16 k ∧ Z.of_nat (length (group_msgs g)) < 2 ^ 32 ∧
    Forall storable_message (group_msgs g)) (flat mem)). by_eval.
Qed.

Definition restart (c : checkpoint) : rstate := after_restart list_order list_order ticks list_order "jobs" "ns" 5 c d q0.
End Runs.


(** A confirmed message is lost: its publication was logged before the snapshot
    took the sequence number, and its publisher came to the queue after the
    export. *)
Theorem snapshot_loses_confirmed :
  rtc race (idle 1 Runs.q0) Runs.run_lost ∧ y_saved Runs.run_lost = Some Runs.c_lost ∧
  y_told Runs.run_lost = ["b"; "a"] ∧ ids_in "g" (y_queue Runs.run_lost) = ["a"; "b"] ∧
  ids_in "g" (rs_queue (Runs.restart Runs.c_lost)) = ["a"].
Proof. split; [apply Runs.reach_lost|]. vm_compute. done. Qed.

(** A message is in the group twice: the snapshot has it, and its publication
    is replayed. *)
Theorem snapshot_doubles_message :
  rtc race (idle 1 Runs.q0) Runs.run_twice ∧ y_saved Runs.run_twice = Some Runs.c_twice ∧
  ids_in "g" (y_queue Runs.run_twice) = ["a"; "b"] ∧
  ids_in "g" (rs_queue (Runs.restart Runs.c_twice)) = ["b"; "a"; "b"].
Proof. split; [apply Runs.reach_twice|]. vm_compute. done. Qed.

(** ** Snapshots on request *)

(** [TriggerSnapshot] of broker.go, which the API starts in a goroutine: the log
    of the queue, if it is open, saves a snapshot of what its provider exports,
    if it has one. *)
Definition TriggerSnapshot (ordg : range_order GroupState) (ord : range_order Message) (busy : bool) (io : snap_io) (now seq segID : Z)
    (ns queue : string) (rt : runtime) (d : directory) : directory :=
  match wal_queues (rt_wal rt) !! wal_key ns queue with
  | None => d
  | Some e => (saveSnapshot ordg ord busy io now seq segID
                 (p ← we_provider e; q ← s_store (rt_sched rt) !! p; Some (ExportState q)) d).1
  end.

(** Without a log a request changes nothing; and a queue that was registered
    before its first message opened the log has no provider, so the snapshot
    asked for is empty and hides all messages from the next start. *)
Theorem manual_snapshot_loses_queue :
  let q := rs_queue (recover_queue ticks list_order "jobs" "ns" Visited.d Runs.q0) in
  let rt := registerQueueWithWAL 0 q (mkRuntime NewScheduler (NewWAL true)) in
  let opened := mkRuntime (rt_sched rt) (getQueueWAL "ns" "jobs" (rt_wal rt)) in
  let trigger rt := TriggerSnapshot list_order list_order false Saved 5 2 2 "ns" "jobs" rt Visited.d in
  ids_in "g" q = ["a"; "b"] ∧ trigger rt = Visited.d ∧
  ids_in "g" (rs_queue (recover_queue ticks list_order "jobs" "ns" (trigger opened) Runs.q0)) = [].
Proof. vm_compute. done. Qed.
