(* ===== verification/Api.v ===== *)
(** * The management API (src/internal/api/v1)

    Requests on namespaces, users, queues, group configurations, tokens and API
    keys: namespaces.go, users.go, queues.go, auth.go, apikeys.go,
    permissions.go, middleware.go and errors.go.  A request is the operation
    with its decoded input, its answer a status and a body.  The HTTP framework
    (routing, decoding, checking the constraints in the struct tags) is outside:
    [valid] states those constraints.  JSON, time.ParseDuration, the check of
    e-mail addresses, bcrypt and the signatures are parameters. *)

From stdpp Require Import base gmap list strings.
From Stdlib Require Import ZArith Lia Strings.Byte Strings.Ascii.
From S2P Require Import Prelude Group ConfigIdx Queue Wal Recovery Scheduler Auth Base64 Jwt Table Database Startup.
Local Open Scope Z_scope.
Local Open Scope list_scope.

(** ** Inputs *)

Record rateLimitInput := mkRateLimitInput { ri_Max : Z; ri_Window : string }.
Record retryInput := mkRetryInput { ri_MaxAttempts : Z; ri_Backoff : string; ri_InitialDelay : string; ri_MaxDelay : string }.
Record dlqInput := mkDlqInput { di_Enabled : bool; di_Queue : string }.
Record groupConfigInput := mkGroupConfigInput {
  gi_Parallelism : Z; gi_Quantum : Z; gi_LeaseTimeout : string;
  gi_RateLimit : option rateLimitInput; gi_Retry : option retryInput; gi_DLQ : option dlqInput;
}.

(** The JSON object of a namespace is its text. *)
Inductive request :=
| RListNamespaces
| RCreateNamespace (name : string) (config : option string)
| RGetNamespace (name : string)
| RUpdateNamespace (name : string) (config : option string)
| RDeleteNamespace (name : string)
| RListUsers
| RCreateUser (username password email role : string)
| RGetUser (username : string)
| RUpdateUser (username : string) (email role password : option string)
| RDeleteUser (username : string)
| RGetPermissions (username : string)
| RSetPermissions (username namespace : string) (permissions : list string)
| RDeletePermissions (username namespace : string)
| RListQueues
| RDeclareQueue (name namespace : string) (durable : option bool)
| RGetQueue (namespace name : string)
| RDeleteQueue (namespace name : string)
| RSnapshot (namespace name : string)
| RStats (namespace name after : string) (limit : Z)
| RGroupStats (namespace name key : string)
| RListGroups (namespace name after : string) (limit : Z)
| RSetGroup (namespace name key : string) (body : groupConfigInput)
| RGetGroup (namespace name key : string)
| RDeleteGroup (namespace name key : string)
| RLogin (username password : string)
| RRefresh (refreshToken : list byte)
| RLogout
| RCreateKey (name namespace : string) (permissions : list string)
| RListKeys
| RRevokeKey (key : string)
| RPermissions.

Definition request_path (r : request) : string :=
  match r with
  | RListNamespaces | RCreateNamespace _ _ => "/namespaces"
  | RGetNamespace n | RUpdateNamespace n _ | RDeleteNamespace n => "/namespaces/" +:+ n
  | RListUsers | RCreateUser _ _ _ _ => "/users"
  | RGetUser u | RUpdateUser u _ _ _ | RDeleteUser u => "/users/" +:+ u
  | RGetPermissions u => "/users/" +:+ u +:+ "/permissions"
  | RSetPermissions u n _ | RDeletePermissions u n => "/users/" +:+ u +:+ "/permissions/" +:+ n
  | RListQueues | RDeclareQueue _ _ _ => "/queues"
  | RGetQueue ns q | RDeleteQueue ns q => "/queues/" +:+ ns +:+ "/" +:+ q
  | RSnapshot ns q => "/queues/" +:+ ns +:+ "/" +:+ q +:+ "/snapshot"
  | RStats ns q _ _ => "/queues/" +:+ ns +:+ "/" +:+ q +:+ "/stats"
  | RGroupStats ns q k => "/queues/" +:+ ns +:+ "/" +:+ q +:+ "/stats/" +:+ k
  | RListGroups ns q _ _ => "/queues/" +:+ ns +:+ "/" +:+ q +:+ "/groups"
  | RSetGroup ns q k _ | RGetGroup ns q k | RDeleteGroup ns q k => "/queues/" +:+ ns +:+ "/" +:+ q +:+ "/groups/" +:+ k
  | RLogin _ _ => "/auth/login"
  | RRefresh _ => "/auth/refresh"
  | RLogout => "/auth/logout"
  | RCreateKey _ _ _ | RListKeys | RRevokeKey _ => "/auth/api-keys"
  | RPermissions => "/permissions"
  end.

(** ** Answers *)

Record queueSummary := mkQueueSummary { qs_Name : string; qs_Namespace : string; ActiveGroups : Z; qs_ConfigCount : Z }.
Record queueDetail := mkQueueDetail {
  qd_Name : string; qd_Namespace : string; qd_ActiveGroups : Z; qd_ConfigCount : Z; Durable : bool;
}.
Record namespaceView := mkNamespaceView {
  nv_ID : Z; nv_Name : string; nv_Config : option string; nv_CreatedAt : string; nv_UpdatedAt : string;
}.
Record userView := mkUserView {
  uv_ID : Z; uv_Username : string; uv_Email : option string; uv_Role : string; uv_CreatedAt : string; uv_UpdatedAt : string;
}.
Record listEntry := mkListEntry { le_SubjectID : string; le_Namespace : string; le_Permissions : list string; le_Prefix : string }.

Inductive body :=
| BNone
| BNamespace (n : namespaceView) | BNamespaces (l : list namespaceView)
| BUser (u : userView) | BUsers (l : list userView)
| BGrants (username : string) (m : gmap string (list string))
| BGrant (username namespace : string) (permissions : list string)
| BQueue (q : queueDetail) | BQueues (l : list queueSummary)
| BStats (groups : list GroupStats) (next : string) | BGroupStats (st : GroupStats)
| BConfigs (configs : list GroupConfig) (next : string) | BConfig (c : GroupConfig)
| BTokens (t : Tokens)
| BKey (key subjectID namespace : string) (permissions : list string) | BKeys (l : list listEntry)
| BMessage (m : string) | BSuccess
| BCatalog (global namespace : list string).

Inductive response := Ok (status : Z) (b : body) | Fail (status : Z).

Definition dbError (e : db_error) : response :=
  match e with
  | ErrNotFound => Fail 404
  | ErrConflict => Fail 409
  | ErrValidation => Fail 422
  | ErrForbidden => Fail 403
  | ErrInternal => Fail 500
  end.

(** ** Views *)

Definition toUserView (u : User) : userView :=
  mkUserView (u_ID u) (u_Username u) (u_Email u) (u_Role u) (u_CreatedAt u) (u_UpdatedAt u).

Definition toQueueDetail (q : Queue) (durable : bool) : queueDetail :=
  mkQueueDetail (Name q) (q_Namespace q) (GroupCount q) (ConfigCount q) durable.

(** The names of the two catalogs. *)
Definition GlobalPermissionCatalog : list string :=
  ["admin"; "publish"; "consume"; "ack"; "nack"; "queues:manage"; "users:manage"; "metrics:read"].
Definition NamespacePermissionCatalog : list string := ["publish"; "consume"; "ack"; "nack"; "queues:manage"].

(** ** Who needs to authenticate *)

Definition needsAuth (path : string) : bool :=
  HasPrefix path "/namespaces" || HasPrefix path "/users" || HasPrefix path "/queues" || bool_decide (path = "/internal/metrics").

Definition may_manage_users (id : Identity) : bool := IsAdmin id || CanManageUsers id.

(** ** Constraints of the struct tags *)

(** Runes of a UTF-8 text: the bytes that do not continue one. *)
Definition rune_count (s : string) : nat :=
  length (List.filter (λ b, negb (Z.land (byte_to_Z b) 192 =? 128)) (str_bytes s)).
Definition rune_between (lo hi : nat) (s : string) : bool := (lo <=? rune_count s)%nat && (rune_count s <=? hi)%nat.
Definition role_enum : list string := ["admin"; "producer"; "consumer"; "observer"; "billing"; "service"].
Definition backoff_enum : list string := ["fixed"; "linear"; "exponential"].

Definition valid_group (b : groupConfigInput) : bool :=
  (1 <=? gi_Parallelism b) && (1 <=? gi_Quantum b)
  && match gi_RateLimit b with Some r => 1 <=? ri_Max r | None => true end
  && match gi_Retry b with Some r => (1 <=? ri_MaxAttempts r) && bool_decide (ri_Backoff r ∈ backoff_enum) | None => true end.

Section api.
Context `{JSON} (sha256 : list byte → list byte) (hashKey : string → string).
Context (fk : bool) (bcrypt : string → option string) (compare : string → string → bool).
Context (marshal_strings : list string → string) (unmarshal_strings : string → list string).
Context (marshal_config : GroupConfig → string) (marshal_durable : bool → string).
Context (is_object is_email : string → bool).
Context (ParseDuration : string → option Z).

Definition valid (r : request) : bool :=
  match r with
  | RCreateNamespace name _ => rune_between 1 64 name && namePattern name
  | RCreateUser u p e r => rune_between 3 64 u && namePattern u && (8 <=? rune_count p)%nat && is_email e && bool_decide (r ∈ role_enum)
  | RUpdateUser _ e r p =>
      match e with Some e => is_email e | None => true end
      && match r with Some r => bool_decide (r ∈ role_enum) | None => true end
      && match p with Some p => (8 <=? rune_count p)%nat | None => true end
  | RSetPermissions _ _ perms => (1 <=? length perms)%nat
  | RDeclareQueue name ns _ => rune_between 1 128 name && queueNamePattern name && rune_between 1 64 ns
  | RStats _ _ _ limit | RListGroups _ _ _ limit => (1 <=? limit) && (limit <=? 1000)
  | RSetGroup _ _ _ b => valid_group b
  | _ => true
  end.

Definition toNamespaceView (n : Namespace) : namespaceView :=
  mkNamespaceView (ns_ID n) (ns_Name n)
    (if negb (bool_decide (ns_Config n = "")) && negb (bool_decide (ns_Config n = "{}")) && is_object (ns_Config n)
     then Some (ns_Config n) else None)
    (ns_CreatedAt n) (ns_UpdatedAt n).

(** [toGroupConfig]: an error is the 422 of the caller. *)
Definition duration_or (d : Z) (s : string) : option Z := if bool_decide (s = "") then Some d else ParseDuration s.

Definition toGroupConfig (key : string) (b : groupConfigInput) : option GroupConfig :=
  let parallelism := if gi_Parallelism b <=? 0 then 1 else gi_Parallelism b in
  let quantum := if gi_Quantum b <=? 0 then 1 else gi_Quantum b in
  lease ← duration_or (5 * minute) (gi_LeaseTimeout b);
  rate ← match gi_RateLimit b with
         | None => Some None
         | Some r => window ← ParseDuration (ri_Window r); Some (Some (mkRateLimitConfig (ri_Max r) window))
         end;
  retry ← match gi_Retry b with
          | None => Some (mkRetryConfig 3 BackoffExponential second (5 * minute))
          | Some r =>
              initial ← duration_or second (ri_InitialDelay r);
              max ← duration_or (5 * minute) (ri_MaxDelay r);
              Some (mkRetryConfig (ri_MaxAttempts r) (ri_Backoff r) initial max)
          end;
  dlq ← match gi_DLQ b with
        | None => Some None
        | Some d => if di_Enabled d && bool_decide (di_Queue d = "") then None
                    else Some (Some (mkDLQConfig (di_Enabled d) (di_Queue d)))
        end;
  Some (mkGroupConfig key parallelism quantum lease rate retry dlq 0).

(** ** The state *)

Record api := mkApi {
  api_store : Store;
  api_rt : runtime;
  api_root : wal_root;                 (** the log directories *)
  api_keys : APIKeyAuthenticator;
  api_snapshots : list (string * string);   (** calls of [TriggerSnapshot] started in the background *)
}.
Definition set_api_store x a := mkApi x (api_rt a) (api_root a) (api_keys a) (api_snapshots a).
Definition set_rt x a := mkApi (api_store a) x (api_root a) (api_keys a) (api_snapshots a).
Definition set_root x a := mkApi (api_store a) (api_rt a) x (api_keys a) (api_snapshots a).
Definition set_keys x a := mkApi (api_store a) (api_rt a) (api_root a) x (api_snapshots a).
Definition set_snapshots x a := mkApi (api_store a) (api_rt a) (api_root a) (api_keys a) x.

(** Readings of the clock, in nanoseconds and as CURRENT_TIMESTAMP, random
    bytes and the order of maps. *)
Record api_env := mkApiEnv {
  ev_now : Z; ev_r1 : Z; ev_r2 : Z; ev_r3 : Z; ev_ts : string; ev_random : list byte;
  ev_keys : range_order APIKeyEntry;
}.

Definition answer_db (a : api) (r : Store * option db_error) (b : body) (status : Z) : api * outcome response :=
  (set_api_store r.1 a, Ret (match r.2 with Some e => dbError e | None => Ok status b end)).

(** *** Namespaces *)

Definition namespace_answer (status : Z) (a : api) (r : Store * (option Namespace + db_error)) : api * outcome response :=
  (set_api_store r.1 a,
   match r.2 with
   | inr e => Ret (dbError e)
   | inl None => Ret (Fail 404)
   | inl (Some n) => Ret (Ok status (BNamespace (toNamespaceView n)))
   end).

Definition list_namespaces (a : api) : api * outcome response :=
  (a, Ret (Ok 200 (BNamespaces (toNamespaceView <$> ListNamespaces (api_store a))))).
Definition create_namespace (ts name : string) (config : option string) (a : api) : api * outcome response :=
  namespace_answer 201 a (CreateNamespace ts name (default "{}" config) (api_store a)).
Definition get_namespace (name : string) (a : api) : api * outcome response :=
  (a, Ret (match GetNamespace name (api_store a) with Some n => Ok 200 (BNamespace (toNamespaceView n)) | None => Fail 404 end)).
Definition update_namespace (ts name : string) (config : option string) (a : api) : api * outcome response :=
  namespace_answer 200 a (UpdateNamespace ts name (default "{}" config) (api_store a)).
Definition delete_namespace (name : string) (a : api) : api * outcome response :=
  answer_db a (DeleteNamespace fk name (api_store a)) BNone 204.

Definition handle_namespaces (ts : string) (r : request) (a : api) : api * outcome response :=
  match r with
  | RListNamespaces => list_namespaces a
  | RCreateNamespace name config => create_namespace ts name config a
  | RGetNamespace name => get_namespace name a
  | RUpdateNamespace name config => update_namespace ts name config a
  | RDeleteNamespace name => delete_namespace name a
  | _ => (a, Ret (Fail 404))
  end.

(** *** Users *)

(** [u, _ := store.GetUser(...); toUserView( *u)] after a change. *)
Definition user_answer (status : Z) (username : string) (a : api) (r : Store * option db_error) : api * outcome response :=
  (set_api_store r.1 a,
   match r.2 with
   | Some e => Ret (dbError e)
   | None => match db_GetUser username r.1 with Some u => Ret (Ok status (BUser (toUserView u))) | None => Panic end
   end).

Definition forbidden (a : api) : api * outcome response := (a, Ret (Fail 403)).

Definition list_users (a : api) : api * outcome response := (a, Ret (Ok 200 (BUsers (toUserView <$> ListUsers (api_store a))))).
Definition create_user (ts : string) (id : Identity) (u p e r : string) (a : api) : api * outcome response :=
  if negb (may_manage_users id) then forbidden a else user_answer 201 u a (CreateUser bcrypt ts u p e r (api_store a)).
Definition get_user (u : string) (a : api) : api * outcome response :=
  (a, Ret (match db_GetUser u (api_store a) with Some x => Ok 200 (BUser (toUserView x)) | None => Fail 404 end)).
Definition patch_user (ts : string) (id : Identity) (u : string) (e r p : option string) (a : api) : api * outcome response :=
  if negb (may_manage_users id) && negb (bool_decide (SubjectID id = u)) then forbidden a
  else user_answer 200 u a (UpdateUser bcrypt ts u e r p (api_store a)).
Definition delete_user (id : Identity) (u : string) (a : api) : api * outcome response :=
  if negb (may_manage_users id) then forbidden a else answer_db a (DeleteUser fk u (api_store a)) BNone 204.
Definition get_user_permissions (u : string) (a : api) : api * outcome response :=
  (a, Ret (match GetUserNamespacePermissionsByUsername unmarshal_strings u (api_store a) with
           | inl m => Ok 200 (BGrants u m) | inr e => dbError e end)).
Definition set_user_permissions (ts : string) (id : Identity) (u ns : string) (perms : list string) (a : api) : api * outcome response :=
  if negb (may_manage_users id) then forbidden a
  else answer_db a (SetUserNamespacePermissionsByName fk marshal_strings ts u ns perms (api_store a)) (BGrant u ns perms) 200.
Definition delete_user_permissions (ts : string) (id : Identity) (u ns : string) (a : api) : api * outcome response :=
  if negb (may_manage_users id) then forbidden a
  else answer_db a (SetUserNamespacePermissionsByName fk marshal_strings ts u ns [] (api_store a)) BNone 204.

Definition handle_users (ts : string) (id : Identity) (r : request) (a : api) : api * outcome response :=
  match r with
  | RListUsers => list_users a
  | RCreateUser u p e r => create_user ts id u p e r a
  | RGetUser u => get_user u a
  | RUpdateUser u e r p => patch_user ts id u e r p a
  | RDeleteUser u => delete_user id u a
  | RGetPermissions u => get_user_permissions u a
  | RSetPermissions u ns perms => set_user_permissions ts id u ns perms a
  | RDeletePermissions u ns => delete_user_permissions ts id u ns a
  | _ => (a, Ret (Fail 404))
  end.

(** *** Queues and groups *)

(** [sched.GetQueue]: the queue with its address. *)
Definition find_queue (ns name : string) (a : api) : option (nat * Queue) :=
  p ← GetQueue ns name (rt_sched (api_rt a)); pair p <$> s_store (rt_sched (api_rt a)) !! p.

Definition put_queue (p : nat) (q : Queue) (a : api) : api :=
  let sched := rt_sched (api_rt a) in
  set_rt (mkRuntime (set_store (<[p := q]> (s_store sched)) sched) (rt_wal (api_rt a))) a.

(** [os.RemoveAll] of a queue's log directory. *)
Definition remove_dir (ns name : string) (root : wal_root) : wal_root :=
  (λ x : string * option (list (string * option directory)),
     if decide (x.1 = ns) then (x.1, filter (λ q, q.1 ≠ name) <$> x.2) else x) <$> root.

(** Its error is ignored by the caller. *)
Definition persistGroupConfig (ts ns queueName : string) (cfg : GroupConfig) (s : Store) : Store :=
  match GetNamespace ns s with
  | None => s
  | Some n =>
      match GetQueueByName (ns_ID n) queueName s with
      | None => s
      | Some dbQueue => (UpsertGroupConfig fk ts (dq_ID dbQueue) (Key cfg) (marshal_config cfg) s).1
      end
  end.

Definition declare_queue (ts name ns : string) (durable : option bool) (a : api) : api * outcome response :=
  match find_queue ns name a with
  | Some _ => (a, Ret (Fail 409))
  | None =>
      match GetNamespace ns (api_store a) with
      | None => (a, Ret (Fail 404))
      | Some n =>
          let durable := default (wal_durable (rt_wal (api_rt a))) durable in
          match CreateQueue fk ts (ns_ID n) name (marshal_durable durable) (api_store a) with
          | (s, Some e) => (set_api_store s a, Ret (dbError e))
          | (s, None) =>
              let q := NewQueue name ns in
              let rt := registerQueueWithWAL (fresh_queue (rt_sched (api_rt a))) q (api_rt a) in
              let rt := mkRuntime (rt_sched rt) (SetQueueDurable ns name durable (rt_wal rt)) in
              (set_rt rt (set_api_store s a), Ret (Ok 201 (BQueue (toQueueDetail q durable))))
          end
      end
  end.

Definition delete_queue (ns name : string) (a : api) : api * outcome response :=
  match find_queue ns name a with
  | None => (a, Ret (Fail 404))
  | Some _ =>
      let '(s, e) := match GetNamespace ns (api_store a) with
                     | Some n => DeleteQueue fk (ns_ID n) name (api_store a)
                     | None => (api_store a, None)
                     end in
      match e with
      | Some e => (set_api_store s a, Ret (dbError e))
      | None =>
          let '(wal, opened) := DestroyQueue ns name (rt_wal (api_rt a)) in
          let rt := mkRuntime (UnregisterQueue ns name (rt_sched (api_rt a))) wal in
          let root := if opened then remove_dir ns name (api_root a) else api_root a in
          (set_root root (set_rt rt (set_api_store s a)), Ret (Ok 204 BNone))
      end
  end.

Definition set_group (ts ns name key : string) (b : groupConfigInput) (a : api) : api * outcome response :=
  match find_queue ns name a with
  | None => (a, Ret (Fail 404))
  | Some (p, q) =>
      match toGroupConfig key b with
      | None => (a, Ret (Fail 422))
      | Some cfg =>
          let a := put_queue p (SetGroupConfig cfg q) a in
          (set_api_store (persistGroupConfig ts ns name cfg (api_store a)) a, Ret (Ok 200 (BConfig cfg)))
      end
  end.

Definition delete_group (ns name key : string) (a : api) : api * outcome response :=
  match find_queue ns name a with
  | None => (a, Ret (Fail 404))
  | Some (p, q) =>
      let '(q, found) := Queue.DeleteGroupConfig key q in
      if negb found then (a, Ret (Fail 404))
      else
        let a := put_queue p q a in
        let s := match GetNamespace ns (api_store a) with
                 | None => api_store a
                 | Some n => match GetQueueByName (ns_ID n) name (api_store a) with
                             | None => api_store a
                             | Some dbQueue => (Database.DeleteGroupConfig (dq_ID dbQueue) key (api_store a)).1
                             end
                 end in
        (set_api_store s a, Ret (Ok 204 BNone))
  end.

Definition limit_or_default (limit : Z) : Z := if limit <=? 0 then 100 else limit.

(** A reading request on a queue. *)
Definition on_found (ns name : string) (f : Queue → response) (a : api) : api * outcome response :=
  (a, Ret (match find_queue ns name a with Some (_, q) => f q | None => Fail 404 end)).

Definition list_queues (a : api) : api * outcome response :=
  (a, Ret (Ok 200 (BQueues
    ((λ q, mkQueueSummary (Name q) (q_Namespace q) (GroupCount q) (ConfigCount q)) <$>
       omap (λ p, s_store (rt_sched (api_rt a)) !! p) (Scheduler.ListQueues (rt_sched (api_rt a))))))).
Definition get_queue (ns name : string) (a : api) : api * outcome response :=
  on_found ns name (λ q, Ok 200 (BQueue (toQueueDetail q (QueueDurable ns name (rt_wal (api_rt a)))))) a.
Definition snapshot_queue (ns name : string) (a : api) : api * outcome response :=
  match find_queue ns name a with
  | None => (a, Ret (Fail 404))
  | Some _ => (set_snapshots (api_snapshots a ++ [(ns, name)]) a, Ret (Ok 202 (BMessage "snapshot triggered")))
  end.
Definition queue_stats (ns name after : string) (limit : Z) (a : api) : api * outcome response :=
  on_found ns name (λ q, let '(groups, next) := PageGroupStats after (limit_or_default limit) q in Ok 200 (BStats groups next)) a.
Definition group_stats (ns name key : string) (a : api) : api * outcome response :=
  on_found ns name (λ q, Ok 200 (BGroupStats (default (mkGroupStats key 0 0) (GetGroupStats key q)))) a.
Definition list_groups (ns name after : string) (limit : Z) (a : api) : api * outcome response :=
  on_found ns name (λ q, let '(configs, next) := PageGroupConfigs after (limit_or_default limit) q in Ok 200 (BConfigs configs next)) a.
Definition get_group_config (ns name key : string) (a : api) : api * outcome response :=
  on_found ns name (λ q, match GetGroupConfig key q with Some c => Ok 200 (BConfig c) | None => Fail 404 end) a.

Definition handle_queues (ts : string) (r : request) (a : api) : api * outcome response :=
  match r with
  | RListQueues => list_queues a
  | RDeclareQueue name ns durable => declare_queue ts name ns durable a
  | RGetQueue ns name => get_queue ns name a
  | RDeleteQueue ns name => delete_queue ns name a
  | RSnapshot ns name => snapshot_queue ns name a
  | RStats ns name after limit => queue_stats ns name after limit a
  | RGroupStats ns name key => group_stats ns name key a
  | RListGroups ns name after limit => list_groups ns name after limit a
  | RSetGroup ns name key b => set_group ts ns name key b a
  | RGetGroup ns name key => get_group_config ns name key a
  | RDeleteGroup ns name key => delete_group ns name key a
  | _ => (a, Ret (Fail 404))
  end.

(** *** Tokens and keys *)

(** Without a token manager the service returns neither tokens nor an error, and
    the handler dereferences them. *)
Definition login (e : api_env) (mgr : option Manager) (username password : string) (a : api) : outcome response :=
  if negb (db_CheckPassword compare username password (api_store a)) then Ret (Fail 401)
  else match db_GetUser username (api_store a) with
       | None => Ret (Fail 401)
       | Some user =>
           match mgr with
           | None => Panic
           | Some m => Ret (match GenerateTokens sha256 m (ev_now e) (ev_r1 e) (ev_r2 e) user with
                            | Some t => Ok 200 (BTokens t) | None => Fail 500 end)
           end
       end.

Definition refresh (e : api_env) (mgr : option Manager) (token : list byte) : outcome response :=
  match mgr with
  | None => Panic
  | Some m => outcome_map (λ t, match t with Some t => Ok 200 (BTokens t) | None => Fail 401 end)
                (RefreshTokens sha256 m (ev_now e) (ev_r1 e) (ev_r2 e) (ev_r3 e) token)
  end.

(** No token is revoked. *)
Definition logout : response := Ok 200 BSuccess.
Definition list_permissions : response := Ok 200 (BCatalog GlobalPermissionCatalog NamespacePermissionCatalog).

Definition handle_tokens (e : api_env) (mgr : option Manager) (r : request) (a : api) : outcome response :=
  match r with
  | RLogin username password => login e mgr username password a
  | RRefresh token => refresh e mgr token
  | RLogout => Ret logout
  | RPermissions => Ret list_permissions
  | _ => Ret (Fail 404)
  end.

(** The checks the three handlers on API keys start with; [id] is the identity
    the middleware left in the context, if any. *)
Definition managing (id : option Identity) (f : api → api * outcome response) (a : api) : api * outcome response :=
  match id with
  | None => (a, Ret (Fail 401))
  | Some id => if negb (CanManageUsers id) && negb (IsAdmin id) then forbidden a else f a
  end.

Definition create_key (e : api_env) (id : option Identity) (name ns : string) (perms : list string) : api → api * outcome response :=
  managing id (λ a,
    let permissions := match perms with [] => ["publish"; "consume"] | _ => perms end in
    let key := GenerateAPIKey (ak_Prefix (api_keys a)) (ev_random e) in
    (set_keys (AddKey hashKey key name ns permissions (api_keys a)) a, Ret (Ok 200 (BKey key name ns permissions)))).
Definition list_keys (e : api_env) (id : option Identity) : api → api * outcome response :=
  managing id (λ a,
    (a, Ret (Ok 200 (BKeys ((λ k, mkListEntry (k_SubjectID k) (k_Namespace k) (k_Permissions k) (k_Prefix k)) <$>
               ListKeys (ev_keys e) (api_keys a)))))).
Definition revoke_key (id : option Identity) (key : string) : api → api * outcome response :=
  managing id (λ a, (set_keys (RevokeKey hashKey key (api_keys a)) a, Ret (Ok 200 BSuccess))).

Definition handle_keys (e : api_env) (id : option Identity) (r : request) (a : api) : api * outcome response :=
  match r with
  | RCreateKey name ns perms => create_key e id name ns perms a
  | RListKeys => list_keys e id a
  | RRevokeKey key => revoke_key id key a
  | _ => (a, Ret (Fail 404))
  end.

(** ** A request *)

(** The handlers, after the framework has checked the input. *)
Definition handle (e : api_env) (mgr : option Manager) (id : option Identity) (r : request) (a : api) : api * outcome response :=
  if negb (valid r) then (a, Ret (Fail 422))
  else
    match r with
    | RLogin _ _ | RRefresh _ | RLogout | RPermissions => (a, handle_tokens e mgr r a)
    | RCreateKey _ _ _ | RListKeys | RRevokeKey _ => handle_keys e id r a
    | _ =>
        match id with
        | None => (a, Ret (Fail 401))
        | Some id =>
            match r with
            | RListNamespaces | RCreateNamespace _ _ | RGetNamespace _ | RUpdateNamespace _ _ | RDeleteNamespace _ =>
                handle_namespaces (ev_ts e) r a
            | RListUsers | RCreateUser _ _ _ _ | RGetUser _ | RUpdateUser _ _ _ _ | RDeleteUser _ | RGetPermissions _
            | RSetPermissions _ _ _ | RDeletePermissions _ _ => handle_users (ev_ts e) id r a
            | _ => handle_queues (ev_ts e) r a
            end
        end
    end.

(** [authMiddleware] around them; [authorization] is the header. *)
Definition bearer : string := "Bearer ".
Definition serve (e : api_env) (mgr : option Manager) (authorization : string) (r : request) (a : api) : api * outcome response :=
  if negb (needsAuth (request_path r)) then handle e mgr None r a
  else if negb (HasPrefix authorization bearer) then (a, Ret (Fail 401))
  else
    let token := String.substring (str_len bearer) (str_len authorization - str_len bearer) authorization in
    match VerifyToken sha256 hashKey mgr (api_keys a) (ev_now e) (str_bytes token) with
    | None => (a, Ret (Fail 401))
    | Some id => handle e mgr (Some id) r a
    end.
End api.
