(* ===== verification/ApiInv.v ===== *)
(** * Properties of the management API

    Who can change what, the requests no one can make, and the agreement of the
    running queues with the metadata store, across restarts. *)

From stdpp Require Import base gmap list strings.
From Stdlib Require Import ZArith Lia Strings.Byte Strings.Ascii.
From S2P Require Import Prelude Group ConfigIdx Queue QueueInv Wal Recovery Scheduler Auth Base64 Jwt Table Database DatabaseInv Startup Api.
Local Open Scope Z_scope.
Local Open Scope list_scope.

(** The requests of each kind. *)
Definition is_open (r : request) : bool :=
  match r with
  | RLogin _ _ | RRefresh _ | RLogout | RPermissions | RCreateKey _ _ _ | RListKeys | RRevokeKey _ => true
  | _ => false
  end.

Lemma needsAuth_requests r : needsAuth (request_path r) = negb (is_open r).
Proof. by destruct r. Qed.

Ltac unfold_users :=
  unfold handle_users, create_user, patch_user, delete_user, set_user_permissions, delete_user_permissions, forbidden.

Section api.
Context `{JSON} (sha256 : list byte → list byte) (hashKey : string → string).
Context (fk : bool) (bcrypt : string → option string) (compare : string → string → bool).
Context (marshal_strings : list string → string) (unmarshal_strings : string → list string).
Context (marshal_config : GroupConfig → string) (marshal_durable : bool → string).
Context (is_object is_email : string → bool).
Context (ParseDuration : string → option Z).

Local Abbreviation serve' := (serve sha256 hashKey fk bcrypt compare marshal_strings unmarshal_strings
  marshal_config marshal_durable is_object is_email ParseDuration).
Local Abbreviation handle' := (handle sha256 hashKey fk bcrypt compare marshal_strings unmarshal_strings
  marshal_config marshal_durable is_object is_email ParseDuration).
Local Abbreviation handle_queues' := (handle_queues fk marshal_config marshal_durable ParseDuration).
Local Abbreviation handle_users' := (handle_users fk bcrypt marshal_strings unmarshal_strings).
Local Abbreviation handle_namespaces' := (handle_namespaces fk is_object).

(** The identity behind an authorization header. *)
Definition authenticated (e : api_env) (mgr : option Manager) (authorization : string) (a : api) : option Identity :=
  if HasPrefix authorization bearer
  then VerifyToken sha256 hashKey mgr (api_keys a) (ev_now e)
         (str_bytes (String.substring (str_len bearer) (str_len authorization - str_len bearer) authorization))
  else None.

(** A request on a resource, by who makes it. *)
Lemma serve_protected e mgr authorization r a :
  is_open r = false →
  serve' e mgr authorization r a =
    match authenticated e mgr authorization a with
    | None => (a, Ret (Fail 401))
    | Some id => handle' e mgr (Some id) r a
    end.
Proof.
  intros Hr. unfold serve, authenticated. rewrite needsAuth_requests, Hr. cbn [negb].
  by destruct (HasPrefix authorization bearer).
Qed.

(** *** What the handlers leave alone *)

Lemma handle_namespaces_users ts r a :
  let '(a', _) := handle_namespaces' ts r a in users (api_store a') = users (api_store a) ∧ api_keys a' = api_keys a.
Proof.
  destruct r; try done; cbn; unfold namespace_answer, answer_db; cbn.
  - unfold CreateNamespace. destruct (negb _); [done|]. destruct (64 <? _)%nat; [done|]. by destruct (GetNamespace _ _).
  - unfold UpdateNamespace. by destruct (GetNamespace _ _).
  - unfold DeleteNamespace. destruct (GetNamespace _ _); [|done]. by destruct fk.
Qed.

Lemma persist_users ts ns q cfg s : users (persistGroupConfig fk marshal_config ts ns q cfg s) = users s.
Proof.
  unfold persistGroupConfig. destruct (GetNamespace ns s); [|done]. destruct (GetQueueByName _ _ _); [|done].
  unfold UpsertGroupConfig. destruct (negb _); [done|]. destruct (get_group _ _ _); [done|]. by destruct (fk && _).
Qed.

Lemma handle_queues_users ts r a :
  let '(a', _) := handle_queues' ts r a in users (api_store a') = users (api_store a) ∧ api_keys a' = api_keys a.
Proof.
  destruct r; try done; cbn.
  - unfold declare_queue. destruct (find_queue _ _ _); [done|]. destruct (GetNamespace _ _); [|done].
    unfold CreateQueue. destruct (negb _); [done|]. destruct (128 <? _)%nat; [done|]. destruct (GetQueueByName _ _ _); [done|].
    by destruct (fk && _).
  - unfold delete_queue. destruct (find_queue _ _ _); [|done]. destruct (GetNamespace _ _) as [n|]; cbn.
    + unfold DeleteQueue. destruct (GetQueueByName _ _ _); [|done]. by destruct (DestroyQueue _ _ _).
    + by destruct (DestroyQueue _ _ _).
  - unfold snapshot_queue. by destruct (find_queue _ _ _).
  - unfold set_group. destruct (find_queue _ _ _) as [[p q]|]; [|done]. destruct (toGroupConfig _ _ _); [|done]. cbn.
    by rewrite persist_users.
  - unfold delete_group. destruct (find_queue _ _ _) as [[p q]|]; [|done]. destruct (Queue.DeleteGroupConfig _ _) as [q' []]; [|done].
    cbn. destruct (GetNamespace _ _); [|done]. destruct (GetQueueByName _ _ _); [|done].
    unfold Database.DeleteGroupConfig. by destruct (get_group _ _ _).
Qed.

(** The users change only for who may manage them, or for themselves. *)
Lemma handle_users_users ts id r a :
  let '(a', _) := handle_users' ts id r a in
  api_keys a' = api_keys a ∧
  (users (api_store a') = users (api_store a) ∨ may_manage_users id = true ∨ ∃ e r' p, r = RUpdateUser (SubjectID id) e r' p).
Proof.
  destruct r; unfold_users; cbn; try (split; [done|by left]); destruct (may_manage_users id); cbn; try (split; [done|by auto]).
  case_bool_decide as Hid; cbn; [|split; [done|by left]]. subst. split; [done|]. right; right. by do 3 eexists.
Qed.

(** C35. Changes are authorised: a request without a valid token changes nothing
    at all, and the table of users changes only at the request of an identity
    that may manage users, or of a user on its own account. *)
Theorem changes_authorised e mgr authorization r a :
  let '(a', _) := serve' e mgr authorization r a in
  (authenticated e mgr authorization a = None → a' = a) ∧
  (users (api_store a') ≠ users (api_store a) →
     ∃ id, authenticated e mgr authorization a = Some id ∧
       (may_manage_users id = true ∨ ∃ email role password, r = RUpdateUser (SubjectID id) email role password)).
Proof.
  destruct (is_open r) eqn:Hr.
  - unfold serve. rewrite needsAuth_requests, Hr. cbn [negb]. unfold handle. destruct (negb (valid _ r)); [done|].
    by destruct r.
  - rewrite serve_protected by done. destruct (authenticated e mgr authorization a) as [id|]; [|done].
    unfold handle. destruct (negb (valid _ r)); [done|].
    pose proof (handle_users_users (ev_ts e) id r a) as Hu. pose proof (handle_namespaces_users (ev_ts e) r a) as Hn.
    pose proof (handle_queues_users (ev_ts e) r a) as Hq.
    destruct r; try done;
      match goal with |- let '(_, _) := ?x in _ => destruct x as [a' o] end;
      (split; [done|]); intros Hne; exists id; (split; [done|]); naive_solver.
Qed.

(** The endpoints for API keys cannot be used: their path is not among the
    ones the middleware authenticates, so whatever token is presented the
    handler finds no identity and answers 401. *)
Theorem api_keys_unreachable e mgr authorization name ns perms key a :
  serve' e mgr authorization (RCreateKey name ns perms) a = (a, Ret (Fail 401)) ∧
  serve' e mgr authorization RListKeys a = (a, Ret (Fail 401)) ∧
  serve' e mgr authorization (RRevokeKey key) a = (a, Ret (Fail 401)).
Proof. done. Qed.

(** A user can make itself administrator: the request to update one's own
    account is not restricted in the role it sets. *)
Theorem self_promotion e mgr authorization id user a :
  authenticated e mgr authorization a = Some id → db_GetUser (SubjectID id) (api_store a) = Some user →
  let '(a', o) := serve' e mgr authorization (RUpdateUser (SubjectID id) None (Some "admin") None) a in
  (∃ v, o = Ret (Ok 200 (BUser v))) ∧ u_Role <$> db_GetUser (SubjectID id) (api_store a') = Some "admin".
Proof.
  intros Hid Hu. rewrite serve_protected, Hid by done. unfold handle.
  replace (valid is_email (RUpdateUser (SubjectID id) None (Some "admin") None)) with true by done. cbn [negb].
  unfold_users. rewrite bool_decide_eq_true_2 by done. rewrite andb_false_r.
  unfold user_answer, UpdateUser. replace (validRoles "admin") with true by done. cbn [negb]. rewrite Hu. cbn [fst snd fmap option_fmap option_map update_user api_store set_api_store].
  assert (∀ ts, db_GetUser (SubjectID id) (update_user (SubjectID id) (Some (set_role ts "admin")) (api_store a)) = Some (set_role ts "admin" user)) as Hg.
  { intros ts. unfold db_GetUser, update_user. cbn. rewrite row_of_update by done. unfold db_GetUser in Hu. rewrite Hu. cbn.
    apply row_of_Some_2 in Hu as [_ Hu]. by rewrite decide_True. }
  specialize (Hg (ev_ts e)). unfold update_user in Hg. rewrite Hg. split; [by eexists|done].
Qed.
End api.

(** ** The running queues and the metadata store *)

(** What a catalogue declares for a queue. *)
Definition declared (c : catalogue) (ns name : string) : option (gmap string string) :=
  v ← c !! ns; snd <$> v.2 !! name.

Lemma declared_of s ns name : declared_groups s ns name = declared (catalogue_of s) ns name.
Proof. done. Qed.

Lemma declared_insert c ns cfg qs ns' name :
  declared (<[ns := (cfg, qs)]> c) ns' name = if decide (ns' = ns) then snd <$> qs !! name else declared c ns' name.
Proof.
  unfold declared. destruct (decide (ns' = ns)) as [->|Hne]; [by rewrite lookup_insert_eq|by rewrite lookup_insert_ne].
Qed.

Lemma declared_in c ns cfg qs name : c !! ns = Some (cfg, qs) → declared c ns name = snd <$> qs !! name.
Proof. unfold declared. by intros ->. Qed.

(** The effect of the operations on what is declared. *)
Lemma spec_namespace_declared op c c' e ns name :
  match op with OpCreateNamespace _ _ | OpUpdateNamespace _ _ => True | _ => False end →
  spec_op op c = (c', e) → declared c' ns name = declared c ns name.
Proof.
  destruct op as [n cfg|n cfg| | | | |]; try done; intros _; cbn.
  - destruct (negb _ || _); [by intros [= <- _]|]. destruct (c !! n) as [[cfg' qs]|] eqn:E; [by intros [= <- _]|].
    intros [= <- _]. rewrite declared_insert. destruct (decide (ns = n)) as [->|]; [|done]. unfold declared. by rewrite E.
  - destruct (c !! n) as [[cfg' qs]|] eqn:E; [|by intros [= <- _]]. intros [= <- _]. rewrite declared_insert.
    destruct (decide (ns = n)) as [->|]; [|done]. by rewrite (declared_in _ _ _ _ _ E).
Qed.

Lemma spec_create_declared ns n cfg c c' e ns' name :
  spec_op (OpCreateQueue ns n cfg) c = (c', e) →
  declared c' ns' name = match e with
    | None => if decide ((ns', name) = (ns, n)) then Some ∅ else declared c ns' name
    | Some _ => declared c ns' name
    end.
Proof.
  cbn. unfold spec_queues. destruct (c !! ns) as [[cf qs]|] eqn:E; [|by intros [= <- <-]].
  destruct (negb _ || _).
  { intros [= <- <-]. by rewrite insert_id. }
  destruct (qs !! n) eqn:Eq; intros [= <- <-]; [by rewrite insert_id|].
  rewrite declared_insert. destruct (decide (ns' = ns)) as [->|].
  - rewrite (declared_in _ _ _ _ name E). destruct (decide (name = n)) as [->|Hn].
    + by rewrite decide_True, lookup_insert_eq by done.
    + by rewrite decide_False, lookup_insert_ne by congruence.
  - by rewrite decide_False by congruence.
Qed.

Lemma spec_delete_declared ns n c c' ns' name :
  spec_op (OpDeleteQueue ns n) c = (c', None) →
  declared c' ns' name = if decide ((ns', name) = (ns, n)) then None else declared c ns' name.
Proof.
  cbn. unfold spec_queues. destruct (c !! ns) as [[cf qs]|] eqn:E; [|done].
  destruct (qs !! n) eqn:Eq; intros [= <-]. rewrite declared_insert. destruct (decide (ns' = ns)) as [->|].
  - rewrite (declared_in _ _ _ _ name E). destruct (decide (name = n)) as [->|Hn].
    + by rewrite decide_True, lookup_delete_eq by done.
    + by rewrite decide_False, lookup_delete_ne by congruence.
  - by rewrite decide_False by congruence.
Qed.

(** A change of the groups of a declared queue. *)
Lemma spec_groups_declared ns n f gs c c' e ns' name :
  declared c ns n = Some gs → spec_groups ns n f c = (c', e) →
  e = (f gs).2 ∧ declared c' ns' name = if decide ((ns', name) = (ns, n)) then Some (f gs).1 else declared c ns' name.
Proof.
  unfold spec_groups, spec_queues. intros Hd. destruct (c !! ns) as [[cf qs]|] eqn:E; [|unfold declared in Hd; by rewrite E in Hd].
  rewrite (declared_in _ _ _ _ _ E) in Hd. destruct (qs !! n) as [[qc gs']|] eqn:Eq; [|done]. cbn in Hd. injection Hd as ->.
  destruct (f gs) as [gs' e']. intros [= <- <-]. split; [done|]. rewrite declared_insert. destruct (decide (ns' = ns)) as [->|].
  - rewrite (declared_in _ _ _ _ name E). destruct (decide (name = n)) as [->|Hn].
    + by rewrite decide_True, lookup_insert_eq by done.
    + by rewrite decide_False, lookup_insert_ne by congruence.
  - by rewrite decide_False by congruence.
Qed.

Section sync.
Context (unmarshal_config : string → option GroupConfig).

(** The store and the running queues agree: the registered queues are the
    declared ones and carry the stored configurations. *)
Definition agrees (s : Store) (rt : runtime) (ns name : string) : Prop :=
  match declared_groups s ns name with
  | Some gs => ∃ q, registered rt (queueKey ns name) = Some q ∧ carries unmarshal_config gs ns name q
  | None => registered rt (queueKey ns name) = None
  end.

Record synced (a : api) : Prop := {
  sy_store : store_ok (api_store a);
  sy_names : names_ok (api_store a);
  sy_rt : rt_ok (api_rt a);
  sy_keys : ∀ key q, registered (api_rt a) key = Some q → key = key_of q;
  sy_agrees : ∀ ns name, agrees (api_store a) (api_rt a) ns name;
}.

Lemma find_registered ns name a p q : find_queue ns name a = Some (p, q) → registered (api_rt a) (queueKey ns name) = Some q.
Proof.
  unfold find_queue, registered, GetQueue. intros Hf. destruct (s_queues (rt_sched (api_rt a)) !! queueKey ns name) as [p'|]; [|done].
  cbn in *. destruct (s_store (rt_sched (api_rt a)) !! p'); [|done]. cbn in *. congruence.
Qed.

Lemma not_found_registered ns name a : find_queue ns name a = None → registered (api_rt a) (queueKey ns name) = None.
Proof.
  unfold find_queue, registered, GetQueue. destruct (s_queues (rt_sched (api_rt a)) !! queueKey ns name) as [p'|]; [|done].
  cbn. by destruct (s_store (rt_sched (api_rt a)) !! p').
Qed.

(** What was found is declared. *)
Lemma found_declared ns name a p q :
  synced a → find_queue ns name a = Some (p, q) →
  ∃ gs, declared_groups (api_store a) ns name = Some gs ∧ carries unmarshal_config gs ns name q.
Proof.
  intros Hs Hf%find_registered. pose proof (sy_agrees _ Hs ns name) as Ha. unfold agrees in Ha.
  destruct (declared_groups _ ns name) as [gs|]; [|congruence]. destruct Ha as (q' & Hq & Hc). exists gs. split; [done|]. congruence.
Qed.

(** A queue object changed in place. *)
Lemma put_queue_registered ns name a p q q' :
  synced a → find_queue ns name a = Some (p, q) →
  rt_ok (api_rt (put_queue p q' a)) ∧
  ∀ key, registered (api_rt (put_queue p q' a)) key =
    if decide (key = queueKey ns name) then Some q' else registered (api_rt a) key.
Proof.
  intros Hs Hf. unfold put_queue. cbn. split.
  - intros key p' Hp. cbn in *. rewrite lookup_insert_is_Some'. right. by eapply (sy_rt _ Hs).
  - intros key. unfold registered. cbn. unfold find_queue, GetQueue in Hf.
    destruct (s_queues (rt_sched (api_rt a)) !! queueKey ns name) as [p0|] eqn:E0; [|done]. cbn in Hf.
    destruct (s_store (rt_sched (api_rt a)) !! p0) as [q0|] eqn:Eq; [|done]. injection Hf as -> ->.
    destruct (decide (key = queueKey ns name)) as [->|Hk]; [rewrite E0; cbn; apply lookup_insert_eq|].
    destruct (s_queues (rt_sched (api_rt a)) !! key) as [p1|] eqn:E1; [|done]. cbn. apply lookup_insert_ne. intros <-.
    apply Hk. transitivity (key_of q); [|symmetry]; apply (sy_keys _ Hs); unfold registered; [rewrite E1|rewrite E0]; done.
Qed.

(** The store may change as long as it declares the same. *)
Lemma synced_store a s' :
  synced a → store_ok s' → names_ok s' → (∀ ns name, declared_groups s' ns name = declared_groups (api_store a) ns name) →
  synced (set_api_store s' a).
Proof.
  intros [H1 H2 H3 H4 H5] Hs Hn Hd. split; cbn; try done. intros ns name. unfold agrees. rewrite Hd. apply H5.
Qed.

(** One queue changes in both. *)
Lemma synced_queue a s' rt' ns name :
  synced a → store_ok s' → names_ok s' → rt_ok rt' →
  no_slash ns = true → no_slash name = true →
  (∀ ns' name', (ns', name') ≠ (ns, name) → declared_groups s' ns' name' = declared_groups (api_store a) ns' name') →
  (∀ key, key ≠ queueKey ns name → registered rt' key = registered (api_rt a) key) →
  agrees s' rt' ns name → ∀ root keys sn, synced (mkApi s' rt' root keys sn).
Proof.
  intros Hs H1 H2 H3 Hns Hname Hd Hr Ha root keys sn.
  assert (∀ ns' name', (ns', name') ≠ (ns, name) → queueKey ns' name' ≠ queueKey ns name) as Hkey.
  { intros ns' name' Hne E. symmetry in E. apply queueKey_inj in E as [-> ->]; done. }
  split; cbn; try done.
  - intros key q Hq. destruct (decide (key = queueKey ns name)) as [->|Hk].
    + unfold agrees in Ha. destruct (declared_groups s' ns name) as [gs|]; [|congruence].
      destruct Ha as (q' & Hq' & Hn & Hns' & _). assert (q' = q) as <- by congruence. unfold key_of. by rewrite Hn, Hns'.
    + rewrite Hr in Hq by done. by apply (sy_keys _ Hs).
  - intros ns' name'. destruct (decide ((ns', name') = (ns, name))) as [[= -> ->]|Hne]; [done|].
    unfold agrees. rewrite Hd, Hr by auto. apply (sy_agrees _ Hs).
Qed.
End sync.

Lemma declared_slash s ns name gs :
  names_ok s → declared_groups s ns name = Some gs → no_slash ns = true ∧ no_slash name = true.
Proof.
  intros Hn (n & r & H1 & H2 & _)%declared_groups_rows. apply row_of_Some_2 in H1 as [H1 <-].
  apply row_of_Some_2 in H2 as [H2 [= _ <-]]. split; [by eapply ns_slash|by eapply queue_slash].
Qed.

(** One operation on the catalogue, as [run_op_ok] and [run_op_names] state it. *)
Lemma run_op_step fk ts op s s' e :
  store_ok s → names_ok s → run_op fk ts op s = (s', e) →
  store_ok s' ∧ names_ok s' ∧ spec_op op (catalogue_of s) = (catalogue_of s', e).
Proof.
  intros Hs Hn E. destruct (run_op_ok fk ts op s Hs) as [H1 H2]. pose proof (run_op_names fk ts op s Hn) as H3.
  rewrite E in *. done.
Qed.

Section handlers.
Context (fk : bool) (marshal_config : GroupConfig → string) (marshal_durable : bool → string).
Context (ParseDuration : string → option Z) (unmarshal_config : string → option GroupConfig).
(** What is assumed of encoding/json: a configuration the API makes reads back. *)
Context (Hjson : ∀ key b c, toGroupConfig ParseDuration key b = Some c → unmarshal_config (marshal_config c) = Some c).
Local Abbreviation synced' := (synced unmarshal_config).
Local Abbreviation agrees' := (agrees unmarshal_config).

Lemma carries_new ns name : carries unmarshal_config ∅ ns name (NewQueue name ns).
Proof. split_and!; [done|done|apply newConfigIdx_wf|]. intros k. by rewrite lookup_empty. Qed.

Lemma declare_synced ts name ns durable a : synced' a → synced' (declare_queue fk marshal_durable ts name ns durable a).1.
Proof.
  intros Hs. unfold declare_queue. destruct (find_queue ns name a) as [x|] eqn:Ef; [done|].
  destruct (GetNamespace ns (api_store a)) as [n|] eqn:En; [|done].
  set (durable' := default _ durable). set (cfg := marshal_durable durable').
  assert (run_op fk ts (OpCreateQueue ns name cfg) (api_store a) = CreateQueue fk ts (ns_ID n) name cfg (api_store a)) as Hrun
    by (cbn; unfold in_namespace; by rewrite En).
  destruct (CreateQueue fk ts (ns_ID n) name cfg (api_store a)) as [s [e|]] eqn:Ec;
    destruct (run_op_step _ _ _ _ _ _ (sy_store _ _ Hs) (sy_names _ _ Hs) Hrun) as (H1 & H2 & H3).
  - apply synced_store; [done..|]. intros ns' name'. rewrite !declared_of. by apply (spec_create_declared _ _ _ _ _ _ ns' name') in H3.
  - assert (declared_groups s ns name = Some ∅) as Hd.
    { rewrite declared_of. apply (spec_create_declared _ _ _ _ _ _ ns name) in H3. by rewrite H3, decide_True. }
    destruct (declared_slash _ _ _ _ H2 Hd) as [Hns Hname].
    cbn [fst]. unfold set_rt, set_api_store. cbn.
    destruct (registered_step (NewQueue name ns) (api_rt a) (queueKey ns name) (sy_rt _ _ Hs)) as [Hok Hreg].
    apply (synced_queue unmarshal_config a s _ ns name); try done.
    + intros ns' name' Hne. rewrite !declared_of. apply (spec_create_declared _ _ _ _ _ _ ns' name') in H3.
      by rewrite H3, decide_False.
    + intros key Hk. destruct (registered_step (NewQueue name ns) (api_rt a) key (sy_rt _ _ Hs)) as [_ Hr].
      transitivity (registered (registerQueueWithWAL (fresh_queue (rt_sched (api_rt a))) (NewQueue name ns) (api_rt a)) key); [done|].
      by rewrite Hr, decide_False.
    + unfold agrees. rewrite Hd. exists (NewQueue name ns). split; [|apply carries_new].
      transitivity (registered (registerQueueWithWAL (fresh_queue (rt_sched (api_rt a))) (NewQueue name ns) (api_rt a)) (queueKey ns name)); [done|].
      by rewrite Hreg, decide_True.
Qed.

Lemma unregister_registered ns name wal rt key :
  registered (mkRuntime (UnregisterQueue ns name (rt_sched rt)) wal) key =
    if decide (key = queueKey ns name) then None else registered rt key.
Proof.
  unfold registered. cbn. destruct (decide (key = queueKey ns name)) as [->|Hk]; [by rewrite lookup_delete_eq|by rewrite lookup_delete_ne].
Qed.

Lemma unregister_ok ns name wal rt : rt_ok rt → rt_ok (mkRuntime (UnregisterQueue ns name (rt_sched rt)) wal).
Proof. intros Hok key p. cbn. rewrite lookup_delete_Some. intros [_ Hp]. by apply Hok in Hp. Qed.

Lemma delete_synced ns name a : synced' a → synced' (delete_queue fk ns name a).1.
Proof.
  intros Hs. unfold delete_queue. destruct (find_queue ns name a) as [[p q]|] eqn:Ef; [|done].
  destruct (found_declared _ _ _ _ _ _ Hs Ef) as (gs & Hd & Hc). destruct (declared_slash _ _ _ _ (sy_names _ _ Hs) Hd) as [Hns Hname].
  pose proof Hd as (n & r & En & Er & _)%declared_groups_rows. rewrite En.
  assert (run_op fk "" (OpDeleteQueue ns name) (api_store a) = DeleteQueue fk (ns_ID n) name (api_store a)) as Hrun
    by (cbn; unfold in_namespace; by rewrite En).
  unfold DeleteQueue in *. rewrite Er in *. set (s := cascade_queues _ _ _) in *.
  destruct (run_op_step _ _ _ _ _ _ (sy_store _ _ Hs) (sy_names _ _ Hs) Hrun) as (H1 & H2 & H3).
  destruct (DestroyQueue ns name (rt_wal (api_rt a))) as [wal opened]. cbn [fst]. unfold set_root, set_rt, set_api_store. cbn.
  apply (synced_queue unmarshal_config a s _ ns name); try done.
  - by apply unregister_ok, (sy_rt _ _ Hs).
  - intros ns' name' Hne. rewrite !declared_of. rewrite (spec_delete_declared _ _ _ _ ns' name' H3). by rewrite decide_False.
  - intros key Hk. by rewrite unregister_registered, decide_False.
  - unfold agrees. rewrite declared_of, (spec_delete_declared _ _ _ _ ns name H3), decide_True by done.
    by rewrite unregister_registered, decide_True.
Qed.

Lemma toGroupConfig_key key b c : toGroupConfig ParseDuration key b = Some c → Key c = key ∧ normal_quantum (cfg_set_Key key c) = c.
Proof.
  unfold toGroupConfig. intros Hc.
  repeat match type of Hc with (?x ≫= _) = Some _ => destruct x; [|done]; cbn [mbind option_bind] in Hc end.
  injection Hc as <-. split; [done|]. unfold normal_quantum, cfg_set_Key. cbn.
  destruct (Z.leb_spec (gi_Quantum b) 0); cbn; [done|]. by destruct (Z.leb_spec (gi_Quantum b) 0); [lia|].
Qed.

Lemma carries_set gs ns name key b cfg q :
  toGroupConfig ParseDuration key b = Some cfg → carries unmarshal_config gs ns name q →
  carries unmarshal_config (<[key := marshal_config cfg]> gs) ns name (SetGroupConfig cfg q).
Proof.
  intros Hcfg (H1 & H2 & H3 & H4). destruct (toGroupConfig_key _ _ _ Hcfg) as [Hk Hn].
  destruct (SetGroupConfig_name cfg q) as [E1 E2]. split_and!; [congruence|congruence|rewrite SetGroupConfig_cfgIdx; by apply set_wf|].
  intros k. unfold GetGroupConfig. rewrite SetGroupConfig_cfgIdx, get_set, normal_quantum_Key, Hk by done.
  destruct (decide (k = key)) as [->|Hne].
  - rewrite lookup_insert_eq. cbn. unfold decode_config. rewrite (Hjson _ _ _ Hcfg). cbn. rewrite Hn. f_equal.
    unfold normal_quantum in Hn |- *. rewrite <-Hk in Hn. unfold cfg_set_Key in Hn. destruct cfg; cbn in *. by destruct (_ <=? 0).
  - rewrite lookup_insert_ne by done. apply H4.
Qed.

(** Both sides of a change of one queue's groups. *)
Lemma synced_groups ts op f a ns name p q q' gs :
  synced' a → find_queue ns name a = Some (p, q) → declared_groups (api_store a) ns name = Some gs →
  (∀ c, spec_op op c = spec_groups ns name f c) → carries unmarshal_config (f gs).1 ns name q' →
  synced' (set_api_store (run_op fk ts op (api_store a)).1 (put_queue p q' a)).
Proof.
  intros Hs Hf Hd Hop Hc. destruct (run_op fk ts op (api_store a)) as [s' e] eqn:Hrun.
  destruct (run_op_step _ _ _ _ _ _ (sy_store _ _ Hs) (sy_names _ _ Hs) Hrun) as (H1 & H2 & H3). rewrite Hop in H3.
  destruct (declared_slash _ _ _ _ (sy_names _ _ Hs) Hd) as [Hns Hname].
  destruct (put_queue_registered _ ns name a p q q' Hs Hf) as [Hok Hreg].
  apply (synced_queue unmarshal_config a s' (api_rt (put_queue p q' a)) ns name); try done.
  - intros ns' name' Hne. destruct (spec_groups_declared _ _ _ _ _ _ _ ns' name' Hd H3) as [_ E].
    rewrite !declared_of, E. by rewrite decide_False.
  - intros key Hk. by rewrite Hreg, decide_False.
  - destruct (spec_groups_declared _ _ _ _ _ _ _ ns name Hd H3) as [_ E].
    unfold agrees. rewrite declared_of, E, decide_True by done. exists q'. by rewrite Hreg, decide_True.
Qed.

Lemma set_synced ts ns name key b a :
  groupKeyPattern key = true → synced' a → synced' (set_group fk marshal_config ParseDuration ts ns name key b a).1.
Proof.
  intros Hkey Hs. unfold set_group. destruct (find_queue ns name a) as [[p q]|] eqn:Ef; [|done].
  destruct (toGroupConfig ParseDuration key b) as [cfg|] eqn:Ec; [|done].
  destruct (found_declared _ _ _ _ _ _ Hs Ef) as (gs & Hd & Hc). cbn [fst].
  assert (persistGroupConfig fk marshal_config ts ns name cfg (api_store a) =
    (run_op fk ts (OpSetGroup ns name (Key cfg) (marshal_config cfg)) (api_store a)).1) as Hp.
  { unfold persistGroupConfig. cbn. unfold in_queue, in_namespace. destruct (GetNamespace ns (api_store a)) as [n|]; [|done].
    by destruct (GetQueueByName (ns_ID n) name (api_store a)). }
  change (api_store (put_queue p (SetGroupConfig cfg q) a)) with (api_store a). rewrite Hp.
  destruct (toGroupConfig_key _ _ _ Ec) as [Hk _].
  eapply synced_groups; [done|done|done|intros c; reflexivity|]. cbn. rewrite Hk, Hkey. by apply (carries_set _ _ _ _ b).
Qed.

Lemma carries_delete gs ns name key q q' :
  carries unmarshal_config gs ns name q → Queue.DeleteGroupConfig key q = (q', true) →
  is_Some (gs !! key) ∧ carries unmarshal_config (delete key gs) ns name q'.
Proof.
  intros (H1 & H2 & H3 & H4). unfold Queue.DeleteGroupConfig. destruct (del key (cfgIdx q)) as [ci b] eqn:E. intros [= <- ->].
  pose proof (del_found key (cfgIdx q) H3) as Hf. rewrite E in Hf. split.
  - destruct (proj1 Hf eq_refl) as [c Hg]. specialize (H4 key). unfold GetGroupConfig in H4. rewrite Hg in H4.
    destruct (gs !! key); [by eexists|done].
  - pose proof (del_wf key (cfgIdx q) H3) as Hw. rewrite E in Hw. split_and!; [done|done|done|]. intros k.
    unfold GetGroupConfig. cbn. pose proof (get_del key (cfgIdx q) k H3) as Hg. rewrite E in Hg. cbn in Hg. rewrite Hg.
    destruct (decide (k = key)) as [->|Hk]; [by rewrite lookup_delete_eq|]. rewrite lookup_delete_ne by done. apply H4.
Qed.

Lemma delete_group_synced ns name key a : synced' a → synced' (delete_group ns name key a).1.
Proof.
  intros Hs. unfold delete_group. destruct (find_queue ns name a) as [[p q]|] eqn:Ef; [|done].
  destruct (Queue.DeleteGroupConfig key q) as [q' []] eqn:Eq; [|done]. cbn [negb].
  destruct (found_declared _ _ _ _ _ _ Hs Ef) as (gs & Hd & Hc). destruct (carries_delete _ _ _ _ _ _ Hc Eq) as [[c Hk] Hc'].
  pose proof Hd as (n & r & En & Er & _)%declared_groups_rows. cbn [fst].
  change (api_store (put_queue p q' a)) with (api_store a). rewrite En, Er.
  replace ((Database.DeleteGroupConfig (dq_ID r) key (api_store a)).1) with (run_op fk "" (OpDeleteGroup ns name key) (api_store a)).1.
  2: { cbn. unfold in_queue, in_namespace. by rewrite En, Er. }
  eapply synced_groups; [done|done|done|intros c'; reflexivity|]. cbn. by rewrite Hk.
Qed.
End handlers.

(** *** The other requests *)

(** Operations on users leave the catalogue alone. *)
Lemma run_user_op_tables fk bcrypt marshal_strings ts op s :
  let s' := (run_user_op fk bcrypt marshal_strings ts op s).1 in
  namespaces s' = namespaces s ∧ queues s' = queues s ∧ groups s' = groups s.
Proof.
  destruct op; cbn.
  - unfold CreateUser. destruct (negb _); [done|]. destruct (bcrypt password); [|done]. by destruct (db_GetUser _ _).
  - unfold DeleteUser. destruct (db_GetUser _ _); [|done]. destruct (_ && _); [done|]. by destruct fk.
  - unfold UpdateUser, update_user. destruct (match role with Some _ => _ | None => _ end); [done|]. destruct (db_GetUser _ _); [|done].
    destruct password as [p|]; [destruct (bcrypt p)|]; by destruct email, role.
  - unfold SetUserNamespacePermissionsByName. destruct (db_GetUser _ _); [|done]. destruct (GetNamespace _ _); [|done].
    unfold SetUserNamespacePermissions. by destruct (fk && _).
Qed.

(** A request on users is one of those operations, or leaves the store. *)
Lemma handle_users_op fk bcrypt marshal_strings unmarshal_strings ts id r a :
  let a' := (handle_users fk bcrypt marshal_strings unmarshal_strings ts id r a).1 in
  a' = a ∨ ∃ op, a' = set_api_store (run_user_op fk bcrypt marshal_strings ts op (api_store a)).1 a.
Proof.
  destruct r; unfold_users; cbn; try (by left); destruct (may_manage_users id); cbn; try (by left).
  - right. by exists (OpCreateUser username password email role).
  - right. by exists (OpUpdateUser username email role password).
  - destruct (bool_decide _); [|by left]. right. by exists (OpUpdateUser username email role password).
  - right. by exists (OpDeleteUser username).
  - right. by exists (OpGrant username namespace permissions).
  - right. by exists (OpGrant username namespace []).
Qed.

(** The state after a start on a store, as [restored_registered] has it. *)
Lemma restart_synced unmarshal_config durable s root keys :
  store_ok s → names_ok s → synced unmarshal_config (mkApi s (restoreFromDB unmarshal_config s (new_runtime durable)) root keys []).
Proof.
  intros Hs Hn.
  destruct (register_all_spec (restored unmarshal_config s <$> declared_queues s) (new_runtime durable)) as [Hok Hreg];
    [by intros ? ? ?|by apply declared_keys|].
  split; cbn; try done.
  - by rewrite restoreFromDB_all.
  - intros key q. rewrite restoreFromDB_all, Hreg. destruct (List.find _ _) as [q'|] eqn:E; [|done]. intros [= <-].
    by apply find_some in E as [_ <-%bool_decide_eq_true].
  - intros ns name. pose proof (restored_registered unmarshal_config durable s ns name Hs Hn) as H. cbn in H.
    unfold agrees. destruct (declared_groups s ns name) as [gs|]; [|done]. destruct H as (q & H1 & H2 & _). by exists q.
Qed.

(** The same queue for the configuration of its groups. *)
Definition same_queue (q q' : Queue) : Prop :=
  Name q = Name q' ∧ q_Namespace q = q_Namespace q' ∧ ∀ key, GetGroupConfig key q = GetGroupConfig key q'.

(** Two states in step with the same store register the same queues. *)
Lemma synced_same unmarshal_config a a' ns name :
  synced unmarshal_config a → synced unmarshal_config a' → api_store a' = api_store a →
  option_relation same_queue (λ _, False) (λ _, False)
    (registered (api_rt a) (queueKey ns name)) (registered (api_rt a') (queueKey ns name)).
Proof.
  intros H1 H2 E. pose proof (sy_agrees _ _ H1 ns name) as Ha. pose proof (sy_agrees _ _ H2 ns name) as Ha'.
  unfold agrees in *. rewrite E in Ha'. destruct (declared_groups _ _ _) as [gs|]; [|by rewrite Ha, Ha'].
  destruct Ha as (q & -> & Hn & Hns & _ & Hc). destruct Ha' as (q' & -> & Hn' & Hns' & _ & Hc').
  cbn. split_and!; [congruence..|]. intros key. by rewrite Hc, Hc'.
Qed.

(** ** Sessions *)

(** The requests that may part the store from the running queues: see
    [deleted_namespace_runs] and [odd_key_not_stored]. *)
Definition keeps_sync (r : request) : Prop :=
  match r with
  | RDeleteNamespace _ => False
  | RSetGroup _ _ key _ => groupKeyPattern key = true
  | _ => True
  end.

Section session.
Context `{JSON} (sha256 : list byte → list byte) (hashKey : string → string).
Context (fk : bool) (bcrypt : string → option string) (compare : string → string → bool).
Context (marshal_strings : list string → string) (unmarshal_strings : string → list string).
Context (marshal_config : GroupConfig → string) (marshal_durable : bool → string).
Context (is_object is_email : string → bool).
Context (ParseDuration : string → option Z) (unmarshal_config : string → option GroupConfig).

Local Abbreviation serve' := (serve sha256 hashKey fk bcrypt compare marshal_strings unmarshal_strings
  marshal_config marshal_durable is_object is_email ParseDuration).
Local Abbreviation handle' := (handle sha256 hashKey fk bcrypt compare marshal_strings unmarshal_strings
  marshal_config marshal_durable is_object is_email ParseDuration).
Local Abbreviation synced' := (synced unmarshal_config).

(** A session: requests with the header and the environment of each. *)
Definition session (mgr : option Manager) (l : list (api_env * string * request)) (a : api) : api :=
  foldl (λ a '(e, authorization, r), (serve' e mgr authorization r a).1) a l.

Context (Hjson : ∀ key b c, toGroupConfig ParseDuration key b = Some c → unmarshal_config (marshal_config c) = Some c).

Lemma users_synced ts id r a :
  synced' a → synced' (handle_users fk bcrypt marshal_strings unmarshal_strings ts id r a).1.
Proof.
  intros Hs. destruct (handle_users_op fk bcrypt marshal_strings unmarshal_strings ts id r a) as [->|[op ->]]; [done|].
  destruct (run_user_op_tables fk bcrypt marshal_strings ts op (api_store a)) as (E1 & E2 & E3).
  apply synced_store; [done|apply run_user_op_ok, (sy_store _ _ Hs)| |].
  - destruct (sy_names _ _ Hs). split; by rewrite ?E1, ?E2.
  - intros ns name. by rewrite !declared_of, (catalogue_ext (api_store a)).
Qed.

(** An operation on a namespace that declares the same. *)
Lemma namespace_op_synced ts op a :
  match op with OpCreateNamespace _ _ | OpUpdateNamespace _ _ => True | _ => False end →
  synced' a → synced' (set_api_store (run_op fk ts op (api_store a)).1 a).
Proof.
  intros Hop Hs. destruct (run_op fk ts op (api_store a)) as [s' e] eqn:E.
  destruct (run_op_step _ _ _ _ _ _ (sy_store _ _ Hs) (sy_names _ _ Hs) E) as (H1 & H2 & H3).
  apply synced_store; [done..|]. intros ns name. rewrite !declared_of. by apply (spec_namespace_declared op _ _ e).
Qed.

Lemma namespaces_synced ts r a :
  keeps_sync r → synced' a → synced' (handle_namespaces fk is_object ts r a).1.
Proof.
  intros Hk Hs. destruct r; try done; cbn.
  - pose proof (namespace_op_synced ts (OpCreateNamespace name (default "{}" config)) a I Hs) as H1. cbn in H1.
    by destruct (CreateNamespace _ _ _ _).
  - pose proof (namespace_op_synced ts (OpUpdateNamespace name (default "{}" config)) a I Hs) as H1. cbn in H1.
    by destruct (UpdateNamespace _ _ _ _).
Qed.

Lemma snapshot_synced ns name a : synced' a → synced' (snapshot_queue ns name a).1.
Proof. intros Hs. unfold snapshot_queue. destruct (find_queue ns name a); [|done]. by destruct Hs. Qed.

Lemma queues_synced ts r a :
  keeps_sync r → synced' a → synced' (handle_queues fk marshal_config marshal_durable ParseDuration ts r a).1.
Proof.
  intros Hk Hs. destruct r; try done; cbn;
    [by apply declare_synced|by apply delete_synced|by apply snapshot_synced|by apply set_synced|by apply delete_group_synced].
Qed.

Lemma handle_keys_rest e id r a : api_store (handle_keys hashKey e id r a).1 = api_store a ∧ api_rt (handle_keys hashKey e id r a).1 = api_rt a.
Proof.
  destruct r; try done; unfold handle_keys, create_key, list_keys, revoke_key, managing; (destruct id as [id|]; [|done]); by destruct (_ && _).
Qed.

(** Every request but those keeps the store and the queues in step. *)
Lemma serve_synced e mgr authorization r a : keeps_sync r → synced' a → synced' (serve' e mgr authorization r a).1.
Proof.
  intros Hk Hs.
  assert (∀ id, synced' (handle' e mgr id r a).1) as Hh.
  { intros id. unfold handle. destruct (negb (valid _ r)); [done|].
    assert (synced' (handle_keys hashKey e id r a).1) as Hkeys.
    { destruct (handle_keys_rest e id r a) as [E1 E2]. destruct Hs. by split; rewrite ?E1, ?E2. }
    destruct r; try done; (destruct id as [id|]; [|done]);
      first [by apply namespaces_synced|by apply users_synced|by apply queues_synced]. }
  unfold serve. destruct (negb (needsAuth _)); [done|]. destruct (negb (HasPrefix _ _)); [done|]. by destruct (VerifyToken _ _ _ _ _ _).
Qed.

Lemma session_synced mgr l a : Forall (λ x, keeps_sync x.2) l → synced' a → synced' (session mgr l a).
Proof.
  unfold session. intros Hl. revert a. induction Hl as [|[[e h] r] l Hr Hl IH]; intros a Hs; [done|]. cbn [foldl].
  by apply IH, serve_synced.
Qed.

End session.

(** ** Sample sessions *)

Module Sample.
#[local] Existing Instance Jwt.Sample.json.

(** A self-inverse encoding of configurations. *)
#[local] Instance RateLimitConfig_eq_dec : EqDecision RateLimitConfig.
Proof. solve_decision. Defined.
#[local] Instance RetryConfig_eq_dec : EqDecision RetryConfig.
Proof. solve_decision. Defined.
#[local] Instance DLQConfig_eq_dec : EqDecision DLQConfig.
Proof. solve_decision. Defined.
#[local] Instance GroupConfig_eq_dec : EqDecision GroupConfig.
Proof. solve_decision. Defined.
#[local] Instance RateLimitConfig_countable : Countable RateLimitConfig.
Proof. refine (inj_countable' (λ c, (rl_Max c, rl_Window c)) (λ '(a, b), mkRateLimitConfig a b) _). by intros []. Defined.
#[local] Instance RetryConfig_countable : Countable RetryConfig.
Proof.
  refine (inj_countable' (λ c, (MaxAttempts c, Backoff c, InitialDelay c, MaxDelay c)) (λ '(a, b, c, d), mkRetryConfig a b c d) _).
  by intros [].
Defined.
#[local] Instance DLQConfig_countable : Countable DLQConfig.
Proof. refine (inj_countable' (λ c, (dlq_Enabled c, dlq_Queue c)) (λ '(a, b), mkDLQConfig a b) _). by intros []. Defined.
#[local] Instance GroupConfig_countable : Countable GroupConfig.
Proof.
  refine (inj_countable' (λ c, (Key c, Parallelism c, Quantum c, LeaseTimeout c, RateLimit c, Retry c, DLQ c, MaxPending c))
    (λ '(a, b, c, d, e, f, g, h), mkGroupConfig a b c d e f g h) _). by intros [].
Defined.

Definition write_config (c : GroupConfig) : string := String.string_of_list_byte (Jwt.Sample.pos_bytes (encode c)).
Definition read_config (s : string) : option GroupConfig := decode (Jwt.Sample.bytes_pos (String.list_byte_of_string s)).

Lemma read_write c : read_config (write_config c) = Some c.
Proof.
  unfold read_config, write_config. rewrite String.list_byte_of_string_of_list_byte, Jwt.Sample.bytes_pos_bytes.
  by rewrite countable.decode_encode.
Qed.

(** An API key that may only publish, in the name of the user bob. *)
Definition keys : APIKeyAuthenticator := AddKey id "octar_bob" "bob" "main" ["publish"] (mkAPIKeyAuthenticator "octar_" 50 ∅).
Definition identity : Identity := apikey_identity (mkAPIKeyEntry "octar_bob" "bob" SubjectService "main" ["publish"] "octar_").
Definition bob : User := mkUser 2 "bob" "password" (Some "b@x") "producer" "now" "now".
Definition env : api_env := mkApiEnv 0 0 0 0 "now" [] list_order.
Definition header : string := "Bearer octar_bob".
Definition store : Store := (CreateUser Some "now" "bob" "password" "b@x" "producer" seeded).1.
Definition start : api := mkApi store (restoreFromDB read_config store (new_runtime true)) [] keys [].
Definition duration (_ : string) : option Z := Some second.
Definition ask (r : request) (a : api) : api * outcome response :=
  serve Jwt.Sample.digest id true Some (λ h p, bool_decide (h = p)) (λ _, "") (λ _, []) write_config (λ _, "{}") (λ _, true) (λ _, true)
    duration env None header r a.
Definition asks (l : list request) (a : api) : api :=
  session Jwt.Sample.digest id true Some (λ h p, bool_decide (h = p)) (λ _, "") (λ _, []) write_config (λ _, "{}") (λ _, true) (λ _, true)
    duration None ((λ r, (env, header, r)) <$> l) a.
Definition restart (a : api) : runtime := restoreFromDB read_config (api_store a) (new_runtime true).
Definition plain : groupConfigInput := mkGroupConfigInput 4 1 "" None None None.
Definition status (r : api * outcome response) : option Z :=
  match r.2 with Ret (Ok n _) | Ret (Fail n) => Some n | Panic => None end.
Definition jobs : list request := [RCreateNamespace "shop" None; RDeclareQueue "jobs" "shop" None; RSetGroup "shop" "jobs" "vip" plain].
End Sample.

#[local] Existing Instance Jwt.Sample.json.

Lemma self_promotion_witness :
  may_manage_users Sample.identity = false ∧
  let '(a', o) := Sample.ask (RUpdateUser "bob" None (Some "admin") None) Sample.start in
  (∃ v, o = Ret (Ok 200 (BUser v))) ∧ u_Role <$> db_GetUser "bob" (api_store a') = Some "admin".
Proof.
  split; [done|]. apply (self_promotion _ _ _ _ _ _ _ _ _ _ _ _ _ _ _ Sample.identity Sample.bob); by vm_compute.
Defined.


(** Deleting a namespace deletes its queues from the store but leaves them
    registered until the next restart. *)
Example deleted_namespace_runs :
  let a := Sample.asks Sample.jobs Sample.start in
  let '(a', o) := Sample.ask (RDeleteNamespace "shop") a in
  o = Ret (Ok 204 BNone) ∧ Name <$> registered (api_rt a') (queueKey "shop" "jobs") = Some "jobs" ∧
  registered (Sample.restart a') (queueKey "shop" "jobs") = None.
Proof. by vm_compute. Qed.

(** A group key outside the store's alphabet is accepted and used, but not
    stored, and its configuration is gone after a restart. *)
Example odd_key_not_stored :
  let a := Sample.asks Sample.jobs Sample.start in
  let '(a', o) := Sample.ask (RSetGroup "shop" "jobs" "Customer.1" Sample.plain) a in
  Sample.status (a', o) = Some 200 ∧
  Parallelism <$> (registered (api_rt a') (queueKey "shop" "jobs") ≫= GetGroupConfig "Customer.1") = Some 4 ∧
  (registered (Sample.restart a') (queueKey "shop" "jobs") ≫= GetGroupConfig "Customer.1") = None.
Proof. by vm_compute. Qed.

(** A queue whose log this process has not opened keeps its log directory when
    it is deleted, and the next start registers it again. *)
Example deleted_queue_returns :
  let a := set_root [("shop", Some [("jobs", Some ∅)])] (Sample.asks Sample.jobs Sample.start) in
  let '(a', o) := Sample.ask (RDeleteQueue "shop" "jobs") a in
  o = Ret (Ok 204 BNone) ∧ registered (api_rt a') (queueKey "shop" "jobs") = None ∧
  match recoverQueues (λ _ _ _, 0) list_order Sample.read_config (api_store a') (api_root a') (new_runtime true) with
  | Ret rt => Name <$> registered rt (queueKey "shop" "jobs") = Some "jobs"
  | Panic => False
  end.
Proof. by vm_compute. Qed.

(** Requests on namespaces, queues and groups look at no permission: the answer
    and the effect are the same for every identity, although the catalog of
    permissions has one for managing queues. *)
Lemma queue_requests_ignore_identity `{JSON} sha256 hashKey fk bcrypt compare ms us mc md is_object is_email pd e mgr id id' r a :
  match request_path r with p => HasPrefix p "/namespaces" || HasPrefix p "/queues" end = true →
  handle sha256 hashKey fk bcrypt compare ms us mc md is_object is_email pd e mgr (Some id) r a =
  handle sha256 hashKey fk bcrypt compare ms us mc md is_object is_email pd e mgr (Some id') r a.
Proof. by destruct r. Qed.

(** The key of the sample may only publish, and declares a queue. *)
Example publisher_declares_queue :
  CanManageQueues Sample.identity = false ∧ Sample.status (Sample.ask (RDeclareQueue "jobs" "main" None) Sample.start) = Some 201.
Proof. by vm_compute. Qed.

(** Without a token manager a correct password makes the login handler panic. *)
Example login_panics_without_manager : (Sample.ask (RLogin "bob" "password") Sample.start).2 = Panic.
Proof. by vm_compute. Qed.

(** A group configured through the API has no bound on its pending messages. *)
Lemma toGroupConfig_unbounded pd key b c : toGroupConfig pd key b = Some c → MaxPending c = 0.
Proof.
  unfold toGroupConfig. intros Hc.
  repeat match type of Hc with (?x ≫= _) = Some _ => destruct x; [|done]; cbn [mbind option_bind] in Hc end.
  by injection Hc as <-.
Qed.
