(* ===== verification/Config.v ===== *)
(** * Configuration (src/internal/config/config.go)

    The settings of the broker, their defaults and [Load].  The library viper,
    which merges the environment and the configuration file over the defaults
    and decodes values into fields, is outside: what the user sets is an
    argument ([settings], by key), and decoding is the class [Decoder] with the
    law that a value of the right type decodes to itself. *)

From stdpp Require Import base gmap list strings relations.
From Stdlib Require Import ZArith Lia.
From S2P Require Import Prelude Server.
Local Open Scope Z_scope.
Local Open Scope list_scope.

(** ** The settings *)

Record LogConfig := mkLogConfig { cfg_Level : string }.
Record InflightConfig := mkInflightConfig { cfg_MaxInflight : Z; cfg_GlobalMax : Z }.
Record TLSConfig := mkTLSConfig { tls_Enabled : bool; CertFile : string; KeyFile : string; CAFile : string }.
Record ServerConfig := mkServerConfig {
  srv_Host : string; srv_Port : Z; cfg_MaxConnections : Z; ConnRateLimit : Z; GlobalMaxMsgs : Z;
  ReadTimeout : Z; WriteTimeout : Z; srv_TLS : TLSConfig; Inflight : InflightConfig;
}.
Record APIConfig := mkAPIConfig { api_Host : string; api_Port : Z; api_TLS : TLSConfig }.
Record MetricsConfig := mkMetricsConfig { metrics_Enabled : bool; metrics_Port : Z }.
Record PProfConfig := mkPProfConfig { pprof_Enabled : bool; pprof_Port : Z }.
Record SessionConfig := mkSessionConfig { sess_Timeout : Z; MaxSessions : Z; CleanupInterval : Z }.
Record DefaultAdminConfig := mkDefaultAdminConfig { admin_Username : string; admin_Password : string }.
Record PasswordProviderConfig := mkPasswordProviderConfig { pw_Enabled : bool; pw_Priority : Z; BcryptCost : Z }.
Record APIKeyProviderConfig := mkAPIKeyProviderConfig {
  key_Enabled : bool; key_Priority : Z; key_Prefix : string; HashSecret : string;
}.
Record JWTProviderConfig := mkJWTProviderConfig {
  jwt_Enabled : bool; cfg_KeyType : string; cfg_KeyID : string; PrivateKey : string; PublicKey : string; HMACSecret : string;
  AccessTokenTTL : Z; RefreshTokenTTL : Z;
}.
Record OAuthConfig := mkOAuthConfig {
  oauth_Enabled : bool; Provider : string; ClientID : string; ClientSecret : string; RedirectURL : string;
  Scopes : list string; TeamsMap : gmap string string;
}.
Record MTLSConfig := mkMTLSConfig {
  mtls_Enabled : bool; ClientCACert : string; AllowedCNs : list string; AllowedSANs : list string;
}.
Record ProvidersConfig := mkProvidersConfig {
  cfg_Password : PasswordProviderConfig; cfg_APIKey : APIKeyProviderConfig; cfg_JWT : JWTProviderConfig;
  cfg_OAuth : OAuthConfig; cfg_MTLS : MTLSConfig;
}.
Record LoginRateLimitConfig := mkLoginRateLimitConfig { login_Max : Z; login_Window : Z; Lockout : Z }.
Record AuthRateLimitConfig := mkAuthRateLimitConfig { abuse_Max : Z; abuse_Window : Z }.
Record RateLimitConfig := mkRateLimitConfig { LoginAttempts : LoginRateLimitConfig; AuthAbuse : AuthRateLimitConfig }.
Record AuthConfig := mkAuthConfig {
  auth_Enabled : bool; cfg_Session : SessionConfig; Providers : ProvidersConfig; auth_RateLimit : RateLimitConfig;
  DefaultAdmin : DefaultAdminConfig;
}.
Record WALConfig := mkWALConfig {
  FlushInterval : Z; FlushMaxMessages : Z; SegmentMaxBytes : Z; cfg_Durable : bool; SnapshotInterval : Z;
}.
Record SnapshotConfig := mkSnapshotConfig { snap_Interval : Z }.
Record StorageConfig := mkStorageConfig { DataDir : string; cfg_WAL : WALConfig; cfg_Snapshot : SnapshotConfig }.
Record DefaultRetryConfig := mkDefaultRetryConfig { def_MaxAttempts : Z; def_Backoff : string; def_InitialDelay : Z; def_MaxDelay : Z }.
Record DefaultGroupConfig := mkDefaultGroupConfig {
  def_Parallelism : Z; def_LeaseTimeout : Z; def_Retry : DefaultRetryConfig; def_MaxPending : Z;
}.
Record DefaultsConfig := mkDefaultsConfig { cfg_Group : DefaultGroupConfig }.
Record Config := mkConfig {
  cfg_Log : LogConfig; cfg_Server : ServerConfig; cfg_API : APIConfig; cfg_Metrics : MetricsConfig; cfg_PProf : PProfConfig;
  cfg_Auth : AuthConfig; cfg_Storage : StorageConfig; Defaults : DefaultsConfig;
}.

(** ** Values *)

Inductive raw :=
| RString (s : string) | RInt (n : Z) | RBool (b : bool) | RDuration (d : Z) | RStrings (l : list string)
| RMap (m : gmap string string).

(** The calls of [viper.SetDefault]. *)
Definition viper_defaults : list (string * raw) := [
  ("storage.data_dir", RString "./data");
  ("server.host", RString "0.0.0.0"); ("server.port", RInt 7000);
  ("server.inflight.max_inflight", RInt 256); ("server.inflight.global_max", RInt 0);
  ("server.max_connections", RInt 10000); ("server.conn_rate_limit", RInt 1000);
  ("server.read_timeout", RDuration (30 * second)); ("server.write_timeout", RDuration (10 * second));
  ("log.level", RString "info");
  ("api.host", RString "0.0.0.0"); ("api.port", RInt 8080);
  ("storage.wal.flush_interval", RDuration (25 * millisecond)); ("storage.wal.flush_max_messages", RInt 1000);
  ("storage.wal.segment_max_bytes", RInt (Z.shiftl 512 20)); ("storage.wal.durable", RBool true);
  ("storage.wal.snapshot_interval", RDuration (60 * second)); ("storage.snapshot.interval", RDuration (5 * minute));
  ("defaults.group.parallelism", RInt 1); ("defaults.group.lease_timeout", RDuration (5 * minute));
  ("defaults.group.max_pending", RInt 10000); ("defaults.group.retry.max_attempts", RInt 3);
  ("defaults.group.retry.backoff", RString "exponential"); ("defaults.group.retry.initial_delay", RString "1s");
  ("defaults.group.retry.max_delay", RString "5m");
  ("metrics.enabled", RBool true); ("metrics.port", RInt 2112); ("pprof.enabled", RBool true); ("pprof.port", RInt 6060);
  ("auth.enabled", RBool true); ("auth.session.timeout", RDuration (24 * hour)); ("auth.session.max_sessions", RInt 100000);
  ("auth.session.cleanup_interval", RDuration (5 * minute));
  ("auth.providers.password.enabled", RBool true); ("auth.providers.password.priority", RInt 10);
  ("auth.providers.password.bcrypt_cost", RInt 12);
  ("auth.providers.api_key.enabled", RBool true); ("auth.providers.api_key.priority", RInt 20);
  ("auth.providers.api_key.prefix", RString "flw_live_");
  ("auth.providers.jwt.enabled", RBool true); ("auth.providers.jwt.key_type", RString "RSA");
  ("auth.providers.jwt.access_token_ttl", RInt 900); ("auth.providers.jwt.refresh_token_ttl", RInt 604800);
  ("auth.rate_limit.login_attempts.max", RInt 5); ("auth.rate_limit.login_attempts.window", RDuration (1 * minute));
  ("auth.rate_limit.login_attempts.lockout", RDuration (15 * minute));
  ("auth.default_admin.username", RString "admin"); ("auth.default_admin.password", RString "")
].

(** What viper decodes a value to, per type of field; nothing on an error. *)
Class Decoder := {
  to_string : raw → option string;
  to_int : raw → option Z;
  to_int32 : raw → option Z;
  to_bool : raw → option bool;
  to_duration : raw → option Z;
  to_strings : raw → option (list string);
  to_map : raw → option (gmap string string);
}.

(** Values of the type of the field, and the two durations given as texts. *)
Class DecoderLaws `{Decoder} : Prop := {
  law_string s : to_string (RString s) = Some s;
  law_int n : - 2 ^ 63 ≤ n < 2 ^ 63 → to_int (RInt n) = Some n;
  law_int32 n : - 2 ^ 31 ≤ n < 2 ^ 31 → to_int32 (RInt n) = Some n;
  law_bool b : to_bool (RBool b) = Some b;
  law_duration d : to_duration (RDuration d) = Some d;
  law_1s : to_duration (RString "1s") = Some second;
  law_5m : to_duration (RString "5m") = Some (5 * minute);
}.

(** How reading the file ended. *)
Inductive config_file := FileRead | FileNotFound | FileBroken.

Section load.
Context `{Decoder} (settings : string → option raw).

Definition viper_get (key : string) : option raw :=
  match settings key with
  | Some r => Some r
  | None => snd <$> List.find (λ kv : string * raw, bool_decide (kv.1 = key)) viper_defaults
  end.

(** A field without a value keeps Go's zero value. *)
Definition field {A} (dec : raw → option A) (zero : A) (key : string) : option A :=
  match viper_get key with Some r => dec r | None => Some zero end.

Definition get_tls (prefix : string) : option TLSConfig :=
  e ← field to_bool false (prefix +:+ ".enabled");
  c ← field to_string "" (prefix +:+ ".cert_file");
  k ← field to_string "" (prefix +:+ ".key_file");
  a ← field to_string "" (prefix +:+ ".ca_file");
  Some (mkTLSConfig e c k a).

Definition get_server : option ServerConfig :=
  host ← field to_string "" "server.host";
  port ← field to_int 0 "server.port";
  maxc ← field to_int 0 "server.max_connections";
  rate ← field to_int 0 "server.conn_rate_limit";
  msgs ← field to_int 0 "server.global_max_messages";
  rt ← field to_duration 0 "server.read_timeout";
  wt ← field to_duration 0 "server.write_timeout";
  tls ← get_tls "server.tls";
  mi ← field to_int32 0 "server.inflight.max_inflight";
  gm ← field to_int 0 "server.inflight.global_max";
  Some (mkServerConfig host port maxc rate msgs rt wt tls (mkInflightConfig mi gm)).

Definition get_providers : option ProvidersConfig :=
  pe ← field to_bool false "auth.providers.password.enabled";
  pp ← field to_int 0 "auth.providers.password.priority";
  pc ← field to_int 0 "auth.providers.password.bcrypt_cost";
  ke ← field to_bool false "auth.providers.api_key.enabled";
  kp ← field to_int 0 "auth.providers.api_key.priority";
  kx ← field to_string "" "auth.providers.api_key.prefix";
  kh ← field to_string "" "auth.providers.api_key.hash_secret";
  je ← field to_bool false "auth.providers.jwt.enabled";
  jt ← field to_string "" "auth.providers.jwt.key_type";
  ji ← field to_string "" "auth.providers.jwt.key_id";
  jp ← field to_string "" "auth.providers.jwt.private_key";
  ju ← field to_string "" "auth.providers.jwt.public_key";
  jh ← field to_string "" "auth.providers.jwt.hmac_secret";
  ja ← field to_int 0 "auth.providers.jwt.access_token_ttl";
  jr ← field to_int 0 "auth.providers.jwt.refresh_token_ttl";
  oe ← field to_bool false "auth.providers.oauth.enabled";
  op ← field to_string "" "auth.providers.oauth.provider";
  oi ← field to_string "" "auth.providers.oauth.client_id";
  os ← field to_string "" "auth.providers.oauth.client_secret";
  ou ← field to_string "" "auth.providers.oauth.redirect_url";
  oc ← field to_strings [] "auth.providers.oauth.scopes";
  ot ← field to_map ∅ "auth.providers.oauth.teams_map";
  me ← field to_bool false "auth.providers.mtls.enabled";
  mc ← field to_string "" "auth.providers.mtls.client_ca_cert";
  mn ← field to_strings [] "auth.providers.mtls.allowed_cns";
  ms ← field to_strings [] "auth.providers.mtls.allowed_sans";
  Some (mkProvidersConfig (mkPasswordProviderConfig pe pp pc) (mkAPIKeyProviderConfig ke kp kx kh)
    (mkJWTProviderConfig je jt ji jp ju jh ja jr) (mkOAuthConfig oe op oi os ou oc ot) (mkMTLSConfig me mc mn ms)).

Definition get_auth : option AuthConfig :=
  e ← field to_bool false "auth.enabled";
  st ← field to_duration 0 "auth.session.timeout";
  sm ← field to_int 0 "auth.session.max_sessions";
  sc ← field to_duration 0 "auth.session.cleanup_interval";
  p ← get_providers;
  lm ← field to_int 0 "auth.rate_limit.login_attempts.max";
  lw ← field to_duration 0 "auth.rate_limit.login_attempts.window";
  ll ← field to_duration 0 "auth.rate_limit.login_attempts.lockout";
  am ← field to_int 0 "auth.rate_limit.auth_abuse.max";
  aw ← field to_duration 0 "auth.rate_limit.auth_abuse.window";
  u ← field to_string "" "auth.default_admin.username";
  w ← field to_string "" "auth.default_admin.password";
  Some (mkAuthConfig e (mkSessionConfig st sm sc) p
    (mkRateLimitConfig (mkLoginRateLimitConfig lm lw ll) (mkAuthRateLimitConfig am aw)) (mkDefaultAdminConfig u w)).

Definition get_storage : option StorageConfig :=
  d ← field to_string "" "storage.data_dir";
  fi ← field to_duration 0 "storage.wal.flush_interval";
  fm ← field to_int 0 "storage.wal.flush_max_messages";
  sb ← field to_int 0 "storage.wal.segment_max_bytes";
  du ← field to_bool false "storage.wal.durable";
  si ← field to_duration 0 "storage.wal.snapshot_interval";
  ii ← field to_duration 0 "storage.snapshot.interval";
  Some (mkStorageConfig d (mkWALConfig fi fm sb du si) (mkSnapshotConfig ii)).

Definition get_defaults : option DefaultsConfig :=
  p ← field to_int 0 "defaults.group.parallelism";
  l ← field to_duration 0 "defaults.group.lease_timeout";
  ra ← field to_int 0 "defaults.group.retry.max_attempts";
  rb ← field to_string "" "defaults.group.retry.backoff";
  ri ← field to_duration 0 "defaults.group.retry.initial_delay";
  rm ← field to_duration 0 "defaults.group.retry.max_delay";
  mp ← field to_int 0 "defaults.group.max_pending";
  Some (mkDefaultsConfig (mkDefaultGroupConfig p l (mkDefaultRetryConfig ra rb ri rm) mp)).

(** [viper.Unmarshal] *)
Definition Unmarshal : option Config :=
  level ← field to_string "" "log.level";
  server ← get_server;
  ah ← field to_string "" "api.host";
  ap ← field to_int 0 "api.port";
  atls ← get_tls "api.tls";
  me ← field to_bool false "metrics.enabled";
  mp ← field to_int 0 "metrics.port";
  pe ← field to_bool false "pprof.enabled";
  pp ← field to_int 0 "pprof.port";
  auth ← get_auth;
  storage ← get_storage;
  defaults ← get_defaults;
  Some (mkConfig (mkLogConfig level) server (mkAPIConfig ah ap atls) (mkMetricsConfig me mp) (mkPProfConfig pe pp)
    auth storage defaults).
End load.

(** ** After decoding *)

Definition positive_or (d n : Z) : Z := if n <=? 0 then d else n.

Definition normal_wal (w : WALConfig) : WALConfig :=
  mkWALConfig (positive_or (10 * millisecond) (FlushInterval w)) (positive_or 1000 (FlushMaxMessages w))
    (positive_or (Z.shiftl 512 20) (SegmentMaxBytes w)) (cfg_Durable w) (positive_or (60 * second) (SnapshotInterval w)).

Definition normal_server (s : ServerConfig) : ServerConfig :=
  mkServerConfig (srv_Host s) (srv_Port s) (positive_or 10000 (cfg_MaxConnections s)) (positive_or 1000 (ConnRateLimit s))
    (GlobalMaxMsgs s) (positive_or (30 * second) (ReadTimeout s)) (positive_or (10 * second) (WriteTimeout s)) (srv_TLS s) (Inflight s).

Definition normalise (c : Config) : Config :=
  let st := cfg_Storage c in
  mkConfig (cfg_Log c) (normal_server (cfg_Server c)) (cfg_API c) (cfg_Metrics c) (cfg_PProf c) (cfg_Auth c)
    (mkStorageConfig (DataDir st) (normal_wal (cfg_WAL st)) (cfg_Snapshot st)) (Defaults c).

(** A missing file is no error; any other failure to read it is. *)
Definition Load `{Decoder} (file : config_file) (settings : string → option raw) : option Config :=
  match file with
  | FileBroken => None
  | FileRead | FileNotFound => normalise <$> Unmarshal settings
  end.

(** ** The defaults *)

Definition no_tls : TLSConfig := mkTLSConfig false "" "" "".
Definition default_config : Config :=
  mkConfig (mkLogConfig "info")
    (mkServerConfig "0.0.0.0" 7000 10000 1000 0 (30 * second) (10 * second) no_tls (mkInflightConfig 256 0))
    (mkAPIConfig "0.0.0.0" 8080 no_tls) (mkMetricsConfig true 2112) (mkPProfConfig true 6060)
    (mkAuthConfig true (mkSessionConfig (24 * hour) 100000 (5 * minute))
      (mkProvidersConfig (mkPasswordProviderConfig true 10 12) (mkAPIKeyProviderConfig true 20 "flw_live_" "")
        (mkJWTProviderConfig true "RSA" "" "" "" "" 900 604800) (mkOAuthConfig false "" "" "" "" [] ∅) (mkMTLSConfig false "" [] []))
      (mkRateLimitConfig (mkLoginRateLimitConfig 5 minute (15 * minute)) (mkAuthRateLimitConfig 0 0)) (mkDefaultAdminConfig "admin" ""))
    (mkStorageConfig "./data" (mkWALConfig (25 * millisecond) 1000 536870912 true (60 * second)) (mkSnapshotConfig (5 * minute)))
    (mkDefaultsConfig (mkDefaultGroupConfig 1 (5 * minute) (mkDefaultRetryConfig 3 "exponential" second (5 * minute)) 10000)).

Lemma field_default `{Decoder} {A} (dec : raw → option A) zero key r a :
  List.find (λ kv : string * raw, bool_decide (kv.1 = key)) viper_defaults = Some (key, r) → dec r = Some a →
  field (λ _, None) dec zero key = Some a.
Proof. unfold field, viper_get. by intros ->. Qed.

Lemma field_zero `{Decoder} {A} (dec : raw → option A) zero key :
  List.find (λ kv : string * raw, bool_decide (kv.1 = key)) viper_defaults = None →
  field (λ _, None) dec zero key = Some zero.
Proof. unfold field, viper_get. by intros ->. Qed.

(** One field of a configuration nobody touched. *)
Ltac default_field :=
  match goal with
  | |- context [field (λ _, None) ?dec ?zero ?key] =>
      first
        [ rewrite (field_zero dec zero key eq_refl)
        | erewrite (field_default dec zero key);
          [|reflexivity|first [apply law_string|apply law_int; done|apply law_int32; done|apply law_bool|apply law_duration
                              |apply law_1s|apply law_5m]] ];
      cbn [mbind option_bind]
  end.

(** Without a configuration file and without settings [Load] succeeds and gives
    the documented defaults, all of them. *)
Theorem load_defaults `{DecoderLaws} : Load FileNotFound (λ _, None) = Some default_config.
Proof.
  unfold Load, Unmarshal, get_server, get_auth, get_providers, get_storage, get_defaults, get_tls.
  cbn [String.app]. repeat default_field. by vm_compute.
Qed.

(** ** What a loaded configuration guarantees *)

Record usable (c : Config) : Prop := {
  us_flush : 0 < FlushInterval (cfg_WAL (cfg_Storage c));
  us_batch : 0 < FlushMaxMessages (cfg_WAL (cfg_Storage c));
  us_segment : 0 < SegmentMaxBytes (cfg_WAL (cfg_Storage c));
  us_snapshot : 0 < SnapshotInterval (cfg_WAL (cfg_Storage c));
  us_conns : 0 < cfg_MaxConnections (cfg_Server c);
  us_rate : 0 < ConnRateLimit (cfg_Server c);
  us_read : 0 < ReadTimeout (cfg_Server c);
  us_write : 0 < WriteTimeout (cfg_Server c);
}.

Lemma positive_or_pos d n : 0 < d → 0 < positive_or d n.
Proof. unfold positive_or. destruct (Z.leb_spec n 0); lia. Qed.
Lemma positive_or_id d n : 0 < n → positive_or d n = n.
Proof. unfold positive_or. destruct (Z.leb_spec n 0); lia. Qed.
Lemma positive_or_zero d n : n ≤ 0 → positive_or d n = d.
Proof. unfold positive_or. destruct (Z.leb_spec n 0); lia. Qed.

Lemma normalise_usable c : usable (normalise c).
Proof. split; by apply positive_or_pos. Qed.

Lemma normalise_id c : usable c → normalise c = c.
Proof.
  intros [H1 H2 H3 H4 H5 H6 H7 H8]. destruct c as [? sv ? ? ? ? st ?], sv, st as [? w ?], w.
  unfold normalise, normal_server, normal_wal. cbn in *. by rewrite !positive_or_id by done.
Qed.

(** Whatever a user sets, a configuration that loads is usable: the flush,
    snapshot and timeout intervals, the batch and segment sizes and the two
    limits on connections are positive; values that were usable already are the
    ones the user set, and a setting that does not decode or a broken file is an
    error, not a default. *)
Theorem load_spec `{Decoder} file settings :
  match Load file settings with
  | Some c => usable c ∧ file ≠ FileBroken ∧ ∃ u, Unmarshal settings = Some u ∧ (usable u → c = u)
  | None => file = FileBroken ∨ Unmarshal settings = None
  end.
Proof.
  unfold Load. destruct file; [| |by left]; (destruct (Unmarshal settings) as [u|] eqn:E; [|by right]);
    (split_and!; [apply normalise_usable|done|]; exists u; split; [done|]; apply normalise_id).
Qed.

(** ** The server of a configuration *)

(** [broker.New] passes the limits on, the first converted to an int32. *)
Definition server_of (c : Config) : TCPServer :=
  NewTCPServer (i32 (cfg_MaxConnections (cfg_Server c))) (0 <? ConnRateLimit (cfg_Server c)).


(** Decoding that accepts values of the field's own type only. *)
#[local] Instance strict : Decoder := {|
  to_string r := match r with RString s => Some s | _ => None end;
  to_int r := match r with RInt n => Some n | _ => None end;
  to_int32 r := match r with RInt n => Some n | _ => None end;
  to_bool r := match r with RBool b => Some b | _ => None end;
  to_duration r := match r with
    | RDuration d => Some d
    | RString s => if bool_decide (s = "1s") then Some second else if bool_decide (s = "5m") then Some (5 * minute) else None
    | _ => None end;
  to_strings r := match r with RStrings l => Some l | _ => None end;
  to_map r := match r with RMap m => Some m | _ => None end;
|}.
#[local] Instance strict_laws : DecoderLaws.
Proof. by split. Qed.

Definition setting (key : string) (r : raw) (k : string) : option raw := if bool_decide (k = key) then Some r else None.

Lemma load_defaults_witness : Load FileNotFound (λ _, None) = Some default_config.
Proof. apply (@load_defaults strict strict_laws). Defined.


(** A limit of 2^32 is converted to 0, which the server takes for no limit. *)
Example huge_limit_is_none :
  MaxConnections ∘ server_of <$> Load FileRead (setting "server.max_connections" (RInt (2 ^ 32))) = Some 0.
Proof. by vm_compute. Qed.

(** The comment on the field says that 0 stands for no rate limit; [Load] makes
    it 1000. *)
Example zero_rate_is_default :
  ConnRateLimit ∘ cfg_Server <$> Load FileRead (setting "server.conn_rate_limit" (RInt 0)) = Some 1000.
Proof. by vm_compute. Qed.
