(* ===== verification/Credentials.v ===== *)
(** * Stored credentials (src/internal/db/auth.go)

    The tables of API keys and sessions, with their constraints, and the
    methods of the store on them.  Times are kept as RFC 3339 texts: package
    time's Format and Parse are the class [Rfc3339], whose law is that a text
    reads back as its instant without the fraction of a second. *)

From stdpp Require Import base gmap list strings.
From Stdlib Require Import ZArith Lia.
From S2P Require Import Prelude Auth Jwt Table Database.
Local Open Scope Z_scope.
Local Open Scope list_scope.

Class Rfc3339 := { Format : Z → string; Parse : string → option Z }.
Definition whole_second (t : Z) : Z := t / second * second.
Class Rfc3339Laws `{Rfc3339} : Prop := { parse_format t : Parse (Format t) = Some (whole_second t) }.

(** ** Rows *)

Record APIKey := mkAPIKey {
  key_ID : Z; KeyHash : string; key_SubjectID : string; key_Namespace : string; key_Permissions : string; key_prefix : string;
  key_ExpiresAt : option string; RevokedAt : option string;
}.
Record Session := mkSession {
  sess_ID : Z; SessionID : string; sess_SubjectID : string; sess_SubjectType : string; sess_RemoteAddr : string;
  sess_CreatedAt : string; sess_ExpiresAt : option string; LastSeen : option string;
}.

Record credentials := mkCredentials { api_keys : table APIKey; sessions : table Session }.
Definition new_credentials : credentials := mkCredentials empty_table empty_table.
Definition set_api_keys x (c : credentials) := mkCredentials x (sessions c).
Definition set_sessions x (c : credentials) := mkCredentials (api_keys c) x.

Section credentials.
Context `{Rfc3339} (marshal_string : string → string).

(** ** API keys *)

Definition CreateAPIKey (s : Store) (keyHash subjectID namespace permissions prefix : string) (expiresAt : option Z)
    (c : credentials) : credentials * option db_error :=
  if negb (bool_decide (namespace = "")) && negb (bool_decide (namespace = "*"))
     && negb (bool_decide (is_Some (GetNamespace namespace s)))
  then (c, Some ErrNotFound)
  else match row_of KeyHash keyHash (api_keys c) with
       | Some _ => (c, Some ErrConflict)
       | None =>
           (set_api_keys (insert_row (λ id, mkAPIKey id keyHash subjectID namespace (marshal_string permissions) prefix
              (Format <$> expiresAt) None) (api_keys c)) c, None)
       end.

(** A text that does not parse is no expiry. *)
Definition expired (now : Z) (expires : option string) : bool :=
  match expires with
  | None => false
  | Some text => match Parse text with Some exp => exp <? now | None => false end
  end.

Definition GetAPIKey (now : Z) (keyHash : string) (c : credentials) : option APIKey :=
  match head (select (λ r, KeyHash r = keyHash ∧ RevokedAt r = None) (api_keys c)) with
  | None => None
  | Some key => if expired now (key_ExpiresAt key) then None else Some key
  end.

Definition revoke (ts : string) (r : APIKey) : APIKey :=
  mkAPIKey (key_ID r) (KeyHash r) (key_SubjectID r) (key_Namespace r) (key_Permissions r) (key_prefix r) (key_ExpiresAt r) (Some ts).

Definition RevokeAPIKey (ts keyHash : string) (c : credentials) : credentials * option db_error :=
  (set_api_keys (update_where (λ r, KeyHash r = keyHash) (revoke ts) (api_keys c)) c,
   match select (λ r, KeyHash r = keyHash) (api_keys c) with [] => Some ErrNotFound | _ => None end).

(** ** Sessions *)

Definition CreateSession (ts sessionID subjectID subjectType remoteAddr : string) (expiresAt : option Z) (c : credentials)
    : credentials * option db_error :=
  match row_of SessionID sessionID (sessions c) with
  | Some _ => (c, Some ErrConflict)
  | None =>
      (set_sessions (insert_row (λ id, mkSession id sessionID subjectID subjectType remoteAddr ts (Format <$> expiresAt) None)
         (sessions c)) c, None)
  end.

Definition GetSession (now : Z) (sessionID : string) (c : credentials) : option Session :=
  match row_of SessionID sessionID (sessions c) with
  | None => None
  | Some sess => if expired now (sess_ExpiresAt sess) then None else Some sess
  end.

Definition DeleteSession (sessionID : string) (c : credentials) : credentials * option db_error :=
  (set_sessions (delete_where (λ r, SessionID r = sessionID) (sessions c)) c,
   match select (λ r, SessionID r = sessionID) (sessions c) with [] => Some ErrNotFound | _ => None end).

End credentials.

(** ** What they promise *)

(** A key: whose it is, until when, and whether it has been revoked; a session:
    whose it is and until when. *)
Record key_grant := mkKeyGrant {
  g_subject : string; g_namespace : string; g_permissions : string; g_until : option Z; g_revoked : bool;
}.
Record session_grant := mkSessionGrant { s_subject : string; s_type : string; s_addr : string; s_until : option Z }.
Abbreviation vault := (gmap string key_grant * gmap string session_grant)%type.

Inductive credential_op :=
| OpCreateKey (s : Store) (keyHash subjectID namespace permissions prefix : string) (expiresAt : option Z)
| OpRevokeKey (keyHash : string)
| OpCreateSession (sessionID subjectID subjectType remoteAddr : string) (expiresAt : option Z)
| OpDeleteSession (sessionID : string).

Section spec.
Context `{Rfc3339} (marshal_string : string → string).

Definition run_credential (x : string * credential_op) (c : credentials) : credentials * option db_error :=
  match x.2 with
  | OpCreateKey s h u ns p pre exp => CreateAPIKey marshal_string s h u ns p pre exp c
  | OpRevokeKey h => RevokeAPIKey x.1 h c
  | OpCreateSession id u t a exp => CreateSession x.1 id u t a exp c
  | OpDeleteSession id => DeleteSession id c
  end.

Definition namespace_known (s : Store) (ns : string) : bool :=
  bool_decide (ns = "" ∨ ns = "*" ∨ is_Some (GetNamespace ns s)).

Definition spec_credential (op : credential_op) (v : vault) : vault * option db_error :=
  match op with
  | OpCreateKey s h u ns p _ exp =>
      if negb (namespace_known s ns) then (v, Some ErrNotFound)
      else match v.1 !! h with
           | Some _ => (v, Some ErrConflict)
           | None => ((<[h := mkKeyGrant u ns (marshal_string p) (whole_second <$> exp) false]> v.1, v.2), None)
           end
  | OpRevokeKey h =>
      match v.1 !! h with
      | None => (v, Some ErrNotFound)
      | Some g => ((<[h := mkKeyGrant (g_subject g) (g_namespace g) (g_permissions g) (g_until g) true]> v.1, v.2), None)
      end
  | OpCreateSession id u t a exp =>
      match v.2 !! id with
      | Some _ => (v, Some ErrConflict)
      | None => ((v.1, <[id := mkSessionGrant u t a (whole_second <$> exp)]> v.2), None)
      end
  | OpDeleteSession id =>
      match v.2 !! id with
      | None => (v, Some ErrNotFound)
      | Some _ => ((v.1, delete id v.2), None)
      end
  end.

End spec.

(** In force at an instant. *)
Definition in_force (now : Z) (until : option Z) : bool := match until with Some t => negb (t <? now) | None => true end.

(** ** The tables keep the promise *)

Section refinement.
Context `{Rfc3339Laws} (marshal_string : string → string).

Definition until_of (expires : option string) : option Z := expires ≫= Parse.
Definition grant_of (r : APIKey) : key_grant :=
  mkKeyGrant (key_SubjectID r) (key_Namespace r) (key_Permissions r) (until_of (key_ExpiresAt r)) (bool_decide (is_Some (RevokedAt r))).
Definition session_of (r : Session) : session_grant :=
  mkSessionGrant (sess_SubjectID r) (sess_SubjectType r) (sess_RemoteAddr r) (until_of (sess_ExpiresAt r)).

Record holds (c : credentials) (v : vault) : Prop := {
  h_keys_ok : table_ok KeyHash key_ID (api_keys c);
  h_sessions_ok : table_ok SessionID sess_ID (sessions c);
  h_keys : ∀ h, v.1 !! h = grant_of <$> row_of KeyHash h (api_keys c);
  h_sessions : ∀ id, v.2 !! id = session_of <$> row_of SessionID id (sessions c);
}.

Lemma until_format exp : until_of (Format <$> exp) = whole_second <$> exp.
Proof. destruct exp; [apply parse_format|done]. Qed.

Lemma expired_until now expires : expired now expires = negb (in_force now (until_of expires)).
Proof. destruct expires as [t|]; [|done]. cbn. destruct (Parse t); [|done]. cbn. by rewrite negb_involutive. Qed.

Lemma select_none {A K} `{EqDecision K} (key : A → K) k (t : table A) :
  match select (λ r, key r = k) t with [] => Some ErrNotFound | _ => None end =
  match row_of key k t with None => Some ErrNotFound | Some _ => None end.
Proof. unfold row_of. by destruct (select _ t). Qed.

Lemma known_guard s ns :
  negb (bool_decide (ns = "")) && negb (bool_decide (ns = "*")) && negb (bool_decide (is_Some (GetNamespace ns s))) =
  negb (namespace_known s ns).
Proof. unfold namespace_known. repeat case_bool_decide; naive_solver. Qed.

(** Unrevoked rows of a hash. *)
Lemma unrevoked h t :
  table_ok KeyHash key_ID t →
  head (select (λ r, KeyHash r = h ∧ RevokedAt r = None) t) = r ← row_of KeyHash h t; if decide (RevokedAt r = None) then Some r else None.
Proof.
  intros Ht. transitivity (row_of KeyHash h (delete_where (λ r, RevokedAt r ≠ None) t)).
  - unfold row_of, select, delete_where. cbn [rows]. rewrite list_filter_filter. f_equal. apply list_filter_iff.
    intros r. destruct (decide (RevokedAt r = None)); naive_solver.
  - rewrite (row_of_delete _ key_ID) by done. destruct (row_of KeyHash h t) as [r|]; [|done]. cbn.
    destruct (decide (RevokedAt r ≠ None)), (decide (RevokedAt r = None)); naive_solver.
Qed.

Lemma create_key_holds s h u ns p pre exp c v :
  holds c v →
  let '(c', e) := CreateAPIKey marshal_string s h u ns p pre exp c in
  let '(v', e') := spec_credential marshal_string (OpCreateKey s h u ns p pre exp) v in holds c' v' ∧ e = e'.
Proof.
  intros Hh. unfold CreateAPIKey. cbn. rewrite known_guard. destruct (negb (namespace_known s ns)); [done|].
  rewrite (h_keys _ _ Hh). destruct (row_of KeyHash h (api_keys c)) as [r|] eqn:E; [done|]. cbn. split; [|done].
  destruct Hh as [H1 H2 H3 H4]. split; cbn; [by apply insert_row_ok|done| |done].
  intros h'. rewrite row_of_insert by done. cbn. destruct (decide (h = h')) as [<-|Hne].
  - rewrite lookup_insert_eq. cbn. unfold grant_of. cbn. by rewrite until_format.
  - by rewrite lookup_insert_ne by done.
Qed.

Lemma revoke_key_holds ts h c v :
  holds c v →
  let '(c', e) := RevokeAPIKey ts h c in
  let '(v', e') := spec_credential marshal_string (OpRevokeKey h) v in holds c' v' ∧ e = e'.
Proof.
  intros Hh. unfold RevokeAPIKey. cbn. rewrite select_none, (h_keys _ _ Hh).
  assert (∀ h', row_of KeyHash h' (update_where (λ r, KeyHash r = h) (revoke ts) (api_keys c)) =
    (if decide (h' = h) then revoke ts else λ r, r) <$> row_of KeyHash h' (api_keys c)) as Hr.
  { intros h'. rewrite row_of_update by done. destruct (row_of KeyHash h' (api_keys c)) as [r|] eqn:E; [|done].
    apply row_of_Some_2 in E as [_ <-]. cbn. by destruct (decide (KeyHash r = h)). }
  destruct Hh as [H1 H2 H3 H4]. destruct (row_of KeyHash h (api_keys c)) as [r|] eqn:E; cbn; (split; [|done]);
    (split; cbn; [by apply update_where_ok|done| |done]); intros h'; rewrite Hr.
  - destruct (decide (h' = h)) as [->|Hne]; [by rewrite lookup_insert_eq, E|]. rewrite lookup_insert_ne, H3 by done.
    by destruct (row_of _ h' _).
  - destruct (decide (h' = h)) as [->|Hne]; [by rewrite H3, E|]. rewrite H3. by destruct (row_of _ h' _).
Qed.

Lemma create_session_holds ts id u t a exp c v :
  holds c v →
  let '(c', e) := CreateSession ts id u t a exp c in
  let '(v', e') := spec_credential marshal_string (OpCreateSession id u t a exp) v in holds c' v' ∧ e = e'.
Proof.
  intros Hh. unfold CreateSession. cbn. rewrite (h_sessions _ _ Hh).
  destruct (row_of SessionID id (sessions c)) as [r|] eqn:E; [done|]. cbn. split; [|done].
  destruct Hh as [H1 H2 H3 H4]. split; cbn; [done|by apply insert_row_ok|done|].
  intros id'. rewrite row_of_insert by done. cbn. destruct (decide (id = id')) as [<-|Hne].
  - rewrite lookup_insert_eq. cbn. unfold session_of. cbn. by rewrite until_format.
  - by rewrite lookup_insert_ne by done.
Qed.

Lemma delete_session_holds id c v :
  holds c v →
  let '(c', e) := DeleteSession id c in
  let '(v', e') := spec_credential marshal_string (OpDeleteSession id) v in holds c' v' ∧ e = e'.
Proof.
  intros Hh. unfold DeleteSession. cbn. rewrite select_none, (h_sessions _ _ Hh). destruct Hh as [H1 H2 H3 H4].
  assert (∀ id', row_of SessionID id' (delete_where (λ r, SessionID r = id) (sessions c)) =
    if decide (id' = id) then None else row_of SessionID id' (sessions c)) as Hr.
  { intros id'. rewrite (row_of_delete _ sess_ID) by done. destruct (row_of SessionID id' (sessions c)) as [r|] eqn:E.
    - apply row_of_Some_2 in E as [_ <-]. cbn. by destruct (decide (SessionID r = id)).
    - by destruct (decide (id' = id)). }
  destruct (row_of SessionID id (sessions c)) as [r|] eqn:E; cbn; (split; [|done]);
    (split; cbn; [done|by apply delete_where_ok|done|]); intros id'; rewrite Hr.
  - destruct (decide (id' = id)) as [->|Hne]; [by rewrite lookup_delete_eq|]. by rewrite lookup_delete_ne, H4 by done.
  - destruct (decide (id' = id)) as [->|Hne]; [by rewrite H4, E|]. by rewrite H4.
Qed.

Lemma run_credential_holds x c v :
  holds c v →
  let '(c', e) := run_credential marshal_string x c in
  let '(v', e') := spec_credential marshal_string x.2 v in holds c' v' ∧ e = e'.
Proof.
  destruct x as [ts []]; [apply create_key_holds|apply revoke_key_holds|apply create_session_holds|apply delete_session_holds].
Qed.

Fixpoint run_credentials (l : list (string * credential_op)) (c : credentials) : credentials * list (option db_error) :=
  match l with
  | [] => (c, [])
  | x :: l => let '(c, e) := run_credential marshal_string x c in let '(c, es) := run_credentials l c in (c, e :: es)
  end.
Fixpoint spec_credentials (l : list credential_op) (v : vault) : vault * list (option db_error) :=
  match l with
  | [] => (v, [])
  | op :: l => let '(v, e) := spec_credential marshal_string op v in let '(v, es) := spec_credentials l v in (v, e :: es)
  end.

Lemma run_credentials_holds l c v :
  holds c v →
  holds (run_credentials l c).1 (spec_credentials l.*2 v).1 ∧ (run_credentials l c).2 = (spec_credentials l.*2 v).2.
Proof.
  revert c v. induction l as [|x l IH]; intros c v Hh; [done|]. cbn.
  pose proof (run_credential_holds x c v Hh) as Hx. destruct (run_credential _ x c) as [c' e], (spec_credential _ x.2 v) as [v' e'].
  destruct Hx as [Hh' ->]. destruct (IH c' v' Hh') as [H1 H2].
  destruct (run_credentials l c'), (spec_credentials l.*2 v'). cbn in *. by subst.
Qed.

Lemma new_holds : holds new_credentials (∅, ∅).
Proof. split; cbn; [apply empty_table_ok|apply empty_table_ok|done|done]. Qed.

(** What the two lookups answer. *)
Lemma GetAPIKey_spec now h c v :
  holds c v →
  grant_of <$> GetAPIKey now h c = g ← v.1 !! h; if negb (g_revoked g) && in_force now (g_until g) then Some g else None.
Proof.
  intros [H1 _ H3 _]. unfold GetAPIKey. rewrite unrevoked, H3 by done. destruct (row_of KeyHash h (api_keys c)) as [r|]; [|done].
  cbn. destruct (decide (RevokedAt r = None)) as [E|E].
  - cbn. rewrite expired_until. rewrite bool_decide_eq_false_2 by (rewrite E; by intros []). cbn. by destruct (in_force _ _).
  - rewrite bool_decide_eq_true_2; [done|]. by destruct (RevokedAt r); [eexists|].
Qed.

Lemma GetSession_spec now id c v :
  holds c v → session_of <$> GetSession now id c = g ← v.2 !! id; if in_force now (s_until g) then Some g else None.
Proof.
  intros [_ _ _ H4]. unfold GetSession. rewrite H4. destruct (row_of SessionID id (sessions c)) as [r|]; [|done].
  cbn. rewrite expired_until. by destruct (in_force _ _).
Qed.

(** The tables of credentials keep their promise: under any sequence of
    creations, revocations and deletions the methods answer as the two maps of
    grants do, and afterwards a key is found exactly when it was created, never
    revoked since and its last whole second has not passed, with the subject,
    namespace and permissions it was created with; likewise a session until it
    is deleted. *)
Theorem credentials_refine l now h id :
  let '(c, es) := run_credentials l new_credentials in
  let '(v, es') := spec_credentials l.*2 (∅, ∅) in
  es = es' ∧
  (grant_of <$> GetAPIKey now h c = g ← v.1 !! h; if negb (g_revoked g) && in_force now (g_until g) then Some g else None) ∧
  (session_of <$> GetSession now id c = g ← v.2 !! id; if in_force now (s_until g) then Some g else None).
Proof.
  destruct (run_credentials_holds l new_credentials (∅, ∅) new_holds) as [Hh Hes].
  destruct (run_credentials l new_credentials), (spec_credentials l.*2 (∅, ∅)).
  split_and!; [done|by apply GetAPIKey_spec|by apply GetSession_spec].
Qed.

(** A revoked key stays so: no later operation brings it back, and its hash
    cannot be used again. *)
Lemma spec_revoked_stays l v h g :
  v.1 !! h = Some g → g_revoked g = true → ∃ g', (spec_credentials l v).1.1 !! h = Some g' ∧ g_revoked g' = true.
Proof.
  revert v g. induction l as [|op l IH]; intros v g Hv Hg; [by exists g|]. cbn.
  assert (∃ g', (spec_credential marshal_string op v).1.1 !! h = Some g' ∧ g_revoked g' = true) as (g' & H1 & H2).
  { destruct op as [s h' u ns p pre exp|h'|id u t a exp|id]; cbn.
    - destruct (negb _); [by exists g|]. destruct (v.1 !! h') eqn:E; [by exists g|]. cbn. exists g. rewrite lookup_insert_ne by congruence. done.
    - destruct (v.1 !! h') as [g0|] eqn:E; [|by exists g]. cbn. destruct (decide (h' = h)) as [->|Hne].
      + rewrite lookup_insert_eq. by eexists.
      + rewrite lookup_insert_ne by done. by exists g.
    - destruct (v.2 !! id); by exists g.
    - destruct (v.2 !! id); by exists g. }
  destruct (spec_credential marshal_string op v) as [v' e]. cbn in *.
  destruct (IH v' g' H1 H2) as (g'' & H3 & H4). destruct (spec_credentials l v'). cbn in *. by exists g''.
Qed.
End refinement.

(** Texts that keep the seconds. *)
#[local] Instance seconds_text : Rfc3339 := {|
  Format t := String.string_of_list_byte (Jwt.Sample.pos_bytes (encode (t / second)));
  Parse s := (λ n, n * second) <$> decode (Jwt.Sample.bytes_pos (String.list_byte_of_string s));
|}.
#[local] Instance seconds_text_laws : Rfc3339Laws.
Proof.
  split. intros t. cbv [Format Parse seconds_text]. rewrite String.list_byte_of_string_of_list_byte, Jwt.Sample.bytes_pos_bytes. by rewrite countable.decode_encode.
Qed.

(** A key that ends after 1.5 s is good during the first second only. *)
Definition sample_credentials : list (string * credential_op) :=
  [("t", OpCreateKey new_store "h" "svc" "" "publish" "p" (Some (1500 * millisecond)));
   ("t", OpCreateKey new_store "h" "other" "" "publish" "p" None);
   ("t", OpCreateSession "s1" "bob" "user" "::1" None); ("t", OpDeleteSession "s1"); ("t", OpRevokeKey "k")].

Lemma credentials_refine_witness :
  let '(c, es) := run_credentials id sample_credentials new_credentials in
  es = [None; Some ErrConflict; None; None; Some ErrNotFound] ∧
  g_subject ∘ grant_of <$> GetAPIKey second "h" c = Some "svc" ∧ GetSession second "s1" c = None ∧
  g_subject ∘ grant_of <$> GetAPIKey (1200 * millisecond) "h" c = None.
Proof.
  pose proof (credentials_refine id sample_credentials second "h" "s1") as H1.
  destruct (run_credentials id sample_credentials new_credentials) as [c es] eqn:E.
  destruct (spec_credentials id sample_credentials.*2 (∅, ∅)) as [v es'] eqn:E'. destruct H1 as (H1 & H2 & H3).
  vm_compute in E'. injection E' as <- <-. split_and!; [done| | |].
  - rewrite option_fmap_compose, H2. by vm_compute.
  - vm_compute in E. injection E as <- <-. by vm_compute.
  - vm_compute in E. injection E as <- <-. by vm_compute.
Defined.
