(* ===== verification/AuditLog.v ===== *)
(** * The audit log (src/internal/auth/audit/audit.go, src/internal/db/audit.go)

    The logger keeps the latest events in memory and hands every one to the
    handler [auth.NewService] installs, which writes it to the table of audit
    events.  Package time's RFC 3339 texts are the class [Rfc3339]; encoding/json
    of the metadata is a parameter. *)

From stdpp Require Import base gmap list sorting strings pretty.
From Stdlib Require Import ZArith Lia Strings.Byte Strings.Ascii.
From S2P Require Import Prelude Auth Jwt Table Database Credentials.
Local Open Scope Z_scope.
Local Open Scope list_scope.

(** ** Events *)

Definition EventAuthSuccess : string := "AUTH_SUCCESS".
Definition EventAuthFailure : string := "AUTH_FAILURE".
Definition EventTokenIssued : string := "TOKEN_ISSUED".
Definition EventTokenRevoked : string := "TOKEN_REVOKED".
Definition EventTokenRefreshed : string := "TOKEN_REFRESHED".
Definition EventAPIKeyCreated : string := "API_KEY_CREATED".
Definition EventAPIKeyRevoked : string := "API_KEY_REVOKED".
Definition EventPermissionDenied : string := "PERMISSION_DENIED".
Definition EventNamespaceAccess : string := "NAMESPACE_ACCESS".

(** A nil map of metadata is the empty one. *)
Record Event := mkEvent {
  ev_ID : string; ev_Type : string; ev_Timestamp : Z; ev_SubjectID : string; ev_SubjectType : string; ev_AuthMethod : string;
  ev_Namespace : string; ev_RemoteAddr : string; ev_Success : bool; ev_Reason : string; ev_Metadata : gmap string string;
}.
#[export] Instance Event_eq_dec : EqDecision Event.
Proof. solve_decision. Defined.

(** The letters are taken in order, not at random. *)
Definition letters : string := "abcdefghijklmnopqrstuvwxyz0123456789".
Definition randomID (n : nat) : string :=
  String.string_of_list_ascii ((λ i, default Ascii.zero (String.get (i mod str_len letters)%nat letters)) <$> seq 0 n).
Definition generateEventID (now : Z) : string := pretty now +:+ "-" +:+ randomID 8.

Definition set_ID (id : string) (e : Event) : Event :=
  mkEvent id (ev_Type e) (ev_Timestamp e) (ev_SubjectID e) (ev_SubjectType e) (ev_AuthMethod e) (ev_Namespace e)
    (ev_RemoteAddr e) (ev_Success e) (ev_Reason e) (ev_Metadata e).

(** ** The logger *)

(** [handed]: the calls of the handler started, each in a goroutine of its own. *)
Record Logger := mkLogger { events : list Event; handler : bool; maxLen : Z; handed : list Event }.
Definition NewLogger (h : bool) (n : Z) : Logger := mkLogger [] h n [].

Definition append (now : Z) (e : Event) (l : Logger) : Logger :=
  let e := set_ID (generateEventID now) e in
  let es := events l ++ [e] in
  let es := if (0 <? maxLen l) && (maxLen l <? Z.of_nat (length es)) then drop 1 es else es in
  mkLogger es (handler l) (maxLen l) (if handler l then handed l ++ [e] else handed l).

(** The two clock readings of an event: its time stamp and its identifier. *)
Record instants := mkInstants { at_ : Z; id_at : Z }.

Definition LogAuth (t : instants) (subjectID subjectType method remoteAddr namespace : string) (success : bool) (reason : string) :=
  append (id_at t) (mkEvent "" (if success then EventAuthSuccess else EventAuthFailure) (at_ t) subjectID subjectType method
    namespace remoteAddr success reason ∅).
Definition LogTokenIssued (t : instants) (subjectID subjectType method remoteAddr : string) :=
  append (id_at t) (mkEvent "" EventTokenIssued (at_ t) subjectID subjectType method "" remoteAddr true "" ∅).
Definition LogTokenRevoked (t : instants) (subjectID reason : string) :=
  append (id_at t) (mkEvent "" EventTokenRevoked (at_ t) subjectID "" "" "" "" true reason ∅).
Definition LogTokenRefreshed (t : instants) (subjectID remoteAddr : string) :=
  append (id_at t) (mkEvent "" EventTokenRefreshed (at_ t) subjectID "" "" "" remoteAddr true "" ∅).
Definition LogAPIKeyCreated (t : instants) (subjectID keyID namespace : string) :=
  append (id_at t) (mkEvent "" EventAPIKeyCreated (at_ t) subjectID "" "" namespace "" true "" {["key_id" := keyID]}).
Definition LogAPIKeyRevoked (t : instants) (subjectID keyID reason : string) :=
  append (id_at t) (mkEvent "" EventAPIKeyRevoked (at_ t) subjectID "" "" "" "" true reason {["key_id" := keyID]}).
Definition LogPermissionDenied (t : instants) (subjectID namespace permission resource : string) :=
  append (id_at t) (mkEvent "" EventPermissionDenied (at_ t) subjectID "" "" namespace "" false
    ("permission denied: " +:+ permission +:+ " on " +:+ resource) ∅).
Definition LogNamespaceAccess (t : instants) (subjectID namespace operation : string) :=
  append (id_at t) (mkEvent "" EventNamespaceAccess (at_ t) subjectID "" "" namespace "" true "" {["operation" := operation]}).

Definition GetEvents (l : Logger) : list Event := events l.
Definition GetEventsByType (eventType : string) (l : Logger) : list Event := filter (λ e, ev_Type e = eventType) (events l).
Definition GetEventsBySubject (subjectID : string) (l : Logger) : list Event := filter (λ e, ev_SubjectID e = subjectID) (events l).
Definition GetEventsByNamespace (namespace : string) (l : Logger) : list Event := filter (λ e, ev_Namespace e = namespace) (events l).

(** ** The table *)

Record AuditRow := mkAuditRow {
  row_id : Z; event_id : string; event_type : string; timestamp : string; subject_id : string; subject_type : string;
  auth_method : string; namespace : string; remote_addr : string; success : bool; reason : string; metadata : string;
}.
Abbreviation audit_table := (table AuditRow).

Record AuditFilter := mkAuditFilter {
  f_EventType : string; f_SubjectID : string; f_Namespace : string; f_From : option Z; f_To : option Z; f_Limit : Z;
}.
Definition no_filter : AuditFilter := mkAuditFilter "" "" "" None None 0.

Section store.
Context `{Rfc3339} (marshal_meta : gmap string string → string) (unmarshal_meta : string → option (gmap string string)).

Definition row_of_event (id : Z) (e : Event) : AuditRow :=
  mkAuditRow id (ev_ID e) (ev_Type e) (Format (ev_Timestamp e)) (ev_SubjectID e) (ev_SubjectType e) (ev_AuthMethod e)
    (ev_Namespace e) (ev_RemoteAddr e) (ev_Success e) (ev_Reason e) (marshal_meta (ev_Metadata e)).

(** Two events must not have the same identifier. *)
Definition AppendAuditEvent (e : Event) (t : audit_table) : audit_table * option db_error :=
  match row_of event_id (ev_ID e) t with
  | Some _ => (t, Some ErrInternal)
  | None => (insert_row (λ id, row_of_event id e) t, None)
  end.

(** The handler of [auth.NewService] drops the error. *)
Definition audit_handler (t : audit_table) (e : Event) : audit_table := (AppendAuditEvent e t).1.

(** Texts are compared, not instants. *)
Definition matches (f : AuditFilter) (r : AuditRow) : Prop :=
  (f_EventType f = "" ∨ event_type r = f_EventType f) ∧ (f_SubjectID f = "" ∨ subject_id r = f_SubjectID f) ∧
  (f_Namespace f = "" ∨ namespace r = f_Namespace f) ∧
  match f_From f with Some t => str_le (Format t) (timestamp r) | None => True end ∧
  match f_To f with Some t => str_le (timestamp r) (Format t) | None => True end.
#[export] Instance matches_dec f r : Decision (matches f r).
Proof. unfold matches. destruct (f_From f), (f_To f); apply _. Defined.

Definition event_of_row (r : AuditRow) : Event :=
  mkEvent (event_id r) (event_type r) (default 0 (Parse (timestamp r))) (subject_id r) (subject_type r) (auth_method r)
    (namespace r) (remote_addr r) (success r) (reason r)
    (if bool_decide (metadata r = "") then ∅ else default ∅ (unmarshal_meta (metadata r))).

(** SQLite orders rows of the same time stamp as it likes: [ties] is any
    rearrangement. *)
Definition latest_first (r r' : AuditRow) : Prop := str_le (timestamp r') (timestamp r).
#[export] Instance latest_first_dec r r' : Decision (latest_first r r').
Proof. unfold latest_first. apply _. Defined.
Definition query_rows (ties : list AuditRow → list AuditRow) (f : AuditFilter) (t : audit_table) : list AuditRow :=
  let l := merge_sort latest_first (ties (select (matches f) t)) in
  if 0 <? f_Limit f then take (Z.to_nat (f_Limit f)) l else l.
Definition QueryAuditEvents (ties : list AuditRow → list AuditRow) (f : AuditFilter) (t : audit_table) : list Event :=
  event_of_row <$> query_rows ties f t.
End store.

(** ** The latest events *)

(** A logger after any calls: each is [append] of an event at an instant. *)
Definition log_all (l : list (Z * Event)) (g : Logger) : Logger := foldl (λ g x, append x.1 x.2 g) g l.
Definition identified (x : Z * Event) : Event := set_ID (generateEventID x.1) x.2.

(** What is kept of a list. *)
Definition kept (n : Z) (es : list Event) : list Event := if 0 <? n then drop (length es - Z.to_nat n) es else es.

Lemma kept_app n es e : kept n (es ++ [e]) =
  let l := kept n es ++ [e] in if (0 <? n) && (n <? Z.of_nat (length l)) then drop 1 l else l.
Proof.
  unfold kept. destruct (Z.ltb_spec 0 n); cbn zeta; [|done]. rewrite !length_app. cbn [length andb].
  rewrite length_drop. destruct (decide (length es < Z.to_nat n)%nat).
  - replace (length es - Z.to_nat n)%nat with 0%nat by lia. replace (length es + 1 - Z.to_nat n)%nat with 0%nat by lia.
    rewrite !drop_0. destruct (Z.ltb_spec n (Z.of_nat (length es - 0 + 1))); [lia|done].
  - destruct (Z.ltb_spec n (Z.of_nat (length es - (length es - Z.to_nat n) + 1))); [|lia].
    replace (length es + 1 - Z.to_nat n)%nat with (S (length es - Z.to_nat n)) by lia.
    rewrite <-drop_app_le by lia. rewrite drop_drop. f_equal. lia.
Qed.

Lemma log_all_spec l g es :
  events g = kept (maxLen g) es →
  let g' := log_all l g in
  events g' = kept (maxLen g) (es ++ (identified <$> l)) ∧ maxLen g' = maxLen g ∧ handler g' = handler g ∧
  handed g' = handed g ++ (if handler g then identified <$> l else []).
Proof.
  revert g es. induction l as [|x l IH]; intros g es Hg; [cbn; destruct (handler g); rewrite !app_nil_r; done|].
  cbn. destruct (IH (append x.1 x.2 g) (es ++ [identified x])) as (H1 & H2 & H3 & H4).
  { unfold append. cbn. by rewrite kept_app, Hg. }
  unfold log_all in *. rewrite H1, H2, H3, H4. cbn. rewrite <-app_assoc. split_and!; [done..|].
  destruct (handler g); cbn; [by rewrite <-app_assoc|by rewrite app_nil_r].
Qed.

(** The logger keeps the latest events: after any calls it holds exactly the
    last [maxLen] of them in order (all of them without a bound), every event
    has been handed to the handler, and the three queries select from what is
    held. *)
Theorem audit_keeps_latest n l :
  let g := log_all l (NewLogger true n) in
  GetEvents g = kept n (identified <$> l) ∧ handed g = identified <$> l ∧ (0 < n → Z.of_nat (length (GetEvents g)) ≤ n) ∧
  ∀ x, GetEventsByType x g = filter (λ e, ev_Type e = x) (kept n (identified <$> l)) ∧
    GetEventsBySubject x g = filter (λ e, ev_SubjectID e = x) (kept n (identified <$> l)) ∧
    GetEventsByNamespace x g = filter (λ e, ev_Namespace e = x) (kept n (identified <$> l)).
Proof.
  destruct (log_all_spec l (NewLogger true n) []) as (H1 & _ & _ & H4); [by unfold kept; destruct (0 <? _)|].
  cbn in *. unfold GetEvents, GetEventsByType, GetEventsBySubject, GetEventsByNamespace. rewrite H1.
  split_and!; [done|done| |done]. intros Hn. unfold kept. destruct (Z.ltb_spec 0 n); [|lia]. rewrite length_drop. lia.
Qed.

Lemma list_ascii_app (s t : string) :
  String.list_ascii_of_string (s +:+ t) = String.list_ascii_of_string s ++ String.list_ascii_of_string t.
Proof. induction s as [|c s IH]; [done|]. change (c :: String.list_ascii_of_string (s +:+ t) = (c :: String.list_ascii_of_string s) ++ String.list_ascii_of_string t). by rewrite IH. Qed.

Lemma str_app_inv_r (s s' x : string) : s +:+ x = s' +:+ x → s = s'.
Proof.
  intros E. apply (f_equal String.list_ascii_of_string) in E. rewrite !list_ascii_app in E. apply app_inv_tail in E.
  rewrite <-(String.string_of_list_ascii_of_string s), <-(String.string_of_list_ascii_of_string s'). by f_equal.
Qed.

(** Identifiers made at different instants differ. *)
#[export] Instance generateEventID_inj : Inj (=) (=) generateEventID.
Proof. intros x y E. unfold generateEventID in E. by apply str_app_inv_r, (inj pretty) in E. Qed.

(** ** Queries *)

Section query.
Context `{Rfc3339Laws} (marshal_meta : gmap string string → string) (unmarshal_meta : string → option (gmap string string)).
Context (ties : list AuditRow → list AuditRow) (Hties : ∀ l, ties l ≡ₚ l).

Lemma sorted_rows l : StronglySorted latest_first (merge_sort latest_first l).
Proof.
  apply StronglySorted_merge_sort; [intros r r' r'' H1 H2; by eapply str_le_trans|intros r r'; apply str_le_total].
Qed.

Lemma matching_rows f t r : r ∈ merge_sort latest_first (ties (select (matches f) t)) ↔ r ∈ rows t ∧ matches f r.
Proof. rewrite merge_sort_Permutation, Hties. unfold select. rewrite list_elem_of_filter. naive_solver. Qed.

(** A query of the audit events returns the latest matching rows, latest
    first: every row returned matches the filter, and a matching row is missing
    only when the limit is reached and no row returned is older. *)
Theorem audit_query f t :
  let rs := query_rows ties f t in
  StronglySorted latest_first rs ∧ (∀ r, r ∈ rs → r ∈ rows t ∧ matches f r) ∧
  ∀ r, r ∈ rows t → matches f r →
    r ∈ rs ∨ 0 < f_Limit f ∧ Z.of_nat (length rs) = f_Limit f ∧ ∀ r', r' ∈ rs → latest_first r' r.
Proof.
  unfold query_rows. set (l := merge_sort latest_first _).
  assert (StronglySorted latest_first l) as Hs by apply sorted_rows.
  assert (∀ r, r ∈ l ↔ r ∈ rows t ∧ matches f r) as Hl by apply matching_rows. clearbody l.
  destruct (Z.ltb_spec 0 (f_Limit f)) as [Hn|Hn].
  - set (n := Z.to_nat (f_Limit f)). rewrite <-(take_drop n l) in Hs.
    split_and!.
    + by apply StronglySorted_app_1_l in Hs.
    + intros r Hr. apply Hl. rewrite <-(take_drop n l). by apply elem_of_app; left.
    + intros r Hr Hf. assert (r ∈ l) as Hin by by apply Hl. rewrite <-(take_drop n l) in Hin. apply elem_of_app in Hin as [Hin|Hin]; [by left|].
      right. split_and!; [done| |].
      * rewrite length_take. assert (length (drop n l) ≠ 0%nat) as Hd by (destruct (drop n l); [by apply elem_of_nil in Hin|done]).
        rewrite length_drop in Hd. lia.
      * intros r' Hr'. by eapply StronglySorted_app_1_elem_of.
  - split_and!; [done|intros r; by apply Hl|]. intros r Hr Hf. left. by apply Hl.
Qed.

(** What is assumed of encoding/json: a map reads back. *)
Context (Hmeta : ∀ m, marshal_meta m ≠ "" ∧ unmarshal_meta (marshal_meta m) = Some m).

(** A stored event has lost the fraction of its second. *)
Definition to_second (e : Event) : Event :=
  mkEvent (ev_ID e) (ev_Type e) (whole_second (ev_Timestamp e)) (ev_SubjectID e) (ev_SubjectType e) (ev_AuthMethod e)
    (ev_Namespace e) (ev_RemoteAddr e) (ev_Success e) (ev_Reason e) (ev_Metadata e).

Local Abbreviation handle_event := (audit_handler marshal_meta).
Local Abbreviation read_row := (event_of_row unmarshal_meta).

Lemma read_written id e : read_row (row_of_event marshal_meta id e) = to_second e.
Proof.
  unfold event_of_row, row_of_event. cbn. rewrite parse_format. destruct (Hmeta (ev_Metadata e)) as [H1 H2].
  by rewrite bool_decide_eq_false_2, H2 by done.
Qed.

Lemma handled_rows l t :
  NoDup (ev_ID <$> l) → (∀ e, e ∈ l → row_of event_id (ev_ID e) t = None) →
  read_row <$> rows (foldl handle_event t l) = (read_row <$> rows t) ++ (to_second <$> l).
Proof.
  revert t. induction l as [|e l IH]; intros t Hd Hnew; [cbn; by rewrite app_nil_r|]. cbn in *.
  apply NoDup_cons in Hd as [Hid Hd].
  assert (handle_event t e = insert_row (λ id, row_of_event marshal_meta id e) t) as E.
  { unfold audit_handler, AppendAuditEvent. rewrite (Hnew e) by by left. done. }
  rewrite E, IH; [|done|].
  - cbn. rewrite fmap_app, <-app_assoc. cbn. by rewrite read_written.
  - intros e' He'. rewrite row_of_insert; cbn; [|by apply Hnew; left].
    rewrite decide_False; [by apply Hnew; right|]. intros Heq. apply Hid. rewrite Heq. by apply list_elem_of_fmap_2.
Qed.

(** Every audit event is stored: log any events, no two identifiers made in
    the same nanosecond, and let the goroutines of the handler write them in
    whatever order they run; then a query without a filter returns exactly the
    logged events, each with its time to the second. *)
Theorem audit_stored n l written :
  NoDup l.*1 → written ≡ₚ handed (log_all l (NewLogger true n)) →
  QueryAuditEvents unmarshal_meta ties no_filter (foldl handle_event empty_table written) ≡ₚ to_second ∘ identified <$> l.
Proof.
  intros Hd Hp. destruct (log_all_spec l (NewLogger true n) []) as (_ & _ & _ & H4); [by unfold kept; destruct (0 <? _)|].
  cbn in H4. rewrite H4 in Hp.
  unfold QueryAuditEvents, query_rows. cbn [f_Limit no_filter Z.ltb Z.compare].
  rewrite merge_sort_Permutation, Hties. unfold select. rewrite filter_all.
  - rewrite handled_rows; [cbn; by rewrite Hp, list_fmap_compose| |].
    + rewrite Hp, <-list_fmap_compose. change (NoDup (generateEventID ∘ fst <$> l)). rewrite list_fmap_compose.
      by apply NoDup_fmap_2; [apply generateEventID_inj|].
    + intros e _. done.
  - apply Forall_forall. intros r _. unfold matches. cbn. naive_solver.
Qed.
End query.

(** ** Samples *)

#[local] Existing Instance seconds_text.
#[local] Existing Instance seconds_text_laws.

(** Metadata as one text, read back whole. *)
Definition write_meta (m : gmap string string) : string := String.string_of_list_byte (x20 :: Jwt.Sample.pos_bytes (encode m)).
Definition read_meta (s : string) : option (gmap string string) :=
  match String.list_byte_of_string s with [] => None | _ :: l => decode (Jwt.Sample.bytes_pos l) end.

Lemma write_meta_law m : write_meta m ≠ "" ∧ read_meta (write_meta m) = Some m.
Proof.
  split; [done|]. unfold read_meta, write_meta. rewrite String.list_byte_of_string_of_list_byte, Jwt.Sample.bytes_pos_bytes.
  by rewrite countable.decode_encode.
Qed.

Definition denied (t : Z) (who : string) : Z * Event :=
  (t, mkEvent "" EventPermissionDenied t who "" "" "main" "" false "permission denied: publish on jobs" ∅).

Lemma audit_query_witness :
  let rs := query_rows id (mkAuditFilter "" "bob" "" None None 1)
    (foldl (audit_handler write_meta) empty_table (identified <$> [denied 1 "bob"; denied 2 "eve"; denied (2 * second) "bob"])) in
  StronglySorted latest_first rs ∧ timestamp <$> rs = [Format (2 * second)].
Proof.
  intros rs. split; [|by vm_compute].
  exact (proj1 (audit_query id (λ _, reflexivity _) (mkAuditFilter "" "bob" "" None None 1)
    (foldl (audit_handler write_meta) empty_table (identified <$> [denied 1 "bob"; denied 2 "eve"; denied (2 * second) "bob"])))).
Defined.

Lemma audit_stored_witness :
  QueryAuditEvents read_meta id no_filter
    (foldl (audit_handler write_meta) empty_table (reverse (identified <$> [denied 1 "bob"; denied 2 "eve"])))
  ≡ₚ to_second ∘ identified <$> [denied 1 "bob"; denied 2 "eve"].
Proof.
  apply (audit_stored write_meta read_meta id (λ _, reflexivity _) write_meta_law 1 [denied 1 "bob"; denied 2 "eve"]).
  - by_eval.
  - rewrite reverse_Permutation. by vm_compute.
Defined.

(** The suffix of an identifier is the same for all, so two events in the same
    nanosecond have the same, and the second is not stored. *)
Example same_instant_lost :
  generateEventID 7 = "7-abcdefgh" ∧
  length (rows (foldl (audit_handler write_meta) empty_table (identified <$> [denied 7 "bob"; denied 7 "eve"]))) = 1%nat.
Proof. by vm_compute. Qed.
