(* ===== verification/Url.v ===== *)
(** * Query strings (package net/url of Go's standard library)

    [url.QueryEscape] and [url.Values.Encode], which the OAuth provider builds
    its authorization URL with, and the reading of a query string they are the
    inverse of. *)

From stdpp Require Import base list strings.
From Stdlib Require Import ZArith Lia Strings.Byte.
From S2P Require Import Prelude.
Local Open Scope Z_scope.
Local Open Scope list_scope.

(** ** Escaping *)

Definition in_range (lo hi : Z) (b : byte) : bool := (lo <=? byte_to_Z b) && (byte_to_Z b <=? hi).

(** Letters, digits and "-_.~" stand for themselves. *)
Definition unreserved (b : byte) : bool :=
  in_range 97 122 b || in_range 65 90 b || in_range 48 57 b || bool_decide (b ∈ [x2d; x5f; x2e; x7e]).

Definition upperhex : list byte := [x30; x31; x32; x33; x34; x35; x36; x37; x38; x39; x41; x42; x43; x44; x45; x46].
Definition hex_digit (n : Z) : byte := default x30 (upperhex !! Z.to_nat n).
Definition escape_byte (b : byte) : list byte :=
  if unreserved b then [b] else if bool_decide (b = x20) then [x2b]
  else [x25; hex_digit (byte_to_Z b / 16); hex_digit (byte_to_Z b `mod` 16)].
Definition QueryEscape (s : list byte) : list byte := s ≫= escape_byte.

(** The pairs of a [url.Values] in the order of their keys. *)
Fixpoint Encode (l : list (list byte * list byte)) : list byte :=
  match l with
  | [] => []
  | [(k, v)] => QueryEscape k ++ x3d :: QueryEscape v
  | (k, v) :: l => QueryEscape k ++ x3d :: QueryEscape v ++ x26 :: Encode l
  end.

(** ** Reading *)

Definition unhex (b : byte) : option Z :=
  if in_range 48 57 b then Some (byte_to_Z b - 48)
  else if in_range 65 70 b then Some (byte_to_Z b - 55)
  else if in_range 97 102 b then Some (byte_to_Z b - 87) else None.

Fixpoint QueryUnescape (s : list byte) : option (list byte) :=
  match s with
  | [] => Some []
  | x25 :: h :: l :: s => a ← unhex h; b ← unhex l; cons (byte_of_Z (16 * a + b)) <$> QueryUnescape s
  | x25 :: _ => None
  | x2b :: s => cons x20 <$> QueryUnescape s
  | c :: s => cons c <$> QueryUnescape s
  end.

(** The text up to the first [sep], and what follows it. *)
Fixpoint cut (sep : byte) (s : list byte) : list byte * option (list byte) :=
  match s with
  | [] => ([], None)
  | c :: s => if bool_decide (c = sep) then ([], Some s) else let '(a, r) := cut sep s in (c :: a, r)
  end.

Definition parse_pair (s : list byte) : option (list byte * list byte) :=
  let '(k, v) := cut x3d s in
  k ← QueryUnescape k; v ← QueryUnescape (default [] v); Some (k, v).

Fixpoint parse_query (fuel : nat) (s : list byte) : option (list (list byte * list byte)) :=
  match fuel with
  | O => None
  | S fuel =>
      let '(a, r) := cut x26 s in
      p ← parse_pair a;
      match r with None => Some [p] | Some r => cons p <$> parse_query fuel r end
  end.
Definition ParseQuery (s : list byte) : option (list (list byte * list byte)) :=
  match s with [] => Some [] | _ => parse_query (length s) s end.

(** ** The round trip *)

Lemma unescape_escape_byte b s : QueryUnescape (escape_byte b ++ s) = cons b <$> QueryUnescape s.
Proof. destruct b; reflexivity. Qed.

Lemma unescape_escape s : QueryUnescape (QueryEscape s) = Some s.
Proof.
  induction s as [|b s IH]; [done|]. change (QueryEscape (b :: s)) with (escape_byte b ++ QueryEscape s).
  by rewrite unescape_escape_byte, IH.
Qed.

(** An escaped text has neither separator. *)
Definition plain (c : byte) : Prop := c ≠ x26 ∧ c ≠ x3d.

Lemma escape_byte_plain b : Forall plain (escape_byte b).
Proof. unfold plain. destruct b; by repeat constructor. Qed.

Lemma escape_plain s : Forall plain (QueryEscape s).
Proof.
  induction s as [|b s IH]; [constructor|]. change (QueryEscape (b :: s)) with (escape_byte b ++ QueryEscape s).
  apply Forall_app. split; [apply escape_byte_plain|done].
Qed.

Lemma cut_none sep s : Forall (λ c, c ≠ sep) s → cut sep s = (s, None).
Proof. induction 1 as [|c s Hc _ IH]; [done|]. cbn. by rewrite bool_decide_eq_false_2, IH. Qed.

Lemma cut_some sep s r : Forall (λ c, c ≠ sep) s → cut sep (s ++ sep :: r) = (s, Some r).
Proof.
  induction 1 as [|c s Hc _ IH]; cbn; [by rewrite bool_decide_eq_true_2|]. by rewrite bool_decide_eq_false_2, IH.
Qed.

Definition pair_text (p : list byte * list byte) : list byte := QueryEscape p.1 ++ x3d :: QueryEscape p.2.

Lemma pair_text_plain p : Forall (λ c, c ≠ x26) (pair_text p).
Proof.
  unfold pair_text. apply Forall_app. split; [|constructor; [done|]]; eapply Forall_impl; try apply escape_plain; by intros c [].
Qed.

Lemma parse_pair_text p : parse_pair (pair_text p) = Some p.
Proof.
  unfold parse_pair, pair_text. rewrite cut_some.
  - cbn. rewrite !unescape_escape. by destruct p.
  - eapply Forall_impl; [apply escape_plain|]. by intros c [].
Qed.

Lemma Encode_cons p l : Encode (p :: l) = match l with [] => pair_text p | _ => pair_text p ++ x26 :: Encode l end.
Proof. destruct p, l; [done|]. unfold pair_text. cbn. by rewrite <-app_assoc. Qed.

Lemma parse_query_encode p l fuel : (length l < fuel)%nat → parse_query fuel (Encode (p :: l)) = Some (p :: l).
Proof.
  revert p fuel. induction l as [|p' l IH]; intros p fuel Hf; (destruct fuel as [|fuel]; [cbn in Hf; lia|]);
    rewrite Encode_cons; cbn [parse_query].
  - rewrite cut_none by apply pair_text_plain. by rewrite parse_pair_text.
  - rewrite cut_some by apply pair_text_plain. rewrite parse_pair_text. cbn [mbind option_bind]. rewrite IH; [done|]. cbn in Hf. lia.
Qed.

Lemma Encode_length l : (length l ≤ length (Encode l))%nat.
Proof.
  induction l as [|p l IH]; [done|]. rewrite Encode_cons. assert (0 < length (pair_text p))%nat.
  { unfold pair_text. rewrite length_app. cbn. lia. }
  destruct l; [cbn in *; lia|]. rewrite length_app. cbn [length] in *. lia.
Qed.

(** Whatever bytes the keys and values hold, the query string reads back as the
    same pairs. *)
Lemma query_roundtrip l : ParseQuery (Encode l) = Some l.
Proof.
  destruct l as [|p l]; [done|]. unfold ParseQuery. pose proof (Encode_length (p :: l)) as Hl.
  destruct (Encode (p :: l)) as [|c s] eqn:E; [cbn in Hl; lia|]. rewrite <-E in *. apply parse_query_encode. cbn [length] in Hl. lia.
Qed.
