(* ===== verification/Providers.v ===== *)
(** * OAuth, mutual TLS and the authentication service

    src/internal/auth/providers/oauth/oauth.go, providers/mtls/mtls.go and the
    construction of the service in src/internal/auth/service.go from the
    configuration.  What the providers ask of the outside (the GitHub endpoint,
    the token endpoint, package pem's and x509's decoding) is a parameter. *)

From stdpp Require Import base gmap list strings.
From Stdlib Require Import ZArith Lia Strings.Byte.
From S2P Require Import Prelude Codec Auth Base64 Jwt Table Url Config AuditLog.
Local Open Scope Z_scope.
Local Open Scope list_scope.

Definition AuthMethodOAuth : string := "OAUTH".
Definition AuthMethodMTLS : string := "MTLS".

(** ** OAuth *)

Record UserInfo := mkUserInfo {
  ui_ID : string; ui_Email : string; ui_Name : string; ui_Picture : string; ui_Login : string; ui_Teams : list string;
}.
Record TokenResponse := mkTokenResponse {
  tr_AccessToken : string; tr_TokenType : string; tr_ExpiresIn : Z; tr_RefreshToken : string; tr_IDToken : string;
}.

(** The answer to an HTTP request: its status and the decoded body, or an error. *)
Inductive http (A : Type) := HttpError (e : string) | HttpAnswer (status : Z) (body : option A).
Arguments HttpError {A}.
Arguments HttpAnswer {A}.

Definition joinScopes (scopes : list string) : string :=
  (foldl (λ '(i, r) s, (S i, (if (0 <? i)%nat then r +:+ " " else r) +:+ s)) (0%nat, "") scopes).2.

Section oauth.
Context (cfg : OAuthConfig).
Context (github_user : string → http UserInfo).   (** GET https://api.github.com/user with the token *)
Context (post_form : string → list byte → http TokenResponse).

(** [token[:8]] panics on a shorter text. *)
Definition first8 (token : string) : outcome string :=
  if (8 <=? str_len token)%nat then Ret (bytes_str (take 8 (str_bytes token))) else Panic.

Definition validateGoogleToken (token : string) : outcome (UserInfo + string) :=
  outcome_map (λ t, inl (mkUserInfo ("google-" +:+ t) "user@example.com" "Google User" "" "" [])) (first8 token).
Definition validateMicrosoftToken (token : string) : outcome (UserInfo + string) :=
  outcome_map (λ t, inl (mkUserInfo ("microsoft-" +:+ t) "user@outlook.com" "Microsoft User" "" "" [])) (first8 token).
Definition validateGitHubToken (token : string) : UserInfo + string :=
  match github_user token with
  | HttpError e => inr e
  | HttpAnswer status body =>
      if negb (status =? 200) then inr "GitHub API error"
      else match body with Some u => inl u | None => inr "decode" end
  end.

Definition mapTeamToNamespace (u : UserInfo) : string :=
  match omap (λ team, TeamsMap cfg !! team) (ui_Teams u) with ns :: _ => ns | [] => "default" end.

Definition oauth_identity (u : UserInfo) : Identity :=
  let ns := mapTeamToNamespace u in
  mkIdentity (ui_ID u) SubjectUser (ui_Email u) ns ["user"] None {[ns := ["publish"; "consume"]]} AuthMethodOAuth
    zero_time zero_time {["picture" := ui_Picture u]}.

Definition oauth_Authenticate (req : AuthRequest) : outcome (option Identity + string) :=
  let token := r_Token req in
  if bool_decide (token = "") then Ret (inl None)
  else
    outcome_map (λ r, match r with inl u => inl (Some (oauth_identity u)) | inr e => inr e end)
      (if bool_decide (Provider cfg = "google") then validateGoogleToken token
       else if bool_decide (Provider cfg = "github") then Ret (validateGitHubToken token)
       else if bool_decide (Provider cfg = "microsoft") then validateMicrosoftToken token
       else Ret (inr "unsupported OAuth provider")).

Definition getAuthURL : string :=
  if bool_decide (Provider cfg = "google") then "https://accounts.google.com/o/oauth2/v2/auth"
  else if bool_decide (Provider cfg = "github") then "https://github.com/login/oauth/authorize"
  else if bool_decide (Provider cfg = "microsoft") then "https://login.microsoftonline.com/common/oauth2/v2.0/authorize" else "".
Definition getTokenURL : string :=
  if bool_decide (Provider cfg = "google") then "https://oauth2.googleapis.com/token"
  else if bool_decide (Provider cfg = "github") then "https://github.com/login/oauth/access_token"
  else if bool_decide (Provider cfg = "microsoft") then "https://login.microsoftonline.com/common/oauth2/v2.0/token" else "".

(** [Values.Encode] of the map: the pairs in the order of their keys. *)
Definition encode_values (m : gmap string string) : list byte :=
  Encode ((λ kv : string * string, (str_bytes kv.1, str_bytes kv.2)) <$> order_by fst (map_to_list m)).

Definition GetAuthorizationURL (state : string) : list byte :=
  let params : gmap string string :=
    <["state" := state]> (<["scope" := joinScopes (Scopes cfg)]> (<["response_type" := "code"]>
      (<["redirect_uri" := RedirectURL cfg]> {["client_id" := ClientID cfg]}))) in
  str_bytes getAuthURL ++ x3f :: encode_values params.

(** The request built first is not the one that is sent. *)
Definition ExchangeCode (code : string) : TokenResponse + string :=
  let data : gmap string string :=
    <["redirect_uri" := RedirectURL cfg]> (<["grant_type" := "authorization_code"]> (<["code" := code]>
      (<["client_secret" := ClientSecret cfg]> {["client_id" := ClientID cfg]}))) in
  match post_form getTokenURL (encode_values data) with
  | HttpError e => inr e
  | HttpAnswer status body =>
      if negb (status =? 200) then inr "token exchange failed"
      else match body with Some t => inl t | None => inr "decode" end
  end.
End oauth.

(** [base64.URLEncoding] of 32 random bytes. *)
Definition GenerateState (random : list byte) : list byte := encode_with (Some pad_char) url_alphabet random.

(** ** Mutual TLS *)

(** The parts of an x509.Certificate that are read. *)
Record Certificate := mkCertificate {
  CommonName : string; Organization : list string; DNSNames : list string; Extensions : list (string * list byte);
  SerialNumber : string;
}.
Record pem_block := mkPemBlock { pem_Type : string; pem_Bytes : list byte }.

Section mtls.
Context (cfg : MTLSConfig).
(** [pem.Decode]: the next block and the rest of the data. *)
Context (pem_Decode : list byte → option (pem_block * list byte)).
Context (ParseCertificate : list byte → option Certificate).

(** The loop of [decodePEM], a turn per block. *)
Fixpoint decodePEM (fuel : nat) (data : list byte) : option (option Certificate) :=
  match fuel with
  | O => None
  | S fuel =>
      match pem_Decode data with
      | None => Some None
      | Some (block, rest) =>
          if bool_decide (pem_Type block = "CERTIFICATE") then Some (ParseCertificate (pem_Bytes block)) else decodePEM fuel rest
      end
  end.

Definition isCertificateAllowed (cert : Certificate) : bool :=
  existsb (λ cn, String.eqb (CommonName cert) cn) (AllowedCNs cfg)
  || existsb (λ san, existsb (String.eqb san) (AllowedSANs cfg)) (DNSNames cert)
  || ((length (AllowedCNs cfg) =? 0)%nat && (length (AllowedSANs cfg) =? 0)%nat).

(** A certificate without any name panics. *)
Definition extractSubjectID (cert : Certificate) : outcome string :=
  if negb (bool_decide (CommonName cert = "")) then Ret (CommonName cert)
  else match DNSNames cert with
       | d :: _ => Ret d
       | [] => match Organization cert with o :: _ => Ret o | [] => Panic end
       end.

Definition extractNamespace (cert : Certificate) : string :=
  match List.find (λ e : string * list byte, bool_decide (e.1 = "1.2.3.4.5.6.7.8.1")) (Extensions cert) with
  | Some e => bytes_str e.2
  | None => "default"
  end.

Definition mtls_identity (cert : Certificate) (subjectID : string) : Identity :=
  let ns := extractNamespace cert in
  mkIdentity subjectID SubjectService subjectID ns ["service"] None {[ns := ["publish"; "consume"; "ack"; "nack"]]} AuthMethodMTLS
    zero_time zero_time {["serial" := SerialNumber cert]}.

(** The identity behind a certificate, an error, or a panic. *)
Definition certificate_identity (refusal : string) (cert : Certificate) : outcome (Identity + string) :=
  if negb (isCertificateAllowed cert) then Ret (inr refusal)
  else outcome_map (λ s, inl (mtls_identity cert s)) (extractSubjectID cert).

Definition mtls_Authenticate (req : AuthRequest) : outcome (option Identity + string) :=
  if bool_decide (r_Certificate req = "") then Ret (inl None)
  else
    let data := str_bytes (r_Certificate req) in
    match decodePEM (S (length data)) data with
    | Some (Some cert) =>
        outcome_map (λ r, match r with inl i => inl (Some i) | inr e => inr e end) (certificate_identity "certificate not in allowlist" cert)
    | _ => Ret (inr "failed to parse certificate")
    end.

(** [peer]: the certificates of a TLS connection, nothing for another one. *)
Definition VerifyConnection (peer : option (list Certificate)) : outcome (Identity + string) :=
  match peer with
  | None => Ret (inr "connection is not TLS")
  | Some [] => Ret (inr "no client certificate provided")
  | Some (cert :: _) => certificate_identity "certificate not allowed" cert
  end.
End mtls.

(** ** The service *)

(** An authenticator that may panic: the goroutine of the connection recovers
    and closes it, as it does after an error. *)
Definition guarded (name : string) (priority : Z) (f : AuthRequest → outcome (option Identity + string)) : Authenticator :=
  mkAuthenticator name priority (λ req, match f req with Ret r => r | Panic => inr "panic" end).

Record Service := mkService {
  svc_registry : AuthRegistry; svc_keys : APIKeyAuthenticator; svc_jwt : option Manager; svc_policy : Policy; svc_audit : Logger;
}.

Section service.
Context (compare : string → string → bool) (users : gmap string User) (hashKey : string → string) (issued later : Z).
Context (github_user : string → http UserInfo).
Context (pem_Decode : list byte → option (pem_block * list byte)) (ParseCertificate : list byte → option Certificate).
Context (NewManager : JWTProviderConfig → Manager).

Definition NewAPIKeyAuthenticator (c : APIKeyProviderConfig) : APIKeyAuthenticator :=
  mkAPIKeyAuthenticator (key_Prefix c) (key_Priority c) ∅.

Definition register_if (b : bool) (a : Authenticator) (r : AuthRegistry) : AuthRegistry := if b then Register a r else r.

(** The registry with the keys [keys] has by now. *)
Definition service_registry (c : ProvidersConfig) (keys : APIKeyAuthenticator) : AuthRegistry :=
  register_if (mtls_Enabled (cfg_MTLS c)) (guarded "mtls" 5 (mtls_Authenticate (cfg_MTLS c) pem_Decode ParseCertificate))
  (register_if (oauth_Enabled (cfg_OAuth c))
     (guarded ("oauth:" +:+ Provider (cfg_OAuth c)) 50 (oauth_Authenticate (cfg_OAuth c) github_user))
  (register_if (key_Enabled (cfg_APIKey c)) (apikey_Authenticator hashKey keys)
  (register_if (pw_Enabled (cfg_Password c)) (PasswordAuthenticator compare users issued later) NewRegistry))).

Definition NewService (c : AuthConfig) : Service :=
  let p := Providers c in
  let keys := NewAPIKeyAuthenticator (cfg_APIKey p) in
  mkService (service_registry p keys) keys (if jwt_Enabled (cfg_JWT p) then Some (NewManager (cfg_JWT p)) else None)
    (loadDefaultPolicy NewPolicy) (NewLogger true 1000).
End service.

(** ** The authorization URL *)

Lemma sorted_params (a b c d e : string) :
  order_by fst (map_to_list (<["state" := e]> (<["scope" := d]> (<["response_type" := c]>
    (<["redirect_uri" := b]> {["client_id" := a]} : gmap string string))))) =
  [("client_id", a); ("redirect_uri", b); ("response_type", c); ("scope", d); ("state", e)].
Proof. by vm_compute. Qed.

Definition bytes_of (p : string * string) : list byte * list byte := (str_bytes p.1, str_bytes p.2).

(** The authorization URL carries its parameters unharmed: whatever
    characters the client, the redirection, the scopes and the state hold, the
    URL is the provider's address followed by a query string that reads back as
    exactly the five parameters. *)
Theorem authorization_url cfg state :
  ∃ q, GetAuthorizationURL cfg state = str_bytes (getAuthURL cfg) ++ x3f :: q ∧
    ParseQuery q = Some (bytes_of <$> [("client_id", ClientID cfg); ("redirect_uri", RedirectURL cfg); ("response_type", "code");
      ("scope", joinScopes (Scopes cfg)); ("state", state)]).
Proof.
  eexists. split; [reflexivity|]. unfold encode_values. rewrite sorted_params. apply query_roundtrip.
Qed.

(** ** Certificates *)

Lemma allowed_spec cfg cert :
  isCertificateAllowed cfg cert = true ↔
    CommonName cert ∈ AllowedCNs cfg ∨ (∃ san, san ∈ DNSNames cert ∧ san ∈ AllowedSANs cfg) ∨ (AllowedCNs cfg = [] ∧ AllowedSANs cfg = []).
Proof.
  unfold isCertificateAllowed. rewrite !orb_true_iff, andb_true_iff, !Nat.eqb_eq, !existsb_exists.
  assert (∀ l : list string, length l = 0%nat ↔ l = []) as Hlen by (intros []; done).
  rewrite !Hlen. split.
  - intros [[(cn & Hin & E)|(san & Hin & E)]|H]; [left|right; left|by right; right].
    + apply String.eqb_eq in E as ->. by apply list_elem_of_In.
    + apply existsb_exists in E as (x & Hx & E%String.eqb_eq). subst. exists x. by rewrite !list_elem_of_In.
  - intros [H|[(san & H1 & H2)|H]]; [left; left|left; right|by right].
    + exists (CommonName cert). rewrite <-list_elem_of_In. by rewrite String.eqb_refl.
    + exists san. rewrite <-list_elem_of_In. split; [done|]. apply existsb_exists. exists san. rewrite <-list_elem_of_In. by rewrite String.eqb_refl.
Qed.

Section pem.
Context (pem_Decode : list byte → option (pem_block * list byte)) (ParseCertificate : list byte → option Certificate).

(** The blocks of a text, in order. *)
Inductive pem_blocks : list byte → list pem_block → Prop :=
| pem_end data : pem_Decode data = None → pem_blocks data []
| pem_next data b rest bs : pem_Decode data = Some (b, rest) → pem_blocks rest bs → pem_blocks data (b :: bs).

(** Decoding consumes something. *)
Context (Hpem : ∀ data b rest, pem_Decode data = Some (b, rest) → (length rest < length data)%nat).

Definition first_certificate (bs : list pem_block) : option Certificate :=
  b ← List.find (λ b, bool_decide (pem_Type b = "CERTIFICATE")) bs; ParseCertificate (pem_Bytes b).

Lemma decodePEM_blocks fuel data :
  (length data < fuel)%nat →
  ∃ bs, pem_blocks data bs ∧ decodePEM pem_Decode ParseCertificate fuel data = Some (first_certificate bs).
Proof.
  revert data. induction fuel as [|fuel IH]; intros data Hf; [lia|]. cbn.
  destruct (pem_Decode data) as [[b rest]|] eqn:E; [|by exists []; split; [constructor|]].
  pose proof (Hpem _ _ _ E). destruct (IH rest) as (bs & H1 & H2); [lia|]. exists (b :: bs). split; [by econstructor|].
  unfold first_certificate. cbn. by case_bool_decide.
Qed.
End pem.

(** Reading a certificate ends: the loop over the blocks of a PEM text
    finishes within as many turns as the text has bytes, and the identity comes
    from the first block that is a certificate, if its name is allowed. *)
Theorem mtls_certificate cfg pem_Decode ParseCertificate req :
  (∀ data b rest, pem_Decode data = Some (b, rest) → (length rest < length data)%nat) →
  r_Certificate req ≠ "" →
  ∃ bs, pem_blocks pem_Decode (str_bytes (r_Certificate req)) bs ∧
    match mtls_Authenticate cfg pem_Decode ParseCertificate req with
    | Ret (inl (Some i)) => ∃ cert s, first_certificate ParseCertificate bs = Some cert ∧ i = mtls_identity cert s ∧
        (CommonName cert ∈ AllowedCNs cfg ∨ (∃ san, san ∈ DNSNames cert ∧ san ∈ AllowedSANs cfg) ∨ (AllowedCNs cfg = [] ∧ AllowedSANs cfg = []))
    | Ret (inl None) => False
    | Ret (inr _) => match first_certificate ParseCertificate bs with None => True | Some cert => isCertificateAllowed cfg cert = false end
    | Panic => ∃ cert, first_certificate ParseCertificate bs = Some cert ∧ CommonName cert = "" ∧ DNSNames cert = [] ∧ Organization cert = []
    end.
Proof.
  intros Hpem Hne. destruct (decodePEM_blocks pem_Decode ParseCertificate Hpem (S (length (str_bytes (r_Certificate req)))) (str_bytes (r_Certificate req)))
    as (bs & H1 & H2); [lia|].
  exists bs. split; [done|]. unfold mtls_Authenticate. rewrite bool_decide_eq_false_2 by done. rewrite H2.
  destruct (first_certificate ParseCertificate bs) as [cert|]; [|done]. unfold certificate_identity.
  destruct (isCertificateAllowed cfg cert) eqn:Ea; cbn; [|done]. unfold extractSubjectID. case_bool_decide as Hc; cbn.
  - destruct (DNSNames cert) as [|d l] eqn:Ed; [destruct (Organization cert) as [|o l] eqn:Eo|]; cbn.
    + by exists cert.
    + exists cert, o. split_and!; [done..|]. by apply allowed_spec.
    + exists cert, d. split_and!; [done..|]. by apply allowed_spec.
  - exists cert, (CommonName cert). split_and!; [done..|]. by apply allowed_spec.
Qed.

(** A PEM text of one byte per block. *)
Definition sample_pem (data : list byte) : option (pem_block * list byte) :=
  match data with [] => None | b :: rest => Some (mkPemBlock (if bool_decide (b = x43) then "CERTIFICATE" else "KEY") [b], rest) end.
Definition sample_cert : Certificate := mkCertificate "svc" [] [] [("1.2.3.4.5.6.7.8.1", str_bytes "main")] "1".

Lemma mtls_certificate_witness :
  let req := mkAuthRequest "" "" "" "" "" "KC" "" in
  ∃ bs, pem_blocks sample_pem (str_bytes "KC") bs ∧
    mtls_Authenticate (mkMTLSConfig true "" ["svc"] []) sample_pem (λ _, Some sample_cert) req = Ret (inl (Some (mtls_identity sample_cert "svc"))).
Proof.
  intros req. destruct (mtls_certificate (mkMTLSConfig true "" ["svc"] []) sample_pem (λ _, Some sample_cert) req) as (bs & H1 & _).
  - intros [|c data] b rest; [done|]. intros [= _ <-]. cbn. lia.
  - done.
  - exists bs. split; [done|]. by vm_compute.
Defined.

(** ** Who gets in *)

(** One identity at most, whichever authenticator is asked. *)
Lemma try_all_one l req o :
  (∀ a, a ∈ l → Authenticate a req = inl None ∨ Authenticate a req = inl o) →
  (o = None ∨ ∃ a, a ∈ l ∧ Authenticate a req = inl o) → try_all l req = inl o.
Proof.
  induction l as [|a l IH]; intros Hall Hone; cbn.
  - destruct Hone as [->|(a & Ha & _)]; [done|by apply elem_of_nil in Ha].
  - destruct (Hall a ltac:(by left)) as [E|E]; rewrite E.
    + apply IH; [intros b Hb; apply Hall; by right|]. destruct Hone as [->|(b & Hb & Eb)]; [by left|].
      apply elem_of_cons in Hb as [->|Hb]; [left; congruence|right; by exists b].
    + destruct o as [id|]; [done|]. apply IH; [intros b Hb; apply Hall; by right|by left].
Qed.

Lemma elem_of_All ord (r : AuthRegistry) a : a ∈ All ord r ↔ ∃ n, r !! n = Some a.
Proof.
  unfold All. destruct (exchange_sort_spec (length (range_of ord r).*2) (range_of ord r).*2 ltac:(lia)) as [Hp _].
  rewrite Hp, (range_perm ord r), list_elem_of_fmap. split.
  - intros ([n b] & -> & H%elem_of_map_to_list). by exists n.
  - intros [n H%elem_of_map_to_list]. by exists (n, a).
Qed.

Section login.
Context (compare : string → string → bool) (users : gmap string User) (hashKey : string → string) (issued later : Z).
Context (github_user : string → http UserInfo).
Context (pem_Decode : list byte → option (pem_block * list byte)) (ParseCertificate : list byte → option Certificate).
Context (c : ProvidersConfig) (keys : APIKeyAuthenticator).

Local Abbreviation registry := (service_registry compare users hashKey issued later github_user pem_Decode ParseCertificate c keys).

(** A provider that is not enabled knows nobody. *)
Definition known_users : gmap string User := if pw_Enabled (cfg_Password c) then users else ∅.
Definition known_keys : APIKeyAuthenticator :=
  if key_Enabled (cfg_APIKey c) then keys else mkAPIKeyAuthenticator (ak_Prefix keys) (ak_Priority keys) ∅.

Lemma registered_authenticators a n :
  registry !! n = Some a →
  (∀ req, r_Certificate req = "" → Authenticate a req = inl None) ∨ (∀ req, r_Token req = "" → Authenticate a req = inl None) ∨
  (key_Enabled (cfg_APIKey c) = true ∧ a = apikey_Authenticator hashKey keys) ∨
  (pw_Enabled (cfg_Password c) = true ∧ a = PasswordAuthenticator compare users issued later).
Proof.
  assert (∀ b x (r : AuthRegistry), register_if b x r !! n = Some a → b = true ∧ x = a ∨ r !! n = Some a) as Hreg.
  { intros [] x r; [|by right]. unfold register_if, Register. rewrite lookup_insert_Some. naive_solver. }
  unfold service_registry. intros H. apply Hreg in H as [[_ <-]|H].
  { left. intros req E. unfold guarded, mtls_Authenticate. cbn. by rewrite E. }
  apply Hreg in H as [[_ <-]|H].
  { right; left. intros req E. unfold guarded, oauth_Authenticate. cbn. by rewrite E. }
  apply Hreg in H as [[H <-]|H]; [by right; right; left|]. apply Hreg in H as [[H <-]|H]; [by right; right; right|]. done.
Qed.

Lemma registered_key : key_Enabled (cfg_APIKey c) = true → ∃ n, registry !! n = Some (apikey_Authenticator hashKey keys).
Proof.
  intros E. exists "api_key". unfold service_registry, register_if, Register. rewrite E.
  destruct (mtls_Enabled _), (oauth_Enabled _); rewrite ?(lookup_insert_ne (M := gmap string)) by done; by rewrite lookup_insert_eq.
Qed.

Lemma registered_password :
  pw_Enabled (cfg_Password c) = true → ∃ n, registry !! n = Some (PasswordAuthenticator compare users issued later).
Proof.
  intros E. exists "password". unfold service_registry, register_if, Register. rewrite E.
  destruct (mtls_Enabled _), (oauth_Enabled _), (key_Enabled _); rewrite ?(lookup_insert_ne (M := gmap string)) by done; by rewrite lookup_insert_eq.
Qed.

(** A request of the handshake carries no token and no certificate, and either
    no password or no key: the service answers as the two providers do. *)
Lemma service_try ord req :
  r_Token req = "" → r_Certificate req = "" → r_APIKey req = "" ∨ r_Username req = "" ∨ r_Password req = "" →
  try_all (All ord registry) req = try_all (All list_order (providers compare known_users hashKey known_keys issued later)) req.
Proof.
  intros Ht Hc Hreq. rewrite try_providers by done.
  set (pw := password_Authenticate compare known_users issued later req).
  set (key := apikey_Authenticate hashKey known_keys req).
  assert (pw = None ∨ key = None) as Hone.
  { destruct Hreq as [E|[E|E]]; [right|left|left]; subst pw key; unfold apikey_Authenticate, password_Authenticate; rewrite E; [done|done|].
    by rewrite orb_true_r. }
  assert (pw_Enabled (cfg_Password c) = true → password_Authenticate compare users issued later req = pw) as Hpw
    by (intros E; subst pw; unfold known_users; by rewrite E).
  assert (key_Enabled (cfg_APIKey c) = true → apikey_Authenticate hashKey keys req = key) as Hkey
    by (intros E; subst key; unfold known_keys; by rewrite E).
  assert (pw_Enabled (cfg_Password c) = false → pw = None) as Hpw'.
  { intros E. subst pw. unfold known_users. rewrite E. unfold password_Authenticate. destruct (_ || _); [done|].
    unfold CheckPassword, GetUser. by rewrite lookup_empty. }
  assert (key_Enabled (cfg_APIKey c) = false → key = None) as Hkey'.
  { intros E. subst key. unfold known_keys. rewrite E. unfold apikey_Authenticate. destruct (bool_decide _); [done|].
    destruct (_ && _); [done|]. cbn. by rewrite lookup_empty. }
  apply try_all_one.
  - intros a [n Ha]%elem_of_All. apply registered_authenticators in Ha as [H|[H|[[E ->]|[E ->]]]]; [left; by apply H|left; by apply H| |]; cbn.
    + rewrite (Hkey E). destruct Hone as [-> | ->]; [by right|by left].
    + rewrite (Hpw E). destruct pw; [by right|by left].
  - destruct pw as [id|] eqn:Epw.
    + destruct (pw_Enabled (cfg_Password c)) eqn:E; [|by specialize (Hpw' eq_refl)]. right.
      destruct (registered_password E) as [n Hn]. eexists. split; [by apply elem_of_All; exists n|]. cbn. by rewrite Hpw.
    + destruct key as [id|] eqn:Ekey; [|by left]. destruct (key_Enabled (cfg_APIKey c)) eqn:E; [|by specialize (Hkey' eq_refl)]. right.
      destruct (registered_key E) as [n Hn]. eexists. split; [by apply elem_of_All; exists n|]. cbn. by rewrite Hkey.
Qed.

Lemma service_handshake ord ord' addr f :
  conn_Authenticate ord ord' registry addr f =
  conn_Authenticate list_order list_order (providers compare known_users hashKey known_keys issued later) addr f.
Proof.
  unfold conn_Authenticate. destruct f as [[]|]; try done. unfold AuthenticateTCP, AuthenticateTCPWithKey.
  by rewrite !(service_try ord), !(service_try ord') by (cbn; auto).
Qed.
End login.

Lemma known_password compare users c u p usr :
  valid_password compare (known_users users c) u p usr ↔ pw_Enabled (cfg_Password c) = true ∧ valid_password compare users u p usr.
Proof.
  unfold valid_password, known_users. destruct (pw_Enabled _); [naive_solver|]. rewrite lookup_empty. naive_solver.
Qed.

Lemma known_key hashKey c keys k ns e :
  valid_key hashKey (known_keys c keys) k ns e ↔ key_Enabled (cfg_APIKey c) = true ∧ valid_key hashKey keys k ns e.
Proof.
  unfold valid_key, known_keys. destruct (key_Enabled _); [naive_solver|]. cbn. rewrite lookup_empty. naive_solver.
Qed.

Lemma known_keys_wf c keys : keys_wf keys → keys_wf (known_keys c keys).
Proof. unfold known_keys. destruct (key_Enabled _); [done|]. intros _ h e. cbn. by rewrite lookup_empty. Qed.


(** Google and Microsoft tokens are not checked: every text of eight bytes is
    accepted, and a shorter one panics. *)
Theorem oauth_accepts_anything cfg github_user req :
  Provider cfg = "google" ∨ Provider cfg = "microsoft" → r_Token req ≠ "" →
  if (8 <=? str_len (r_Token req))%nat then ∃ i, oauth_Authenticate cfg github_user req = Ret (inl (Some i))
  else oauth_Authenticate cfg github_user req = Panic.
Proof.
  intros Hp Ht. unfold oauth_Authenticate. rewrite bool_decide_eq_false_2 by done.
  destruct Hp as [-> | ->]; unfold validateGoogleToken, validateMicrosoftToken, first8; cbn [bool_decide];
    (destruct (8 <=? str_len (r_Token req))%nat; [by eexists|done]).
Qed.

Definition sample_providers : ProvidersConfig :=
  mkProvidersConfig (mkPasswordProviderConfig true 10 12) (mkAPIKeyProviderConfig true 20 "flw_" "") (mkJWTProviderConfig false "" "" "" "" "" 0 0)
    (mkOAuthConfig true "google" "" "" "" [] ∅) (mkMTLSConfig true "" [] []).

