(* ===== verification/Connection.v ===== *)
(** * The output of a connection (src/internal/server/connection.go)

    Frames for a client go through a channel of 1024 places to the goroutine
    [writerLoop], which encodes them into the buffer of the encoder and flushes
    it when the channel is empty or after a hundred frames.  The goroutines are
    a step relation: senders, the writer, the runtime that spills a full buffer,
    the peer that goes away and [Close] may interleave in any way. *)

From stdpp Require Import base list strings relations.
From Stdlib Require Import ZArith Lia Strings.Byte.
From S2P Require Import Prelude Codec.
Local Open Scope Z_scope.
Local Open Scope list_scope.

(** Where the writer is: in the outer select, in the drain loop with that many
    frames drained, or ended. *)
Inductive writer := Waiting | Draining (drained : nat) | Ended.

(** [sent] are the frames that have entered the channel, in order; [lost] is set
    once the socket has failed or been closed, after which nothing reaches the
    peer. *)
Record Connection := mkConnection {
  outCh : list frame; stopped : bool; loop : writer; bw : list byte; wire : list byte; lost : bool; sent : list frame;
}.
Definition newConnection : Connection := mkConnection [] false Waiting [] [] false [].

Definition capacity : nat := 1024.
Definition room (c : Connection) : bool := (length (outCh c) <? capacity)%nat.

Definition enqueue (f : frame) (c : Connection) : Connection :=
  mkConnection (outCh c ++ [f]) (stopped c) (loop c) (bw c) (wire c) (lost c) (sent c ++ [f]).

(** ** Senders *)

(** A select with several ready cases takes any of them. *)
Inductive choice := TakeSend | TakeStop.
Inductive write_result := Written | ErrClosed | ErrBufferFull.

Definition WriteMessage (s : choice) (f : frame) (c : Connection) : Connection * write_result :=
  match room c, stopped c, s with
  | true, false, _ | true, true, TakeSend => (enqueue f c, Written)
  | _, true, _ => (c, ErrClosed)
  | false, false, _ => (c, ErrBufferFull)
  end.

(** [WritePublishOK], [WriteError] and [WriteHeartbeat]: nothing when the sender
    has to wait. *)
Definition write_blocking (s : choice) (f : frame) (c : Connection) : option Connection :=
  match room c, stopped c, s with
  | true, false, _ | true, true, TakeSend => Some (enqueue f c)
  | _, true, _ => Some c
  | false, false, _ => None
  end.

(** Backpressure is dropped when the channel is full. *)
Definition WriteBackpressure (s : choice) (f : frame) (c : Connection) : Connection := (WriteMessage s f c).1.

(** The answers of [Authenticate]: a plain send. *)
Definition send_plain (f : frame) (c : Connection) : option Connection := if room c then Some (enqueue f c) else None.

(** ** The writer *)

Definition flush (c : Connection) : Connection :=
  mkConnection (outCh c) (stopped c) (loop c) [] (if lost c then wire c else wire c ++ bw c) (lost c) (sent c).
Definition set_loop (w : writer) (c : Connection) : Connection :=
  mkConnection (outCh c) (stopped c) w (bw c) (wire c) (lost c) (sent c).
Definition writeMsg (f : frame) (c : Connection) : Connection :=
  mkConnection (outCh c) (stopped c) (loop c) (bw c ++ encode f) (wire c) (lost c) (sent c).
Definition set_outCh (l : list frame) (c : Connection) : Connection :=
  mkConnection l (stopped c) (loop c) (bw c) (wire c) (lost c) (sent c).

(** One turn of [writerLoop]; [s] settles the select when both the stop signal
    and a frame are there.  Nothing when it has to wait or has ended. *)
Definition writerLoop (s : choice) (c : Connection) : option Connection :=
  match loop c, outCh c, stopped c, s with
  | Waiting, _, true, TakeStop | Waiting, [], true, _ => Some (set_loop Ended c)
  | Waiting, f :: l, _, _ => Some (set_loop (Draining 0) (writeMsg f (set_outCh l c)))
  | Waiting, [], false, _ => None
  | Draining n, f :: l, _, _ =>
      let c := writeMsg f (set_outCh l c) in
      Some (if (100 <=? S n)%nat then set_loop Waiting (flush c) else set_loop (Draining (S n)) c)
  | Draining n, [], _, _ => Some (set_loop Waiting (flush c))
  | Ended, _, _, _ => None
  end.

(** The buffer of 64 KB passes its beginning on when it is full. *)
Definition spill (n : nat) (c : Connection) : Connection :=
  mkConnection (outCh c) (stopped c) (loop c) (drop n (bw c)) (if lost c then wire c else wire c ++ take n (bw c)) (lost c) (sent c).

(** [Close]: first the stop signal, then the socket. *)
Definition close_stop (c : Connection) : Connection := mkConnection (outCh c) true (loop c) (bw c) (wire c) (lost c) (sent c).
Definition lose (c : Connection) : Connection := mkConnection (outCh c) (stopped c) (loop c) (bw c) (wire c) true (sent c).

(** ** Interleavings *)

Inductive cstep : Connection → Connection → Prop :=
| cs_message s f c : cstep c (WriteMessage s f c).1
| cs_blocking s f c c' : write_blocking s f c = Some c' → cstep c c'
| cs_plain f c c' : send_plain f c = Some c' → cstep c c'
| cs_writer s c c' : writerLoop s c = Some c' → cstep c c'
| cs_spill n c : cstep c (spill n c)
| cs_stop c : cstep c (close_stop c)
| cs_lose c : cstep c (lose c).

(** What has been taken from the channel is on the wire or in the buffer, as
    far as the socket was there. *)
Record in_order (c : Connection) (taken : list frame) : Prop := {
  io_sent : sent c = taken ++ outCh c;
  io_bytes : if lost c then wire c `prefix_of` concat (encode <$> taken)
             else wire c ++ bw c = concat (encode <$> taken);
}.

Lemma enqueue_in_order f c taken : in_order c taken → in_order (enqueue f c) taken.
Proof. intros [H1 H2]. split; cbn; [by rewrite H1, app_assoc|done]. Qed.

Lemma flush_in_order c taken : in_order c taken → in_order (flush c) taken.
Proof. intros [H1 H2]. split; cbn; [done|]. destruct (lost c); [done|]. by rewrite app_nil_r. Qed.

Lemma take_in_order f l c taken : outCh c = f :: l → in_order c taken → in_order (writeMsg f (set_outCh l c)) (taken ++ [f]).
Proof.
  intros E [H1 H2]. split; cbn; [by rewrite H1, E, <-app_assoc|]. rewrite fmap_app, concat_app. cbn. rewrite app_nil_r.
  destruct (lost c); [by apply prefix_app_r|]. by rewrite app_assoc, H2.
Qed.

Lemma set_loop_in_order w c taken : in_order c taken → in_order (set_loop w c) taken.
Proof. by intros []. Qed.

Lemma WriteMessage_in_order s f c taken : in_order c taken → in_order (WriteMessage s f c).1 taken.
Proof. intros H. unfold WriteMessage. destruct (room c), (stopped c), s; try done; by apply enqueue_in_order. Qed.

Lemma cstep_in_order c c' taken : cstep c c' → in_order c taken → ∃ taken', in_order c' taken'.
Proof.
  intros Hst Hc. destruct Hst as [s f c|s f c c' E|f c c' E|s c c' E|n c|c|c].
  - exists taken. by apply WriteMessage_in_order.
  - exists taken. unfold write_blocking in E. destruct (room c), (stopped c), s; try done; injection E as <-; try done; by apply enqueue_in_order.
  - exists taken. unfold send_plain in E. destruct (room c); [|done]. injection E as <-. by apply enqueue_in_order.
  - unfold writerLoop in E. destruct (loop c) as [|n|]; [| |done].
    + destruct (outCh c) as [|f l] eqn:Eo, (stopped c), s; try done; injection E as <-;
        first [by exists taken; apply set_loop_in_order|exists (taken ++ [f]); by apply set_loop_in_order, take_in_order].
    + destruct (outCh c) as [|f l] eqn:Eo; injection E as <-.
      * exists taken. by apply set_loop_in_order, flush_in_order.
      * exists (taken ++ [f]). match goal with |- in_order (if ?b then _ else _) _ => destruct b end;
          apply set_loop_in_order; [apply flush_in_order|]; by apply take_in_order.
  - exists taken. destruct Hc as [H1 H2]. split; cbn; [done|]. destruct (lost c); [done|]. by rewrite <-app_assoc, take_drop.
  - exists taken. by destruct Hc.
  - exists taken. destruct Hc as [H1 H2]. split; cbn; [done|]. destruct (lost c); [done|]. by eexists.
Qed.

Lemma reachable_in_order c : rtc cstep newConnection c → ∃ taken, in_order c taken.
Proof.
  assert (∀ x y, rtc cstep x y → (∃ t, in_order x t) → ∃ t, in_order y t) as H.
  { induction 1 as [|x y z Hst _ IH]; [done|]. intros [t Ht]. apply IH. by eapply cstep_in_order. }
  intros Hrun. eapply H; [done|]. by exists [].
Qed.

(** ** What the client reads *)

(** Reading the beginning of a stream of frames gives the beginning of the
    frames and then the end of the file, expected or not. *)
Lemma read_prefix fs w fuel :
  Forall frame_ok fs → w `prefix_of` concat (encode <$> fs) → (length fs < fuel)%nat →
  ∃ k e, read_all fuel w = (take k fs, IOErr e) ∧ (w = concat (encode <$> fs) → (length fs ≤ k)%nat).
Proof.
  intros Hok. revert w fuel. induction Hok as [|f fs Hf Hfs IH]; intros w [|fuel] Hp Hn; cbn in Hn; try lia.
  - apply prefix_nil_inv in Hp as ->. exists 0%nat, EOF. done.
  - change (concat (encode <$> f :: fs)) with (encode f ++ concat (encode <$> fs)) in *.
    destruct (decide (length (encode f) ≤ length w)%nat) as [Hl|Hl].
    + assert (∃ w', w = encode f ++ w' ∧ w' `prefix_of` concat (encode <$> fs)) as (w' & -> & Hp').
      { destruct Hp as [r Hr]. exists (drop (length (encode f)) w). rewrite <-(take_drop (length (encode f)) w) in Hr at 1.
        rewrite <-app_assoc in Hr. apply app_inj_1 in Hr as [H1 H2]; [|rewrite length_take; lia].
        split; [|by exists r]. rewrite <-(take_drop (length (encode f)) w) at 1. by rewrite <-H1. }
      cbn [read_all]. rewrite ReadFrame_encode by done. destruct (IH w' fuel Hp' ltac:(lia)) as (k & e & E & Hall). rewrite E.
      exists (S k), e. split; [done|]. intros Heq. apply app_inv_head in Heq. specialize (Hall Heq). cbn. lia.
    + assert (w = take (length w) (encode f)) as Hw.
      { destruct Hp as [r Hr]. apply (f_equal (take (length w))) in Hr. rewrite take_app_length in Hr.
        rewrite <-Hr at 1. by rewrite take_app_le by lia. }
      cbn [read_all]. pose proof (truncated_frame f (length w) (proj1 Hf) ltac:(lia)) as Ht. rewrite <-Hw in Ht.
      destruct (ReadFrame w) as [? [?|?]]; cbn in Ht; [done|]. injection Ht as ->. exists 0%nat. eexists. split; [done|].
      intros Heq. apply (f_equal length) in Heq. rewrite length_app in Heq. lia.
Qed.

Lemma reads_sent c :
  rtc cstep newConnection c → Forall frame_ok (sent c) →
  ∃ k e, read_all (S (length (sent c))) (wire c) = (take k (sent c), IOErr e) ∧
    (outCh c = [] → bw c = [] → lost c = false → take k (sent c) = sent c).
Proof.
  intros [taken [H1 H2]]%reachable_in_order Hok.
  assert (wire c `prefix_of` concat (encode <$> sent c)) as Hp.
  { rewrite H1, fmap_app, concat_app. destruct (lost c); [by apply prefix_app_r|]. rewrite <-H2, <-app_assoc. by eexists. }
  destruct (read_prefix (sent c) (wire c) (S (length (sent c))) Hok Hp ltac:(lia)) as (k & e & E & Hall).
  exists k, e. split; [done|]. intros Ho Hb Hl. apply take_ge. apply Hall.
  rewrite Hl, Hb, app_nil_r in H2. rewrite Ho, app_nil_r in H1. by rewrite H1.
Qed.

(** C16. The client reads what was sent: however senders, writer, spills, a
    failing socket and the closing of the connection interleave, the frames a
    client decodes are the first of the frames that entered the channel, each
    whole and in order; and once the channel and the buffer are empty on a
    living socket it has them all. *)
Theorem client_reads_sent c :
  rtc cstep newConnection c → Forall frame_ok (sent c) →
  ∃ k e, read_all (S (length (sent c))) (wire c) = (take k (sent c), IOErr e) ∧
    (outCh c = [] → bw c = [] → lost c = false → take k (sent c) = sent c).
Proof. apply reads_sent. Qed.

(** ** The writer catches up *)

Definition busy (c : Connection) : nat := (2 * length (outCh c) + match loop c with Draining _ => 1 | _ => 0 end)%nat.

(** While the connection is not stopped the writer has a turn to make as long as
    there is something to write, and each brings it closer to the end. *)
Lemma writer_turn s c :
  stopped c = false → loop c ≠ Ended →
  match writerLoop s c with
  | Some c' => (busy c' < busy c)%nat ∧ stopped c' = false ∧ loop c' ≠ Ended ∧ sent c' = sent c ∧ lost c' = lost c ∧
      (loop c' = Waiting → bw c' = [])
  | None => loop c = Waiting ∧ outCh c = []
  end.
Proof.
  intros Hs Hl. unfold writerLoop, busy. rewrite Hs. destruct (loop c) as [|n|] eqn:E; [| |done].
  - destruct (outCh c) as [|f l] eqn:Eo; [done|]. destruct s; cbn; split_and!; try done; lia.
  - destruct (outCh c) as [|f l] eqn:Eo; [cbn; rewrite Eo; split_and!; try done; cbn; lia|].
    cbv zeta. destruct (100 <=? S n)%nat; cbn; split_and!; try done; lia.
Qed.

Inductive wstep : Connection → Connection → Prop := ws_turn s c c' : writerLoop s c = Some c' → wstep c c'.

Lemma writer_catches_up n c :
  (busy c ≤ n)%nat → stopped c = false → loop c ≠ Ended → (loop c = Waiting → bw c = []) →
  ∃ c', rtc wstep c c' ∧ outCh c' = [] ∧ bw c' = [] ∧ loop c' = Waiting ∧ sent c' = sent c ∧ lost c' = lost c.
Proof.
  revert c. induction n as [|n IH]; intros c Hn Hs Hl Hb;
    (pose proof (writer_turn TakeSend c Hs Hl) as Ht; destruct (writerLoop TakeSend c) as [c'|] eqn:E;
     [|destruct Ht as [H1 H2]; exists c; split_and!; auto; apply rtc_refl]).
  - lia.
  - destruct Ht as (H1 & H2 & H3 & H4 & H5 & H6). destruct (IH c' ltac:(lia) H2 H3 H6) as (c'' & Hr & ?). 
    exists c''. split; [eapply rtc_l; [by econstructor|done]|]. destruct_and!. split_and!; congruence.
Qed.

Record writer_ok (c : Connection) : Prop := {
  wo_flushed : loop c = Waiting → bw c = [];
  wo_ended : loop c = Ended → stopped c = true;
}.

Lemma WriteMessage_cases s f c : (WriteMessage s f c).1 = c ∨ (WriteMessage s f c).1 = enqueue f c.
Proof. unfold WriteMessage. destruct (room c), (stopped c), s; auto. Qed.

Lemma write_blocking_cases s f c c' : write_blocking s f c = Some c' → c' = c ∨ c' = enqueue f c.
Proof. unfold write_blocking. destruct (room c), (stopped c), s; naive_solver. Qed.

Lemma cstep_writer_ok c c' : cstep c c' → writer_ok c → writer_ok c'.
Proof.
  intros Hst H. destruct Hst as [s f c|s f c c' E|f c c' E|s c c' E|n c|c|c].
  - destruct (WriteMessage_cases s f c) as [-> | ->]; [done|by destruct H].
  - apply write_blocking_cases in E as [-> | ->]; [done|by destruct H].
  - unfold send_plain in E. destruct (room c); [|done]. injection E as <-. by destruct H.
  - destruct H as [H1 H2]. unfold writerLoop in E. destruct (loop c) as [|n|]; [| |done].
    + destruct (outCh c), (stopped c) eqn:Es, s; try done; injection E as <-; split; cbn; done.
    + destruct (outCh c); injection E as <-; [by split|]. match goal with |- writer_ok (if ?b then _ else _) => destruct b end; by split.
  - destruct H as [H1 H2]. split; cbn; [|done]. intros Hw. rewrite H1 by done. apply drop_nil.
  - by destruct H.
  - by destruct H.
Qed.

Lemma reachable_writer_ok c : rtc cstep newConnection c → writer_ok c.
Proof.
  assert (∀ x y, rtc cstep x y → writer_ok x → writer_ok y) as H.
  { induction 1 as [|x y z Hst _ IH]; [done|]. intros Hx. apply IH. by eapply cstep_writer_ok. }
  intros Hrun. eapply H; [done|]. by split.
Qed.

(** C17. Every frame arrives: from any state in which the connection is neither
    stopped nor lost the writer alone reaches, in finitely many turns, a state
    in which the client reads all the frames sent so far. *)
Theorem writer_delivers c :
  rtc cstep newConnection c → Forall frame_ok (sent c) → stopped c = false → lost c = false →
  ∃ c' e, rtc wstep c c' ∧ read_all (S (length (sent c))) (wire c') = (sent c, IOErr e).
Proof.
  intros Hrun Hok Hs Hl. destruct (reachable_writer_ok c Hrun) as [H1 H2].
  destruct (writer_catches_up (busy c) c ltac:(lia) Hs) as (c' & Hw & Ho & Hb & _ & Hse & Hlo); [intros E; specialize (H2 E); congruence|done|].
  assert (rtc cstep newConnection c') as Hrun'.
  { etransitivity; [done|]. eapply rtc_subrel, Hw. intros x y [s a b E]. by eapply cs_writer. }
  destruct (reads_sent c' Hrun') as (k & e & E & Hall); [by rewrite Hse|]. exists c', e. split; [done|].
  rewrite <-Hse, E, Hall by congruence. done.
Qed.

(** ** A session *)

Definition sample_session : Connection :=
  let c := default newConnection (send_plain (ConnectOKFrame "::1") newConnection) in
  (WriteMessage TakeSend (MessageFrame "m1" "jobs" "g" [x07] 1) c).1.

Lemma sample_session_reachable : rtc cstep newConnection sample_session.
Proof.
  eapply rtc_l; [by apply (cs_plain (ConnectOKFrame "::1") newConnection)|]. eapply rtc_l; [|apply rtc_refl].
  apply (cs_message TakeSend (MessageFrame "m1" "jobs" "g" [x07] 1)).
Qed.

Lemma sample_frames_ok : Forall frame_ok (sent sample_session).
Proof. repeat constructor; vm_compute; try done; intuition congruence. Qed.

Lemma client_reads_sent_witness :
  ∃ k e, read_all 3 (wire sample_session) = (take k (sent sample_session), IOErr e) ∧ outCh sample_session = sent sample_session.
Proof.
  destruct (client_reads_sent sample_session sample_session_reachable sample_frames_ok) as (k & e & E & _). by exists k, e.
Defined.

Lemma writer_delivers_witness :
  ∃ c' e, rtc wstep sample_session c' ∧
    read_all 3 (wire c') = ([ConnectOKFrame "::1"; MessageFrame "m1" "jobs" "g" [x07] 1], IOErr e).
Proof. exact (writer_delivers sample_session sample_session_reachable sample_frames_ok eq_refl eq_refl). Defined.

(** The answer to a failed login may never be written: the handler closes the
    connection as soon as it is in the channel, and the writer may see the stop
    signal first. *)
Theorem refusal_may_be_lost reason :
  ∃ c c', send_plain (ConnectErrFrame reason) newConnection = Some c ∧ rtc cstep (close_stop c) c' ∧
    loop c' = Ended ∧ wire c' = [] ∧ sent c' = [ConnectErrFrame reason].
Proof.
  eexists _, _. split; [reflexivity|]. split; [eapply rtc_once, (cs_writer TakeStop); reflexivity|]. done.
Qed.
