(* ===== verification/Keys.v ===== *)
(** * The signing key of the token manager (src/internal/auth/jwt/jwt.go)

    [NewManager]: the key comes from the configuration, or from a PEM file in the
    data directory, which the first start writes.  The operations of package
    crypto and the encodings of keys are the class [Crypto]; json.Unmarshal of
    the two key formats is part of it. *)

From stdpp Require Import base gmap list strings.
From Stdlib Require Import ZArith Lia Strings.Byte Strings.Ascii.
From S2P Require Import Prelude Auth Base64 Jwt Config Providers.
Local Open Scope Z_scope.
Local Open Scope list_scope.

(** *** Decimal integers *)

Definition digit (b : byte) : option Z :=
  let n := byte_to_Z b in if (48 <=? n) && (n <=? 57) then Some (n - 48) else None.
Fixpoint digits (acc : Z) (s : list byte) : option Z :=
  match s with [] => Some acc | b :: s => d ← digit b; digits (10 * acc + d) s end.

(** [big.Int.SetString(s, 10)]: a sign, then digits, at least one. *)
Definition SetString (s : list byte) : option Z :=
  match s with
  | [] => None
  | x2b :: [] | x2d :: [] => None
  | x2b :: s => digits 0 s
  | x2d :: s => Z.opp <$> digits 0 s
  | s => digits 0 s
  end.

Class Crypto := {
  rsa_key : Type;
  rsa_from_D : Z → rsa_key;                                  (** a key with D alone *)
  MarshalPKCS1 : rsa_key → list byte;
  ParsePKCS1 : list byte → option rsa_key;
  SignPKCS1v15 : rsa_key → list byte → option (list byte);
  VerifyPKCS1v15 : rsa_key → list byte → list byte → bool;
  SignASN1 : Z * Z * Z → list byte → option (list byte);
  VerifyASN1 : Z * Z * Z → list byte → list byte → bool;
  Sign25519 : list byte → list byte → option (list byte);
  Verify25519 : list byte → list byte → list byte → bool;
  pem_Decode : list byte → option (pem_block * list byte);
  pem_Encode : pem_block → list byte;
  is_pkcs1_object : list byte → bool;                        (** json.Unmarshal into the struct succeeds *)
  unmarshal_ec : list byte → option (list byte * list byte * list byte);
}.

Inductive private_key `{Crypto} := RSAPrivate (k : rsa_key) | ECPrivate (d x y : Z) | EdPrivate (b : list byte).

Section keys.
Context `{Crypto} (sha256 : list byte → list byte).

(** *** Signing with each kind of key *)

Definition sign (k : private_key) (data : list byte) : option (list byte) :=
  match k with
  | RSAPrivate k => SignPKCS1v15 k (sha256 data)
  | ECPrivate d x y => SignASN1 (d, x, y) (sha256 data)
  | EdPrivate b => Sign25519 b data
  end.
Definition verify (k : private_key) (data sig : list byte) : bool :=
  match k with
  | RSAPrivate k => VerifyPKCS1v15 k (sha256 data) sig
  | ECPrivate d x y => VerifyASN1 (d, x, y) (sha256 data) sig
  | EdPrivate b => Verify25519 b data sig
  end.
Definition store_of (k : private_key) (keyType keyID : string) : keyStore := mkKeyStore keyType keyID (sign k) (verify k).

(** *** A configured key *)

Definition x509DecodePrivateKey (data : list byte) : option rsa_key :=
  if is_pkcs1_object data then None else rsa_from_D ∘ Z.abs <$> SetString data.

Definition x509DecodeECPrivateKey (data : list byte) : option private_key :=
  '(d, x, y) ← unmarshal_ec data;
  d ← SetString d; x ← SetString x; y ← SetString y; Some (ECPrivate d x y).

Definition decode_config (c : JWTProviderConfig) : option (list byte) := Std_decode (str_bytes (PrivateKey c)).

Definition loadRSAKeys (c : JWTProviderConfig) : option keyStore :=
  b ← decode_config c; k ← x509DecodePrivateKey b; Some (store_of (RSAPrivate k) "RSA" (cfg_KeyID c)).
Definition loadECKeys (c : JWTProviderConfig) : option keyStore :=
  b ← decode_config c; k ← x509DecodeECPrivateKey b; Some (store_of k "EC" (cfg_KeyID c)).
Definition loadEdDSAKeys (c : JWTProviderConfig) : option keyStore :=
  b ← decode_config c;
  if (length b =? 32)%nat then Some (store_of (EdPrivate b) "EdDSA" (cfg_KeyID c)) else None.

Definition loadKeys (c : JWTProviderConfig) : option keyStore :=
  if bool_decide (cfg_KeyType c = "RSA") then loadRSAKeys c
  else if bool_decide (cfg_KeyType c = "EC") then loadECKeys c
  else if bool_decide (cfg_KeyType c = "EdDSA") then loadEdDSAKeys c
  else None.

(** *** The key file *)

(** [file]: the contents of jwt_private.pem, if it can be read. *)
Definition loadRSAPrivateKeyPEM (file : option (list byte)) : option rsa_key :=
  data ← file;
  '(block, _) ← pem_Decode data;
  if bool_decide (pem_Type block = "RSA PRIVATE KEY") then ParsePKCS1 (pem_Bytes block) else None.

(** How saving ended: not created, cut after some bytes, or written. *)
Inductive save := SaveFailed | SaveCut (n : nat) | SaveDone.

Definition saveRSAPrivateKeyPEM (io : save) (k : rsa_key) (file : option (list byte)) : option (list byte) * bool :=
  let bytes := pem_Encode (mkPemBlock "RSA PRIVATE KEY" (MarshalPKCS1 k)) in
  match io with
  | SaveFailed => (file, false)
  | SaveCut n => (Some (take n bytes), false)
  | SaveDone => (Some bytes, true)
  end.

(** [fresh]: what rsa.GenerateKey returns. *)
Definition loadOrGenerateRSAKeys (fresh : option rsa_key) (io : save) (file : option (list byte)) : option keyStore * option (list byte) :=
  match loadRSAPrivateKeyPEM file with
  | Some k => (Some (store_of (RSAPrivate k) "RSA" "auto"), file)
  | None =>
      match fresh with
      | None => (None, file)
      | Some k =>
          let '(file, ok) := saveRSAPrivateKeyPEM io k file in
          (if ok then Some (store_of (RSAPrivate k) "RSA" "auto") else None, file)
      end
  end.

(** The manager and the key file afterwards. *)
Definition NewManager (c : JWTProviderConfig) (dataDir : string) (fresh : option rsa_key) (io : save) (file : option (list byte))
    : Manager * option (list byte) :=
  let '(ks, file) :=
    if negb (bool_decide (PrivateKey c = "")) then (loadKeys c, file)
    else if negb (bool_decide (dataDir = "")) then loadOrGenerateRSAKeys fresh io file
    else (None, file) in
  (mkManager (Config.AccessTokenTTL c) ks (str_bytes (HMACSecret c)), file).

(** ** Restarts *)

Context (Hpem : ∀ b, ∃ rest, pem_Decode (pem_Encode b) = Some (b, rest)).
Context (Hpkcs : ∀ k, ParsePKCS1 (MarshalPKCS1 k) = Some k).

Lemma saved_key_loads k : loadRSAPrivateKeyPEM (Some (pem_Encode (mkPemBlock "RSA PRIVATE KEY" (MarshalPKCS1 k)))) = Some k.
Proof.
  unfold loadRSAPrivateKeyPEM. cbn [mbind option_bind]. destruct (Hpem (mkPemBlock "RSA PRIVATE KEY" (MarshalPKCS1 k))) as [rest E].
  rewrite E. cbn. apply Hpkcs.
Qed.

(** A later start, given the key file of an earlier one. *)
Lemma later_manager c dataDir fresh fresh' io io' file :
  let '(m, file1) := NewManager c dataDir fresh io file in
  is_Some (m_keyStore m) →
  let '(m', file2) := NewManager c dataDir fresh' io' file1 in m' = m ∧ file2 = file1.
Proof.
  unfold NewManager. destruct (negb (bool_decide (PrivateKey c = ""))); [done|].
  destruct (negb (bool_decide (dataDir = ""))); [|done]. unfold loadOrGenerateRSAKeys.
  destruct (loadRSAPrivateKeyPEM file) as [k|] eqn:E; [intros _; by rewrite E|].
  destruct fresh as [k|]; [|by intros []]. destruct io as [|n|]; cbn [saveRSAPrivateKeyPEM m_keyStore]; [by intros []|by intros []|].
  intros _. by rewrite saved_key_loads.
Qed.

(** The signing key survives restarts: once a start has a key of its own in
    the data directory, every later start with the same configuration has the
    same manager, and so accepts the tokens issued before, whatever key it could
    generate and whether or not it could write, and leaves the file as it is. *)
Theorem key_survives_restart c dataDir fresh fresh' io io' file :
  let '(m, file1) := NewManager c dataDir fresh io file in
  is_Some (m_keyStore m) →
  let '(m', file2) := NewManager c dataDir fresh' io' file1 in m' = m ∧ file2 = file1.
Proof. apply later_manager. Qed.
End keys.

(** Keys that are numbers, and texts that read back. *)
#[local] Instance sample_crypto : Crypto := {|
  rsa_key := Z; rsa_from_D d := d;
  MarshalPKCS1 k := Jwt.Sample.pos_bytes (encode k); ParsePKCS1 b := decode (Jwt.Sample.bytes_pos b);
  SignPKCS1v15 k h := Some (byte_of_Z k :: h); VerifyPKCS1v15 k h s := bool_decide (s = byte_of_Z k :: h);
  SignASN1 _ _ := None; VerifyASN1 _ _ _ := false; Sign25519 _ _ := None; Verify25519 _ _ _ := false;
  pem_Decode b := (λ p : string * string, (mkPemBlock p.1 (str_bytes p.2), [])) <$> decode (Jwt.Sample.bytes_pos b);
  pem_Encode b := Jwt.Sample.pos_bytes (encode (pem_Type b, bytes_str (pem_Bytes b)));
  is_pkcs1_object _ := false; unmarshal_ec _ := None;
|}.

Lemma sample_pem_law b : ∃ rest, pem_Decode (pem_Encode b) = Some (b, rest).
Proof.
  exists []. cbv [pem_Decode pem_Encode sample_crypto]. rewrite Jwt.Sample.bytes_pos_bytes, countable.decode_encode. cbn [fmap option_fmap option_map fst snd].
  unfold str_bytes, bytes_str. rewrite String.list_byte_of_string_of_list_byte. by destruct b.
Qed.
Lemma sample_pkcs_law (k : rsa_key) : ParsePKCS1 (MarshalPKCS1 k) = Some k.
Proof. cbv [ParsePKCS1 MarshalPKCS1 sample_crypto]. by rewrite Jwt.Sample.bytes_pos_bytes, countable.decode_encode. Qed.

Definition key7 : rsa_key := 7%Z.
Definition key8 : rsa_key := 8%Z.
Definition sample_jwt : JWTProviderConfig := mkJWTProviderConfig true "RSA" "" "" "" "" 900 604800.

Lemma key_survives_restart_witness :
  let '(m, file) := NewManager id sample_jwt "./data" (Some key7) SaveDone None in
  (ks ← m_keyStore m; ks_sign ks [x61]) = Some [x07; x61] ∧
  NewManager id sample_jwt "./data" (Some key8) SaveFailed file = (m, file).
Proof.
  pose proof (key_survives_restart id sample_pem_law sample_pkcs_law sample_jwt "./data" (Some key7) (Some key8) SaveDone SaveFailed None) as H.
  destruct (NewManager id sample_jwt "./data" (Some key7) SaveDone None) as [m file] eqn:E.
  assert ((ks ← m_keyStore m; ks_sign ks [x61]) = Some [x07; x61]) as Hs.
  { apply (f_equal fst) in E. cbn [fst] in E. rewrite <-E. by vm_compute. }
  split; [done|]. destruct (NewManager id sample_jwt "./data" (Some key8) SaveFailed file) as [m' file'].
  destruct H as [-> ->]; [|done]. destruct (m_keyStore m); [by eexists|done].
Defined.

(** An RSA key in the configuration never works: PKCS#1 bytes are not the JSON
    the decoder looks for, an object is refused, and what is accepted, a decimal
    number, makes a key without a modulus. *)
Lemma configured_rsa `{Crypto} data k : x509DecodePrivateKey data = Some k → ∃ d, 0 ≤ d ∧ k = rsa_from_D d.
Proof.
  unfold x509DecodePrivateKey. destruct (is_pkcs1_object data); [done|]. destruct (SetString data) as [n|]; [|done].
  intros [= <-]. exists (Z.abs n). split; [lia|done].
Qed.
