(* ===== verification/App.v ===== *)
(** * The process (src/internal/app/app.go, src/internal/broker/broker.go)

    [app.New] on what is on disk: the default administrator and its credentials
    file, the metadata store, the authentication service with its signing key,
    the broker with its scheduler, log registry and server; [broker.Start]'s
    recovery; the health check.  Starts of the process on the same disk are
    composed with the logins of the administrator. *)

From stdpp Require Import base gmap list strings.
From Stdlib Require Import ZArith Lia Strings.Byte.
From S2P Require Import Prelude Group Queue Wal Recovery Scheduler Auth Base64 Jwt Table Database DatabaseInv Startup Api ApiInv Server Config Providers Keys.
Local Open Scope Z_scope.
Local Open Scope list_scope.

(** ** Random passwords *)

Definition hextable : list byte := [x30; x31; x32; x33; x34; x35; x36; x37; x38; x39; x61; x62; x63; x64; x65; x66].
Definition hex_EncodeToString (bs : list byte) : string :=
  bytes_str (bs ≫= λ b, [default x30 (hextable !! Z.to_nat (byte_to_Z b / 16)); default x30 (hextable !! Z.to_nat (byte_to_Z b `mod` 16))]).
(** The random bytes are an argument. *)
Definition generateRandomPassword (random : list byte) : string := hex_EncodeToString random.

(** ** The disk *)

Record disk := mkDisk {
  d_store : Store;                          (** octar.db *)
  d_credentials : option string;            (** admin_credentials.txt *)
  d_key : option (list byte);               (** jwt_private.pem *)
  d_wal : wal_root;                         (** the logs *)
}.

(** What a start finds outside: randomness, the clock, what writes succeed. *)
Record start_env `{Crypto} := mkStartEnv {
  st_random : list byte; st_ts : string; st_credentials_ok : bool; st_fresh : option rsa_key; st_save : save;
  st_issued : Z; st_later : Z;
}.

Record App := mkApp { app_store : Store; app_auth : Service; app_rt : runtime; app_server : TCPServer }.

Section app.
Context `{Crypto} (sha256 : list byte → list byte) (hashKey : string → string).
Context (bcrypt : string → option string) (compare : string → string → bool).
Context (github_user : string → http UserInfo) (ParseCertificate : list byte → option Certificate).

Definition set_password (p : string) (a : DefaultAdminConfig) : DefaultAdminConfig := mkDefaultAdminConfig (admin_Username a) p.

(** [db.New]: the tables exist or are created; the flag is of this process. *)
Definition db_New (ts : string) (a : DefaultAdminConfig) (s : Store) : Store * option db_error :=
  seedDefaultData bcrypt ts (admin_Username a) (admin_Password a) (set_adminCreated false s).

Definition credentials_text (a : DefaultAdminConfig) : string :=
  "username: " +:+ admin_Username a +:+ bytes_str [x0a] +:+ "password: " +:+ admin_Password a +:+ bytes_str [x0a].

Definition users_map (s : Store) : gmap string User := list_to_map ((λ u, (u_Username u, u)) <$> rows (users s)).

(** [broker.New]: a scheduler and a log registry without queues, and the server. *)
Definition broker_New (cfg : Config) : runtime * TCPServer := (new_runtime (cfg_Durable (cfg_WAL (cfg_Storage cfg))), server_of cfg).

Definition app_New (cfg : Config) (e : start_env) (d : disk) : disk * (App + db_error) :=
  let admin := DefaultAdmin (cfg_Auth cfg) in
  let auto := bool_decide (admin_Password admin = "") in
  let admin := if auto then set_password (generateRandomPassword (st_random e)) admin else admin in
  match db_New (st_ts e) admin (d_store d) with
  | (store, Some err) => (mkDisk store (d_credentials d) (d_key d) (d_wal d), inr err)
  | (store, None) =>
      let credentials :=
        if auto && adminCreated store && st_credentials_ok e then Some (credentials_text admin) else d_credentials d in
      let jwt := cfg_JWT (Providers (cfg_Auth cfg)) in
      let '(mgr, key) :=
        if jwt_Enabled jwt then NewManager sha256 jwt (DataDir (cfg_Storage cfg)) (st_fresh e) (st_save e) (d_key d)
        else (mkManager 0 None [], d_key d) in
      let svc := NewService compare (users_map store) hashKey (st_issued e) (st_later e) github_user pem_Decode ParseCertificate
                   (λ _, mgr) (cfg_Auth cfg) in
      let '(rt, server) := broker_New cfg in
      (mkDisk store credentials key (d_wal d), inl (mkApp store svc rt server))
  end.

(** [broker.Start]: recovery from the store and the logs. *)
Definition broker_Start (clock : string → string → nat → Z) (ordg : range_order GroupState)
    (unmarshal_config : string → option GroupConfig) (d : disk) (a : App) : outcome runtime :=
  recoverQueues clock ordg unmarshal_config (app_store a) (d_wal d) (app_rt a).
End app.

(** ** The health check *)

Record checkResult := mkCheckResult { check_Name : string; check_Status : string; check_Detail : string }.
Record healthOutput := mkHealthOutput { h_Status : string; h_Version : string; h_Checks : list checkResult }.

(** [Broker.CheckDiskSpace]; [free] is what the file system reports. *)
Definition minFree : Z := Z.shiftl 500 20.
Definition CheckDiskSpace (free : Z + string) : bool * string :=
  match free with
  | inr e => (false, "disk check error: " +:+ e)
  | inl n => if n <? minFree then (false, "low disk space") else (true, "")
  end.

(** The scheduler is always there. *)
Definition get_health (walErr : option string) (free : Z + string) : healthOutput :=
  let '(diskOK, diskDetail) := CheckDiskSpace free in
  let checks := [match walErr with None => mkCheckResult "wal" "ok" "" | Some e => mkCheckResult "wal" "error" e end;
                 mkCheckResult "scheduler" "ok" "";
                 if diskOK then mkCheckResult "disk" "ok" "" else mkCheckResult "disk" "error" diskDetail] in
  mkHealthOutput (if forallb (λ c, bool_decide (check_Status c = "ok")) checks then "ok" else "degraded") "0.1.0" checks.

(** The broker is healthy exactly when no log has failed and the disk has room. *)
Lemma health_ok walErr free :
  h_Status (get_health walErr free) = "ok" ↔ walErr = None ∧ ∃ n, free = inl n ∧ minFree ≤ n.
Proof.
  unfold get_health, CheckDiskSpace. destruct free as [n|e]; [destruct (Z.ltb_spec n minFree)|]; destruct walErr; cbn; try naive_solver lia.
Qed.

(** ** Starts on the same disk *)

Section starts.
Context `{Crypto} (sha256 : list byte → list byte) (hashKey : string → string).
Context (bcrypt : string → option string) (compare : string → string → bool).
Context (github_user : string → http UserInfo) (ParseCertificate : list byte → option Certificate).
Context (cfg : Config).
Local Abbreviation New := (app_New sha256 hashKey bcrypt compare github_user ParseCertificate cfg).
Local Abbreviation admin := (DefaultAdmin (cfg_Auth cfg)).
Local Abbreviation jwt := (cfg_JWT (Providers (cfg_Auth cfg))).

Definition starts (es : list start_env) (d : disk) : disk := foldl (λ d e, (New e d).1) d es.

(** The administrator of a first start without a configured password. *)
Definition first_admin (e : start_env) : DefaultAdminConfig := set_password (generateRandomPassword (st_random e)) admin.

(** A start on a store that has users leaves the users, the credentials and the
    rest of the store alone. *)
Lemma later_start e d :
  rows (users (d_store d)) ≠ [] →
  users (d_store (New e d).1) = users (d_store d) ∧ d_credentials (New e d).1 = d_credentials d ∧ ∃ a, (New e d).2 = inl a.
Proof.
  intros Hu. unfold app_New, db_New, seedDefaultData.
  set (ad := if _ : bool then _ else _).
  assert (∃ s, (let s := match rows (namespaces (set_adminCreated false (d_store d))) with
      | [] => set_namespaces (insert_row (λ id, mkNamespace id "main" "{}" (st_ts e) (st_ts e)) (namespaces (set_adminCreated false (d_store d))))
                (set_adminCreated false (d_store d))
      | _ => set_adminCreated false (d_store d) end in s) = s ∧ users s = users (d_store d) ∧ adminCreated s = false) as (s & Es & H1 & H2).
  { destruct (rows (namespaces (set_adminCreated false (d_store d)))); by eexists. }
  cbv zeta in Es. rewrite Es. rewrite H1. destruct (rows (users (d_store d))) as [|u l] eqn:E; [done|]. rewrite H2, andb_false_r.
  destruct (if jwt_Enabled jwt then _ else _) as [mgr key]. cbn. split_and!; [done|done|by eexists].
Qed.

Lemma later_starts es d :
  rows (users (d_store d)) ≠ [] → users (d_store (starts es d)) = users (d_store d) ∧ d_credentials (starts es d) = d_credentials d.
Proof.
  unfold starts. revert d. induction es as [|e es IH]; intros d Hu; [done|]. cbn [foldl].
  destruct (later_start e d Hu) as (H1 & H2 & _). destruct (IH (New e d).1) as [H3 H4]; [by rewrite H1|]. split; congruence.
Qed.

(** What is assumed of bcrypt: a hash matches the password it was made of. *)
Context (Hbcrypt : ∀ p h, bcrypt p = Some h → compare h p = true).

Lemma check_password_users u p s s' : users s' = users s → db_CheckPassword compare u p s' = db_CheckPassword compare u p s.
Proof. intros E. unfold db_CheckPassword, db_GetUser. by rewrite E. Qed.

(** The first start. *)
Lemma first_app_start e d :
  store_ok (d_store d) → rows (users (d_store d)) = [] → admin_Password admin = "" → admin_Username admin ≠ "" → st_random e ≠ [] →
  match New e d with
  | (d', inl a) =>
      (∃ h, bcrypt (admin_Password (first_admin e)) = Some h ∧
         db_GetUser (admin_Username admin) (d_store d') =
           Some (mkUser (last_id (users (d_store d)) + 1) (admin_Username admin) h None "admin" (st_ts e) (st_ts e))) ∧
      d_credentials d' = (if st_credentials_ok e then Some (credentials_text (first_admin e)) else d_credentials d) ∧
      rows (users (d_store d')) ≠ [] ∧ app_store a = d_store d'
  | (d', inr _) => bcrypt (admin_Password (first_admin e)) = None ∧ d_credentials d' = d_credentials d
  end.
Proof.
  intros Hs Hu Hp Hn Hr. unfold app_New. rewrite bool_decide_eq_true_2 by done. fold (first_admin e).
  assert (admin_Password (first_admin e) ≠ "") as Hne.
  { unfold first_admin, generateRandomPassword, hex_EncodeToString. cbn. by destruct (st_random e). }
  unfold db_New, seedDefaultData.
  set (s := match rows (namespaces (set_adminCreated false (d_store d))) with [] => _ | _ => _ end).
  assert (users s = users (d_store d)) as Eu by (unfold s; by destruct (rows (namespaces _))).
  rewrite Eu, Hu. unfold default_str at 1 2. rewrite !bool_decide_eq_false_2 by done.
  destruct (bcrypt (admin_Password (first_admin e))) as [h|] eqn:Eb; [|done].
  destruct (if jwt_Enabled jwt then _ else _) as [mgr key]. cbn. split_and!; [|done| |done].
  - exists h. split; [done|]. unfold db_GetUser. cbn. rewrite row_of_insert.
    + cbn. by rewrite decide_True.
    + apply row_of_None. rewrite Hu. by intros r Hr'%elem_of_nil.
  - rewrite Hu. done.
Qed.

(** C37. The credentials file stays true: a first start without a configured
    password that gets to write the file leaves in it a name and a password with
    which the administrator it created logs in, and any number of later starts,
    each with a new random password, changes neither the file nor the account. *)
Theorem credentials_file_valid e es d :
  store_ok (d_store d) → rows (users (d_store d)) = [] → admin_Password admin = "" → admin_Username admin ≠ "" → st_random e ≠ [] →
  st_credentials_ok e = true → is_Some (bcrypt (admin_Password (first_admin e))) →
  let d' := starts (e :: es) d in
  d_credentials d' = Some (credentials_text (first_admin e)) ∧
  db_CheckPassword compare (admin_Username (first_admin e)) (admin_Password (first_admin e)) (d_store d') = true ∧
  u_Role <$> db_GetUser (admin_Username (first_admin e)) (d_store d') = Some "admin".
Proof.
  intros Hs Hu Hp Hn Hr Hok Hb d'. pose proof (first_app_start e d Hs Hu Hp Hn Hr) as H1. unfold d'. cbn [starts foldl].
  change (foldl (λ d e, (New e d).1) (New e d).1 es) with (starts es (New e d).1).
  destruct (New e d) as [d1 [a|err]]; [|destruct H1 as [H1 _]; by rewrite H1 in Hb; destruct Hb].
  destruct H1 as ((h & Hh & Hg) & Hc & Hne & _). cbn [fst]. destruct (later_starts es d1 Hne) as [H2 H3].
  rewrite H3, Hc, Hok. change (admin_Username (first_admin e)) with (admin_Username admin).
  rewrite (check_password_users _ _ _ _ H2). unfold db_CheckPassword, db_GetUser in *. rewrite H2, Hg. cbn.
  split_and!; [done|by apply Hbcrypt|done].
Qed.
End starts.

(** ** Logging in *)

Lemma substring_app (s t : string) : String.substring (str_len s) (str_len (s +:+ t) - str_len s) (s +:+ t) = t.
Proof.
  unfold str_len. induction s as [|c s IH]; [|exact IH]. change ("" +:+ t) with t. cbn [String.length]. rewrite Nat.sub_0_r.
  induction t as [|c t IH]; [done|]. cbn [String.substring String.length]. by rewrite IH.
Qed.

Lemma HasPrefix_app (s t : string) : HasPrefix (s +:+ t) s = true.
Proof.
  unfold HasPrefix. induction s as [|c s IH]; [by destruct t|].
  change (String.prefix (String c s) (String c (s +:+ t)) = true). cbn. by destruct (Ascii.ascii_dec c c).
Qed.

Section login.
Context `{JSON} (sha256 : list byte → list byte) (hashKey : string → string).
Context (fk : bool) (bcrypt : string → option string) (compare : string → string → bool).
Context (marshal_strings : list string → string) (unmarshal_strings : string → list string).
Context (marshal_config : GroupConfig → string) (marshal_durable : bool → string).
Context (is_object is_email : string → bool) (ParseDuration : string → option Z).
Local Abbreviation serve' := (serve sha256 hashKey fk bcrypt compare marshal_strings unmarshal_strings
  marshal_config marshal_durable is_object is_email ParseDuration).

Context (claims_ok : Claims → Prop) (Hclaims : ∀ c, claims_ok c → unmarshal_claims (marshal_claims c) = Some c).
Context (Hsha : ∀ x, length (sha256 x) = 32%nat).

(** The tokens of an administrator's login. *)
Lemma admin_tokens header e e' m user password a :
  can_sign m → db_GetUser (u_Username user) (api_store a) = Some user → compare (u_PasswordHash user) password = true →
  u_Role user = "admin" → claims_ok (login_claims m (ev_now e) user) → ev_now e' ≤ ev_now e + access_ttl m →
  ∃ t, serve' e (Some m) header (RLogin (u_Username user) password) a = (a, Ret (Ok 200 (BTokens t))) ∧ AccessToken t ≠ [] ∧
    ∃ id, authenticated sha256 hashKey e' (Some m) (bearer +:+ bytes_str (AccessToken t)) a = Some id ∧
      SubjectID id = u_Username user ∧ IsAdmin id = true ∧ may_manage_users id = true.
Proof.
  intros Hm Hu Hpw Hr Hc Ht.
  destruct (access_roundtrip sha256 claims_ok Hclaims Hsha m (login_claims m (ev_now e) user) (ev_now e') Hm Hc) as (tok & Hs & Hv);
    [simpl; by apply Z.div_le_mono|].
  exists (mkTokens tok (generateRefreshToken sha256 m (ev_r1 e) (ev_r2 e) (u_Username user) (subject_type user) (u_Username user) [u_Role user] ∅)
    (Z.quot (access_ttl m) second) "Bearer").
  split.
  { unfold serve. change (needsAuth (request_path (RLogin (u_Username user) password))) with false. cbn [negb].
    unfold handle. change (valid is_email (RLogin (u_Username user) password)) with true. cbn [negb handle_tokens]. unfold login, db_CheckPassword.
    rewrite Hu, Hpw. cbn [negb]. unfold GenerateTokens. rewrite Hs. done. }
  split.
  { intros E. simpl in E. rewrite E in Hv. unfold VerifyAccessToken in Hv. destruct (m_keyStore m); [done|]. by destruct (0 <? _)%nat. }
  exists (ToIdentity (login_claims m (ev_now e) user)). split.
  { unfold authenticated. rewrite HasPrefix_app, substring_app, str_bytes_str. unfold VerifyToken. cbn [mbind option_bind AccessToken]. by rewrite Hv. }
  assert (IsAdmin (ToIdentity (login_claims m (ev_now e) user)) = true) as Ha.
  { unfold IsAdmin, HasPermission, ToIdentity, login_claims. rewrite Hr. by vm_compute. }
  split_and!; [done|done|]. unfold may_manage_users. by rewrite Ha.
Qed.
(** The administrator gets in: with a signing key, a login with the right
    password of an administrator is answered with tokens, and the access token
    in the header of a later request, until it expires, is taken for an identity
    that may do everything. *)
Theorem administrator_login e e' m user password a :
  can_sign m → db_GetUser (u_Username user) (api_store a) = Some user → compare (u_PasswordHash user) password = true →
  u_Role user = "admin" → claims_ok (login_claims m (ev_now e) user) → ev_now e' ≤ ev_now e + access_ttl m →
  ∃ t, serve' e (Some m) "" (RLogin (u_Username user) password) a = (a, Ret (Ok 200 (BTokens t))) ∧
    ∃ id, authenticated sha256 hashKey e' (Some m) (bearer +:+ bytes_str (AccessToken t)) a = Some id ∧
      SubjectID id = u_Username user ∧ IsAdmin id = true ∧ may_manage_users id = true.
Proof.
  intros Hm Hu Hpw Hr Hc Ht. destruct (admin_tokens "" e e' m user password a Hm Hu Hpw Hr Hc Ht) as (t & H1 & _ & H2). by exists t.
Qed.
End login.

(** ** A sample *)

#[local] Existing Instance sample_crypto.
#[local] Existing Instance Jwt.Sample.json.

Definition empty_disk : disk := mkDisk new_store None None [].
Definition sample_env (r : byte) : start_env := mkStartEnv _ (replicate 24 r) "now" true (Some key7) SaveDone 0 0.
Definition no_github (_ : string) : http UserInfo := HttpError "offline".
Definition no_cert (_ : list byte) : option Certificate := None.
Definition equal (h p : string) : bool := bool_decide (h = p).

Lemma equal_law p h : Some p = Some h → equal h p = true.
Proof. intros [= ->]. unfold equal. by rewrite bool_decide_eq_true_2. Qed.

Lemma credentials_file_valid_witness :
  let d := starts Jwt.Sample.digest id Some equal no_github no_cert default_config [sample_env x01; sample_env x02; sample_env x03] empty_disk in
  d_credentials d = Some (credentials_text (first_admin default_config (sample_env x01))) ∧
  db_CheckPassword equal "admin" (admin_Password (first_admin default_config (sample_env x01))) (d_store d) = true.
Proof.
  assert (is_Some (Some (admin_Password (first_admin default_config (sample_env x01))))) as Hb by by eexists.
  assert (st_random (sample_env x01) ≠ []) as Hr by done. assert (admin_Username (DefaultAdmin (cfg_Auth default_config)) ≠ "") as Hn by done.
  destruct (credentials_file_valid Jwt.Sample.digest id Some equal no_github no_cert default_config equal_law
    (sample_env x01) [sample_env x02; sample_env x03] empty_disk new_store_ok eq_refl eq_refl Hn Hr eq_refl Hb) as (H1 & H2 & _).
  split; [exact H1|exact H2].
Defined.

Lemma administrator_login_witness :
  let user := mkUser 1 "admin" "secret" None "admin" "t" "t" in
  let a := mkApi seeded (new_runtime true) [] (mkAPIKeyAuthenticator "" 0 ∅) [] in
  ∃ t, serve Jwt.Sample.digest id true Some equal (λ _, "") (λ _, []) (λ _, "") (λ _, "") (λ _, true) (λ _, true) (λ _, None)
      ApiInv.Sample.env (Some Jwt.Sample.manager) "" (RLogin "admin" "secret") a = (a, Ret (Ok 200 (BTokens t))) ∧
    ∃ i, authenticated Jwt.Sample.digest id ApiInv.Sample.env (Some Jwt.Sample.manager) (bearer +:+ bytes_str (AccessToken t)) a = Some i ∧
      SubjectID i = "admin" ∧ IsAdmin i = true ∧ may_manage_users i = true.
Proof.
  intros user a. apply (administrator_login Jwt.Sample.digest id true Some equal (λ _, "") (λ _, []) (λ _, "") (λ _, "") (λ _, true) (λ _, true) (λ _, None)
    (λ _, True) Jwt.Sample.claims_law Jwt.Sample.digest_length ApiInv.Sample.env ApiInv.Sample.env Jwt.Sample.manager user "secret" a);
    [apply Jwt.Sample.manager_signs|by vm_compute|done|done|done|by vm_compute].
Defined.

(** With an empty administrator name in the configuration the account is called
    "admin", but the file names nobody. *)
Example nameless_credentials :
  let a := mkDefaultAdminConfig "" "" in
  u_Username <$> rows (users (db_New Some "now" (set_password "pw" a) new_store).1) = ["admin"] ∧
  HasPrefix (credentials_text (set_password "pw" a)) ("username: " +:+ bytes_str [x0a]) = true.
Proof. by vm_compute. Qed.
