(* ===== verification/Http.v ===== *)
(** * Requests over HTTP (src/internal/api/v1)

    The operations the management API registers, the way a method, a URL and a
    JSON body become one of the requests of [Api.v], and the JSON of the answers.
    The router (go-chi) is a parameter that is assumed to find the one route that
    matches; the framework (huma) is modelled by its documented rules: a field is
    required unless its tag says omitempty, and an object has no other fields.
    A JSON text is its tree.  URLs are modelled as far as their paths need no
    escaping. *)

From stdpp Require Import base gmap list strings.
From Stdlib Require Import ZArith Lia Strings.Byte Strings.Ascii.
From S2P Require Import Prelude Group Queue Names Url Auth Jwt Wal Database Api ApiInv App.
Local Open Scope Z_scope.
Local Open Scope list_scope.

(** ** JSON *)

Inductive jval :=
| JNull
| JBool (b : bool)
| JNum (n : Z)
| JStr (s : string)
| JArr (l : list jval)
| JObj (l : list (string * jval)).

Abbreviation jobject := (list (string * jval)).

Fixpoint field (k : string) (o : jobject) : option jval :=
  match o with [] => None | (k', v) :: o => if bool_decide (k' = k) then Some v else field k o end.

Definition as_str (v : jval) : option string := match v with JStr s => Some s | _ => None end.
Definition as_num (v : jval) : option Z := match v with JNum n => Some n | _ => None end.
Definition as_bool (v : jval) : option bool := match v with JBool b => Some b | _ => None end.
Definition as_obj (v : jval) : option jobject := match v with JObj o => Some o | _ => None end.
Definition as_arr (v : jval) : option (list jval) := match v with JArr l => Some l | _ => None end.
Definition as_strs (v : jval) : option (list string) := as_arr v ≫= mapM as_str.

(** A required field, an optional one, and one with a default. *)
Definition required {A} (f : jval → option A) (k : string) (o : jobject) : option A := field k o ≫= f.
Definition optional {A} (f : jval → option A) (k : string) (o : jobject) : option (option A) :=
  match field k o with None => Some None | Some v => Some <$> f v end.
Definition defaulted {A} (f : jval → option A) (d : A) (k : string) (o : jobject) : option A := default d <$> optional f k o.

Definition only (ks : list string) (o : jobject) : bool := forallb (λ x, bool_decide (x.1 ∈ ks)) o.

(** ** URLs *)

(** Bytes that a path carries unescaped. *)
Definition passes (b : byte) : bool :=
  unreserved b || bool_decide (b ∈ [x21; x24; x26; x27; x28; x29; x2a; x2b; x2c; x3b; x3d; x3a; x40; x5b; x5d]).

(** [strings.Split(path, "/")] *)
Fixpoint segments_of (p : list byte) : list (list byte) :=
  match p with
  | [] => [[]]
  | b :: p => if bool_decide (b = x2f) then [] :: segments_of p
              else match segments_of p with s :: ss => (b :: s) :: ss | [] => [[b]] end
  end.

(** The segments of the path and the parameters of the query; the fragment is
    not sent. *)
Definition parse_url (url : string) : option (list byte * list (list byte * list byte)) :=
  let '(u, _) := cut x23 (str_bytes url) in
  let '(p, q) := cut x3f u in
  if forallb (λ b, passes b || bool_decide (b = x2f)) p
  then pair p <$> ParseQuery (default [] q) else None.

Fixpoint query_param (k : string) (q : list (list byte * list byte)) : string :=
  match q with [] => "" | (k', v) :: q => if bool_decide (k' = str_bytes k) then bytes_str v else query_param k q end.

(** [strconv.ParseInt] of a text of digits *)
Definition ParseInt (s : string) : option Z :=
  let '(n, z, rest) := scan_digits 0 0 s in
  if (0 <? n)%nat && bool_decide (rest = "") then Some z else None.

(** ** Routes *)

Inductive operation :=
| OpLogin | OpRefresh | OpLogout
| OpCreateKey | OpListKeys | OpRevokeKey
| OpHealth | OpMetrics | OpListPermissions
| OpListNamespaces | OpCreateNamespace | OpGetNamespace | OpUpdateNamespace | OpDeleteNamespace
| OpListUsers | OpCreateUser | OpGetUser | OpUpdateUser | OpDeleteUser
| OpGetUserPermissions | OpSetUserPermissions | OpDeleteUserPermissions
| OpListQueues | OpDeclareQueue | OpGetQueue | OpDeleteQueue | OpSnapshot
| OpStats | OpGroupStats | OpListGroups | OpSetGroup | OpGetGroup | OpDeleteGroup.

Record route := mkRoute { r_Method : string; r_Path : string; r_Operation : operation }.

Definition authRoutes : list route :=
  [mkRoute "POST" "/auth/login" OpLogin; mkRoute "POST" "/auth/refresh" OpRefresh; mkRoute "POST" "/auth/logout" OpLogout].
Definition apiKeyRoutes : list route :=
  [mkRoute "POST" "/auth/api-keys" OpCreateKey; mkRoute "GET" "/auth/api-keys" OpListKeys; mkRoute "DELETE" "/auth/api-keys" OpRevokeKey].
Definition systemRoutes : list route :=
  [mkRoute "GET" "/health" OpHealth; mkRoute "GET" "/internal/metrics" OpMetrics; mkRoute "GET" "/permissions" OpListPermissions].
Definition namespaceRoutes : list route :=
  [mkRoute "GET" "/namespaces" OpListNamespaces; mkRoute "POST" "/namespaces" OpCreateNamespace;
   mkRoute "GET" "/namespaces/{name}" OpGetNamespace; mkRoute "PATCH" "/namespaces/{name}" OpUpdateNamespace;
   mkRoute "DELETE" "/namespaces/{name}" OpDeleteNamespace].
Definition userRoutes : list route :=
  [mkRoute "GET" "/users" OpListUsers; mkRoute "POST" "/users" OpCreateUser; mkRoute "GET" "/users/{username}" OpGetUser;
   mkRoute "PATCH" "/users/{username}" OpUpdateUser; mkRoute "DELETE" "/users/{username}" OpDeleteUser;
   mkRoute "GET" "/users/{username}/permissions" OpGetUserPermissions;
   mkRoute "PUT" "/users/{username}/permissions/{namespace}" OpSetUserPermissions;
   mkRoute "DELETE" "/users/{username}/permissions/{namespace}" OpDeleteUserPermissions].
Definition queueRoutes : list route :=
  [mkRoute "GET" "/queues" OpListQueues; mkRoute "POST" "/queues" OpDeclareQueue;
   mkRoute "GET" "/queues/{namespace}/{name}" OpGetQueue; mkRoute "DELETE" "/queues/{namespace}/{name}" OpDeleteQueue;
   mkRoute "POST" "/queues/{namespace}/{name}/snapshot" OpSnapshot;
   mkRoute "GET" "/queues/{namespace}/{name}/stats" OpStats; mkRoute "GET" "/queues/{namespace}/{name}/stats/{key}" OpGroupStats;
   mkRoute "GET" "/queues/{namespace}/{name}/groups" OpListGroups; mkRoute "PUT" "/queues/{namespace}/{name}/groups/{key}" OpSetGroup;
   mkRoute "GET" "/queues/{namespace}/{name}/groups/{key}" OpGetGroup; mkRoute "DELETE" "/queues/{namespace}/{name}/groups/{key}" OpDeleteGroup].

(** In the order of [NewServer]. *)
Definition routes : list route := authRoutes ++ apiKeyRoutes ++ systemRoutes ++ namespaceRoutes ++ userRoutes ++ queueRoutes.

(** A pattern and a path agree: a segment in braces takes any text that is not
    empty, the others themselves. *)
Definition is_param (s : list byte) : bool := match s with x7b :: _ => true | _ => false end.
Fixpoint match_segments (pat path : list (list byte)) : option (list string) :=
  match pat, path with
  | [], [] => Some []
  | p :: pat, s :: path =>
      if is_param p then (if bool_decide (s = []) then None else cons (bytes_str s) <$> match_segments pat path)
      else if bool_decide (p = s) then match_segments pat path else None
  | _, _ => None
  end.
Definition match_route (r : route) (path : list byte) : option (list string) :=
  match_segments (segments_of (str_bytes (r_Path r))) (segments_of path).

(** ** Inputs *)

(** What a request means to the server: one of the requests of [Api.v], or one
    of the two that only read. *)
Inductive call := Request (r : request) | Health | Metrics.

Section decode.
Context (marshal_object : jobject → string).

Definition decode_rate (o : jobject) : option rateLimitInput :=
  if only ["max"; "window"] o
  then m ← required as_num "max" o; w ← required as_str "window" o; Some (mkRateLimitInput m w) else None.
Definition decode_retry (o : jobject) : option retryInput :=
  if only ["max_attempts"; "backoff"; "initial_delay"; "max_delay"] o
  then m ← required as_num "max_attempts" o; b ← required as_str "backoff" o;
       i ← required as_str "initial_delay" o; x ← required as_str "max_delay" o; Some (mkRetryInput m b i x) else None.
Definition decode_dlq (o : jobject) : option dlqInput :=
  if only ["enabled"; "queue"] o
  then b ← required as_bool "enabled" o; q ← required as_str "queue" o; Some (mkDlqInput b q) else None.
Definition decode_group (o : jobject) : option groupConfigInput :=
  if only ["parallelism"; "quantum"; "lease_timeout"; "rate_limit"; "retry"; "dlq"] o
  then p ← defaulted as_num 1 "parallelism" o; q ← defaulted as_num 1 "quantum" o; l ← defaulted as_str "" "lease_timeout" o;
       ra ← optional (λ v, as_obj v ≫= decode_rate) "rate_limit" o; re ← optional (λ v, as_obj v ≫= decode_retry) "retry" o;
       d ← optional (λ v, as_obj v ≫= decode_dlq) "dlq" o; Some (mkGroupConfigInput p q l ra re d)
  else None.

(** The limit of a page is 100 when the query has none. *)
Definition decode_limit (q : list (list byte * list byte)) : option Z :=
  let s := query_param "limit" q in if bool_decide (s = "") then Some 100 else ParseInt s.

Definition with_body {A} (body : option jobject) (ks : list string) (f : jobject → option A) : option A :=
  o ← body; if only ks o then f o else None.

Definition decode_namespaces (op : operation) (ps : list string) (body : option jobject) : option request :=
  match op, ps with
  | OpListNamespaces, [] => Some RListNamespaces
  | OpCreateNamespace, [] => with_body body ["name"; "config"] (λ o,
      n ← required as_str "name" o; c ← optional as_obj "config" o; Some (RCreateNamespace n (marshal_object <$> c)))
  | OpGetNamespace, [n] => Some (RGetNamespace n)
  | OpUpdateNamespace, [n] => with_body body ["config"] (λ o, c ← optional as_obj "config" o; Some (RUpdateNamespace n (marshal_object <$> c)))
  | OpDeleteNamespace, [n] => Some (RDeleteNamespace n)
  | _, _ => None
  end.

Definition decode_users (op : operation) (ps : list string) (body : option jobject) : option request :=
  match op, ps with
  | OpListUsers, [] => Some RListUsers
  | OpCreateUser, [] => with_body body ["username"; "password"; "email"; "role"] (λ o,
      u ← required as_str "username" o; p ← required as_str "password" o; e ← required as_str "email" o; r ← required as_str "role" o;
      Some (RCreateUser u p e r))
  | OpGetUser, [u] => Some (RGetUser u)
  | OpUpdateUser, [u] => with_body body ["email"; "role"; "password"] (λ o,
      e ← optional as_str "email" o; r ← optional as_str "role" o; p ← optional as_str "password" o; Some (RUpdateUser u e r p))
  | OpDeleteUser, [u] => Some (RDeleteUser u)
  | OpGetUserPermissions, [u] => Some (RGetPermissions u)
  | OpSetUserPermissions, [u; ns] => with_body body ["permissions"] (λ o, l ← required as_strs "permissions" o; Some (RSetPermissions u ns l))
  | OpDeleteUserPermissions, [u; ns] => Some (RDeletePermissions u ns)
  | _, _ => None
  end.

Definition decode_queues (op : operation) (ps : list string) (q : list (list byte * list byte)) (body : option jobject) : option request :=
  match op, ps with
  | OpListQueues, [] => Some RListQueues
  | OpDeclareQueue, [] => with_body body ["name"; "namespace"; "durable"] (λ o,
      n ← required as_str "name" o; ns ← required as_str "namespace" o; d ← optional as_bool "durable" o; Some (RDeclareQueue n ns d))
  | OpGetQueue, [ns; n] => Some (RGetQueue ns n)
  | OpDeleteQueue, [ns; n] => Some (RDeleteQueue ns n)
  | OpSnapshot, [ns; n] => Some (RSnapshot ns n)
  | OpStats, [ns; n] => l ← decode_limit q; Some (RStats ns n (query_param "after" q) l)
  | OpGroupStats, [ns; n; k] => Some (RGroupStats ns n k)
  | OpListGroups, [ns; n] => l ← decode_limit q; Some (RListGroups ns n (query_param "after" q) l)
  | OpSetGroup, [ns; n; k] => o ← body; g ← decode_group o; Some (RSetGroup ns n k g)
  | OpGetGroup, [ns; n; k] => Some (RGetGroup ns n k)
  | OpDeleteGroup, [ns; n; k] => Some (RDeleteGroup ns n k)
  | _, _ => None
  end.

Definition decode_auth (op : operation) (body : option jobject) : option request :=
  match op with
  | OpLogin => with_body body ["username"; "password"] (λ o,
      u ← required as_str "username" o; p ← required as_str "password" o; Some (RLogin u p))
  | OpRefresh => with_body body ["refresh_token"] (λ o, t ← required as_str "refresh_token" o; Some (RRefresh (str_bytes t)))
  | OpLogout => with_body body ["refresh_token"] (λ o, _ ← required as_str "refresh_token" o; Some RLogout)
  | OpCreateKey => with_body body ["name"; "namespace"; "permissions"] (λ o,
      n ← required as_str "name" o; ns ← required as_str "namespace" o; l ← required as_strs "permissions" o; Some (RCreateKey n ns l))
  | OpListKeys => Some RListKeys
  | OpRevokeKey => with_body body ["key"] (λ o, k ← required as_str "key" o; Some (RRevokeKey k))
  | _ => None
  end.

Definition decode (op : operation) (ps : list string) (q : list (list byte * list byte)) (body : option jobject) : option call :=
  match op with
  | OpHealth => Some Health
  | OpMetrics => Some Metrics
  | OpListPermissions => Some (Request RPermissions)
  | OpLogin | OpRefresh | OpLogout | OpCreateKey | OpListKeys | OpRevokeKey => Request <$> decode_auth op body
  | OpListNamespaces | OpCreateNamespace | OpGetNamespace | OpUpdateNamespace | OpDeleteNamespace => Request <$> decode_namespaces op ps body
  | OpListUsers | OpCreateUser | OpGetUser | OpUpdateUser | OpDeleteUser
  | OpGetUserPermissions | OpSetUserPermissions | OpDeleteUserPermissions => Request <$> decode_users op ps body
  | _ => Request <$> decode_queues op ps q body
  end.
End decode.

(** ** Answers *)

(** omitempty *)
Definition unless_empty (k s : string) : jobject := if bool_decide (s = "") then [] else [(k, JStr s)].
Definition jstrs (l : list string) : jval := JArr (JStr <$> l).
Definition jtext (b : list byte) : jval := JStr (bytes_str b).

Definition user_json (u : userView) : jobject :=
  [("id", JNum (uv_ID u)); ("username", JStr (uv_Username u))]
  ++ match uv_Email u with Some e => [("email", JStr e)] | None => [] end
  ++ [("role", JStr (uv_Role u)); ("created_at", JStr (uv_CreatedAt u))] ++ unless_empty "updated_at" (uv_UpdatedAt u).
Definition summary_json (q : queueSummary) : jobject :=
  [("name", JStr (qs_Name q)); ("namespace", JStr (qs_Namespace q)); ("active_groups", JNum (ActiveGroups q)); ("config_count", JNum (qs_ConfigCount q))].
Definition detail_json (q : queueDetail) : jobject :=
  [("name", JStr (qd_Name q)); ("namespace", JStr (qd_Namespace q)); ("active_groups", JNum (qd_ActiveGroups q));
   ("config_count", JNum (qd_ConfigCount q)); ("durable", JBool (Api.Durable q))].
Definition stats_json (s : GroupStats) : jobject :=
  [("key", JStr (st_Key s)); ("pending", JNum (st_Pending s)); ("processing", JNum (st_Processing s))].
Definition retry_json (r : RetryConfig) : jobject :=
  [("max_attempts", JNum (MaxAttempts r)); ("backoff", JStr (Backoff r)); ("initial_delay", JNum (InitialDelay r)); ("max_delay", JNum (MaxDelay r))].
Definition config_json (c : GroupConfig) : jobject :=
  [("key", JStr (Key c)); ("parallelism", JNum (Parallelism c)); ("quantum", JNum (Quantum c)); ("lease_timeout", JNum (LeaseTimeout c))]
  ++ match RateLimit c with Some r => [("rate_limit", JObj [("max", JNum (rl_Max r)); ("window", JNum (rl_Window r))])] | None => [] end
  ++ [("retry", JObj (retry_json (Retry c)))]
  ++ match DLQ c with Some d => [("dlq", JObj [("enabled", JBool (dlq_Enabled d)); ("queue", JStr (dlq_Queue d))])] | None => [] end
  ++ [("max_pending", JNum (MaxPending c))].
Definition key_json (k : listEntry) : jobject :=
  [("subject_id", JStr (le_SubjectID k)); ("namespace", JStr (le_Namespace k)); ("permissions", jstrs (le_Permissions k))]
  ++ unless_empty "prefix" (le_Prefix k).
Definition token_json (t : Tokens) : jobject :=
  [("access_token", jtext (AccessToken t))] ++ unless_empty "refresh_token" (bytes_str (RefreshTok t))
  ++ [("expires_in", JNum (ExpiresIn t)); ("token_type", JStr (TokenType t))].
Definition check_json (c : checkResult) : jobject :=
  [("name", JStr (check_Name c)); ("status", JStr (check_Status c))] ++ unless_empty "detail" (check_Detail c).
Definition health_json (h : healthOutput) : jobject :=
  [("status", JStr (h_Status h)); ("version", JStr (h_Version h))]
  ++ match h_Checks h with [] => [] | cs => [("checks", JArr (JObj ∘ check_json <$> cs))] end.
Definition grants_json (username : string) (m : gmap string (list string)) : jobject :=
  [("username", JStr username); ("permissions", JObj (prod_map id jstrs <$> map_to_list m))].

Section server.
Context `{JSON} (sha256 : list byte → list byte) (hashKey : string → string).
Context (fk : bool) (bcrypt : string → option string) (compare : string → string → bool).
Context (marshal_strings : list string → string) (unmarshal_strings : string → list string).
Context (marshal_config : GroupConfig → string) (marshal_durable : bool → string).
Context (is_object is_email : string → bool) (ParseDuration : string → option Z).
Context (marshal_object : jobject → string) (unmarshal_object : string → jobject) (describe : string → string).
Context (error_json : Z → jobject).

Definition namespace_json (n : namespaceView) : jobject :=
  [("id", JNum (nv_ID n)); ("name", JStr (nv_Name n))]
  ++ match nv_Config n with Some c => [("config", JObj (unmarshal_object c))] | None => [] end
  ++ [("created_at", JStr (nv_CreatedAt n)); ("updated_at", JStr (nv_UpdatedAt n))].

(** The catalog pairs a name with its description. *)
Definition catalog_json (l : list string) : jval := JArr ((λ n, JObj [("name", JStr n); ("description", JStr (describe n))]) <$> l).

Definition body_json (b : body) : option jval :=
  match b with
  | BNone => None
  | BNamespace n => Some (JObj (namespace_json n))
  | BNamespaces l => Some (JArr (JObj ∘ namespace_json <$> l))
  | BUser u => Some (JObj (user_json u))
  | BUsers l => Some (JArr (JObj ∘ user_json <$> l))
  | BGrants u m => Some (JObj (grants_json u m))
  | BGrant u ns l => Some (JObj [("username", JStr u); ("namespace", JStr ns); ("permissions", jstrs l)])
  | BQueue q => Some (JObj (detail_json q))
  | BQueues l => Some (JArr (JObj ∘ summary_json <$> l))
  | BStats l next => Some (JObj ([("groups", JArr (JObj ∘ stats_json <$> l))] ++ unless_empty "next_cursor" next))
  | BGroupStats s => Some (JObj (stats_json s))
  | BConfigs l next => Some (JObj ([("configs", JArr (JObj ∘ config_json <$> l))] ++ unless_empty "next_cursor" next))
  | BConfig c => Some (JObj (config_json c))
  | BTokens t => Some (JObj (token_json t))
  | BKey k s ns l => Some (JObj [("key", JStr k); ("subject_id", JStr s); ("namespace", JStr ns); ("permissions", jstrs l)])
  | BKeys l => Some (JArr (JObj ∘ key_json <$> l))
  | BMessage m => Some (JObj [("message", JStr m)])
  | BSuccess => Some (JObj [("success", JBool true)])
  | BCatalog g n => Some (JObj [("global", catalog_json g); ("namespace", catalog_json n)])
  end.

(** ** The server *)

Record http_request := mkHttpRequest {
  hr_method : string; hr_url : string; hr_authorization : string; hr_body : option jobject;
}.
Record http_reply := mkHttpReply { hp_status : Z; hp_body : option jval }.

Definition fail (status : Z) : http_reply := mkHttpReply status (Some (JObj (error_json status))).
Definition reply (r : response) : http_reply :=
  match r with Ok status b => mkHttpReply status (body_json b) | Fail status => fail status end.

(** [chi.Router]: the route of a table that serves a method and a path, with the
    values of its parameters. *)
Class Router := {
  find_route : list route → string → list byte → option (route * list string);
  find_route_one table m path r ps :
    r ∈ table → r_Method r = m → match_route r path = Some ps →
    (∀ r' ps', r' ∈ table → r_Method r' = m → match_route r' path = Some ps' → r' = r) →
    find_route table m path = Some (r, ps);
}.
Context `{Router}.

(** What the health check reads, and the metrics of the scheduler. *)
Record probe := mkProbe { pr_walErr : option string; pr_free : Z + string; pr_metrics : jobject }.

Definition run_call (e : api_env) (mgr : option Manager) (id : option Identity) (pr : probe) (c : call) (a : api) : api * outcome http_reply :=
  match c with
  | Request r =>
      let '(a, o) := handle sha256 hashKey fk bcrypt compare marshal_strings unmarshal_strings marshal_config
                       marshal_durable is_object is_email ParseDuration e mgr id r a in (a, outcome_map reply o)
  | Health => (a, Ret (mkHttpReply 200 (Some (JObj (health_json (get_health (pr_walErr pr) (pr_free pr)))))))
  | Metrics => (a, Ret (mkHttpReply 200 (Some (JObj (pr_metrics pr)))))
  end.

(** A request: [authMiddleware], the router, the framework, the handler. *)
Definition http_serve (e : api_env) (mgr : option Manager) (pr : probe) (h : http_request) (a : api) : api * outcome http_reply :=
  match parse_url (hr_url h) with
  | None => (a, Ret (fail 400))
  | Some (path, q) =>
      let protected := needsAuth (bytes_str path) in
      let id := authenticated sha256 hashKey e mgr (hr_authorization h) a in
      if protected && negb (bool_decide (is_Some id)) then (a, Ret (fail 401))
      else match find_route routes (hr_method h) path with
           | None => (a, Ret (fail 404))
           | Some (r, ps) =>
               match decode marshal_object (r_Operation r) ps q (hr_body h) with
               | None => (a, Ret (fail 422))
               | Some c => run_call e mgr (if protected then id else None) pr c a
               end
           end
  end.
End server.

(** ** Routing *)

#[export] Instance operation_eq_dec : EqDecision operation.
Proof. solve_decision. Defined.
#[export] Instance route_eq_dec : EqDecision route.
Proof. solve_decision. Defined.

(** Two patterns with a common path. *)
Fixpoint overlap (p p' : list (list byte)) : bool :=
  match p, p' with
  | [], [] => true
  | s :: p, s' :: p' => (is_param s || is_param s' || bool_decide (s = s')) && overlap p p'
  | _, _ => false
  end.

Lemma match_overlap p p' path ps ps' : match_segments p path = Some ps → match_segments p' path = Some ps' → overlap p p' = true.
Proof.
  revert p' path ps ps'. induction p as [|s p IH]; intros [|s' p'] [|t path] ps ps' H H'; simpl in *; try done.
  apply andb_true_iff.
  destruct (is_param s), (is_param s'); simpl; repeat case_bool_decide; simplify_eq/=; try done;
    repeat match goal with H : _ <$> _ = Some _ |- _ => apply fmap_Some in H as (? & H & _) end; eauto.
Qed.

(** No two routes of the server serve the same request. *)
Lemma routes_disjoint r r' path ps ps' :
  r ∈ routes → r' ∈ routes → r_Method r' = r_Method r → match_route r path = Some ps → match_route r' path = Some ps' → r' = r.
Proof.
  intros Hr Hr' Hm H H'.
  assert (Forall (λ r, Forall (λ r', r_Method r' = r_Method r →
    overlap (segments_of (str_bytes (r_Path r))) (segments_of (str_bytes (r_Path r'))) = true → r' = r) routes) routes) as Hall by by_eval.
  rewrite Forall_forall in Hall. specialize (Hall r Hr). rewrite Forall_forall in Hall.
  apply Hall; [done|done|]. by apply (match_overlap _ _ (segments_of path) ps ps').
Qed.

Lemma routed `{Router} r m path ps :
  r ∈ routes → r_Method r = m → match_route r path = Some ps → find_route routes m path = Some (r, ps).
Proof.
  intros Hr <- Hp. apply find_route_one; [done|done|done|]. intros r' ps' Hr' Hm Hp'. by apply (routes_disjoint r r' path ps ps').
Qed.

(** *** Paths *)

Lemma str_bytes_app s t : str_bytes (s +:+ t) = str_bytes s ++ str_bytes t.
Proof.
  unfold str_bytes, String.list_byte_of_string. rewrite <-map_app. f_equal.
  induction s as [|c s IH]; [done|]. cbn. by rewrite <-IH.
Qed.

(** A path of at least one segment *)
Fixpoint path_of (s : string) (l : list string) : string :=
  "/" +:+ match l with [] => s | t :: l => s +:+ path_of t l end.

Definition no_slash (s : list byte) : Prop := Forall (λ b, b ≠ x2f) s.
Definition path_arg (s : string) : Prop := s ≠ "" ∧ Forall (λ b, passes b = true) (str_bytes s).

Lemma passes_no_slash s : path_arg s → no_slash (str_bytes s).
Proof. intros [_ H]. eapply Forall_impl; [exact H|]. by intros b Hb ->. Qed.

Lemma segments_of_single s : no_slash s → segments_of s = [s].
Proof. induction 1 as [|b s Hb _ IH]; [done|]. cbn. by rewrite bool_decide_eq_false_2, IH. Qed.

Lemma segments_of_cons s r : no_slash s → segments_of (s ++ x2f :: r) = s :: segments_of r.
Proof. induction 1 as [|b s Hb _ IH]; [done|]. cbn. by rewrite bool_decide_eq_false_2, IH. Qed.

Lemma segments_of_path s l :
  no_slash (str_bytes s) → Forall (λ s, no_slash (str_bytes s)) l →
  segments_of (str_bytes (path_of s l)) = [] :: (str_bytes <$> s :: l).
Proof.
  intros Hs Hl. revert s Hs. induction Hl as [|t l Ht Hl IH]; intros s Hs; cbn [path_of]; rewrite !str_bytes_app.
  - change (str_bytes "/" ++ str_bytes s) with (x2f :: str_bytes s). cbn [segments_of]. rewrite bool_decide_eq_true_2 by done.
    by rewrite segments_of_single.
  - change (str_bytes "/") with [x2f]. change ([x2f] ++ ?x) with (x2f :: x). cbn [segments_of]. rewrite bool_decide_eq_true_2 by done.
    f_equal. destruct (str_bytes (path_of t l)) as [|b p] eqn:E; [destruct l; done|].
    assert (b = x2f) as ->.
    { revert E. destruct l; cbn [path_of]; rewrite !str_bytes_app; change (str_bytes "/") with [x2f]; cbn; by intros [= <- _]. }
    rewrite segments_of_cons by done. csimpl. f_equal. specialize (IH t Ht). rewrite E in IH. cbn in IH. by injection IH.
Qed.

Lemma app_path_clean s l : Forall (λ b, passes b = true) (str_bytes s) → Forall (λ s, Forall (λ b, passes b = true) (str_bytes s)) l →
  Forall (λ b, passes b || bool_decide (b = x2f) = true) (str_bytes (path_of s l)).
Proof.
  intros Hs Hl. revert s Hs. induction Hl as [|t l Ht Hl IH]; intros s Hs; cbn [path_of]; rewrite !str_bytes_app.
  all: apply Forall_app; split; [by apply Forall_singleton|]; try (apply Forall_app; split; [|by apply IH]);
    eapply Forall_impl; [exact Hs|]; by intros b ->.
Qed.

(** *** URLs *)

Lemma passes_plain b : passes b || bool_decide (b = x2f) = true → b ≠ x23 ∧ b ≠ x3f.
Proof. intros H. split; intros ->; by vm_compute in H. Qed.

Lemma path_forallb s : Forall (λ b, passes b || bool_decide (b = x2f) = true) s → forallb (λ b, passes b || bool_decide (b = x2f)) s = true.
Proof. intros Hs. apply forallb_forall. intros b Hb. by apply (proj1 (Forall_forall _ _) Hs), list_elem_of_In. Qed.

(** The URL of a clean path, without and with a query. *)
Lemma parse_url_path p : Forall (λ b, passes b || bool_decide (b = x2f) = true) (str_bytes p) → parse_url p = Some (str_bytes p, []).
Proof.
  intros Hp. unfold parse_url. rewrite !cut_none; [|eapply Forall_impl; [exact Hp|]; by intros b []%passes_plain..].
  by rewrite (path_forallb _ Hp).
Qed.

Lemma parse_url_query p q l :
  Forall (λ b, passes b || bool_decide (b = x2f) = true) (str_bytes p) → str_bytes q = Encode l → Forall (λ b, b ≠ x23) (Encode l) →
  parse_url (p +:+ "?" +:+ q) = Some (str_bytes p, l).
Proof.
  intros Hp Hq Hl. unfold parse_url. rewrite !str_bytes_app, Hq. change (str_bytes "?") with [x3f].
  assert (Forall (λ b, b ≠ x3f) (str_bytes p)) as H3 by (eapply Forall_impl; [exact Hp|]; by intros b []%passes_plain).
  rewrite (cut_none x23).
  - change ([x3f] ++ Encode l) with (x3f :: Encode l). rewrite cut_some by done.
    rewrite (path_forallb _ Hp).
    change (default [] (Some (Encode l))) with (Encode l). by rewrite query_roundtrip.
  - apply Forall_app. split; [eapply Forall_impl; [exact Hp|]; by intros b []%passes_plain|]. by constructor.
Qed.

(** *** Paths that fit a pattern *)

Definition fits (p : list byte) (s : string) : Prop := if is_param p then s ≠ "" else p = str_bytes s.
Fixpoint params (pat : list (list byte)) (segs : list string) : list string :=
  match pat, segs with
  | p :: pat, s :: segs => if is_param p then s :: params pat segs else params pat segs
  | _, _ => []
  end.

Lemma match_fits pat segs : Forall2 fits pat segs → match_segments pat (str_bytes <$> segs) = Some (params pat segs).
Proof.
  induction 1 as [|p s pat segs Hp _ IH]; [done|]. unfold fits in Hp. csimpl. destruct (is_param p).
  - rewrite bool_decide_eq_false_2 by (intros E; apply Hp; by rewrite <-(bytes_str_bytes s), E). rewrite IH. cbn. by rewrite bytes_str_bytes.
  - by rewrite bool_decide_eq_true_2, IH.
Qed.

(** The segments of a route after the leading slash *)
Definition pattern_of (r : route) : list (list byte) := tail (segments_of (str_bytes (r_Path r))).

Lemma routes_rooted r : r ∈ routes → segments_of (str_bytes (r_Path r)) = [] :: pattern_of r.
Proof.
  assert (Forall (λ r, segments_of (str_bytes (r_Path r)) = [] :: pattern_of r) routes) as H by by_eval.
  by apply (proj1 (Forall_forall _ _) H).
Qed.

(** A clean path that fits a route of the server is served by it. *)
Lemma route_path `{Router} r s l :
  r ∈ routes → Forall2 fits (pattern_of r) (s :: l) → Forall (λ s, Forall (λ b, passes b = true) (str_bytes s)) (s :: l) →
  parse_url (path_of s l) = Some (str_bytes (path_of s l), []) ∧
  find_route routes (r_Method r) (str_bytes (path_of s l)) = Some (r, params (pattern_of r) (s :: l)).
Proof.
  intros Hr Hf Hp. apply Forall_cons in Hp as [Hs Hl]. split; [by apply parse_url_path, app_path_clean|].
  assert (∀ t, Forall (λ b, passes b = true) (str_bytes t) → no_slash (str_bytes t)) as Hns.
  { intros t Ht. eapply Forall_impl; [exact Ht|]. by intros b Hb ->. }
  apply routed; [done|done|]. unfold match_route. rewrite (routes_rooted r Hr), segments_of_path;
    [|by apply Hns|by eapply Forall_impl; [exact Hl|]].
  change ([] :: (str_bytes <$> s :: l)) with (str_bytes <$> "" :: s :: l).
  rewrite (match_fits ([] :: pattern_of r) ("" :: s :: l)); [done|]. by constructor.
Qed.

(** A router: the first route that matches. *)
Fixpoint first_match (table : list route) (m : string) (path : list byte) : option (route * list string) :=
  match table with
  | [] => None
  | r :: table =>
      if bool_decide (r_Method r = m)
      then match match_route r path with Some ps => Some (r, ps) | None => first_match table m path end
      else first_match table m path
  end.

Lemma first_match_one table m path r ps :
  r ∈ table → r_Method r = m → match_route r path = Some ps →
  (∀ r' ps', r' ∈ table → r_Method r' = m → match_route r' path = Some ps' → r' = r) →
  first_match table m path = Some (r, ps).
Proof.
  intros Hin Hm Hp Huniq. induction table as [|r0 table IH]; [by apply elem_of_nil in Hin|]. cbn [first_match].
  destruct (match_route r0 path) as [ps0|] eqn:E0; case_bool_decide as Hm0.
  - pose proof (Huniq r0 ps0 ltac:(by left) Hm0 E0) as ->. by rewrite Hp in E0; simplify_eq.
  - apply elem_of_cons in Hin as [->|Hin]; [done|]. apply IH; [done|]. intros r' ps' Hr'. apply Huniq. by right.
  - apply elem_of_cons in Hin as [->|Hin]; [congruence|]. apply IH; [done|]. intros r' ps' Hr'. apply Huniq. by right.
  - apply elem_of_cons in Hin as [->|Hin]; [congruence|]. apply IH; [done|]. intros r' ps' Hr'. apply Huniq. by right.
Qed.

Definition first_router : Router := {| find_route := first_match; find_route_one := first_match_one |}.
