(* ===== verification/Cli.v ===== *)
(** * The command line (src/internal/cli, src/cmd/octar)

    Every command of the octar tool that talks to the broker: its flags, the
    configuration of the client, the request it sends, how it reads the answer
    and what it prints.  Cobra (the parsing of flags and arguments), YAML and the
    terminal are outside: a command is given with its arguments and flags, the
    output is a list of pieces, of which [Quoted] is fmt's %q and [Json] the
    indented JSON of a value. *)

From stdpp Require Import base gmap list strings.
From Stdlib Require Import ZArith Lia Strings.Byte Strings.Ascii.
From S2P Require Import Prelude Group Queue Names Url Auth Jwt Wal Database DatabaseInv Startup Api ApiInv App Http.
Local Open Scope Z_scope.
Local Open Scope list_scope.

(** ** Configuration of the client (config.go, root.go) *)

Record Config := mkConfig {
  APIHost : string; APIPort : Z; cc_AccessToken : string; cc_RefreshToken : string; cc_Username : string;
}.
Definition set_host (h : string) (c : Config) := mkConfig h (APIPort c) (cc_AccessToken c) (cc_RefreshToken c) (cc_Username c).
Definition set_port (p : Z) (c : Config) := mkConfig (APIHost c) p (cc_AccessToken c) (cc_RefreshToken c) (cc_Username c).
Definition set_tokens (a r : string) (c : Config) := mkConfig (APIHost c) (APIPort c) a r (cc_Username c).
Definition set_username (u : string) (c : Config) := mkConfig (APIHost c) (APIPort c) (cc_AccessToken c) (cc_RefreshToken c) u.

(** [fmt.Sscanf(s, "%d", &n)] *)
Definition sscan_int (s : string) : option Z :=
  let unsigned (s : string) := let '(n, z, _) := scan_digits 0 0 s in if (0 <? n)%nat then Some z else None in
  let signed := match skip_space s with
                | String c t => if bool_decide (c = "-"%char) then Z.opp <$> unsigned t
                                else if bool_decide (c = "+"%char) then unsigned t else unsigned (String c t)
                | "" => None
                end in
  z ← signed; if (- 2 ^ 63 <=? z) && (z <? 2 ^ 63) then Some z else None.

(** The environment variables OCTAR_API_HOST and OCTAR_API_PORT, empty when not
    set, and the file ~/.octar/config.yaml. *)
Inductive config_file := NoFile | Unreadable | FileText (s : string).
Record cli_env := mkCliEnv { OCTAR_API_HOST : string; OCTAR_API_PORT : string }.

Definition over (old new : string) : string := if bool_decide (new = "") then old else new.

Section config.
Context (yaml_Unmarshal : string → option Config) (yaml_Marshal : Config → string).

Definition LoadConfig (env : cli_env) (file : config_file) : option Config :=
  let cfg := mkConfig "127.0.0.1" 8080 "" "" "" in
  let cfg := set_host (over (APIHost cfg) (OCTAR_API_HOST env)) cfg in
  let cfg := if bool_decide (OCTAR_API_PORT env = "") then cfg
             else set_port (default (APIPort cfg) (sscan_int (OCTAR_API_PORT env))) cfg in
  match file with
  | NoFile => Some cfg
  | Unreadable => None
  | FileText data =>
      f ← yaml_Unmarshal data;
      let cfg := set_host (over (APIHost cfg) (APIHost f)) cfg in
      let cfg := if APIPort f =? 0 then cfg else set_port (APIPort f) cfg in
      Some (set_tokens (over (cc_AccessToken cfg) (cc_AccessToken f)) (over (cc_RefreshToken cfg) (cc_RefreshToken f)) cfg)
  end.

Definition SaveConfig (cfg : Config) : config_file := FileText (yaml_Marshal cfg).

(** The persistent flags; [PersistentPreRunE] takes a flag that differs from
    its default. *)
Record root_flags := mkRootFlags { flagHost : string; flagPort : Z; jsonOutput : bool }.
Definition default_flags : root_flags := mkRootFlags "127.0.0.1" 8080 false.

Definition preRun (fl : root_flags) (env : cli_env) (file : config_file) : option Config :=
  cfg ← LoadConfig env file;
  let cfg := if bool_decide (flagHost fl = "127.0.0.1") then cfg else set_host (flagHost fl) cfg in
  Some (if flagPort fl =? 8080 then cfg else set_port (flagPort fl) cfg).
End config.

(** [fmt.Sprint] of a number and of a list of texts *)
Definition sprint_int (z : Z) : string :=
  if z <? 0 then "-" +:+ dec_str (ndigits 20 (- z)) (- z) else dec_str (ndigits 20 z) z.
Definition sprint_strs (l : list string) : string := "[" +:+ String.concat " " l +:+ "]".

Definition BaseURL (c : Config) : string := "http://" +:+ APIHost c +:+ ":" +:+ sprint_int (APIPort c).

(** ** The client (client.go) *)

Record Client := mkClient { cl_BaseURL : string; cl_Token : string }.
Definition NewClient (c : Config) : Client := mkClient (BaseURL c) (cc_AccessToken c).

(** The request [do] sends; the host of the URL leads to the server, which sees
    the rest. *)
Definition client_request (c : Client) (method path : string) (body : option jobject) : http_request :=
  mkHttpRequest method path (if bool_decide (cl_Token c = "") then "" else "Bearer " +:+ cl_Token c) body.

(** What [do] makes of the answer: the value, or the text of an error.  [raw] is
    the text of a body that is no JSON. *)
Definition str_or_empty (k : string) (o : jobject) : string := default "" (field k o ≫= as_str).
Definition client_result (raw : string) (r : http_reply) : option jval + string :=
  if 400 <=? hp_status r
  then let plain := "HTTP " +:+ sprint_int (hp_status r) +:+ ": " +:+ raw in
       inr (match hp_body r ≫= as_obj with
            | Some o =>
                let title := str_or_empty "title" o in let detail := str_or_empty "detail" o in
                if bool_decide (title = "") then plain
                else if bool_decide (detail = "") then title else title +:+ ": " +:+ detail
            | None => plain
            end)
  else inl (hp_body r).

(** ** Commands *)

(** The flags of [group set] that were given. *)
Record group_flags := mkGroupFlags {
  gf_parallelism : option Z; gf_quantum : option Z; gf_lease_timeout : option string;
  gf_retry_max : option Z; gf_retry_backoff : option string;
}.

Inductive command :=
| CLogin (username password : string)
| CNamespaceList | CNamespaceCreate (name : string) | CNamespaceGet (name : string) | CNamespaceDelete (name : string)
| CQueueList | CQueueCreate (ns name : string) | CQueueGet (ns name : string) | CQueueDelete (ns name : string)
| CQueueSnapshot (ns name : string) | CQueueStats (ns name : string) (limit : Z) (after : string)
| CGroupList (ns queue : string) (limit : Z) (after : string) | CGroupGet (ns queue key : string)
| CGroupSet (ns queue key : string) (flags : group_flags) | CGroupDelete (ns queue key : string)
| CUserList | CUserCreate (username password role email : string) | CUserGet (username : string)
| CUserUpdate (username : string) (email role password : option string) | CUserDelete (username : string)
| CUserPermissions (username : string)
| CKeyCreate (name namespace : string) (permissions : list string) | CKeyList | CKeyRevoke (key : string)
| CHealth | CPermissions | CMetrics.

Record sending := mkSending { s_method : string; s_path : string; s_body : option jobject }.
Definition GET (path : string) : sending := mkSending "GET" path None.
Definition POST (path : string) (body : option jobject) : sending := mkSending "POST" path body.
Definition PUT (path : string) (body : jobject) : sending := mkSending "PUT" path (Some body).
Definition PATCH (path : string) (body : jobject) : sending := mkSending "PATCH" path (Some body).
Definition DELETE (path : string) : sending := mkSending "DELETE" path None.
Definition DELETEWithBody (path : string) (body : jobject) : sending := mkSending "DELETE" path (Some body).

(** The query of the paged commands *)
Definition page_query (limit : Z) (after : string) : string :=
  if (0 <? limit) || negb (bool_decide (after = ""))
  then "?" +:+ (if 0 <? limit then "limit=" +:+ sprint_int limit else "")
       +:+ (if bool_decide (after = "") then "" else (if 0 <? limit then "&" else "") +:+ "after=" +:+ after)
  else "".

Definition given (k : string) (v : option jval) : jobject := match v with Some v => [(k, v)] | None => [] end.

(** The body of [group set]: a backoff joins the object of the attempts. *)
Definition groupSet_body (f : group_flags) : jobject :=
  let retry := given "max_attempts" (JNum <$> gf_retry_max f) ++ given "backoff" (JStr <$> gf_retry_backoff f) in
  given "parallelism" (JNum <$> gf_parallelism f) ++ given "quantum" (JNum <$> gf_quantum f)
  ++ given "lease_timeout" (JStr <$> gf_lease_timeout f)
  ++ match retry with [] => [] | _ => [("retry", JObj retry)] end.

Definition queue_path (ns name : string) : string := "/queues/" +:+ ns +:+ "/" +:+ name.

Definition namespace_request (c : command) : option sending :=
  match c with
  | CNamespaceList => Some (GET "/namespaces")
  | CNamespaceCreate n => Some (POST "/namespaces" (Some [("name", JStr n)]))
  | CNamespaceGet n => Some (GET ("/namespaces/" +:+ n))
  | CNamespaceDelete n => Some (DELETE ("/namespaces/" +:+ n))
  | _ => None
  end.

Definition queue_request (c : command) : option sending :=
  match c with
  | CQueueList => Some (GET "/queues")
  | CQueueCreate ns n => Some (POST "/queues" (Some [("namespace", JStr ns); ("name", JStr n)]))
  | CQueueGet ns n => Some (GET (queue_path ns n))
  | CQueueDelete ns n => Some (DELETE (queue_path ns n))
  | CQueueSnapshot ns n => Some (POST ("/queues/" +:+ ns +:+ "/" +:+ n +:+ "/snapshot") None)
  | CQueueStats ns n limit after => Some (GET (("/queues/" +:+ ns +:+ "/" +:+ n +:+ "/stats") +:+ page_query limit after))
  | _ => None
  end.

Definition group_request (c : command) : option sending :=
  match c with
  | CGroupList ns q limit after => Some (GET (("/queues/" +:+ ns +:+ "/" +:+ q +:+ "/groups") +:+ page_query limit after))
  | CGroupGet ns q k => Some (GET ("/queues/" +:+ ns +:+ "/" +:+ q +:+ "/groups/" +:+ k))
  | CGroupSet ns q k f => Some (PUT ("/queues/" +:+ ns +:+ "/" +:+ q +:+ "/groups/" +:+ k) (groupSet_body f))
  | CGroupDelete ns q k => Some (DELETE ("/queues/" +:+ ns +:+ "/" +:+ q +:+ "/groups/" +:+ k))
  | _ => None
  end.

(** The commands on users check their flags first. *)
Definition user_request (c : command) : option (sending + string) :=
  match c with
  | CUserList => Some (inl (GET "/users"))
  | CUserCreate u p r e =>
      Some (if bool_decide (p = "") then inr "--password is required"
            else inl (POST "/users" (Some [("username", JStr u); ("password", JStr p);
                                           ("role", JStr (if bool_decide (r = "") then "observer" else r)); ("email", JStr e)])))
  | CUserGet u => Some (inl (GET ("/users/" +:+ u)))
  | CUserUpdate u e r p =>
      let body := given "email" (JStr <$> e) ++ given "role" (JStr <$> r) ++ given "password" (JStr <$> p) in
      Some (match body with [] => inr "at least one flag is required: --email, --role, --password" | _ => inl (PATCH ("/users/" +:+ u) body) end)
  | CUserDelete u => Some (inl (DELETE ("/users/" +:+ u)))
  | CUserPermissions u => Some (inl (GET ("/users/" +:+ u +:+ "/permissions")))
  | _ => None
  end.

Definition key_request (c : command) : option (sending + string) :=
  match c with
  | CKeyCreate n ns perms =>
      Some (if bool_decide (ns = "") then inr "--namespace is required"
            else inl (POST "/auth/api-keys" (Some [("name", JStr n); ("namespace", JStr ns);
                        ("permissions", jstrs (match perms with [] => ["publish"; "consume"] | _ => perms end))])))
  | CKeyList => Some (inl (GET "/auth/api-keys"))
  | CKeyRevoke k => Some (inl (DELETEWithBody "/auth/api-keys" [("key", JStr k)]))
  | _ => None
  end.

Definition command_request (c : command) : sending + string :=
  match c with
  | CLogin u p => inl (POST "/auth/login" (Some [("username", JStr u); ("password", JStr p)]))
  | CHealth => inl (GET "/health")
  | CPermissions => inl (GET "/permissions")
  | CMetrics => inl (GET "/internal/metrics")
  | _ =>
      match namespace_request c, queue_request c, group_request c, user_request c, key_request c with
      | Some s, _, _, _, _ | _, Some s, _, _, _ | _, _, Some s, _, _ => inl s
      | _, _, _, Some s, _ | _, _, _, _, Some s => s
      | _, _, _, _, _ => inr ""
      end
  end.

(** ** What a command asks for *)

(** The call a command stands for; [None] when the server refuses its body. *)
Definition command_means (c : command) : option call :=
  match c with
  | CLogin u p => Some (Request (RLogin u p))
  | CNamespaceList => Some (Request RListNamespaces)
  | CNamespaceCreate n => Some (Request (RCreateNamespace n None))
  | CNamespaceGet n => Some (Request (RGetNamespace n))
  | CNamespaceDelete n => Some (Request (RDeleteNamespace n))
  | CQueueList => Some (Request RListQueues)
  | CQueueCreate ns n => Some (Request (RDeclareQueue n ns None))
  | CQueueGet ns n => Some (Request (RGetQueue ns n))
  | CQueueDelete ns n => Some (Request (RDeleteQueue ns n))
  | CQueueSnapshot ns n => Some (Request (RSnapshot ns n))
  | CQueueStats ns n limit after => Some (Request (RStats ns n after (if 0 <? limit then limit else 100)))
  | CGroupList ns q limit after => Some (Request (RListGroups ns q after (if 0 <? limit then limit else 100)))
  | CGroupGet ns q k => Some (Request (RGetGroup ns q k))
  | CGroupSet ns q k f =>
      match gf_retry_max f, gf_retry_backoff f with
      | None, None => Some (Request (RSetGroup ns q k (mkGroupConfigInput (default 1 (gf_parallelism f)) (default 1 (gf_quantum f))
                                                         (default "" (gf_lease_timeout f)) None None None)))
      | _, _ => None
      end
  | CGroupDelete ns q k => Some (Request (RDeleteGroup ns q k))
  | CUserList => Some (Request RListUsers)
  | CUserCreate u p r e => Some (Request (RCreateUser u p e (if bool_decide (r = "") then "observer" else r)))
  | CUserGet u => Some (Request (RGetUser u))
  | CUserUpdate u e r p => Some (Request (RUpdateUser u e r p))
  | CUserDelete u => Some (Request (RDeleteUser u))
  | CUserPermissions u => Some (Request (RGetPermissions u))
  | CKeyCreate n ns perms => Some (Request (RCreateKey n ns (match perms with [] => ["publish"; "consume"] | _ => perms end)))
  | CKeyList => Some (Request RListKeys)
  | CKeyRevoke k => Some (Request (RRevokeKey k))
  | CHealth => Some Health
  | CPermissions => Some (Request RPermissions)
  | CMetrics => Some Metrics
  end.

(** Arguments that go into the path have only bytes a path carries unescaped, a
    cursor only unreserved ones, and a limit is an int. *)
Definition cursor_ok (after : string) : Prop := Forall (λ b, unreserved b = true) (str_bytes after).
Definition path_args (c : command) : list string :=
  match c with
  | CNamespaceGet n | CNamespaceDelete n => [n]
  | CQueueGet ns n | CQueueDelete ns n | CQueueSnapshot ns n | CQueueStats ns n _ _ | CGroupList ns n _ _ => [ns; n]
  | CGroupGet ns q k | CGroupSet ns q k _ | CGroupDelete ns q k => [ns; q; k]
  | CUserGet u | CUserUpdate u _ _ _ | CUserDelete u | CUserPermissions u => [u]
  | _ => []
  end.
Definition args_ok (c : command) : Prop :=
  Forall path_arg (path_args c) ∧
  match c with CQueueStats _ _ limit after | CGroupList _ _ limit after => cursor_ok after ∧ limit < 2 ^ 63 | _ => True end.

(** *** Numbers and cursors in a query *)

Lemma dec_str_unreserved w z : Forall (λ b, unreserved b = true) (str_bytes (dec_str w z)).
Proof.
  induction w as [|w IH]; [constructor|]. cbn [dec_str]. set (d := (z / 10 ^ Z.of_nat w) `mod` 10).
  assert (0 ≤ d < 10) as Hd by apply mod10_range. clearbody d.
  change (String ?c ?s) with (String c "" +:+ s). rewrite str_bytes_app. apply Forall_app. split; [|done].
  assert (d ∈ [0; 1; 2; 3; 4; 5; 6; 7; 8; 9]) as Hin by (rewrite !elem_of_cons; lia).
  repeat (apply elem_of_cons in Hin as [->|Hin]; [by vm_compute; repeat constructor|]). by apply elem_of_nil in Hin.
Qed.

Lemma ParseInt_sprint z : 0 < z < 2 ^ 63 → ParseInt (sprint_int z) = Some z.
Proof.
  intros Hz. unfold ParseInt, sprint_int. rewrite (proj2 (Z.ltb_ge z 0)) by lia.
  assert (z < 10 ^ Z.of_nat (ndigits 20 z)) as Hb by (apply (ndigits_bound 20); lia).
  replace (dec_str (ndigits 20 z) z) with (dec_str (ndigits 20 z) z +:+ "") by apply str_app_nil.
  rewrite scan_dec, scan_stop by done. rewrite Z.mod_small by lia. cbn [Z.mul Z.add].
  rewrite bool_decide_eq_true_2 by done. by destruct (ndigits 20 z) eqn:E; [cbn in E; destruct (z <? 10)|].
Qed.

Lemma QueryEscape_unreserved s : Forall (λ b, unreserved b = true) s → QueryEscape s = s.
Proof. induction 1 as [|b s Hb _ IH]; [done|]. change (QueryEscape (b :: s)) with (escape_byte b ++ QueryEscape s). unfold escape_byte. by rewrite Hb, IH. Qed.

(** The pairs of the query of a paged command *)
Definition page_pairs (limit : Z) (after : string) : list (list byte * list byte) :=
  (if 0 <? limit then [(str_bytes "limit", str_bytes (sprint_int limit))] else [])
  ++ (if bool_decide (after = "") then [] else [(str_bytes "after", str_bytes after)]).

Lemma sprint_int_unreserved z : 0 < z → Forall (λ b, unreserved b = true) (str_bytes (sprint_int z)).
Proof. intros Hz. unfold sprint_int. rewrite (proj2 (Z.ltb_ge z 0)) by lia. apply dec_str_unreserved. Qed.

Lemma escape_no_hash s : Forall (λ b, b ≠ x23) (QueryEscape s).
Proof.
  induction s as [|b s IH]; [constructor|]. change (QueryEscape (b :: s)) with (escape_byte b ++ QueryEscape s).
  apply Forall_app. split; [|done]. by destruct b; repeat constructor.
Qed.
Lemma Encode_no_hash l : Forall (λ b, b ≠ x23) (Encode l).
Proof.
  assert (∀ p, Forall (λ b, b ≠ x23) (pair_text p)) as Hp.
  { intros [k v]. unfold pair_text. apply Forall_app. split; [|constructor; [done|]]; apply escape_no_hash. }
  induction l as [|p l IH]; [constructor|]. rewrite Encode_cons.
  destruct l; [done|]. apply Forall_app. split; [done|]. by constructor.
Qed.

Lemma page_query_text limit after : cursor_ok after →
  page_query limit after =
    match page_pairs limit after with [] => "" | l => "?" +:+ bytes_str (Encode l) end.
Proof.
  intros Ha. unfold page_query, page_pairs.
  assert (∀ t s, Forall (λ b, unreserved b = true) (str_bytes t) → Forall (λ b, unreserved b = true) (str_bytes s) →
    bytes_str (QueryEscape (str_bytes t) ++ x3d :: QueryEscape (str_bytes s)) = t +:+ "=" +:+ s) as Hpair.
  { intros t s Ht Hs. rewrite !QueryEscape_unreserved by done. rewrite <-(bytes_str_bytes (t +:+ "=" +:+ s)). by rewrite !str_bytes_app. }
  destruct (Z.ltb_spec 0 limit) as [Hl|Hl]; cbn [orb]; [|destruct (bool_decide (after = "")); [done|]].
  - pose proof (sprint_int_unreserved limit Hl) as Hs. destruct (bool_decide (after = "")).
    + cbn [app Encode]. rewrite Hpair by (done || by repeat constructor). by rewrite str_app_nil.
    + cbn [app]. f_equal. rewrite <-(bytes_str_bytes (_ +:+ _)), !str_bytes_app. f_equal.
      cbn [Encode]. rewrite !QueryEscape_unreserved by (done || by repeat constructor). by rewrite <-!app_assoc.
  - cbn [app Encode negb]. rewrite Hpair by (done || by repeat constructor). done.
Qed.

Lemma page_query_url p limit after :
  Forall (λ b, passes b || bool_decide (b = x2f) = true) (str_bytes p) → cursor_ok after →
  parse_url (p +:+ page_query limit after) = Some (str_bytes p, page_pairs limit after).
Proof.
  intros Hp Ha. rewrite page_query_text by done. destruct (page_pairs limit after) as [|x l] eqn:E.
  - rewrite str_app_nil. by apply parse_url_path.
  - apply parse_url_query; [done|by rewrite str_bytes_str|apply Encode_no_hash].
Qed.

Lemma page_params limit after : limit < 2 ^ 63 →
  decode_limit (page_pairs limit after) = Some (if 0 <? limit then limit else 100) ∧
  query_param "after" (page_pairs limit after) = after.
Proof.
  intros Hl. unfold decode_limit, page_pairs. destruct (Z.ltb_spec 0 limit) as [H0|H0].
  - cbn [app query_param]. rewrite (bool_decide_eq_true_2 (str_bytes "limit" = str_bytes "limit")), bytes_str_bytes by done.
    rewrite (bool_decide_eq_false_2 (str_bytes "limit" = str_bytes "after")) by done.
    assert (sprint_int limit ≠ "") as Hne by (intros E; pose proof (ParseInt_sprint limit (conj H0 Hl)) as H; by rewrite E in H).
    rewrite (bool_decide_eq_false_2 _ Hne), ParseInt_sprint by done. split; [done|].
    destruct (decide (after = "")) as [->|Hn]; [done|]. rewrite (bool_decide_eq_false_2 _ Hn). cbn. by rewrite bytes_str_bytes.
  - destruct (decide (after = "")) as [->|Hn]; [done|]. rewrite (bool_decide_eq_false_2 _ Hn). cbn. by rewrite bytes_str_bytes.
Qed.

(** ** Commands reach their handlers *)

(** The commands whose path asks for a token *)
Definition command_protected (c : command) : bool :=
  match c with CLogin _ _ | CKeyCreate _ _ _ | CKeyList | CKeyRevoke _ | CHealth | CPermissions => false | _ => true end.

Definition reached `{Router} (marshal_object : jobject → string) (s : sending) (protected : bool) (m : option call) : Prop :=
  ∃ path q r ps, parse_url (s_path s) = Some (path, q) ∧ needsAuth (bytes_str path) = protected ∧
    find_route routes (s_method s) path = Some (r, ps) ∧ decode marshal_object (r_Operation r) ps q (s_body s) = m.

Lemma reached_path `{Router} mo r s l b p m :
  r ∈ routes → Forall2 fits (pattern_of r) (s :: l) → Forall (λ s, Forall (λ b, passes b = true) (str_bytes s)) (s :: l) →
  needsAuth (path_of s l) = p → decode mo (r_Operation r) (params (pattern_of r) (s :: l)) [] b = m →
  reached mo (mkSending (r_Method r) (path_of s l) b) p m.
Proof.
  intros Hr Hf Hp Hn Hd. destruct (route_path r s l Hr Hf Hp) as [H1 H2].
  exists (str_bytes (path_of s l)), [], r, (params (pattern_of r) (s :: l)). rewrite bytes_str_bytes. done.
Qed.

Lemma reached_paged `{Router} mo r ns n k limit after m :
  r ∈ routes → Forall2 fits (pattern_of r) ["queues"; ns; n; k] → path_arg ns → path_arg n → Forall (λ b, passes b = true) (str_bytes k) →
  cursor_ok after → decode mo (r_Operation r) (params (pattern_of r) ["queues"; ns; n; k]) (page_pairs limit after) None = m →
  reached mo (mkSending (r_Method r) (path_of "queues" [ns; n; k] +:+ page_query limit after) None) true m.
Proof.
  intros Hr Hf [_ Hns] [_ Hn] Hk Ha Hd.
  assert (Forall (λ s, Forall (λ b, passes b = true) (str_bytes s)) ["queues"; ns; n; k]) as Hp by (repeat constructor; done).
  destruct (route_path r "queues" [ns; n; k] Hr Hf Hp) as [_ H2].
  exists (str_bytes (path_of "queues" [ns; n; k])), (page_pairs limit after), r, (params (pattern_of r) ["queues"; ns; n; k]).
  rewrite bytes_str_bytes. split_and!; [|done|done|done].
  apply page_query_url; [|done]. apply Forall_cons in Hp as [? Hp]. by apply app_path_clean.
Qed.

(** The side conditions of the two lemmas: the route is one of the server's, the
    path fits it, and the arguments are clean. *)
Ltac fit_route :=
  match goal with |- Forall2 fits (pattern_of ?r) _ => let p := eval vm_compute in (pattern_of r) in change (pattern_of r) with p end;
  repeat (apply Forall2_cons; split; [done|]); apply Forall2_nil; done.
Ltac take_args Ha := simpl in Ha; repeat (apply Forall_cons in Ha as [[? ?] Ha]).
Ltac clean_path := repeat (apply Forall_cons; split; [first [assumption | by_eval]|]); by apply Forall_nil.
Ltac goes_to op m pat s l :=
  apply (reached_path _ (mkRoute m pat op) s l); [by_eval|fit_route|clean_path|done|done].

Lemma namespace_reached `{Router} mo c s :
  namespace_request c = Some s → args_ok c → reached mo s (command_protected c) (command_means c).
Proof.
  intros Hc [Ha _]. destruct c; try done; injection Hc as <-; take_args Ha.
  - goes_to OpListNamespaces "GET" "/namespaces" "namespaces" (@nil string).
  - goes_to OpCreateNamespace "POST" "/namespaces" "namespaces" (@nil string).
  - goes_to OpGetNamespace "GET" "/namespaces/{name}" "namespaces" [name].
  - goes_to OpDeleteNamespace "DELETE" "/namespaces/{name}" "namespaces" [name].
Qed.

Lemma queue_reached `{Router} mo c s :
  queue_request c = Some s → args_ok c → reached mo s (command_protected c) (command_means c).
Proof.
  intros Hc [Ha Hq]. destruct c; try done; injection Hc as <-; take_args Ha.
  - goes_to OpListQueues "GET" "/queues" "queues" (@nil string).
  - goes_to OpDeclareQueue "POST" "/queues" "queues" (@nil string).
  - goes_to OpGetQueue "GET" "/queues/{namespace}/{name}" "queues" [ns; name].
  - goes_to OpDeleteQueue "DELETE" "/queues/{namespace}/{name}" "queues" [ns; name].
  - goes_to OpSnapshot "POST" "/queues/{namespace}/{name}/snapshot" "queues" [ns; name; "snapshot"].
  - destruct Hq as [Hcur Hlim]. destruct (page_params limit after Hlim) as [Hl Hp].
    apply (reached_paged _ (mkRoute "GET" "/queues/{namespace}/{name}/stats" OpStats) ns name "stats" limit after);
      [by_eval|fit_route|done|done|by_eval|done|]. cbn. by rewrite Hl, Hp.
Qed.

Lemma group_reached `{Router} mo c s :
  group_request c = Some s → args_ok c → reached mo s (command_protected c) (command_means c).
Proof.
  intros Hc [Ha Hq]. destruct c; try done; injection Hc as <-; take_args Ha.
  - destruct Hq as [Hcur Hlim]. destruct (page_params limit after Hlim) as [Hl Hp].
    apply (reached_paged _ (mkRoute "GET" "/queues/{namespace}/{name}/groups" OpListGroups) ns queue "groups" limit after);
      [by_eval|fit_route|done|done|by_eval|done|]. cbn. by rewrite Hl, Hp.
  - goes_to OpGetGroup "GET" "/queues/{namespace}/{name}/groups/{key}" "queues" [ns; queue; "groups"; key].
  - apply (reached_path _ (mkRoute "PUT" "/queues/{namespace}/{name}/groups/{key}" OpSetGroup) "queues" [ns; queue; "groups"; key]);
      [by_eval|fit_route|clean_path|done|].
    destruct flags as [p q l m b]. by destruct p, q, l, m, b.
  - goes_to OpDeleteGroup "DELETE" "/queues/{namespace}/{name}/groups/{key}" "queues" [ns; queue; "groups"; key].
Qed.

Lemma user_reached `{Router} mo c s :
  user_request c = Some (inl s) → args_ok c → reached mo s (command_protected c) (command_means c).
Proof.
  intros Hc [Ha _]. destruct c; try done; take_args Ha.
  - injection Hc as <-. goes_to OpListUsers "GET" "/users" "users" (@nil string).
  - cbn in Hc. destruct (bool_decide (password = "")); [done|]. injection Hc as <-.
    goes_to OpCreateUser "POST" "/users" "users" (@nil string).
  - injection Hc as <-. goes_to OpGetUser "GET" "/users/{username}" "users" [username].
  - destruct email, role, password; try done; injection Hc as <-; goes_to OpUpdateUser "PATCH" "/users/{username}" "users" [username].
  - injection Hc as <-. goes_to OpDeleteUser "DELETE" "/users/{username}" "users" [username].
  - injection Hc as <-. goes_to OpGetUserPermissions "GET" "/users/{username}/permissions" "users" [username; "permissions"].
Qed.

Lemma jstrs_read l : as_strs (jstrs l) = Some l.
Proof. unfold as_strs, jstrs. cbn [as_arr mbind option_bind]. by apply mapM_fmap_Some. Qed.

Lemma key_reached `{Router} mo c s :
  key_request c = Some (inl s) → reached mo s (command_protected c) (command_means c).
Proof.
  intros Hc. destruct c; try done; cbn in Hc.
  - destruct (bool_decide (namespace = "")); [done|]. injection Hc as <-.
    apply (reached_path _ (mkRoute "POST" "/auth/api-keys" OpCreateKey) "auth" ["api-keys"]); [by_eval|fit_route|clean_path|done|].
    cbn [command_means]. set (l := match permissions with [] => _ | _ => _ end).
    trans (Request <$> (l' ← as_strs (jstrs l); Some (RCreateKey name namespace l'))); [reflexivity|by rewrite jstrs_read].
  - injection Hc as <-. goes_to OpListKeys "GET" "/auth/api-keys" "auth" ["api-keys"].
  - injection Hc as <-. goes_to OpRevokeKey "DELETE" "/auth/api-keys" "auth" ["api-keys"].
Qed.

Lemma command_reached `{Router} mo c s :
  command_request c = inl s → args_ok c → reached mo s (command_protected c) (command_means c).
Proof.
  intros Hc Ha.
  destruct c;
    first [apply namespace_reached; [by injection Hc as <-|done] | apply queue_reached; [by injection Hc as <-|done]
          | apply group_reached; [by injection Hc as <-|done] | apply user_reached; [cbn in Hc |- *; by rewrite Hc|done]
          | apply key_reached; cbn in Hc |- *; by rewrite Hc | injection Hc as <-].
  - goes_to OpLogin "POST" "/auth/login" "auth" ["login"].
  - goes_to OpHealth "GET" "/health" "health" (@nil string).
  - goes_to OpListPermissions "GET" "/permissions" "permissions" (@nil string).
  - goes_to OpMetrics "GET" "/internal/metrics" "internal" ["metrics"].
Qed.

(** ** A process *)

Section process.
Context `{JSON} (sha256 : list byte → list byte) (hashKey : string → string).
Context (fk : bool) (bcrypt : string → option string) (compare : string → string → bool).
Context (marshal_strings : list string → string) (unmarshal_strings : string → list string).
Context (marshal_config : GroupConfig → string) (marshal_durable : bool → string).
Context (is_object is_email : string → bool) (ParseDuration : string → option Z).
Context (marshal_object : jobject → string) (unmarshal_object : string → jobject) (describe : string → string).
Context (error_json : Z → jobject) (raw : http_reply → string).
Context (yaml_Unmarshal : string → option Config) (yaml_Marshal : Config → string).
Context `{Router}.

Local Abbreviation serve' := (serve sha256 hashKey fk bcrypt compare marshal_strings unmarshal_strings
  marshal_config marshal_durable is_object is_email ParseDuration).
Local Abbreviation handle' := (handle sha256 hashKey fk bcrypt compare marshal_strings unmarshal_strings
  marshal_config marshal_durable is_object is_email ParseDuration).
Local Abbreviation http_serve' := (http_serve sha256 hashKey fk bcrypt compare marshal_strings unmarshal_strings
  marshal_config marshal_durable is_object is_email ParseDuration marshal_object unmarshal_object describe error_json).
Local Abbreviation run_call' := (run_call sha256 hashKey fk bcrypt compare marshal_strings unmarshal_strings
  marshal_config marshal_durable is_object is_email ParseDuration unmarshal_object describe error_json).
Local Abbreviation reply' := (reply unmarshal_object describe error_json).
Local Abbreviation fail' := (fail error_json).

(** The request a command sends with the client of a configuration *)
Definition command_http (cfg : Config) (s : sending) : http_request :=
  client_request (NewClient cfg) (s_method s) (s_path s) (s_body s).

Lemma protected_path c r : command_means c = Some (Request r) → needsAuth (request_path r) = command_protected c.
Proof.
  intros Hc. rewrite needsAuth_requests. destruct c; cbn in Hc; try discriminate Hc; try (injection Hc as <-; done).
  by destruct (gf_retry_max flags), (gf_retry_backoff flags); try done; injection Hc as <-.
Qed.

(** What the server makes of the request of a command. *)
Lemma command_serving c s cfg e mgr pr a :
  command_request c = inl s → args_ok c →
  let h := command_http cfg s in
  let known := bool_decide (is_Some (authenticated sha256 hashKey e mgr (hr_authorization h) a)) in
  http_serve' e mgr pr h a =
    match command_means c with
    | Some (Request r) => let '(a', o) := serve' e mgr (hr_authorization h) r a in (a', outcome_map reply' o)
    | Some call => if command_protected c && negb known then (a, Ret (fail' 401)) else run_call' e mgr None pr call a
    | None => (a, Ret (fail' (if known then 422 else 401)))
    end.
Proof.
  intros Hc Ha. cbv zeta. destruct (command_reached marshal_object c s Hc Ha) as (path & q & r & ps & H1 & H2 & H3 & H4).
  unfold http_serve, command_http, client_request. cbn [hr_url hr_method hr_body hr_authorization]. rewrite H1, H2, H3, H4.
  set (hd := if bool_decide (cl_Token (NewClient cfg) = "") then "" else _).
  destruct (command_means c) as [[r'| |]|] eqn:Em.
  - pose proof (protected_path c r' Em) as Hp. unfold serve, authenticated. rewrite Hp. unfold run_call.
    destruct (command_protected c); cbn [andb negb]; [|done].
    destruct (HasPrefix hd bearer); cbn [negb]; [|by rewrite bool_decide_eq_false_2 by (by intros [])].
    destruct (VerifyToken _ _ _ _ _ _) as [id|]; [by rewrite bool_decide_eq_true_2|by rewrite bool_decide_eq_false_2 by (by intros [])].
  - destruct (_ && _); [done|]. by destruct (command_protected c).
  - destruct (_ && _); [done|]. by destruct (command_protected c).
  - assert (command_protected c = true) as -> by (destruct c; try done; cbn in Em; by destruct (command_request _)).
    cbn [andb]. by destruct (bool_decide (is_Some _)).
Qed.


(** The configuration file of the user and the server. *)
Record world := mkWorld { w_file : config_file; w_api : api }.

(** What [login] keeps of the answer *)
Definition logged_in (username : string) (v : option jval) (cfg : Config) : Config :=
  let o := default [] (v ≫= as_obj) in
  set_username username (set_tokens (str_or_empty "access_token" o) (str_or_empty "refresh_token" o) cfg).

(** The tool run once; a panic of the server closes the connection. *)
Definition run_command (fl : root_flags) (env : cli_env) (e : api_env) (mgr : option Manager) (pr : probe) (c : command) (w : world)
    : world * (option jval + string) :=
  match preRun yaml_Unmarshal fl env (w_file w) with
  | None => (w, inr "load config")
  | Some cfg =>
      match command_request c with
      | inr err => (w, inr err)
      | inl s =>
          let '(a, o) := http_serve' e mgr pr (command_http cfg s) (w_api w) in
          match o with
          | Panic => (mkWorld (w_file w) a, inr "do request")
          | Ret r =>
              match client_result (raw r) r with
              | inr err => (mkWorld (w_file w) a, inr err)
              | inl v =>
                  (mkWorld (match c with CLogin u _ => SaveConfig yaml_Marshal (logged_in u v cfg) | _ => w_file w end) a, inl v)
              end
          end
      end
  end.

Definition command_outcome (o : outcome response) : option jval + string :=
  match o with Panic => inr "do request" | Ret r => client_result (raw (reply' r)) (reply' r) end.

Lemma preRun_token fl env cfg : yaml_Unmarshal (yaml_Marshal cfg) = Some cfg →
  ∃ cfg', preRun yaml_Unmarshal fl env (SaveConfig yaml_Marshal cfg) = Some cfg' ∧ cc_AccessToken cfg' = cc_AccessToken cfg.
Proof.
  intros Hy. unfold preRun, LoadConfig, SaveConfig. rewrite Hy. cbn [mbind option_bind]. eexists. split; [done|].
  assert (∀ s, over "" s = s) as Ho by (intros s; unfold over; by case_bool_decide).
  repeat match goal with |- context [if ?b then _ else _] => destruct b end; cbn; apply Ho.
Qed.

Context (claims_ok : Claims → Prop) (Hclaims : ∀ c, claims_ok c → unmarshal_claims (marshal_claims c) = Some c).
Context (Hsha : ∀ x, length (sha256 x) = 32%nat) (Hyaml : ∀ c, yaml_Unmarshal (yaml_Marshal c) = Some c).

End process.

(** ** Samples *)

Module Sample.
#[local] Existing Instance Jwt.Sample.json.
#[local] Existing Instance first_router.

#[local] Instance Config_eq_dec : EqDecision Config.
Proof. solve_decision. Defined.
#[local] Instance Config_countable : Countable Config.
Proof.
  refine (inj_countable' (λ c, (APIHost c, APIPort c, cc_AccessToken c, cc_RefreshToken c, cc_Username c)) (λ '(a, b, c, d, e), mkConfig a b c d e) _).
  by intros [].
Defined.
Definition write_yaml (c : Config) : string := String.string_of_list_byte (Jwt.Sample.pos_bytes (encode c)).
Definition read_yaml (s : string) : option Config := countable.decode (Jwt.Sample.bytes_pos (String.list_byte_of_string s)).
Lemma read_write_yaml c : read_yaml (write_yaml c) = Some c.
Proof.
  unfold read_yaml, write_yaml. rewrite String.list_byte_of_string_of_list_byte, Jwt.Sample.bytes_pos_bytes. by rewrite countable.decode_encode.
Qed.

Definition no_env : cli_env := mkCliEnv "" "".
Definition user : User := mkUser 1 "admin" "secret" None "admin" "t" "t".
Definition start : api := mkApi seeded (new_runtime true) [] (mkAPIKeyAuthenticator "" 0 ∅) [].
Definition probed : probe := mkProbe None (inl 1000000000) [].
Definition error_json (st : Z) : jobject := [("title", JStr "error"); ("status", JNum st)].

Definition run (e : api_env) (fl : root_flags) (c : command) (w : world) : world * (option jval + string) :=
  run_command Jwt.Sample.digest id true Some equal (λ _, "") (λ _, []) (λ _, "") (λ _, "") (λ _, true) (λ _, true) (λ _, None)
    (λ _, "") (λ _, []) id error_json (λ _, "") read_yaml write_yaml fl no_env e (Some Jwt.Sample.manager) probed c w.



(** Arguments are put into the path as they are: a group pattern with a question
    mark loses it, and the request is about another group. *)
Example question_mark_lost :
  match command_request (CGroupDelete "main" "jobs" "tenant-?") with
  | inl s =>
      match parse_url (s_path s) with
      | Some (path, q) => (λ x, Http.decode (λ _, "") (r_Operation x.1) x.2 q (s_body s)) <$> find_route routes (s_method s) path
      | None => None
      end
  | inr _ => None
  end = Some (Some (Request (RDeleteGroup "main" "jobs" "tenant-"))).
Proof. by vm_compute. Qed.

(** Either of the two retry flags makes a body the server refuses: its retry
    object needs all four fields. *)
Example retry_flags_refused f :
  gf_retry_max f ≠ None ∨ gf_retry_backoff f ≠ None → decode_group (groupSet_body f) = None.
Proof. destruct f as [p q l m b]. destruct p, q, l, m, b; try done; by intros [[]|[]]. Qed.

(** Without --email the address sent is empty. *)
Lemma email_needed is_email u p r : is_email "" = false →
  ∃ r', command_means (CUserCreate u p r "") = Some (Request r') ∧ valid is_email r' = false.
Proof.
  intros He. eexists. split; [done|]. unfold valid. rewrite He, andb_false_r. done.
Qed.

(** A flag that names the default host does not override the file. *)
Example default_host_flag :
  let f := mkConfig "broker.example" 9000 "" "" "" in
  APIHost <$> preRun read_yaml (mkRootFlags "127.0.0.1" 8080 false) no_env (SaveConfig write_yaml f) = Some "broker.example".
Proof. by vm_compute. Qed.
End Sample.
