(* ===== verification/CliPrint.v ===== *)
(** * What the command line prints (src/internal/cli)

    How each command reads the answer of the server into its own structures
    (encoding/json fills the fields the structure names and leaves the others
    out) and prints it, as text or as JSON; the tables of fmt.go. *)

From stdpp Require Import base gmap list strings.
From Stdlib Require Import ZArith Lia Strings.Byte Strings.Ascii.
From S2P Require Import Prelude Group Queue Names Url Auth Jwt Wal Database Api ApiInv App Http Cli.
Local Open Scope Z_scope.
Local Open Scope list_scope.

(** ** Tables (fmt.go) *)

Definition newline : string := bytes_str [x0a].

Definition stringsRepeat (s : string) (n : Z) : string :=
  if n <=? 0 then "" else String.concat "" (replicate (Z.to_nat n) s).
Definition sumWidths (widths : list Z) (n : nat) : Z := foldl Z.add 0 (take n widths).
Definition len (s : string) : Z := Z.of_nat (str_len s).

(** [widths[i]] of a cell beyond the last column panics, which is [None]. *)
Fixpoint widen (widths : list Z) (row : list string) : option (list Z) :=
  match row, widths with
  | [], ws => Some ws
  | _ :: _, [] => None
  | cell :: row, w :: ws => cons (if w <? len cell then len cell else w) <$> widen ws row
  end.

Fixpoint print_cells (first : bool) (cells : list string) (widths : list Z) (sep : string) : option string :=
  match cells, widths with
  | [], _ => Some newline
  | _ :: _, [] => None
  | cell :: cells, w :: ws =>
      rest ← print_cells false cells ws sep;
      Some ((if first then "" else sep) +:+ cell +:+ (if len cell <? w then stringsRepeat " " (w - len cell) else "") +:+ rest)
  end.
Definition printRow (cells : list string) (widths : list Z) (sep : string) : option string := print_cells true cells widths sep.

Definition table_widths (headers : list string) (rows : list (list string)) : option (list Z) :=
  foldl (λ ws row, ws ← ws; widen ws row) (Some (len <$> headers)) rows.

Definition dash : string := bytes_str [xe2; x94; x80].

Definition table_text (headers : list string) (rows : list (list string)) : option string :=
  let cols := length headers in
  ws ← table_widths headers rows;
  head ← printRow headers ws " ";
  lines ← mapM (λ row, printRow row ws " ") rows;
  Some (head +:+ stringsRepeat dash (sumWidths ws cols + Z.of_nat cols - 1) +:+ newline +:+ String.concat "" lines).

(** A row as an object; a missing cell panics. *)
Fixpoint row_object (headers row : list string) : option jobject :=
  match headers, row with
  | [], _ => Some []
  | _ :: _, [] => None
  | h :: hs, c :: cs => cons (h, JStr c) <$> row_object hs cs
  end.

(** ** Output *)

Inductive piece := Text (s : string) | Quoted (s : string) | Json (v : jval).

(** A nil slice prints as null. *)
Definition printTable (json : bool) (headers : list string) (rows : list (list string)) : option (list piece) :=
  if json then objs ← mapM (row_object headers) rows; Some [Json (match objs with [] => JNull | _ => JArr (JObj <$> objs) end)]
  else t ← table_text headers rows; Some [Text t].

(** ** Reading an answer *)

Inductive ftype := FStr | FNum | FStrs | FPtr | FMap.

(** A field of a structure with its type and whether it is omitted when empty:
    what is left of it when the structure is filled from an object and printed;
    [None] when the object has another type there. *)
Definition fill1 (f : string * ftype * bool) (o : jobject) : option jobject :=
  let '(k, t, omit) := f in
  let keep (empty : bool) (v : jval) : jobject := if omit && empty then [] else [(k, v)] in
  match t, field k o with
  | FStr, (None | Some JNull) => Some (keep true (JStr ""))
  | FStr, Some (JStr s) => Some (keep (bool_decide (s = "")) (JStr s))
  | FNum, (None | Some JNull) => Some (keep true (JNum 0))
  | FNum, Some (JNum n) => Some (keep (n =? 0) (JNum n))
  | FStrs, (None | Some JNull) => Some (keep true JNull)
  | FStrs, Some v => l ← as_strs v; Some (keep (bool_decide (l = [])) (jstrs l))
  | FPtr, (None | Some JNull) => Some (keep true JNull)
  | FPtr, Some (JStr s) => Some [(k, JStr s)]
  | FMap, (None | Some JNull) => Some (keep true JNull)
  | FMap, Some (JObj m) => Some (keep (match m with [] => true | _ => false end) (JObj m))
  | _, _ => None
  end.
Definition fill (fs : list (string * ftype * bool)) (o : jobject) : option jobject := l ← mapM (λ f, fill1 f o) fs; Some (concat l).

(** The answer as an object or a list of objects; an empty body leaves the
    result as it was. *)
Definition fill_one (fs : list (string * ftype * bool)) (v : option jval) : option jobject :=
  match v with None => fill fs [] | Some v => as_obj v ≫= fill fs end.
Definition fill_all (fs : list (string * ftype * bool)) (v : option jval) : option (list jobject) :=
  match v with None => Some [] | Some v => l ← as_arr v; mapM (λ v, as_obj v ≫= fill fs) l end.

Definition namespaceView_fields : list (string * ftype * bool) :=
  [("id", FNum, false); ("name", FStr, false); ("config", FMap, true); ("created_at", FStr, false); ("updated_at", FStr, false)].
Definition queue_fields : list (string * ftype * bool) :=
  [("name", FStr, false); ("namespace", FStr, false); ("active_groups", FNum, false); ("config_count", FNum, false)].
Definition groupStats_fields : list (string * ftype * bool) := [("key", FStr, false); ("pending", FNum, false); ("inflight", FNum, false)].
Definition userView_fields : list (string * ftype * bool) :=
  [("id", FNum, false); ("username", FStr, false); ("email", FPtr, true); ("role", FStr, false); ("created_at", FStr, false); ("updated_at", FStr, true)].
Definition newKey_fields : list (string * ftype * bool) :=
  [("key", FStr, false); ("subject_id", FStr, false); ("namespace", FStr, false); ("permissions", FStrs, false)].
Definition keyEntry_fields : list (string * ftype * bool) :=
  [("subject_id", FStr, false); ("namespace", FStr, false); ("permissions", FStrs, false); ("prefix", FStr, true)].
Definition check_fields : list (string * ftype * bool) := [("name", FStr, false); ("status", FStr, false); ("detail", FStr, true)].

(** Cells *)
Definition text_of (k : string) (o : jobject) : string := str_or_empty k o.
Definition number_of (k : string) (o : jobject) : string := sprint_int (default 0 (field k o ≫= as_num)).
Definition texts_of (k : string) (o : jobject) : string := sprint_strs (default [] (field k o ≫= as_strs)).

(** ** The commands *)

Definition line (s : string) : piece := Text (s +:+ newline).

(** A result printed as JSON on request, otherwise as a sentence *)
Definition either (json : bool) (o : jobject) (text : list piece) : list piece := if json then [Json (JObj o)] else text.

Definition print_namespaces (json : bool) (c : command) (v : option jval) : option (list piece) :=
  match c with
  | CNamespaceList => l ← fill_all namespaceView_fields v;
      printTable json ["NAME"; "CREATED"; "UPDATED"] ((λ o, [text_of "name" o; text_of "created_at" o; text_of "updated_at" o]) <$> l)
  | CNamespaceCreate _ => o ← fill_one namespaceView_fields v;
      Some (either json o [Text "Namespace "; Quoted (text_of "name" o); line " created"])
  | CNamespaceGet _ => o ← fill_one namespaceView_fields v; Some [Json (JObj o)]
  | CNamespaceDelete n => Some [Text "Namespace "; Quoted n; line " deleted"]
  | _ => None
  end.

(** The cursor of the next page, if there is one *)
Definition next_page (o : jobject) : list piece :=
  let next := text_of "next_cursor" o in
  if bool_decide (next = "") then [] else [Text (newline +:+ "Next cursor: " +:+ next +:+ newline)].

Definition print_queues (json : bool) (c : command) (v : option jval) : option (list piece) :=
  match c with
  | CQueueList => l ← fill_all queue_fields v;
      printTable json ["NAME"; "NAMESPACE"; "GROUPS"; "CONFIGS"]
        ((λ o, [text_of "name" o; text_of "namespace" o; number_of "active_groups" o; number_of "config_count" o]) <$> l)
  | CQueueCreate _ _ => o ← fill_one queue_fields v;
      Some (either json o [Text "Queue "; Quoted (text_of "name" o); Text " created in namespace "; Quoted (text_of "namespace" o); line ""])
  | CQueueGet _ _ => o ← fill_one queue_fields v; Some [Json (JObj o)]
  | CQueueDelete ns n => Some [Text "Queue "; Quoted n; Text " deleted from namespace "; Quoted ns; line ""]
  | CQueueSnapshot _ _ => o ← fill_one [("message", FStr, false)] v; Some [line (text_of "message" o)]
  | CQueueStats _ _ _ _ =>
      page ← match v with None => Some [] | Some v => as_obj v end;
      groups ← fill_all groupStats_fields (field "groups" page);
      head ← fill1 ("next_cursor", FStr, false) page;
      if json then Some [Json (JObj (("groups", match field "groups" page with None => JNull | _ => JArr (JObj <$> groups) end) :: head))]
      else t ← printTable false ["GROUP"; "PENDING"; "INFLIGHT"] ((λ o, [text_of "key" o; number_of "pending" o; number_of "inflight" o]) <$> groups);
           Some (t ++ next_page head)
  | _ => None
  end.

Definition print_groups (json : bool) (c : command) (v : option jval) : option (list piece) :=
  match c with
  | CGroupList _ _ _ _ =>
      page ← match v with None => Some [] | Some v => as_obj v end;
      configs ← match field "configs" page with None => Some [] | Some v => l ← as_arr v; mapM as_obj l end;
      head ← fill1 ("next_cursor", FStr, false) page;
      if json then Some [Json (JObj (("configs", match field "configs" page with None => JNull | _ => JArr (JObj <$> configs) end) :: head))]
      else Some (((λ o, line ("  Key: " +:+ text_of "key" o +:+ "  Parallelism: " +:+ number_of "parallelism" o)) <$> configs) ++ next_page head)
  | CGroupGet _ _ _ | CGroupSet _ _ _ _ => o ← as_obj (default (JObj []) v); Some [Json (JObj o)]
  | CGroupDelete _ _ k => Some [Text "Group config "; Quoted k; line " deleted"]
  | _ => None
  end.

(** A range loop over a map visits it in any order. *)
Definition print_users (ord : jobject → jobject) (json : bool) (c : command) (v : option jval) : option (list piece) :=
  match c with
  | CUserList => l ← fill_all userView_fields v;
      printTable json ["USERNAME"; "ROLE"; "EMAIL"; "CREATED"]
        ((λ o, [text_of "username" o; text_of "role" o; text_of "email" o; text_of "created_at" o]) <$> l)
  | CUserCreate _ _ _ _ => o ← fill_one userView_fields v; Some (either json o [Text "User "; Quoted (text_of "username" o); line " created"])
  | CUserGet _ | CUserUpdate _ _ _ _ => o ← fill_one userView_fields v; Some [Json (JObj o)]
  | CUserDelete u => Some [Text "User "; Quoted u; line " deleted"]
  | CUserPermissions _ =>
      o ← match v with None => Some [] | Some v => as_obj v end;
      u ← fill1 ("username", FStr, false) o;
      perms ← match field "permissions" o with None => Some [] | Some p => as_obj p end;
      lists ← mapM (λ x : string * jval, pair x.1 <$> as_strs x.2) perms;
      if json then Some [Json (JObj (u ++ [("permissions", match field "permissions" o with None => JNull | _ => JObj (prod_map id jstrs <$> lists) end)]))]
      else Some ((λ x : string * jval, line ("  " +:+ x.1 +:+ ": " +:+ sprint_strs (default [] (as_strs x.2)))) <$> ord perms)
  | _ => None
  end.

Definition print_keys (json : bool) (c : command) (v : option jval) : option (list piece) :=
  match c with
  | CKeyCreate _ _ _ => o ← fill_one newKey_fields v;
      Some (either json o [line ("API Key: " +:+ text_of "key" o); line ("Namespace: " +:+ text_of "namespace" o);
                           line ("Permissions: " +:+ texts_of "permissions" o);
                           line ("Save this key " +:+ bytes_str [xe2; x80; x94] +:+ " it will not be shown again")])
  | CKeyList => l ← fill_all keyEntry_fields v;
      printTable json ["NAME"; "NAMESPACE"; "PERMISSIONS"; "PREFIX"]
        ((λ o, [text_of "subject_id" o; text_of "namespace" o; texts_of "permissions" o; text_of "prefix" o]) <$> l)
  | CKeyRevoke _ => o ← match v with None => Some [] | Some v => as_obj v end;
      _ ← optional as_bool "success" o; Some [line "API key revoked"]
  | _ => None
  end.

(** [health]: a mark, the name and the detail of each check *)
Definition print_check (o : jobject) : piece :=
  line ("  " +:+ (if bool_decide (text_of "status" o = "ok") then bytes_str [xe2; x9c; x93] else bytes_str [xe2; x9c; x97]) +:+ " " +:+ text_of "name" o
        +:+ (if bool_decide (text_of "detail" o = "") then "" else " (" +:+ text_of "detail" o +:+ ")")).

(** A list of objects of texts, as the catalog of permissions has them *)
Definition read_catalog (k : string) (o : jobject) : option (list jval) :=
  match field k o with
  | None => Some []
  | Some v => l ← as_arr v; mapM (λ v, o ← as_obj v; if forallb (λ x, bool_decide (is_Some (as_str x.2))) o then Some (JObj o) else None) l
  end.

Definition print_system (json : bool) (c : command) (v : option jval) : option (list piece) :=
  match c with
  | CLogin _ _ => o ← match v with None => Some [] | Some v => as_obj v end;
      _ ← optional as_str "access_token" o; _ ← optional as_str "refresh_token" o; _ ← optional as_num "expires_in" o;
      _ ← optional as_str "token_type" o; Some [line "Login successful"]
  | CHealth =>
      o ← match v with None => Some [] | Some v => as_obj v end;
      h ← fill [("status", FStr, false); ("version", FStr, false)] o;
      checks ← fill_all check_fields (field "checks" o);
      if json then Some [Json (JObj (h ++ [("checks", match field "checks" o with None => JNull | _ => JArr (JObj <$> checks) end)]))]
      else Some ([line ("Status:  " +:+ text_of "status" h); line ("Version: " +:+ text_of "version" h); line "Checks:"] ++ (print_check <$> checks))
  | CPermissions =>
      o ← match v with None => Some [] | Some v => as_obj v end;
      g ← read_catalog "global" o; n ← read_catalog "namespace" o; Some [Json (JObj [("global", JArr g); ("namespace", JArr n)])]
  | CMetrics => o ← match v with None => Some [] | Some v => as_obj v end; Some [Json (JObj o)]
  | _ => None
  end.

(** The output of a command whose answer is [v]; [None] when the answer cannot
    be read. *)
Definition print_result (ord : jobject → jobject) (json : bool) (c : command) (v : option jval) : option (list piece) :=
  match c with
  | CNamespaceList | CNamespaceCreate _ | CNamespaceGet _ | CNamespaceDelete _ => print_namespaces json c v
  | CQueueList | CQueueCreate _ _ | CQueueGet _ _ | CQueueDelete _ _ | CQueueSnapshot _ _ | CQueueStats _ _ _ _ => print_queues json c v
  | CGroupList _ _ _ _ | CGroupGet _ _ _ | CGroupSet _ _ _ _ | CGroupDelete _ _ _ => print_groups json c v
  | CUserList | CUserCreate _ _ _ _ | CUserGet _ | CUserUpdate _ _ _ _ | CUserDelete _ | CUserPermissions _ => print_users ord json c v
  | CKeyCreate _ _ _ | CKeyList | CKeyRevoke _ => print_keys json c v
  | CLogin _ _ | CHealth | CPermissions | CMetrics => print_system json c v
  end.

(** ** Tables are aligned *)

(** The column a cell starts in *)
Definition column (ws : list Z) (i : nat) : Z := sumWidths ws i + Z.of_nat i.

Lemma len_app s t : len (s +:+ t) = len s + len t.
Proof. unfold len. rewrite <-!length_str_bytes, str_bytes_app, length_app. lia. Qed.

Lemma foldl_add l a : foldl Z.add a l = a + foldl Z.add 0 l.
Proof.
  revert a. induction l as [|x l IH]; intros a; cbn; [lia|]. rewrite (IH (a + x)), (IH (0 + x)). lia.
Qed.

Lemma column_cons w ws i : column (w :: ws) (S i) = w + 1 + column ws i.
Proof. unfold column, sumWidths. cbn [take foldl]. rewrite foldl_add. lia. Qed.

Lemma repeat_space n : len (stringsRepeat " " n) = Z.max 0 n.
Proof.
  unfold stringsRepeat. destruct (Z.leb_spec n 0); [by rewrite Z.max_l by lia|]. rewrite Z.max_r by lia.
  rewrite <-(Z2Nat.id n) at 2 by lia. generalize (Z.to_nat n). intros k. clear.
  induction k as [|k IH]; [done|]. destruct k as [|k]; [done|].
  change (String.concat "" (replicate (S (S k)) " ")) with (" " +:+ "" +:+ String.concat "" (replicate (S k) " ")).
  rewrite !len_app, IH. change (len " ") with 1. change (len "") with 0. lia.
Qed.

Definition padding (cell : string) (w : Z) : string := if len cell <? w then stringsRepeat " " (w - len cell) else "".
Lemma padded cell w : len cell ≤ w → len cell + len (padding cell w) = w.
Proof.
  intros Hw. unfold padding. destruct (Z.ltb_spec (len cell) w); [|change (len "") with 0; lia]. rewrite repeat_space. lia.
Qed.

(** A row whose cells fit: every cell stands in its column, and all rows have
    the same length. *)
Lemma print_cells_spec (first : bool) (cells : list string) (ws : list Z) :
  Forall2 (λ c w, len c ≤ w) cells ws →
  let off := if first then 0 else 1 in
  ∃ t, print_cells first cells ws " " = Some t ∧
    (cells ≠ [] → len t = off + column ws (length ws)) ∧
    ∀ i c, cells !! i = Some c → ∃ pre post, str_bytes t = pre ++ str_bytes c ++ post ∧ Z.of_nat (length pre) = off + column ws i.
Proof.
  intros H. revert first. induction H as [|c w cells ws Hc Hcs IH]; intros first; [by exists newline|].
  destruct (IH false) as (rest & Hr & Hl & Hi). cbn [print_cells]. rewrite Hr. cbn [mbind option_bind]. fold (padding c w).
  eexists. split; [done|]. pose proof (padded c w Hc) as Hp.
  assert (len (if first then "" else " ") = if first then 0 else 1) as Hoff by (by destruct first). split.
  - intros _. rewrite !len_app, Hoff. cbn [length]. rewrite column_cons. destruct cells as [|c' cells].
    + apply Forall2_nil_inv_l in Hcs as ->. injection Hr as <-. change (len newline) with 1. change (column [] (length [])) with 0. lia.
    + rewrite Hl by done. lia.
  - intros [|i] x Hx; [injection Hx as <-|].
    + exists (str_bytes (if first then "" else " ")), (str_bytes (padding c w) ++ str_bytes rest).
      rewrite !str_bytes_app. split; [done|]. rewrite length_str_bytes. change (column (w :: ws) 0) with 0. unfold len in Hoff. lia.
    + destruct (Hi i x Hx) as (pre & post & E & Hlen).
      exists (str_bytes (if first then "" else " ") ++ str_bytes c ++ str_bytes (padding c w) ++ pre), post.
      rewrite !str_bytes_app, E, <-!app_assoc. split; [done|]. rewrite column_cons, !length_app, !length_str_bytes.
      unfold len in *. lia.
Qed.

Lemma widen_spec ws row : length row = length ws →
  ∃ ws', widen ws row = Some ws' ∧ length ws' = length ws ∧ Forall2 Z.le ws ws' ∧ Forall2 (λ c w, len c ≤ w) row ws'.
Proof.
  revert ws. induction row as [|c row IH]; intros [|w ws] Hl; try done; [by exists []|]. injection Hl as Hl.
  destruct (IH ws Hl) as (ws' & H1 & H2 & H3 & H4). cbn [widen]. rewrite H1. eexists. split; [done|]. cbn [length].
  split; [congruence|]. destruct (Z.ltb_spec w (len c)); (split; (constructor; [lia|done])).
Qed.

Lemma fits_mono cells ws ws' : Forall2 (λ c w, len c ≤ w) cells ws → Forall2 Z.le ws ws' → Forall2 (λ c w, len c ≤ w) cells ws'.
Proof.
  intros H1. revert ws'. induction H1 as [|c w cells ws H1 _ IH]; intros ws' H2; inversion_clear H2; constructor; [lia|by apply IH].
Qed.

Lemma table_widths_spec headers rows :
  Forall (λ row, length row = length headers) rows →
  ∃ ws, table_widths headers rows = Some ws ∧ length ws = length headers ∧
    Forall (λ row, Forall2 (λ c w, len c ≤ w) row ws) (headers :: rows).
Proof.
  intros Hrows. unfold table_widths.
  assert (∀ seen ws0, Forall (λ row, Forall2 (λ c w, len c ≤ w) row ws0) seen → length ws0 = length headers →
    ∃ ws, foldl (λ ws row, ws ← ws; widen ws row) (Some ws0) rows = Some ws ∧ length ws = length headers ∧
      Forall (λ row, Forall2 (λ c w, len c ≤ w) row ws) (seen ++ rows)) as Hgen.
  { induction Hrows as [|row rows Hrow Hrows IH]; intros seen ws0 Hd Hl; [exists ws0; rewrite app_nil_r; by split_and!|].
    cbn [foldl mbind option_bind]. destruct (widen_spec ws0 row) as (ws1 & -> & H2 & H3 & H4); [congruence|].
    destruct (IH (seen ++ [row]) ws1) as (ws & H5 & H6 & H7).
    - apply Forall_app. split; [|by apply Forall_singleton]. eapply Forall_impl; [exact Hd|]. intros r Hr. exact (fits_mono r ws0 ws1 Hr H3).
    - congruence.
    - exists ws. by rewrite <-app_assoc in H7. }
  apply (Hgen [headers]); [|by rewrite length_fmap]. apply Forall_singleton. apply Forall2_fmap_r, Forall_Forall2_diag, Forall_true. cbn. lia.
Qed.

Lemma table_layout headers rows :
  headers ≠ [] → Forall (λ row, length row = length headers) rows →
  ∃ ws head lines rule,
    table_text headers rows = Some (head +:+ rule +:+ newline +:+ String.concat "" lines) ∧
    rule = stringsRepeat dash (column ws (length ws) - 1) ∧
    Forall2 (λ row t, len t = column ws (length ws) ∧
      ∀ i c, row !! i = Some c → ∃ pre post, str_bytes t = pre ++ str_bytes c ++ post ∧ Z.of_nat (length pre) = column ws i)
      (headers :: rows) (head :: lines).
Proof.
  intros Hne Hrows. destruct (table_widths_spec headers rows Hrows) as (ws & Hws & Hl & Hfit).
  assert (∀ row, row ≠ [] → Forall2 (λ c w, len c ≤ w) row ws → ∃ t, printRow row ws " " = Some t ∧ len t = column ws (length ws) ∧
    ∀ i c, row !! i = Some c → ∃ pre post, str_bytes t = pre ++ str_bytes c ++ post ∧ Z.of_nat (length pre) = column ws i) as Hrow.
  { intros row Hr Hf. destruct (print_cells_spec true row ws Hf) as (t & H1 & H2 & H3). exists t. split_and!; [done|by rewrite H2|done]. }
  apply Forall_cons in Hfit as [Hh Hfit]. destruct (Hrow headers Hne Hh) as (head & H1 & H2 & H3).
  assert (∃ lines, mapM (λ row, printRow row ws " ") rows = Some lines ∧
    Forall2 (λ row t, len t = column ws (length ws) ∧
      ∀ i c, row !! i = Some c → ∃ pre post, str_bytes t = pre ++ str_bytes c ++ post ∧ Z.of_nat (length pre) = column ws i) rows lines)
    as (lines & H4 & H5).
  { clear H1 H2 H3 Hws. induction Hfit as [|row rows Hf Hfit IH]; [by exists []|]. apply Forall_cons in Hrows as [Hlr Hrows].
    destruct (Hrow row) as (t & E1 & E2); [destruct row, headers; done|done|]. destruct (IH Hrows) as (lines & E3 & E4).
    exists (t :: lines). cbn [mapM]. rewrite E1. cbn [mbind option_bind]. rewrite E3. split; [done|by constructor]. }
  exists ws, head, lines, (stringsRepeat dash (column ws (length ws) - 1)). split_and!; [|done|by constructor].
  unfold table_text. rewrite Hws. cbn [mbind option_bind]. rewrite H1. cbn [mbind option_bind]. rewrite H4. cbn [mbind option_bind].
  unfold column. by rewrite Hl.
Qed.

(** Tables are aligned: a table whose rows have a cell per header is printed
    without a panic, as rows of equal length in which every cell stands in the
    column of its header. *)
Theorem table_aligned headers rows :
  headers ≠ [] → Forall (λ row, length row = length headers) rows →
  ∃ ws head lines rule,
    table_text headers rows = Some (head +:+ rule +:+ newline +:+ String.concat "" lines) ∧
    rule = stringsRepeat dash (column ws (length ws) - 1) ∧
    Forall2 (λ row t, len t = column ws (length ws) ∧
      ∀ i c, row !! i = Some c → ∃ pre post, str_bytes t = pre ++ str_bytes c ++ post ∧ Z.of_nat (length pre) = column ws i)
      (headers :: rows) (head :: lines).
Proof. apply table_layout. Qed.

Lemma table_aligned_witness :
  let headers := ["GROUP"; "PENDING"; "INFLIGHT"] in let rows := [["tenant-1"; "12"; "0"]] in
  (headers ≠ [] ∧ Forall (λ row, length row = length headers) rows) ∧
  ∃ ws head lines rule,
    table_text headers rows = Some (head +:+ rule +:+ newline +:+ String.concat "" lines) ∧
    rule = stringsRepeat dash (column ws (length ws) - 1) ∧
    Forall2 (λ row t, len t = column ws (length ws) ∧
      ∀ i c, row !! i = Some c → ∃ pre post, str_bytes t = pre ++ str_bytes c ++ post ∧ Z.of_nat (length pre) = column ws i)
      (headers :: rows) (head :: lines).
Proof.
  assert (Forall (λ row : list string, length row = length ["GROUP"; "PENDING"; "INFLIGHT"]) [["tenant-1"; "12"; "0"]]) as H by by_eval.
  split; [split; [done|exact H]|]. exact (table_aligned ["GROUP"; "PENDING"; "INFLIGHT"] [["tenant-1"; "12"; "0"]] ltac:(done) H).
Defined.

(** ** Every answer can be printed *)

(** The kind of body each request is answered with *)
Definition answers (r : request) (b : body) : bool :=
  match r, b with
  | RListNamespaces, BNamespaces _ | RCreateNamespace _ _, BNamespace _ | RGetNamespace _, BNamespace _ | RUpdateNamespace _ _, BNamespace _
  | RDeleteNamespace _, BNone | RListUsers, BUsers _ | RCreateUser _ _ _ _, BUser _ | RGetUser _, BUser _ | RUpdateUser _ _ _ _, BUser _
  | RDeleteUser _, BNone | RGetPermissions _, BGrants _ _ | RSetPermissions _ _ _, BGrant _ _ _ | RDeletePermissions _ _, BNone
  | RListQueues, BQueues _ | RDeclareQueue _ _ _, BQueue _ | RGetQueue _ _, BQueue _ | RDeleteQueue _ _, BNone | RSnapshot _ _, BMessage _
  | RStats _ _ _ _, BStats _ _ | RGroupStats _ _ _, BGroupStats _ | RListGroups _ _ _ _, BConfigs _ _ | RSetGroup _ _ _ _, BConfig _
  | RGetGroup _ _ _, BConfig _ | RDeleteGroup _ _ _, BNone | RLogin _ _, BTokens _ | RRefresh _, BTokens _ | RLogout, BSuccess
  | RCreateKey _ _ _, BKey _ _ _ _ | RListKeys, BKeys _ | RRevokeKey _, BSuccess | RPermissions, BCatalog _ _ => true
  | _, _ => false
  end.

Section answers.
Context `{JSON} (sha256 : list byte → list byte) (hashKey : string → string).
Context (fk : bool) (bcrypt : string → option string) (compare : string → string → bool).
Context (marshal_strings : list string → string) (unmarshal_strings : string → list string).
Context (marshal_config : GroupConfig → string) (marshal_durable : bool → string).
Context (is_object is_email : string → bool) (ParseDuration : string → option Z).
Context (unmarshal_object : string → jobject) (describe : string → string).
Local Abbreviation handle' := (handle sha256 hashKey fk bcrypt compare marshal_strings unmarshal_strings
  marshal_config marshal_durable is_object is_email ParseDuration).
Local Abbreviation body_json' := (body_json unmarshal_object describe).

Definition answer_ok (r : request) (o : outcome response) : Prop :=
  match o with Ret (Ok st b) => answers r b = true ∧ 200 ≤ st < 400 | Ret (Fail st) => 400 ≤ st | Panic => True end.

Lemma answer_dbError r d : answer_ok r (Ret (dbError d)).
Proof. by destruct d. Qed.

Lemma handle_answers e mgr id r a : answer_ok r (handle' e mgr id r a).2.
Proof.
  unfold handle. destruct (negb _); [done|].
  destruct r; destruct id as [id|]; try done; try (cbn; split; [done|lia]);
    cbn [handle_namespaces handle_users handle_queues handle_tokens handle_keys];
    unfold list_namespaces, create_namespace, get_namespace, update_namespace, delete_namespace, list_users, create_user, get_user,
      patch_user, delete_user, get_user_permissions, set_user_permissions, delete_user_permissions, namespace_answer, user_answer, answer_db,
      list_queues, declare_queue, get_queue, delete_queue, snapshot_queue, queue_stats, group_stats, list_groups, set_group,
      get_group_config, delete_group, on_found, login, refresh, logout, list_permissions, create_key, list_keys, revoke_key, managing, forbidden;
    cbn [snd]; repeat (match goal with |- context [match ?x with _ => _ end] => destruct x end; cbn [snd]);
    try apply answer_dbError; try done; try (split; [done|lia]).
  all: by destruct (RefreshTokens _ _ _ _ _ _ _) as [[t|]|].
Qed.

(** *** Structures *)

Lemma mapM_total {A B C} (f : B → option C) (g : A → B) l : (∀ x, is_Some (f (g x))) → is_Some (mapM f (g <$> l)).
Proof. intros Hf. apply mapM_is_Some, Forall_fmap, Forall_true. exact Hf. Qed.

Lemma filled_namespace n : is_Some (fill namespaceView_fields (namespace_json unmarshal_object n)).
Proof. destruct n as [i nm [c|] cr up]; unfold namespace_json; cbn; [destruct (unmarshal_object c)|]; by eexists. Qed.
Lemma filled_queue q : is_Some (fill queue_fields (summary_json q)).
Proof. by eexists. Qed.
Lemma filled_detail q : is_Some (fill queue_fields (detail_json q)).
Proof. by eexists. Qed.
Lemma filled_stats g : is_Some (fill groupStats_fields (stats_json g)).
Proof. by eexists. Qed.
Lemma filled_user u : is_Some (fill userView_fields (user_json u)).
Proof. destruct u as [i u [e|] r cr up]; unfold user_json, unless_empty; case_bool_decide; cbn; by eexists. Qed.
Lemma filled_all fs o : Forall (λ f, is_Some (fill1 f o)) fs → is_Some (fill fs o).
Proof. intros H'. unfold fill. destruct (proj2 (mapM_is_Some (λ f, fill1 f o) fs) H') as [l ->]. by eexists. Qed.
Lemma filled_strs k omit o l : field k o = Some (jstrs l) → is_Some (fill1 (k, FStrs, omit) o).
Proof.
  intros Hk. unfold fill1. rewrite Hk. unfold jstrs at 1. cbv iota beta. fold (jstrs l). rewrite jstrs_read. by eexists.
Qed.

Lemma filled_entry k : is_Some (fill keyEntry_fields (key_json k)).
Proof.
  destruct k as [s ns l p]. apply filled_all. unfold key_json, unless_empty.
  case_bool_decide; (repeat (apply Forall_cons; split); [by eexists|by eexists|by apply (filled_strs _ _ _ l)|by eexists|apply Forall_nil_2]).
Qed.
Lemma filled_key k s ns l : is_Some (fill newKey_fields [("key", JStr k); ("subject_id", JStr s); ("namespace", JStr ns); ("permissions", jstrs l)]).
Proof.
  apply filled_all. repeat (apply Forall_cons; split); [by eexists|by eexists|by eexists|by apply (filled_strs _ _ _ l)|apply Forall_nil_2].
Qed.

(** *** Tables *)

Lemma printTable_total json headers rows :
  headers ≠ [] → Forall (λ row, length row = length headers) rows → is_Some (printTable json headers rows).
Proof.
  intros Hne Hrows. unfold printTable. destruct json.
  - assert (is_Some (mapM (row_object headers) rows)) as [objs ->]; [|by eexists].
    apply mapM_is_Some. eapply Forall_impl; [exact Hrows|]. intros row Hl. unfold compose. clear -Hl.
    revert row Hl. induction headers as [|h hs IH]; intros [|c cs] Hl; try done. cbn. destruct (IH cs) as [o ->]; [by injection Hl|]. by eexists.
  - destruct (table_layout headers rows Hne Hrows) as (ws & hd & ls & rule & -> & _). by eexists.
Qed.

Lemma printed_table {A} json headers (f : A → list string) l :
  headers ≠ [] → (∀ x, length (f x) = length headers) → is_Some (printTable json headers (f <$> l)).
Proof. intros Hne Hf. apply printTable_total; [done|]. apply Forall_fmap, Forall_true. exact Hf. Qed.

Lemma fill_all_total {A} fs (g : A → jobject) l : (∀ x, is_Some (fill fs (g x))) → is_Some (fill_all fs (Some (JArr (JObj ∘ g <$> l)))).
Proof. intros Hg. unfold fill_all. cbn [as_arr mbind option_bind]. apply mapM_total. intros x. apply Hg. Qed.

Lemma bind_total {A B} (x : option A) (f : A → option B) : is_Some x → (∀ a, is_Some (f a)) → is_Some (x ≫= f).
Proof. intros [a ->] Hf. apply Hf. Qed.

(** A page: its list and its cursor *)
Lemma page_fields k l next :
  field k ([(k, l)] ++ unless_empty "next_cursor" next) = Some l ∧
  (k ≠ "next_cursor" → is_Some (fill1 ("next_cursor", FStr, false) ([(k, l)] ++ unless_empty "next_cursor" next))).
Proof.
  split; [cbn; by rewrite bool_decide_eq_true_2|]. intros Hk. unfold fill1, unless_empty. case_bool_decide; cbn [app field].
  - rewrite bool_decide_eq_false_2 by done. by eexists.
  - rewrite (bool_decide_eq_false_2 (k = _)), (bool_decide_eq_true_2 ("next_cursor" = _)) by done. by eexists.
Qed.

Lemma catalog_read k l o : field k o = Some (catalog_json describe l) → is_Some (read_catalog k o).
Proof.
  intros Hk. unfold read_catalog. rewrite Hk. cbn [catalog_json as_arr mbind option_bind]. apply mapM_total. by eexists.
Qed.

Lemma grants_read (m : gmap string (list string)) :
  is_Some (mapM (λ x : string * jval, pair x.1 <$> as_strs x.2) (prod_map id jstrs <$> map_to_list m)).
Proof. apply mapM_total. intros [ns l]. cbn [prod_map fst snd]. rewrite jstrs_read. by eexists. Qed.

Lemma printed_namespaces json c r b :
  command_means c = Some (Request r) → answers r b = true → is_Some (namespace_request c) → is_Some (print_namespaces json c (body_json' b)).
Proof.
  intros Hc Hb [s Hs]. destruct c; try done; injection Hc as <-; destruct b; try done; cbn [print_namespaces body_json].
  - apply bind_total; [apply fill_all_total, filled_namespace|]. intros l'. by apply printed_table.
  - apply bind_total; [apply filled_namespace|]. by eexists.
  - apply bind_total; [apply filled_namespace|]. by eexists.
Qed.

Lemma printed_queues json c r b :
  command_means c = Some (Request r) → answers r b = true → is_Some (queue_request c) → is_Some (print_queues json c (body_json' b)).
Proof.
  intros Hc Hb [s Hs]. destruct c; try done; injection Hc as <-; destruct b; try done; cbn [print_queues body_json].
  all: try (apply bind_total; [first [apply fill_all_total, filled_queue | apply filled_detail]|]; intros l'; first [by apply printed_table | by eexists]).
  all: try by eexists.
  cbn [as_obj mbind option_bind]. destruct (page_fields "groups" (JArr (JObj ∘ stats_json <$> groups)) next) as [Hf Hn]. rewrite Hf.
  apply bind_total; [apply fill_all_total, filled_stats|]. intros gs. apply bind_total; [by apply Hn|]. intros hd. destruct json; [by eexists|].
  apply bind_total; [by apply printed_table|]. by eexists.
Qed.

Lemma printed_groups json c r b :
  command_means c = Some (Request r) → answers r b = true → is_Some (group_request c) → is_Some (print_groups json c (body_json' b)).
Proof.
  intros Hc Hb [s Hs]. destruct c; try done; cbn [command_means] in Hc.
  - injection Hc as <-. destruct b; try done. cbn [print_groups body_json as_obj mbind option_bind].
    destruct (page_fields "configs" (JArr (JObj ∘ config_json <$> configs)) next) as [Hf Hn]. rewrite Hf. cbn [as_arr mbind option_bind].
    apply bind_total; [apply mapM_total; by eexists|]. intros cs. apply bind_total; [by apply Hn|]. intros hd. destruct json; by eexists.
  - injection Hc as <-. destruct b; try done; by eexists.
  - destruct (gf_retry_max flags), (gf_retry_backoff flags); try done. injection Hc as <-. destruct b; try done; by eexists.
Qed.

Lemma printed_users ord json c r b :
  command_means c = Some (Request r) → answers r b = true → is_Some (user_request c) → is_Some (print_users ord json c (body_json' b)).
Proof.
  intros Hc Hb [s Hs]. destruct c; try done; injection Hc as <-; destruct b; try done; cbn [print_users body_json].
  all: try (apply bind_total; [first [apply fill_all_total, filled_user | apply filled_user]|]; intros l'; first [by apply printed_table | by eexists]).
  all: try by eexists.
  cbn [as_obj mbind option_bind]. apply bind_total; [by eexists|]. intros u. unfold grants_json.
  change (field "permissions" _) with (Some (JObj (prod_map id jstrs <$> map_to_list m))). cbn [as_obj mbind option_bind].
  apply bind_total; [apply grants_read|]. intros ls. destruct json; by eexists.
Qed.

Lemma printed_keys json c r b :
  command_means c = Some (Request r) → answers r b = true → is_Some (key_request c) → is_Some (print_keys json c (body_json' b)).
Proof.
  intros Hc Hb [s Hs]. destruct c; try done; injection Hc as <-; destruct b; try done; cbn [print_keys body_json].
  - apply bind_total; [apply filled_key|]. by eexists.
  - apply bind_total; [apply fill_all_total, filled_entry|]. intros l'. by apply printed_table.
Qed.

Lemma printed_system json c r b :
  command_means c = Some (Request r) → answers r b = true → (∃ u p, c = CLogin u p) ∨ c = CPermissions → is_Some (print_system json c (body_json' b)).
Proof.
  intros Hc Hb [(u & p & ->)| ->]; injection Hc as <-; destruct b; try done; cbn [print_system body_json as_obj mbind option_bind].
  - unfold token_json, unless_empty. case_bool_decide; by eexists.
  - apply bind_total; [by apply (catalog_read _ global)|]. intros g. apply bind_total; [by apply (catalog_read _ namespace)|]. by eexists.
Qed.

Lemma printed_health json h : is_Some (print_system json CHealth (Some (JObj (health_json h)))).
Proof.
  destruct h as [st ve cs]. cbn [print_system as_obj mbind option_bind]. apply bind_total; [by eexists|]. intros o.
  assert (∀ c, is_Some (fill check_fields (check_json c))) as Hcheck.
  { intros [n t d]. unfold check_json, unless_empty. case_bool_decide; by eexists. }
  destruct cs as [|c cs].
  - change (field "checks" _) with (@None jval). destruct json; by eexists.
  - change (field "checks" _) with (Some (JArr (JObj ∘ check_json <$> c :: cs))).
    apply bind_total; [by apply fill_all_total|]. intros l. destruct json; by eexists.
Qed.

Lemma printed ord json c r b :
  command_means c = Some (Request r) → answers r b = true → is_Some (print_result ord json c (body_json' b)).
Proof.
  intros Hc Hb. destruct c; unfold print_result; try done;
    first [apply (printed_namespaces json _ r b); [done|done|by eexists] | apply (printed_queues json _ r b); [done|done|by eexists]
          | apply (printed_groups json _ r b); [done|done|by eexists] | apply (printed_users ord json _ r b); [done|done|by eexists]
          | apply (printed_keys json _ r b); [done|done|by eexists] | apply (printed_system json _ r b); [done|done|naive_solver]].
Qed.

(** *** The whole tool *)

Context (marshal_object : jobject → string) (error_json : Z → jobject) (raw : http_reply → string).
Context (yaml_Unmarshal : string → option Config) (yaml_Marshal : Config → string) `{Router}.
Local Abbreviation run_command' := (run_command sha256 hashKey fk bcrypt compare marshal_strings unmarshal_strings
  marshal_config marshal_durable is_object is_email ParseDuration marshal_object unmarshal_object describe error_json raw yaml_Unmarshal yaml_Marshal).

Lemma serve_answers e mgr hd r a : answer_ok r (serve sha256 hashKey fk bcrypt compare marshal_strings unmarshal_strings
  marshal_config marshal_durable is_object is_email ParseDuration e mgr hd r a).2.
Proof.
  unfold serve. destruct (negb _); [apply handle_answers|]. destruct (negb _); [done|].
  destruct (VerifyToken _ _ _ _ _ _); [apply handle_answers|done].
Qed.

Lemma failed_result st : 400 ≤ st → ∃ err, client_result (raw (fail error_json st)) (fail error_json st) = inr err.
Proof. intros Hst. unfold client_result. cbn [hp_status fail]. rewrite (proj2 (Z.leb_le _ _)) by done. by eexists. Qed.

(** Every answer is understood: when a command with arguments a path can
    carry is not answered with an error, the structures of the command line can
    read the answer and print it, as text and as JSON. *)
Theorem answer_printed fl env e mgr pr c w w' v ord json :
  args_ok c → run_command' fl env e mgr pr c w = (w', inl v) → is_Some (print_result ord json c v).
Proof.
  intros Ha. unfold run_command. destruct (preRun _ _ _ _) as [cfg|]; [|done]. destruct (command_request c) as [s|] eqn:Hc; [|done].
  rewrite (command_serving sha256 hashKey fk bcrypt compare marshal_strings unmarshal_strings marshal_config marshal_durable is_object is_email
    ParseDuration marshal_object unmarshal_object describe error_json c s cfg e mgr pr (w_api w) Hc Ha).
  destruct (command_means c) as [[r| |]|] eqn:Em.
  - pose proof (serve_answers e mgr (hr_authorization (command_http cfg s)) r (w_api w)) as Hok.
    destruct (serve _ _ _ _ _ _ _ _ _ _ _ _ _ _ _ _ _) as [a' [[st b|st]|]]; cbn [snd answer_ok outcome_map] in *; [| |done].
    + destruct Hok as [Hans Hst]. unfold client_result, reply. cbn [hp_status hp_body]. rewrite (proj2 (Z.leb_gt _ _)) by lia.
      intros [= _ <-]. by apply (printed ord json c r b).
    + unfold reply. by destruct (failed_result st Hok) as [err ->].
  - destruct c; try discriminate Em; [cbn in Em; by destruct (gf_retry_max flags), (gf_retry_backoff flags)|]. cbn [command_protected andb run_call].
    intros [= _ <-]. apply printed_health.
  - destruct c; try discriminate Em; [cbn in Em; by destruct (gf_retry_max flags), (gf_retry_backoff flags)|]. destruct (_ && _).
    + by destruct (failed_result 401 ltac:(lia)) as [err ->].
    + cbn [run_call]. intros [= _ <-]. by eexists.
  - destruct (bool_decide (is_Some _)).
    + by destruct (failed_result 422 ltac:(lia)) as [err ->].
    + by destruct (failed_result 401 ltac:(lia)) as [err ->].
Qed.
End answers.

(** ** Samples *)

#[local] Existing Instance Jwt.Sample.json.
#[local] Existing Instance first_router.

Lemma answer_printed_witness :
  let v := body_json (λ _, []) id (BCatalog GlobalPermissionCatalog NamespacePermissionCatalog) in
  (args_ok CPermissions ∧ Cli.Sample.run ApiInv.Sample.env default_flags CPermissions (mkWorld NoFile Cli.Sample.start) = (mkWorld NoFile Cli.Sample.start, inl v)) ∧
  is_Some (print_result id false CPermissions v).
Proof.
  intros v.
  assert (Cli.Sample.run ApiInv.Sample.env default_flags CPermissions (mkWorld NoFile Cli.Sample.start) = (mkWorld NoFile Cli.Sample.start, inl v)) as E
    by reflexivity.
  split; [exact (conj (conj (Forall_nil_2 _) I) E)|].
  exact (answer_printed Jwt.Sample.digest id true Some equal (λ _, "") (λ _, []) (λ _, "") (λ _, "") (λ _, true) (λ _, true) (λ _, None)
    (λ _, []) id (λ _, "") Cli.Sample.error_json (λ _, "") Cli.Sample.read_yaml Cli.Sample.write_yaml default_flags Cli.Sample.no_env
    ApiInv.Sample.env (Some Jwt.Sample.manager) Cli.Sample.probed CPermissions _ _ v id false (conj (Forall_nil_2 _) I) E).
Defined.

(** The server calls the messages being processed "processing", the command line
    looks for "inflight": the column is always zero. *)
Example inflight_always_zero g :
  fill groupStats_fields (stats_json g) = Some [("key", JStr (st_Key g)); ("pending", JNum (st_Pending g)); ("inflight", JNum 0)].
Proof. by destruct g. Qed.

(** [queue get] leaves out whether the queue is durable. *)
Example durable_not_shown q : fill queue_fields (detail_json q) = fill queue_fields (summary_json (mkQueueSummary (qd_Name q) (qd_Namespace q) (qd_ActiveGroups q) (qd_ConfigCount q))).
Proof. by destruct q. Qed.
